(* ===== verification/_CoqProject ===== *)
-Q . S2P
Prelude.v
Float64.v
FloatValid.v
Hlc.v
Types.v
Msgp.v
Codec.v
CodecProofs.v
DeltaLog.v
Store.v
StoreProofs.v
Counters.v
Windows.v
Logging.v
Sha256.v
NetAddr.v
Metrics.v
Client.v
Node.v
Reads.v
Server.v
NodeProofs.v
Convergence.v
Session.v
Cluster.v
Persist.v
WriteBack.v
Restart.v
Message.v
Threads.v
Typed.v
Concurrent.v
Delivery.v
Lifecycle.v
Goroutines.v
