(* ===== verification/Prelude.v ===== *)
(** * Capacitor: a verification development

    Capacitor (src/) is an active-active, local-first replicated cache.  Every
    node keeps a sharded in-memory store ([store.go]), stamps writes with a
    hybrid logical clock ([hlc.go]), appends them to a ring of encoded entries
    ([log.go]), and streams that ring to its peers over TCP ([transport.go]);
    a peer decodes the entries and merges them into its own store
    ([capacitor.go]).  Registers merge by last writer wins, counters by the
    greatest partial count per node, sliding windows by set union.  The wire
    format is MessagePack through generated codecs ([*_gen.go]).

    ** Files, and the code they model

    - [Prelude]: machine integers with their wrap-around, panicking outcomes
      ([go]), bytes, strings, shared tactics and list lemmas.
    - [Float64]: Go's [float64] as executable IEEE binary64; exactness on
      integers below 2^53; [FloatValid]: results are representable again.
    - [Hlc] (hlc.go): [HLC], [Now], [Update].
    - [Types] (types.go, log.go, transport.go): the wire types.
    - [Msgp]: the interface to tinylib/msgp (classes [Wire], [Source], [Sink]
      and their laws) and a concrete instance, module [Fixed].
    - [Codec] (hlc_gen.go, log_gen.go, transport_gen.go, types_gen.go): every
      generated method; [CodecProofs]: round trips and size bounds.
    - [DeltaLog] (log.go): [NewDeltaLog], [Append], [GetEntriesRaw], [Head],
      their abstract specification (a history of encodings) and the refinement.
    - [Store] (store.go): shards and every in-memory operation; [StoreProofs]:
      registers, deletes, expiry, sharding; [Counters]: increments and merging
      of partial counts; [Windows]: sliding windows.
    - [Persist] (store.go: [flush], [load], [close]): the store's database, with
      the interfaces to BadgerDB (class [Badger]) and to the encoding of
      registers (class [ValCodec]); [WriteBack]: the dirty sets and flushes;
      [Restart]: loading, and what a restart preserves.
    - [Logging] (capacitor.go: [Logger], [mlLoggerBridge]); [Sha256] and
      [NetAddr]: the functions of the standard library [New] uses for the
      gossip key and for addresses; [Message] (types.go: [Encode], [Decode];
      hlc.go: [String]).
    - [Metrics] (metrics.go): [Stat.Record] as atomic instructions of
      concurrent goroutines, summaries, the memory monitor.
    - [Client] (transport.go, StreamClient): connections as shared objects,
      [dial], [SendBatch], the idle janitor, closing, the buffer pool.
    - [Node] (capacitor.go): the [Capacitor] record and its operations,
      composed from the components as the source composes them; the interface
      to vmihailenco/msgpack (class [Msgpack]) with an instance, [Tagged].
    - [Reads] (capacitor.go: [Get], [GetScan], [Exists]): errors and agreement
      of the ways to read.
    - [Server] (transport.go, StreamServer): [handleConn], from the TLS
      outcome and the reader limited to 100 MB to the entries of each batch.
    - [NodeProofs]: replicators, the clock invariant of a node;
      [Convergence]: agreement of nodes; [Session]: what a whole session does to
      the node that reads it; [Cluster]: the path of a write from one node to
      another.
    - [Threads]: the operations of [Node] as sequences of steps, one for each
      lock they take, and schedules that interleave goroutines; [Typed]: every
      field stays within its Go type; [Concurrent]: the invariants of
      interleaved calls (clock and log, registers, counters, types);
      [Delivery]: concurrent calls, replication and a peer put together.
    - [Lifecycle] (capacitor.go: [New], [Close]; transport.go:
      [NewStreamServer], [Stop]; store.go: [newStore], [close]): start and end of a
      node, with the handles and channels they open and close; [Goroutines]
      (store.go: [flushLoop], [janitorLoop]; transport.go: [Start], [janitor];
      metrics.go: [memMonitor]; capacitor.go: [peerReplicatorLoop]): the step
      relation of everything that runs in a node, before and after [Close].

    ** State and effects

    A Go object is a record passed through the operations; a map is a [gmap],
    a slice a list, with what happens out of range written out.  Every store
    operation runs under one shard lock and is one step.  A goroutine is a
    program counter with its local variables; a schedule is a list of
    goroutine numbers, each with the clock reading its step gets.  Wall-clock
    readings, measured latencies and the outcomes of network calls are
    arguments.  The
    iteration order of a Go map is any order (class [RangeOrder]).  Integers
    are [Z] with the wrap-around of their type after each operation that can
    leave its range.

    ** What the theorems show

    - The clock: issued timestamps strictly increase and respect causality
      between nodes; a timestamp from too far in the future is rejected without
      effect.
    - The codecs: what one node encodes another decodes, and [Msgsize] bounds
      the encoding.
    - The log: [Append] and [GetEntriesRaw] implement a bounded history; a
      reader always makes progress.
    - The store: the shards implement one map of registers under every
      operation; registers, counters and windows converge whatever the order and
      repetitions of the updates; a deleted key stays hidden while its tombstone
      is kept; the janitor is not observable by reads.
    - Persistence: every operation marks what it changes, a flush brings the
      database up to date, and a store closed and loaded again has its
      registers, partial counts and aggregates back.
    - Metrics: concurrent records lose nothing and terminate under every
      scheduler.
    - Transport: a client introduces itself on every connection; a server
      applies a whole session and nothing of an unauthenticated one.
    - Nodes: one replicator per peer, a node reads its own writes, nodes that
      received the same entries agree, replication sends every entry after a
      peer's position once and in order, and a write made on one node becomes
      the register of another.
    - Concurrency: under any interleaving of the goroutines' steps nothing
      panics, no increment is lost, every call is logged once, and a peer that
      reads the replicated log ends with the node's counters and registers.
    - Life of a node: what a failed start leaves running; that no loop ends
      before [Close], and that after it nothing starts and every loop can return,
      handlers of open connections and replicators that missed the broadcast
      excepted; and that a node started again on its database has its data back.

    Most theorems ask for more than well-formed states: values the encoding
    preserves, keys without colons or reserved prefixes, timestamps without ties,
    entries within the slots of the log.  The comment at each theorem says what.

    Each component file ends with examples of the limits of these results:
    concrete inputs where the code behaves differently (ties, decrements,
    entries larger than the log's slots, colliding names, and so on).

    ** Bounds and fuel

    The loop of [handleConn] takes fuel, one unit per batch; the theorems give
    the number that is enough (one more than the batches of the session).  The
    logical clock is an [int32]: the clock theorems ask that the components
    seen plus the number of events stay below 2^31.  Counter results ask that
    totals stay below 2^53, where [float64] is exact.  The log's refinement
    asks that entries fit (capacity + 1) slots of the buffer.  A schedule is
    long enough when every goroutine gets five turns, the most lock-level steps
    an operation has; the results on concurrent calls ask that clock and log
    have room for five steps of each call.  The readers and trimmers of strings
    recurse on the bytes they have left.

    ** Not modelled

    The packets of TCP, TLS and gossip: their outcomes are inputs (the bytes of
    a connection, whether a dial, a write or a handshake succeeds, which members
    join), and so are BadgerDB's files.  Log records of the node itself, write
    deadlines, and the memory model below locks and atomic instructions are left
    out; reads are not interleaved with the other goroutines, since they change
    nothing but latency counters.  A send is one step with respect to the client's
    janitor, and the bytes a failed write had already sent are not kept.  [load]
    uses one clock reading.  [Close] is one step, but for the commit of a flush
    that had begun; what a commit does on a closed database is left open. *)

From stdpp Require Export functions base gmap strings list fin_maps numbers sorting.
From Stdlib Require Export ZArith Lia.
From Stdlib Require Import Strings.Byte Ascii.

#[local] Open Scope Z_scope.

(** ** Machine integers

    A Go integer of width [w] is a [Z] in the range of its type; each
    arithmetic operation of the source is followed by the conversion that
    wraps its result. *)

Definition wrap_signed (w z : Z) : Z := (z + 2 ^ (w - 1)) mod 2 ^ w - 2 ^ (w - 1).
Definition int64 (z : Z) : Z := wrap_signed 64 z.
Definition int32 (z : Z) : Z := wrap_signed 32 z.
Definition uint64 (z : Z) : Z := z mod 2 ^ 64.
Definition uint32 (z : Z) : Z := z mod 2 ^ 32.

Definition is_int64 (z : Z) : Prop := -9223372036854775808 <= z < 9223372036854775808.
Definition is_int32 (z : Z) : Prop := -2147483648 <= z < 2147483648.
Definition is_uint64 (z : Z) : Prop := 0 <= z < 18446744073709551616.
Definition is_uint32 (z : Z) : Prop := 0 <= z < 4294967296.

Create HintDb go discriminated.

Lemma int64_id z : is_int64 z -> int64 z = z.
Proof.
  unfold is_int64, int64, wrap_signed. intros H.
  change (2 ^ (64 - 1)) with 9223372036854775808.
  change (2 ^ 64) with 18446744073709551616.
  rewrite Z.mod_small; lia.
Qed.

Lemma int32_id z : is_int32 z -> int32 z = z.
Proof.
  unfold is_int32, int32, wrap_signed. intros H.
  change (2 ^ (32 - 1)) with 2147483648.
  change (2 ^ 32) with 4294967296.
  rewrite Z.mod_small; lia.
Qed.

Lemma uint64_id z : is_uint64 z -> uint64 z = z.
Proof. unfold is_uint64, uint64. intros H. rewrite Z.mod_small; lia. Qed.

Lemma uint32_id z : is_uint32 z -> uint32 z = z.
Proof. unfold is_uint32, uint32. intros H. rewrite Z.mod_small; lia. Qed.

Lemma int64_range z : is_int64 (int64 z).
Proof.
  unfold is_int64, int64, wrap_signed.
  change (2 ^ (64 - 1)) with 9223372036854775808.
  change (2 ^ 64) with 18446744073709551616.
  pose proof (Z.mod_pos_bound (z + 9223372036854775808) 18446744073709551616). lia.
Qed.

Lemma int64_add_l a b : int64 (int64 a + b) = int64 (a + b).
Proof.
  unfold int64, wrap_signed. f_equal.
  replace ((a + 2 ^ (64 - 1)) mod 2 ^ 64 - 2 ^ (64 - 1) + b + 2 ^ (64 - 1))
    with ((a + 2 ^ (64 - 1)) mod 2 ^ 64 + b) by lia.
  rewrite Zplus_mod_idemp_l. f_equal. lia.
Qed.

Lemma int32_range z : is_int32 (int32 z).
Proof.
  unfold is_int32, int32, wrap_signed.
  change (2 ^ (32 - 1)) with 2147483648.
  change (2 ^ 32) with 4294967296.
  pose proof (Z.mod_pos_bound (z + 2147483648) 4294967296). lia.
Qed.

Lemma uint64_range z : is_uint64 (uint64 z).
Proof.
  unfold is_uint64, uint64. change (2 ^ 64) with 18446744073709551616.
  pose proof (Z.mod_pos_bound z 18446744073709551616). lia.
Qed.

Lemma uint32_range z : is_uint32 (uint32 z).
Proof.
  unfold is_uint32, uint32. change (2 ^ 32) with 4294967296.
  pose proof (Z.mod_pos_bound z 4294967296). lia.
Qed.

#[export] Hint Resolve int64_range int32_range uint64_range uint32_range : go.

(** [go_unwrap] rewrites away the wrap-around of operations whose exact result
    is in range. *)
Ltac go_unwrap :=
  repeat match goal with
  | |- context [int64 ?z] => rewrite (int64_id z) by (unfold is_int64 in *; lia)
  | |- context [int32 ?z] => rewrite (int32_id z) by (unfold is_int32 in *; lia)
  | |- context [uint64 ?z] => rewrite (uint64_id z) by (unfold is_uint64 in *; lia)
  | |- context [uint32 ?z] => rewrite (uint32_id z) by (unfold is_uint32 in *; lia)
  | H : context [int64 ?z] |- _ => rewrite (int64_id z) in H by (unfold is_int64 in *; lia)
  | H : context [int32 ?z] |- _ => rewrite (int32_id z) in H by (unfold is_int32 in *; lia)
  | H : context [uint64 ?z] |- _ => rewrite (uint64_id z) in H by (unfold is_uint64 in *; lia)
  | H : context [uint32 ?z] |- _ => rewrite (uint32_id z) in H by (unfold is_uint32 in *; lia)
  end.

(** [case_ifs] splits on every boolean [if] of the goal, keeping each test as
    a linear fact. *)
Ltac case_ifs :=
  repeat match goal with
  | |- context [if ?b then _ else _] =>
      lazymatch type of b with bool => let E := fresh "E" in destruct b eqn:E end
  end.

(** ** Outcomes of Go code that may panic *)

Inductive go (A : Type) : Type := Ret (a : A) | Panic.
Arguments Ret {A} a.
Arguments Panic {A}.

Declare Scope go_scope.
Delimit Scope go_scope with go.

Definition go_bind {A B} (m : go A) (k : A -> go B) : go B :=
  match m with Ret a => k a | Panic => Panic end.

Notation "'let!' x ':=' m 'in' k" := (go_bind m (fun x => k))
  (at level 10, x pattern, m at level 100, k at level 200) : go_scope.

(** ** Bytes *)

Abbreviation byte := Byte.byte.
Abbreviation bytes := (list Byte.byte).

#[export] Instance byte_eq_dec : EqDecision byte := Byte.byte_eq_dec.

Definition Z_of_byte (b : byte) : Z := Z.of_N (Byte.to_N b).

(** [byte(z)] *)
Definition byte_of_Z (z : Z) : byte :=
  match Byte.of_N (Z.to_N (z mod 256)) with Some b => b | None => Byte.x00 end.

Lemma Z_of_byte_range b : 0 <= Z_of_byte b < 256.
Proof. unfold Z_of_byte. pose proof (Byte.to_N_bounded b). lia. Qed.

Lemma Z_of_byte_of_Z z : Z_of_byte (byte_of_Z z) = z mod 256.
Proof.
  unfold Z_of_byte, byte_of_Z. pose proof (Z.mod_pos_bound z 256 ltac:(lia)) as Hb.
  destruct (Byte.of_N (Z.to_N (z mod 256))) as [b|] eqn:E.
  - apply Byte.to_of_N in E. rewrite E. lia.
  - apply Byte.of_N_None_iff in E. lia.
Qed.

Lemma byte_of_Z_of_byte b : byte_of_Z (Z_of_byte b) = b.
Proof.
  unfold byte_of_Z. rewrite Z.mod_small by apply Z_of_byte_range.
  unfold Z_of_byte. by rewrite N2Z.id, Byte.of_to_N.
Qed.

(** ** Big-endian words ([encoding/binary.BigEndian]) *)

Fixpoint be_encode (n : nat) (z : Z) : bytes :=
  match n with
  | O => []
  | S n => byte_of_Z (z / 256 ^ Z.of_nat n) :: be_encode n z
  end.

Fixpoint be_decode_acc (acc : Z) (bs : bytes) : Z :=
  match bs with
  | [] => acc
  | b :: bs => be_decode_acc (acc * 256 + Z_of_byte b) bs
  end.

Definition be_decode (bs : bytes) : Z := be_decode_acc 0 bs.

Lemma length_be_encode n z : length (be_encode n z) = n.
Proof. induction n; simpl; congruence. Qed.

Lemma be_decode_acc_encode n acc z :
  be_decode_acc acc (be_encode n z) = acc * 256 ^ Z.of_nat n + z mod 256 ^ Z.of_nat n.
Proof.
  revert acc. induction n as [|n IH]; intros acc; simpl.
  - change (256 ^ 0) with 1. rewrite Z.mod_1_r. lia.
  - rewrite IH, Z_of_byte_of_Z, Nat2Z.inj_succ, Z.pow_succ_r by lia.
    assert (0 < 256 ^ Z.of_nat n) by (apply Z.pow_pos_nonneg; lia).
    rewrite (Z.mul_comm 256), (Z.rem_mul_r z) by lia. ring.
Qed.

Lemma be_decode_encode n z : be_decode (be_encode n z) = z mod 256 ^ Z.of_nat n.
Proof. unfold be_decode. by rewrite be_decode_acc_encode. Qed.

Lemma be_decode_encode_id n z : 0 <= z < 256 ^ Z.of_nat n -> be_decode (be_encode n z) = z.
Proof. intros. by rewrite be_decode_encode, Z.mod_small. Qed.

(** ** Strings *)

Definition bytes_of_string : string -> bytes := String.list_byte_of_string.
Definition string_of_bytes : bytes -> string := String.string_of_list_byte.

Lemma string_of_bytes_of_string s : string_of_bytes (bytes_of_string s) = s.
Proof. apply String.string_of_list_byte_of_string. Qed.

Lemma bytes_of_string_of_bytes b : bytes_of_string (string_of_bytes b) = b.
Proof. apply String.list_byte_of_string_of_list_byte. Qed.

(** [len(s)] *)
Definition strlen (s : string) : Z := Z.of_nat (length (bytes_of_string s)).

(** [strings.Index(s, ":")], [None] for -1. *)
Fixpoint colon_index (s : string) : option nat :=
  match s with
  | EmptyString => None
  | String c s => if decide (c = ":"%char) then Some 0%nat else S <$> colon_index s
  end.

(** [s[n:]] for [n <= len(s)] *)
Fixpoint str_from (n : nat) (s : string) : string :=
  match n, s with
  | S n, String _ s => str_from n s
  | _, _ => s
  end.

(** [s[:n]] for [n <= len(s)] *)
Fixpoint str_upto (n : nat) (s : string) : string :=
  match n, s with
  | S n, String c s => String c (str_upto n s)
  | _, _ => EmptyString
  end.

(** [strings.Split(s, ":")] *)
Fixpoint split_colon_go (cur : string) (s : string) : list string :=
  match s with
  | EmptyString => [cur]
  | String c s =>
      if decide (c = ":"%char) then cur :: split_colon_go EmptyString s
      else split_colon_go (cur +:+ String c EmptyString) s
  end.
Definition split_colon (s : string) : list string := split_colon_go EmptyString s.

(** [strings.HasPrefix(s, p)] *)
Definition has_prefix (s p : string) : bool := String.prefix p s.

Fixpoint no_colon (s : string) : Prop :=
  match s with
  | EmptyString => True
  | String c s => c <> ":"%char /\ no_colon s
  end.

Lemma str_app_cons c a b : String c a +:+ b = String c (a +:+ b).
Proof. reflexivity. Qed.

Lemma str_app_nil a : EmptyString +:+ a = a.
Proof. reflexivity. Qed.

Lemma str_app_nil_r a : a +:+ EmptyString = a.
Proof. induction a as [|c a IH]; [done|]. by rewrite str_app_cons, IH. Qed.

Lemma str_app_assoc a b c : (a +:+ b) +:+ c = a +:+ (b +:+ c).
Proof. induction a as [|x a IH]; [done|]. by rewrite !str_app_cons, IH. Qed.

Lemma colon_index_none s : no_colon s -> colon_index s = None.
Proof.
  induction s as [|c s IH]; simpl; [done|]. intros [Hc Hs].
  rewrite decide_False by done. by rewrite IH.
Qed.

Lemma colon_index_app a b :
  no_colon a -> colon_index (a +:+ String ":" b) = Some (String.length a).
Proof.
  induction a as [|c a IH]; [done|]. intros [Hc Ha]. rewrite str_app_cons. simpl.
  rewrite decide_False by done. by rewrite IH.
Qed.

Lemma str_upto_app a b : str_upto (String.length a) (a +:+ b) = a.
Proof. induction a as [|c a IH]; simpl; [by destruct b|]. by rewrite IH. Qed.

Lemma str_from_app a b : str_from (String.length a) (a +:+ b) = b.
Proof. induction a as [|c a IH]; simpl; [by destruct b|]. by rewrite IH. Qed.

Lemma str_from_colon a b : str_from (S (String.length a)) (a +:+ String ":" b) = b.
Proof.
  induction a as [|c a IH]; [by destruct b|]. exact IH.
Qed.

Lemma split_colon_go_none cur s : no_colon s -> split_colon_go cur s = [cur +:+ s].
Proof.
  revert cur. induction s as [|c s IH]; intros cur; simpl.
  - by rewrite str_app_nil_r.
  - intros [Hc Hs]. rewrite decide_False by done. rewrite IH by done.
    by rewrite str_app_assoc, str_app_cons.
Qed.

Lemma split_colon_go_app cur a b :
  no_colon a -> split_colon_go cur (a +:+ String ":" b) = (cur +:+ a) :: split_colon b.
Proof.
  revert cur. induction a as [|c a IH]; intros cur; simpl.
  - intros _. by rewrite str_app_nil_r.
  - intros [Hc Ha]. rewrite decide_False by done. rewrite IH by done.
    by rewrite str_app_assoc, str_app_cons.
Qed.

Lemma split_colon_cut a b : no_colon a -> split_colon (a +:+ String ":" b) = a :: split_colon b.
Proof. intros Ha. unfold split_colon. rewrite split_colon_go_app by done. done. Qed.

Lemma split_colon_whole s : no_colon s -> split_colon s = [s].
Proof. intros Hs. unfold split_colon. by rewrite split_colon_go_none. Qed.

Lemma has_prefix_app p s : has_prefix (p +:+ s) p = true.
Proof.
  unfold has_prefix. induction p as [|c p IH]; [by destruct s|].
  rewrite str_app_cons. simpl. destruct (Ascii.ascii_dec c c); [done|congruence].
Qed.

Lemma has_prefix_inv p s : has_prefix s p = true -> exists r, s = p +:+ r.
Proof.
  unfold has_prefix. revert s. induction p as [|c p IH]; intros s; [by exists s|].
  destruct s as [|c' s]; simpl; [done|]. destruct (Ascii.ascii_dec c c') as [->|]; [|done].
  intros [r ->]%IH. by exists r.
Qed.

Lemma colon_cases s : no_colon s \/ exists a b, no_colon a /\ s = a +:+ String ":" b.
Proof.
  induction s as [|c s IH]; [by left|]. destruct (decide (c = ":"%char)) as [->|Hc].
  - right. by exists EmptyString, s.
  - destruct IH as [H|(a & b & H & ->)]; [by left|right]. by exists (String c a), b.
Qed.

(** ** Lists *)

Section filters.
Context {A : Type} (P : A -> Prop) `{!forall x, Decision (P x)}.

Lemma filter_all (l : list A) : (forall x, x ∈ l -> P x) -> filter P l = l.
Proof.
  induction l as [|x l IH]; intros Hl; [done|].
  rewrite filter_cons_True by set_solver. f_equal. apply IH. set_solver.
Qed.

Lemma filter_none (l : list A) : (forall x, x ∈ l -> ~ P x) -> filter P l = [].
Proof.
  induction l as [|x l IH]; intros Hl; [done|].
  rewrite filter_cons_False by (apply Hl; set_solver). apply IH. set_solver.
Qed.
End filters.

(** The sum of a weight over a list. *)
Definition zsum {A} (f : A -> Z) (l : list A) : Z := foldr (fun x acc => f x + acc) 0 l.

Lemma zsum_app {A} (f : A -> Z) l k : zsum f (l ++ k) = zsum f l + zsum f k.
Proof. induction l as [|x l IH]; simpl; [done|]. rewrite IH. lia. Qed.

Lemma zsum_insert {A} (f : A -> Z) l i x y :
  l !! i = Some x -> zsum f (<[i:=y]> l) = zsum f l - f x + f y.
Proof.
  revert i. induction l as [|z l IH]; intros [|i] H; simplify_eq/=; [lia|]. rewrite (IH i H). lia.
Qed.

Lemma zsum_ext {A} (f g : A -> Z) l : (forall x, x ∈ l -> f x = g x) -> zsum f l = zsum g l.
Proof.
  induction l as [|x l IH]; intros H; simpl; [done|]. rewrite (H x), IH by set_solver. done.
Qed.

Lemma zsum_le {A} (f g : A -> Z) l : (forall x, x ∈ l -> f x <= g x) -> zsum f l <= zsum g l.
Proof.
  induction l as [|x l IH]; intros H; simpl; [done|].
  specialize (H x ltac:(set_solver)) as Hx. specialize (IH ltac:(set_solver)). lia.
Qed.

Lemma zsum_const {A} (c : Z) (l : list A) : zsum (fun _ => c) l = c * Z.of_nat (length l).
Proof. induction l as [|x l IH]; simpl; [lia|]. rewrite IH. lia. Qed.

(** The greatest of a default and the elements of a list. *)
Definition zmax (m : Z) (l : list Z) : Z := foldl Z.max m l.

Lemma zmax_spec m l x :
  x = zmax m l <-> (m <= x /\ (forall y, y ∈ l -> y <= x) /\ (x = m \/ x ∈ l)).
Proof.
  unfold zmax. revert m. induction l as [|y l IH]; intros m; simpl.
  - split; [set_solver by lia|]. intros (? & _ & [?|?]); [done|set_solver].
  - rewrite IH. clear IH. split.
    + intros (H1 & H2 & H3). split_and!; [lia| |].
      * intros z [->|Hz]%elem_of_cons; [lia|auto].
      * destruct H3 as [->|H3]; [|set_solver].
        destruct (Z.max_spec m y) as [[_ ->]|[_ ->]]; set_solver.
    + intros (H1 & H2 & H3). pose proof (H2 y ltac:(set_solver)).
      split_and!; [lia|set_solver|]. destruct H3 as [->|[->|H3]%elem_of_cons]; [left; lia|left; lia|by right].
Qed.
