(* ===== verification/Float64.v ===== *)
(** * Go's [float64]: IEEE 754 binary64

    Counters and metrics of the store are [float64].  The model computes with
    the executable binary64 arithmetic of [SpecFloat] (round to nearest even,
    a single NaN).  The main result is that on integers of magnitude below
    2^53 additions, subtractions, comparisons and conversions are exact. *)

From S2P Require Import Prelude.
From Stdlib Require Import SpecFloat.

#[local] Open Scope Z_scope.

Definition float64 : Type := spec_float.

Definition fzero : float64 := S754_zero false.
Definition fadd : float64 -> float64 -> float64 := SFadd 53 1024.
Definition fsub : float64 -> float64 -> float64 := SFsub 53 1024.
(** [x > y] *)
Definition fgtb (x y : float64) : bool := SFltb y x.
(** [x == 0] *)
Definition fis0 (x : float64) : bool := SFeqb x fzero.

(** [float64(z)] for an integer [z] *)
Definition float64_of_Z (z : Z) : float64 := binary_normalize 53 1024 z 0 false.

(** The integer part of a finite float, truncated towards zero. *)
Definition ftrunc (f : float64) : option Z :=
  match f with
  | S754_zero _ => Some 0
  | S754_finite s m e =>
      let a := if 0 <=? e then Zpos m * 2 ^ e else Zpos m / 2 ^ (- e) in
      Some (if s then - a else a)
  | _ => None
  end.

(** [int64(f)]: truncation; the value of an out-of-range conversion is left to
    the implementation by the language, here that of amd64. *)
Definition int64_of_float (f : float64) : Z :=
  match ftrunc f with
  | Some z => if (-9223372036854775808 <=? z) && (z <? 9223372036854775808)
              then z else -9223372036854775808
  | None => -9223372036854775808
  end.

(** [uint64(f)], with the same convention out of range. *)
Definition uint64_of_float (f : float64) : Z :=
  match ftrunc f with
  | Some z => if (0 <=? z) && (z <? 18446744073709551616)
              then z else 9223372036854775808
  | None => 9223372036854775808
  end.

#[export] Instance float64_eq_dec : EqDecision float64.
Proof. unfold float64. intros x y. unfold Decision. repeat decide equality. Defined.

(** ** Bit patterns ([math.Float64bits], [math.Float64frombits]) *)

Definition f_sign (s : bool) : Z := if s then 2 ^ 63 else 0.

Definition Float64bits (f : float64) : Z :=
  match f with
  | S754_zero s => f_sign s
  | S754_infinity s => f_sign s + 2047 * 2 ^ 52
  | S754_nan => 2047 * 2 ^ 52 + 2 ^ 51 + 1
  | S754_finite s m e =>
      if Zpos m <? 2 ^ 52 then f_sign s + Zpos m
      else f_sign s + (e + 1075) * 2 ^ 52 + (Zpos m - 2 ^ 52)
  end.

Definition Float64frombits (b : Z) : float64 :=
  let s := 1 <=? b / 2 ^ 63 in
  let ex := (b / 2 ^ 52) mod 2048 in
  let frac := b mod 2 ^ 52 in
  if ex =? 0 then
    match frac with
    | Zpos m => S754_finite s m (-1074)
    | _ => S754_zero s
    end
  else if ex =? 2047 then
    if frac =? 0 then S754_infinity s else S754_nan
  else
    match frac + 2 ^ 52 with
    | Zpos m => S754_finite s m (ex - 1075)
    | _ => S754_zero s
    end.

(** ** Doubling a positive, digit counts *)

Definition shl (m : positive) (n : nat) : positive := Nat.iter n xO m.

Lemma shl_Z m n : Zpos (shl m n) = Zpos m * 2 ^ Z.of_nat n.
Proof.
  induction n as [|n IH]; simpl.
  - rewrite Z.mul_1_r. done.
  - rewrite Pos2Z.inj_xO, IH, Nat2Z.inj_succ, Z.pow_succ_r by lia. ring.
Qed.

Lemma pos_iter_shl m d : Pos.iter xO m d = shl m (Pos.to_nat d).
Proof. unfold shl. by rewrite Pos2Nat.inj_iter. Qed.

Lemma digits_shl m n :
  Zpos (digits2_pos (shl m n)) = Zpos (digits2_pos m) + Z.of_nat n.
Proof. induction n as [|n IH]; simpl; [lia|]. rewrite Pos2Z.inj_succ, IH. lia. Qed.

Lemma digits_bounds m :
  2 ^ (Zpos (digits2_pos m) - 1) <= Zpos m < 2 ^ Zpos (digits2_pos m).
Proof.
  induction m as [m IH|m IH|]; simpl; [| |done];
  rewrite Pos2Z.inj_succ;
  replace (Z.succ (Zpos (digits2_pos m)) - 1) with (Z.succ (Zpos (digits2_pos m) - 1)) by lia;
  rewrite !Z.pow_succ_r by lia; lia.
Qed.

Lemma digits_le_53 m : Zpos m < 2 ^ 53 -> Zpos (digits2_pos m) <= 53.
Proof.
  intros H. destruct (digits_bounds m) as [Hl _].
  destruct (Z.le_gt_cases (Zpos (digits2_pos m)) 53); [done|].
  assert (2 ^ 53 <= 2 ^ (Zpos (digits2_pos m) - 1)) by (apply Z.pow_le_mono_r; lia). lia.
Qed.

(** ** Integers below 2^53 are represented exactly *)

(** The canonical binary64 with the value [±m]. *)
Definition canon (s : bool) (m : positive) : float64 :=
  let k := (53 - Pos.to_nat (digits2_pos m))%nat in
  S754_finite s (shl m k) (- Z.of_nat k).

Lemma iter_pos_nat {A} (f : A -> A) p x : iter_pos f p x = Nat.iter (Pos.to_nat p) f x.
Proof.
  revert x. induction p as [p IH|p IH|]; intros x; cbn [iter_pos]; [| |done].
  - rewrite Pos2Nat.inj_xI, !IH, <- Nat.iter_add.
    rewrite Nat.iter_succ_r. f_equal. lia.
  - rewrite Pos2Nat.inj_xO, !IH, <- Nat.iter_add. f_equal. lia.
Qed.

Lemma shr_shl m n d :
  Nat.iter d shr_1 (Build_shr_record (Zpos (shl m (n + d))) false false)
  = Build_shr_record (Zpos (shl m n)) false false.
Proof.
  induction d as [|d IH]; [by rewrite Nat.add_0_r|].
  rewrite Nat.iter_succ_r, Nat.add_succ_r. simpl. exact IH.
Qed.

Lemma fexp_small e : -1021 <= e -> fexp 53 1024 e = e - 53.
Proof. unfold fexp, emin. lia. Qed.

Lemma shl_align_canon m j k :
  shl_align (shl m j) (- Z.of_nat j) (- Z.of_nat k)
  = (shl m (Nat.max j k), - Z.of_nat (Nat.max j k)).
Proof.
  unfold shl_align. destruct (- Z.of_nat k - - Z.of_nat j) as [|d|d] eqn:E.
  - do 2 f_equal; lia.
  - rewrite Nat.max_l by lia. done.
  - rewrite pos_iter_shl. f_equal; [|lia].
    replace (Nat.max j k) with (Pos.to_nat d + j)%nat by lia.
    unfold shl. by rewrite Nat.iter_add.
Qed.

Lemma shr_fexp_exact m j k :
  (k <= j)%nat -> Zpos (digits2_pos m) + Z.of_nat k = 53 -> 
  shr_fexp 53 1024 (Zpos (shl m j)) (- Z.of_nat j) loc_Exact
  = (Build_shr_record (Zpos (shl m k)) false false, - Z.of_nat k).
Proof.
  intros Hkj Hd. unfold shr_fexp. simpl Zdigits2. rewrite digits_shl.
  rewrite fexp_small by lia. simpl shr_record_of_loc.
  replace (Zpos (digits2_pos m) + Z.of_nat j + - Z.of_nat j - 53 - - Z.of_nat j)
    with (Z.of_nat (j - k)) by lia.
  destruct (j - k)%nat as [|d] eqn:E; simpl.
  - replace j with k by lia. done.
  - rewrite iter_pos_nat. rewrite SuccNat2Pos.id_succ.
    replace j with (k + S d)%nat by lia. rewrite shr_shl. f_equal. lia.
Qed.

Lemma binary_round_shl s m j :
  Zpos (digits2_pos m) <= 53 -> binary_round 53 1024 s (shl m j) (- Z.of_nat j) = canon s m.
Proof.
  intros Hd. unfold binary_round, canon.
  set (k := (53 - Pos.to_nat (digits2_pos m))%nat).
  assert (Hk : Zpos (digits2_pos m) + Z.of_nat k = 53) by (unfold k; lia).
  rewrite digits_shl, fexp_small by lia.
  replace (Zpos (digits2_pos m) + Z.of_nat j + - Z.of_nat j - 53) with (- Z.of_nat k) by lia.
  rewrite shl_align_canon. unfold binary_round_aux.
  rewrite (shr_fexp_exact _ _ k) by lia. simpl.
  rewrite (shr_fexp_exact _ _ k) by lia. simpl.
  by rewrite (proj2 (Z.leb_le _ _)) by lia.
Qed.

Definition f_of_int (z : Z) : float64 :=
  match z with
  | Z0 => fzero
  | Zpos m => canon false m
  | Zneg m => canon true m
  end.

(** The integers on which binary64 arithmetic is exact. *)
Definition exact53 (z : Z) : Prop := - 2 ^ 53 < z < 2 ^ 53.

Lemma float64_of_Z_exact z : exact53 z -> float64_of_Z z = f_of_int z.
Proof.
  unfold exact53, float64_of_Z. destruct z as [|m|m]; intros H; simpl; [done| |];
  apply (binary_round_shl _ m 0), digits_le_53; lia.
Qed.

Lemma normalize_shl z j :
  exact53 z -> binary_normalize 53 1024 (z * 2 ^ Z.of_nat j) (- Z.of_nat j) false = f_of_int z.
Proof.
  unfold exact53. intros H. destruct z as [|m|m]; simpl.
  - done.
  - rewrite <- shl_Z. apply binary_round_shl, digits_le_53. lia.
  - rewrite <- (Pos2Z.opp_pos m), Z.mul_opp_l, <- shl_Z. simpl.
    apply binary_round_shl, digits_le_53. lia.
Qed.

(** Aligning the mantissa of a canonical integer to a smaller exponent. *)
Lemma align_canon s m k j :
  (k <= j)%nat ->
  cond_Zopp s (Zpos (fst (shl_align (shl m k) (- Z.of_nat k) (- Z.of_nat j))))
  = cond_Zopp s (Zpos m) * 2 ^ Z.of_nat j.
Proof.
  intros Hk. rewrite shl_align_canon, Nat.max_r by done. simpl fst.
  destruct s; simpl cond_Zopp; rewrite ?Z.mul_opp_l, <- shl_Z; done.
Qed.

Lemma canon_add_sub s1 m1 s2 m2 :
  let z1 := cond_Zopp s1 (Zpos m1) in
  let z2 := cond_Zopp s2 (Zpos m2) in
  (exact53 (z1 + z2) -> fadd (canon s1 m1) (canon s2 m2) = f_of_int (z1 + z2)) /\
  (exact53 (z1 - z2) -> fsub (canon s1 m1) (canon s2 m2) = f_of_int (z1 - z2)).
Proof.
  unfold fadd, fsub, canon. cbn [SFadd SFsub].
  set (k1 := (53 - Pos.to_nat (digits2_pos m1))%nat).
  set (k2 := (53 - Pos.to_nat (digits2_pos m2))%nat).
  replace (Z.min (- Z.of_nat k1) (- Z.of_nat k2)) with (- Z.of_nat (Nat.max k1 k2)) by lia.
  rewrite !align_canon by lia. rewrite <- Z.mul_add_distr_r, <- Z.mul_sub_distr_r.
  split; apply normalize_shl.
Qed.

Lemma fadd_0_l s z : fadd (S754_zero s) (f_of_int z) = f_of_int z \/ z = 0.
Proof. destruct z; [by right|by left..]. Qed.

Lemma fadd_int a b :
  exact53 a -> exact53 b -> exact53 (a + b) -> fadd (f_of_int a) (f_of_int b) = f_of_int (a + b).
Proof.
  intros Ha Hb Hab. destruct a as [|p|p], b as [|q|q]; try done; simpl f_of_int.
  - by apply (canon_add_sub false p false q).
  - by apply (canon_add_sub false p true q).
  - by apply (canon_add_sub true p false q).
  - by apply (canon_add_sub true p true q).
Qed.

Lemma fsub_int a b :
  exact53 a -> exact53 b -> exact53 (a - b) -> fsub (f_of_int a) (f_of_int b) = f_of_int (a - b).
Proof.
  intros Ha Hb Hab. destruct a as [|p|p], b as [|q|q]; try done; simpl f_of_int.
  - by apply (canon_add_sub false p false q).
  - by apply (canon_add_sub false p true q).
  - by apply (canon_add_sub true p false q).
  - by apply (canon_add_sub true p true q).
Qed.

Lemma digits_mono p q :
  Zpos p <= Zpos q -> Zpos (digits2_pos p) <= Zpos (digits2_pos q).
Proof.
  intros H. destruct (digits_bounds p) as [Hp _], (digits_bounds q) as [_ Hq].
  destruct (Z.le_gt_cases (Zpos (digits2_pos p)) (Zpos (digits2_pos q))); [done|].
  assert (2 ^ Zpos (digits2_pos q) <= 2 ^ (Zpos (digits2_pos p) - 1))
    by (apply Z.pow_le_mono_r; lia). lia.
Qed.

(** The comparison of two positive canonical integers, exponents first. *)
Lemma canon_compare p q :
  Zpos p < 2 ^ 53 -> Zpos q < 2 ^ 53 ->
  let kp := (53 - Pos.to_nat (digits2_pos p))%nat in
  let kq := (53 - Pos.to_nat (digits2_pos q))%nat in
  match Z.compare (- Z.of_nat kp) (- Z.of_nat kq) with
  | Lt => Lt | Gt => Gt
  | Eq => Pos.compare (shl p kp) (shl q kq)
  end = Z.compare (Zpos p) (Zpos q).
Proof.
  intros Hp%digits_le_53 Hq%digits_le_53 kp kq.
  destruct (Z.compare_spec (- Z.of_nat kp) (- Z.of_nat kq)) as [E|E|E].
  - assert (kp = kq) as -> by lia.
    change (Z.compare (Zpos (shl p kq)) (Zpos (shl q kq)) = Z.compare (Zpos p) (Zpos q)).
    rewrite !shl_Z. symmetry. apply Zmult_compare_compat_r. lia.
  - symmetry. apply Z.compare_lt_iff. destruct (Z.lt_ge_cases (Zpos p) (Zpos q)); [done|].
    pose proof (digits_mono q p). unfold kp, kq in *. lia.
  - symmetry. apply Z.compare_gt_iff. destruct (Z.lt_ge_cases (Zpos q) (Zpos p)); [done|].
    pose proof (digits_mono p q). unfold kp, kq in *. lia.
Qed.

Lemma fcompare_int a b :
  exact53 a -> exact53 b -> SFcompare (f_of_int a) (f_of_int b) = Some (Z.compare a b).
Proof.
  unfold exact53. intros Ha Hb. destruct a as [|p|p], b as [|q|q]; try done; simpl.
  - f_equal. exact (canon_compare p q ltac:(lia) ltac:(lia)).
  - f_equal. change (p ?= q)%positive with (Z.compare (Zpos p) (Zpos q)).
    rewrite <- (canon_compare p q) by lia. by destruct (Z.compare _ _).
Qed.

Lemma fgtb_int a b : exact53 a -> exact53 b -> fgtb (f_of_int a) (f_of_int b) = (b <? a).
Proof.
  intros Ha Hb. unfold fgtb, SFltb. rewrite fcompare_int by done.
  unfold Z.ltb. by destruct (b ?= a).
Qed.

Lemma fis0_int a : exact53 a -> fis0 (f_of_int a) = (a =? 0).
Proof. intros Ha. by destruct a. Qed.

Lemma ftrunc_int a : ftrunc (f_of_int a) = Some a.
Proof.
  assert (forall s m, ftrunc (canon s m) = Some (cond_Zopp s (Zpos m))) as H.
  { intros s m. unfold ftrunc, canon. set (k := (53 - _)%nat).
    assert ((if 0 <=? - Z.of_nat k then Zpos (shl m k) * 2 ^ (- Z.of_nat k)
             else Zpos (shl m k) / 2 ^ (- - Z.of_nat k)) = Zpos m) as ->; [|by destruct s].
    rewrite shl_Z, Z.opp_involutive. destruct (0 <=? - Z.of_nat k) eqn:E.
    - replace (Z.of_nat k) with 0 by lia. lia.
    - apply Z.div_mul. lia. }
  destruct a as [|m|m]; [done|exact (H false m)|exact (H true m)].
Qed.

Lemma int64_of_float_int a : exact53 a -> int64_of_float (f_of_int a) = a.
Proof.
  unfold exact53. intros H. unfold int64_of_float. rewrite ftrunc_int.
  destruct ((_ <=? a) && (a <? _)) eqn:E; lia.
Qed.

#[export] Hint Resolve ftrunc_int : go.

(** ** Bit patterns round trip *)

Definition is_float64 (f : float64) : Prop := valid_binary 53 1024 f = true.

Lemma finite_cases s m e :
  is_float64 (S754_finite s m e) ->
  (2 ^ 52 <= Zpos m < 2 ^ 53 /\ -1074 <= e <= 971) \/ (Zpos m < 2 ^ 52 /\ e = -1074).
Proof.
  unfold is_float64, valid_binary, bounded, canonical_mantissa, fexp, emin.
  rewrite andb_true_iff, Z.eqb_eq, Z.leb_le. intros [He Hle].
  destruct (digits_bounds m) as [Hl Hu].
  destruct (Z.eq_dec (Zpos (digits2_pos m)) 53) as [E|E].
  - left. rewrite E in *. change (53 - 1) with 52 in *. lia.
  - right. assert (Zpos (digits2_pos m) <= 52) as Hd by lia.
    apply (Z.pow_le_mono_r 2) in Hd; lia.
Qed.

Lemma Float64bits_range f : is_float64 f -> is_uint64 (Float64bits f).
Proof.
  unfold is_uint64, Float64bits, f_sign. destruct f as [s|s| |s m e]; intros Hv;
  [destruct s; lia|destruct s; lia|lia|].
  destruct (finite_cases s m e Hv) as [[H1 H2]|[H1 ->]], (Zpos m <? 2 ^ 52) eqn:E, s; lia.
Qed.

Lemma decompose_bits s ex frac :
  0 <= ex < 2048 -> 0 <= frac < 2 ^ 52 ->
  let b := f_sign s + ex * 2 ^ 52 + frac in
  (1 <=? b / 2 ^ 63) = s /\ (b / 2 ^ 52) mod 2048 = ex /\ b mod 2 ^ 52 = frac.
Proof.
  intros He Hf b. unfold b, f_sign. split_and!.
  - destruct s; [apply Z.leb_le|apply Z.leb_gt];
    Z.div_mod_to_equations; lia.
  - replace ((if s then 2 ^ 63 else 0) + ex * 2 ^ 52 + frac)
      with (frac + (ex + (if s then 2048 else 0)) * 2 ^ 52) by (destruct s; lia).
    rewrite Z.div_add, (Z.div_small frac) by lia.
    replace (0 + (ex + (if s then 2048 else 0))) with (ex + (if s then 1 else 0) * 2048)
      by (destruct s; lia).
    rewrite Z.mod_add by lia. apply Z.mod_small. lia.
  - replace ((if s then 2 ^ 63 else 0) + ex * 2 ^ 52 + frac)
      with (frac + (ex + (if s then 2048 else 0)) * 2 ^ 52) by (destruct s; lia).
    rewrite Z.mod_add by lia. apply Z.mod_small. lia.
Qed.

Lemma Float64frombits_bits f : is_float64 f -> Float64frombits (Float64bits f) = f.
Proof.
  intros Hv. destruct f as [s|s| |s m e]; [by destruct s|by destruct s|done|].
  unfold Float64bits. destruct (finite_cases s m e Hv) as [[H1 H2]|[H1 ->]].
  - rewrite (proj2 (Z.ltb_ge _ _)) by lia.
    destruct (decompose_bits s (e + 1075) (Zpos m - 2 ^ 52)) as (E1 & E2 & E3); [lia..|].
    unfold Float64frombits. rewrite E1, E2, E3.
    rewrite (proj2 (Z.eqb_neq _ _)), (proj2 (Z.eqb_neq (e + 1075) _)) by lia.
    replace (Zpos m - 2 ^ 52 + 2 ^ 52) with (Zpos m) by lia. f_equal. lia.
  - rewrite (proj2 (Z.ltb_lt _ _)) by lia.
    destruct (decompose_bits s 0 (Zpos m)) as (E1 & E2 & E3); [lia..|].
    rewrite Z.mul_0_l, Z.add_0_r in E1, E2, E3.
    unfold Float64frombits. rewrite E1, E2, E3. done.
Qed.

Lemma f_of_int_valid z : exact53 z -> is_float64 (f_of_int z).
Proof.
  assert (forall s m, Zpos m < 2 ^ 53 -> is_float64 (canon s m)) as H.
  { intros s m Hm%digits_le_53. unfold canon, is_float64, valid_binary, bounded, canonical_mantissa.
    rewrite digits_shl, fexp_small by lia. rewrite andb_true_iff, Z.eqb_eq, Z.leb_le. lia. }
  unfold exact53. destruct z; intros; simpl; [done|apply H; lia..].
Qed.
