(* ===== verification/FloatValid.v ===== *)
(** * Floats stay floats

    Every result of the arithmetic the store uses is a binary64 number again:
    its mantissa and exponent are those of a representable value.  The argument
    follows the rounding: a mantissa shifted right until its exponent is the
    one the format asks for, rounded, and shifted once more when the rounding
    carried. *)

From S2P Require Import Prelude Float64.
From Stdlib Require Import SpecFloat.

#[local] Open Scope Z_scope.

#[local] Abbreviation fexp64 := (fexp 53 1024).
#[local] Abbreviation emin64 := (emin 53 1024).

Lemma Zdigits2_log2 z : 0 < z -> Zdigits2 z = Z.log2 z + 1.
Proof.
  destruct z as [|m|m]; try lia. intros _. simpl Zdigits2. destruct (digits_bounds m) as [H1 H2].
  rewrite (Z.log2_unique (Zpos m) (Zpos (digits2_pos m) - 1)); [lia|lia|].
  split; [done|]. by replace (Z.succ (Zpos (digits2_pos m) - 1)) with (Zpos (digits2_pos m)) by lia.
Qed.

Lemma shr_1_half r : 0 <= shr_m r -> shr_m (shr_1 r) = shr_m r / 2.
Proof.
  destruct r as [m b s]. simpl. destruct m as [|[p|p|]|p]; intros; simpl; try done; try lia;
    Z.div_mod_to_equations; lia.
Qed.

Lemma shr_iter n r : 0 <= shr_m r -> shr_m (Nat.iter n shr_1 r) = Z.shiftr (shr_m r) (Z.of_nat n).
Proof.
  intros Hr. assert (H : shr_m (Nat.iter n shr_1 r) = Z.shiftr (shr_m r) (Z.of_nat n) /\ 0 <= shr_m (Nat.iter n shr_1 r)).
  { induction n as [|n [IH H0]]; [done|]. change (Nat.iter (S n) shr_1 r) with (shr_1 (Nat.iter n shr_1 r)).
    rewrite shr_1_half, IH by done. rewrite Nat2Z.inj_succ, <- Z.add_1_r, <- Z.shiftr_shiftr by lia.
    rewrite (Z.shiftr_div_pow2 _ 1), Z.pow_1_r by lia. split; [done|]. rewrite IH in H0. by apply Z.div_pos. }
  apply H.
Qed.

Lemma fexp_mono a b : a <= b -> fexp64 a <= fexp64 b.
Proof. unfold fexp. lia. Qed.

(** Shifting to the exponent of the format. *)
Lemma shr_fexp_canonical m e l :
  0 < m -> e <= fexp64 (Zdigits2 m + e) ->
  let '(r, e') := shr_fexp 53 1024 m e l in
  0 <= shr_m r /\ (shr_m r = 0 -> e' = emin64) /\ (0 < shr_m r -> fexp64 (Zdigits2 (shr_m r) + e') = e').
Proof.
  intros Hm He. rewrite Zdigits2_log2 in He by done. unfold shr_fexp. rewrite Zdigits2_log2 by done.
  assert (Hl : shr_m (shr_record_of_loc m l) = m) by (by destruct l as [|[]]).
  remember (fexp64 (Z.log2 m + 1 + e) - e) as d eqn:Ed. destruct d as [|p|p]; cbn [shr]; [| |lia].
  - rewrite Hl. split_and!; [lia|lia|]. intros _. rewrite Zdigits2_log2 by done. lia.
  - rewrite iter_pos_nat, shr_iter, Hl by (rewrite Hl; lia). rewrite positive_nat_Z.
    assert (H0 : 0 <= Z.shiftr m (Zpos p)) by (apply Z.shiftr_nonneg; lia).
    assert (Hlog : Z.log2 (Z.shiftr m (Zpos p)) = Z.max 0 (Z.log2 m - Zpos p)) by (apply Z.log2_shiftr; lia).
    split_and!; [done| |].
    + intros Hz. apply Z.shiftr_eq_0_iff in Hz as [|[_ Hz]]; [lia|]. unfold fexp in *. lia.
    + intros Hz. rewrite Zdigits2_log2, Hlog by done.
      assert (Zpos p <= Z.log2 m); [|rewrite Z.max_r by lia; replace (Z.log2 m - Zpos p + 1 + (e + Zpos p)) with (Z.log2 m + 1 + e) by lia; lia].
      destruct (Z.lt_ge_cases (Z.log2 m) (Zpos p)) as [Hlt|]; [|done]. by rewrite Z.shiftr_eq_0 in Hz by lia.
Qed.

Lemma round_nearest_even_up m l : m <= round_nearest_even m l <= m + 1.
Proof. destruct l as [|[]]; simpl; case_ifs; lia. Qed.

Lemma binary_round_aux_valid s m e l :
  0 < m -> e <= fexp64 (Zdigits2 m + e) -> is_float64 (binary_round_aux 53 1024 s m e l).
Proof.
  intros Hm He. unfold binary_round_aux. pose proof (shr_fexp_canonical m e l Hm He) as H1.
  destruct (shr_fexp 53 1024 m e l) as [r e1]. destruct H1 as (H0 & Hz & Hc).
  pose proof (round_nearest_even_up (shr_m r) (loc_of_shr_record r)) as Hr.
  set (m1 := round_nearest_even (shr_m r) (loc_of_shr_record r)) in *.
  destruct (Z.eq_dec m1 0) as [->|Hne].
  { unfold shr_fexp, shr. destruct (fexp64 _ - _); simpl; try done. rewrite iter_pos_nat, shr_iter by done.
    simpl shr_m. by rewrite Z.shiftr_0_l. }
  assert (He1 : e1 <= fexp64 (Zdigits2 m1 + e1)).
  { destruct (Z.eq_dec (shr_m r) 0) as [Ez|]; [rewrite (Hz Ez); unfold fexp; lia|].
    rewrite <- (Hc ltac:(lia)) at 1. apply fexp_mono. rewrite !Zdigits2_log2 by lia.
    pose proof (Z.log2_le_mono (shr_m r) m1). lia. }
  pose proof (shr_fexp_canonical m1 e1 loc_Exact ltac:(lia) He1) as H2.
  destruct (shr_fexp 53 1024 m1 e1 loc_Exact) as [r2 e2]. destruct H2 as (_ & _ & Hc2).
  destruct (shr_m r2) as [|p|p]; [done| |done]. destruct (Z.leb_spec e2 (1024 - 53)); [|done].
  unfold is_float64, valid_binary, bounded, canonical_mantissa. rewrite andb_true_iff, Z.eqb_eq, Z.leb_le.
  split; [|done]. exact (Hc2 ltac:(lia)).
Qed.

Lemma binary_round_valid s m e : is_float64 (binary_round 53 1024 s m e).
Proof.
  unfold binary_round, shl_align. remember (fexp64 (Zpos (digits2_pos m) + e) - e) as d eqn:Ed.
  destruct d as [|p|p]; apply binary_round_aux_valid; try lia; [simpl Zdigits2; lia..|].
  rewrite pos_iter_shl. simpl Zdigits2. rewrite digits_shl, positive_nat_Z.
  replace (Zpos (digits2_pos m) + Zpos p + fexp64 (Zpos (digits2_pos m) + e)) with (Zpos (digits2_pos m) + e) by lia. lia.
Qed.

Lemma binary_normalize_valid m e s : is_float64 (binary_normalize 53 1024 m e s).
Proof. destruct m; [done|apply binary_round_valid..]. Qed.

Lemma float64_of_Z_valid z : is_float64 (float64_of_Z z).
Proof. apply binary_normalize_valid. Qed.

Lemma fadd_valid x y : is_float64 x -> is_float64 y -> is_float64 (fadd x y).
Proof.
  intros Hx Hy. destruct x, y; unfold fadd, SFadd; try done; try (by case_ifs); apply binary_normalize_valid.
Qed.

Lemma fsub_valid x y : is_float64 x -> is_float64 y -> is_float64 (fsub x y).
Proof.
  intros Hx Hy. destruct x as [[]|[]| |], y as [[]|[]| |]; unfold fsub, SFsub; try done; apply binary_normalize_valid.
Qed.

Lemma int64_of_float_range x : is_int64 (int64_of_float x).
Proof.
  unfold int64_of_float, is_int64. destruct (ftrunc x) as [z|]; [|lia]. case_ifs; [|lia].
  match goal with H : _ = true |- _ => apply andb_true_iff in H; lia end.
Qed.

#[export] Hint Resolve float64_of_Z_valid fadd_valid fsub_valid int64_of_float_range : go.
