(* ===== verification/Hlc.v ===== *)
(** * The hybrid logical clock (src/hlc.go)

    [HLC] is the clock's state, [Timestamp] the values it issues.  The wall
    clock reading [time.Now().UnixNano()] of each call is an argument. *)

From S2P Require Import Prelude.

#[local] Open Scope Z_scope.

Record Timestamp := mkTimestamp { Physical : Z; Logical : Z }.

#[export] Instance Timestamp_eq_dec : EqDecision Timestamp.
Proof. solve_decision. Defined.

Record HLC := mkHLC { physical : Z; logical : Z; maxOffset : Z }.

(** The errors the source returns from this package. *)
Inductive hlc_error := ErrClockSmash.

(** [DefaultMaxOffset = 500 * time.Millisecond]. *)
Definition DefaultMaxOffset : Z := 500 * 1000000.

Definition GreaterOrEqual (t other : Timestamp) : bool :=
  if negb (Physical t =? Physical other)
  then Physical other <? Physical t
  else Logical other <=? Logical t.

Definition After (t other : Timestamp) : bool :=
  if Physical other <? Physical t then true
  else if Physical t <? Physical other then false
  else Logical other <? Logical t.

Definition NewHLC (wall : Z) : HLC := mkHLC wall 0 DefaultMaxOffset.

Definition SetMaxOffset (h : HLC) (offset : Z) : HLC :=
  mkHLC (physical h) (logical h) offset.

Definition Now (h : HLC) (wall : Z) : Timestamp * HLC :=
  let h' :=
    if physical h <? wall
    then mkHLC wall 0 (maxOffset h)
    else mkHLC (physical h) (int32 (logical h + 1)) (maxOffset h) in
  (mkTimestamp (physical h') (logical h'), h').

Definition Update (h : HLC) (wall : Z) (remote : Timestamp)
    : (Timestamp * option hlc_error) * HLC :=
  if int64 (wall + maxOffset h) <? Physical remote
  then ((mkTimestamp 0 0, Some ErrClockSmash), h)
  else
    let maxPhysical := wall in
    let maxPhysical := if maxPhysical <? physical h then physical h else maxPhysical in
    let maxPhysical := if maxPhysical <? Physical remote then Physical remote else maxPhysical in
    let h' :=
      if (maxPhysical =? physical h) && (maxPhysical =? Physical remote) then
        let maxLogical := logical h in
        let maxLogical := if maxLogical <? Logical remote then Logical remote else maxLogical in
        mkHLC (physical h) (int32 (maxLogical + 1)) (maxOffset h)
      else if maxPhysical =? physical h then
        mkHLC (physical h) (int32 (logical h + 1)) (maxOffset h)
      else if maxPhysical =? Physical remote then
        mkHLC maxPhysical (int32 (Logical remote + 1)) (maxOffset h)
      else mkHLC maxPhysical 0 (maxOffset h) in
    ((mkTimestamp (physical h') (logical h'), None), h').

#[global] Arguments Now : simpl never.
#[global] Arguments Update : simpl never.

(** ** Order on timestamps *)

(** The clock's own position, as the timestamp it last issued. *)
Definition ts_of (h : HLC) : Timestamp := mkTimestamp (physical h) (logical h).

Lemma After_spec a b :
  After a b = true <->
  Physical b < Physical a \/ (Physical b = Physical a /\ Logical b < Logical a).
Proof. unfold After. case_ifs; lia. Qed.

Lemma GreaterOrEqual_spec a b :
  GreaterOrEqual a b = true <->
  Physical b < Physical a \/ (Physical b = Physical a /\ Logical b <= Logical a).
Proof. unfold GreaterOrEqual. case_ifs; lia. Qed.

Lemma GreaterOrEqual_After a b : GreaterOrEqual a b = negb (After b a).
Proof. unfold GreaterOrEqual, After. case_ifs; lia. Qed.

Lemma After_trans a b c : After a b = true -> After b c = true -> After a c = true.
Proof. rewrite !After_spec. lia. Qed.

Lemma After_irrefl a : After a a = false.
Proof. apply not_true_is_false. rewrite After_spec. lia. Qed.

Lemma After_GE_trans a b c : After a b = true -> GreaterOrEqual b c = true -> After a c = true.
Proof. rewrite After_spec, GreaterOrEqual_spec, After_spec. lia. Qed.

Lemma GE_refl a : GreaterOrEqual a a = true.
Proof. rewrite GreaterOrEqual_spec. lia. Qed.

Lemma After_GE a b : After a b = true -> GreaterOrEqual a b = true.
Proof. rewrite After_spec, GreaterOrEqual_spec. lia. Qed.

Lemma GE_trans a b c :
  GreaterOrEqual a b = true -> GreaterOrEqual b c = true -> GreaterOrEqual a c = true.
Proof. rewrite !GreaterOrEqual_spec. lia. Qed.

Lemma GE_antisym a b : GreaterOrEqual a b = true -> GreaterOrEqual b a = true -> a = b.
Proof.
  rewrite !GreaterOrEqual_spec. destruct a, b; simpl. intros. f_equal; lia.
Qed.

Lemma GE_total a b : GreaterOrEqual a b = true \/ GreaterOrEqual b a = true.
Proof. rewrite !GreaterOrEqual_spec. lia. Qed.

#[export] Hint Resolve GE_refl After_GE : go.

(** ** One step of the clock *)

Definition logical_ok (h : HLC) (L : Z) : Prop := -2147483648 <= logical h <= L.
Definition remote_ok (t : Timestamp) (L : Z) : Prop := -2147483648 <= Logical t <= L.

Lemma Now_spec h wall L ts h' :
  logical_ok h L -> 0 <= L < 2147483647 -> Now h wall = (ts, h') ->
  After ts (ts_of h) = true /\ ts_of h' = ts /\ logical_ok h' (L + 1)
  /\ physical h' = Z.max (physical h) wall /\ maxOffset h' = maxOffset h.
Proof.
  unfold logical_ok, Now. intros Hh HL [= <- <-]. rewrite After_spec. unfold ts_of.
  destruct (physical h <? wall) eqn:E; simpl; go_unwrap; repeat split; try lia.
Qed.

Lemma Update_spec h wall remote L ts h' :
  logical_ok h L -> remote_ok remote L -> 0 <= L < 2147483647 ->
  Update h wall remote = ((ts, None), h') ->
  After ts (ts_of h) = true /\ After ts remote = true /\ ts_of h' = ts
  /\ logical_ok h' (L + 1)
  /\ physical h' = Z.max (Z.max wall (physical h)) (Physical remote)
  /\ maxOffset h' = maxOffset h.
Proof.
  unfold logical_ok, remote_ok, Update. intros Hh Hr HL.
  destruct (int64 _ <? _); [discriminate|]. intros [= <- <-].
  rewrite !After_spec. unfold ts_of.
  destruct (wall <? physical h) eqn:E1; [destruct (physical h <? Physical remote) eqn:E2
  | destruct (wall <? Physical remote) eqn:E2];
  (case_ifs; simpl; go_unwrap; repeat split; try lia).
Qed.

Lemma Update_reject h wall remote ts h' :
  Update h wall remote = ((ts, Some ErrClockSmash), h') ->
  h' = h /\ int64 (wall + maxOffset h) < Physical remote.
Proof. unfold Update. destruct (_ <? _) eqn:E; intros [=]. subst. split; [done|lia]. Qed.

(** ** Runs of one clock

    A clock is driven by an arbitrary sequence of [Now] and [Update] calls with
    arbitrary wall readings, also ones that go backwards. *)

Inductive hlc_op := OpNow (wall : Z) | OpUpdate (wall : Z) (remote : Timestamp).

Definition hlc_step (h : HLC) (op : hlc_op) : option Timestamp * HLC :=
  match op with
  | OpNow wall => let '(ts, h') := Now h wall in (Some ts, h')
  | OpUpdate wall remote =>
      match Update h wall remote with
      | ((ts, None), h') => (Some ts, h')
      | ((_, Some _), h') => (None, h')
      end
  end.

Fixpoint hlc_run (h : HLC) (ops : list hlc_op) : list Timestamp * HLC :=
  match ops with
  | [] => ([], h)
  | op :: ops =>
      let '(o, h1) := hlc_step h op in
      let '(tss, h2) := hlc_run h1 ops in
      (option_list o ++ tss, h2)
  end.

Definition op_ok (L : Z) (op : hlc_op) : Prop :=
  match op with OpNow _ => True | OpUpdate _ remote => remote_ok remote L end.

Definition ts_lt (a b : Timestamp) : Prop := After b a = true.

Lemma hlc_step_spec h op L o h' :
  logical_ok h L -> op_ok L op -> 0 <= L < 2147483647 -> hlc_step h op = (o, h') ->
  logical_ok h' (L + 1) /\
  match o with
  | Some ts => ts_lt (ts_of h) ts /\ ts_of h' = ts
  | None => h' = h
  end.
Proof.
  intros Hh Hop HL. destruct op as [wall|wall remote]; unfold hlc_step.
  - destruct (Now h wall) as [ts h1] eqn:E. intros [= <- <-].
    eapply Now_spec in E as (?&?&?&_); eauto.
  - destruct (Update h wall remote) as [[ts [[]|]] h1] eqn:E; intros [= <- <-].
    + apply Update_reject in E as [-> _]. unfold logical_ok in *. split; [lia|done].
    + eapply Update_spec in E as (?&?&?&?&_); eauto.
Qed.

Lemma op_ok_mono L L' op : L <= L' -> op_ok L op -> op_ok L' op.
Proof. destruct op; simpl; unfold remote_ok; [done|lia]. Qed.

Lemma hlc_run_lower ops h L :
  logical_ok h L -> Forall (op_ok L) ops -> 0 <= L -> L + Z.of_nat (length ops) < 2147483647 ->
  Forall (ts_lt (ts_of h)) (fst (hlc_run h ops)) /\
  StronglySorted ts_lt (fst (hlc_run h ops)).
Proof.
  revert h L. induction ops as [|op ops IH]; intros h L Hh Hops HL Hlen; simpl in *.
  { split; constructor. }
  apply Forall_cons in Hops as [Hop Hops].
  destruct (hlc_step h op) as [o h1] eqn:E.
  eapply hlc_step_spec in E as [Hh1 Ho]; eauto; [|lia].
  destruct (IH h1 (L + 1)) as [Hlow Hsort]; [done| |lia..|].
  { eapply Forall_impl; [exact Hops|]. intros ?. apply op_ok_mono. lia. }
  destruct (hlc_run h1 ops) as [tss h2]. simpl in *.
  destruct o as [ts|]; simpl.
  - destruct Ho as [Hlt <-]. split.
    + constructor; [done|]. eapply Forall_impl; [exact Hlow|]. unfold ts_lt.
      intros t Ht. eapply After_trans; eauto.
    + by constructor.
  - by subst.
Qed.

(** C18: Over any sequence of [Now] and accepted [Update] calls, whatever the
    wall clock reads (also when it runs backwards), the timestamps a clock
    issues are strictly increasing and all after the clock's starting point,
    as long as the 32-bit logical counter cannot overflow within the run. *)
Theorem hlc_run_strictly_increasing h ops L :
  logical_ok h L -> Forall (op_ok L) ops -> 0 <= L -> L + Z.of_nat (length ops) < 2147483647 ->
  StronglySorted ts_lt (ts_of h :: fst (hlc_run h ops)).
Proof.
  intros Hh Hops HL Hlen. destruct (hlc_run_lower ops h L) as [Hlow Hsort]; auto.
  by constructor.
Qed.

Lemma hlc_run_strictly_increasing_witness :
  StronglySorted ts_lt (ts_of (NewHLC 1000) :: fst (hlc_run (NewHLC 1000)
    [OpNow 900; OpUpdate 950 (mkTimestamp 1200 7); OpNow 1100; OpNow 5000])).
Proof.
  apply (hlc_run_strictly_increasing _ _ 7); vm_compute; try (split; congruence); try congruence.
  repeat constructor; vm_compute; congruence.
Defined.

(** ** Clock smash protection *)

(** C20: [Update] rejects a remote timestamp exactly when its physical part is
    beyond the local wall clock plus the allowed offset; a rejected timestamp
    leaves the clock unchanged, and an accepted one cannot pull the clock
    further ahead than its own position or the wall clock plus the offset. *)
Theorem clock_smash_protection h wall remote :
  is_int64 (wall + maxOffset h) -> 0 <= maxOffset h ->
  let '((_, err), h') := Update h wall remote in
  (err = Some ErrClockSmash <-> wall + maxOffset h < Physical remote) /\
  (err = Some ErrClockSmash -> h' = h) /\
  physical h <= physical h' <= Z.max (physical h) (wall + maxOffset h).
Proof.
  intros Hw Ho. unfold Update. rewrite (int64_id _ Hw).
  destruct (wall + maxOffset h <? Physical remote) eqn:E; simpl.
  - repeat split; intros; (done || lia).
  - destruct (wall <? physical h) eqn:E1; [destruct (physical h <? Physical remote) eqn:E2
    | destruct (wall <? Physical remote) eqn:E2];
    case_ifs; simpl; repeat split; intros; (done || lia).
Qed.

Lemma clock_smash_protection_witness :
  let '((_, err), h') := Update (NewHLC 100) 100 (mkTimestamp 4070908800000000000 0) in
  (err = Some ErrClockSmash <->
     100 + maxOffset (NewHLC 100) < Physical (mkTimestamp 4070908800000000000 0)) /\
  (err = Some ErrClockSmash -> h' = NewHLC 100) /\
  physical (NewHLC 100) <= physical h' <= Z.max (physical (NewHLC 100)) (100 + maxOffset (NewHLC 100)).
Proof.
  apply (clock_smash_protection (NewHLC 100) 100 (mkTimestamp 4070908800000000000 0));
  unfold is_int64; simpl; unfold DefaultMaxOffset; lia.
Defined.

(** A remote logical component at the top of the [int32] range makes the
    receiver's own counter wrap: the clock then stands before the timestamp it
    just accepted. *)
Example remote_logical_overflow :
  let h := NewHLC 1000 in
  let remote := mkTimestamp 1000 2147483647 in
  let '((ts, err), h') := Update h 1000 remote in
  err = None /\ After remote ts = true /\ After (ts_of h) (ts_of h') = true.
Proof. vm_compute. done. Qed.

(** ** Causality between nodes

    A system of clocks, one per node.  An event either issues a timestamp
    ([Now]) or receives the timestamp of an earlier event ([Update]); a
    rejected reception leaves no event. *)

Record event := mkEvent { e_node : nat; e_ts : Timestamp; e_from : option nat }.
Record sys := mkSys { clk : nat -> HLC; hist : list event }.

Definition sys_init (c : nat -> HLC) : sys := mkSys c [].

Inductive sys_step : sys -> sys -> Prop :=
| sys_now c hs n wall ts h' :
    Now (c n) wall = (ts, h') ->
    sys_step (mkSys c hs) (mkSys (<[n := h']> c) (hs ++ [mkEvent n ts None]))
| sys_recv c hs n wall i e ts h' :
    hs !! i = Some e ->
    Update (c n) wall (e_ts e) = ((ts, None), h') ->
    sys_step (mkSys c hs) (mkSys (<[n := h']> c) (hs ++ [mkEvent n ts (Some i)]))
| sys_smash c hs n wall i e ts h' :
    hs !! i = Some e ->
    Update (c n) wall (e_ts e) = ((ts, Some ErrClockSmash), h') ->
    sys_step (mkSys c hs) (mkSys (<[n := h']> c) hs).

(** Lamport's happened-before on the events of a history, by their positions. *)
Inductive happens_before (hs : list event) : nat -> nat -> Prop :=
| hb_program i j ei ej :
    hs !! i = Some ei -> hs !! j = Some ej -> (i < j)%nat -> e_node ei = e_node ej ->
    happens_before hs i j
| hb_message i j ej :
    hs !! j = Some ej -> e_from ej = Some i -> happens_before hs i j
| hb_trans i j k : happens_before hs i j -> happens_before hs j k -> happens_before hs i k.

Record sys_inv (s : sys) : Prop := {
  inv_logical n : logical_ok (clk s n) (Z.of_nat (length (hist s)));
  inv_event i e : hist s !! i = Some e ->
    remote_ok (e_ts e) (Z.of_nat (length (hist s))) /\
    GreaterOrEqual (ts_of (clk s (e_node e))) (e_ts e) = true;
  inv_program i j ei ej : hist s !! i = Some ei -> hist s !! j = Some ej -> (i < j)%nat ->
    e_node ei = e_node ej -> After (e_ts ej) (e_ts ei) = true;
  inv_message i j ej : hist s !! j = Some ej -> e_from ej = Some i ->
    exists ei, hist s !! i = Some ei /\ After (e_ts ej) (e_ts ei) = true
}.

Lemma sys_init_inv c : (forall n, logical (c n) = 0) -> sys_inv (sys_init c).
Proof.
  intros Hc. constructor; simpl.
  - intros n. unfold logical_ok. rewrite Hc. lia.
  - intros i e H. by rewrite lookup_nil in H.
  - intros i j ei ej H. by rewrite lookup_nil in H.
  - intros i j ej H. by rewrite lookup_nil in H.
Qed.

Lemma fn_lookup_insert_cases (c : nat -> HLC) n h m :
  (m = n /\ (<[n := h]> c) m = h) \/ (m <> n /\ (<[n := h]> c) m = c m).
Proof.
  destruct (decide (m = n)) as [->|Hne]; [left|right]; (split; [done|]).
  - by rewrite fn_lookup_insert.
  - by rewrite fn_lookup_insert_ne.
Qed.

(** Appending an event that is after its node's clock (and after the event it
    received from) preserves the invariant. *)
Lemma sys_inv_append c hs n ts h' from :
  sys_inv (mkSys c hs) ->
  After ts (ts_of (c n)) = true -> ts_of h' = ts ->
  logical_ok h' (Z.of_nat (length hs) + 1) ->
  (forall i, from = Some i -> exists ei, hs !! i = Some ei /\ After ts (e_ts ei) = true) ->
  sys_inv (mkSys (<[n := h']> c) (hs ++ [mkEvent n ts from])).
Proof.
  intros [Hlog Hev Hprog Hmsg] Haft Hts Hok Hfrom; simpl in *.
  assert (Hlen : Z.of_nat (length (hs ++ [mkEvent n ts from])) = Z.of_nat (length hs) + 1)
    by (rewrite length_app; simpl; lia).
  constructor; simpl; rewrite ?Hlen.
  - intros m. destruct (fn_lookup_insert_cases c n h' m) as [[-> ->]|[_ ->]]; [done|].
    specialize (Hlog m). unfold logical_ok in *. lia.
  - intros i e [He|[-> [= <-]]]%lookup_snoc_Some; simpl.
    + destruct He as [_ He]. apply Hev in He as [Hr Hge]. split; [unfold remote_ok in *; lia|].
      destruct (fn_lookup_insert_cases c n h' (e_node e)) as [[E ->]|[_ ->]]; [|done].
      rewrite Hts. apply After_GE. eapply After_GE_trans; [exact Haft|]. by rewrite <- E.
    + rewrite fn_lookup_insert, Hts. split; [|apply GE_refl].
      unfold logical_ok, remote_ok in *. rewrite <- Hts. simpl. lia.
  - intros i j ei ej Hi Hj Hij Hn.
    apply lookup_snoc_Some in Hj as [[Hj' Hj]|[-> [= <-]]];
      apply lookup_snoc_Some in Hi as [[Hi' Hi]|[-> [= <-]]]; simpl in *; try lia.
    + by eapply Hprog.
    + apply Hev in Hi as [_ Hge]. rewrite Hn in Hge. by eapply After_GE_trans.
  - intros i j ej [[_ Hj]|[-> [= <-]]]%lookup_snoc_Some Hf; simpl in *.
    + destruct (Hmsg _ _ _ Hj Hf) as (ei & Hi & ?). exists ei.
      split; [by apply lookup_app_l_Some|done].
    + destruct (Hfrom i Hf) as (ei & Hi & ?). exists ei. split; [by apply lookup_app_l_Some|done].
Qed.

Lemma sys_step_inv s s' :
  Z.of_nat (length (hist s)) < 2147483647 -> sys_inv s -> sys_step s s' -> sys_inv s'.
Proof.
  intros Hlen Hinv Hstep. destruct Hstep as [c hs n wall ts h' E|c hs n wall i e ts h' Hi E
    |c hs n wall i e ts h' Hi E]; simpl in *.
  - eapply Now_spec in E as (?&?&?&_); [|apply (inv_logical _ Hinv)|simpl; lia].
    by apply sys_inv_append.
  - destruct (inv_event _ Hinv i e Hi) as [Hr _].
    eapply Update_spec in E as (?&?&?&?&_); [|apply (inv_logical _ Hinv)|exact Hr|simpl; lia].
    apply sys_inv_append; auto. intros ? [= <-]. eauto.
  - apply Update_reject in E as [-> _]. destruct Hinv as [Hlog Hev Hprog Hmsg].
    constructor; simpl in *; auto.
    + intros m. destruct (fn_lookup_insert_cases c n (c n) m) as [[-> ->]|[_ ->]]; auto.
    + intros j ej Hj. destruct (fn_lookup_insert_cases c n (c n) (e_node ej)) as [[E ->]|[_ ->]]; eauto.
      rewrite <- E. eauto.
Qed.

Lemma sys_step_hist s s' : sys_step s s' -> (length (hist s) <= length (hist s'))%nat.
Proof. destruct 1; simpl; rewrite ?length_app; lia. Qed.

Lemma sys_steps_inv s s' :
  rtc sys_step s s' -> Z.of_nat (length (hist s')) < 2147483647 -> sys_inv s -> sys_inv s'.
Proof.
  intros Hs Hlen Hinv. induction Hs as [|s1 s2 s3 H12 H23 IH]; [done|].
  apply IH; [done|]. apply (sys_step_inv s1); auto.
  assert (length (hist s1) <= length (hist s3))%nat; [|lia].
  clear -H12 H23. apply sys_step_hist in H12. transitivity (length (hist s2)); [done|].
  clear -H23. induction H23 as [|? ? ? H%sys_step_hist]; lia.
Qed.

Lemma happens_before_After s i j :
  sys_inv s -> happens_before (hist s) i j ->
  exists ei ej, hist s !! i = Some ei /\ hist s !! j = Some ej /\ After (e_ts ej) (e_ts ei) = true.
Proof.
  intros Hinv. induction 1 as [i j ei ej Hi Hj Hij Hn|i j ej Hj Hf|i j k _ IH1 _ IH2].
  - exists ei, ej. split_and!; auto. by eapply inv_program.
  - edestruct inv_message as (ei & Hi & Ha); eauto.
  - destruct IH1 as (ei & ej & ? & ? & ?), IH2 as (ej' & ek & ? & ? & ?). simplify_eq.
    exists ei, ek. split_and!; auto. by eapply After_trans.
Qed.

(** C19: Causality: in every execution of a system of clocks exchanging
    timestamps, with any wall clocks, if one event happened before another
    (on the same node, by a message, or by a chain of both) then its timestamp
    is strictly smaller, as long as fewer than 2^31-1 events occurred. *)
Theorem happens_before_timestamps c s i j ei ej :
  (forall n, logical (c n) = 0) -> rtc sys_step (sys_init c) s ->
  Z.of_nat (length (hist s)) < 2147483647 ->
  happens_before (hist s) i j ->
  hist s !! i = Some ei -> hist s !! j = Some ej ->
  After (e_ts ej) (e_ts ei) = true.
Proof.
  intros Hc Hs Hlen Hhb Hi Hj.
  assert (Hinv : sys_inv s) by (eapply sys_steps_inv; eauto using sys_init_inv).
  destruct (happens_before_After s i j Hinv Hhb) as (ei' & ej' & ? & ? & ?). by simplify_eq.
Qed.

(** Node 0 (wall 100) issues an event, node 1, whose wall clock is behind,
    receives it and then issues one of its own. *)
Lemma happens_before_timestamps_witness :
  let c := fun n : nat => NewHLC (if decide (n = 0%nat) then 100 else 10) in
  exists s ei ej,
    rtc sys_step (sys_init c) s /\ happens_before (hist s) 0 2 /\
    hist s !! 0%nat = Some ei /\ hist s !! 2%nat = Some ej /\
    After (e_ts ej) (e_ts ei) = true.
Proof.
  intros c.
  set (e0 := mkEvent 0 (mkTimestamp 100 1) None).
  set (e1 := mkEvent 1 (mkTimestamp 100 2) (Some 0%nat)).
  set (e2 := mkEvent 1 (mkTimestamp 100 3) None).
  assert (Hs : exists c', rtc sys_step (sys_init c) (mkSys c' [e0; e1; e2])).
  { eexists. eapply rtc_l. { apply (sys_now _ _ 0 50 (mkTimestamp 100 1)). vm_compute. done. }
    eapply rtc_l. { apply (sys_recv _ _ 1 20 0 e0 (mkTimestamp 100 2)); vm_compute; done. }
    eapply rtc_l. { apply (sys_now _ _ 1 21 (mkTimestamp 100 3)). vm_compute. done. }
    apply rtc_refl. }
  destruct Hs as [c' Hs].
  assert (Hhb : happens_before [e0; e1; e2] 0 2).
  { apply hb_trans with 1%nat; [by eapply hb_message|].
    eapply hb_program; [done..|lia|done]. }
  exists (mkSys c' [e0; e1; e2]), e0, e2. split_and!; [exact Hs|exact Hhb|done|done|].
  apply (happens_before_timestamps c (mkSys c' [e0; e1; e2]) 0 2 e0 e2); auto.
  simpl; lia.
Defined.
