(* ===== verification/Types.v ===== *)
(** * Wire-level data types (src/types.go, src/log.go, src/transport.go)

    A Go [[]byte] that may be [nil] is an [option bytes]; a Go value of type
    [any] is [nil], a string, a byte slice, or a value [o : O] of some other
    dynamic type, where [O] is a parameter. *)

From S2P Require Import Prelude Float64 Hlc.

#[local] Open Scope Z_scope.

(** [MsgType] is a Go [byte] with named values; a received byte may be any. *)
Abbreviation MsgType := Z (only parsing).
Definition MsgSet : MsgType := 0.
Definition MsgIncr : MsgType := 1.
Definition MsgMetric : MsgType := 2.
Definition MsgWindow : MsgType := 3.
Definition MsgDelete : MsgType := 4.

Definition is_byte (z : Z) : Prop := 0 <= z < 256.

(** Values of type [any]. *)
Inductive any (O : Type) : Type :=
| ANil
| AString (s : string)
| ABytes (b : bytes)
| AOther (o : O).
Arguments ANil {O}.
Arguments AString {O} s.
Arguments ABytes {O} b.
Arguments AOther {O} o.

(** [Message] of types.go; the field [ValueObj] is not serialized by the
    generated codec. *)
Record Message (O : Type) := mkMessage {
  m_Type : MsgType;
  m_Key : string;
  m_Value : option bytes;
  m_ValueObj : any O;
  m_Delta : float64;
  m_TTL : Z;
  m_Timestamp : Z;
  m_NodeID : string
}.
Arguments mkMessage {O}.
Arguments m_Type {O}. Arguments m_Key {O}. Arguments m_Value {O}. Arguments m_ValueObj {O}.
Arguments m_Delta {O}. Arguments m_TTL {O}. Arguments m_Timestamp {O}. Arguments m_NodeID {O}.

Record Metric := mkMetric { Count : Z; Sum : float64 }.

(** [LogEntry] of log.go. *)
Record LogEntry := mkLogEntry {
  Seq : Z;
  TS : Timestamp;
  BornAt : Z;
  Op : MsgType;
  Key : string;
  NodeID : string;
  Value : option bytes;
  Delta : float64;
  TTL : Z
}.

(** [Handshake] and [Batch] of transport.go. *)
Record Handshake := mkHandshake { LastSeenSeq : Z; AuthToken : string }.

Record Batch := mkBatch {
  FromNode : string;
  Entries : list (option bytes);
  b_Handshake : option Handshake
}.

Definition zero_Timestamp : Timestamp := mkTimestamp 0 0.
Definition zero_LogEntry : LogEntry :=
  mkLogEntry 0 zero_Timestamp 0 0 EmptyString EmptyString None fzero 0.
Definition zero_Handshake : Handshake := mkHandshake 0 EmptyString.
Definition zero_Batch : Batch := mkBatch EmptyString [] None.
Definition zero_Message {O} : Message O :=
  mkMessage 0 EmptyString None ANil fzero 0 0 EmptyString.

(** The bytes of a possibly nil slice. *)
Definition contents (v : option bytes) : bytes := default [] v.

(** [LogEntry] up to the difference between a nil and an empty slice and
    between the two zeros of [float64], which the wire format does not carry. *)
Definition drop_zero_sign (f : float64) : float64 := if fis0 f then fzero else f.

Record LogEntry_equiv (a b : LogEntry) : Prop := {
  eqv_Seq : Seq a = Seq b;
  eqv_TS : TS a = TS b;
  eqv_BornAt : BornAt a = BornAt b;
  eqv_Op : Op a = Op b;
  eqv_Key : Key a = Key b;
  eqv_NodeID : NodeID a = NodeID b;
  eqv_Value : contents (Value a) = contents (Value b);
  eqv_Delta : drop_zero_sign (Delta a) = drop_zero_sign (Delta b);
  eqv_TTL : TTL a = TTL b
}.

#[export] Instance LogEntry_equiv_equivalence : Equivalence LogEntry_equiv.
Proof.
  split.
  - by intros x.
  - intros x y []; constructor; congruence.
  - intros x y z [] []; constructor; congruence.
Qed.

(** What a Go process can hold: every field in the range of its type. *)
Record LogEntry_ok (e : LogEntry) : Prop := {
  ok_Seq : is_uint64 (Seq e);
  ok_Physical : is_int64 (Physical (TS e));
  ok_Logical : is_int32 (Logical (TS e));
  ok_BornAt : is_int64 (BornAt e);
  ok_Op : is_byte (Op e);
  ok_Key : is_uint32 (strlen (Key e));
  ok_NodeID : is_uint32 (strlen (NodeID e));
  ok_Value : is_uint32 (Z.of_nat (length (contents (Value e))));
  ok_Delta : is_float64 (Delta e);
  ok_TTL : is_int64 (TTL e)
}.

Definition set_Seq (e : LogEntry) (s : Z) : LogEntry :=
  mkLogEntry s (TS e) (BornAt e) (Op e) (Key e) (NodeID e) (Value e) (Delta e) (TTL e).
