(* ===== verification/Msgp.v ===== *)
(** * The interface to github.com/tinylib/msgp

    The MessagePack library is not part of the repository.  It is described by
    its wire encodings ([Wire]), its readers ([Source]: the [ReadXxxBytes]
    functions over a byte slice and the methods of [msgp.Reader] over a
    stream) and its writers ([Sink]: the [AppendXxx] functions and the methods
    of [msgp.Writer]), with the laws the generated codecs rely on: a reader
    applied to what a writer produced returns the value written, and an
    encoding is no longer than the library's exported size constants say. *)

From S2P Require Import Prelude Float64 Hlc Types.

#[local] Open Scope Z_scope.

(** ** Errors and results *)

Inductive merr := LibError (what : string) | WrapError (e : merr) (ctx : list string).

Inductive result (A : Type) : Type := Ok (a : A) | Err (e : merr).
Arguments Ok {A} a.
Arguments Err {A} e.

Definition rbind {A B} (r : result A) (k : A -> result B) : result B :=
  match r with Ok a => k a | Err e => Err e end.

(** [if err != nil { err = msgp.WrapError(err, ctx...); return }] *)
Definition wrap {A} (ctx : list string) (r : result A) : result A :=
  match r with Ok a => Ok a | Err e => Err (WrapError e ctx) end.

Notation "'let*' x ':=' m 'in' k" := (rbind m (fun x => k))
  (at level 10, x pattern, m at level 100, k at level 200) : go_scope.

(** ** Wire encodings *)

Class Wire := {
  enc_int64 : Z -> bytes;
  enc_int32 : Z -> bytes;
  enc_uint64 : Z -> bytes;
  enc_byte : Z -> bytes;
  enc_float64 : float64 -> bytes;
  enc_string : string -> bytes;
  enc_bytes : bytes -> bytes;
  enc_array_header : Z -> bytes;
  enc_nil : bytes;
  Int64Size : Z; Int32Size : Z; Uint64Size : Z; ByteSize : Z; Float64Size : Z;
  StringPrefixSize : Z; BytesPrefixSize : Z; ArrayHeaderSize : Z; NilSize : Z
}.

(** A map header of at most 15 fields, and a map key of at most 31 bytes, as
    the generated code writes them literally. *)
Definition fix_map_header (n : Z) : bytes := [byte_of_Z (Z.lor 128 n)].
Definition fix_key (k : string) : bytes :=
  byte_of_Z (Z.lor 160 (strlen k)) :: bytes_of_string k.

Definition zlen {A} (l : list A) : Z := Z.of_nat (length l).

Class WireLaws (W : Wire) : Prop := {
  size_int64 x : zlen (enc_int64 x) <= Int64Size;
  size_int32 x : zlen (enc_int32 x) <= Int32Size;
  size_uint64 x : zlen (enc_uint64 x) <= Uint64Size;
  size_byte x : zlen (enc_byte x) <= ByteSize;
  size_float64 x : zlen (enc_float64 x) <= Float64Size;
  size_string s : zlen (enc_string s) <= StringPrefixSize + strlen s;
  size_bytes b : zlen (enc_bytes b) <= BytesPrefixSize + zlen b;
  size_array_header n : zlen (enc_array_header n) <= ArrayHeaderSize;
  size_nil : zlen enc_nil <= NilSize
}.

(** ** Readers *)

Class Source (S : Type) := {
  ReadMapHeader : S -> result (Z * S);
  ReadMapKey : S -> result (bytes * S);
  ReadInt64 : S -> result (Z * S);
  ReadInt32 : S -> result (Z * S);
  ReadUint64 : S -> result (Z * S);
  ReadByte : S -> result (Z * S);
  ReadFloat64 : S -> result (float64 * S);
  ReadString : S -> result (string * S);
  ReadBytes : S -> option bytes -> result (option bytes * S);
  ReadArrayHeader : S -> result (Z * S);
  IsNil : S -> bool;
  ReadNil : S -> result S;
  Skip : S -> result S
}.

Class SourceLaws {W : Wire} (S : Type) `{Source S} := {
  view : S -> bytes;
  read_map_header s n rest : 0 <= n <= 15 -> view s = fix_map_header n ++ rest ->
    IsNil s = false /\ exists s', ReadMapHeader s = Ok (n, s') /\ view s' = rest;
  read_map_key s k rest : strlen k <= 31 -> view s = fix_key k ++ rest ->
    exists s', ReadMapKey s = Ok (bytes_of_string k, s') /\ view s' = rest;
  read_int64 s x rest : is_int64 x -> view s = enc_int64 x ++ rest ->
    exists s', ReadInt64 s = Ok (x, s') /\ view s' = rest;
  read_int32 s x rest : is_int32 x -> view s = enc_int32 x ++ rest ->
    exists s', ReadInt32 s = Ok (x, s') /\ view s' = rest;
  read_uint64 s x rest : is_uint64 x -> view s = enc_uint64 x ++ rest ->
    exists s', ReadUint64 s = Ok (x, s') /\ view s' = rest;
  read_byte s x rest : is_byte x -> view s = enc_byte x ++ rest ->
    exists s', ReadByte s = Ok (x, s') /\ view s' = rest;
  read_float64 s x rest : is_float64 x -> view s = enc_float64 x ++ rest ->
    exists s', ReadFloat64 s = Ok (x, s') /\ view s' = rest;
  read_string s x rest : is_uint32 (strlen x) -> view s = enc_string x ++ rest ->
    exists s', ReadString s = Ok (x, s') /\ view s' = rest;
  read_bytes s x scratch rest : is_uint32 (zlen x) -> view s = enc_bytes x ++ rest ->
    exists v s', ReadBytes s scratch = Ok (v, s') /\ contents v = x /\ view s' = rest;
  read_array_header s n rest : is_uint32 n -> view s = enc_array_header n ++ rest ->
    exists s', ReadArrayHeader s = Ok (n, s') /\ view s' = rest
}.

(** ** Writers *)

Class Sink (T : Type) := {
  Append : T -> bytes -> result T;
  WriteInt64 : T -> Z -> result T;
  WriteInt32 : T -> Z -> result T;
  WriteUint64 : T -> Z -> result T;
  WriteByte : T -> Z -> result T;
  WriteFloat64 : T -> float64 -> result T;
  WriteString : T -> string -> result T;
  WriteBytes : T -> bytes -> result T;
  WriteArrayHeader : T -> Z -> result T;
  WriteNil : T -> result T
}.

(** The [AppendXxx] functions: they extend the slice by the encoding. *)
#[export] Instance bytes_sink `{Wire} : Sink bytes := {
  Append o b := Ok (o ++ b);
  WriteInt64 o x := Ok (o ++ enc_int64 x);
  WriteInt32 o x := Ok (o ++ enc_int32 x);
  WriteUint64 o x := Ok (o ++ enc_uint64 x);
  WriteByte o x := Ok (o ++ enc_byte x);
  WriteFloat64 o x := Ok (o ++ enc_float64 x);
  WriteString o s := Ok (o ++ enc_string s);
  WriteBytes o b := Ok (o ++ enc_bytes b);
  WriteArrayHeader o n := Ok (o ++ enc_array_header n);
  WriteNil o := Ok (o ++ enc_nil)
}.

(** The readers over a byte slice: what they see is the slice itself. *)
Class SliceSource {W : Wire} {SB : Source bytes} := {
  slice_laws :: SourceLaws bytes;
  view_slice b : view b = b
}.

(** ** An instance

    MessagePack with every value in its widest format, and the short formats
    of map headers and keys the generated code writes. *)

Module Fixed.

#[export] Instance wire : Wire := {
  enc_int64 x := Byte.xd3 :: be_encode 8 x;
  enc_int32 x := Byte.xd2 :: be_encode 4 x;
  enc_uint64 x := Byte.xcf :: be_encode 8 x;
  enc_byte x := Byte.xcc :: be_encode 1 x;
  enc_float64 x := Byte.xcb :: be_encode 8 (Float64bits x);
  enc_string s := Byte.xdb :: be_encode 4 (strlen s) ++ bytes_of_string s;
  enc_bytes b := Byte.xc6 :: be_encode 4 (zlen b) ++ b;
  enc_array_header n := Byte.xdd :: be_encode 4 n;
  enc_nil := [Byte.xc0];
  Int64Size := 9; Int32Size := 5; Uint64Size := 9; ByteSize := 2; Float64Size := 9;
  StringPrefixSize := 5; BytesPrefixSize := 5; ArrayHeaderSize := 5; NilSize := 1
}.

Definition short : merr := LibError "too few bytes left to read object".
Definition bad : merr := LibError "unexpected format".

(** A tag byte, then [n] bytes. *)
Definition tagged (t : byte) (n : nat) (s : bytes) : result (Z * bytes) :=
  match s with
  | [] => Err short
  | b :: s =>
      if decide (b = t) then
        if (length s <? n)%nat then Err short else Ok (be_decode (take n s), drop n s)
      else Err bad
  end.

Definition raw (n : Z) (s : bytes) : result (bytes * bytes) :=
  if zlen s <? n then Err short else Ok (take (Z.to_nat n) s, drop (Z.to_nat n) s).

Definition fix_tag (base width : Z) (s : bytes) : result (Z * bytes) :=
  match s with
  | [] => Err short
  | b :: s =>
      let z := Z_of_byte b in
      if (base <=? z) && (z <? base + width) then Ok (z - base, s) else Err bad
  end.

#[export] Instance source : Source bytes := {
  ReadMapHeader s := fix_tag 128 16 s;
  ReadMapKey s := rbind (fix_tag 160 32 s) (fun '(n, s) => raw n s);
  ReadInt64 s := rbind (tagged Byte.xd3 8 s) (fun '(x, s) => Ok (int64 x, s));
  ReadInt32 s := rbind (tagged Byte.xd2 4 s) (fun '(x, s) => Ok (int32 x, s));
  ReadUint64 s := tagged Byte.xcf 8 s;
  ReadByte s := tagged Byte.xcc 1 s;
  ReadFloat64 s := rbind (tagged Byte.xcb 8 s) (fun '(x, s) => Ok (Float64frombits x, s));
  ReadString s := rbind (tagged Byte.xdb 4 s) (fun '(n, s) =>
                  rbind (raw n s) (fun '(b, s) => Ok (string_of_bytes b, s)));
  ReadBytes s scratch := rbind (tagged Byte.xc6 4 s) (fun '(n, s) =>
                         rbind (raw n s) (fun '(b, s) => Ok (Some b, s)));
  ReadArrayHeader s := tagged Byte.xdd 4 s;
  IsNil s := match s with b :: _ => bool_decide (b = Byte.xc0) | [] => false end;
  ReadNil s := match s with
               | b :: s => if decide (b = Byte.xc0) then Ok s else Err bad
               | [] => Err short
               end;
  Skip s := match s with _ :: s => Ok s | [] => Err short end
}.

#[export] Instance wire_laws : WireLaws wire.
Proof.
  split; intros; unfold zlen, strlen, wire; cbn [enc_int64 enc_int32 enc_uint64 enc_byte
    enc_float64 enc_string enc_bytes enc_array_header enc_nil Int64Size Int32Size Uint64Size
    ByteSize Float64Size StringPrefixSize BytesPrefixSize ArrayHeaderSize NilSize];
  rewrite ?length_cons, ?length_app, ?length_be_encode; simpl length; lia.
Qed.

Lemma tagged_ok t n x rest :
  tagged t n (t :: be_encode n x ++ rest) = Ok (x mod 256 ^ Z.of_nat n, rest).
Proof.
  unfold tagged. rewrite decide_True by done.
  rewrite length_app, length_be_encode.
  rewrite (proj2 (Nat.ltb_ge _ _)) by lia.
  rewrite take_app_length', drop_app_length' by (by rewrite length_be_encode).
  by rewrite be_decode_encode.
Qed.

Lemma raw_ok b rest : raw (zlen b) (b ++ rest) = Ok (b, rest).
Proof.
  unfold raw, zlen. rewrite length_app.
  rewrite (proj2 (Z.ltb_ge _ _)) by lia. rewrite Nat2Z.id.
  by rewrite take_app_length, drop_app_length.
Qed.

Lemma fix_tag_ok base width n rest :
  (base, width) = (128, 16) \/ (base, width) = (160, 32) -> 0 <= n < width ->
  fix_tag base width (byte_of_Z (Z.lor base n) :: rest) = Ok (n, rest).
Proof.
  intros Hb Hn.
  assert (Z.lor base n = base + n) as ->.
  { assert (forallb (fun k => Z.lor base (Z.of_nat k) =? base + Z.of_nat k)
              (seq 0 (Z.to_nat width)) = true) as H.
    { by destruct Hb as [[= -> ->]|[= -> ->]]. }
    rewrite forallb_forall in H. specialize (H (Z.to_nat n)).
    rewrite Z2Nat.id in H by lia. apply Z.eqb_eq, H, in_seq. lia. }
  unfold fix_tag. rewrite Z_of_byte_of_Z.
  destruct Hb as [[= -> ->]|[= -> ->]]; rewrite Z.mod_small by lia;
  (rewrite (proj2 (Z.leb_le _ _)), (proj2 (Z.ltb_lt _ _)) by lia); simpl; do 2 f_equal; lia.
Qed.

Lemma wrap_mod_int64 x : is_int64 x -> int64 (x mod 256 ^ 8) = x.
Proof.
  unfold is_int64, int64, wrap_signed. intros H.
  change (256 ^ 8) with (2 ^ 64). change (2 ^ (64 - 1)) with 9223372036854775808.
  rewrite Zplus_mod_idemp_l. change (2 ^ 64) with 18446744073709551616.
  rewrite Z.mod_small; lia.
Qed.

Lemma wrap_mod_int32 x : is_int32 x -> int32 (x mod 256 ^ 4) = x.
Proof.
  unfold is_int32, int32, wrap_signed. intros H.
  change (256 ^ 4) with (2 ^ 32). change (2 ^ (32 - 1)) with 2147483648.
  rewrite Zplus_mod_idemp_l. change (2 ^ 32) with 4294967296.
  rewrite Z.mod_small; lia.
Qed.

#[export] Instance source_laws : SourceLaws bytes.
Proof.
  refine {| view := fun b : bytes => b |}.
  - intros s n rest Hn ->. split.
    + cbn -[byte_of_Z Z.lor]. apply bool_decide_eq_false. intros E.
      assert (fix_tag 128 16 (Byte.xc0 :: rest) = Ok (n, rest)) as H; [|done].
      rewrite <- E. apply fix_tag_ok; [by left|lia].
    + exists rest. split; [|done]. apply fix_tag_ok; [by left|lia].
  - intros s k rest Hk ->. exists rest. split; [|done].
    cbn [ReadMapKey source]. unfold fix_key. cbn [app].
    rewrite fix_tag_ok; [|by right|unfold strlen in *; lia]. simpl.
    apply raw_ok.
  - intros s x rest Hx ->. exists rest. split; [|done]. cbn [ReadInt64 source enc_int64 wire app].
    rewrite tagged_ok. simpl. by rewrite wrap_mod_int64.
  - intros s x rest Hx ->. exists rest. split; [|done]. cbn [ReadInt32 source enc_int32 wire app].
    rewrite tagged_ok. simpl. by rewrite wrap_mod_int32.
  - intros s x rest Hx ->. exists rest. split; [|done]. cbn [ReadUint64 source enc_uint64 wire app].
    rewrite tagged_ok. do 2 f_equal. apply Z.mod_small. exact Hx.
  - intros s x rest Hx ->. exists rest. split; [|done]. cbn [ReadByte source enc_byte wire app].
    rewrite tagged_ok. do 2 f_equal. apply Z.mod_small. exact Hx.
  - intros s x rest Hx ->. exists rest. split; [|done].
    cbn [ReadFloat64 source enc_float64 wire app]. rewrite tagged_ok. simpl.
    rewrite Z.mod_small by exact (Float64bits_range x Hx). by rewrite Float64frombits_bits.
  - intros s x rest Hx ->. exists rest. split; [|done].
    cbn [ReadString source enc_string wire]. rewrite <- app_comm_cons, <- app_assoc, tagged_ok.
    simpl. rewrite Z.mod_small by exact Hx. change (strlen x) with (zlen (bytes_of_string x)). rewrite raw_ok. simpl.
    by rewrite string_of_bytes_of_string.
  - intros s x scratch rest Hx ->. exists (Some x), rest. split; [|done].
    cbn [ReadBytes source enc_bytes wire]. rewrite <- app_comm_cons, <- app_assoc, tagged_ok.
    simpl. rewrite Z.mod_small by exact Hx. by rewrite raw_ok.
  - intros s n rest Hx ->. exists rest. split; [|done].
    cbn [ReadArrayHeader source enc_array_header wire app]. rewrite tagged_ok.
    do 2 f_equal. apply Z.mod_small. exact Hx.
Defined.

#[export] Instance slice : SliceSource.
Proof. by exists source_laws. Defined.
End Fixed.
