(* ===== verification/Codec.v ===== *)
(** * The generated MessagePack codecs
    (src/hlc_gen.go, src/types_gen.go, src/log_gen.go, src/transport_gen.go)

    The generated [DecodeMsg] (over a [msgp.Reader]) and [UnmarshalMsg] (over a
    byte slice) are the same code over two readers, and [EncodeMsg] and
    [MarshalMsg] the same code over two writers: each pair is one definition
    over a [Source] or a [Sink], instantiated. *)

From S2P Require Import Prelude Float64 Hlc Types Msgp.
From stdpp Require Import pretty.
From Stdlib Require Import Strings.Byte.

#[local] Open Scope Z_scope.
#[local] Open Scope go_scope.

(** [switch msgp.UnsafeString(field) { case k: ... }] *)
Definition is_field (field : bytes) (k : string) : bool :=
  bool_decide (field = bytes_of_string k).

(** Omitted fields: [if c { len--; mask |= bit }], tested by [(mask & bit) == 0]. *)
Definition omit (c : bool) (bit : Z) (lm : Z * Z) : Z * Z :=
  let '(len, mask) := lm in
  if c then (len - 1, Z.lor mask bit) else (len, mask).
Definition not_omitted (mask bit : Z) : bool := Z.land mask bit =? 0.

Definition str_empty (s : string) : bool := bool_decide (s = EmptyString).
Definition is_nil {A} (o : option A) : bool := match o with None => true | Some _ => false end.

(** [for zb0001 > 0 { zb0001--; field = key; switch field {...} }] *)
Section fields.
Context {S : Type} `{Source S} {A : Type}.
Variable ctx : list string.
Variable step : bytes -> A -> S -> result (A * S).

Fixpoint decode_fields (n : nat) (z : A) (s : S) : result (A * S) :=
  match n with
  | O => Ok (z, s)
  | Datatypes.S n =>
      let* (field, s) := wrap ctx (ReadMapKey s) in
      let* (z, s) := step field z s in
      decode_fields n z s
  end.

Definition decode_map (z : A) (s : S) : result (A * S) :=
  let* (n, s) := wrap ctx (ReadMapHeader s) in
  decode_fields (Z.to_nat n) z s.
End fields.

(** [default: err = dc.Skip()] *)
Definition skip_field {S A} `{Source S} (ctx : list string) (z : A) (s : S) : result (A * S) :=
  let* s := wrap ctx (Skip s) in Ok (z, s).

(** ** Timestamp (src/hlc_gen.go) *)

Section timestamp.
Context {S : Type} `{Source S} {T : Type} `{Sink T}.

Definition Timestamp_field (field : bytes) (z : Timestamp) (s : S) : result (Timestamp * S) :=
  if is_field field "p" then
    let* (v, s) := wrap ["Physical"] (ReadInt64 s) in Ok (mkTimestamp v (Logical z), s)
  else if is_field field "l" then
    let* (v, s) := wrap ["Logical"] (ReadInt32 s) in Ok (mkTimestamp (Physical z) v, s)
  else skip_field [] z s.

Definition Timestamp_DecodeMsg (z : Timestamp) (s : S) : result (Timestamp * S) :=
  decode_map [] Timestamp_field z s.

Definition Timestamp_EncodeMsg (z : Timestamp) (en : T) : result T :=
  let* en := Append en [x82; xa1; x70] in
  let* en := wrap ["Physical"] (WriteInt64 en (Physical z)) in
  let* en := Append en [xa1; x6c] in
  wrap ["Logical"] (WriteInt32 en (Logical z)).
End timestamp.

Definition Timestamp_MarshalMsg `{Wire} (z : Timestamp) (b : bytes) : result bytes :=
  Timestamp_EncodeMsg z b.
Definition Timestamp_UnmarshalMsg `{Source bytes} (z : Timestamp) (bts : bytes)
    : result (Timestamp * bytes) := Timestamp_DecodeMsg z bts.
Definition Timestamp_Msgsize `{Wire} : Z := 1 + 2 + Int64Size + 2 + Int32Size.

(** ** MsgType (src/types_gen.go) *)

Definition MsgType_DecodeMsg {S} `{Source S} (s : S) : result (MsgType * S) :=
  wrap [] (ReadByte s).
Definition MsgType_EncodeMsg {T} `{Sink T} (z : MsgType) (en : T) : result T :=
  wrap [] (WriteByte en z).
Definition MsgType_MarshalMsg `{Wire} (z : MsgType) (b : bytes) : result bytes :=
  MsgType_EncodeMsg z b.
Definition MsgType_UnmarshalMsg `{Source bytes} (bts : bytes) : result (MsgType * bytes) :=
  MsgType_DecodeMsg bts.
Definition MsgType_Msgsize `{Wire} : Z := ByteSize.

(** ** LogEntry (src/log_gen.go) *)

Definition LogEntry_mask (z : LogEntry) : Z * Z :=
  let lm := (9, 0) in
  let lm := omit (str_empty (NodeID z)) 32 lm in
  let lm := omit (is_nil (Value z)) 64 lm in
  let lm := omit (fis0 (Delta z)) 128 lm in
  omit (TTL z =? 0) 256 lm.

Definition LogEntry_MarshalMsg `{Wire} (z : LogEntry) (b : bytes) : result bytes :=
  let '(zb0001Len, zb0001Mask) := LogEntry_mask z in
  let* o := Append b [byte_of_Z (Z.lor 128 zb0001Len)] in
  if zb0001Len =? 0 then Ok o else
    let* o := Append o [xa1; x73] in
    let* o := WriteUint64 o (Seq z) in
    let* o := Append o [xa1; x74] in
    let* o := wrap ["TS"] (Timestamp_MarshalMsg (TS z) o) in
    let* o := Append o [xa2; x62; x61] in
    let* o := WriteInt64 o (BornAt z) in
    let* o := Append o [xa1; x6f] in
    let* o := wrap ["Op"] (MsgType_MarshalMsg (Op z) o) in
    let* o := Append o [xa1; x6b] in
    let* o := WriteString o (Key z) in
    let* o := if not_omitted zb0001Mask 32 then
        let* o := Append o [xa1; x6e] in WriteString o (NodeID z) else Ok o in
    let* o := if not_omitted zb0001Mask 64 then
        let* o := Append o [xa1; x76] in WriteBytes o (contents (Value z)) else Ok o in
    let* o := if not_omitted zb0001Mask 128 then
        let* o := Append o [xa1; x64] in WriteFloat64 o (Delta z) else Ok o in
    if not_omitted zb0001Mask 256 then
        let* o := Append o [xa3; x74; x74; x6c] in WriteInt64 o (TTL z) else Ok o.

Section logentry.
Context `{Source bytes}.

Definition LogEntry_field (field : bytes) (z : LogEntry) (bts : bytes)
    : result (LogEntry * bytes) :=
  let '(mkLogEntry sq t ba o k n v d ttl) := z in
  if is_field field "s" then
    let* (x, bts) := wrap ["Seq"] (ReadUint64 bts) in Ok (mkLogEntry x t ba o k n v d ttl, bts)
  else if is_field field "t" then
    let* (x, bts) := wrap ["TS"] (Timestamp_UnmarshalMsg t bts) in
    Ok (mkLogEntry sq x ba o k n v d ttl, bts)
  else if is_field field "ba" then
    let* (x, bts) := wrap ["BornAt"] (ReadInt64 bts) in Ok (mkLogEntry sq t x o k n v d ttl, bts)
  else if is_field field "o" then
    let* (x, bts) := wrap ["Op"] (MsgType_UnmarshalMsg bts) in
    Ok (mkLogEntry sq t ba x k n v d ttl, bts)
  else if is_field field "k" then
    let* (x, bts) := wrap ["Key"] (ReadString bts) in Ok (mkLogEntry sq t ba o x n v d ttl, bts)
  else if is_field field "n" then
    let* (x, bts) := wrap ["NodeID"] (ReadString bts) in Ok (mkLogEntry sq t ba o k x v d ttl, bts)
  else if is_field field "v" then
    let* (x, bts) := wrap ["Value"] (ReadBytes bts v) in Ok (mkLogEntry sq t ba o k n x d ttl, bts)
  else if is_field field "d" then
    let* (x, bts) := wrap ["Delta"] (ReadFloat64 bts) in Ok (mkLogEntry sq t ba o k n v x ttl, bts)
  else if is_field field "ttl" then
    let* (x, bts) := wrap ["TTL"] (ReadInt64 bts) in Ok (mkLogEntry sq t ba o k n v d x, bts)
  else skip_field [] z bts.

Definition LogEntry_UnmarshalMsg (z : LogEntry) (bts : bytes) : result (LogEntry * bytes) :=
  decode_map [] LogEntry_field z bts.
End logentry.

Definition LogEntry_Msgsize `{Wire} (z : LogEntry) : Z :=
  1 + 2 + Uint64Size + 2 + Timestamp_Msgsize + 3 + Int64Size + 2 + MsgType_Msgsize
  + 2 + StringPrefixSize + strlen (Key z) + 2 + StringPrefixSize + strlen (NodeID z)
  + 2 + BytesPrefixSize + zlen (contents (Value z)) + 2 + Float64Size + 4 + Int64Size.

(** ** Handshake (src/transport_gen.go) *)

(** The fields of a handshake, read into the fields of [z]; [pre] is the error
    context of the enclosing value. *)
Definition Handshake_field {S} `{Source S} (pre : list string)
    (field : bytes) (z : Handshake) (s : S) : result (Handshake * S) :=
  if is_field field "ls" then
    let* (v, s) := wrap (pre ++ ["LastSeenSeq"]) (ReadUint64 s) in
    Ok (mkHandshake v (AuthToken z), s)
  else if is_field field "at" then
    let* (v, s) := wrap (pre ++ ["AuthToken"]) (ReadString s) in
    Ok (mkHandshake (LastSeenSeq z) v, s)
  else skip_field pre z s.

Definition Handshake_DecodeMsg {S} `{Source S} (z : Handshake) (s : S) : result (Handshake * S) :=
  decode_map [] (Handshake_field []) z s.
Definition Handshake_UnmarshalMsg `{Source bytes} (z : Handshake) (bts : bytes)
    : result (Handshake * bytes) := Handshake_DecodeMsg z bts.

Definition Handshake_encode {T} `{Sink T} (pre : list string) (z : Handshake) (en : T) : result T :=
  let '(zb0001Len, zb0001Mask) := omit (str_empty (AuthToken z)) 2 (2, 0) in
  let* en := Append en [byte_of_Z (Z.lor 128 zb0001Len)] in
  if zb0001Len =? 0 then Ok en else
    let* en := Append en [xa2; x6c; x73] in
    let* en := wrap (pre ++ ["LastSeenSeq"]) (WriteUint64 en (LastSeenSeq z)) in
    if not_omitted zb0001Mask 2 then
      let* en := Append en [xa2; x61; x74] in
      wrap (pre ++ ["AuthToken"]) (WriteString en (AuthToken z))
    else Ok en.

Definition Handshake_EncodeMsg {T} `{Sink T} (z : Handshake) (en : T) : result T :=
  Handshake_encode [] z en.
Definition Handshake_MarshalMsg `{Wire} (z : Handshake) (b : bytes) : result bytes :=
  Handshake_EncodeMsg z b.
Definition Handshake_Msgsize `{Wire} (z : Handshake) : Z :=
  1 + 3 + Uint64Size + 3 + StringPrefixSize + strlen (AuthToken z).

(** ** Batch (src/transport_gen.go) *)

Section batch.
Context {S : Type} `{Source S} {T : Type} `{Sink T}.

(** [for za0001 := range z.Entries { z.Entries[za0001], err = ReadBytes(z.Entries[za0001]) }];
    [old] holds the slices the array had before, reused as scratch space. *)
Fixpoint read_entries (n i : nat) (old : list (option bytes)) (s : S)
    : result (list (option bytes) * S) :=
  match n with
  | O => Ok ([], s)
  | Datatypes.S n =>
      let* (v, s) := wrap ["Entries"; pretty (N.of_nat i)]
                       (ReadBytes s (default None (old !! i))) in
      let* (vs, s) := read_entries n (Datatypes.S i) old s in
      Ok (v :: vs, s)
  end.

(** [wrapNil] is the error wrapping of a failed [ReadNil]. *)
Definition Batch_field (wrapNil : result S -> result S)
    (field : bytes) (z : Batch) (s : S) : result (Batch * S) :=
  if is_field field "f" then
    let* (v, s) := wrap ["FromNode"] (ReadString s) in
    Ok (mkBatch v (Entries z) (b_Handshake z), s)
  else if is_field field "e" then
    let* (n, s) := wrap ["Entries"] (ReadArrayHeader s) in
    let* (vs, s) := read_entries (Z.to_nat n) 0 (Entries z) s in
    Ok (mkBatch (FromNode z) vs (b_Handshake z), s)
  else if is_field field "h" then
    if IsNil s then
      let* s := wrapNil (ReadNil s) in
      Ok (mkBatch (FromNode z) (Entries z) None, s)
    else
      let h := default zero_Handshake (b_Handshake z) in
      let* (h, s) := decode_map ["Handshake"] (Handshake_field ["Handshake"]) h s in
      Ok (mkBatch (FromNode z) (Entries z) (Some h), s)
  else skip_field [] z s.

Definition Batch_decode (wrapNil : result S -> result S) (z : Batch) (s : S)
    : result (Batch * S) := decode_map [] (Batch_field wrapNil) z s.

Fixpoint write_entries (i : nat) (es : list (option bytes)) (en : T) : result T :=
  match es with
  | [] => Ok en
  | e :: es =>
      let* en := wrap ["Entries"; pretty (N.of_nat i)] (WriteBytes en (contents e)) in
      write_entries (Datatypes.S i) es en
  end.

Definition Batch_EncodeMsg (z : Batch) (en : T) : result T :=
  let '(zb0001Len, zb0001Mask) := omit (is_nil (b_Handshake z)) 4 (3, 0) in
  let* en := Append en [byte_of_Z (Z.lor 128 zb0001Len)] in
  if zb0001Len =? 0 then Ok en else
    let* en := Append en [xa1; x66] in
    let* en := wrap ["FromNode"] (WriteString en (FromNode z)) in
    let* en := Append en [xa1; x65] in
    let* en := wrap ["Entries"] (WriteArrayHeader en (uint32 (zlen (Entries z)))) in
    let* en := write_entries 0 (Entries z) en in
    if not_omitted zb0001Mask 4 then
      let* en := Append en [xa1; x68] in
      match b_Handshake z with
      | None => WriteNil en
      | Some h => Handshake_encode ["Handshake"] h en
      end
    else Ok en.
End batch.

Definition Batch_DecodeMsg {S} `{Source S} (z : Batch) (s : S) : result (Batch * S) :=
  Batch_decode (wrap ["Handshake"]) z s.
Definition Batch_UnmarshalMsg `{Source bytes} (z : Batch) (bts : bytes) : result (Batch * bytes) :=
  Batch_decode (fun r => r) z bts.
Definition Batch_MarshalMsg `{Wire} (z : Batch) (b : bytes) : result bytes :=
  Batch_EncodeMsg z b.

Definition Batch_Msgsize `{Wire} (z : Batch) : Z :=
  1 + 2 + StringPrefixSize + strlen (FromNode z) + 2 + ArrayHeaderSize
  + foldr (fun e s => BytesPrefixSize + zlen (contents e) + s) 0 (Entries z)
  + 2 + match b_Handshake z with
        | None => NilSize
        | Some h => 1 + 3 + Uint64Size + 3 + StringPrefixSize + strlen (AuthToken h)
        end.

(** ** Message (src/types_gen.go) *)

Section message.
Context {O S : Type} `{Source S} {T : Type} `{Sink T}.

Definition Message_field (field : bytes) (z : Message O) (s : S) : result (Message O * S) :=
  let '(mkMessage t k v vo d ttl ts n) := z in
  if is_field field "t" then
    let* (x, s) := wrap ["Type"] (ReadByte s) in Ok (mkMessage x k v vo d ttl ts n, s)
  else if is_field field "k" then
    let* (x, s) := wrap ["Key"] (ReadString s) in Ok (mkMessage t x v vo d ttl ts n, s)
  else if is_field field "v" then
    let* (x, s) := wrap ["Value"] (ReadBytes s v) in Ok (mkMessage t k x vo d ttl ts n, s)
  else if is_field field "d" then
    let* (x, s) := wrap ["Delta"] (ReadFloat64 s) in Ok (mkMessage t k v vo x ttl ts n, s)
  else if is_field field "ttl" then
    let* (x, s) := wrap ["TTL"] (ReadInt64 s) in Ok (mkMessage t k v vo d x ts n, s)
  else if is_field field "ts" then
    let* (x, s) := wrap ["Timestamp"] (ReadInt64 s) in Ok (mkMessage t k v vo d ttl x n, s)
  else if is_field field "n" then
    let* (x, s) := wrap ["NodeID"] (ReadString s) in Ok (mkMessage t k v vo d ttl ts x, s)
  else skip_field [] z s.

Definition Message_DecodeMsg (z : Message O) (s : S) : result (Message O * S) :=
  decode_map [] Message_field z s.

Definition Message_mask (z : Message O) : Z * Z :=
  let lm := (7, 0) in
  let lm := omit (is_nil (m_Value z)) 4 lm in
  let lm := omit (fis0 (m_Delta z)) 8 lm in
  omit (m_TTL z =? 0) 16 lm.

Definition Message_EncodeMsg (z : Message O) (en : T) : result T :=
  let '(zb0001Len, zb0001Mask) := Message_mask z in
  let* en := Append en [byte_of_Z (Z.lor 128 zb0001Len)] in
  if zb0001Len =? 0 then Ok en else
    let* en := Append en [xa1; x74] in
    let* en := wrap ["Type"] (WriteByte en (m_Type z)) in
    let* en := Append en [xa1; x6b] in
    let* en := wrap ["Key"] (WriteString en (m_Key z)) in
    let* en := if not_omitted zb0001Mask 4 then
        let* en := Append en [xa1; x76] in
        wrap ["Value"] (WriteBytes en (contents (m_Value z))) else Ok en in
    let* en := if not_omitted zb0001Mask 8 then
        let* en := Append en [xa1; x64] in
        wrap ["Delta"] (WriteFloat64 en (m_Delta z)) else Ok en in
    let* en := if not_omitted zb0001Mask 16 then
        let* en := Append en [xa3; x74; x74; x6c] in
        wrap ["TTL"] (WriteInt64 en (m_TTL z)) else Ok en in
    let* en := Append en [xa2; x74; x73] in
    let* en := wrap ["Timestamp"] (WriteInt64 en (m_Timestamp z)) in
    let* en := Append en [xa1; x6e] in
    wrap ["NodeID"] (WriteString en (m_NodeID z)).
End message.

Definition Message_UnmarshalMsg {O} `{Source bytes} (z : Message O) (bts : bytes)
    : result (Message O * bytes) := Message_DecodeMsg z bts.
Definition Message_MarshalMsg {O} `{Wire} (z : Message O) (b : bytes) : result bytes :=
  Message_EncodeMsg z b.
Definition Message_Msgsize {O} `{Wire} (z : Message O) : Z :=
  1 + 2 + ByteSize + 2 + StringPrefixSize + strlen (m_Key z) + 2 + BytesPrefixSize
  + zlen (contents (m_Value z)) + 2 + Float64Size + 4 + Int64Size + 3 + Int64Size
  + 2 + StringPrefixSize + strlen (m_NodeID z).
