(* ===== verification/CodecProofs.v ===== *)
(** * Round trips and sizes of the generated codecs

    An encoded struct is a map header followed by its fields.  [fld] describes
    one field: its key, the bytes of its value, and what decoding it does to
    the struct being filled; [decode_map_ok] runs the generated loop over any
    list of fields once and for all. *)

From S2P Require Import Prelude Float64 Hlc Types Msgp Codec.
From stdpp Require Import pretty.
From Stdlib Require Import Strings.Byte.

#[local] Open Scope Z_scope.

Record fld (A : Type) := mkFld { f_key : string; f_body : bytes; f_upd : A -> A -> Prop }.
Arguments mkFld {A}.
Arguments f_key {A}. Arguments f_body {A}. Arguments f_upd {A}.

Definition enc_fld {A} (f : fld A) : bytes := fix_key (f_key f) ++ f_body f.
Definition enc_flds {A} (fs : list (fld A)) : bytes := concat (enc_fld <$> fs).

(** The effect of decoding a list of fields, in order. *)
Fixpoint upds {A} (fs : list (fld A)) (z z' : A) : Prop :=
  match fs with
  | [] => z' = z
  | f :: fs => exists z1, f_upd f z z1 /\ upds fs z1 z'
  end.

(** A struct on the wire. *)
Definition enc_struct {A} (fs : list (fld A)) : bytes := fix_map_header (zlen fs) ++ enc_flds fs.

(** [opt c f] is the field [f] unless it is omitted. *)
Definition opt {A} (omitted : bool) (f : fld A) : list (fld A) := if omitted then [] else [f].

Section loop.
Context {W : Wire} {S : Type} {HS : Source S} {SL : SourceLaws S} {A : Type}.
Variable ctx : list string.
Variable step : bytes -> A -> S -> result (A * S).

Definition fld_ok (f : fld A) : Prop :=
  strlen (f_key f) <= 31 /\
  forall z s rest, view s = f_body f ++ rest ->
    exists z' s', step (bytes_of_string (f_key f)) z s = Ok (z', s') /\
                  f_upd f z z' /\ view s' = rest.

Lemma decode_fields_ok fs z s rest :
  Forall fld_ok fs -> view s = enc_flds fs ++ rest ->
  exists z' s', decode_fields ctx step (length fs) z s = Ok (z', s') /\
                upds fs z z' /\ view s' = rest.
Proof.
  intros Hok. revert z s. induction Hok as [|f fs [Hk Hf] _ IH]; intros z s Hv; simpl in *.
  { eauto. }
  unfold enc_flds in Hv. simpl in Hv. unfold enc_fld in Hv at 1.
  rewrite <- !app_assoc in Hv.
  destruct (read_map_key s (f_key f) _ Hk Hv) as (s1 & -> & Hv1). simpl.
  destruct (Hf z s1 _ Hv1) as (z2 & s2 & -> & Hu & Hv2). simpl.
  destruct (IH z2 s2 Hv2) as (z3 & s3 & -> & Hus & Hv3). eauto 10.
Qed.

Lemma decode_map_ok fs z s rest :
  Forall fld_ok fs -> zlen fs <= 15 -> view s = enc_struct fs ++ rest ->
  IsNil s = false /\
  exists z' s', decode_map ctx step z s = Ok (z', s') /\ upds fs z z' /\ view s' = rest.
Proof.
  intros Hok Hlen Hv. unfold enc_struct in Hv. rewrite <- app_assoc in Hv.
  destruct (read_map_header s (zlen fs) _ ltac:(unfold zlen in *; lia) Hv)
    as (Hnil & s1 & Hr & Hv1). split; [done|].
  unfold decode_map. rewrite Hr. simpl. unfold zlen. rewrite Nat2Z.id.
  by apply decode_fields_ok.
Qed.
End loop.

Lemma enc_flds_app {A} (fs gs : list (fld A)) : enc_flds (fs ++ gs) = enc_flds fs ++ enc_flds gs.
Proof. unfold enc_flds. by rewrite fmap_app, concat_app. Qed.

Lemma enc_flds_cons {A} (f : fld A) gs : enc_flds (f :: gs) = enc_fld f ++ enc_flds gs.
Proof. done. Qed.

Lemma enc_flds_opt {A} c (f : fld A) : enc_flds (opt c f) = if c then [] else enc_fld f.
Proof. destruct c; unfold enc_flds; simpl; by rewrite ?app_nil_r. Qed.

(** Selects the case of a generated [switch] on a literal key. *)
Ltac is_field_compute :=
  repeat match goal with
  | |- context [is_field (bytes_of_string ?a) ?b] =>
      let v := eval vm_compute in (is_field (bytes_of_string a) b) in
      change (is_field (bytes_of_string a) b) with v; cbv iota
  end.

(** Evaluates the omitted-field mask once the omitted fields are known. *)
Ltac mask_compute :=
  repeat match goal with
  | |- context [omit ?a ?b ?c] =>
      let v := eval vm_compute in (omit a b c) in change (omit a b c) with v
  end; cbv beta iota zeta;
  repeat match goal with
  | |- context [not_omitted ?a ?b] =>
      let v := eval vm_compute in (not_omitted a b) in change (not_omitted a b) with v
  end; cbv iota.

(** Both sides as right-nested appends. *)
Ltac enc_done :=
  cbn; rewrite ?app_nil_r; repeat (progress (cbn [app]; rewrite <- ?app_assoc)); reflexivity.

(** ** Timestamp *)

Definition Timestamp_flds `{Wire} (t : Timestamp) : list (fld Timestamp) :=
  [mkFld "p" (enc_int64 (Physical t)) (fun z z' => z' = mkTimestamp (Physical t) (Logical z));
   mkFld "l" (enc_int32 (Logical t)) (fun z z' => z' = mkTimestamp (Physical z) (Logical t))].

Lemma Timestamp_enc `{Wire} t b :
  Timestamp_MarshalMsg t b = Ok (b ++ enc_struct (Timestamp_flds t)).
Proof.
  unfold Timestamp_MarshalMsg, Timestamp_EncodeMsg. cbn. rewrite <- !app_assoc. by rewrite app_nil_r.
Qed.

Lemma Timestamp_dec {W : Wire} {S} {HS : Source S} {SL : SourceLaws S} t z s rest :
  is_int64 (Physical t) -> is_int32 (Logical t) ->
  view s = enc_struct (Timestamp_flds t) ++ rest ->
  exists s', Timestamp_DecodeMsg z s = Ok (t, s') /\ view s' = rest.
Proof.
  intros Hp Hl Hv.
  destruct (decode_map_ok [] Timestamp_field (Timestamp_flds t) z s rest) as (_ & z' & s' & Hd & Hu & Hr).
  - repeat constructor; simpl; try done; intros z0 s0 r0 Hv0; unfold Timestamp_field; is_field_compute.
    + destruct (read_int64 s0 _ _ Hp Hv0) as (s1 & -> & ?). simpl. eauto.
    + destruct (read_int32 s0 _ _ Hl Hv0) as (s1 & -> & ?). simpl. eauto.
  - done.
  - done.
  - exists s'. split; [|done]. unfold Timestamp_DecodeMsg. rewrite Hd.
    destruct Hu as (z1 & -> & z2 & -> & ->). simpl. by destruct t.
Qed.

(** ** LogEntry *)

Definition LogEntry_flds `{Wire} (e : LogEntry) : list (fld LogEntry) :=
  [mkFld "s" (enc_uint64 (Seq e)) (fun '(mkLogEntry _ t ba o k n v d ttl) z' =>
     z' = mkLogEntry (Seq e) t ba o k n v d ttl);
   mkFld "t" (enc_struct (Timestamp_flds (TS e))) (fun '(mkLogEntry sq _ ba o k n v d ttl) z' =>
     z' = mkLogEntry sq (TS e) ba o k n v d ttl);
   mkFld "ba" (enc_int64 (BornAt e)) (fun '(mkLogEntry sq t _ o k n v d ttl) z' =>
     z' = mkLogEntry sq t (BornAt e) o k n v d ttl);
   mkFld "o" (enc_byte (Op e)) (fun '(mkLogEntry sq t ba _ k n v d ttl) z' =>
     z' = mkLogEntry sq t ba (Op e) k n v d ttl);
   mkFld "k" (enc_string (Key e)) (fun '(mkLogEntry sq t ba o _ n v d ttl) z' =>
     z' = mkLogEntry sq t ba o (Key e) n v d ttl)]
  ++ opt (str_empty (NodeID e))
   (mkFld "n" (enc_string (NodeID e)) (fun '(mkLogEntry sq t ba o k _ v d ttl) z' =>
     z' = mkLogEntry sq t ba o k (NodeID e) v d ttl))
  ++ opt (is_nil (Value e))
   (mkFld "v" (enc_bytes (contents (Value e))) (fun '(mkLogEntry sq t ba o k n _ d ttl) z' =>
     exists v, contents v = contents (Value e) /\ z' = mkLogEntry sq t ba o k n v d ttl))
  ++ opt (fis0 (Delta e))
   (mkFld "d" (enc_float64 (Delta e)) (fun '(mkLogEntry sq t ba o k n v _ ttl) z' =>
     z' = mkLogEntry sq t ba o k n v (Delta e) ttl))
  ++ opt (TTL e =? 0)
   (mkFld "ttl" (enc_int64 (TTL e)) (fun '(mkLogEntry sq t ba o k n v d _) z' =>
     z' = mkLogEntry sq t ba o k n v d (TTL e))).

Lemma LogEntry_enc `{Wire} e b :
  LogEntry_MarshalMsg e b = Ok (b ++ enc_struct (LogEntry_flds e)).
Proof.
  unfold LogEntry_MarshalMsg, LogEntry_mask, LogEntry_flds.
  destruct (str_empty (NodeID e)), (is_nil (Value e)), (fis0 (Delta e)), (TTL e =? 0);
  mask_compute; cbn -[Timestamp_MarshalMsg enc_struct];
  rewrite Timestamp_enc; enc_done.
Qed.

Section logentry.
Context {W : Wire} {SB : Source bytes} {SS : SliceSource}.

Lemma LogEntry_flds_ok e : LogEntry_ok e -> Forall (fld_ok LogEntry_field) (LogEntry_flds e).
Proof.
  intros []. unfold LogEntry_flds, opt.
  repeat (apply Forall_app; split); case_ifs; repeat constructor; simpl; try done;
  intros [sq t ba o k n v d ttl] s0 r0 Hv0; unfold LogEntry_field; is_field_compute.
  - destruct (read_uint64 s0 _ _ ok_Seq Hv0) as (s1 & -> & ?). simpl. eauto.
  - destruct (Timestamp_dec (TS e) t s0 _ ok_Physical ok_Logical Hv0) as (s1 & Hd & ?).
    unfold Timestamp_UnmarshalMsg. rewrite Hd. simpl. eauto.
  - destruct (read_int64 s0 _ _ ok_BornAt Hv0) as (s1 & -> & ?). simpl. eauto.
  - unfold MsgType_UnmarshalMsg, MsgType_DecodeMsg.
    destruct (read_byte s0 _ _ ok_Op Hv0) as (s1 & -> & ?). simpl. eauto.
  - destruct (read_string s0 _ _ ok_Key Hv0) as (s1 & -> & ?). simpl. eauto.
  - destruct (read_string s0 _ _ ok_NodeID Hv0) as (s1 & -> & ?). simpl. eauto.
  - destruct (read_bytes s0 _ v _ ok_Value Hv0) as (v' & s1 & -> & ? & ?). simpl. eauto 10.
  - destruct (read_float64 s0 _ _ ok_Delta Hv0) as (s1 & -> & ?). simpl. eauto.
  - destruct (read_int64 s0 _ _ ok_TTL Hv0) as (s1 & -> & ?). simpl. eauto.
Qed.

Lemma LogEntry_flds_short e : zlen (LogEntry_flds e) <= 15.
Proof.
  unfold LogEntry_flds, opt, zlen.
  destruct (str_empty (NodeID e)), (is_nil (Value e)), (fis0 (Delta e)), (TTL e =? 0);
  simpl; lia.
Qed.

Lemma LogEntry_upds e z' : upds (LogEntry_flds e) zero_LogEntry z' -> LogEntry_equiv z' e.
Proof.
  unfold LogEntry_flds, opt, str_empty, zero_LogEntry.
  destruct (bool_decide_reflect (NodeID e = EmptyString)) as [En|En];
  destruct (Value e) as [v|] eqn:Ev; destruct (fis0 (Delta e)) eqn:Ed;
  destruct (TTL e =? 0) eqn:Et; simpl; intros Hu;
  repeat match goal with
  | H : exists _, _ |- _ => destruct H as (? & ?)
  | H : _ /\ _ |- _ => destruct H as [? ?]
  | H : _ = mkLogEntry _ _ _ _ _ _ _ _ _ |- _ => subst
  end;
  constructor; simpl; unfold drop_zero_sign; rewrite ?Ev, ?Ed; simpl; try done; try congruence; try lia.
Qed.
End logentry.

(** ** Handshake *)

Definition Handshake_ok (h : Handshake) : Prop :=
  is_uint64 (LastSeenSeq h) /\ is_uint32 (strlen (AuthToken h)).

Definition Handshake_flds `{Wire} (h : Handshake) : list (fld Handshake) :=
  [mkFld "ls" (enc_uint64 (LastSeenSeq h)) (fun z z' => z' = mkHandshake (LastSeenSeq h) (AuthToken z))]
  ++ opt (str_empty (AuthToken h))
  (mkFld "at" (enc_string (AuthToken h)) (fun z z' => z' = mkHandshake (LastSeenSeq z) (AuthToken h))).

Lemma Handshake_enc `{Wire} pre h b :
  Handshake_encode pre h b = Ok (b ++ enc_struct (Handshake_flds h)).
Proof.
  unfold Handshake_encode, Handshake_flds.
  destruct (str_empty (AuthToken h)); mask_compute; enc_done.
Qed.

Lemma Handshake_dec {W : Wire} {S} {HS : Source S} {SL : SourceLaws S} ctx pre h z s rest :
  Handshake_ok h -> view s = enc_struct (Handshake_flds h) ++ rest ->
  IsNil s = false /\
  exists z' s', decode_map ctx (Handshake_field pre) z s = Ok (z', s') /\
                (z = zero_Handshake -> z' = h) /\ view s' = rest.
Proof.
  intros [Hls Hat] Hv.
  destruct (decode_map_ok ctx (Handshake_field pre) (Handshake_flds h) z s rest)
    as (Hn & z' & s' & Hd & Hu & Hr); [| |done|].
  - unfold Handshake_flds, opt. apply Forall_app; split; case_ifs; repeat constructor; simpl; try done;
    intros z0 s0 r0 Hv0; unfold Handshake_field; is_field_compute.
    + destruct (read_uint64 s0 _ _ Hls Hv0) as (s1 & -> & ?). simpl. eauto.
    + destruct (read_string s0 _ _ Hat Hv0) as (s1 & -> & ?). simpl. eauto.
  - unfold Handshake_flds, opt, zlen. case_ifs; simpl; lia.
  - split; [done|]. exists z', s'. split_and!; [done| |done]. intros ->.
    unfold Handshake_flds, opt, str_empty in Hu.
    destruct (bool_decide_reflect (AuthToken h = EmptyString)) as [E|E]; simpl in Hu.
    + destruct Hu as (z1 & -> & ->). destruct h; simpl in *. by subst.
    + destruct Hu as (z1 & -> & z2 & -> & ->). by destruct h.
Qed.

(** ** Batch *)

Record Batch_ok (b : Batch) : Prop := {
  bok_FromNode : is_uint32 (strlen (FromNode b));
  bok_count : is_uint32 (zlen (Entries b));
  bok_Entries : Forall (fun e => is_uint32 (zlen (contents e))) (Entries b);
  bok_Handshake h : b_Handshake b = Some h -> Handshake_ok h
}.

(** [Batch] up to nil or empty entries. *)
Record Batch_equiv (a b : Batch) : Prop := {
  beqv_FromNode : FromNode a = FromNode b;
  beqv_Entries : contents <$> Entries a = contents <$> Entries b;
  beqv_Handshake : b_Handshake a = b_Handshake b
}.

Definition enc_entries `{Wire} (es : list (option bytes)) : bytes :=
  enc_array_header (zlen es) ++ concat ((fun e => enc_bytes (contents e)) <$> es).

Definition Batch_flds `{Wire} (b : Batch) : list (fld Batch) :=
  [mkFld "f" (enc_string (FromNode b)) (fun z z' => z' = mkBatch (FromNode b) (Entries z) (b_Handshake z));
   mkFld "e" (enc_entries (Entries b)) (fun z z' => exists vs, contents <$> vs = contents <$> Entries b /\
      z' = mkBatch (FromNode z) vs (b_Handshake z))]
  ++ match b_Handshake b with
     | None => []
     | Some h => [mkFld "h" (enc_struct (Handshake_flds h)) (fun z z' =>
         b_Handshake z = None -> z' = mkBatch (FromNode z) (Entries z) (Some h))]
     end.

Lemma write_entries_enc `{Wire} i es b :
  write_entries i es b = Ok (b ++ concat ((fun e => enc_bytes (contents e)) <$> es)).
Proof.
  revert i b. induction es as [|e es IH]; intros i b; simpl; [by rewrite app_nil_r|].
  by rewrite IH, <- app_assoc.
Qed.

Lemma Batch_enc `{Wire} z b :
  is_uint32 (zlen (Entries z)) ->
  Batch_MarshalMsg z b = Ok (b ++ enc_struct (Batch_flds z)).
Proof.
  intros Hc. unfold Batch_MarshalMsg, Batch_EncodeMsg, Batch_flds.
  rewrite (uint32_id _ Hc).
  destruct (b_Handshake z) as [h|] eqn:Eh; simpl is_nil; mask_compute;
  cbn -[write_entries Handshake_encode enc_struct]; rewrite write_entries_enc; cbn -[Handshake_encode enc_struct].
  - rewrite Handshake_enc. unfold enc_entries. enc_done.
  - unfold enc_entries. enc_done.
Qed.

Section batch.
Context {W : Wire} {S : Type} {HS : Source S} {SL : SourceLaws S}.

Lemma read_entries_ok es i old s rest :
  Forall (fun e => is_uint32 (zlen (contents e))) es ->
  view s = concat ((fun e => enc_bytes (contents e)) <$> es) ++ rest ->
  exists vs s', read_entries (length es) i old s = Ok (vs, s') /\
                contents <$> vs = contents <$> es /\ view s' = rest.
Proof.
  intros Hok. revert i s. induction Hok as [|e es He _ IH]; intros i s Hv; simpl in *.
  { by exists [], s. }
  rewrite <- app_assoc in Hv.
  destruct (read_bytes s _ (default None (old !! i)) _ He Hv) as (v & s1 & -> & Hc & Hv1). simpl.
  destruct (IH (Datatypes.S i) s1 Hv1) as (vs & s2 & -> & Hvs & Hv2). simpl.
  exists (v :: vs), s2. split; [done|]. split; [|done]. by rewrite !fmap_cons, Hc, Hvs.
Qed.

Lemma Batch_flds_ok wrapNil b : Batch_ok b -> Forall (fld_ok (Batch_field wrapNil)) (Batch_flds b).
Proof.
  intros [Hf Hc He Hh]. unfold Batch_flds. apply Forall_app; split; [|destruct (b_Handshake b) as [h|]];
  repeat constructor; simpl; try done; intros z s rest Hv; unfold Batch_field; is_field_compute.
  - destruct (read_string s _ _ Hf Hv) as (s1 & -> & ?). simpl. eauto.
  - unfold enc_entries in Hv. rewrite <- app_assoc in Hv.
    destruct (read_array_header s _ _ Hc Hv) as (s1 & -> & Hv1). simpl.
    unfold zlen. rewrite Nat2Z.id.
    destruct (read_entries_ok _ 0 (Entries z) s1 _ He Hv1) as (vs & s2 & -> & ? & ?). simpl. eauto 10.
  - destruct (Handshake_dec ["Handshake"] ["Handshake"] h (default zero_Handshake (b_Handshake z)) s _
      (Hh h eq_refl) Hv) as (-> & z' & s' & -> & Hz & ?). simpl.
    do 2 eexists. split; [done|]. split; [|done]. intros E. rewrite E in Hz. by rewrite Hz.
Qed.

Lemma Batch_upds b z' : upds (Batch_flds b) zero_Batch z' -> Batch_equiv z' b.
Proof.
  unfold Batch_flds. destruct (b_Handshake b) as [h|] eqn:Eb; simpl.
  - intros (z1 & -> & z2 & (vs & Hvs & ->) & z3 & H3 & ->).
    rewrite H3 by done. by constructor.
  - intros (z1 & -> & z2 & (vs & Hvs & ->) & ->). by constructor.
Qed.
End batch.

(** ** Message *)

Record Message_ok {O} (m : Message O) : Prop := {
  mok_Type : is_byte (m_Type m);
  mok_Key : is_uint32 (strlen (m_Key m));
  mok_Value : is_uint32 (zlen (contents (m_Value m)));
  mok_Delta : is_float64 (m_Delta m);
  mok_TTL : is_int64 (m_TTL m);
  mok_Timestamp : is_int64 (m_Timestamp m);
  mok_NodeID : is_uint32 (strlen (m_NodeID m))
}.

(** What the wire carries of a message: everything but [ValueObj]. *)
Record Message_equiv {O} (a b : Message O) : Prop := {
  meqv_Type : m_Type a = m_Type b;
  meqv_Key : m_Key a = m_Key b;
  meqv_Value : contents (m_Value a) = contents (m_Value b);
  meqv_Delta : drop_zero_sign (m_Delta a) = drop_zero_sign (m_Delta b);
  meqv_TTL : m_TTL a = m_TTL b;
  meqv_Timestamp : m_Timestamp a = m_Timestamp b;
  meqv_NodeID : m_NodeID a = m_NodeID b
}.

Definition Message_flds `{Wire} {O} (m : Message O) : list (fld (Message O)) :=
  [mkFld "t" (enc_byte (m_Type m)) (fun '(mkMessage _ k v vo d ttl ts n) z' =>
     z' = mkMessage (m_Type m) k v vo d ttl ts n);
   mkFld "k" (enc_string (m_Key m)) (fun '(mkMessage t _ v vo d ttl ts n) z' =>
     z' = mkMessage t (m_Key m) v vo d ttl ts n)]
  ++ opt (is_nil (m_Value m))
   (mkFld "v" (enc_bytes (contents (m_Value m))) (fun '(mkMessage t k _ vo d ttl ts n) z' =>
     exists v, contents v = contents (m_Value m) /\ z' = mkMessage t k v vo d ttl ts n))
  ++ opt (fis0 (m_Delta m))
   (mkFld "d" (enc_float64 (m_Delta m)) (fun '(mkMessage t k v vo _ ttl ts n) z' =>
     z' = mkMessage t k v vo (m_Delta m) ttl ts n))
  ++ opt (m_TTL m =? 0)
   (mkFld "ttl" (enc_int64 (m_TTL m)) (fun '(mkMessage t k v vo d _ ts n) z' =>
     z' = mkMessage t k v vo d (m_TTL m) ts n))
  ++ [mkFld "ts" (enc_int64 (m_Timestamp m)) (fun '(mkMessage t k v vo d ttl _ n) z' =>
     z' = mkMessage t k v vo d ttl (m_Timestamp m) n);
   mkFld "n" (enc_string (m_NodeID m)) (fun '(mkMessage t k v vo d ttl ts _) z' =>
     z' = mkMessage t k v vo d ttl ts (m_NodeID m))].

Lemma Message_enc `{Wire} {O} (m : Message O) b :
  Message_MarshalMsg m b = Ok (b ++ enc_struct (Message_flds m)).
Proof.
  unfold Message_MarshalMsg, Message_EncodeMsg, Message_mask, Message_flds.
  destruct (is_nil (m_Value m)), (fis0 (m_Delta m)), (m_TTL m =? 0); mask_compute; enc_done.
Qed.

Section message.
Context {W : Wire} {S : Type} {HS : Source S} {SL : SourceLaws S} {O : Type}.

Lemma Message_flds_ok (m : Message O) : Message_ok m -> Forall (fld_ok (S:=S) Message_field) (Message_flds m).
Proof.
  intros []. unfold Message_flds, opt.
  repeat (apply Forall_app; split); case_ifs; repeat constructor; simpl; try done;
  intros [t k v vo d ttl ts n] s0 r0 Hv0; unfold Message_field; is_field_compute.
  - destruct (read_byte s0 _ _ mok_Type0 Hv0) as (s1 & -> & ?). simpl. eauto.
  - destruct (read_string s0 _ _ mok_Key0 Hv0) as (s1 & -> & ?). simpl. eauto.
  - destruct (read_bytes s0 _ v _ mok_Value0 Hv0) as (v' & s1 & -> & ? & ?). simpl. eauto 10.
  - destruct (read_float64 s0 _ _ mok_Delta0 Hv0) as (s1 & -> & ?). simpl. eauto.
  - destruct (read_int64 s0 _ _ mok_TTL0 Hv0) as (s1 & -> & ?). simpl. eauto.
  - destruct (read_int64 s0 _ _ mok_Timestamp0 Hv0) as (s1 & -> & ?). simpl. eauto.
  - destruct (read_string s0 _ _ mok_NodeID0 Hv0) as (s1 & -> & ?). simpl. eauto.
Qed.

Lemma Message_upds (m z' : Message O) : upds (Message_flds m) zero_Message z' -> Message_equiv z' m.
Proof.
  unfold Message_flds, opt, zero_Message.
  destruct (m_Value m) as [v|] eqn:Ev; destruct (fis0 (m_Delta m)) eqn:Ed;
  destruct (m_TTL m =? 0) eqn:Et; simpl; intros Hu;
  repeat match goal with
  | H : exists _, _ |- _ => destruct H as (? & ?)
  | H : _ /\ _ |- _ => destruct H as [? ?]
  | H : _ = mkMessage _ _ _ _ _ _ _ _ |- _ => subst
  end;
  constructor; simpl; unfold drop_zero_sign; rewrite ?Ev, ?Ed; simpl; try done; try congruence; try lia.
Qed.
End message.

(** ** Round-trip theorems *)

Lemma LogEntry_decode_enc {W : Wire} {SB : Source bytes} {SS : SliceSource} e pre rest :
  LogEntry_ok e ->
  let o := enc_struct (LogEntry_flds e) in
  exists e', LogEntry_MarshalMsg e pre = Ok (pre ++ o) /\
    LogEntry_UnmarshalMsg zero_LogEntry (o ++ rest) = Ok (e', rest) /\ LogEntry_equiv e' e.
Proof.
  intros Hok o.
  destruct (decode_map_ok [] LogEntry_field (LogEntry_flds e) zero_LogEntry
    (enc_struct (LogEntry_flds e) ++ rest) rest) as (_ & e' & s' & Hd & Hu & Hr).
  { by apply LogEntry_flds_ok. } { apply LogEntry_flds_short. } { by rewrite view_slice. }
  rewrite view_slice in Hr. subst. exists e'. split_and!.
  - apply LogEntry_enc.
  - done.
  - by apply LogEntry_upds.
Qed.

(** C30: A log entry marshalled by the generated code (appended to any prefix)
    and unmarshalled into a zero entry comes back with every field equal, up
    to the difference between a nil and an empty value and between the two
    float zeros, and the reader stops exactly at the end of the entry. *)
Theorem LogEntry_roundtrip {W : Wire} {SB : Source bytes} {SS : SliceSource} e pre rest :
  LogEntry_ok e ->
  let o := enc_struct (LogEntry_flds e) in
  exists e', LogEntry_MarshalMsg e pre = Ok (pre ++ o) /\
    LogEntry_UnmarshalMsg zero_LogEntry (o ++ rest) = Ok (e', rest) /\ LogEntry_equiv e' e.
Proof. apply LogEntry_decode_enc. Qed.

Definition sample_entry : LogEntry :=
  mkLogEntry 7 (mkTimestamp 1700000000000000000 3) 1700000000000000001 MsgIncr "views" "node-1"
    None (float64_of_Z 42) 0.

Lemma sample_entry_ok : LogEntry_ok sample_entry.
Proof.
  split; unfold is_uint64, is_int64, is_int32, is_byte, is_uint32; try (vm_compute; split; congruence).
Qed.

Lemma LogEntry_roundtrip_witness :
  let o := enc_struct (LogEntry_flds (H := Fixed.wire) sample_entry) in
  exists e', LogEntry_MarshalMsg (H := Fixed.wire) sample_entry [] = Ok ([] ++ o) /\
    LogEntry_UnmarshalMsg (H := Fixed.source) zero_LogEntry (o ++ [x2a]) = Ok (e', [x2a]) /\
    LogEntry_equiv e' sample_entry.
Proof.
  apply (LogEntry_roundtrip (SS := Fixed.slice) sample_entry [] [x2a]). apply sample_entry_ok.
Defined.

Lemma Batch_decode_enc {W : Wire} {S : Type} {HS : Source S} {SL : SourceLaws S} b o s rest :
  Batch_ok b -> Batch_MarshalMsg b [] = Ok o -> view s = o ++ rest ->
  exists b' s', Batch_DecodeMsg zero_Batch s = Ok (b', s') /\ Batch_equiv b' b /\ view s' = rest.
Proof.
  intros Hok Ho Hv. rewrite Batch_enc in Ho by apply Hok. injection Ho as <-.
  destruct (decode_map_ok [] (Batch_field (wrap ["Handshake"])) (Batch_flds b) zero_Batch s rest)
    as (_ & b' & s' & Hd & Hu & Hr); [by apply Batch_flds_ok| |done|].
  { unfold Batch_flds, zlen. destruct (b_Handshake b); simpl; lia. }
  exists b', s'. split_and!; [exact Hd|by apply Batch_upds|done].
Qed.

(** C31: A batch written by the sender ([MarshalMsg]) and read by the receiver's
    stream reader ([DecodeMsg]) comes back with the same origin, the same
    entries byte for byte and the same handshake, and the reader is left at
    the first byte after the batch. *)
Theorem Batch_roundtrip {W : Wire} {S : Type} {HS : Source S} {SL : SourceLaws S} b o s rest :
  Batch_ok b -> Batch_MarshalMsg b [] = Ok o -> view s = o ++ rest ->
  exists b' s', Batch_DecodeMsg zero_Batch s = Ok (b', s') /\ Batch_equiv b' b /\ view s' = rest.
Proof. apply Batch_decode_enc. Qed.

Definition sample_batch : Batch :=
  mkBatch "node-1" [Some [x01; x02]; Some []; None] (Some (mkHandshake 9 "secret")).

Lemma Batch_roundtrip_witness :
  exists b' s', Batch_DecodeMsg (S := bytes) (H := Fixed.source) zero_Batch
      (match Batch_MarshalMsg (H := Fixed.wire) sample_batch [] with Ok o => o | Err _ => [] end ++ [x2a])
    = Ok (b', s') /\ Batch_equiv b' sample_batch /\ s' = [x2a].
Proof.
  eapply (Batch_roundtrip (SL := Fixed.source_laws) sample_batch).
  - split; unfold is_uint32.
    + vm_compute; split; congruence.
    + vm_compute; split; congruence.
    + repeat constructor; vm_compute; congruence.
    + intros h [= <-]. split; unfold is_uint64, is_uint32; vm_compute; split; congruence.
  - reflexivity.
  - reflexivity.
Defined.

(** C32: The generated codec of gossip messages carries every serialized field:
    what [MarshalMsg] appends, [UnmarshalMsg] reads back with the same type,
    key, value bytes, delta, TTL, timestamp and node. *)
Theorem Message_roundtrip {W : Wire} {SB : Source bytes} {SS : SliceSource} {O} (m : Message O) pre rest :
  Message_ok m ->
  exists o m', Message_MarshalMsg m pre = Ok (pre ++ o) /\
    Message_UnmarshalMsg zero_Message (o ++ rest) = Ok (m', rest) /\ Message_equiv m' m.
Proof.
  intros Hok. exists (enc_struct (Message_flds m)).
  destruct (decode_map_ok [] Message_field (Message_flds m) zero_Message
    (enc_struct (Message_flds m) ++ rest) rest) as (_ & m' & s' & Hd & Hu & Hr).
  { by apply Message_flds_ok. }
  { unfold Message_flds, opt, zlen. case_ifs; simpl; lia. }
  { by rewrite view_slice. }
  rewrite view_slice in Hr. subst. exists m'. split_and!; [apply Message_enc|done|by apply Message_upds].
Qed.

Lemma Message_roundtrip_witness :
  let m := mkMessage (O := unit) MsgDelete "k" (Some [x00]) ANil (float64_of_Z (-3)) 0 5 "n" in
  exists o m', Message_MarshalMsg (H := Fixed.wire) m [] = Ok ([] ++ o) /\
    Message_UnmarshalMsg (H := Fixed.source) zero_Message (o ++ []) = Ok (m', []) /\ Message_equiv m' m.
Proof.
  intros m. apply (Message_roundtrip (SS := Fixed.slice) m [] []).
  split; unfold is_byte, is_int64, is_uint32; try (vm_compute; split; congruence).
Defined.

(** ** Sizes *)

(** Succeeds on integer literals. *)
Ltac is_ground_Z v :=
  lazymatch v with Z0 => idtac | Zpos _ => idtac | Zneg _ => idtac end.


Definition fld_size {A} (f : fld A) : Z := zlen (enc_fld f).

Lemma zlen_app {A} (a b : list A) : zlen (a ++ b) = zlen a + zlen b.
Proof. unfold zlen. rewrite length_app. lia. Qed.

Lemma zlen_fix_key k : zlen (fix_key k) = 1 + strlen k.
Proof. unfold zlen, fix_key, strlen. rewrite length_cons. lia. Qed.

Lemma zlen_enc_fld {A} (f : fld A) : zlen (enc_fld f) = 1 + strlen (f_key f) + zlen (f_body f).
Proof. unfold enc_fld. by rewrite zlen_app, zlen_fix_key. Qed.

Lemma zlen_opt {A} c (f : fld A) n : zlen (enc_fld f) <= n -> zlen (enc_flds (opt c f)) <= n.
Proof.
  intros H. rewrite enc_flds_opt. destruct c; [|done].
  transitivity (zlen (enc_fld f)); [unfold zlen; simpl; lia|done].
Qed.

Lemma Timestamp_size `{WireLaws} t : zlen (enc_struct (Timestamp_flds t)) <= Timestamp_Msgsize.
Proof.
  unfold enc_struct, Timestamp_flds, Timestamp_Msgsize.
  rewrite zlen_app, !enc_flds_cons, !zlen_app, !zlen_enc_fld. cbn [f_key f_body].
  pose proof (size_int64 (Physical t)). pose proof (size_int32 (Logical t)).
  change (strlen "p") with 1. change (strlen "l") with 1. unfold zlen in *. simpl length in *. lia.
Qed.

Lemma LogEntry_size `{WireLaws} e : zlen (enc_struct (LogEntry_flds e)) <= LogEntry_Msgsize e.
Proof.
  unfold enc_struct, LogEntry_flds, LogEntry_Msgsize.
  rewrite zlen_app, !enc_flds_app, !zlen_app, !enc_flds_cons, !zlen_app, !zlen_enc_fld.
  cbn [f_key f_body].
  pose proof (size_uint64 (Seq e)). pose proof (Timestamp_size (TS e)).
  pose proof (size_int64 (BornAt e)). pose proof (size_byte (Op e)). pose proof (size_string (Key e)).
  pose proof (size_string (NodeID e)). pose proof (size_bytes (contents (Value e))).
  pose proof (size_float64 (Delta e)). pose proof (size_int64 (TTL e)).
  repeat match goal with
  | |- context [zlen (enc_flds (opt ?c ?f))] =>
      let H := fresh in let x := fresh "sz" in
      assert (zlen (enc_flds (opt c f)) <= zlen (enc_fld f)) as H by (by apply zlen_opt);
      rewrite zlen_enc_fld in H; cbn [f_key f_body] in H;
      set (x := zlen (enc_flds (opt c f))) in *
  end.
  repeat match goal with
  | H : context [strlen ?k] |- _ =>
      let v := eval vm_compute in (strlen k) in is_ground_Z v; change (strlen k) with v in *
  | |- context [strlen ?k] =>
      let v := eval vm_compute in (strlen k) in is_ground_Z v; change (strlen k) with v in *
  end.
  unfold MsgType_Msgsize. unfold fix_map_header.
  change (zlen [_]) with 1. change (zlen (enc_flds [])) with 0. lia.
Qed.

(** C33: [Msgsize] bounds the number of bytes [MarshalMsg] appends for a log
    entry, so an entry that passes the capacity check of the log buffer is
    written inside it. *)
Theorem LogEntry_Msgsize_bound `{WireLaws} e pre o :
  LogEntry_MarshalMsg e pre = Ok (pre ++ o) ->
  o = enc_struct (LogEntry_flds e) /\ zlen o <= LogEntry_Msgsize e.
Proof. rewrite LogEntry_enc. intros [= Ho%app_inv_head]. subst o. split; [done|apply LogEntry_size]. Qed.

Lemma LogEntry_Msgsize_bound_witness :
  zlen (enc_struct (LogEntry_flds (H := Fixed.wire) sample_entry))
  <= LogEntry_Msgsize (H := Fixed.wire) sample_entry.
Proof.
  apply (LogEntry_Msgsize_bound (H := Fixed.wire_laws) sample_entry [x00]). apply LogEntry_enc.
Defined.
