(* ===== verification/DeltaLog.v ===== *)
(** * The delta log (src/log.go)

    An index ring of [capacity] slots over a byte ring of [bufCap] bytes.  Go
    panics (integer division by zero, slice bounds) are the [Panic] outcome.
    The byte-slice aliasing of [Append] is explicit: marshalling goes into
    [l.data] when [Msgsize] fits in the remaining capacity and into a freshly
    allocated slice, leaving [l.data] alone, when it does not. *)

From S2P Require Import Prelude Float64 Hlc Types Msgp Codec CodecProofs.

#[local] Open Scope Z_scope.
#[local] Open Scope go_scope.

Record entryInfo := mkInfo { offset : Z; info_len : Z }.

Record DeltaLog := mkLog {
  index : list entryInfo;
  data : bytes;
  head : Z;
  bufHead : Z;
  capacity : Z;
  bufCap : Z
}.

Definition NewDeltaLog (cap : Z) : DeltaLog :=
  let bufSize := uint32 (256 * 1024 * 1024) in
  let bufSize := if cap <? 100000 then uint32 (uint64 (cap * 256)) else bufSize in
  mkLog (replicate (Z.to_nat cap) (mkInfo 0 0)) (replicate (Z.to_nat bufSize) Byte.x00)
    1 0 cap bufSize.

(** [d[o:o+n]] *)
Definition slice (d : bytes) (o n : Z) : bytes := take (Z.to_nat n) (drop (Z.to_nat o) d).
(** Writing [out] into [d] at [start]. *)
Definition splice (d : bytes) (start : Z) (out : bytes) : bytes :=
  take (Z.to_nat start) d ++ out ++ drop (Z.to_nat start + length out) d.

Definition marshal `{Wire} (e : LogEntry) : bytes :=
  match LogEntry_MarshalMsg e [] with Ok o => o | Err _ => [] end.

Definition log_Append `{Wire} (l : DeltaLog) (entry : LogEntry) : go (Z * DeltaLog) :=
  let entry := set_Seq entry (head l) in
  let sz := LogEntry_Msgsize entry in
  let start := if bufCap l <? uint32 (bufHead l + uint32 sz) then 0 else bufHead l in
  if bufCap l <? start then Panic (* l.data[start:start:l.bufCap] *)
  else
    let out := marshal entry in
    let data' := if sz <=? bufCap l - start then splice (data l) start out else data l in
    let actualLen := uint32 (zlen out) in
    if capacity l =? 0 then Panic (* l.head % l.capacity *)
    else
      let index' := <[Z.to_nat (head l mod capacity l) := mkInfo start actualLen]> (index l) in
      Ret (head l,
           mkLog index' data' (uint64 (head l + 1)) (uint32 (start + actualLen)) (capacity l) (bufCap l)).

(** The copy loop of [GetEntriesRaw]: [n] iterations left, at sequence [seq],
    [first] when [len(res) == 0]. *)
Fixpoint raw_loop (l : DeltaLog) (maxBytes : Z) (n : nat) (seq currentBytes : Z) (first : bool)
    : go (list bytes) :=
  match n with
  | O => Ret []
  | S n =>
      match index l !! Z.to_nat (uint64 seq mod capacity l) with
      | None => Panic
      | Some info =>
          if negb first && (maxBytes <? currentBytes + info_len info) then Ret []
          else
            let hi := uint32 (offset info + info_len info) in
            if (hi <? offset info) || (zlen (data l) <? hi) then Panic
            else
              let! rest := raw_loop l maxBytes n (seq + 1) (currentBytes + info_len info) false in
              Ret (slice (data l) (offset info) (info_len info) :: rest)
      end
  end.

Definition GetEntriesRaw (l : DeltaLog) (startSeq limit maxBytes : Z) : go (list bytes) :=
  if head l <=? startSeq then Ret []
  else
    let earliest := if capacity l <? head l then head l - capacity l else 1 in
    let startSeq := if startSeq <? earliest then earliest else startSeq in
    let count := int64 (head l - startSeq) in
    let count := if limit <? count then limit else count in
    if count <? 0 then Panic (* make with a negative capacity *)
    else if (capacity l =? 0) && (0 <? count) then Panic
    else raw_loop l maxBytes (Z.to_nat count) startSeq 0 true.

Definition log_Head (l : DeltaLog) : Z := uint64 (head l - 1).

(** ** Abstract specification

    The log as a history: the encodings of all entries ever appended, the
    entry with sequence number [s] at position [s - 1].  A reader gets the
    entries from its position on, or from the oldest retained one, cut by the
    entry limit and by the byte budget (which never withholds the first). *)

Fixpoint take_budget (maxBytes cur : Z) (first : bool) (es : list bytes) : list bytes :=
  match es with
  | [] => []
  | e :: es =>
      if negb first && (maxBytes <? cur + zlen e) then []
      else e :: take_budget maxBytes (cur + zlen e) false es
  end.

Definition earliest (hs : list bytes) (cap : Z) : Z := Z.max 1 (zlen hs + 1 - cap).

Definition spec_get (hs : list bytes) (cap startSeq limit maxBytes : Z) : list bytes :=
  take_budget maxBytes 0 true
    (take (Z.to_nat limit) (drop (Z.to_nat (Z.max startSeq (earliest hs cap) - 1)) hs)).

(** ** Writing and reading the byte ring *)

Lemma length_splice d start out :
  0 <= start -> start + zlen out <= zlen d -> length (splice d start out) = length d.
Proof.
  unfold splice, zlen. intros H1 H2.
  rewrite !length_app, length_take, length_drop. lia.
Qed.

Lemma slice_splice_same d start out :
  0 <= start -> start + zlen out <= zlen d -> slice (splice d start out) start (zlen out) = out.
Proof.
  unfold slice, splice, zlen. intros H1 H2.
  rewrite drop_app_length' by (rewrite length_take; lia).
  by rewrite Nat2Z.id, take_app_length.
Qed.

Lemma slice_splice_disjoint d start out o n :
  0 <= start -> start + zlen out <= zlen d -> 0 <= o -> 0 <= n ->
  o + n <= start \/ start + zlen out <= o ->
  slice (splice d start out) o n = slice d o n.
Proof.
  unfold slice, splice, zlen. intros H1 H2 H3 H4 Hdis. apply list_eq. intros i.
  destruct (decide (i < Z.to_nat n)%nat) as [Hi|Hi].
  - rewrite !lookup_take_lt, !lookup_drop by lia. destruct Hdis.
    + rewrite lookup_app_l by (rewrite length_take; lia). by rewrite lookup_take_lt by lia.
    + rewrite lookup_app_r by (rewrite length_take; lia). rewrite length_take.
      rewrite lookup_app_r by lia. rewrite lookup_drop. f_equal. lia.
  - rewrite !lookup_take_ge; [done|lia..].
Qed.

(** ** The regions of the live entries

    Newest first, the live entries form a contiguous block that ends at the
    write position, possibly preceded by a block left near the end of the
    buffer before the last wrap-around. *)

Abbreviation region := (Z * bytes)%type.

Definition total (rs : list region) : Z := foldr (fun r s => zlen r.2 + s) 0 rs.

Fixpoint desc (top bot : Z) (rs : list region) : Prop :=
  match rs with
  | [] => top = bot
  | (o, b) :: rs => o + zlen b = top /\ desc o bot rs
  end.

Record ring (S cap h : Z) (rs : list region) : Prop := {
  ring_h : 0 <= h <= cap;
  ring_split : exists r1 r2 a, rs = r1 ++ r2 /\ desc h a r1 /\ 0 <= a /\
    (r2 = [] \/ (a = 0 /\ exists e a2, desc e a2 r2 /\ cap - S < e <= cap))
}.

Lemma zlen_nonneg {A} (l : list A) : 0 <= zlen l.
Proof. unfold zlen. lia. Qed.

Lemma total_nonneg rs : 0 <= total rs.
Proof. induction rs as [|r rs IH]; simpl; [lia|]. pose proof (zlen_nonneg r.2). lia. Qed.

Lemma total_app r1 r2 : total (r1 ++ r2) = total r1 + total r2.
Proof. induction r1 as [|r r1 IH]; simpl; [lia|]. rewrite IH. lia. Qed.

Lemma desc_total top bot rs : desc top bot rs -> top - bot = total rs.
Proof.
  revert top. induction rs as [|[o b] rs IH]; simpl; intros top; [lia|].
  intros [<- H]. apply IH in H. lia.
Qed.

Lemma desc_in top bot rs o b : desc top bot rs -> (o, b) ∈ rs -> bot <= o /\ o + zlen b <= top.
Proof.
  revert top. induction rs as [|[o' b'] rs IH]; intros top Hd Hin; [by apply not_elem_of_nil in Hin|].
  destruct Hd as [<- Hd]. pose proof (desc_total _ _ _ Hd). pose proof (total_nonneg rs).
  pose proof (zlen_nonneg b'). apply elem_of_cons in Hin as [[= -> ->]|Hin]; [lia|].
  apply (IH o') in Hin; [lia|done].
Qed.

Lemma desc_take top bot rs n : desc top bot rs -> exists bot', desc top bot' (take n rs) /\ bot <= bot'.
Proof.
  revert top n. induction rs as [|[o b] rs IH]; intros top n Hd.
  - exists bot. rewrite take_nil. split; [done|lia].
  - destruct n as [|n]; simpl.
    + exists top. split; [done|]. pose proof (desc_total _ _ _ Hd). pose proof (total_nonneg ((o, b) :: rs)). lia.
    + destruct Hd as [<- Hd]. destruct (IH o n Hd) as (bot' & ? & ?). eauto.
Qed.

(** Dropping the oldest entries keeps the ring shape. *)
Lemma ring_take S cap h rs n : ring S cap h rs -> ring S cap h (take n rs).
Proof.
  intros [Hh (r1 & r2 & a & -> & Hd & Ha & H2)]. split; [done|].
  rewrite take_app. destruct (desc_take _ _ _ n Hd) as (a' & Hd' & ?).
  destruct (decide (n <= length r1)%nat) as [Hn|Hn].
  - exists (take n r1), [], a'. replace (n - length r1)%nat with 0%nat by lia.
    rewrite take_0. split_and!; auto. lia.
  - exists r1, (take (n - length r1) r2), a. rewrite take_ge by lia. split_and!; auto.
    destruct H2 as [->|[-> (e & a2 & Hd2 & He)]]; [left; apply take_nil|right].
    split; [done|]. destruct (desc_take _ _ _ (n - length r1) Hd2) as (a2' & ? & _). eauto.
Qed.

(** Where [Append] puts the next entry: disjoint from every live region, inside
    the buffer, and the ring keeps its shape. *)
Lemma ring_append S cap h rs sz (b : bytes) :
  ring S cap h rs -> zlen b <= sz <= S -> total rs + S <= cap - S ->
  let start := if cap <? h + sz then 0 else h in
  0 <= start /\ start + sz <= cap /\
  (forall o b', (o, b') ∈ rs -> 0 <= o /\ (o + zlen b' <= start \/ start + zlen b <= o)) /\
  ring S cap (start + zlen b) ((start, b) :: rs).
Proof.
  intros [Hh (r1 & r2 & a & -> & Hd & Ha & H2)] Hb Htot. rewrite total_app in Htot.
  pose proof (zlen_nonneg b). pose proof (desc_total _ _ _ Hd).
  pose proof (total_nonneg r1). pose proof (total_nonneg r2).
  destruct (cap <? h + sz) eqn:E; cbv zeta.
  - (* wrap-around: the older block is empty *)
    assert (r2 = []) as ->.
    { destruct H2 as [->|[-> _]]; [done|]. exfalso. lia. }
    rewrite app_nil_r. split_and!; [lia|lia| |].
    + intros o b' Hin. destruct (desc_in _ _ _ _ _ Hd Hin). lia.
    + split; [lia|]. destruct r1 as [|r r1].
      * exists [(0, b)], [], 0. simpl. split_and!; auto; lia.
      * exists [(0, b)], (r :: r1), 0. split_and!; [done|by simpl|lia|].
        right. split; [done|]. exists h, a. split; [done|lia].
  - split_and!; [lia|lia| |].
    + intros o b' [Hin|Hin]%elem_of_app; [destruct (desc_in _ _ _ _ _ Hd Hin); lia|].
      destruct H2 as [->|[-> (e & a2 & Hd2 & He)]]; [by apply not_elem_of_nil in Hin|].
      destruct (desc_in _ _ _ _ _ Hd2 Hin). pose proof (desc_total _ _ _ Hd2). lia.
    + split; [lia|]. exists ((h, b) :: r1), r2, a. split_and!; [done|by simpl|done|done].
Qed.

(** ** The log represents a history *)

Record Rep (S : Z) (l : DeltaLog) (hs : list bytes) (L : list region) : Prop := {
  rep_cap : 1 <= capacity l;
  rep_bufCap : (capacity l + 1) * S <= bufCap l <= 1073741824;
  rep_index : zlen (index l) = capacity l;
  rep_data : zlen (data l) = bufCap l;
  rep_head : head l = zlen hs + 1;
  rep_ring : ring S (bufCap l) (bufHead l) L;
  rep_live : L.*2 = take (Z.to_nat (capacity l)) (reverse hs);
  rep_small : Forall (fun r => zlen r.2 <= S) L;
  rep_slots i o b : L !! i = Some (o, b) ->
    0 <= o /\ o + zlen b <= bufCap l /\
    index l !! Z.to_nat ((zlen hs - Z.of_nat i) mod capacity l) = Some (mkInfo o (zlen b)) /\
    slice (data l) o (zlen b) = b
}.

Lemma NewDeltaLog_Rep S cap :
  1 <= cap <= 4000000 -> 0 <= S -> (cap + 1) * S <= bufCap (NewDeltaLog cap) ->
  Rep S (NewDeltaLog cap) [] [].
Proof.
  intros Hc HS Hb.
  assert (Hcap : 0 <= bufCap (NewDeltaLog cap) <= 1073741824).
  { simpl. destruct (cap <? 100000) eqn:E; [rewrite (uint64_id (cap * 256)) by (unfold is_uint64; lia)|];
    rewrite uint32_id by (unfold is_uint32; lia); lia. }
  split; try done.
  - simpl. lia.
  - simpl in *. lia.
  - unfold zlen. simpl. rewrite length_replicate. lia.
  - unfold zlen. cbn [data bufCap NewDeltaLog] in *. rewrite length_replicate. simpl in Hcap. lia.
  - split; [simpl in *; lia|]. exists [], [], 0. by split_and!; auto; simpl; lia.
  - by rewrite reverse_nil, take_nil.
Qed.

Lemma total_bound S rs : Forall (fun r : region => zlen r.2 <= S) rs -> total rs <= zlen rs * S.
Proof.
  induction 1 as [|r rs Hr _ IH]; simpl; [done|]. unfold zlen in *. simpl. lia.
Qed.

(** Two sequence numbers less than [c] apart use different slots. *)
Lemma mod_distinct a b c : 0 < a - b < c -> a mod c <> b mod c.
Proof.
  intros H E. assert ((a - b) mod c = 0) as H0.
  { rewrite Zminus_mod, E, Z.sub_diag. apply Zmod_0_l. }
  rewrite Z.mod_small in H0; lia.
Qed.

Lemma marshal_length `{WireLaws} e : zlen (marshal e) <= LogEntry_Msgsize e.
Proof.
  unfold marshal. rewrite LogEntry_enc, app_nil_l.
  pose proof (LogEntry_size e) as Hs. exact Hs.
Qed.

(** Adding a newest region and dropping the oldest keeps the live suffix. *)
Lemma live_append (hs : list bytes) (L : list region) c o b :
  (0 < c)%nat -> L.*2 = take c (reverse hs) ->
  ((o, b) :: take (c - 1) L).*2 = take c (reverse (hs ++ [b])).
Proof.
  intros Hc HL. rewrite reverse_snoc. destruct c as [|c]; [lia|].
  rewrite fmap_cons. simpl. rewrite Nat.sub_0_r. f_equal.
  rewrite fmap_take, HL, take_take. f_equal. lia.
Qed.

(** The state [Append] leaves, with the new entry written at a place disjoint
    from the entries that stay live, represents the longer history. *)
Lemma Rep_append_state S l hs L start out :
  let L' := (start, out) :: take (Z.to_nat (capacity l) - 1) L in
  Rep S l hs L -> zlen out <= S -> 0 <= start -> start + zlen out <= bufCap l ->
  (forall o b', (o, b') ∈ take (Z.to_nat (capacity l) - 1) L ->
     0 <= o /\ (o + zlen b' <= start \/ start + zlen out <= o)) ->
  ring S (bufCap l) (start + zlen out) L' ->
  Rep S (mkLog (<[Z.to_nat (head l mod capacity l) := mkInfo start (zlen out)]> (index l))
           (splice (data l) start out) (head l + 1) (start + zlen out) (capacity l) (bufCap l))
      (hs ++ [out]) L'.
Proof.
  intros L' [Hcap Hbuf Hidx Hdata Hhead Hring Hlive Hsmall Hslots] Hout Hs0 Hsb Hdis Hring'.
  assert (Hlen : zlen (hs ++ [out]) = zlen hs + 1) by (rewrite zlen_app; done).
  assert (Hmod : 0 <= head l mod capacity l < capacity l) by (apply Z.mod_pos_bound; lia).
  split; cbn [capacity bufCap index data head bufHead]; auto.
  - unfold zlen in *. by rewrite length_insert.
  - unfold zlen in *. rewrite length_splice; unfold zlen; lia.
  - lia.
  - apply live_append; [lia|done].
  - constructor; [done|]. by apply Forall_take.
  - intros i o b Hi. rewrite Hlen. destruct i as [|i].
    + injection Hi as <- <-. split_and!; [done|done| |].
      * rewrite Z.sub_0_r, <- Hhead. apply list_lookup_insert_eq. unfold zlen in *. lia.
      * apply slice_splice_same; lia.
    + simpl in Hi. pose proof (list_elem_of_lookup_2 _ _ _ Hi) as Hin.
      apply lookup_take_Some in Hi as [Hi Hic].
      destruct (Hslots i o b Hi) as (Ho & Hob & Hsl & Hsc).
      destruct (Hdis o b Hin) as [_ Hd]. split_and!; [done|done| |].
      * rewrite list_lookup_insert_ne.
        -- rewrite <- Hsl. do 3 f_equal. lia.
        -- intros E. apply Z2Nat.inj in E; [|apply Z.mod_pos_bound; lia..].
           revert E. apply mod_distinct. lia.
      * rewrite slice_splice_disjoint; [done|lia..|pose proof (zlen_nonneg b); lia|lia].
Qed.

Section refinement.
Context {W : Wire} {WL : WireLaws W}.

Lemma log_Append_unfold S l hs L e :
  Rep S l hs L -> zlen hs < 9223372036854775806 ->
  LogEntry_Msgsize (set_Seq e (head l)) <= S ->
  let sz := LogEntry_Msgsize (set_Seq e (head l)) in
  let out := marshal (set_Seq e (head l)) in
  let start := if bufCap l <? bufHead l + sz then 0 else bufHead l in
  start + sz <= bufCap l -> 0 <= start ->
  log_Append l e = Ret (head l,
    mkLog (<[Z.to_nat (head l mod capacity l) := mkInfo start (zlen out)]> (index l))
      (splice (data l) start out) (head l + 1) (start + zlen out) (capacity l) (bufCap l)).
Proof.
  intros HR Hn HS sz out start Hs H0. destruct HR.
  pose proof (marshal_length (set_Seq e (head l))) as Hm. fold sz in HS, Hm. fold out in Hm.
  pose proof (zlen_nonneg out). pose proof (zlen_nonneg hs).
  destruct rep_ring0 as [Hh _].
  assert (0 <= S <= 1073741824) by nia.
  unfold log_Append. fold sz. fold out.
  rewrite (uint32_id sz) by (unfold is_uint32; lia).
  rewrite (uint32_id (bufHead l + sz)) by (unfold is_uint32; lia). fold start.
  rewrite (proj2 (Z.ltb_ge (bufCap l) start)) by lia.
  rewrite (proj2 (Z.leb_le sz _)) by lia.
  rewrite (uint32_id (zlen out)) by (unfold is_uint32; lia).
  rewrite (proj2 (Z.eqb_neq (capacity l) 0)) by lia.
  rewrite (uint64_id (head l + 1)) by (unfold is_uint64; lia).
  rewrite (uint32_id (start + zlen out)) by (unfold is_uint32; lia). done.
Qed.

Lemma Rep_append S l hs L e :
  Rep S l hs L -> zlen hs < 9223372036854775806 ->
  LogEntry_Msgsize (set_Seq e (head l)) <= S ->
  exists l' L', log_Append l e = Ret (head l, l') /\
    Rep S l' (hs ++ [marshal (set_Seq e (head l))]) L' /\
    capacity l' = capacity l /\ bufCap l' = bufCap l.
Proof.
  intros HR Hn HS.
  set (sz := LogEntry_Msgsize (set_Seq e (head l))) in *.
  set (out := marshal (set_Seq e (head l))).
  assert (Hm : zlen out <= sz) by apply marshal_length.
  set (c := Z.to_nat (capacity l)).
  assert (Hc : 1 <= capacity l) by apply HR.
  destruct (ring_append S (bufCap l) (bufHead l) (take (c - 1) L) sz out) as (Hs0 & Hsz & Hdis & Hring).
  { apply ring_take, HR. } { lia. }
  { assert (total (take (c - 1) L) <= zlen (take (c - 1) L) * S)
      by (apply total_bound, Forall_take, HR).
    pose proof (rep_bufCap _ _ _ _ HR). pose proof (zlen_nonneg out).
    assert (zlen (take (c - 1) L) <= capacity l - 1) by (unfold zlen; rewrite length_take; lia). nia. }
  set (start := if bufCap l <? bufHead l + sz then 0 else bufHead l) in *.
  rewrite (log_Append_unfold S l hs L e HR Hn HS Hsz Hs0). fold sz out start.
  do 2 eexists. split; [done|]. split; [|done].
  apply (Rep_append_state S l hs L start out HR); auto; lia.
Qed.
End refinement.

(** A live entry, read through the index. *)
Lemma Rep_lookup S l hs L s :
  Rep S l hs L -> earliest hs (capacity l) <= s <= zlen hs ->
  exists o b, hs !! Z.to_nat (s - 1) = Some b /\ 0 <= o /\ o + zlen b <= bufCap l /\
    index l !! Z.to_nat (s mod capacity l) = Some (mkInfo o (zlen b)) /\
    slice (data l) o (zlen b) = b.
Proof.
  unfold earliest. intros [Hcap Hbuf Hidx Hdata Hhead Hring Hlive Hsmall Hslots] Hs.
  set (i := Z.to_nat (zlen hs - s)).
  destruct (lookup_lt_is_Some_2 hs (Z.to_nat (s - 1))) as [b Hb]; [unfold zlen in *; lia|].
  assert (Hi : L.*2 !! i = Some b).
  { rewrite Hlive, lookup_take_lt by lia. rewrite reverse_lookup by (unfold zlen in *; lia).
    rewrite <- Hb. f_equal. unfold zlen in *. lia. }
  apply list_lookup_fmap_Some in Hi as ([o b'] & E & Hi). simpl in E. subst b'.
  destruct (Hslots i o b Hi) as (Ho & Hob & Hsl & Hsc). exists o, b. split_and!; auto.
  rewrite <- Hsl. do 3 f_equal. lia.
Qed.

Lemma raw_loop_spec S l hs L maxBytes n s cur first :
  Rep S l hs L -> zlen hs < 9223372036854775806 ->
  earliest hs (capacity l) <= s -> s + Z.of_nat n <= zlen hs + 1 ->
  raw_loop l maxBytes n s cur first
  = Ret (take_budget maxBytes cur first (take n (drop (Z.to_nat (s - 1)) hs))).
Proof.
  intros HR Hn. revert s cur first. induction n as [|n IH]; intros s cur first Hs Hsn; simpl; [done|].
  destruct (Rep_lookup S l hs L s HR) as (o & b & Hb & Ho & Hob & Hidx & Hsl); [lia|].
  assert (Hs1 : 1 <= s) by (unfold earliest in *; lia).
  pose proof (zlen_nonneg b). pose proof (rep_bufCap _ _ _ _ HR). pose proof (rep_data _ _ _ _ HR).
  rewrite (uint64_id s) by (unfold is_uint64; lia). rewrite Hidx.
  rewrite (drop_S _ _ _ Hb). cbn [take_budget firstn take info_len offset].
  destruct (negb first && (maxBytes <? cur + zlen b)) eqn:E; [done|].
  rewrite (uint32_id (o + zlen b)) by (unfold is_uint32; lia).
  rewrite (proj2 (Z.ltb_ge (o + zlen b) o)), (proj2 (Z.ltb_ge (zlen (data l)) _)) by lia.
  cbn [orb]. rewrite IH by lia. cbn [go_bind]. rewrite Hsl.
  do 4 f_equal. f_equal. lia.
Qed.

Lemma DeltaLog_get_spec S l hs L startSeq limit maxBytes :
  Rep S l hs L -> zlen hs < 9223372036854775806 -> 0 <= limit ->
  GetEntriesRaw l startSeq limit maxBytes
  = Ret (spec_get hs (capacity l) startSeq limit maxBytes).
Proof.
  intros HR Hn Hl. pose proof (zlen_nonneg hs) as H0.
  pose proof (rep_head _ _ _ _ HR) as Hhead. pose proof (rep_cap _ _ _ _ HR) as Hcap.
  unfold GetEntriesRaw, spec_get. rewrite Hhead.
  destruct (zlen hs + 1 <=? startSeq) eqn:E.
  { rewrite drop_ge by (unfold zlen, earliest in *; lia). by rewrite take_nil. }
  assert ((if capacity l <? zlen hs + 1 then zlen hs + 1 - capacity l else 1)
          = earliest hs (capacity l)) as -> by (unfold earliest; case_ifs; lia).
  assert ((if startSeq <? earliest hs (capacity l) then earliest hs (capacity l) else startSeq)
          = Z.max startSeq (earliest hs (capacity l))) as -> by (case_ifs; lia).
  assert (1 <= earliest hs (capacity l) <= Z.max 1 (zlen hs)) by (unfold earliest; lia).
  set (s := Z.max startSeq (earliest hs (capacity l))) in *.
  rewrite int64_id by (unfold is_int64; lia).
  rewrite (proj2 (Z.ltb_ge _ 0)) by (case_ifs; lia).
  rewrite (proj2 (Z.eqb_neq (capacity l) 0)) by lia. cbn [andb].
  rewrite (raw_loop_spec S l hs L) by (auto; try lia; case_ifs; lia).
  do 2 f_equal. destruct (limit <? zlen hs + 1 - s) eqn:El; [done|].
  rewrite !take_ge; [done|rewrite length_drop; unfold zlen in *; lia..].
Qed.

(** ** Theorems *)

(** C6: Refinement, writing: appending an entry of bounded size to a log that
    represents a history returns the next sequence number (one more than the
    number of entries so far), never panics, and leaves a log that represents
    the history extended by that entry's encoding; this from the log
    [NewDeltaLog] creates on, for any capacity up to four million and any size
    bound S with (capacity+1)*S bytes in the buffer. *)
Theorem DeltaLog_append_refines {W : Wire} {WL : WireLaws W} S l hs L e :
  Rep S l hs L -> zlen hs < 9223372036854775806 ->
  LogEntry_Msgsize (set_Seq e (zlen hs + 1)) <= S ->
  exists l' L',
    log_Append l e = Ret (zlen hs + 1, l') /\ log_Head l' = zlen hs + 1 /\
    Rep S l' (hs ++ [marshal (set_Seq e (zlen hs + 1))]) L'.
Proof.
  intros HR Hn HS. rewrite <- (rep_head _ _ _ _ HR) in *.
  destruct (Rep_append S l hs L e HR Hn HS) as (l' & L' & Ha & HR' & _ & _).
  exists l', L'. split_and!; auto. unfold log_Head.
  rewrite (rep_head _ _ _ _ HR'), zlen_app, (rep_head _ _ _ _ HR). change (zlen [_]) with 1.
  pose proof (zlen_nonneg hs). rewrite uint64_id; unfold is_uint64; lia.
Qed.

(** C7: Refinement, reading: on a log that represents a history,
    [GetEntriesRaw] never panics and returns exactly the encodings of the
    retained entries from [startSeq] on (or from the oldest retained one when
    [startSeq] has been overwritten), cut after [limit] entries or when the
    byte budget is exceeded. *)
Theorem DeltaLog_get_refines S l hs L startSeq limit maxBytes :
  Rep S l hs L -> zlen hs < 9223372036854775806 -> 0 <= limit ->
  GetEntriesRaw l startSeq limit maxBytes
  = Ret (spec_get hs (capacity l) startSeq limit maxBytes).
Proof. apply DeltaLog_get_spec. Qed.

(** Reading is cut by the limit and the budget but always makes progress. *)
Lemma take_budget_cases maxBytes cur first es :
  let r := take_budget maxBytes cur first es in
  (length r <= length es)%nat /\ (first = true -> es <> [] -> r <> []) /\
  (first = false -> r = [] \/ cur + zlen (concat r) <= maxBytes).
Proof.
  cbv zeta. revert cur first. induction es as [|e es IH]; intros cur first; simpl.
  { split_and!; [lia|done|by left]. }
  destruct (negb first && (maxBytes <? cur + zlen e)) eqn:E; simpl.
  - split_and!; [lia| |by left]. intros ->. done.
  - destruct (IH (cur + zlen e) false) as (Hlen & _ & Hb).
    split_and!; [lia|done|]. intros ->. right. simpl in E.
    rewrite zlen_app. destruct (Hb eq_refl) as [->|Hb']; simpl; [|lia].
    change (zlen []) with 0. lia.
Qed.

(** C34: In a log whose entries are within the size of its slots ([Rep]), a
    replicator that is behind gets a non-empty batch starting at its position, or
    at the oldest retained entry when that is later, of at most [limit] entries,
    and of at most [maxBytes] bytes unless it is a single entry. *)
Theorem GetEntriesRaw_progress S l hs L startSeq limit maxBytes :
  Rep S l hs L -> zlen hs < 9223372036854775806 -> 1 <= limit -> startSeq <= zlen hs -> hs <> [] ->
  exists e es, GetEntriesRaw l startSeq limit maxBytes = Ret (e :: es) /\
    hs !! Z.to_nat (Z.max startSeq (earliest hs (capacity l)) - 1) = Some e /\
    zlen (e :: es) <= limit /\ (es = [] \/ zlen (concat (e :: es)) <= maxBytes).
Proof.
  intros HR Hn Hl Hs Hne. rewrite (DeltaLog_get_spec S l hs L) by (auto; lia). unfold spec_get.
  set (s := Z.max startSeq (earliest hs (capacity l))).
  pose proof (rep_cap _ _ _ _ HR).
  assert (1 <= zlen hs) by (destruct hs; [done|unfold zlen; simpl; lia]).
  assert (1 <= s <= zlen hs) by (unfold s, earliest; lia).
  destruct (lookup_lt_is_Some_2 hs (Z.to_nat (s - 1))) as [e He]; [unfold zlen in *; lia|].
  rewrite (drop_S _ _ _ He). destruct (Z.to_nat limit) as [|k] eqn:Ek; [lia|]. simpl.
  set (tl := take k (drop (Datatypes.S (Z.to_nat (s - 1))) hs)).
  exists e, (take_budget maxBytes (zlen e) false tl). split; [done|]. split; [done|].
  destruct (take_budget_cases maxBytes (zlen e) false tl) as (Hlen & _ & Hb).
  split.
  - assert (length tl <= k)%nat by (unfold tl; rewrite length_take; lia). unfold zlen in *. simpl. lia.
  - rewrite zlen_app. destruct (Hb eq_refl) as [->|?]; auto.
Qed.

(** ** Witnesses and limits of the buffer *)

(** An entry of at most 120 bytes on a log of 3 slots (768 bytes). *)
Definition small_entry (k : string) : LogEntry :=
  mkLogEntry 0 (mkTimestamp 5 0) 6 MsgDelete k EmptyString None fzero 0.

Definition run_log `{Wire} (l : DeltaLog) (es : list LogEntry) : go DeltaLog :=
  foldl (fun m e => let! l := m in let! (_, l) := log_Append l e in Ret l) (Ret l) es.

Lemma DeltaLog_append_refines_witness :
  exists l' L',
    log_Append (H := Fixed.wire) (NewDeltaLog 3) (small_entry "a") = Ret (zlen (A := bytes) [] + 1, l') /\
    log_Head l' = zlen (A := bytes) [] + 1 /\
    Rep 190 l' ([] ++ [marshal (H := Fixed.wire) (set_Seq (small_entry "a") (zlen (A := bytes) [] + 1))]) L'.
Proof.
  apply (DeltaLog_append_refines (WL := Fixed.wire_laws) 190 (NewDeltaLog 3) [] [] (small_entry "a")).
  - apply NewDeltaLog_Rep; vm_compute; split || idtac; congruence.
  - vm_compute. done.
  - vm_compute. congruence.
Defined.

(** Three entries in a ring of two slots: the first is gone, the others come
    back as they were written. *)
Lemma three_in_two_Rep :
  exists l L,
    run_log (H := Fixed.wire) (NewDeltaLog 2) [small_entry "a"; small_entry "b"; small_entry "c"] = Ret l /\
    Rep 170 l (marshal (H := Fixed.wire) <$>
      [set_Seq (small_entry "a") 1; set_Seq (small_entry "b") 2; set_Seq (small_entry "c") 3]) L /\
    capacity l = 2.
Proof.
  assert (H0 : Rep 170 (NewDeltaLog 2) [] []).
  { apply NewDeltaLog_Rep; vm_compute; split || idtac; congruence. }
  destruct (Rep_append (W := Fixed.wire) (WL := Fixed.wire_laws) 170 _ _ _ (small_entry "a") H0)
    as (l1 & L1 & E1 & H1 & C1 & _); [vm_compute; congruence..|].
  destruct (Rep_append (W := Fixed.wire) (WL := Fixed.wire_laws) 170 _ _ _ (small_entry "b") H1)
    as (l2 & L2 & E2 & H2 & C2 & _); [vm_compute; congruence| |].
  { rewrite (rep_head _ _ _ _ H1). vm_compute. congruence. }
  destruct (Rep_append (W := Fixed.wire) (WL := Fixed.wire_laws) 170 _ _ _ (small_entry "c") H2)
    as (l3 & L3 & E3 & H3 & C3 & _).
  { unfold zlen. simpl. lia. }
  { rewrite (rep_head _ _ _ _ H2). vm_compute. congruence. }
  exists l3, L3. split_and!.
  - unfold run_log. cbn [foldl go_bind]. rewrite E1. cbn [go_bind]. rewrite E2. cbn [go_bind].
    by rewrite E3.
  - rewrite (rep_head _ _ _ _ H2) in H3. rewrite (rep_head _ _ _ _ H1) in H3. exact H3.
  - by rewrite C3, C2, C1.
Qed.

Lemma DeltaLog_get_refines_witness :
  exists l,
    run_log (H := Fixed.wire) (NewDeltaLog 2) [small_entry "a"; small_entry "b"; small_entry "c"] = Ret l /\
    GetEntriesRaw l 1 1000 8388608 = Ret (marshal (H := Fixed.wire) <$>
      [set_Seq (small_entry "b") 2; set_Seq (small_entry "c") 3]).
Proof.
  destruct three_in_two_Rep as (l & L & E & HR & Hc). exists l. split; [done|].
  rewrite (DeltaLog_get_refines 170 l _ L 1 1000 8388608 HR); [|vm_compute; congruence..].
  by rewrite Hc.
Defined.

Lemma GetEntriesRaw_progress_witness :
  exists l e es,
    run_log (H := Fixed.wire) (NewDeltaLog 2) [small_entry "a"; small_entry "b"; small_entry "c"] = Ret l /\
    GetEntriesRaw l 1 1000 10 = Ret (e :: es) /\ e = marshal (H := Fixed.wire) (set_Seq (small_entry "b") 2).
Proof.
  destruct three_in_two_Rep as (l & L & E & HR & Hc). exists l.
  destruct (GetEntriesRaw_progress 170 l _ L 1 1000 10 HR) as (e & es & Hg & He & _);
    [vm_compute; congruence..|done|].
  exists e, es. split_and!; [done|done|]. rewrite Hc in He.
  apply (inj Some). rewrite <- He. vm_compute. done.
Defined.

(** Entries of more than about 256 bytes are overwritten while the index still
    offers them: sequence 1 reads back as bytes of sequence 2. *)
Definition big_entry (k : string) (n : nat) : LogEntry :=
  mkLogEntry 0 (mkTimestamp 5 0) 6 MsgSet k EmptyString (Some (replicate n Byte.x2a)) fzero 0.

Example large_entries_are_overwritten :
  match run_log (H := Fixed.wire) (NewDeltaLog 3) [big_entry "a" 320; big_entry "b" 320] with
  | Ret l => match GetEntriesRaw l 1 1000 8388608 with
             | Ret [r1; r2] => r1 <> marshal (H := Fixed.wire) (set_Seq (big_entry "a" 320) 1) /\
                               r1 = marshal (H := Fixed.wire) (set_Seq (big_entry "b" 320) 2)
             | _ => False
             end
  | Panic => False
  end.
Proof.
  vm_compute. split; [|done].
  intros H. apply (f_equal (fun b : bytes => b !! 11%nat)) in H. vm_compute in H. congruence.
Qed.

(** An entry larger than the whole buffer makes the next read panic. *)
Example oversized_entry_panics :
  match run_log (H := Fixed.wire) (NewDeltaLog 1) [big_entry "a" 300] with
  | Ret l => GetEntriesRaw l 1 1000 8388608 = Panic
  | Panic => False
  end.
Proof. vm_compute. done. Qed.
