(* ===== verification/Store.v ===== *)
(** * The sharded in-memory store (src/store.go)

    Every operation of the source locks one shard, works on its maps and
    unlocks it; here it is a function on the store.  Wall clock readings are
    arguments.  The operations that always return a nil error return their
    result only.  Go's unspecified iteration order over a map is a parameter
    ([RangeOrder]): any order of the map's bindings. *)

From S2P Require Import Prelude Float64 Hlc Types.

#[local] Open Scope Z_scope.

Definition numShards : Z := 256.

(** [time.Hour] *)
Definition Hour : Z := 3600 * 1000000000.

Record valWithTS (O : Type) := mkVal {
  v_Value : any O;
  v_Timestamp : Timestamp;
  v_ExpiresAt : Z;
  v_Deleted : bool
}.
Arguments mkVal {O}.
Arguments v_Value {O}. Arguments v_Timestamp {O}.
Arguments v_ExpiresAt {O}. Arguments v_Deleted {O}.

(** [dirty] is a map to [true]: the set of its keys. *)
Record storeShard (O : Type) := mkShard {
  cache : gmap string (valWithTS O);
  counts : gmap string float64;
  aggregateCounts : gmap string float64;
  windows : gmap string (list Z);
  dirty : gset string;
  peerSeqs : gmap string Z
}.
Arguments mkShard {O}.
Arguments cache {O}. Arguments counts {O}. Arguments aggregateCounts {O}.
Arguments windows {O}. Arguments dirty {O}. Arguments peerSeqs {O}.

Definition newStoreShard {O} : storeShard O := mkShard ∅ ∅ ∅ ∅ ∅ ∅.

(** The shards of [store]; the database handle is in the persistence layer. *)
Record store (O : Type) := mkStore { shards : list (storeShard O) }.
Arguments mkStore {O}.
Arguments shards {O}.

(** ** Placement *)

Definition getShardKey (key : string) : string :=
  match colon_index key with
  | None => key
  | Some first =>
      let rest := str_from (S first) key in
      match colon_index rest with
      | None => rest
      | Some second => str_upto second rest
      end
  end.

(** 32-bit FNV-1a. *)
Definition hash (s : string) : Z :=
  foldl (fun h b => uint32 (Z.lxor h (Z_of_byte b) * 16777619)) 2166136261 (bytes_of_string s).

Definition shard_of (key : string) : nat := Z.to_nat (hash (getShardKey key) mod numShards).

(** Go's [range] over a map: some order of its bindings. *)
Class RangeOrder := {
  range : forall A, gmap string A -> list (string * A);
  range_perm : forall A (m : gmap string A), range A m ≡ₚ map_to_list m
}.
Arguments range {_ A} m.

#[export] Instance list_range_order : RangeOrder.
Proof. by exists (fun A (m : gmap string A) => map_to_list m). Defined.

Section store.
Context {O : Type}.

Definition with_cache (f : gmap string (valWithTS O) -> gmap string (valWithTS O))
    (sh : storeShard O) : storeShard O :=
  mkShard (f (cache sh)) (counts sh) (aggregateCounts sh) (windows sh) (dirty sh) (peerSeqs sh).
Definition with_counts (f : gmap string float64 -> gmap string float64)
    (sh : storeShard O) : storeShard O :=
  mkShard (cache sh) (f (counts sh)) (aggregateCounts sh) (windows sh) (dirty sh) (peerSeqs sh).
Definition with_aggregate (f : gmap string float64 -> gmap string float64)
    (sh : storeShard O) : storeShard O :=
  mkShard (cache sh) (counts sh) (f (aggregateCounts sh)) (windows sh) (dirty sh) (peerSeqs sh).
Definition with_windows (f : gmap string (list Z) -> gmap string (list Z))
    (sh : storeShard O) : storeShard O :=
  mkShard (cache sh) (counts sh) (aggregateCounts sh) (f (windows sh)) (dirty sh) (peerSeqs sh).
Definition with_peerSeqs (f : gmap string Z -> gmap string Z)
    (sh : storeShard O) : storeShard O :=
  mkShard (cache sh) (counts sh) (aggregateCounts sh) (windows sh) (dirty sh) (f (peerSeqs sh)).
(** [shard.dirty[key] = true] *)
Definition mark_dirty (key : string) (sh : storeShard O) : storeShard O :=
  mkShard (cache sh) (counts sh) (aggregateCounts sh) (windows sh) ({[key]} ∪ dirty sh) (peerSeqs sh).

Definition getShard (s : store O) (key : string) : storeShard O :=
  default newStoreShard (shards s !! shard_of key).
Definition putShard (s : store O) (key : string) (sh : storeShard O) : store O :=
  mkStore (<[shard_of key := sh]> (shards s)).

(** The shards of [newStore], before [load]. *)
Definition empty_store : store O := mkStore (replicate (Z.to_nat numShards) newStoreShard).

(** [m[k]] and [m[k] += d] on a map of floats, absent keys read as zero. *)
Definition fget (m : gmap string float64) (k : string) : float64 := default fzero (m !! k).
Definition fincr (k : string) (d : float64) (m : gmap string float64) : gmap string float64 :=
  <[k := fadd (fget m k) d]> m.

(** ** Registers *)

(** [existing, ok := shard.cache[key]; ok && existing.Timestamp.GreaterOrEqual(ts)] *)
Definition is_stale (sh : storeShard O) (key : string) (ts : Timestamp) : bool :=
  match cache sh !! key with
  | Some existing => GreaterOrEqual (v_Timestamp existing) ts
  | None => false
  end.

Definition store_set (s : store O) (key : string) (value : any O) (ts : Timestamp) (ttl : Z)
    : store O :=
  let shard := getShard s key in
  if is_stale shard key ts then s
  else
    let expiresAt := if 0 <? ttl then int64 (Physical ts + ttl) else 0 in
    putShard s key (mark_dirty key
      (with_cache (<[key := mkVal value ts expiresAt false]>) shard)).

Definition store_delete (s : store O) (key : string) (ts : Timestamp) : store O :=
  let shard := getShard s key in
  if is_stale shard key ts then s
  else
    let gcGrace := Hour in
    let expiresAt := int64 (Physical ts + gcGrace) in
    putShard s key (mark_dirty key
      (with_cache (<[key := mkVal ANil ts expiresAt true]>) shard)).

(** [vTS.ExpiresAt > 0 && time.Now().UnixNano() > vTS.ExpiresAt] *)
Definition expired (now : Z) (v : valWithTS O) : bool :=
  (0 <? v_ExpiresAt v) && (v_ExpiresAt v <? now).

Definition store_get (s : store O) (key : string) (now : Z) : any O :=
  match cache (getShard s key) !! key with
  | Some vTS => if v_Deleted vTS then ANil else if expired now vTS then ANil else v_Value vTS
  | None => ANil
  end.

Definition store_exists (s : store O) (key : string) (now : Z) : bool :=
  match cache (getShard s key) !! key with
  | Some vTS => if v_Deleted vTS then false else if expired now vTS then false else true
  | None => false
  end.

Definition CacheSize (s : store O) : Z :=
  foldl (fun total sh => total + Z.of_nat (size (cache sh))) 0 (shards s).

(** ** Expiry *)

(** One iteration of the loop of [pruneExpiredKeys] over a shard's cache. *)
Definition prune_one (now : Z) (sh : storeShard O) (kv : string * valWithTS O) : storeShard O :=
  if expired now kv.2 then mark_dirty kv.1 (with_cache (delete kv.1) sh) else sh.

Definition prune_shard `{RangeOrder} (now : Z) (sh : storeShard O) : storeShard O :=
  foldl (prune_one now) sh (range (cache sh)).

Definition pruneExpiredKeys `{RangeOrder} (s : store O) (now : Z) : store O :=
  mkStore (prune_shard now <$> shards s).

(** One iteration of the loop of [pruneStaleWindows]. *)
Definition prune_window (now : Z) (sh : storeShard O) (kw : string * list Z) : storeShard O :=
  match last kw.2 with
  | None => with_windows (delete kw.1) sh
  | Some newest =>
      if Hour <? int64 (now - newest) then with_windows (delete kw.1) sh else sh
  end.

Definition pruneStaleWindows `{RangeOrder} (s : store O) (now : Z) : store O :=
  mkStore ((fun sh => foldl (prune_window now) sh (range (windows sh))) <$> shards s).

(** ** Counters *)

(** [fmt.Sprintf("c:%s:%s", key, nodeID)] and the metric keys *)
Definition countKey (key nodeID : string) : string := "c:" +:+ key +:+ ":" +:+ nodeID.
Definition metricCountKey (key nodeID : string) : string := "mc:" +:+ key +:+ ":" +:+ nodeID.
Definition metricSumKey (key nodeID : string) : string := "ms:" +:+ key +:+ ":" +:+ nodeID.

Definition increment (s : store O) (key nodeID : string) (delta : float64) : float64 * store O :=
  let nodeKey := countKey key nodeID in
  let shard := getShard s key in
  let shard := with_counts (fincr nodeKey delta) shard in
  let shard := with_aggregate (fincr key delta) shard in
  let shard := mark_dirty nodeKey shard in
  (fget (aggregateCounts shard) key, putShard s key shard).

Definition getNodeCount (s : store O) (key nodeID : string) : float64 :=
  fget (counts (getShard s key)) (countKey key nodeID).

Definition setNodeCount (s : store O) (key nodeID : string) (val : float64) : store O :=
  let nodeKey := countKey key nodeID in
  let shard := getShard s key in
  if fgtb val (fget (counts shard) nodeKey) then
    let diff := fsub val (fget (counts shard) nodeKey) in
    let shard := with_counts (<[nodeKey := val]>) shard in
    let shard := with_aggregate (fincr key diff) shard in
    putShard s key (mark_dirty nodeKey shard)
  else s.

Definition getAggregateCount (s : store O) (key : string) : float64 :=
  fget (aggregateCounts (getShard s key)) key.

(** ** Metrics *)

Definition metric_of (shard : storeShard O) (key : string) : Metric :=
  mkMetric (int64_of_float (fget (aggregateCounts shard) ("m:c:" +:+ key)))
           (fget (aggregateCounts shard) ("m:s:" +:+ key)).

Definition incrementMetric (s : store O) (key nodeID : string) (delta : float64)
    : Metric * store O :=
  let cKey := metricCountKey key nodeID in
  let sKey := metricSumKey key nodeID in
  let shard := getShard s key in
  let shard := with_counts (fincr cKey (float64_of_Z 1)) shard in
  let shard := with_aggregate (fincr ("m:c:" +:+ key) (float64_of_Z 1)) shard in
  let shard := mark_dirty cKey shard in
  let shard := with_counts (fincr sKey delta) shard in
  let shard := with_aggregate (fincr ("m:s:" +:+ key) delta) shard in
  let shard := mark_dirty sKey shard in
  (metric_of shard key, putShard s key shard).

Definition getAggregateMetric (s : store O) (key : string) : Metric :=
  metric_of (getShard s key) key.

(** ** Sliding windows *)

(** The counting loop: the number of timestamps inside the window and the
    number outside. *)
Definition count_window (horizon : Z) (win : list Z) : Z * nat :=
  foldl (fun '(count, i) t => if horizon <=? t then (int64 (count + 1), i) else (count, S i))
    (0, 0%nat) win.

Definition incrementSlidingWindow (s : store O) (key : string) (ts window now : Z)
    : Z * store O :=
  let shard := getShard s key in
  let win := default [] (windows shard !! key) ++ [ts] in
  let horizon := int64 (now - window) in
  let '(count, i) := count_window horizon win in
  let win := if (0 <? i)%nat then drop i win else win in
  let windows' := if decide (win = []) then delete key (windows shard)
                  else <[key := win]> (windows shard) in
  (count, putShard s key (mark_dirty key (with_windows (fun _ => windows') shard))).

(** The search loop: [None] when [ts] is already there, else the insertion
    index. *)
Fixpoint window_index (ts : Z) (win : list Z) : option nat :=
  match win with
  | [] => Some 0%nat
  | t :: win =>
      if t =? ts then None
      else if ts <? t then Some 0%nat
      else S <$> window_index ts win
  end.

Definition addWindowTimestamp (s : store O) (key : string) (ts : Z) : store O :=
  let shard := getShard s key in
  let win := default [] (windows shard !! key) in
  match window_index ts win with
  | None => s
  | Some idx =>
      let win' := take idx win ++ [ts] ++ drop idx win in
      putShard s key (mark_dirty key (with_windows (<[key := win']>) shard))
  end.

(** ** Peer sequence numbers *)

Definition seqKey (nodeID : string) : string := "meta:seq:" +:+ nodeID.

Definition updatePeerSeq (s : store O) (nodeID : string) (seq : Z) : store O :=
  let key := seqKey nodeID in
  let shard := getShard s key in
  if default 0 (peerSeqs shard !! nodeID) <? seq then
    putShard s key (mark_dirty key (with_peerSeqs (<[nodeID := seq]>) shard))
  else s.

Definition getPeerSeq (s : store O) (nodeID : string) : Z :=
  default 0 (peerSeqs (getShard s (seqKey nodeID)) !! nodeID).
End store.

(** ** Bytes of a float *)

Definition float64ToBytes (f : float64) : bytes := be_encode 8 (Float64bits f).

Definition float64FromBytes (b : bytes) : float64 :=
  if (length b <? 8)%nat then fzero else Float64frombits (be_decode (take 8 b)).
