(* ===== verification/StoreProofs.v ===== *)
(** * Registers of the store: placement, last writer wins, expiry

    The store is observed through [reg], the register of a key in the key's
    own shard.  [merge] is the abstract last-writer-wins step; every write
    operation refines it on its own key and leaves the other keys alone. *)

From S2P Require Import Prelude Float64 Hlc Types Store.

#[local] Open Scope Z_scope.

(** Every store has its 256 shards. *)
Definition store_wf {O} (s : store O) : Prop := length (shards s) = Z.to_nat numShards.

(** Each shard caches only keys that hash to it. *)
Definition placed {O} (s : store O) : Prop :=
  forall i sh k, shards s !! i = Some sh -> is_Some (cache sh !! k) -> shard_of k = i.

Lemma shard_of_lt key : (shard_of key < Z.to_nat numShards)%nat.
Proof.
  unfold shard_of, numShards. pose proof (Z.mod_pos_bound (hash (getShardKey key)) 256). lia.
Qed.

Section access.
Context {O : Type}.
Implicit Types s : store O.

Lemma empty_store_wf : store_wf (empty_store (O := O)).
Proof. apply length_replicate. Qed.

Lemma putShard_wf s key sh : store_wf s -> store_wf (putShard s key sh).
Proof. unfold store_wf. simpl. by rewrite length_insert. Qed.

Lemma getShard_lookup s key : store_wf s -> shards s !! shard_of key = Some (getShard s key).
Proof.
  intros Hwf. unfold getShard.
  destruct (lookup_lt_is_Some_2 (shards s) (shard_of key)) as [sh Hsh].
  { rewrite Hwf. apply shard_of_lt. }
  by rewrite Hsh.
Qed.

Lemma getShard_putShard s key key' sh :
  store_wf s ->
  getShard (putShard s key sh) key' =
    if decide (shard_of key = shard_of key') then sh else getShard s key'.
Proof.
  intros Hwf. unfold getShard, putShard. simpl. case_decide as E.
  - rewrite <- E, list_lookup_insert_eq; [done|]. rewrite Hwf. apply shard_of_lt.
  - by rewrite list_lookup_insert_ne.
Qed.

Lemma getShard_empty key : getShard (empty_store (O := O)) key = newStoreShard.
Proof.
  unfold getShard, empty_store. cbn [shards]. rewrite lookup_replicate_2; [done|apply shard_of_lt].
Qed.

(** The shard a map lookup goes through after one shard was replaced: a
    field [f] that the new shard keeps at [k'] is kept by the store. *)
Lemma field_putShard {A} (f : storeShard O -> gmap string A) s key key' k' sh :
  store_wf s ->
  (shard_of key = shard_of key' -> f sh !! k' = f (getShard s key) !! k') ->
  f (getShard (putShard s key sh) key') !! k' = f (getShard s key') !! k'.
Proof.
  intros Hwf Hf. rewrite getShard_putShard by done. case_decide as E; [|done].
  rewrite Hf by done. unfold getShard. by rewrite E.
Qed.
End access.

#[export] Hint Resolve putShard_wf empty_store_wf : go.

(** ** Last writer wins *)

Section lww.
Context {O : Type}.
Implicit Types s : store O.
Implicit Types v : valWithTS O.

Definition reg s (key : string) : option (valWithTS O) := cache (getShard s key) !! key.

(** The abstract register: a newer write replaces, an older or equally old
    one is ignored. *)
Definition merge (o : option (valWithTS O)) v : option (valWithTS O) :=
  match o with
  | Some existing => if GreaterOrEqual (v_Timestamp existing) (v_Timestamp v) then Some existing else Some v
  | None => Some v
  end.

(** A write as it arrives from the API or from a peer. *)
Inductive write :=
| WSet (key : string) (value : any O) (ts : Timestamp) (ttl : Z)
| WDelete (key : string) (ts : Timestamp).

Definition do_write s (w : write) : store O :=
  match w with
  | WSet key value ts ttl => store_set s key value ts ttl
  | WDelete key ts => store_delete s key ts
  end.

Definition w_key (w : write) : string :=
  match w with WSet key _ _ _ => key | WDelete key _ => key end.

(** The register value a write carries. *)
Definition w_val (w : write) : valWithTS O :=
  match w with
  | WSet _ value ts ttl => mkVal value ts (if 0 <? ttl then int64 (Physical ts + ttl) else 0) false
  | WDelete _ ts => mkVal ANil ts (int64 (Physical ts + Hour)) true
  end.

Definition w_ts (w : write) : Timestamp := v_Timestamp (w_val w).

Lemma do_write_unfold s w :
  do_write s w =
    if is_stale (getShard s (w_key w)) (w_key w) (w_ts w) then s
    else putShard s (w_key w) (mark_dirty (w_key w)
           (with_cache (<[w_key w := w_val w]>) (getShard s (w_key w)))).
Proof. by destruct w. Qed.

Lemma do_write_wf s w : store_wf s -> store_wf (do_write s w).
Proof. intros H. rewrite do_write_unfold. case_ifs; auto with go. Qed.

Lemma reg_do_write_same s w :
  store_wf s -> reg (do_write s w) (w_key w) = merge (reg s (w_key w)) (w_val w).
Proof.
  intros Hwf. rewrite do_write_unfold. unfold is_stale, reg, merge, w_ts.
  destruct (cache (getShard s (w_key w)) !! w_key w) as [ex|] eqn:E;
    [destruct (GreaterOrEqual _ _); [by rewrite E|]|];
    (rewrite getShard_putShard, decide_True by done; simpl; by rewrite lookup_insert_eq).
Qed.

Lemma reg_do_write_other s w key :
  store_wf s -> key <> w_key w -> reg (do_write s w) key = reg s key.
Proof.
  intros Hwf Hne. rewrite do_write_unfold. case_ifs; [done|]. unfold reg.
  apply (field_putShard cache); [done|]. intros _. simpl. by rewrite lookup_insert_ne.
Qed.

Lemma do_write_placed s w : store_wf s -> placed s -> placed (do_write s w).
Proof.
  intros Hwf Hp. rewrite do_write_unfold. case_ifs; [done|]. intros i sh k Hsh Hk.
  unfold putShard in Hsh. simpl in Hsh.
  apply list_lookup_insert_Some in Hsh as [(<- & <- & _)|[_ Hsh]]; [|by eapply Hp].
  simpl in Hk. destruct (decide (k = w_key w)) as [->|Hne]; [done|].
  rewrite lookup_insert_ne in Hk by done. eapply Hp; [by apply getShard_lookup|done].
Qed.

Definition run_writes s (ws : list write) : store O := foldl do_write s ws.

Lemma run_writes_wf s ws : store_wf s -> store_wf (run_writes s ws).
Proof. revert s. induction ws as [|w ws IH]; simpl; auto using do_write_wf. Qed.

(** A run of writes acts on one key as the abstract register does. *)
Lemma reg_run_writes s ws key :
  store_wf s ->
  reg (run_writes s ws) key =
    foldl merge (reg s key) (w_val <$> filter (fun w => w_key w = key) ws).
Proof.
  revert s. induction ws as [|w ws IH]; intros s Hwf; [done|].
  simpl. rewrite IH by auto using do_write_wf. rewrite filter_cons. case_decide as E.
  - simpl. rewrite <- E, reg_do_write_same by done. done.
  - by rewrite reg_do_write_other by auto.
Qed.

(** The register a run leaves dominates everything written and was itself
    written, or was there before and is not older than any write. *)
Definition winner (o : option (valWithTS O)) (vs : list (valWithTS O)) (r : option (valWithTS O)) : Prop :=
  match r with
  | None => o = None /\ vs = []
  | Some v =>
      (forall v', v' ∈ vs -> GreaterOrEqual (v_Timestamp v) (v_Timestamp v') = true) /\
      match o with
      | Some e => v = e \/ (v ∈ vs /\ After (v_Timestamp v) (v_Timestamp e) = true)
      | None => v ∈ vs
      end
  end.

Lemma foldl_merge_winner o vs : winner o vs (foldl merge o vs).
Proof.
  revert o. induction vs as [|v vs IH] using rev_ind; intros o.
  { destruct o; simpl; [split; [by intros ? ?%elem_of_nil|by left]|done]. }
  rewrite foldl_app. simpl. specialize (IH o). unfold merge at 1.
  destruct (foldl merge o vs) as [r|] eqn:Er; simpl in *.
  - destruct IH as [Hdom Ho].
    destruct (GreaterOrEqual (v_Timestamp r) (v_Timestamp v)) eqn:Eg; simpl.
    + split; [intros v' [?| ->%list_elem_of_singleton]%elem_of_app; auto|].
      destruct o as [e|]; [|set_solver]. destruct Ho as [->|[? ?]]; [by left|right; set_solver].
    + assert (Hvr : After (v_Timestamp v) (v_Timestamp r) = true).
      { rewrite GreaterOrEqual_After in Eg. by destruct (After _ _). }
      split.
      * intros v' [Hv'| ->%list_elem_of_singleton]%elem_of_app; [|apply GE_refl].
        apply After_GE. eapply After_GE_trans; eauto.
      * destruct o as [e|]; [|set_solver]. right. split; [set_solver|].
        destruct Ho as [->|[_ ?]]; [done|]. by eapply After_trans.
  - destruct IH as [-> ->]. split; [|set_solver].
    intros v' ->%list_elem_of_singleton. apply GE_refl.
Qed.

Lemma winner_unique o vs vs' r r' :
  (forall v, v ∈ vs <-> v ∈ vs') ->
  (forall v v', v ∈ vs -> v' ∈ vs -> v_Timestamp v = v_Timestamp v' -> v = v') ->
  winner o vs r -> winner o vs' r' -> r = r'.
Proof.
  intros Hsame Htie. destruct r as [v|], r' as [v'|]; simpl; [|..|done].
  - intros [Hd Hv] [Hd' Hv']. f_equal. destruct o as [e|].
    + destruct Hv as [->|[Hin Ha]], Hv' as [->|[Hin' Ha']]; [done|..].
      * apply Hsame, Hd in Hin'. rewrite GreaterOrEqual_After, Ha' in Hin'. done.
      * apply Hsame, Hd' in Hin. rewrite GreaterOrEqual_After, Ha in Hin. done.
      * apply Htie; [done|by apply Hsame|]. apply GE_antisym; [apply Hd, Hsame|apply Hd', Hsame]; done.
    + apply Htie; [done|by apply Hsame|]. apply GE_antisym; [apply Hd, Hsame|apply Hd', Hsame]; done.
  - intros [_ Hv] [-> ->]. apply Hsame in Hv. by apply not_elem_of_nil in Hv.
  - intros [-> ->] [_ Hv]. apply Hsame in Hv. by apply not_elem_of_nil in Hv.
Qed.
End lww.

Arguments write : clear implicits.

(** ** Convergence *)

(** Two writes of the set never carry the same timestamp for the same key. *)
Definition tie_free {O} (ws : list (write O)) : Prop :=
  forall w w', w ∈ ws -> w' ∈ ws -> w_key w = w_key w' -> w_ts w = w_ts w' -> w = w'.

(** Runs of the same writes end with the same registers. *)
Lemma run_writes_same {O} (s : store O) (ws ws' : list (write O)) key :
  store_wf s -> (forall w, w ∈ ws <-> w ∈ ws') -> tie_free ws ->
  reg (run_writes s ws) key = reg (run_writes s ws') key.
Proof.
  intros Hwf Hsame Htie. rewrite !reg_run_writes by done.
  eapply winner_unique; [| |apply foldl_merge_winner..].
  - intros v. rewrite !list_elem_of_fmap. setoid_rewrite list_elem_of_filter. by setoid_rewrite Hsame.
  - intros v v'. rewrite !list_elem_of_fmap. setoid_rewrite list_elem_of_filter.
    intros (w & -> & Hk & Hin) (w' & -> & Hk' & Hin') Hts. f_equal.
    apply Htie; [done..|congruence|done].
Qed.

(** C5: Strong eventual consistency of registers: two replicas in the same
    state that apply the same set of writes (sets and deletes, local or
    replicated) in any order and with any repetitions hold the same register
    for every key, when no two different writes to a key carry the same
    timestamp. *)
Theorem lww_convergence {O} (s : store O) (ws ws' : list (write O)) key :
  store_wf s -> (forall w, w ∈ ws <-> w ∈ ws') -> tie_free ws ->
  reg (run_writes s ws) key = reg (run_writes s ws') key.
Proof. apply run_writes_same. Qed.

Definition conv_writes : list (write unit) :=
  [WSet "k" (AString "old") (mkTimestamp 1000 0) 0;
   WSet "k" (AString "new") (mkTimestamp 1000 1) 0;
   WDelete "j" (mkTimestamp 2000 0)].

Lemma lww_convergence_witness :
  reg (run_writes empty_store conv_writes) "k"
  = reg (run_writes empty_store (reverse conv_writes ++ conv_writes)) "k" /\
  (v_Value <$> reg (run_writes empty_store conv_writes) "k") = Some (AString "new").
Proof.
  split; [|vm_compute; done].
  apply (lww_convergence empty_store conv_writes (reverse conv_writes ++ conv_writes) "k").
  - apply empty_store_wf.
  - intros w. rewrite elem_of_app, elem_of_reverse. tauto.
  - unfold conv_writes. intros w w' Hw Hw'.
    repeat (apply elem_of_cons in Hw as [->|Hw]); [..|by apply not_elem_of_nil in Hw];
    repeat (apply elem_of_cons in Hw' as [->|Hw']); try by apply not_elem_of_nil in Hw'.
    all: vm_compute; congruence.
Defined.

(** Two nodes that write the same key with the same timestamp each keep their
    own value: there is no tie-break. *)
Example equal_timestamps_diverge :
  let ts := mkTimestamp 1000 0 in
  let a := WSet "k" (AString "from-a") ts 0 : write unit in
  let b := WSet "k" (AString "from-b") ts 0 in
  reg (run_writes empty_store [a; b]) "k" <> reg (run_writes empty_store [b; a]) "k".
Proof. vm_compute. congruence. Qed.

(** ** Reads *)

Section reads.
Context {O : Type}.
Implicit Types s : store O.

(** What a register shows at time [now]: [None] when absent. *)
Definition visible (now : Z) (o : option (valWithTS O)) : option (any O) :=
  match o with
  | Some v => if v_Deleted v || expired now v then None else Some (v_Value v)
  | None => None
  end.

Lemma store_get_visible s key now : store_get s key now = default ANil (visible now (reg s key)).
Proof.
  unfold store_get, visible, reg. destruct (cache _ !! key) as [v|]; [|done].
  by destruct (v_Deleted v), (expired now v).
Qed.

Lemma store_exists_visible s key now :
  store_exists s key now = bool_decide (is_Some (visible now (reg s key))).
Proof.
  unfold store_exists, visible, reg. destruct (cache _ !! key) as [v|]; [|done].
  by destruct (v_Deleted v), (expired now v).
Qed.

(** The write is newer than what the store holds for its key. *)
Definition newer s (w : write O) : Prop :=
  match reg s (w_key w) with
  | Some e => After (w_ts w) (v_Timestamp e) = true
  | None => True
  end.

Lemma merge_newer s w : newer s w -> merge (reg s (w_key w)) (w_val w) = Some (w_val w).
Proof.
  unfold newer, merge, w_ts. destruct (reg s (w_key w)) as [e|]; [|done].
  intros Hn. by rewrite GreaterOrEqual_After, Hn.
Qed.

Lemma reg_do_write_newer s w : store_wf s -> newer s w -> reg (do_write s w) (w_key w) = Some (w_val w).
Proof.
  intros Hwf Hn. rewrite reg_do_write_same by done. by apply merge_newer.
Qed.

Lemma reg_set_newer s key value ts ttl :
  store_wf s -> newer s (WSet key value ts ttl) ->
  reg (store_set s key value ts ttl) key = Some (w_val (WSet key value ts ttl)).
Proof. exact (reg_do_write_newer s (WSet key value ts ttl)). Qed.

Lemma reg_delete_newer s key ts :
  store_wf s -> newer s (WDelete key ts) -> reg (store_delete s key ts) key = Some (w_val (WDelete key ts)).
Proof. exact (reg_do_write_newer s (WDelete key ts)). Qed.

Lemma do_write_stale s w : store_wf s -> ~ newer s w -> do_write s w = s.
Proof.
  unfold newer, reg. intros Hwf Hn. rewrite do_write_unfold. unfold is_stale.
  destruct (cache _ !! w_key w) as [e|]; [|by destruct Hn].
  rewrite GreaterOrEqual_After. by destruct (After _ _).
Qed.
End reads.

(** C25: A set that is newer than the register is read back by [get] and
    reported by [exists] until its TTL (measured from the write's timestamp)
    has passed, and as absent afterwards; without a TTL it never expires; a
    set that is not newer changes nothing; other keys are not affected. *)
Theorem set_then_get {O} (s : store O) key value ts ttl now :
  store_wf s -> 0 < Physical ts -> is_int64 (Physical ts + ttl) ->
  let w := WSet key value ts ttl in
  let s' := store_set s key value ts ttl in
  (newer s w ->
     (ttl <= 0 \/ now <= Physical ts + ttl ->
        store_get s' key now = value /\ store_exists s' key now = true) /\
     (0 < ttl -> Physical ts + ttl < now ->
        store_get s' key now = ANil /\ store_exists s' key now = false)) /\
  (~ newer s w -> s' = s) /\
  (forall key' t, key' <> key ->
     store_get s' key' t = store_get s key' t /\ store_exists s' key' t = store_exists s key' t).
Proof.
  intros Hwf Hp Hi w s'. change s' with (do_write s w). split_and!.
  - intros Hn. rewrite store_get_visible, store_exists_visible.
    pose proof (reg_do_write_newer s w Hwf Hn) as Hr. change (w_key w) with key in Hr. rewrite Hr.
    unfold visible, expired, w_val, w. cbn [v_Deleted v_ExpiresAt v_Value orb].
    rewrite int64_id by done. destruct (0 <? ttl) eqn:E; split; intros.
    + replace ((0 <? Physical ts + ttl) && (Physical ts + ttl <? now)) with false by lia.
      by simpl.
    + replace ((0 <? Physical ts + ttl) && (Physical ts + ttl <? now)) with true by lia. done.
    + done.
    + lia.
  - intros Hn. by apply do_write_stale.
  - intros key' t Hne. rewrite !store_get_visible, !store_exists_visible.
    by rewrite reg_do_write_other by done.
Qed.

Lemma set_then_get_witness :
  let s' := store_set (O := unit) empty_store "session" (AString "data") (mkTimestamp 1000 0) 300 in
  store_get s' "session" 1300 = AString "data" /\ store_exists s' "session" 1301 = false.
Proof.
  destruct (set_then_get (O := unit) empty_store "session" (AString "data") (mkTimestamp 1000 0) 300 1300
    empty_store_wf) as [H _]; [vm_compute; congruence|vm_compute; split; congruence|].
  destruct (set_then_get (O := unit) empty_store "session" (AString "data") (mkTimestamp 1000 0) 300 1301
    empty_store_wf) as [H' _]; [vm_compute; congruence|vm_compute; split; congruence|].
  split.
  - apply H; [vm_compute; exact I|right; vm_compute; congruence].
  - apply H'; [vm_compute; exact I|vm_compute; congruence|vm_compute; congruence].
Defined.

(** ** Expiry *)

(** Deleting the matching bindings of a map while iterating over it. *)
Section delete_matching.
Context {A : Type} `{RangeOrder} (P : A -> bool).

Definition delete_matching (m : gmap string A) (l : list (string * A)) : gmap string A :=
  foldl (fun m kv => if P kv.2 then delete kv.1 m else m) m l.

Lemma delete_matching_lookup m l k :
  delete_matching m l !! k =
    if existsb (fun kv => bool_decide (kv.1 = k) && P kv.2) l then None else m !! k.
Proof.
  revert m. induction l as [|[k' v] l IH]; intros m; [done|].
  cbn [delete_matching foldl existsb fst snd]. unfold delete_matching in IH. rewrite IH.
  destruct (existsb _ l); [by rewrite orb_true_r|]. rewrite orb_false_r.
  destruct (P v); rewrite ?andb_true_r, ?andb_false_r; [|done].
  case_bool_decide; subst; [by rewrite lookup_delete_eq|by rewrite lookup_delete_ne].
Qed.

Lemma delete_matching_range m :
  delete_matching m (range m) = filter (fun kv => P kv.2 = false) m.
Proof.
  apply map_eq. intros k. rewrite delete_matching_lookup, map_lookup_filter.
  destruct (existsb _ _) eqn:E.
  - apply existsb_exists in E as ([k' v] & Hin & [Hk HP]%andb_true_iff). simpl in *.
    apply bool_decide_eq_true in Hk as ->.
    apply list_elem_of_In in Hin. rewrite range_perm, elem_of_map_to_list in Hin.
    rewrite Hin. simpl. by rewrite HP.
  - destruct (m !! k) as [v|] eqn:Ek; simpl; [|done].
    destruct (P v) eqn:HP; [|done]. apply not_true_iff_false in E. destruct E.
    apply existsb_exists. exists (k, v). simpl. rewrite bool_decide_true by done. split; [|done].
    apply list_elem_of_In. by rewrite range_perm, elem_of_map_to_list.
Qed.
End delete_matching.

Section prune.
Context {O : Type} `{RangeOrder}.

Lemma prune_fold_cache now l (sh : storeShard O) :
  cache (foldl (prune_one now) sh l) = delete_matching (expired now) (cache sh) l.
Proof.
  revert sh. induction l as [|[k v] l IH]; intros sh; [done|]. cbn [foldl].
  rewrite IH. unfold prune_one, delete_matching. simpl. by case_ifs.
Qed.

Lemma prune_shard_cache now (sh : storeShard O) :
  cache (prune_shard now sh) = filter (fun kv => expired now kv.2 = false) (cache sh).
Proof. unfold prune_shard. by rewrite prune_fold_cache, delete_matching_range. Qed.

Lemma reg_prune (s : store O) now key :
  store_wf s ->
  reg (pruneExpiredKeys s now) key =
    match reg s key with
    | Some v => if expired now v then None else Some v
    | None => None
    end.
Proof.
  intros Hwf. unfold reg.
  assert (getShard (pruneExpiredKeys s now) key = prune_shard now (getShard s key)) as ->.
  { unfold getShard at 1, pruneExpiredKeys. cbn [shards].
    by rewrite list_lookup_fmap, (getShard_lookup s key Hwf). }
  rewrite prune_shard_cache, map_lookup_filter. simpl.
  destruct (cache (getShard s key) !! key) as [v|]; simpl; [|done].
  by destruct (expired now v).
Qed.
End prune.

(** C27: The janitor is invisible: pruning at time [now], in whatever order the
    map is iterated, changes no answer of [get] or [exists] from [now] on, for
    any key. *)
Theorem prune_preserves_reads {O} `{RangeOrder} (s : store O) now t key :
  store_wf s -> now <= t ->
  store_get (pruneExpiredKeys s now) key t = store_get s key t /\
  store_exists (pruneExpiredKeys s now) key t = store_exists s key t.
Proof.
  intros Hwf Ht. rewrite !store_get_visible, !store_exists_visible, reg_prune by done.
  destruct (reg s key) as [v|]; [|done]. destruct (expired now v) eqn:E; [|done].
  assert (expired t v = true) as He by (unfold expired in *; lia). simpl.
  rewrite He, orb_true_r. done.
Qed.

Lemma prune_preserves_reads_witness :
  let s := store_set (O := unit) empty_store "k" (AString "v") (mkTimestamp 10 0) 5 in
  store_get (pruneExpiredKeys s 16) "k" 16 = store_get s "k" 16 /\
  store_exists (pruneExpiredKeys s 16) "k" 16 = store_exists s "k" 16.
Proof.
  intros s. apply (prune_preserves_reads s 16 16 "k"); [|vm_compute; congruence].
  apply (do_write_wf empty_store (WSet "k" (AString "v") (mkTimestamp 10 0) 5)), empty_store_wf.
Defined.

(** Pruning forgets the timestamp of an expired register, so a write that the
    register had superseded is accepted when it arrives later. *)
Example prune_lets_older_write_back :
  let new := WSet "k" (AString "new") (mkTimestamp 100 0) 5 : write unit in
  let old := WSet "k" (AString "old") (mkTimestamp 50 0) 0 in
  store_get (run_writes empty_store [new; old]) "k" 200 = ANil /\
  store_get (do_write (pruneExpiredKeys (do_write empty_store new) 200) old) "k" 200 = AString "old".
Proof. vm_compute. done. Qed.

(** ** The shards together are one map *)

Section flat.
Context {O : Type}.

(** The whole cache as one map from keys to registers. *)
Definition flat (shs : list (storeShard O)) : gmap string (valWithTS O) :=
  foldr (fun sh m => cache sh ∪ m) ∅ shs.

Definition placed_from (n : nat) (shs : list (storeShard O)) : Prop :=
  forall i sh k, shs !! i = Some sh -> is_Some (cache sh !! k) -> shard_of k = (n + i)%nat.

Lemma placed_from_tail n sh shs : placed_from n (sh :: shs) -> placed_from (S n) shs.
Proof. intros Hp i sh' k Hi Hk. rewrite (Hp (S i) sh' k Hi Hk). lia. Qed.

Lemma flat_lookup n shs k :
  placed_from n shs ->
  flat shs !! k = (if decide (n <= shard_of k)%nat then shs !! (shard_of k - n)%nat else None)
                  ≫= fun sh => cache sh !! k.
Proof.
  revert n. induction shs as [|sh shs IH]; intros n Hp; simpl.
  { rewrite lookup_empty. by case_decide. }
  rewrite lookup_union, (IH (S n)) by (by eapply placed_from_tail).
  destruct (cache sh !! k) as [v|] eqn:E.
  - assert (shard_of k = (n + 0)%nat) as Hk by (apply (Hp 0%nat sh); eauto).
    rewrite Hk. replace (n + 0)%nat with n by lia. rewrite decide_False by lia.
    rewrite decide_True, Nat.sub_diag by lia. simpl. by rewrite E.
  - rewrite option_union_left_id. destruct (decide (n <= shard_of k)%nat) as [Hn|Hn].
    + destruct (decide (S n <= shard_of k)%nat) as [Hs|Hs].
      * replace (shard_of k - n)%nat with (S (shard_of k - S n)) by lia. done.
      * replace (shard_of k - n)%nat with 0%nat by lia. simpl. by rewrite E.
    + by rewrite decide_False by lia.
Qed.

Lemma flat_disjoint n sh shs : placed_from n (sh :: shs) -> cache sh ##ₘ flat shs.
Proof.
  intros Hp. apply map_disjoint_spec. intros k v v' Hk Hf.
  assert (shard_of k = (n + 0)%nat) as E by (apply (Hp 0%nat sh); eauto).
  rewrite (flat_lookup (S n)) in Hf by (by eapply placed_from_tail).
  by rewrite decide_False in Hf by lia.
Qed.

Lemma flat_size n shs (acc : Z) :
  placed_from n shs ->
  foldl (fun total sh => total + Z.of_nat (size (cache sh))) acc shs = acc + Z.of_nat (size (flat shs)).
Proof.
  revert n acc. induction shs as [|sh shs IH]; intros n acc Hp; simpl.
  { rewrite map_size_empty. lia. }
  rewrite (IH (S n)) by (by eapply placed_from_tail).
  rewrite map_size_disj_union by (by eapply flat_disjoint). lia.
Qed.
End flat.

(** ** Every operation of the store *)

Section ops.
Context {O : Type} `{RangeOrder}.
Implicit Types s : store O.

(** An operation that changes the store, as the API, a peer or the janitor
    calls it. *)
Inductive sop :=
| SWrite (w : write O)
| SPrune (now : Z)
| SPruneWindows (now : Z)
| SIncrement (key nodeID : string) (delta : float64)
| SSetNodeCount (key nodeID : string) (val : float64)
| SMetric (key nodeID : string) (delta : float64)
| SWindow (key : string) (ts window now : Z)
| SAddTimestamp (key : string) (ts : Z)
| SPeerSeq (nodeID : string) (seq : Z).

Definition do_sop s (o : sop) : store O :=
  match o with
  | SWrite w => do_write s w
  | SPrune now => pruneExpiredKeys s now
  | SPruneWindows now => pruneStaleWindows s now
  | SIncrement key nodeID delta => (increment s key nodeID delta).2
  | SSetNodeCount key nodeID val => setNodeCount s key nodeID val
  | SMetric key nodeID delta => (incrementMetric s key nodeID delta).2
  | SWindow key ts window now => (incrementSlidingWindow s key ts window now).2
  | SAddTimestamp key ts => addWindowTimestamp s key ts
  | SPeerSeq nodeID seq => updatePeerSeq s nodeID seq
  end.

Definition run_sops s (os : list sop) : store O := foldl do_sop s os.

(** The same on one map of registers: a write merges with the register of its
    key, a prune removes the expired registers, nothing else touches them. *)
Definition map_sop (m : gmap string (valWithTS O)) (o : sop) : gmap string (valWithTS O) :=
  match o with
  | SWrite w => partial_alter (fun r => merge r (w_val w)) (w_key w) m
  | SPrune now => filter (fun kv => expired now kv.2 = false) m
  | _ => m
  end.

(** The caches of all shards. *)
Definition caches s : list (gmap string (valWithTS O)) := cache <$> shards s.

Lemma caches_put s key sh :
  store_wf s -> cache sh = cache (getShard s key) -> caches (putShard s key sh) = caches s.
Proof.
  intros Hwf Hc. unfold caches, putShard. simpl. rewrite list_fmap_insert, Hc.
  apply list_insert_id. by rewrite list_lookup_fmap, (getShard_lookup s key Hwf).
Qed.

Lemma prune_windows_cache now l (sh : storeShard O) : cache (foldl (prune_window now) sh l) = cache sh.
Proof.
  revert sh. induction l as [|[k w] l IH]; intros sh; [done|]. cbn [foldl]. rewrite IH. unfold prune_window.
  by destruct (last _); case_ifs.
Qed.

Lemma caches_prune_windows s now : caches (pruneStaleWindows s now) = caches s.
Proof.
  unfold caches, pruneStaleWindows. simpl. rewrite <- list_fmap_compose. apply list_fmap_ext.
  intros i sh _. apply prune_windows_cache.
Qed.

(** Only writes and the pruning of registers touch the caches. *)
Lemma do_sop_caches s o :
  store_wf s -> caches (do_sop s o) = caches s \/ (exists w, o = SWrite w) \/ (exists now, o = SPrune now).
Proof.
  intros Hwf. destruct o; try (right; eauto; fail); left; simpl;
    unfold increment, setNodeCount, incrementMetric, incrementSlidingWindow, addWindowTimestamp, updatePeerSeq;
    try apply caches_prune_windows; simpl.
  all: try (by apply caches_put).
  - case_ifs; [by apply caches_put|done].
  - destruct (count_window _ _) as [c i]. by apply caches_put.
  - destruct (window_index _ _); [by apply caches_put|done].
  - case_ifs; [by apply caches_put|done].
Qed.

Lemma caches_reg s s' key : caches s = caches s' -> reg s key = reg s' key.
Proof.
  intros Hc. apply (f_equal (.!! shard_of key)) in Hc. unfold caches in Hc. rewrite !list_lookup_fmap in Hc.
  unfold reg, getShard. destruct (shards s !! _), (shards s' !! _); simplify_eq/=; congruence.
Qed.

Lemma caches_placed s s' : caches s = caches s' -> placed s -> placed s'.
Proof.
  intros Hc Hp i sh k Hsh Hk. apply (f_equal (.!! i)) in Hc. unfold caches in Hc.
  rewrite !list_lookup_fmap, Hsh in Hc. destruct (shards s !! i) as [sh'|] eqn:E; simplify_eq/=.
  apply (Hp i sh' k E). by rewrite Hc.
Qed.

Lemma caches_wf s s' : caches s = caches s' -> store_wf s -> store_wf s'.
Proof. intros Hc%(f_equal length). unfold caches, store_wf in *. rewrite !length_fmap in Hc. congruence. Qed.

Lemma prune_placed s now : placed s -> placed (pruneExpiredKeys s now).
Proof.
  intros Hp i sh k Hsh Hk. unfold pruneExpiredKeys in Hsh. simpl in Hsh. rewrite list_lookup_fmap in Hsh.
  destruct (shards s !! i) as [sh'|] eqn:E; simplify_eq/=. apply (Hp i sh' k E).
  rewrite prune_shard_cache in Hk. destruct Hk as [v Hv]. apply map_lookup_filter_Some in Hv as [Hv _]. by exists v.
Qed.

Lemma do_sop_wf s o : store_wf s -> store_wf (do_sop s o).
Proof.
  intros Hwf. destruct (do_sop_caches s o Hwf) as [Hc|[[w ->]|[now ->]]].
  - by apply (caches_wf s).
  - by apply do_write_wf.
  - unfold store_wf, do_sop, pruneExpiredKeys. simpl. by rewrite length_fmap.
Qed.

Lemma do_sop_placed s o : store_wf s -> placed s -> placed (do_sop s o).
Proof.
  intros Hwf. destruct (do_sop_caches s o Hwf) as [Hc|[[w ->]|[now ->]]].
  - by apply caches_placed.
  - by apply do_write_placed.
  - by apply prune_placed.
Qed.

Lemma flat_reg s key : store_wf s -> placed s -> flat (shards s) !! key = reg s key.
Proof.
  intros Hwf Hp. rewrite (flat_lookup 0) by exact Hp. rewrite decide_True, Nat.sub_0_r by lia.
  by rewrite (getShard_lookup s key Hwf).
Qed.

Lemma run_sops_wf s os : store_wf s -> store_wf (run_sops s os).
Proof. revert s. induction os as [|o os IH]; simpl; auto using do_sop_wf. Qed.

(** What an operation does to the register of a key. *)
Lemma reg_do_sop s o key :
  store_wf s ->
  reg (do_sop s o) key =
    match o with
    | SWrite w => if decide (w_key w = key) then merge (reg s key) (w_val w) else reg s key
    | SPrune now => reg s key ≫= fun v => if expired now v then None else Some v
    | _ => reg s key
    end.
Proof.
  intros Hwf. destruct (do_sop_caches s o Hwf) as [Hc|[[w ->]|[now ->]]]; simpl.
  - destruct o; try by apply caches_reg.
    + simpl. case_decide as E; [subst; by apply reg_do_write_same|by rewrite reg_do_write_other by auto].
    + simpl. rewrite reg_prune by done. by destruct (reg s key).
  - case_decide as E; [subst; by apply reg_do_write_same|by rewrite reg_do_write_other by auto].
  - rewrite reg_prune by done. by destruct (reg s key).
Qed.

(** One operation on the shards is the operation on the map. *)
Lemma flat_do_sop s o : store_wf s -> placed s -> flat (shards (do_sop s o)) = map_sop (flat (shards s)) o.
Proof.
  intros Hwf Hp. apply map_eq. intros k.
  rewrite flat_reg, reg_do_sop by auto using do_sop_wf, do_sop_placed.
  destruct o as [w|now| | | | | | |]; simpl; try (by rewrite flat_reg).
  - rewrite lookup_partial_alter, !flat_reg by done. case_decide; by subst.
  - rewrite map_lookup_filter, flat_reg by done. destruct (reg s k) as [v|]; [|done]. simpl. by destruct (expired now v).
Qed.

(** The tombstone of [key] stays while no newer write for the key arrives and
    no prune runs after its grace time. *)
Lemma tombstone_stays s key v os :
  store_wf s -> reg s key = Some v ->
  (forall w, SWrite w ∈ os -> w_key w = key -> GreaterOrEqual (v_Timestamp v) (w_ts w) = true) ->
  (forall now, SPrune now ∈ os -> expired now v = false) ->
  reg (run_sops s os) key = Some v.
Proof.
  revert s. induction os as [|o os IH]; intros s Hwf Hr Hold Hp; simpl; [done|].
  apply IH; [by apply do_sop_wf| |set_solver|set_solver].
  rewrite reg_do_sop, Hr by done. destruct o as [w|now| | | | | | |]; try done.
  - case_decide as E; [|done]. simpl. pose proof (Hold w ltac:(set_solver) E) as Hg. unfold w_ts in Hg. by rewrite Hg.
  - simpl. by rewrite (Hp now ltac:(set_solver)).
Qed.

(** Without writes for the key a hidden register stays hidden. *)
Lemma hidden_stays s key now os :
  store_wf s -> match reg s key with Some v => v_Deleted v = true | None => True end ->
  (forall w, SWrite w ∈ os -> w_key w <> key) ->
  visible now (reg (run_sops s os) key) = None.
Proof.
  revert s. induction os as [|o os IH]; intros s Hwf Hr Hn; simpl.
  - unfold visible. destruct (reg s key) as [v|]; [|done]. by rewrite Hr.
  - apply IH; [by apply do_sop_wf| |set_solver]. rewrite reg_do_sop by done.
    destruct o as [w|t| | | | | | |]; try done.
    + case_decide as E; [|done]. by destruct (Hn w ltac:(set_solver)).
    + destruct (reg s key) as [v|]; [|done]. simpl. by case_ifs.
Qed.
End ops.

Arguments sop : clear implicits.

(** C26: A delete newer than the register hides the key while its tombstone is
    kept: whatever operations run on the store afterwards, in any order, sets and
    deletes included, as long as no write for this key is newer than the delete
    and the janitor prunes at no time past the grace hour after the delete's
    timestamp, [get] returns nothing and [exists] is false at any time; and after
    the grace hour the key stays hidden, pruned or not, as long as no write for it
    arrives. *)
Theorem delete_hides_older_writes {O} {RO : RangeOrder} (s : store O) key ts (os later : list (sop O)) now :
  store_wf s -> newer s (WDelete key ts) -> is_int64 (Physical ts + Hour) ->
  (forall w, SWrite w ∈ os -> w_key w = key -> GreaterOrEqual ts (w_ts w) = true) ->
  (forall t, SPrune t ∈ os -> t <= Physical ts + Hour) ->
  (forall w, SWrite w ∈ later -> w_key w <> key) ->
  let s' := run_sops (store_delete s key ts) (os ++ later) in
  store_get s' key now = ANil /\ store_exists s' key now = false.
Proof.
  intros Hwf Hn Hi Hold Hp Hl s'.
  assert (Hwf' : store_wf (store_delete s key ts)) by (by apply (do_write_wf s (WDelete key ts))).
  assert (Hr : reg (run_sops (store_delete s key ts) os) key = Some (w_val (WDelete key ts))).
  { apply tombstone_stays; [done|by apply reg_delete_newer|done|].
    intros t Ht%Hp. unfold expired. simpl. rewrite int64_id by done. lia. }
  rewrite store_get_visible, store_exists_visible. unfold s', run_sops. rewrite foldl_app.
  fold (run_sops (store_delete s key ts) os). fold (run_sops (run_sops (store_delete s key ts) os) later).
  rewrite hidden_stays; [done|by apply run_sops_wf|by rewrite Hr|done].
Qed.

Lemma delete_hides_older_writes_witness :
  let s0 := store_set (O := unit) empty_store "k" (AString "v") (mkTimestamp 10 0) 0 in
  let s' := run_sops (store_delete s0 "k" (mkTimestamp 20 0))
    ([SPrune (20 + Hour); SWrite (WSet "k" (AString "late") (mkTimestamp 20 0) 0)] ++ [SPrune (21 + Hour)]) in
  store_get s0 "k" 15 = AString "v" /\ (store_get s' "k" 30 = ANil /\ store_exists s' "k" 30 = false).
Proof.
  split; [vm_compute; done|].
  apply (delete_hides_older_writes (store_set (O := unit) empty_store "k" (AString "v") (mkTimestamp 10 0) 0)).
  - apply (do_write_wf empty_store (WSet "k" (AString "v") (mkTimestamp 10 0) 0)), empty_store_wf.
  - vm_compute. done.
  - vm_compute. split; congruence.
  - intros w [[=]|[= ->]%list_elem_of_singleton]%elem_of_cons _. vm_compute. done.
  - intros t [[= ->]|[=]%list_elem_of_singleton]%elem_of_cons. done.
  - intros w [=]%list_elem_of_singleton.
Defined.

(** C28: The shards implement one map: in a store whose shards hold only keys
    that hash to them (the empty store does, and every operation preserves it),
    any run of store operations acts on the registers as the run on one flat map
    does, a write merging with the register of its own key only, a prune removing
    exactly the expired registers, counters, metrics, windows and positions
    touching none; [get] and [exists] answer from the flat map, and [CacheSize] is
    its size. *)
Theorem sharding_refines_map {O} {RO : RangeOrder} (s : store O) (os : list (sop O)) :
  store_wf s -> placed s ->
  let s' := run_sops s os in
  let m := foldl map_sop (flat (shards s)) os in
  placed s' /\ flat (shards s') = m /\ CacheSize s' = Z.of_nat (size m) /\
  forall key now, store_get s' key now = default ANil (visible now (m !! key)) /\
                  store_exists s' key now = bool_decide (is_Some (visible now (m !! key))).
Proof.
  revert s. induction os as [|o os IH]; intros s Hwf Hp.
  - cbn [run_sops foldl]. cbv zeta. split_and!; [done|done| |].
    + unfold CacheSize. by rewrite (flat_size 0) by exact Hp.
    + intros key now. by rewrite flat_reg, <- store_get_visible, <- store_exists_visible.
  - cbn [foldl]. rewrite <- flat_do_sop by done. apply IH; [by apply do_sop_wf|by apply do_sop_placed].
Qed.

Lemma empty_store_placed {O} : placed (empty_store (O := O)).
Proof.
  intros i sh k Hsh. apply lookup_replicate in Hsh as [-> _]. simpl. intros [x Hx]. by rewrite lookup_empty in Hx.
Qed.

Definition sample_sops : list (sop unit) :=
  (SWrite <$> conv_writes) ++ [SIncrement "hits" "n1" (float64_of_Z 3); SPrune (2001 + Hour)].

Lemma sharding_refines_map_witness :
  let s' := run_sops empty_store sample_sops in
  placed s' /\ CacheSize s' = 1 /\ store_get s' "k" 3000 = AString "new".
Proof.
  destruct (sharding_refines_map empty_store sample_sops empty_store_wf empty_store_placed) as (Hp & _ & Hc & Hr).
  split_and!; [exact Hp|rewrite Hc; by vm_compute|]. rewrite (proj1 (Hr "k" 3000)). by vm_compute.
Defined.
