(* ===== verification/Counters.v ===== *)
(** * Distributed counters (src/store.go: increment, setNodeCount, ...)

    The abstract counter is a map from node to that node's partial count; the
    store keeps the partial counts and their running sum as floats.
    [counter_rep] relates the two; it holds as long as the numbers involved are
    integers below 2^53, where binary64 arithmetic is exact. *)

From S2P Require Import Prelude Float64 Hlc Types Store StoreProofs.

#[local] Open Scope Z_scope.

(** ** Abstract counters *)

Definition csum (m : gmap string Z) : Z := map_fold (fun _ v acc => v + acc) 0 m.
Definition cget (m : gmap string Z) (n : string) : Z := default 0 (m !! n).
(** A local increment, and the merge of a received absolute partial count. *)
Definition cincr (m : gmap string Z) (n : string) (d : Z) : gmap string Z := <[n := cget m n + d]> m.
Definition cmerge (m : gmap string Z) (u : string * Z) : gmap string Z :=
  if cget m u.1 <? u.2 then <[u.1 := u.2]> m else m.

Lemma csum_empty : csum ∅ = 0.
Proof. done. Qed.

Lemma csum_insert_new m n v : m !! n = None -> csum (<[n := v]> m) = v + csum m.
Proof. intros H. unfold csum. rewrite map_fold_insert_L; [done|lia|done]. Qed.

Lemma csum_insert m n v : csum (<[n := v]> m) = csum m - cget m n + v.
Proof.
  unfold cget. destruct (m !! n) as [x|] eqn:E; simpl.
  - rewrite <- (insert_id m n x) at 2 by done. rewrite <- (insert_delete_eq m n x).
    rewrite <- (insert_delete_eq m n v).
    rewrite !csum_insert_new by apply lookup_delete_eq. lia.
  - rewrite csum_insert_new by done. lia.
Qed.

Definition nonneg (m : gmap string Z) : Prop := forall n v, m !! n = Some v -> 0 <= v.

Lemma csum_nonneg m : nonneg m -> 0 <= csum m.
Proof.
  induction m as [|n v m Hn IH] using map_ind; intros H; [done|].
  rewrite csum_insert_new by done. pose proof (H n v (lookup_insert_eq _ _ _)).
  assert (nonneg m); [|specialize (IH H1); lia].
  intros k x Hk. apply (H k). rewrite lookup_insert_ne; [done|]. intros ->. congruence.
Qed.

Lemma csum_ge m n v : nonneg m -> m !! n = Some v -> v <= csum m.
Proof.
  intros Hm Hv. rewrite <- (insert_id m n v) by done. rewrite <- insert_delete_eq.
  rewrite csum_insert_new by apply lookup_delete_eq.
  assert (nonneg (delete n m)) as H%csum_nonneg; [|lia].
  intros k x Hk. apply lookup_delete_Some in Hk as [_ Hk]. eauto.
Qed.

Lemma cget_bounds m n : nonneg m -> 0 <= cget m n <= csum m.
Proof.
  intros Hm. unfold cget. destruct (m !! n) as [v|] eqn:E; simpl.
  - split; [eauto|by eapply csum_ge].
  - split; [done|by apply csum_nonneg].
Qed.

Lemma cmerge_nonneg m u : nonneg m -> 0 <= u.2 -> nonneg (cmerge m u).
Proof.
  unfold cmerge. intros Hm Hu. case_ifs; [|done]. intros n v.
  rewrite lookup_insert. case_decide; [|apply Hm]. intros [= <-]. done.
Qed.

Lemma cmerge_csum m u : csum m <= csum (cmerge m u).
Proof. unfold cmerge. case_ifs; [|lia]. rewrite csum_insert. lia. Qed.

Lemma foldl_cmerge_csum us m : csum m <= csum (foldl cmerge m us).
Proof.
  revert m. induction us as [|u us IH]; intros m; simpl; [lia|].
  pose proof (cmerge_csum m u). specialize (IH (cmerge m u)). lia.
Qed.

(** Merging leaves a node's entry alone or raises it to the greatest count
    received for it. *)
Lemma foldl_cmerge_lookup us m n :
  let r := foldl cmerge m us in
  (r !! n = m !! n /\ forall v, (n, v) ∈ us -> v <= cget m n) \/
  (exists x, r !! n = Some x /\ cget m n < x /\ (n, x) ∈ us /\ forall v, (n, v) ∈ us -> v <= x).
Proof.
  cbv zeta. induction us as [|[k w] us IH] using rev_ind; simpl.
  { left. split; [done|]. by intros v ?%elem_of_nil. }
  rewrite foldl_app. simpl. set (r := foldl cmerge m us) in *.
  change (cmerge r (k, w)) with (if cget r k <? w then <[k := w]> r else r).
  destruct (decide (k = n)) as [->|Hne].
  - destruct IH as [[Hr Hv]|(x & Hr & Hx & Hin & Hv)].
    + assert (cget r n = cget m n) as E by (unfold cget; by rewrite Hr).
      rewrite E. destruct (cget m n <? w) eqn:Ew.
      * right. exists w. rewrite lookup_insert_eq. split_and!; [done|lia|set_solver|].
        intros v [Hin|[= ->]%list_elem_of_singleton]%elem_of_app; [|lia]. specialize (Hv v Hin). lia.
      * left. split; [done|]. intros v [Hin|[= ->]%list_elem_of_singleton]%elem_of_app; [|lia]. auto.
    + assert (cget r n = x) as E by (unfold cget; by rewrite Hr).
      rewrite E. destruct (x <? w) eqn:Ew; right.
      * exists w. rewrite lookup_insert_eq. split_and!; [done|lia|set_solver|].
        intros v [Hi|[= ->]%list_elem_of_singleton]%elem_of_app; [|lia]. specialize (Hv v Hi). lia.
      * exists x. split_and!; [done|lia|set_solver|].
        intros v [Hi|[= ->]%list_elem_of_singleton]%elem_of_app; [|lia]. auto.
  - assert ((if cget r k <? w then <[k:=w]> r else r) !! n = r !! n) as ->.
    { case_ifs; [by rewrite lookup_insert_ne|done]. }
    destruct IH as [[Hr Hv]|(x & Hr & Hx & Hin & Hv)].
    + left. split; [done|]. intros v [Hin|[= -> ->]%list_elem_of_singleton]%elem_of_app; [auto|done].
    + right. exists x. split_and!; [done|lia|set_solver|].
      intros v [Hi|[= -> ->]%list_elem_of_singleton]%elem_of_app; [auto|done].
Qed.

Lemma foldl_cmerge_same us us' m :
  (forall u, u ∈ us <-> u ∈ us') -> foldl cmerge m us = foldl cmerge m us'.
Proof.
  intros Hs. apply map_eq. intros n.
  destruct (foldl_cmerge_lookup us m n) as [[-> Hv]|(x & -> & Hx & Hin & Hv)],
    (foldl_cmerge_lookup us' m n) as [[-> Hv']|(x' & -> & Hx' & Hin' & Hv')]; [done|..].
  - apply Hs, Hv in Hin'. lia.
  - apply Hs, Hv' in Hin. lia.
  - apply Hs, Hv in Hin'. apply Hs, Hv' in Hin. f_equal. lia.
Qed.

(** Merging a count that raises the sum stays exact when the final sum does. *)
Lemma merge_exact m n v us :
  nonneg m -> 0 <= v -> csum (foldl cmerge (cmerge m (n, v)) us) < 2 ^ 53 -> cget m n < v ->
  exact53 v /\ exact53 (v - cget m n) /\ exact53 (csum m - cget m n + v).
Proof.
  intros Hm Hv Hlt Hgt. assert (Hm' : nonneg (cmerge m (n, v))) by (by apply cmerge_nonneg).
  pose proof (foldl_cmerge_csum us (cmerge m (n, v))). pose proof (cget_bounds m n Hm).
  assert (csum m - cget m n + v < 2 ^ 53).
  { rewrite <- csum_insert. unfold cmerge in *. simpl in *.
    replace (cget m n <? v) with true in * by lia. lia. }
  unfold exact53. lia.
Qed.

(** ** The store represents an abstract counter *)

Lemma countKey_inj key n n' : countKey key n = countKey key n' -> n = n'.
Proof.
  unfold countKey. intros H.
  apply (inj (String.append "c:")) in H. apply (inj (String.append key)) in H.
  by apply (inj (String.append ":")) in H.
Qed.

(** A key without a colon is determined by its counter names. *)
Lemma countKey_key key key' n n' : no_colon key -> no_colon key' -> countKey key n = countKey key' n' -> key = key'.
Proof.
  intros H H' E. apply (inj (String.append "c:")) in E.
  assert (Hs : forall k m, no_colon k -> split_colon (k +:+ ":" +:+ m) = k :: split_colon m)
    by (intros; by apply split_colon_cut).
  apply (f_equal split_colon) in E. rewrite !Hs in E by done. congruence.
Qed.

Section counters.
Context {O : Type}.
Implicit Types s : store O.

Record counter_rep s (key : string) (m : gmap string Z) : Prop := {
  cr_wf : store_wf s;
  cr_counts n : counts (getShard s key) !! countKey key n = f_of_int <$> m !! n;
  cr_agg : fget (aggregateCounts (getShard s key)) key = f_of_int (csum m);
  cr_sum : exact53 (csum m);
  cr_each n : exact53 (cget m n)
}.

Lemma counter_rep_empty key : counter_rep empty_store key ∅.
Proof.
  split; rewrite ?getShard_empty; done.
Qed.

Lemma node_count s key m n :
  counter_rep s key m -> fget (counts (getShard s key)) (countKey key n) = f_of_int (cget m n).
Proof.
  intros HR. unfold fget, cget. rewrite (cr_counts _ _ _ HR n). by destruct (m !! n).
Qed.

(** Replacing the partial count of one node and the sum, as both operations do. *)
Lemma counter_rep_update s key m n x agg sh :
  counter_rep s key m -> exact53 x -> exact53 (csum m - cget m n + x) ->
  sh = mark_dirty (countKey key n) (with_aggregate (<[key := agg]>)
         (with_counts (<[countKey key n := f_of_int x]>) (getShard s key))) ->
  agg = f_of_int (csum m - cget m n + x) ->
  counter_rep (putShard s key sh) key (<[n := x]> m).
Proof.
  intros HR Hx Hs -> ->. destruct HR as [Hwf Hc Ha Hsum Heach].
  split; rewrite ?csum_insert; auto with go.
  - intros k. rewrite getShard_putShard, decide_True by done. simpl.
    rewrite !lookup_insert. destruct (decide (n = k)) as [->|Hne].
    + by rewrite decide_True.
    + case_decide as E; [by apply countKey_inj in E|]. by rewrite Hc.
  - rewrite getShard_putShard, decide_True by done. unfold fget. cbn [aggregateCounts mark_dirty with_aggregate with_counts]. by rewrite lookup_insert_eq.
  - intros k. unfold cget. rewrite lookup_insert. case_decide; [done|apply Heach].
Qed.

Lemma increment_rep s key m n d :
  counter_rep s key m -> exact53 d -> exact53 (cget m n + d) -> exact53 (csum m + d) ->
  let '(v, s') := increment s key n (float64_of_Z d) in
  v = f_of_int (csum m + d) /\ counter_rep s' key (cincr m n d).
Proof.
  intros HR Hd Hn Hs. rewrite float64_of_Z_exact by done. unfold increment.
  assert (E : fadd (f_of_int (csum m)) (f_of_int d) = f_of_int (csum m + d))
    by (apply fadd_int; auto; apply HR).
  split.
  - unfold fget at 1. simpl. unfold fincr. rewrite lookup_insert_eq. simpl.
    rewrite (cr_agg _ _ _ HR). exact E.
  - apply (counter_rep_update s key m n _ (f_of_int (csum m + d)) _ HR Hn);
      [by replace (csum m - cget m n + (cget m n + d)) with (csum m + d) by lia| |f_equal; lia].
    unfold mark_dirty, with_aggregate, with_counts, fincr. simpl.
    rewrite (cr_agg _ _ _ HR), (node_count s key m n HR), E.
    rewrite fadd_int by (auto; apply HR). done.
Qed.

Lemma setNodeCount_rep s key m n v :
  counter_rep s key m -> exact53 v ->
  (cget m n < v -> exact53 (v - cget m n) /\ exact53 (csum m - cget m n + v)) ->
  counter_rep (setNodeCount s key n (f_of_int v)) key (cmerge m (n, v)).
Proof.
  intros HR Hv Hb. unfold setNodeCount, cmerge. simpl.
  rewrite (node_count s key m n HR), fgtb_int by (auto; apply HR).
  destruct (cget m n <? v) eqn:E; [|done]. destruct Hb as [H1 H2]; [lia|].
  apply (counter_rep_update s key m n v (f_of_int (csum m - cget m n + v)) _ HR Hv H2); [|done].
  unfold mark_dirty, with_aggregate, with_counts, fincr. simpl.
  rewrite (cr_agg _ _ _ HR), fsub_int by (auto; apply HR).
  rewrite fadd_int; [do 3 f_equal; lia|apply HR|done|].
  by replace (csum m + (v - cget m n)) with (csum m - cget m n + v) by lia.
Qed.

(** The representation depends on the counts and the sum of the key only. *)
Lemma counter_rep_frame s s' key m :
  counter_rep s key m -> store_wf s' ->
  (forall n, counts (getShard s' key) !! countKey key n = counts (getShard s key) !! countKey key n) ->
  aggregateCounts (getShard s' key) !! key = aggregateCounts (getShard s key) !! key ->
  counter_rep s' key m.
Proof.
  intros [Hwf Hc Ha Hs He] Hwf' Hc' Ha'. split; auto.
  - intros n. by rewrite Hc'.
  - unfold fget in *. by rewrite Ha'.
Qed.

(** A run of received partial counts. *)
Definition run_counts s (key : string) (us : list (string * Z)) : store O :=
  foldl (fun s u => setNodeCount s key u.1 (float64_of_Z u.2)) s us.

Lemma run_counts_rep s key m us :
  counter_rep s key m -> nonneg m -> Forall (fun u => 0 <= u.2) us ->
  csum (foldl cmerge m us) < 2 ^ 53 ->
  counter_rep (run_counts s key us) key (foldl cmerge m us).
Proof.
  intros HR Hm Hus. revert s m HR Hm.
  induction Hus as [|[n v] us Hv _ IH]; intros s m HR Hm Hlt; simpl in *; [done|].
  assert (Hm' : nonneg (cmerge m (n, v))) by (by apply cmerge_nonneg).
  apply IH; [|done|done]. pose proof (merge_exact m n v us Hm Hv Hlt) as He.
  assert (exact53 v).
  { destruct (Z.lt_ge_cases (cget m n) v); [by apply He|].
    pose proof (cr_each _ _ _ HR n). unfold exact53 in *. lia. }
  rewrite float64_of_Z_exact by done. apply setNodeCount_rep; [done|done|]. intros. by apply He.
Qed.
End counters.

(** ** Theorems *)

(** C22: A local increment adds its delta to the node's own partial count and
    to the aggregate and returns the new aggregate, exactly, for integer
    amounts below 2^53; the aggregate stays the sum of the partial counts. *)
Theorem increment_refines {O} (s : store O) key m n d :
  counter_rep s key m -> exact53 d -> exact53 (cget m n + d) -> exact53 (csum m + d) ->
  let '(v, s') := increment s key n (float64_of_Z d) in
  int64_of_float v = csum m + d /\ counter_rep s' key (cincr m n d) /\
  getNodeCount s' key n = f_of_int (cget m n + d) /\
  getAggregateCount s' key = f_of_int (csum (cincr m n d)).
Proof.
  intros HR Hd Hn Hs. pose proof (increment_rep s key m n d HR Hd Hn Hs) as H.
  destruct (increment s key n (float64_of_Z d)) as [v s']. destruct H as [-> HR'].
  rewrite int64_of_float_int by done. split_and!; auto.
  - unfold getNodeCount. rewrite (node_count _ _ _ n HR'). unfold cincr, cget at 1.
    by rewrite lookup_insert_eq.
  - apply HR'.
Qed.

Lemma increment_refines_witness :
  let '(v, s') := increment (O := unit) empty_store "hits" "n1" (float64_of_Z 6) in
  int64_of_float v = csum ∅ + 6 /\ counter_rep s' "hits" (cincr ∅ "n1" 6) /\
  getNodeCount s' "hits" "n1" = f_of_int (cget ∅ "n1" + 6) /\
  getAggregateCount s' "hits" = f_of_int (csum (cincr ∅ "n1" 6)).
Proof.
  apply (increment_refines empty_store "hits" ∅ "n1" 6); [apply counter_rep_empty|..];
  vm_compute; split; congruence.
Defined.

(** C21: Strong eventual consistency of counters: two replicas in the same
    state that receive the same set of absolute partial counts (non-negative,
    total below 2^53) in any order and with any repetitions end with the same
    aggregate, which is the sum over the nodes of the greatest count received
    from (or already held for) each. *)
Theorem counter_convergence {O} (s : store O) key m us us' :
  counter_rep s key m -> nonneg m -> Forall (fun u => 0 <= u.2) us ->
  (forall u, u ∈ us <-> u ∈ us') -> csum (foldl cmerge m us) < 2 ^ 53 ->
  int64_of_float (getAggregateCount (run_counts s key us) key) = csum (foldl cmerge m us) /\
  getAggregateCount (run_counts s key us') key = getAggregateCount (run_counts s key us) key /\
  (forall n, getNodeCount (run_counts s key us') key n = getNodeCount (run_counts s key us) key n).
Proof.
  intros HR Hm Hus Hsame Hlt.
  assert (HR1 := run_counts_rep s key m us HR Hm Hus Hlt).
  assert (HR2 : counter_rep (run_counts s key us') key (foldl cmerge m us)).
  { rewrite (foldl_cmerge_same us us' m Hsame) in Hlt |- *. apply run_counts_rep; auto.
    rewrite Forall_forall in Hus |- *. intros u Hu. by apply Hus, Hsame. }
  unfold getAggregateCount, getNodeCount. split_and!.
  - rewrite (cr_agg _ _ _ HR1). apply int64_of_float_int, HR1.
  - by rewrite (cr_agg _ _ _ HR1), (cr_agg _ _ _ HR2).
  - intros n. by rewrite (node_count _ _ _ n HR1), (node_count _ _ _ n HR2).
Qed.

Definition count_msgs : list (string * Z) := [("n1", 2); ("n2", 7); ("n1", 5)].

Lemma counter_convergence_witness :
  let s1 := run_counts (O := unit) empty_store "hits" count_msgs in
  let s2 := run_counts (O := unit) empty_store "hits" (reverse count_msgs ++ count_msgs) in
  int64_of_float (getAggregateCount s1 "hits") = csum (foldl cmerge ∅ count_msgs) /\
  getAggregateCount s2 "hits" = getAggregateCount s1 "hits" /\
  (forall n, getNodeCount s2 "hits" n = getNodeCount s1 "hits" n).
Proof.
  apply (counter_convergence empty_store "hits" ∅ count_msgs (reverse count_msgs ++ count_msgs)).
  - apply counter_rep_empty.
  - intros n v H. by rewrite lookup_empty in H.
  - repeat constructor; simpl; lia.
  - intros u. rewrite elem_of_app, elem_of_reverse. tauto.
  - vm_compute. done.
Defined.

(** ** Limits *)

(** A decrement is never replicated: the receiver keeps the greater count it
    already has, so the replicas disagree for good. *)
Example decrement_is_not_replicated :
  let '(_, a1) := increment (O := unit) empty_store "k" "A" (float64_of_Z 5) in
  let '(_, a2) := increment a1 "k" "A" (float64_of_Z (-3)) in
  let b1 := setNodeCount (O := unit) empty_store "k" "A" (getNodeCount a1 "k" "A") in
  let b2 := setNodeCount b1 "k" "A" (getNodeCount a2 "k" "A") in
  int64_of_float (getAggregateCount a2 "k") = 2 /\ int64_of_float (getAggregateCount b2 "k") = 5.
Proof. vm_compute. done. Qed.

(** At 2^53 an increment by one is absorbed by rounding. *)
Example increment_absorbed_at_2_53 :
  let '(_, s1) := increment (O := unit) empty_store "k" "A" (float64_of_Z (2 ^ 53)) in
  let '(v, _) := increment s1 "k" "A" (float64_of_Z 1) in
  int64_of_float v = 2 ^ 53.
Proof. vm_compute. done. Qed.

(** The partial counts of key [a:b] at node [n] and of key [a] at node [b:n]
    have the same name. *)
Example counter_names_collide : countKey "a:b" "n" = countKey "a" "b:n".
Proof. done. Qed.
