(* ===== verification/Windows.v ===== *)
(** * Sliding windows: order, convergence and pruning

    A window is the list of event times of a key.  A remote event is inserted
    in sorted order without duplicates, so the windows of replicas are the
    sorted lists of their event times: they converge.  The local increment
    appends, counts and drops the expired prefix. *)

From S2P Require Import Prelude Float64 Hlc Types Store StoreProofs.

#[local] Open Scope Z_scope.

(** ** Sorted insertion *)

(** The window [addWindowTimestamp] leaves. *)
Definition insert_ts (ts : Z) (win : list Z) : list Z :=
  match window_index ts win with
  | None => win
  | Some idx => take idx win ++ [ts] ++ drop idx win
  end.

Lemma insert_ts_cons ts t win :
  insert_ts ts (t :: win) =
    if t =? ts then t :: win else if ts <? t then ts :: t :: win else t :: insert_ts ts win.
Proof.
  unfold insert_ts. simpl. case_ifs; [done|done|]. by destruct (window_index ts win).
Qed.

Lemma elem_of_insert_ts x ts win : x ∈ insert_ts ts win <-> x = ts \/ x ∈ win.
Proof.
  induction win as [|t win IH]; [unfold insert_ts; simpl; set_solver|].
  rewrite insert_ts_cons. destruct (Z.eqb_spec t ts) as [->|]; [set_solver|].
  case_ifs; set_solver.
Qed.

(** Both the strict order of the replicas' windows and the weak one of windows
    with local events are kept. *)
Lemma insert_ts_sorted (R : Z -> Z -> Prop) ts win :
  (forall x y, x < y -> R x y) -> (forall x y, R x y -> x <= y) ->
  StronglySorted R win -> StronglySorted R (insert_ts ts win).
Proof.
  intros Hlt Hle. induction 1 as [|t win Hs IH Hall]; [unfold insert_ts; simpl; repeat constructor|].
  rewrite insert_ts_cons. rewrite Forall_forall in Hall.
  destruct (Z.eqb_spec t ts) as [->|]; [constructor; [done|by apply Forall_forall]|].
  destruct (Z.ltb_spec ts t); repeat constructor; try done; rewrite ?Forall_forall; auto.
  - intros x Hx. apply Hlt. specialize (Hle _ _ (Hall x Hx)). lia.
  - intros x [->|Hx]%elem_of_insert_ts; [apply Hlt; lia|auto].
Qed.

Lemma StronglySorted_lt_ext (l l' : list Z) :
  StronglySorted Z.lt l -> StronglySorted Z.lt l' -> (forall x, x ∈ l <-> x ∈ l') -> l = l'.
Proof.
  intros H H' Hx. assert (AntiSymm eq Z.lt) by (intros x y; lia). apply (StronglySorted_unique Z.lt); [done|done|].
  assert (Hnd : forall l, StronglySorted Z.lt l -> NoDup l).
  { induction 1 as [|x k _ IH Hall]; constructor; [|done].
    rewrite Forall_forall in Hall. intros Hin. specialize (Hall x Hin). lia. }
  apply NoDup_Permutation; auto.
Qed.

(** ** The store *)

Section windows.
Context {O : Type}.
Implicit Types s : store O.

Definition win s (key : string) : list Z := default [] (windows (getShard s key) !! key).

Lemma addWindowTimestamp_wf s key ts : store_wf s -> store_wf (addWindowTimestamp s key ts).
Proof. intros. unfold addWindowTimestamp. destruct (window_index _ _); auto with go. Qed.

Lemma win_add s key ts key' :
  store_wf s ->
  win (addWindowTimestamp s key ts) key' = if decide (key = key') then insert_ts ts (win s key) else win s key'.
Proof.
  intros Hwf. unfold addWindowTimestamp. fold (win s key). unfold insert_ts.
  destruct (window_index ts (win s key)) as [idx|]; [|by case_decide; subst].
  unfold win at 1. case_decide; subst.
  - rewrite getShard_putShard, decide_True by done. simpl. by rewrite lookup_insert_eq.
  - rewrite (field_putShard windows); [done|done|]. intros _. simpl. by rewrite lookup_insert_ne.
Qed.

Definition run_window s (key : string) (tss : list Z) : store O :=
  foldl (fun s ts => addWindowTimestamp s key ts) s tss.

Lemma run_window_spec s key tss :
  store_wf s -> StronglySorted Z.lt (win s key) ->
  let s' := run_window s key tss in
  store_wf s' /\ StronglySorted Z.lt (win s' key) /\
  (forall x, x ∈ win s' key <-> x ∈ win s key \/ x ∈ tss).
Proof.
  intros Hwf Hs. revert s Hwf Hs. induction tss as [|ts tss IH]; intros s Hwf Hs; simpl; [set_solver|].
  pose proof (win_add s key ts key Hwf) as Hw. rewrite decide_True in Hw by done.
  destruct (IH (addWindowTimestamp s key ts)) as (H1 & H2 & H3).
  - by apply addWindowTimestamp_wf.
  - rewrite Hw. apply insert_ts_sorted; [done|lia|done].
  - split_and!; [done|done|]. intros x. rewrite H3, Hw, elem_of_insert_ts. set_solver.
Qed.

(** ** Counting *)

Lemma count_window_spec h l :
  Z.of_nat (length l) < 2 ^ 63 ->
  count_window h l = (Z.of_nat (length (filter (fun t => h <= t) l)), length (filter (fun t => t < h) l)).
Proof.
  intros Hl. unfold count_window.
  assert (Hgen : forall l c i, 0 <= c -> c + Z.of_nat (length l) < 2 ^ 63 ->
    foldl (fun '(count, i) t => if h <=? t then (int64 (count + 1), i) else (count, S i)) (c, i) l
    = (c + Z.of_nat (length (filter (fun t => h <= t) l)), (i + length (filter (fun t => (t < h)%Z) l))%nat)).
  { clear. induction l as [|t l IH]; intros c i Hc Hlt; simpl in *; [f_equal; lia|].
    rewrite !filter_cons. destruct (Z.leb_spec h t).
    - rewrite int64_id by (unfold is_int64; lia). rewrite IH by lia.
      rewrite decide_True, decide_False by lia. simpl. f_equal; lia.
    - rewrite IH by lia. rewrite decide_False, decide_True by lia. simpl. f_equal; lia. }
  rewrite Hgen by lia. done.
Qed.

(** In a sorted window the expired events are the prefix. *)
Lemma drop_expired h l :
  StronglySorted Z.le l ->
  drop (length (filter (fun t => t < h) l)) l = filter (fun t => h <= t) l.
Proof.
  induction 1 as [|t l Hs IH Hall]; [done|]. rewrite !filter_cons.
  destruct (decide (t < h)) as [Hlt|Hge].
  - rewrite decide_False by lia. done.
  - rewrite decide_True by lia. rewrite Forall_forall in Hall.
    assert (filter (fun x => x < h) l = []) as ->.
    { apply filter_none. intros x Hx. specialize (Hall x Hx). lia. }
    simpl. f_equal. symmetry. apply filter_all. intros x Hx. specialize (Hall x Hx). lia.
Qed.

Lemma win_increment s key ts window now :
  store_wf s -> Z.of_nat (length (win s key)) < 2 ^ 63 - 1 -> is_int64 (now - window) ->
  let '(c, s') := incrementSlidingWindow s key ts window now in
  let all := win s key ++ [ts] in
  c = Z.of_nat (length (filter (fun t => now - window <= t) all)) /\
  win s' key = drop (length (filter (fun t => t < now - window) all)) all /\
  (forall key', key' <> key -> win s' key' = win s key').
Proof.
  intros Hwf Hlen Hi. unfold incrementSlidingWindow. fold (win s key).
  rewrite int64_id by done.
  rewrite count_window_spec by (rewrite length_app; simpl; lia).
  set (all := win s key ++ [ts]).
  set (n := length (filter (fun t => t < now - window) all)). split_and!; [done|..].
  - assert ((if (0 <? n)%nat then drop n all else all) = drop n all) as -> by (by destruct n).
    unfold win. rewrite getShard_putShard, decide_True by done. simpl.
    case_decide as E; [by rewrite lookup_delete_eq, E|by rewrite lookup_insert_eq].
  - intros key' Hne. unfold win. rewrite (field_putShard windows); [done|done|]. intros _. simpl.
    case_decide; [by rewrite lookup_delete_ne|by rewrite lookup_insert_ne].
Qed.

(** ** Stale windows *)

(** The windows [pruneStaleWindows] deletes. *)
Definition stale_window (now : Z) (w : list Z) : bool :=
  match last w with None => true | Some newest => Hour <? int64 (now - newest) end.

Lemma win_prune `{RangeOrder} s now key :
  store_wf s ->
  win (pruneStaleWindows s now) key = if stale_window now (win s key) then [] else win s key.
Proof.
  intros Hwf. unfold win.
  assert (Hf : forall l (sh : storeShard O),
    windows (foldl (prune_window now) sh l) = delete_matching (stale_window now) (windows sh) l).
  { induction l as [|[k w] l IH]; intros sh; [done|]. cbn [foldl]. rewrite IH.
    unfold prune_window, stale_window, delete_matching. simpl. destruct (last w); by case_ifs. }
  assert (windows (getShard (pruneStaleWindows s now) key)
          = delete_matching (stale_window now) (windows (getShard s key)) (range (windows (getShard s key)))) as ->.
  { unfold getShard at 1, pruneStaleWindows. cbn [shards].
    rewrite list_lookup_fmap, (getShard_lookup s key Hwf). simpl. apply Hf. }
  rewrite delete_matching_range, map_lookup_filter.
  destruct (windows (getShard s key) !! key) as [w|]; simpl; [|done].
  by destruct (stale_window now w).
Qed.

Lemma pruneStaleWindows_wf `{RangeOrder} s now : store_wf s -> store_wf (pruneStaleWindows s now).
Proof. unfold store_wf, pruneStaleWindows. simpl. by rewrite length_fmap. Qed.

Lemma stale_window_old now w x :
  StronglySorted Z.le w -> Forall (fun t => 0 <= t < 2 ^ 63) w -> 0 <= now < 2 ^ 63 ->
  stale_window now w = true -> x ∈ w -> x < now - Hour.
Proof.
  intros Hs Hr Hn Hst Hx. unfold stale_window in Hst.
  destruct w as [|n w _] using rev_ind; [set_solver|].
  rewrite last_snoc in Hst. apply Forall_app in Hr as [_ Hr]. inv Hr.
  rewrite int64_id in Hst by (unfold is_int64; lia).
  apply elem_of_app in Hx as [Hx| ->%list_elem_of_singleton]; [|lia].
  assert (x <= n) by (apply (StronglySorted_app_1_elem_of _ w [n] x n Hs); set_solver). lia.
Qed.
End windows.

(** ** Theorems *)

(** C23: Strong eventual consistency of sliding windows: replicas with the same
    sorted window that receive the same set of event times, in any order and
    with any repetitions, end with the same window: the strictly sorted list of
    the old and the received times. *)
Theorem window_convergence {O} (s : store O) key tss tss' :
  store_wf s -> StronglySorted Z.lt (win s key) -> (forall x, x ∈ tss <-> x ∈ tss') ->
  win (run_window s key tss') key = win (run_window s key tss) key /\
  StronglySorted Z.lt (win (run_window s key tss) key) /\
  (forall x, x ∈ win (run_window s key tss) key <-> x ∈ win s key \/ x ∈ tss).
Proof.
  intros Hwf Hs Hsame.
  destruct (run_window_spec s key tss Hwf Hs) as (_ & H1 & H2).
  destruct (run_window_spec s key tss' Hwf Hs) as (_ & H1' & H2').
  split_and!; [|done|done]. apply StronglySorted_lt_ext; [done..|].
  intros x. by rewrite H2, H2', Hsame.
Qed.

Lemma window_convergence_witness :
  let s := run_window (O := unit) empty_store "api" [30; 10] in
  win (run_window s "api" [20; 10; 20]) "api" = win (run_window s "api" [10; 20]) "api" /\
  win (run_window s "api" [10; 20]) "api" = [10; 20; 30].
Proof.
  split; [|by vm_compute].
  apply (window_convergence (run_window (O := unit) empty_store "api" [30; 10]) "api" [10; 20] [20; 10; 20]).
  - vm_compute. done.
  - vm_compute. repeat constructor.
  - set_solver.
Defined.

(** C24: A local event returns exactly the number of events of the window, the
    new one included, that are not older than [now - window]; when the window
    with the new event is sorted, exactly those events are kept; the windows
    of other keys do not change. *)
Theorem sliding_window_count {O} (s : store O) key ts window now :
  store_wf s -> Z.of_nat (length (win s key)) < 2 ^ 63 - 1 -> is_int64 (now - window) ->
  let '(count, s') := incrementSlidingWindow s key ts window now in
  let live := filter (fun t => now - window <= t) (win s key ++ [ts]) in
  count = Z.of_nat (length live) /\
  (StronglySorted Z.le (win s key ++ [ts]) -> win s' key = live) /\
  (forall key', key' <> key -> win s' key' = win s key').
Proof.
  intros Hwf Hlen Hi. pose proof (win_increment s key ts window now Hwf Hlen Hi) as H.
  destruct (incrementSlidingWindow s key ts window now) as [c s'].
  destruct H as (-> & Hw & Ho). split_and!; [done| |done].
  intros Hs. rewrite Hw. by apply drop_expired.
Qed.

Lemma sliding_window_count_witness :
  let s := run_window (O := unit) empty_store "api" [10; 20; 30] in
  let '(count, s') := incrementSlidingWindow s "api" 40 25 45 in
  let live := filter (fun t => 45 - 25 <= t) (win s "api" ++ [40]) in
  (count = Z.of_nat (length live) /\
   (StronglySorted Z.le (win s "api" ++ [40]) -> win s' "api" = live) /\
   (forall key', key' <> "api" -> win s' key' = win s key')) /\ live = [20; 30; 40].
Proof.
  pose proof (sliding_window_count (run_window (O := unit) empty_store "api" [10; 20; 30]) "api" 40 25 45) as H.
  cbn zeta. destruct (incrementSlidingWindow _ _ _ _ _) as [count s'].
  split; [|by vm_compute].
  apply H; [by vm_compute|by vm_compute|by vm_compute].
Defined.

(** C29: Deleting stale windows is invisible to windows in order: when the events
    of the key together with the new one are sorted by time, recording the event
    at any later time with a window of at most an hour returns the same count and
    leaves the same window as without the pruning. *)
Theorem prune_windows_preserves_counts {O} `{RangeOrder} (s : store O) now key ts window t :
  store_wf s -> Z.of_nat (length (win s key)) < 2 ^ 63 - 1 ->
  StronglySorted Z.le (win s key ++ [ts]) -> Forall (fun t => 0 <= t < 2 ^ 63) (win s key) ->
  0 <= now <= t -> t < 2 ^ 63 -> 0 <= window <= Hour ->
  let '(c, s') := incrementSlidingWindow (pruneStaleWindows s now) key ts window t in
  let '(c0, s0') := incrementSlidingWindow s key ts window t in
  c = c0 /\ win s' key = win s0' key.
Proof.
  intros Hwf Hlen Hs Hr Hn Ht Hw.
  assert (Hi : is_int64 (t - window)) by (unfold is_int64, Hour in *; lia).
  pose proof (win_prune s now key Hwf) as Hp.
  pose proof (win_increment s key ts window t Hwf Hlen Hi) as H0.
  pose proof (win_increment (pruneStaleWindows s now) key ts window t
    (pruneStaleWindows_wf s now Hwf)) as H1.
  destruct (incrementSlidingWindow s key ts window t) as [c0 s0'].
  destruct (incrementSlidingWindow (pruneStaleWindows s now) key ts window t) as [c s'].
  destruct H0 as (-> & -> & _). rewrite Hp in H1.
  destruct (stale_window now (win s key)) eqn:E.
  - destruct H1 as (-> & -> & _); [by simpl|done|].
    apply StronglySorted_app_1_l in Hs as Hs'.
    assert (Hold : forall x, x ∈ win s key -> ~ t - window <= x).
    { intros x Hx. pose proof (stale_window_old now _ x Hs' Hr ltac:(lia) E Hx). lia. }
    rewrite !drop_expired by first [done|repeat constructor].
    change ([] ++ [ts]) with [ts]. by rewrite filter_app, (filter_none _ (win s key)) by done.
  - by destruct H1 as (-> & -> & _).
Qed.

Lemma prune_windows_preserves_counts_witness :
  let s := run_window (O := unit) empty_store "api" [10; 20] in
  let '(c, s') := incrementSlidingWindow (pruneStaleWindows s (Hour + 100)) "api" (Hour + 200) Hour (Hour + 300) in
  let '(c0, s0') := incrementSlidingWindow s "api" (Hour + 200) Hour (Hour + 300) in
  c = c0 /\ win s' "api" = win s0' "api".
Proof.
  cbv zeta.
  assert (Hw : win (run_window (O := unit) empty_store "api" [10; 20]) "api" = [10; 20]) by (by vm_compute).
  apply (prune_windows_preserves_counts (run_window (O := unit) empty_store "api" [10; 20])
    (Hour + 100) "api" (Hour + 200) Hour (Hour + 300)).
  - by vm_compute.
  - by rewrite Hw.
  - rewrite Hw. repeat constructor; unfold Hour; lia.
  - rewrite Hw. repeat constructor; lia.
  - unfold Hour. lia.
  - unfold Hour. lia.
  - unfold Hour. lia.
Defined.

(** ** Limits *)

(** Two local events with the same physical time are two events at the origin
    and one at a replica that receives them. *)
Example equal_times_counted_once_remotely :
  let '(_, a1) := incrementSlidingWindow (O := unit) empty_store "api" 10 100 10 in
  let '(count, a2) := incrementSlidingWindow a1 "api" 10 100 10 in
  let b := run_window (O := unit) empty_store "api" [10; 10] in
  count = 2 /\ win a2 "api" = [10; 10] /\ win b "api" = [10].
Proof. vm_compute. done. Qed.

(** When an event with an earlier time is appended after a later one, dropping
    the number of expired events drops a live one and keeps the expired one. *)
Example unsorted_window_drops_live_event :
  let s := run_window (O := unit) empty_store "api" [100] in
  let '(_, s1) := incrementSlidingWindow s "api" 50 1000 100 in
  let '(count, s2) := incrementSlidingWindow s1 "api" 120 60 120 in
  count = 2 /\ win s1 "api" = [100; 50] /\ win s2 "api" = [50; 120].
Proof. vm_compute. done. Qed.
