(* ===== verification/Logging.v ===== *)
(** * Logging (src/capacitor.go: Logger, noopLogger, mlLoggerBridge)

    A logger is what it does with a record; its state here is whatever it keeps.
    The bridge passes each line the membership library writes to the node's
    logger, at the level the line names. *)

From S2P Require Import Prelude.
From Stdlib Require Import Strings.Byte.

#[local] Open Scope Z_scope.

(** ** [strings.Contains] and [strings.TrimSpace] on the bytes of a string *)

Fixpoint starts_with (p b : bytes) : bool :=
  match p, b with
  | [], _ => true
  | x :: p, y :: b => bool_decide (x = y) && starts_with p b
  | _ :: _, [] => false
  end.

Fixpoint contains (sub b : bytes) : bool :=
  starts_with sub b || match b with [] => false | _ :: b => contains sub b end.

Definition Contains (s sub : string) : bool := contains (bytes_of_string sub) (bytes_of_string s).

(** The encodings of the white space characters of Unicode. *)
Definition spaces : list bytes :=
  [[x09]; [x0a]; [x0b]; [x0c]; [x0d]; [x20]; [xc2; x85]; [xc2; xa0]; [xe1; x9a; x80];
   [xe2; x80; x80]; [xe2; x80; x81]; [xe2; x80; x82]; [xe2; x80; x83]; [xe2; x80; x84]; [xe2; x80; x85];
   [xe2; x80; x86]; [xe2; x80; x87]; [xe2; x80; x88]; [xe2; x80; x89]; [xe2; x80; x8a];
   [xe2; x80; xa8]; [xe2; x80; xa9]; [xe2; x80; xaf]; [xe2; x81; x9f]; [xe3; x80; x80]].

(** The length of the white space character [b] starts with, one of [ws]. *)
Definition space_at (ws : list bytes) (b : bytes) : option nat :=
  length <$> (list_find (fun w => starts_with w b = true) ws ≫= fun p => Some p.2).

(** [fuel]: one step per byte is enough. *)
Fixpoint trim_left (fuel : nat) (ws : list bytes) (b : bytes) : bytes :=
  match fuel with
  | O => b
  | S fuel => match space_at ws b with Some n => trim_left fuel ws (drop n b) | None => b end
  end.

Definition TrimSpace (s : string) : string :=
  let b := bytes_of_string s in
  let l := trim_left (length b) spaces b in
  let r := trim_left (length l) (reverse <$> spaces) (reverse l) in
  string_of_bytes (reverse r).

(** ** Loggers *)

Inductive level := LDebug | LInfo | LWarn | LError.

(** A logger with state [St]; arguments of a record are key-value pairs. *)
Class Logger (St : Type) := emit : level -> string -> list string -> St -> St.

Definition noopLogger : Logger unit := fun _ _ _ s => s.
#[export] Existing Instance noopLogger.

(** A logger that keeps its records. *)
#[export] Instance recorder : Logger (list (level * string)) := fun l msg _ s => s ++ [(l, msg)].

Definition bridge_level (msg : string) : level :=
  if Contains msg "[DEBUG]" then LDebug
  else if Contains msg "[ERR]" then LError
  else if Contains msg "[WARN]" then LWarn
  else LInfo.

(** [Write]: the number of bytes written, no error, and the logger after it. *)
Definition bridge_Write {St} {L : Logger St} (p : bytes) (s : St) : Z * St :=
  let msg := string_of_bytes p in
  (Z.of_nat (length p), emit (bridge_level msg) (TrimSpace msg) [] s).

(** ** Properties *)

Lemma starts_with_spec p b : starts_with p b = true <-> exists r, b = p ++ r.
Proof.
  revert b. induction p as [|x p IH]; intros b; simpl.
  - split; [by exists b|done].
  - destruct b as [|y b]; [split; [done|by intros [r [=]]]|]. rewrite andb_true_iff, bool_decide_eq_true, IH. split.
    + intros [-> [r ->]]. by exists r.
    + intros [r [= -> ->]]. split; [done|by exists r].
Qed.

Lemma contains_spec sub b : contains sub b = true <-> exists l r, b = l ++ sub ++ r.
Proof.
  induction b as [|x b IH]; simpl; rewrite orb_true_iff, starts_with_spec.
  - split; [intros [[r Hr]|]; [by exists [], r|done]|].
    intros (l & r & Hr). symmetry in Hr. apply app_nil in Hr as [-> [-> ->]%app_nil]. left. by exists [].
  - rewrite IH. split.
    + intros [[r Hr]|(l & r & ->)]; [by exists [], r|by exists (x :: l), r].
    + intros ([|y l] & r & Hr); [left; by exists r|right]. injection Hr as -> ->. by exists l, r.
Qed.

Lemma space_at_bound ws b n :
  Forall (fun w => w <> []) ws -> space_at ws b = Some n -> (1 <= n <= length b)%nat.
Proof.
  intros Hws. unfold space_at. destruct (list_find _ ws) as [[i w]|] eqn:E; [|done]. simpl. intros [= <-].
  apply list_find_Some in E as (Hi & Hw & _). apply starts_with_spec in Hw as [r ->].
  pose proof (Forall_lookup_1 _ _ _ _ Hws Hi). destruct w; [done|]. rewrite length_app. simpl. lia.
Qed.

(** What is left starts with no white space, and only white space was cut. *)
Lemma trim_left_spec fuel ws b :
  Forall (fun w => w <> []) ws -> (length b <= fuel)%nat ->
  space_at ws (trim_left fuel ws b) = None /\
  exists cut, b = concat cut ++ trim_left fuel ws b /\ Forall (fun w => w ∈ ws) cut.
Proof.
  intros Hws. revert b. induction fuel as [|fuel IH]; intros b Hb; simpl.
  - destruct b; [|simpl in Hb; lia]. split; [|by exists []].
    destruct (space_at ws []) as [n|] eqn:E; [|done]. apply space_at_bound in E; [simpl in E; lia|done].
  - destruct (space_at ws b) as [n|] eqn:E; [|split; [done|by exists []]].
    pose proof (space_at_bound _ _ _ Hws E). destruct (IH (drop n b)) as (H1 & cut & H2 & H3); [rewrite length_drop; lia|].
    split; [done|]. unfold space_at in E. destruct (list_find _ ws) as [[i w]|] eqn:Ef; [|done].
    injection E as <-. apply list_find_Some in Ef as (Hi & Hw & _). apply starts_with_spec in Hw as [r ->].
    exists (w :: cut). split; [|constructor; [by eapply list_elem_of_lookup_2|done]].
    simpl. rewrite <- app_assoc. f_equal. simpl in H2. by rewrite drop_app_length in H2 |- *.
Qed.

Lemma space_at_none ws b w r : space_at ws b = None -> w ∈ ws -> b <> w ++ r.
Proof.
  unfold space_at. destruct (list_find _ ws) as [[i w']|] eqn:E; [done|]. intros _ Hw ->.
  apply list_find_None in E. rewrite Forall_forall in E. apply (E w Hw), starts_with_spec. by exists r.
Qed.

Lemma reverse_concat {A} (ls : list (list A)) : reverse (concat ls) = concat (reverse (reverse <$> ls)).
Proof.
  induction ls as [|l ls IH]; [done|]. rewrite fmap_cons, reverse_cons, concat_app. simpl.
  by rewrite reverse_app, IH, app_nil_r.
Qed.

Lemma spaces_nonempty : Forall (fun w : bytes => w <> []) spaces.
Proof. repeat constructor; done. Qed.

Lemma TrimSpace_spec s :
  exists pre msg post, TrimSpace s = string_of_bytes msg /\ bytes_of_string s = concat pre ++ msg ++ concat post /\
    Forall (fun w => w ∈ spaces) (pre ++ post) /\
    forall w r, w ∈ spaces -> msg <> w ++ r /\ msg <> r ++ w.
Proof.
  unfold TrimSpace. set (b := bytes_of_string s).
  destruct (trim_left_spec (length b) spaces b spaces_nonempty) as (Hl & pre & Hb & Hpre); [done|].
  set (l := trim_left (length b) spaces b) in *.
  assert (Hne : Forall (fun w : bytes => w <> []) (reverse <$> spaces)).
  { apply Forall_fmap. eapply Forall_impl; [apply spaces_nonempty|]. intros w Hw Hr. apply Hw. by rewrite <- (reverse_involutive w), Hr. }
  destruct (trim_left_spec (length l) (reverse <$> spaces) (reverse l) Hne) as (Hr & cut & Hb' & Hcut);
    [by rewrite length_reverse|].
  set (r := trim_left (length l) (reverse <$> spaces) (reverse l)) in *.
  assert (El : l = reverse r ++ concat (reverse (reverse <$> cut)))
    by (rewrite <- reverse_concat, <- reverse_app, <- Hb'; by rewrite reverse_involutive).
  exists pre, (reverse r), (reverse (reverse <$> cut)). split_and!; [done|by rewrite <- El| |].
  - apply Forall_app. split; [done|]. apply Forall_reverse, Forall_fmap. eapply Forall_impl; [exact Hcut|].
    intros w (w' & -> & Hw)%list_elem_of_fmap. simpl. by rewrite reverse_involutive.
  - intros w x Hw. split; intros E.
    + apply (space_at_none _ _ w (x ++ concat (reverse (reverse <$> cut))) Hl Hw). by rewrite El, E, <- app_assoc.
    + apply (space_at_none _ _ (reverse w) (reverse x) Hr); [by apply list_elem_of_fmap_2|].
      by rewrite <- reverse_app, <- E, reverse_involutive.
Qed.

(** ** The bridge *)

(** The line contains the tag. *)
Definition mentions (p : bytes) (tag : string) : Prop := exists l r, p = l ++ bytes_of_string tag ++ r.

Lemma Contains_mentions p tag : Contains (string_of_bytes p) tag = true <-> mentions p tag.
Proof. unfold Contains. rewrite bytes_of_string_of_bytes. apply contains_spec. Qed.

(** The bridge forwards every line of the membership library as one record
    and reports it written in full without an error, as a writer must: the
    record's text is the line without the white space around it, and its level
    is debug, error or warning when the line contains that tag (the first of
    them in this order) and info otherwise. *)
Lemma bridge_Write_forwards {St} {L : Logger St} (p : bytes) (s : St) :
  exists lvl pre msg post,
    bridge_Write p s = (Z.of_nat (length p), emit lvl (string_of_bytes msg) [] s) /\
    p = concat pre ++ msg ++ concat post /\ Forall (fun w => w ∈ spaces) (pre ++ post) /\
    (forall w r, w ∈ spaces -> msg <> w ++ r /\ msg <> r ++ w) /\
    match lvl with
    | LDebug => mentions p "[DEBUG]"
    | LError => mentions p "[ERR]" /\ ~ mentions p "[DEBUG]"
    | LWarn => mentions p "[WARN]" /\ ~ mentions p "[DEBUG]" /\ ~ mentions p "[ERR]"
    | LInfo => ~ mentions p "[DEBUG]" /\ ~ mentions p "[ERR]" /\ ~ mentions p "[WARN]"
    end.
Proof.
  destruct (TrimSpace_spec (string_of_bytes p)) as (pre & msg & post & Ht & Hp & Hpp & Hm).
  rewrite bytes_of_string_of_bytes in Hp. exists (bridge_level (string_of_bytes p)), pre, msg, post.
  split_and!; [unfold bridge_Write; by rewrite Ht|done|done|done|].
  unfold bridge_level. case_ifs; rewrite <- ?Contains_mentions, ?not_true_iff_false; auto.
Qed.

Example bridge_trims :
  bridge_Write (bytes_of_string " [WARN] memberlist: refuting
") [] = (29, [(LWarn, "[WARN] memberlist: refuting")]).
Proof. vm_compute. done. Qed.
