(* ===== verification/Sha256.v ===== *)
(** * SHA-256 (crypto/sha256, used by [New] for the gossip key)

    The function [Sum256] of the standard library, by its specification (FIPS
    180-4), on words kept as [Z]. *)

From S2P Require Import Prelude.
From Stdlib Require Import Strings.Byte.

#[local] Open Scope Z_scope.

Module Sha.

Definition rotr (n x : Z) : Z := Z.lor (Z.shiftr x n) (uint32 (Z.shiftl x (32 - n))).
Definition add32 (a b : Z) : Z := uint32 (a + b).
Definition not32 (x : Z) : Z := Z.lxor x 4294967295.

Definition big_sigma0 (x : Z) : Z := Z.lxor (Z.lxor (rotr 2 x) (rotr 13 x)) (rotr 22 x).
Definition big_sigma1 (x : Z) : Z := Z.lxor (Z.lxor (rotr 6 x) (rotr 11 x)) (rotr 25 x).
Definition sigma0 (x : Z) : Z := Z.lxor (Z.lxor (rotr 7 x) (rotr 18 x)) (Z.shiftr x 3).
Definition sigma1 (x : Z) : Z := Z.lxor (Z.lxor (rotr 17 x) (rotr 19 x)) (Z.shiftr x 10).
Definition ch (x y z : Z) : Z := Z.lxor (Z.land x y) (Z.land (not32 x) z).
Definition maj (x y z : Z) : Z := Z.lxor (Z.lxor (Z.land x y) (Z.land x z)) (Z.land y z).

(** The constants: the first 32 bits of the fractions of the cube roots (and, for
    the first eight, of the square roots) of the primes. *)
Definition is_prime (p : Z) : bool :=
  (2 <=? p) && forallb (fun d => negb (p mod d =? 0)) (seqZ 2 (p - 2)).

Definition primes : list Z := Eval vm_compute in List.filter is_prime (seqZ 2 310).

(** The greatest [r] below [lo + 2^n] with [r^3 <= x]; [lo] is one that is. *)
Fixpoint cube_root (n : nat) (lo x : Z) : Z :=
  match n with
  | O => lo
  | S n => let r := lo + 2 ^ Z.of_nat n in cube_root n (if r * r * r <=? x then r else lo) x
  end.

Definition round_constants : list Z :=
  Eval vm_compute in (fun p => uint32 (cube_root 36 0 (p * 2 ^ 96))) <$> primes.

(** The eight words of the state. *)
Record state := mkState { sa : Z; sb : Z; sc : Z; sd : Z; se : Z; sf : Z; sg : Z; sh : Z }.

Definition initial : state :=
  Eval vm_compute in
  let root i := uint32 (Z.sqrt (nth i primes 0 * 2 ^ 64)) in
  mkState (root 0%nat) (root 1%nat) (root 2%nat) (root 3%nat) (root 4%nat) (root 5%nat) (root 6%nat) (root 7%nat).

(** Padding: a one bit, zeros, and the length in bits as eight bytes. *)
Definition pad (m : bytes) : bytes :=
  let n := Z.of_nat (length m) in
  m ++ [x80] ++ replicate (Z.to_nat ((55 - n) mod 64)) x00 ++ be_encode 8 (8 * n).

(** The words of a block, and the 64 words of its schedule, the last first. *)
Fixpoint words (n : nat) (b : bytes) : list Z :=
  match n with O => [] | S n => be_decode (take 4 b) :: words n (drop 4 b) end.

Definition extend (w : list Z) : list Z :=
  let at_ i := nth i w 0 in
  add32 (add32 (sigma1 (at_ 1%nat)) (at_ 6%nat)) (add32 (sigma0 (at_ 14%nat)) (at_ 15%nat)) :: w.

Definition schedule (block : bytes) : list Z := reverse (Nat.iter 48 extend (reverse (words 16 block))).

Definition round (s : state) (kw : Z * Z) : state :=
  let t1 := add32 (add32 (sh s) (big_sigma1 (se s)))
                  (add32 (ch (se s) (sf s) (sg s)) (add32 kw.1 kw.2)) in
  let t2 := add32 (big_sigma0 (sa s)) (maj (sa s) (sb s) (sc s)) in
  mkState (add32 t1 t2) (sa s) (sb s) (sc s) (add32 (sd s) t1) (se s) (sf s) (sg s).

Definition compress (s : state) (block : bytes) : state :=
  let s' := foldl round s (zip round_constants (schedule block)) in
  mkState (add32 (sa s) (sa s')) (add32 (sb s) (sb s')) (add32 (sc s) (sc s')) (add32 (sd s) (sd s'))
    (add32 (se s) (se s')) (add32 (sf s) (sf s')) (add32 (sg s) (sg s')) (add32 (sh s) (sh s')).

Fixpoint blocks (n : nat) (b : bytes) : list bytes :=
  match n with O => [] | S n => take 64 b :: blocks n (drop 64 b) end.

Definition Sum256 (m : bytes) : bytes :=
  let p := pad m in
  let s := foldl compress initial (blocks (Nat.div (length p) 64) p) in
  [sa s; sb s; sc s; sd s; se s; sf s; sg s; sh s] ≫= be_encode 4.

(** The key has the length the gossip library takes for AES-256. *)
Lemma length_Sum256 m : length (Sum256 m) = 32%nat.
Proof. unfold Sum256. cbv zeta. by rewrite !bind_cons, !length_app, !length_be_encode. Qed.

Lemma round_constants_count : length round_constants = 64%nat.
Proof. done. Qed.

Lemma pad_blocks m : Z.of_nat (length (pad m)) mod 64 = 0.
Proof.
  unfold pad. rewrite !length_app, length_replicate, length_be_encode. simpl length.
  set (n := Z.of_nat (length m)).
  assert (0 <= (55 - n) mod 64 < 64) by (apply Z.mod_pos_bound; lia).
  pose proof (Z.div_mod (55 - n) 64 ltac:(lia)) as Hd.
  replace (Z.of_nat (length m + (1 + (Z.to_nat ((55 - n) mod 64) + 8)))) with ((1 - (55 - n) / 64) * 64) by lia.
  apply Z.mod_mul. lia.
Qed.

(** The test vectors of the standard: the empty message, [abc], two blocks. *)
Definition hex (z : Z) : bytes := be_encode 32 z.

Example sum_empty : Sum256 [] = hex 0xe3b0c44298fc1c149afbf4c8996fb92427ae41e4649b934ca495991b7852b855.
Proof. vm_compute. done. Qed.
Example sum_abc : Sum256 (bytes_of_string "abc") = hex 0xba7816bf8f01cfea414140de5dae2223b00361a396177a9cb410ff61f20015ad.
Proof. vm_compute. done. Qed.
Example sum_two_blocks :
  Sum256 (bytes_of_string "abcdbcdecdefdefgefghfghighijhijkijkljklmklmnlmnomnopnopq")
  = hex 0x248d6a61d20638b8e5c026930c3e6039a33ce45964ff2167f6ecedd419db06c1.
Proof. vm_compute. done. Qed.
End Sha.
