(* ===== verification/NetAddr.v ===== *)
(** * Host and port (net.JoinHostPort, net.SplitHostPort)

    The two functions of the standard library [New] uses to build the address a
    node advertises, on the bytes of a string. *)

From S2P Require Import Prelude.
From Stdlib Require Import Strings.Byte.

(** The first and the last index of a byte. *)
Fixpoint index_byte (c : byte) (b : bytes) : option nat :=
  match b with
  | [] => None
  | x :: b => if bool_decide (x = c) then Some 0 else S <$> index_byte c b
  end.

Fixpoint last_index (c : byte) (b : bytes) : option nat :=
  match b with
  | [] => None
  | x :: b => match last_index c b with
              | Some i => Some (S i)
              | None => if bool_decide (x = c) then Some 0 else None
              end
  end.

Definition colon : byte := x3a.
Definition lbracket : byte := x5b.
Definition rbracket : byte := x5d.

Definition JoinHostPort (host port : string) : string :=
  match index_byte colon (bytes_of_string host) with
  | Some _ => "[" +:+ host +:+ "]:" +:+ port
  | None => host +:+ ":" +:+ port
  end.

(** The checks after the host was found: it starts at [j], the port's colon is
    at [i], and what follows the host starts at [k]. *)
Definition split_rest (b host : bytes) (i j k : nat) : option (string * string) :=
  if index_byte lbracket (drop j b) is Some _ then None
  else if index_byte rbracket (drop k b) is Some _ then None
  else Some (string_of_bytes host, string_of_bytes (drop (S i) b)).

(** [None] where the source gets an error. *)
Definition SplitHostPort (hostport : string) : option (string * string) :=
  let b := bytes_of_string hostport in
  match last_index colon b with
  | None => None
  | Some i =>
      if bool_decide (b !! 0 = Some lbracket) then
        match index_byte rbracket b with
        | None => None
        | Some e => if bool_decide (S e = i) then split_rest b (take (e - 1) (drop 1 b)) i 1 (S e) else None
        end
      else
        let host := take i b in
        match index_byte colon host with
        | Some _ => None
        | None => split_rest b host i 0 0
        end
  end.

(** [_, port, _ := net.SplitHostPort(addr)] *)
Definition port_of (addr : string) : string := match SplitHostPort addr with Some (_, p) => p | None => EmptyString end.

(** ** Splitting what was joined *)

Lemma index_byte_none c b : c ∉ b -> index_byte c b = None.
Proof.
  induction b as [|x b IH]; [done|]. intros [Hx Hb]%not_elem_of_cons. simpl.
  rewrite bool_decide_false by congruence. by rewrite IH.
Qed.

Lemma index_byte_app c a b : c ∉ a -> index_byte c (a ++ c :: b) = Some (length a).
Proof.
  induction a as [|x a IH]; simpl; [by rewrite bool_decide_true|]. intros [Hx Ha]%not_elem_of_cons.
  rewrite bool_decide_false by congruence. by rewrite IH.
Qed.

Lemma index_byte_some c b i : index_byte c b = Some i -> c ∈ b.
Proof.
  revert i. induction b as [|x b IH]; [done|]. intros i. simpl. case_bool_decide as E; [subst; constructor|].
  destruct (index_byte c b) as [j|]; [|done]. constructor. by eapply IH.
Qed.

Lemma last_index_app c a b : c ∉ b -> last_index c (a ++ c :: b) = Some (length a).
Proof.
  intros Hb. assert (Hn : last_index c b = None).
  { clear a. induction b as [|x b IH]; [done|]. apply not_elem_of_cons in Hb as [Hx Hb]. simpl. rewrite IH by done.
    by rewrite bool_decide_false by congruence. }
  induction a as [|x a IH]; simpl; [by rewrite Hn, bool_decide_true|by rewrite IH].
Qed.

Lemma bytes_app a b : bytes_of_string (a +:+ b) = bytes_of_string a ++ bytes_of_string b.
Proof.
  unfold bytes_of_string, String.list_byte_of_string. rewrite <- map_app. f_equal.
  induction a as [|c a IH]; [done|]. rewrite str_app_cons. simpl. by rewrite IH.
Qed.

(** Neither a bracket, nor (for a port) a colon. *)
Definition plain_host (s : string) : Prop := lbracket ∉ bytes_of_string s /\ rbracket ∉ bytes_of_string s.
Definition plain_port (s : string) : Prop := plain_host s /\ colon ∉ bytes_of_string s.

Lemma split_rest_ok b host i j k p :
  lbracket ∉ drop j b -> rbracket ∉ drop k b -> drop (S i) b = bytes_of_string p ->
  split_rest b host i j k = Some (string_of_bytes host, p).
Proof. intros H1 H2 Hp. unfold split_rest. by rewrite !index_byte_none, Hp, string_of_bytes_of_string. Qed.

Lemma Split_Join host port :
  plain_host host -> plain_port port -> SplitHostPort (JoinHostPort host port) = Some (host, port).
Proof.
  intros [Hl Hr] [[Pl Pr] Pc]. unfold JoinHostPort, SplitHostPort.
  set (h := bytes_of_string host) in *. set (p := bytes_of_string port) in *.
  destruct (index_byte colon h) as [x|] eqn:E.
  - assert (Eb : bytes_of_string ("[" +:+ host +:+ "]:" +:+ port) = (lbracket :: h ++ [rbracket]) ++ colon :: p)
      by (rewrite !bytes_app; unfold h, p; simpl; by rewrite <- app_assoc).
    rewrite Eb, (last_index_app colon (lbracket :: h ++ [rbracket])) by done.
    rewrite bool_decide_true by done.
    assert (index_byte rbracket ((lbracket :: h ++ [rbracket]) ++ colon :: p) = Some (S (length h))) as ->.
    { change ((lbracket :: h ++ [rbracket]) ++ colon :: p) with (lbracket :: (h ++ [rbracket]) ++ colon :: p).
      cbn [index_byte]. rewrite bool_decide_false by done. rewrite <- app_assoc. cbn [app]. by rewrite index_byte_app. }
    assert (Hd1 : drop 1 ((lbracket :: h ++ [rbracket]) ++ colon :: p) = h ++ rbracket :: colon :: p)
      by (cbn [drop app]; by rewrite <- app_assoc).
    assert (Hd2 : drop (S (S (length h))) ((lbracket :: h ++ [rbracket]) ++ colon :: p) = colon :: p)
      by (apply drop_app_length'; simpl; rewrite length_app; simpl; lia).
    assert (Hlen : length (lbracket :: h ++ [rbracket]) = S (S (length h))) by (simpl; rewrite length_app; simpl; lia).
    rewrite Hlen, bool_decide_true by done.
    replace (S (length h) - 1) with (length h) by lia. rewrite Hd1, take_app_length.
    rewrite (split_rest_ok _ _ _ _ _ port).
    + unfold h. by rewrite string_of_bytes_of_string.
    + rewrite Hd1. set_solver.
    + rewrite Hd2. set_solver.
    + change (S (S (S (length h)))) with (1 + S (S (length h))). rewrite Nat.add_comm, <- drop_drop, Hd2. done.
  - assert (Hc : colon ∉ h).
    { intros Hin. apply list_elem_of_lookup in Hin as [i Hi]. clear -E Hi. revert i Hi E.
      induction h as [|y h IH]; [done|]. intros [|i] Hi; simpl in *; [injection Hi as ->; by rewrite bool_decide_true|].
      case_bool_decide; [done|]. destruct (index_byte colon h); [done|]. intros _. by eapply IH. }
    assert (Eb : bytes_of_string (host +:+ ":" +:+ port) = h ++ colon :: p) by (by rewrite !bytes_app).
    rewrite Eb, (last_index_app colon h) by done. rewrite bool_decide_false.
    + rewrite take_app_length, index_byte_none by done. rewrite (split_rest_ok _ _ _ _ _ port).
      * unfold h. by rewrite string_of_bytes_of_string.
      * simpl. set_solver.
      * simpl. set_solver.
      * replace (S (length h)) with (length h + 1) by lia. by rewrite <- drop_drop, drop_app_length.
    + destruct h as [|y h]; simpl; [done|]. intros [= ->]. set_solver.
Qed.
