(* ===== verification/Metrics.v ===== *)
(** * Latency statistics (src/metrics.go)

    [Stat.Record] runs in many goroutines without a lock: two atomic additions
    and a compare-and-swap loop for the maximum.  It is modelled at the grain
    of its atomic instructions, as a step relation over a shared [Stat] and a
    list of goroutines; the sequential reading of the code is [Stat_Record].
    Durations are [int64] nanoseconds. *)

From S2P Require Import Prelude Float64.
From Stdlib Require Import SpecFloat.

#[local] Open Scope Z_scope.

Record Stat := mkStat { st_Count : Z; st_Sum : Z; st_Max : Z }.

#[export] Instance Stat_eq_dec : EqDecision Stat.
Proof. solve_decision. Defined.

(** [Record] run alone: the compare-and-swap succeeds at once. *)
Definition Stat_Record (s : Stat) (d : Z) : Stat :=
  mkStat (int64 (st_Count s + 1)) (int64 (st_Sum s + d))
         (if d <=? st_Max s then st_Max s else d).

(** ** Atomic instructions of [Record] *)

(** The next instruction of a goroutine inside [Record]. *)
Inductive pc := AddCount | AddSum | LoadMax | CompareAndSwap (oldMax : Z) | Done.

#[export] Instance pc_eq_dec : EqDecision pc.
Proof. solve_decision. Defined.

Definition instr (d : Z) (s : Stat) (p : pc) : Stat * pc :=
  match p with
  | AddCount => (mkStat (int64 (st_Count s + 1)) (st_Sum s) (st_Max s), AddSum)
  | AddSum => (mkStat (st_Count s) (int64 (st_Sum s + d)) (st_Max s), LoadMax)
  | LoadMax => (s, if d <=? st_Max s then Done else CompareAndSwap (st_Max s))
  | CompareAndSwap oldMax =>
      if st_Max s =? oldMax then (mkStat (st_Count s) (st_Sum s) d, Done) else (s, LoadMax)
  | Done => (s, Done)
  end.

(** A goroutine: the duration it records and where it is. *)
Abbreviation goroutine := (Z * pc)%type.

Abbreviation config := (Stat * list goroutine)%type.

(** One goroutine executes one instruction. *)
Inductive step : config -> config -> Prop :=
| step_goroutine s gs i d p s' p' :
    gs !! i = Some (d, p) -> p <> Done -> instr d s p = (s', p') ->
    step (s, gs) (s', <[i := (d, p')]> gs).

(** All goroutines are about to record. *)
Definition start (s : Stat) (ds : list Z) : config := (s, (fun d => (d, AddCount)) <$> ds).

Definition finished (c : config) : Prop := Forall (fun g => g.2 = Done) c.2.

(** ** The tracker *)

Record MetricsTracker := mkTracker {
  SetLat : Stat; GetLat : Stat; IncrLat : Stat; ReplicateLat : Stat;
  PeakAlloc : Z; PeakHeapAlloc : Z; PeakSys : Z
}.

Definition NewMetricsTracker : MetricsTracker :=
  let zero := mkStat 0 0 0 in mkTracker zero zero zero zero 0 0 0.

(** The fields of [runtime.MemStats] the monitor reads. *)
Record MemStats := mkMem { Alloc : Z; HeapAlloc : Z; Sys : Z }.

(** One tick of [memMonitor]. *)
Definition memMonitor_tick (m : MetricsTracker) (ms : MemStats) : MetricsTracker :=
  mkTracker (SetLat m) (GetLat m) (IncrLat m) (ReplicateLat m)
    (if PeakAlloc m <? Alloc ms then Alloc ms else PeakAlloc m)
    (if PeakHeapAlloc m <? HeapAlloc ms then HeapAlloc ms else PeakHeapAlloc m)
    (if PeakSys m <? Sys ms then Sys ms else PeakSys m).

Record Summary := mkSummary {
  su_Metric : string; su_Average : Z; su_Peak : Z; su_Count : Z;
  su_PeakMemMB : float64; su_PeakHeapMB : float64
}.

(** Division of floats. *)
Definition fdiv : float64 -> float64 -> float64 := SFdiv 53 1024.

(** [/] on [int64] truncates; [MinInt64 / -1] wraps. *)
Definition summarize (name : string) (s : Stat) : Summary :=
  let count := st_Count s in
  if count =? 0 then mkSummary name 0 0 0 fzero fzero
  else
    let avg := int64 (Z.quot (st_Sum s) count) in
    mkSummary name avg (st_Max s) count fzero fzero.

Definition GetSummary (m : MetricsTracker) : list Summary :=
  let mb (x : Z) := fdiv (fdiv (float64_of_Z x) (float64_of_Z 1024)) (float64_of_Z 1024) in
  [summarize "Set" (SetLat m); summarize "Get" (GetLat m);
   summarize "Incr" (IncrLat m); summarize "Replication" (ReplicateLat m)] ++
  [mkSummary "Memory (Peak)" 0 0 0 (mb (PeakAlloc m)) (mb (PeakHeapAlloc m))].

(** ** Invariant of concurrent recording *)

Definition past_count (g : goroutine) : Z := if decide (g.2 = AddCount) then 0 else 1.
Definition past_sum (g : goroutine) : Z :=
  match g.2 with AddCount | AddSum => 0 | _ => g.1 end.

Section concurrent.
Variables (s0 : Stat) (ds : list Z).

Record inv (c : config) : Prop := {
  inv_ds : c.2.*1 = ds;
  inv_count : st_Count c.1 = int64 (st_Count s0 + zsum past_count c.2);
  inv_sum : st_Sum c.1 = int64 (st_Sum s0 + zsum past_sum c.2);
  inv_max_lb : st_Max s0 <= st_Max c.1;
  inv_max_in : st_Max c.1 = st_Max s0 \/ st_Max c.1 ∈ ds;
  inv_done d : (d, Done) ∈ c.2 -> d <= st_Max c.1;
  inv_cas d m : (d, CompareAndSwap m) ∈ c.2 -> m < d
}.

Lemma inv_start : is_int64 (st_Count s0) -> is_int64 (st_Sum s0) -> inv (start s0 ds).
Proof.
  intros Hc Hs. split; simpl.
  - rewrite <- list_fmap_compose. apply list_fmap_id.
  - assert (zsum past_count ((fun d => (d, AddCount)) <$> ds) = 0) as -> by (by induction ds).
    rewrite Z.add_0_r. by rewrite int64_id.
  - assert (zsum past_sum ((fun d => (d, AddCount)) <$> ds) = 0) as -> by (by induction ds).
    rewrite Z.add_0_r. by rewrite int64_id.
  - done.
  - by left.
  - intros d (? & ? & ?)%list_elem_of_fmap. simplify_eq.
  - intros d m (? & ? & ?)%list_elem_of_fmap. simplify_eq.
Qed.

Lemma elem_of_list_insert {A} (l : list A) i x y : x ∈ <[i:=y]> l -> x = y \/ x ∈ l.
Proof.
  intros [j Hj]%list_elem_of_lookup.
  apply list_lookup_insert_Some in Hj as [(_ & -> & _)|[_ Hj]]; [by left|right].
  by eapply list_elem_of_lookup_2.
Qed.

(** One goroutine moves from [p] to [p'] and the statistics from [s] to [s']. *)
Lemma inv_update s gs i d p s' p' :
  inv (s, gs) -> gs !! i = Some (d, p) ->
  st_Count s' = int64 (st_Count s + (past_count (d, p') - past_count (d, p))) ->
  st_Sum s' = int64 (st_Sum s + (past_sum (d, p') - past_sum (d, p))) ->
  st_Max s' = st_Max s \/ (st_Max s <= st_Max s' /\ st_Max s' = d) ->
  (p' = Done -> d <= st_Max s') -> (forall m, p' = CompareAndSwap m -> m < d) ->
  inv (s', <[i := (d, p')]> gs).
Proof.
  intros [Hds Hc Hs Hlb Hin Hdone Hcas] Hi Hc' Hs' Hm' Hd' Hcas'. simpl in *.
  split; simpl; rewrite ?(zsum_insert _ _ _ _ _ Hi).
  - rewrite list_fmap_insert, <- Hds. apply list_insert_id. by rewrite list_lookup_fmap, Hi.
  - rewrite Hc', Hc, int64_add_l. f_equal. lia.
  - rewrite Hs', Hs, int64_add_l. f_equal. lia.
  - lia.
  - destruct Hm' as [->|[_ ->]]; [done|right]. rewrite <- Hds. apply list_elem_of_fmap.
    exists (d, p). split; [done|]. by eapply list_elem_of_lookup_2.
  - intros d1 [[= -> <-]|Hel]%elem_of_list_insert; [auto|]. specialize (Hdone _ Hel). lia.
  - intros d1 m [[= -> <-]|Hel]%elem_of_list_insert; eauto.
Qed.

Lemma inv_unwrapped s gs : inv (s, gs) ->
  int64 (st_Count s + 0) = st_Count s /\ int64 (st_Sum s + 0) = st_Sum s.
Proof.
  intros [_ Hc Hs _ _ _ _]. simpl in *. rewrite Hc, Hs, !int64_add_l, !Z.add_0_r. done.
Qed.

Lemma inv_step c c' : inv c -> step c c' -> inv c'.
Proof.
  intros HI Hst. destruct Hst as [s gs i d p s' p' Hi Hp Hinstr].
  destruct (inv_unwrapped s gs HI) as [Ec Es].
  assert (Hel := list_elem_of_lookup_2 _ _ _ Hi).
  apply (inv_update s gs i d p s' p' HI Hi); destruct p as [| | |m|]; simpl in Hinstr; try done;
    revert Hinstr; case_ifs; intros [= <- <-]; simpl; unfold past_count, past_sum; simpl;
    rewrite ?Z.sub_0_r, ?Z.sub_diag, ?Ec, ?Es; auto; try (intros; simplify_eq; lia).
  pose proof (inv_cas _ HI _ _ Hel). right. lia.
Qed.

Lemma inv_steps c c' : inv c -> rtc step c c' -> inv c'.
Proof. intros HI Hs. revert HI. induction Hs; eauto using inv_step. Qed.
End concurrent.

(** ** Termination *)

(** The instructions a goroutine still has ahead if no other one interferes,
    plus those a stale read costs. *)
Definition rank (mx : Z) (g : goroutine) : Z :=
  match g.2 with
  | AddCount => 4 | AddSum => 3 | LoadMax => 2
  | CompareAndSwap oldMax => if mx =? oldMax then 1 else 3
  | Done => 0
  end.
Definition active (g : goroutine) : Z := if decide (g.2 = Done) then 0 else 1.

(** A successful compare-and-swap can make every other goroutine retry once,
    and finishes its own. *)
Definition measure (c : config) : Z :=
  zsum (rank (st_Max c.1)) c.2 + 2 * Z.of_nat (length c.2) * zsum active c.2.

Lemma rank_bound mx g : 0 <= rank mx g <= 4.
Proof. unfold rank. destruct g as [d []]; simpl; case_ifs; lia. Qed.

Lemma measure_nonneg c : 0 <= measure c.
Proof.
  assert (forall l : list goroutine, 0 <= zsum active l) as Ha.
  { induction l as [|[d p] l IH]; simpl; [done|]. unfold active at 1. case_decide; lia. }
  assert (forall l : list goroutine, 0 <= zsum (rank (st_Max c.1)) l) as Hr.
  { induction l as [|g l IH]; simpl; [done|]. pose proof (rank_bound (st_Max c.1) g). lia. }
  unfold measure. specialize (Ha c.2). specialize (Hr c.2). nia.
Qed.

(** Changing the maximum raises the rank of another goroutine by at most two. *)
Lemma rank_shift gs i d mx mx' :
  gs !! i = Some (d, Done) ->
  zsum (rank mx') gs <= zsum (rank mx) gs + 2 * (Z.of_nat (length gs) - 1).
Proof.
  intros Hi. assert (Hg : forall g, rank mx' g <= rank mx g + 2).
  { intros [d' []]; unfold rank; simpl; case_ifs; lia. }
  assert (Hl : forall l : list goroutine, zsum (rank mx') l <= zsum (rank mx) l + 2 * Z.of_nat (length l)).
  { induction l as [|g l IH]; simpl; [lia|]. specialize (Hg g). lia. }
  apply list_elem_of_split_length in Hi as (l1 & l2 & -> & _).
  rewrite !zsum_app, length_app. simpl.
  pose proof (Hl l1). pose proof (Hl l2). cbn [rank snd]. lia.
Qed.

Lemma step_measure c c' : step c c' -> measure c' < measure c.
Proof.
  intros Hst. destruct Hst as [s gs i d p s' p' Hi Hp Hinstr]. unfold measure. simpl.
  rewrite length_insert, (zsum_insert active _ _ _ _ Hi).
  assert (Hlen : 0 < Z.of_nat (length gs)) by (apply lookup_lt_Some in Hi; lia).
  destruct p as [| | |m|]; simpl in Hinstr; try done; revert Hinstr; case_ifs; intros [= <- <-];
    simpl; try (rewrite (zsum_insert _ _ _ _ _ Hi); unfold rank, active; simpl;
                rewrite ?E, ?Z.eqb_refl; nia).
  pose proof (rank_shift (<[i := (d, Done)]> gs) i d (st_Max s) d) as Hsh.
  rewrite length_insert, (zsum_insert (rank (st_Max s)) _ _ _ _ Hi) in Hsh.
  cbn [rank snd] in Hsh. rewrite E in Hsh. unfold active. simpl.
  specialize (Hsh ltac:(apply list_lookup_insert_eq; by eapply lookup_lt_Some)). nia.
Qed.

Lemma nsteps_measure n c c' : nsteps step n c c' -> Z.of_nat n + measure c' <= measure c.
Proof. induction 1 as [|n x y z Hxy _ IH]; [lia|]. apply step_measure in Hxy. lia. Qed.

Lemma measure_start s ds :
  measure (start s ds) = 2 * Z.of_nat (length ds) ^ 2 + 4 * Z.of_nat (length ds).
Proof.
  unfold measure, start. simpl. rewrite length_fmap.
  assert (zsum (rank (st_Max s)) ((fun d => (d, AddCount)) <$> ds) = 4 * Z.of_nat (length ds)) as ->.
  { induction ds as [|x l IH]; [done|]. rewrite fmap_cons. cbn [zsum foldr length rank snd].
    unfold zsum in IH. lia. }
  assert (zsum active ((fun d => (d, AddCount)) <$> ds) = Z.of_nat (length ds)) as ->.
  { induction ds as [|x l IH]; [done|]. rewrite fmap_cons. cbn [zsum foldr length].
    change (active (x, AddCount)) with 1. unfold zsum in IH. lia. }
  lia.
Qed.

(** What the invariant says when every goroutine is done. *)
Lemma inv_finished s ds c :
  inv s ds c -> finished c ->
  c.1 = mkStat (int64 (st_Count s + Z.of_nat (length ds))) (int64 (st_Sum s + zsum id ds))
               (zmax (st_Max s) ds).
Proof.
  destruct c as [s' gs]. intros [Hds Hcount Hsum Hlb Hin Hdone _] Hf. unfold finished in Hf. simpl in *.
  rewrite Forall_forall in Hf. destruct s' as [c1 s1 m1]. simpl in *. f_equal.
  - rewrite Hcount, (zsum_ext _ (fun _ => 1)), zsum_const.
    + rewrite <- Hds, length_fmap. f_equal. lia.
    + intros [d p] Hg. apply Hf in Hg. simpl in Hg. by subst p.
  - rewrite Hsum, <- Hds. do 2 f_equal. clear -Hf.
    induction gs as [|[d p] gs IH]; simpl; [done|]. rewrite IH by set_solver.
    pose proof (Hf (d, p) ltac:(set_solver)) as E. simpl in E. by subst p.
  - apply zmax_spec. split_and!; [done| |done]. intros y Hy. rewrite <- Hds in Hy.
    apply list_elem_of_fmap in Hy as ([d p] & -> & Hg). pose proof (Hf _ Hg) as E. simpl in E.
    subst p. by apply Hdone.
Qed.

(** Two goroutines, the second overtaking the first between its load and its
    compare-and-swap, which then retries. *)
Definition race : list nat := [0; 0; 0; 1; 1; 1; 1; 0; 0]%nat.

Definition run_schedule (c : config) (sched : list nat) : config :=
  foldl (fun c i => match c.2 !! i with
                    | Some (d, p) => let '(s', p') := instr d c.1 p in (s', <[i := (d, p')]> c.2)
                    | None => c
                    end) c sched.

Lemma run_schedule_steps c sched :
  (forall k i, sched !! k = Some i -> exists d p, (run_schedule c (take k sched)).2 !! i = Some (d, p) /\ p <> Done) ->
  rtc step c (run_schedule c sched).
Proof.
  induction sched as [|i sched IH] using rev_ind; intros H; [done|].
  unfold run_schedule. rewrite foldl_app. fold (run_schedule c sched). simpl.
  destruct (H (length sched) i) as (d & p & Hi & Hp).
  { by rewrite lookup_app_r, Nat.sub_diag by lia. }
  rewrite take_app_length in Hi. rewrite Hi. eapply rtc_r.
  - apply IH. intros k j Hk. destruct (H k j) as (d' & p' & Hj); [by apply lookup_app_l_Some|].
    rewrite take_app_le in Hj by (apply lookup_lt_Some in Hk; lia). eauto.
  - destruct (run_schedule c sched) as [s gs]. simpl in *.
    destruct (instr d s p) as [s' p'] eqn:E. by econstructor.
Qed.

Lemma zsum_nonneg (ds : list Z) : Forall (fun d => 0 <= d) ds -> 0 <= zsum id ds.
Proof. induction 1; simpl; unfold id in *; lia. Qed.

(** Sequential recording, and that a goroutine running alone does the same. *)
Lemma Record_seq s ds :
  Forall (fun d => 0 <= d) ds -> 0 <= st_Count s -> 0 <= st_Sum s ->
  st_Count s + Z.of_nat (length ds) < 2 ^ 63 -> st_Sum s + zsum id ds < 2 ^ 63 ->
  foldl Stat_Record s ds =
    mkStat (st_Count s + Z.of_nat (length ds)) (st_Sum s + zsum id ds) (zmax (st_Max s) ds).
Proof.
  intros Hd. revert s. induction Hd as [|d ds Hd Hds IH]; intros s Hc Hs Hcl Hsl; simpl in *.
  { rewrite !Z.add_0_r. by destruct s. }
  assert (0 <= zsum id ds) by (by apply zsum_nonneg).
  unfold id in *. rewrite IH; unfold Stat_Record; simpl; go_unwrap; try lia.
  f_equal; try lia. unfold zmax. simpl. f_equal. case_ifs; lia.
Qed.

Lemma Record_alone s d :
  run_schedule (start s [d]) (replicate 4 0%nat) = (Stat_Record s d, [(d, Done)]) \/
  run_schedule (start s [d]) (replicate 3 0%nat) = (Stat_Record s d, [(d, Done)]).
Proof.
  destruct (d <=? st_Max s) eqn:E; [right|left]; unfold run_schedule, Stat_Record; simpl; rewrite ?E; simpl;
    rewrite ?Z.eqb_refl; done.
Qed.

Lemma zsum_bounds ds :
  Forall (fun d => 0 <= d) ds -> 0 <= zsum id ds <= Z.of_nat (length ds) * zmax 0 ds.
Proof.
  intros Hd. split; [by apply zsum_nonneg|].
  destruct (proj1 (zmax_spec 0 ds (zmax 0 ds)) eq_refl) as (_ & Hm & _).
  rewrite Z.mul_comm, <- zsum_const. by apply zsum_le.
Qed.

(** ** Theorems *)

(** C37: Goroutines that record concurrently lose no update: in whatever order
    their atomic instructions interleave, once all are done the count has grown
    by their number, the sum by their durations (as [int64] additions) and the
    maximum is that of the old one and all durations; from every reachable
    state that is not finished some goroutine can step, and no execution has
    more than [2 n^2 + 4 n] steps, so the compare-and-swap loops terminate
    under every scheduler. *)
Theorem Record_concurrent (s : Stat) (ds : list Z) :
  is_int64 (st_Count s) -> is_int64 (st_Sum s) ->
  (forall c, rtc step (start s ds) c -> finished c ->
     c.1 = mkStat (int64 (st_Count s + Z.of_nat (length ds))) (int64 (st_Sum s + zsum id ds))
                  (zmax (st_Max s) ds)) /\
  (forall c, rtc step (start s ds) c -> ~ finished c -> exists c', step c c') /\
  (forall n c, nsteps step n (start s ds) c ->
     Z.of_nat n <= 2 * Z.of_nat (length ds) ^ 2 + 4 * Z.of_nat (length ds)).
Proof.
  intros Hc Hs. split_and!.
  - intros c Hr Hf. apply inv_finished; [|done]. eapply inv_steps; [by apply inv_start|done].
  - intros [s' gs] _ Hf. unfold finished in Hf.
    apply not_Forall_Exists in Hf; [|apply _]. apply Exists_exists in Hf as ([d p] & Hg & Hp).
    simpl in *. apply list_elem_of_lookup in Hg as [i Hi].
    destruct (instr d s' p) as [s'' p'] eqn:E. eexists. by econstructor.
  - intros n c Hn. apply nsteps_measure in Hn. pose proof (measure_nonneg c).
    rewrite measure_start in Hn. lia.
Qed.

Lemma Record_concurrent_witness :
  let c := run_schedule (start (mkStat 0 0 0) [5; 9]) race in
  rtc step (start (mkStat 0 0 0) [5; 9]) c /\ finished c /\ c.1 = mkStat 2 14 9.
Proof.
  assert (Hr : rtc step (start (mkStat 0 0 0) [5; 9]) (run_schedule (start (mkStat 0 0 0) [5; 9]) race)).
  { apply run_schedule_steps. intros k i Hk.
    do 9 (destruct k as [|k]; [vm_compute in Hk; simplify_eq; eexists _, _; split; [by vm_compute|done]|]). by vm_compute in Hk. }
  assert (Hf : finished (run_schedule (start (mkStat 0 0 0) [5; 9]) race)) by (vm_compute; repeat constructor).
  split_and!; [done|done|].
  destruct (Record_concurrent (mkStat 0 0 0) [5; 9]) as (H & _ & _); [by vm_compute|by vm_compute|].
  exact (H _ Hr Hf).
Defined.

(** C38: The summary of a statistic that recorded non-negative durations
    without overflow: zeros when nothing was recorded, else the exact number of
    records, the truncated mean and the greatest duration, the mean not above
    the peak. *)
Theorem summarize_correct (name : string) (ds : list Z) :
  Forall (fun d => 0 <= d) ds -> zsum id ds < 2 ^ 63 -> Z.of_nat (length ds) < 2 ^ 63 ->
  let n := Z.of_nat (length ds) in
  let r := summarize name (foldl Stat_Record (mkStat 0 0 0) ds) in
  su_Metric r = name /\ su_Count r = n /\ su_Peak r = zmax 0 ds /\
  su_Average r = match ds with [] => 0 | _ => zsum id ds / n end /\ su_Average r <= su_Peak r.
Proof.
  intros Hd Hs Hl n r. assert (Hr : r = summarize name (mkStat n (zsum id ds) (zmax 0 ds))).
  { unfold r. rewrite Record_seq by first [done|cbn [st_Count st_Sum]; lia]. done. }
  pose proof (zsum_bounds ds Hd) as [Hs0 Hb]. rewrite Hr. unfold summarize. simpl.
  destruct ds as [|d ds]; [done|]. set (l := d :: ds) in *.
  assert (Hn : 0 < n) by (unfold n, l; simpl; lia). replace (n =? 0) with false by lia.
  cbn [su_Metric su_Count su_Peak su_Average st_Sum st_Count st_Max].
  rewrite Z.quot_div_nonneg by lia.
  assert (0 <= zsum id l / n <= zsum id l) by (split; [apply Z.div_pos; lia|apply Z.div_le_upper_bound; nia]).
  rewrite int64_id by (unfold is_int64; lia). split_and!; try done.
  apply Z.div_le_upper_bound; [lia|]. unfold n. lia.
Qed.

Lemma summarize_correct_witness :
  let r := summarize "Set" (foldl Stat_Record (mkStat 0 0 0) [3; 8; 4]) in
  su_Metric r = "Set" /\ su_Count r = 3 /\ su_Peak r = zmax 0 [3; 8; 4] /\
  su_Average r = zsum id [3; 8; 4] / 3 /\ su_Average r <= su_Peak r.
Proof.
  apply (summarize_correct "Set" [3; 8; 4]); [repeat constructor; lia|by vm_compute|by vm_compute].
Defined.

(** The memory monitor keeps the greatest values it has seen. *)
Lemma memMonitor_peak m mss :
  let m' := foldl memMonitor_tick m mss in
  PeakAlloc m' = zmax (PeakAlloc m) (Alloc <$> mss) /\
  PeakHeapAlloc m' = zmax (PeakHeapAlloc m) (HeapAlloc <$> mss) /\
  PeakSys m' = zmax (PeakSys m) (Sys <$> mss).
Proof.
  unfold zmax. revert m. induction mss as [|ms mss IH]; intros m; simpl; [done|].
  destruct (IH (memMonitor_tick m ms)) as (-> & -> & ->). simpl.
  split_and!; f_equal; case_ifs; lia.
Qed.
