(* ===== verification/Client.v ===== *)
(** * The replication stream client (src/transport.go, StreamClient)

    The connections are shared pointers: [heap] holds the [clientConn] objects
    and [conns] maps a node to the address of its connection.  The network is
    an input: whether a dial succeeds and whether a write succeeds.  What has
    been written to a connection is kept in [written], one element per write
    of a batch.  Buffers of the pool are reused from length zero, so they do not
    show in what is written. *)

From S2P Require Import Prelude Float64 Hlc Types Msgp Codec CodecProofs Store.
From stdpp Require Import relations.

#[local] Open Scope Z_scope.

Record clientConn := mkConn {
  lastUsed : Z;
  handshakeDone : bool;
  conn_closed : bool;
  written : list bytes
}.

Record StreamClient := mkClient {
  heap : gmap nat clientConn;
  conns : gmap string nat;
  c_authToken : string
}.

Inductive send_error := DialError | MarshalError (e : merr) | WriteError.

Definition NewStreamClient (authToken : string) : StreamClient := mkClient ∅ ∅ authToken.

Definition with_heap (f : gmap nat clientConn -> gmap nat clientConn) (c : StreamClient) : StreamClient :=
  mkClient (f (heap c)) (conns c) (c_authToken c).
Definition with_conns (f : gmap string nat -> gmap string nat) (c : StreamClient) : StreamClient :=
  mkClient (heap c) (f (conns c)) (c_authToken c).

(** Updates of the object behind a pointer. *)
Definition touch (now : Z) (cc : clientConn) : clientConn :=
  mkConn now (handshakeDone cc) (conn_closed cc) (written cc).
Definition close_conn (cc : clientConn) : clientConn :=
  mkConn (lastUsed cc) (handshakeDone cc) true (written cc).
Definition shake (cc : clientConn) : clientConn :=
  mkConn (lastUsed cc) true (conn_closed cc) (written cc).
Definition push (data : bytes) (cc : clientConn) : clientConn :=
  mkConn (lastUsed cc) (handshakeDone cc) (conn_closed cc) (written cc ++ [data]).

(** [2 * time.Minute] *)
Definition idle_limit : Z := 120 * 1000000000.

(** One iteration of the janitor's loop over the connections. *)
Definition janitor_one (now : Z) (c : StreamClient) (kv : string * nat) : StreamClient :=
  match heap c !! kv.2 with
  | Some cc =>
      if idle_limit <? int64 (now - lastUsed cc)
      then with_conns (delete kv.1) (with_heap (alter close_conn kv.2) c)
      else c
  | None => c
  end.

Definition janitor_tick `{RangeOrder} (c : StreamClient) (now : Z) : StreamClient :=
  foldl (janitor_one now) c (range (conns c)).

(** The lookup of [dial], under the read lock. *)
Definition dial_lookup (c : StreamClient) (nodeID : string) (now : Z) : option nat * StreamClient :=
  match conns c !! nodeID with
  | Some cc => (Some cc, with_heap (alter (touch now) cc) c)
  | None => (None, c)
  end.

(** The rest of [dial] once the network connection is up: the new object is
    kept unless another call has stored one in the meantime. *)
Definition dial_install (c : StreamClient) (nodeID : string) (now : Z) : nat * StreamClient :=
  let cc := fresh (dom (heap c)) in
  let c := with_heap (<[cc := mkConn now false false []]>) c in
  match conns c !! nodeID with
  | Some existing => (existing, with_heap (alter close_conn cc) c)
  | None => (cc, with_conns (<[nodeID := cc]>) c)
  end.

Definition dial (c : StreamClient) (nodeID : string) (now : Z) (dial_ok : bool)
    : (nat + send_error) * StreamClient :=
  match dial_lookup c nodeID now with
  | (Some cc, c) => (inl cc, c)
  | (None, c) =>
      if dial_ok then let '(cc, c) := dial_install c nodeID now in (inl cc, c)
      else (inr DialError, c)
  end.

(** A send, as one step with respect to the janitor.  When the write fails, what
    had already gone out is not kept in [written]: the connection is closed at
    once, and its reader gets a batch that is cut off. *)
Definition SendBatch `{Wire} (c : StreamClient) (nodeID : string) (batch : Batch) (lastSeenPeerSeq : Z)
    (now : Z) (dial_ok write_ok : bool) : option send_error * StreamClient :=
  match dial c nodeID now dial_ok with
  | (inr err, c) => (Some err, c)
  | (inl cc, c) =>
      let done := match heap c !! cc with Some o => handshakeDone o | None => false end in
      let '(batch, c) :=
        if done then (batch, c)
        else (mkBatch (FromNode batch) (Entries batch) (Some (mkHandshake lastSeenPeerSeq (c_authToken c))),
              with_heap (alter shake cc) c) in
      match Batch_MarshalMsg batch [] with
      | Err e => (Some (MarshalError e), c)
      | Ok data =>
          if write_ok then (None, with_heap (alter (push data) cc) c)
          else
            let c := with_heap (alter close_conn cc) c in
            let c := if decide (conns c !! nodeID = Some cc) then with_conns (delete nodeID) c else c in
            (Some WriteError, c)
      end
  end.

Definition CloseConn (c : StreamClient) (nodeID : string) : StreamClient :=
  match conns c !! nodeID with
  | Some cc => with_conns (delete nodeID) (with_heap (alter close_conn cc) c)
  | None => c
  end.

(** [Close] after its stop channel is closed (which panics the second time,
    [StreamClient_Close] of [Lifecycle]). *)
Definition client_Close `{RangeOrder} (c : StreamClient) : StreamClient :=
  with_conns (fun _ => ∅)
    (foldl (fun c kv => with_heap (alter close_conn kv.2) c) c (range (conns c))).

(** ** What a peer reads from a connection *)

(** The batches of one connection: the first introduces the sender with its
    token, the others carry no handshake. *)
Definition wf_session (tok : string) (bs : list Batch) : Prop :=
  match bs with
  | [] => True
  | b :: bs => (exists ls, b_Handshake b = Some (mkHandshake ls tok)) /\
               Forall (fun b => b_Handshake b = None) bs
  end.

Lemma wf_session_snoc tok bs b :
  bs <> [] -> wf_session tok bs -> b_Handshake b = None -> wf_session tok (bs ++ [b]).
Proof.
  destruct bs as [|b0 bs]; [done|]. intros _ [H0 Hbs] Hb. split; [done|].
  apply Forall_app. auto.
Qed.

Lemma Batch_MarshalMsg_total `{Wire} z : exists o, Batch_MarshalMsg z [] = Ok o.
Proof.
  unfold Batch_MarshalMsg, Batch_EncodeMsg.
  destruct (b_Handshake z) as [h|] eqn:Eh; simpl is_nil; mask_compute;
  cbn -[write_entries Handshake_encode uint32]; rewrite write_entries_enc; cbn -[Handshake_encode uint32];
  rewrite ?Handshake_enc; eauto.
Qed.

Section client.
Context {W : Wire}.

Definition session (tok : string) (ws : list bytes) : Prop :=
  exists bs, Forall2 (fun b data => Batch_MarshalMsg b [] = Ok data) bs ws /\ wf_session tok bs.

Definition live (o : clientConn) : Prop :=
  conn_closed o = false /\ (handshakeDone o = true <-> written o <> []).

Record client_inv (c : StreamClient) : Prop := {
  ci_session id o : heap c !! id = Some o -> session (c_authToken c) (written o);
  ci_live n id : conns c !! n = Some id -> exists o, heap c !! id = Some o /\ live o;
  ci_inj n n' id : conns c !! n = Some id -> conns c !! n' = Some id -> n = n'
}.

Lemma session_nil tok : session tok [].
Proof. exists []. by split. Qed.

Lemma new_inv tok : client_inv (NewStreamClient tok).
Proof. split; simpl; intros *; rewrite ?lookup_empty; done. Qed.

(** Changing one object, keeping every session. *)
Lemma inv_alter c id f :
  (forall o, heap c !! id = Some o -> session (c_authToken c) (written (f o))) ->
  (forall o, live o -> live (f o)) ->
  client_inv c -> client_inv (with_heap (alter f id) c).
Proof.
  intros Hs Hl [H1 H2 H3]. split; simpl; [| |done].
  - intros id' o. destruct (decide (id = id')) as [->|].
    + rewrite lookup_alter_eq. intros (o' & Ho & ->)%fmap_Some. auto.
    + rewrite lookup_alter_ne by done. apply H1.
  - intros n id' Hn. destruct (H2 n id' Hn) as (o & Ho & Hlo).
    destruct (decide (id = id')) as [->|]; [|rewrite lookup_alter_ne by done; eauto].
    rewrite lookup_alter_eq, Ho. simpl. eauto.
Qed.

(** Forgetting the connection of a node, whatever happens to the object but
    for what was written. *)
Lemma inv_forget c n id f :
  conns c !! n = Some id -> (forall o, written (f o) = written o) -> client_inv c ->
  client_inv (with_conns (delete n) (with_heap (alter f id) c)).
Proof.
  intros Hn Hf [H1 H2 H3]. split; simpl.
  - intros id' o. rewrite lookup_alter. case_decide; subst; [|apply H1].
    intros (o' & Ho & ->)%fmap_Some. rewrite Hf. by apply (H1 _ _ Ho).
  - intros n' id' [Hne Hn']%lookup_delete_Some. destruct (H2 n' id' Hn') as (o & Ho & Hl).
    rewrite lookup_alter_ne; [eauto|]. intros ->. by apply Hne, (H3 n n' id').
  - intros n1 n2 id' [_ ?]%lookup_delete_Some [_ ?]%lookup_delete_Some. eauto.
Qed.

Lemma dial_lookup_inv c n now :
  client_inv c -> client_inv (dial_lookup c n now).2 /\ c_authToken (dial_lookup c n now).2 = c_authToken c.
Proof.
  intros HI. unfold dial_lookup. destruct (conns c !! n) as [id|]; [|done]. split; [|done].
  apply inv_alter; [|done|done]. intros o Ho. apply (ci_session _ HI id o Ho).
Qed.

Lemma dial_install_inv c n now :
  client_inv c ->
  let '(id, c') := dial_install c n now in
  client_inv c' /\ c_authToken c' = c_authToken c /\ conns c' !! n = Some id.
Proof.
  intros HI. pose proof HI as [H1 H2 H3]. unfold dial_install. set (nid := fresh (dom (heap c))).
  assert (Hf : heap c !! nid = None) by (apply not_elem_of_dom, is_fresh).
  assert (HI' : client_inv (with_heap (<[nid := mkConn now false false []]>) c)).
  { split; simpl; [| |done].
    - intros id o [[<- <-]|[_ Ho]]%lookup_insert_Some; [apply session_nil|eauto].
    - intros m id Hm. destruct (H2 m id Hm) as (o & Ho & Hl).
      rewrite lookup_insert_ne by congruence. eauto. }
  destruct (conns _ !! n) as [ex|] eqn:En; split_and!; try done.
  - destruct HI' as [H1' H2' H3']. split; simpl in *; [| |done].
    + intros id o. rewrite lookup_alter. case_decide; subst; [|apply H1'].
      rewrite lookup_insert_eq. intros [= <-]. apply session_nil.
    + intros m id Hm. destruct (H2 m id Hm) as (o & Ho & Hl). destruct (H2' m id Hm) as (o' & Ho' & Hl').
      rewrite lookup_alter_ne by congruence. eauto.
  - destruct HI' as [H1' H2' H3']. split; simpl in *; [done| |].
    + intros m id [[<- <-]|[_ Hm]]%lookup_insert_Some; [|eauto].
      exists (mkConn now false false []). rewrite lookup_insert_eq. split; [done|]. by split.
    + intros m m' id [[<- <-]|[? Hm]]%lookup_insert_Some [[<- E]|[? Hm']]%lookup_insert_Some; eauto.
      * destruct (H2 m' nid Hm') as (o & Ho & _). congruence.
      * subst. destruct (H2 m nid Hm) as (o & Ho & _). congruence.
  - simpl. by rewrite lookup_insert_eq.
Qed.

Lemma dial_inv c n now ok :
  client_inv c ->
  let '(r, c') := dial c n now ok in
  client_inv c' /\ c_authToken c' = c_authToken c /\
  match r with inl id => conns c' !! n = Some id | inr e => e = DialError end.
Proof.
  intros HI. unfold dial. pose proof (dial_lookup_inv c n now HI) as [H1 H2].
  destruct (dial_lookup c n now) as [[id|] c1] eqn:E; simpl in *.
  - split_and!; [done|done|]. unfold dial_lookup in E.
    destruct (conns c !! n) as [id'|] eqn:En; [|done]. by simplify_eq.
  - destruct ok; [|done]. pose proof (dial_install_inv c1 n now H1) as H3.
    destruct (dial_install c1 n now) as [id c2]. destruct H3 as (? & ? & ?). split_and!; congruence.
Qed.

(** The batch [SendBatch] puts on the connection [o]. *)
Definition stamped (tok : string) (o : clientConn) (batch : Batch) (ls : Z) : Batch :=
  if handshakeDone o then batch
  else mkBatch (FromNode batch) (Entries batch) (Some (mkHandshake ls tok)).

Lemma session_stamped tok o batch ls data :
  live o -> session tok (written o) -> b_Handshake batch = None ->
  Batch_MarshalMsg (stamped tok o batch ls) [] = Ok data -> session tok (written o ++ [data]).
Proof.
  unfold stamped. intros [_ Hl] (bs & Hbs & Hw) Hb Hd. destruct (handshakeDone o).
  - exists (bs ++ [batch]). split; [by apply Forall2_app; [|constructor]|].
    apply wf_session_snoc; [|done|done]. intros ->. inv Hbs. by apply Hl.
  - assert (written o = []) as E by (destruct (written o); [done|]; by destruct Hl as [_ Hl]; discriminate Hl).
    rewrite E in Hbs |- *. inv Hbs. eexists [_]. split; [constructor; [exact Hd|constructor]|]. simpl. eauto.
Qed.

Lemma with_heap_twice f g id c :
  with_heap (alter f id) (with_heap (alter g id) c) = with_heap (alter (f ∘ g) id) c.
Proof. unfold with_heap. simpl. by rewrite alter_alter_eq. Qed.

Lemma SendBatch_spec c n batch ls now dok wok :
  client_inv c -> b_Handshake batch = None ->
  let '(err, c') := SendBatch c n batch ls now dok wok in
  client_inv c' /\ c_authToken c' = c_authToken c /\
  (err = None -> exists id o data, conns c' !! n = Some id /\
     Batch_MarshalMsg (stamped (c_authToken c) o batch ls) [] = Ok data /\
     heap c' !! id = Some (push data (shake o))) /\
  (err = None \/ err = Some DialError \/ err = Some WriteError /\ conns c' !! n = None).
Proof.
  intros HI Hb. unfold SendBatch. pose proof (dial_inv c n now dok HI) as Hd.
  destruct (dial c n now dok) as [[id|e] c1]; destruct Hd as (HI1 & Ht & Hn); [|subst; split_and!; auto; done].
  destruct (ci_live _ HI1 n id Hn) as (o & Ho & Hl). rewrite Ho.
  assert (Hs : (if handshakeDone o then (batch, c1)
    else (mkBatch (FromNode batch) (Entries batch) (Some (mkHandshake ls (c_authToken c1))),
          with_heap (alter shake id) c1))
    = (stamped (c_authToken c) o batch ls, with_heap (alter shake id) c1)).
  { unfold stamped. rewrite Ht. destruct (handshakeDone o) eqn:E; [|done]. f_equal.
    destruct c1 as [h cs t]. unfold with_heap. simpl in *. f_equal. symmetry. apply alter_id.
    intros o' Ho'. rewrite Ho in Ho'. simplify_eq. destruct o'. simpl in *. by subst. }
  rewrite Hs. destruct (Batch_MarshalMsg_total (stamped (c_authToken c) o batch ls)) as [data Hdata].
  rewrite Hdata. destruct wok.
  - rewrite with_heap_twice.
    split_and!; auto.
    + apply inv_alter; [| |done].
      * intros o' Ho'. rewrite Ho in Ho'. simplify_eq. simpl.
        rewrite Ht. eapply session_stamped; [done| |done|done]. rewrite <- Ht. by apply (ci_session _ HI1 id).
      * intros o' [Hc _]. split; [done|]. simpl. split; [|done]. intros _. by destruct (written o').
    + intros _. exists id, o, data. split_and!; [done|done|]. simpl. by rewrite lookup_alter_eq, Ho.
  - rewrite with_heap_twice. rewrite decide_True by done.
    split_and!; [by apply inv_forget|done|done|]. right; right. split; [done|apply lookup_delete_eq].
Qed.

(** What was written to the connection kept for a node. *)
Definition live_written (c : StreamClient) (n : string) : list bytes :=
  match conns c !! n with
  | Some id => match heap c !! id with Some o => written o | None => [] end
  | None => []
  end.

Lemma dial_written c n now ok id c1 :
  client_inv c -> dial c n now ok = (inl id, c1) ->
  exists o, heap c1 !! id = Some o /\ live o /\ written o = live_written c n.
Proof.
  intros HI. unfold dial, dial_lookup, live_written. destruct (conns c !! n) as [id'|] eqn:En.
  - intros [= <- <-]. destruct (ci_live _ HI n id' En) as (o & Ho & Hl). rewrite Ho.
    exists (touch now o). simpl. by rewrite lookup_alter_eq, Ho.
  - destruct ok; [|done]. unfold dial_install. simpl. rewrite En. intros [= <- <-]. simpl.
    rewrite lookup_insert_eq. eexists. split_and!; [done| |done]. by split.
Qed.

(** The batch of a successful send: introduced by a handshake exactly when it
    is the first on its connection. *)
Definition first_stamped (c : StreamClient) (n : string) (batch : Batch) (ls : Z) : Batch :=
  if decide (live_written c n = [])
  then mkBatch (FromNode batch) (Entries batch) (Some (mkHandshake ls (c_authToken c))) else batch.

Lemma SendBatch_written c n batch ls now dok wok :
  client_inv c -> b_Handshake batch = None ->
  let '(err, c') := SendBatch c n batch ls now dok wok in
  (dok = true -> wok = true -> err = None) /\
  (err = None -> exists data, Batch_MarshalMsg (first_stamped c n batch ls) [] = Ok data /\
     live_written c' n = live_written c n ++ [data]).
Proof.
  intros HI Hb. pose proof (dial_inv c n now dok HI) as Hd. unfold SendBatch.
  destruct (dial c n now dok) as [[id|e] c1] eqn:Ed; destruct Hd as (HI1 & Ht & Hn).
  - destruct (dial_written c n now dok id c1 HI Ed) as (o & Ho & Hl & Hw). rewrite Ho.
    assert (Hst : first_stamped c n batch ls = stamped (c_authToken c1) o batch ls).
    { unfold first_stamped, stamped. rewrite <- Hw, Ht. destruct Hl as [_ Hl].
      destruct (handshakeDone o); case_decide as E; try done; [by apply Hl in E|].
      destruct (written o); [done|]. by destruct Hl as [_ Hl']; discriminate Hl'. }
    assert (Hc : exists c2, (if handshakeDone o then (batch, c1)
        else (mkBatch (FromNode batch) (Entries batch) (Some (mkHandshake ls (c_authToken c1))),
              with_heap (alter shake id) c1)) = (first_stamped c n batch ls, c2) /\
      conns c2 = conns c1 /\ exists o2, heap c2 !! id = Some o2 /\ written o2 = written o).
    { rewrite Hst. unfold stamped. destruct (handshakeDone o); eexists; split; eauto.
      split; [done|]. simpl. rewrite lookup_alter_eq, Ho. simpl. eauto. }
    destruct Hc as (c2 & -> & Hconns & o2 & Ho2 & Hw2).
    destruct (Batch_MarshalMsg_total (first_stamped c n batch ls)) as [data ->].
    destruct wok; [|done]. split; [done|]. intros _. exists data. split; [done|].
    unfold live_written at 1. simpl. by rewrite Hconns, Hn, lookup_alter_eq, Ho2, <- Hw, <- Hw2.
  - split; [|done]. intros -> _. revert Ed. unfold dial. destruct (dial_lookup _ _ _) as [[|] ?]; [done|].
    by destruct (dial_install _ _ _).
Qed.

Lemma CloseConn_inv c n : client_inv c -> client_inv (CloseConn c n).
Proof. intros HI. unfold CloseConn. destruct (conns c !! n) eqn:E; [by apply inv_forget|done]. Qed.

Lemma janitor_fold_inv now l c :
  NoDup l.*1 -> (forall kv, kv ∈ l -> conns c !! kv.1 = Some kv.2) -> client_inv c ->
  client_inv (foldl (janitor_one now) c l) /\ c_authToken (foldl (janitor_one now) c l) = c_authToken c.
Proof.
  revert c. induction l as [|[n id] l IH]; intros c Hnd Hin HI; [done|]. inv Hnd. cbn [foldl].
  unfold janitor_one at 2 4. simpl. destruct (heap c !! id) as [cc|]; [case_ifs|]; [|apply IH; set_solver..].
  edestruct IH as [HIa HIb]; [done| | |split; [exact HIa|exact HIb]].
  - intros kv Hkv. simpl. rewrite lookup_delete_ne; [set_solver|].
    intros ->. match goal with H : _ ∉ _ |- _ => apply H end. by apply list_elem_of_fmap_2.
  - apply inv_forget; [|done|done]. apply (Hin (n, id)). set_solver.
Qed.

Lemma janitor_inv `{RangeOrder} c now :
  client_inv c -> client_inv (janitor_tick c now) /\ c_authToken (janitor_tick c now) = c_authToken c.
Proof.
  apply janitor_fold_inv; rewrite ?range_perm; [apply NoDup_fst_map_to_list|].
  intros [k v]. rewrite range_perm. by rewrite elem_of_map_to_list.
Qed.

Lemma close_all_lookup (l : list (string * nat)) c id :
  heap (foldl (fun c kv => with_heap (alter close_conn kv.2) c) c l) !! id
  = (if decide (id ∈ l.*2) then close_conn else fun o => o) <$> heap c !! id.
Proof.
  revert c. induction l as [|[k i] l IH]; intros c; [by rewrite option_fmap_id|]. rewrite fmap_cons. cbn [foldl].
  rewrite IH. cbn [heap with_heap snd]. rewrite lookup_alter. destruct (decide (i = id)) as [->|Hne].
  - rewrite (decide_True (P := id ∈ id :: l.*2)) by (by left). destruct (heap c !! id) as [o|]; [|done]. simpl.
    by case_decide.
  - destruct (decide (id ∈ l.*2)) as [Hin|Hin]; [by rewrite decide_True by (by right)|].
    rewrite decide_False; [done|]. intros [?|?]%elem_of_cons; congruence.
Qed.

(** Closing the client closes every connection it still holds. *)
Lemma client_Close_closes `{RangeOrder} c n id o :
  conns c !! n = Some id -> heap (client_Close c) !! id = Some o -> conn_closed o = true.
Proof.
  intros Hn. unfold client_Close. simpl. rewrite close_all_lookup, decide_True.
  - intros (o' & _ & ->)%fmap_Some. done.
  - apply list_elem_of_fmap. exists (n, id). split; [done|]. rewrite (range_perm _ (conns c)). by apply elem_of_map_to_list.
Qed.

Lemma client_Close_inv `{RangeOrder} c :
  client_inv c -> client_inv (client_Close c) /\ c_authToken (client_Close c) = c_authToken c.
Proof.
  intros HI. unfold client_Close.
  assert (forall (l : list (string * nat)) c', (forall id o, heap c' !! id = Some o -> session (c_authToken c') (written o)) ->
    let c2 := foldl (fun c kv => with_heap (alter close_conn kv.2) c) c' l in
    (forall id o, heap c2 !! id = Some o -> session (c_authToken c2) (written o)) /\
    c_authToken c2 = c_authToken c') as Hgen.
  { induction l as [|[k i] l IH]; intros c' Hc'; [done|]. simpl.
    destruct (IH (with_heap (alter close_conn i) c')) as [H1 H2]; [|done].
    simpl. intros id o. rewrite lookup_alter. case_decide; subst; [|apply Hc'].
    intros (o' & Ho & ->)%fmap_Some. by apply (Hc' _ _ Ho). }
  destruct (Hgen (range (conns c)) c (ci_session _ HI)) as [H1 H2].
  split; [|done]. split; simpl; [done|..]; intros *; by rewrite lookup_empty.
Qed.

(** ** Histories *)

Inductive client_op :=
| OpSend (nodeID : string) (batch : Batch) (lastSeen now : Z) (dial_ok write_ok : bool)
| OpJanitor (now : Z)
| OpCloseConn (nodeID : string)
| OpClose.

Definition client_step `{RangeOrder} (c : StreamClient) (op : client_op) : StreamClient :=
  match op with
  | OpSend n b ls now dok wok => (SendBatch c n b ls now dok wok).2
  | OpJanitor now => janitor_tick c now
  | OpCloseConn n => CloseConn c n
  | OpClose => client_Close c
  end.

(** The callers of [SendBatch] leave the handshake to it. *)
Definition op_ok (op : client_op) : Prop :=
  match op with OpSend _ b _ _ _ _ => b_Handshake b = None | _ => True end.

Lemma client_run_inv `{RangeOrder} c ops :
  client_inv c -> Forall op_ok ops ->
  client_inv (foldl client_step c ops) /\ c_authToken (foldl client_step c ops) = c_authToken c.
Proof.
  intros HI Hops. revert c HI. induction Hops as [|op ops Hop _ IH]; intros c HI; [done|].
  assert (client_inv (client_step c op) /\ c_authToken (client_step c op) = c_authToken c) as [H1 H2].
  { destruct op as [n b ls now dok wok|now|n|]; simpl in *.
    - pose proof (SendBatch_spec c n b ls now dok wok HI Hop) as Hs.
      destruct (SendBatch c n b ls now dok wok). by destruct Hs as (? & ? & _).
    - by apply janitor_inv.
    - split; [by apply CloseConn_inv|]. unfold CloseConn. by destruct (conns c !! n).
    - by apply client_Close_inv. }
  simpl. destruct (IH _ H1) as [? ?]. split; [done|congruence].
Qed.
End client.

(** ** Theorems *)

(** C35: The client introduces itself on every connection: after any history of
    sends (dials and writes failing or not), idle-connection cleanups and
    closes, what was written to any connection, open or closed, decodes to a
    sequence of batches of which the first carries the handshake with the
    client's token and no other carries one; a connection kept for a node is
    not closed, and no two nodes share one. *)
Theorem client_sessions {W : Wire} `{RangeOrder} (tok : string) (ops : list client_op) :
  Forall op_ok ops ->
  let c := foldl client_step (NewStreamClient tok) ops in
  (forall id o, heap c !! id = Some o ->
     exists bs, Forall2 (fun b data => Batch_MarshalMsg b [] = Ok data) bs (written o) /\ wf_session tok bs) /\
  (forall n id, conns c !! n = Some id -> exists o, heap c !! id = Some o /\ conn_closed o = false) /\
  (forall n n' id, conns c !! n = Some id -> conns c !! n' = Some id -> n = n').
Proof.
  intros Hops c. destruct (client_run_inv (NewStreamClient tok) ops (new_inv tok) Hops) as [[H1 H2 H3] Ht].
  fold c in H1, H2, H3, Ht. rewrite Ht in H1. split_and!; [exact H1| |exact H3].
  intros n id Hn. destruct (H2 n id Hn) as (o & Ho & Hc & _). eauto.
Qed.

Definition client_history : list client_op :=
  let b := mkBatch "n1" [Some [Byte.x01]] None in
  [OpSend "n2" b 0 100 true true; OpSend "n2" b 0 200 true true; OpSend "n2" b 0 300 true false;
   OpSend "n2" b 0 400 false true; OpSend "n2" b 4 500 true true; OpJanitor 1000].

Lemma client_sessions_witness :
  let c := foldl (client_step (W := Fixed.wire)) (NewStreamClient "secret") client_history in
  (forall n id, conns c !! n = Some id -> exists o, heap c !! id = Some o /\ conn_closed o = false) /\
  (length ∘ written <$> heap c !! 0%nat) = Some 2%nat /\ conns c !! "n2" = Some 1%nat.
Proof.
  split; [|by vm_compute].
  apply (client_sessions (W := Fixed.wire) "secret" client_history). repeat constructor.
Defined.

(** ** The buffer pool

    Buffers are known by their capacity; the pool makes a new one of 1 MB when
    it is empty.  Which pooled buffer [Get] returns is up to the runtime. *)
Definition pool_new : Z := 1024 * 1024.

Inductive pool_get : list Z -> Z -> list Z -> Prop :=
| get_new pool : pool_get pool pool_new pool
| get_pooled l r cap : pool_get (l ++ cap :: r) cap (l ++ r).

Definition putBatchBuffer (cap : Z) (pool : list Z) : list Z :=
  if cap <=? 16 * 1024 * 1024 then cap :: pool else pool.

(** One [SendBatch]: a buffer is taken and given back with the capacity [cap]
    the encoding left it with, or as it was when the encoding failed. *)
Inductive pool_step : list Z -> list Z -> Prop :=
| pool_send p c p' cap : pool_get p c p' -> c <= cap -> pool_step p (putBatchBuffer cap p').

(** No pooled buffer is larger than 16 MB, however large the batches. *)
Lemma pool_bounded p p' :
  rtc pool_step p p' -> Forall (fun c => c <= 16 * 1024 * 1024) p -> Forall (fun c => c <= 16 * 1024 * 1024) p'.
Proof.
  induction 1 as [|p p1 p2 [p0 c q cap Hg Hc] _ IH]; [done|]. intros Hp. apply IH.
  assert (Hq : Forall (fun c => c <= 16 * 1024 * 1024) q).
  { destruct Hg; [done|]. apply Forall_app in Hp as [? [_ ?]%Forall_cons]. by apply Forall_app. }
  unfold putBatchBuffer. case_ifs; [constructor; [lia|done]|done].
Qed.
