(* ===== verification/Node.v ===== *)
(** * A Capacitor node (src/capacitor.go)

    The node's state and its operations, composed from the components as the
    source composes them.  Clock readings ([time.Now]) and measured latencies
    are arguments; the MessagePack library used for user values
    (vmihailenco/msgpack) is the class [Msgpack].  An operation that appends to
    the delta log returns a [go] outcome, since [Append] can panic. *)

From S2P Require Import Prelude Float64 Hlc Types Msgp Codec DeltaLog Store Metrics Client.

#[local] Open Scope Z_scope.
#[local] Open Scope go_scope.

(** ** The library for user values

    [Marshal v]; [Unmarshal_any b] leaves a value in a variable of type [any]
    and returns an error; [Unmarshal_into t old b] leaves a value in a variable
    of another type [t] that held [old]. *)
Class Msgpack (O T : Type) := {
  Marshal : any O -> result bytes;
  Unmarshal_any : bytes -> any O * option merr;
  Unmarshal_into : T -> any O -> bytes -> any O * option merr;
  typeOf : O -> T;
  type_eq_dec :: EqDecision T
}.

(** What [Unmarshal] leaves in the [any] it is given for the encoding of a value
    (whether or not it returns an error, which the source drops): documented to
    be the value itself for strings, non-empty byte slices and nil; other types
    may change (an [int] comes back as the smallest integer type) or not decode
    (a map with keys that are not strings). *)
Class MsgpackLaws {O T} (M : Msgpack O T) := {
  canon : any O -> any O;
  Unmarshal_Marshal v b : Marshal v = Ok b -> (Unmarshal_any b).1 = canon v;
  canon_string s : canon (AString s) = AString s;
  canon_bytes b : b <> [] -> canon (ABytes b) = ABytes b;
  canon_nil : canon ANil = ANil;
  Marshal_string s : exists b, Marshal (AString s) = Ok b;
  Marshal_bytes b : exists b', Marshal (ABytes b) = Ok b'
}.

Inductive cap_error := NotFound (key : string) | MsgpackError (e : merr).

Record Capacitor (O : Type) := mkCap {
  nodeID : string;
  cstore : store O;
  hlc : HLC;
  dlog : DeltaLog;
  client : StreamClient;
  metrics : MetricsTracker;
  authToken : string;
  cpeerSeqs : gmap string Z;
  (** the stop channel of each peer's replicator, the replicators started
      (peer, address, channel), and the channels closed *)
  peerStops : gmap string nat;
  replicators : list (string * string * nat);
  closed : gset nat;
  disableMetrics : bool
}.
Arguments mkCap {O}.
Arguments nodeID {O}. Arguments cstore {O}. Arguments hlc {O}. Arguments dlog {O}.
Arguments client {O}. Arguments metrics {O}. Arguments authToken {O}. Arguments cpeerSeqs {O}.
Arguments peerStops {O}. Arguments replicators {O}. Arguments closed {O}. Arguments disableMetrics {O}.

Section with_fields.
Context {O : Type}.
Implicit Types f : Capacitor O.

Definition with_store (s : store O) f : Capacitor O :=
  mkCap (nodeID f) s (hlc f) (dlog f) (client f) (metrics f) (authToken f) (cpeerSeqs f)
    (peerStops f) (replicators f) (closed f) (disableMetrics f).
Definition with_hlc (h : HLC) f : Capacitor O :=
  mkCap (nodeID f) (cstore f) h (dlog f) (client f) (metrics f) (authToken f) (cpeerSeqs f)
    (peerStops f) (replicators f) (closed f) (disableMetrics f).
Definition with_log (l : DeltaLog) f : Capacitor O :=
  mkCap (nodeID f) (cstore f) (hlc f) l (client f) (metrics f) (authToken f) (cpeerSeqs f)
    (peerStops f) (replicators f) (closed f) (disableMetrics f).
Definition with_client (c : StreamClient) f : Capacitor O :=
  mkCap (nodeID f) (cstore f) (hlc f) (dlog f) c (metrics f) (authToken f) (cpeerSeqs f)
    (peerStops f) (replicators f) (closed f) (disableMetrics f).
Definition with_metrics (m : MetricsTracker) f : Capacitor O :=
  mkCap (nodeID f) (cstore f) (hlc f) (dlog f) (client f) m (authToken f) (cpeerSeqs f)
    (peerStops f) (replicators f) (closed f) (disableMetrics f).
Definition with_cpeerSeqs (p : gmap string Z) f : Capacitor O :=
  mkCap (nodeID f) (cstore f) (hlc f) (dlog f) (client f) (metrics f) (authToken f) p
    (peerStops f) (replicators f) (closed f) (disableMetrics f).
Definition with_peers (ps : gmap string nat) (rs : list (string * string * nat)) (cl : gset nat) f
    : Capacitor O :=
  mkCap (nodeID f) (cstore f) (hlc f) (dlog f) (client f) (metrics f) (authToken f) (cpeerSeqs f)
    ps rs cl (disableMetrics f).
End with_fields.

(** Which latency is recorded. *)
Inductive lat_kind := LSet | LGet | LIncr | LReplicate.

Definition record_lat (k : lat_kind) (d : Z) (m : MetricsTracker) : MetricsTracker :=
  mkTracker
    (match k with LSet => Stat_Record (SetLat m) d | _ => SetLat m end)
    (match k with LGet => Stat_Record (GetLat m) d | _ => GetLat m end)
    (match k with LIncr => Stat_Record (IncrLat m) d | _ => IncrLat m end)
    (match k with LReplicate => Stat_Record (ReplicateLat m) d | _ => ReplicateLat m end)
    (PeakAlloc m) (PeakHeapAlloc m) (PeakSys m).

(** [time.Millisecond], [Duration.Milliseconds] (truncating) and
    [time.Duration(ms) * time.Millisecond] *)
Definition Millisecond : Z := 1000000.
Definition Milliseconds (d : Z) : Z := Z.quot d Millisecond.
Definition of_millis (ms : Z) : Z := int64 (ms * Millisecond).

(** [Time.Sub] saturates. *)
Definition time_since (now t : Z) : Z :=
  Z.max (-9223372036854775808) (Z.min 9223372036854775807 (now - t)).

Section node.
Context {O T : Type} {M : Msgpack O T} {W : Wire}.
Implicit Types f : Capacitor O.

(** [if !f.disableMetrics { f.metrics.XLat.Record(lat) }] *)
Definition observe (k : lat_kind) (lat : Z) f : Capacitor O :=
  if disableMetrics f then f else with_metrics (record_lat k lat (metrics f)) f.

(** [f.hlc.Now()] *)
Definition tick f (wall : Z) : Timestamp * Capacitor O :=
  let '(ts, h) := Now (hlc f) wall in (ts, with_hlc h f).

(** [f.log.Append(e)], the sequence number dropped *)
Definition append f (e : LogEntry) : go (Capacitor O) :=
  let! (_, l) := log_Append (dlog f) e in Ret (with_log l f).

(** ** Writes *)

Definition cp_Set f (key : string) (value : any O) (ttl wall born lat : Z)
    : go (option merr * Capacitor O) :=
  let '(ts, f) := tick f wall in
  let f := with_store (store_set (cstore f) key value ts ttl) f in
  match Marshal value with
  | Err e => Ret (Some e, f)
  | Ok binVal =>
      let! f := append f
        (mkLogEntry 0 ts born MsgSet key EmptyString (Some binVal) fzero (Milliseconds ttl)) in
      Ret (None, observe LSet lat f)
  end.

Definition cp_Delete f (key : string) (wall born lat : Z) : go (Capacitor O) :=
  let '(ts, f) := tick f wall in
  let f := with_store (store_delete (cstore f) key ts) f in
  let! f := append f (mkLogEntry 0 ts born MsgDelete key EmptyString None fzero 0) in
  Ret (observe LSet lat f).

Definition IncrementBy f (key : string) (delta wall born lat : Z) : go (Z * Capacitor O) :=
  let '(val, s) := increment (cstore f) key (nodeID f) (float64_of_Z delta) in
  let f := with_store s f in
  let nodeVal := getNodeCount (cstore f) key (nodeID f) in
  let '(ts, f) := tick f wall in
  let! f := append f (mkLogEntry 0 ts born MsgIncr key (nodeID f) None nodeVal 0) in
  Ret (int64_of_float val, observe LIncr lat f).

Definition Increment f (key : string) (wall born lat : Z) : go (Z * Capacitor O) :=
  IncrementBy f key 1 wall born lat.

(** The clock readings of each call come from [clock]. *)
Fixpoint IncrementParallel f (keys : list string) (res : gmap string Z) (clock : nat -> Z * Z * Z)
    : go (gmap string Z * Capacitor O) :=
  match keys with
  | [] => Ret (res, f)
  | k :: keys =>
      let '(wall, born, lat) := clock (length keys) in
      let! (val, f) := Increment f k wall born lat in
      IncrementParallel f keys (<[k := val]> res) clock
  end.

Definition cp_IncrementMetric f (key : string) (delta : float64) (wall : Z) : go (Metric * Capacitor O) :=
  let '(m, s) := incrementMetric (cstore f) key (nodeID f) delta in
  let f := with_store s f in
  let '(ts, f) := tick f wall in
  let! f := append f (mkLogEntry 0 ts 0 MsgMetric key (nodeID f) None delta 0) in
  Ret (m, f).

Fixpoint IncrementMetricParallel f (keys : list (string * float64)) (res : gmap string Metric)
    (clock : nat -> Z) : go (gmap string Metric * Capacitor O) :=
  match keys with
  | [] => Ret (res, f)
  | (k, d) :: keys =>
      let! (m, f) := cp_IncrementMetric f k d (clock (length keys)) in
      IncrementMetricParallel f keys (<[k := m]> res) clock
  end.

Definition IncrementSlidingWindow f (key : string) (window wall now : Z) : go (Z * Capacitor O) :=
  let '(ts, f) := tick f wall in
  let '(count, s) := incrementSlidingWindow (cstore f) key (Physical ts) window now in
  let f := with_store s f in
  let! f := append f (mkLogEntry 0 ts 0 MsgWindow key (nodeID f) None fzero 0) in
  Ret (count, f).

(** ** Reads *)

Definition getInternal f (key : string) (now : Z) : string :=
  match store_get (cstore f) key now with
  | ANil => EmptyString
  | AString v => v
  | ABytes v => string_of_bytes v
  | AOther o => match Marshal (AOther o) with Ok b => string_of_bytes b | Err _ => EmptyString end
  end.

Definition cp_Get f (key : string) (now lat : Z) : string * Capacitor O :=
  (getInternal f key now, observe LGet lat f).

Definition cp_Exists f (key : string) (now lat : Z) : bool * Capacitor O :=
  (store_exists (cstore f) key now, observe LGet lat f).

Definition GetCount f (key : string) : Z := int64_of_float (getAggregateCount (cstore f) key).
Definition GetMetric f (key : string) : Metric := getAggregateMetric (cstore f) key.
Definition GetMetrics f : list Summary := GetSummary (metrics f).

(** A destination: a pointer to a string, to a byte slice or to another type,
    which points to [old]; a nil pointer; or no pointer at all (a value of a type,
    nil included), which only the decoder looks at. *)
Inductive dest := DString | DBytes | DOther (t : T) | DNilPtr | DValue (t : T).

(** [destVal.Elem()] of a nil pointer has no type: [Type] panics. *)
Definition getScanInternal f (key : string) (d : dest) (old : any O) (now : Z)
    : go (any O * option cap_error) :=
  let lift (r : any O * option merr) := (r.1, MsgpackError <$> r.2) in
  let scan (t : T) (rawVal : any O) :=
    match rawVal with
    | ABytes v => lift (Unmarshal_into t old v)
    | AString v => lift (Unmarshal_into t old (bytes_of_string v))
    | _ => match Marshal rawVal with
           | Err e => (old, Some (MsgpackError e))
           | Ok b => lift (Unmarshal_into t old b)
           end
    end in
  match store_get (cstore f) key now, d with
  | ANil, _ => Ret (old, Some (NotFound key))
  | _, DNilPtr => Panic
  | AString v, DString => Ret (AString v, None)
  | ABytes v, DString => Ret (AString (string_of_bytes v), None)
  | AOther o, DString =>
      Ret (AString match Marshal (AOther o) with Ok b => string_of_bytes b | Err _ => EmptyString end, None)
  | ABytes v, DBytes => Ret (ABytes v, None)
  | AString v, DBytes => Ret (ABytes (bytes_of_string v), None)
  | AOther o, DBytes => Ret (ABytes match Marshal (AOther o) with Ok b => b | Err _ => [] end, None)
  | AOther o, DOther t => Ret (if decide (typeOf o = t) then (AOther o, None) else scan t (AOther o))
  | rawVal, DOther t => Ret (scan t rawVal)
  | rawVal, DValue t => Ret (scan t rawVal)
  end.

Definition GetScan f (key : string) (d : dest) (old : any O) (now lat : Z)
    : go (any O * option cap_error * Capacitor O) :=
  let! r := getScanInternal f key d old now in Ret (r, observe LGet lat f).

(** ** Remote entries *)

Definition apply_op (s : store O) (e : LogEntry) : store O :=
  if Op e =? MsgSet then
    let val := (Unmarshal_any (contents (Value e))).1 in
    store_set s (Key e) val (TS e) (of_millis (TTL e))
  else if Op e =? MsgIncr then setNodeCount s (Key e) (NodeID e) (Delta e)
  else if Op e =? MsgMetric then (incrementMetric s (Key e) (NodeID e) (Delta e)).2
  else if Op e =? MsgWindow then addWindowTimestamp s (Key e) (Physical (TS e))
  else if Op e =? MsgDelete then store_delete s (Key e) (TS e)
  else s.

(** [now] is the reading for the replication latency, [wall] the clock's. *)
Definition applyRemoteEntry f (e : LogEntry) (now wall : Z) : Capacitor O :=
  let f := if 0 <? BornAt e
           then with_metrics (record_lat LReplicate (time_since now (BornAt e)) (metrics f)) f
           else f in
  match Update (hlc f) wall (TS e) with
  | ((_, Some _), h) => with_hlc h f
  | ((_, None), h) =>
      let f := with_hlc h f in
      let s := apply_op (cstore f) e in
      with_store (updatePeerSeq s (NodeID e) (Seq e)) f
  end.

(** ** Replication to peers *)

Definition startPeerReplicator f (peer addr : string) : Capacitor O :=
  if decide (addr = EmptyString) then f
  else match peerStops f !! peer with
       | Some _ => f
       | None =>
           let stop := length (replicators f) in
           with_peers (<[peer := stop]> (peerStops f)) (replicators f ++ [(peer, addr, stop)]) (closed f) f
       end.

Definition stopPeerReplicator f (peer : string) : Capacitor O :=
  let f := match peerStops f !! peer with
           | Some stop => with_peers (delete peer (peerStops f)) (replicators f) ({[stop]} ∪ closed f) f
           | None => f
           end in
  with_cpeerSeqs (delete peer (cpeerSeqs f)) f.

Definition NotifyJoin f (name meta : string) : Capacitor O :=
  if decide (name = nodeID f) then f else startPeerReplicator f name meta.

Definition NotifyLeave f (name : string) : Capacitor O :=
  stopPeerReplicator (with_client (CloseConn (client f) name) f) name.

(** The position of a peer: the last sequence number replicated to it. *)
Definition lastSeq f (peer : string) : Z :=
  match cpeerSeqs f !! peer with Some s => s | None => getPeerSeq (cstore f) peer end.

Definition replicateToPeer f (peer : string) (now : Z) (dial_ok write_ok : bool) : go (Capacitor O) :=
  let last := lastSeq f peer in
  let f := with_cpeerSeqs (<[peer := last]> (cpeerSeqs f)) f in (* LoadOrStore *)
  let! rawEntries := GetEntriesRaw (dlog f) (uint64 (last + 1)) 1000 (8 * 1024 * 1024) in
  match rawEntries with
  | [] => Ret f
  | _ =>
      let batch := mkBatch (nodeID f) (Some <$> rawEntries) None in
      let lastSeenRemote := getPeerSeq (cstore f) peer in
      let '(err, c) := SendBatch (client f) peer batch lastSeenRemote now dial_ok write_ok in
      let f := with_client c f in
      match err with
      | None => Ret (with_cpeerSeqs (<[peer := uint64 (last + uint64 (zlen rawEntries))]> (cpeerSeqs f)) f)
      | Some _ => Ret f
      end
  end.

(** One round of [peerReplicatorLoop]: stop, wait for new entries, or send. *)
Inductive loop_outcome := LoopExit | LoopWait | LoopSent (f : Capacitor O).

Definition replicator_round f (cancelled : bool) (peer : string) (stop : nat)
    (now : Z) (dial_ok write_ok : bool) : go loop_outcome :=
  if decide (stop ∈ closed f) then Ret LoopExit
  else if cancelled then Ret LoopExit
  else if uint64 (lastSeq f peer + 1) <? head (dlog f)
  then let! f := replicateToPeer f peer now dial_ok write_ok in Ret (LoopSent f)
  else Ret LoopWait.
End node.

(** ** A concrete library for values, and a new node

    Tagged strings and byte slices; values of other types are refused. *)
Module Tagged.
Definition marshal_any (v : any unit) : result bytes :=
  match v with
  | ANil => Ok [Byte.x00]
  | AString s => Ok (Byte.x01 :: bytes_of_string s)
  | ABytes b => Ok (Byte.x02 :: b)
  | AOther _ => Err (LibError "unsupported type")
  end.

Definition unmarshal_any (b : bytes) : any unit * option merr :=
  match b with
  | Byte.x00 :: _ => (ANil, None)
  | Byte.x01 :: b => (AString (string_of_bytes b), None)
  | Byte.x02 :: b => (ABytes b, None)
  | _ => (ANil, Some (LibError "invalid code"))
  end.

#[export] Instance msgpack : Msgpack unit unit := {
  Marshal := marshal_any;
  Unmarshal_any := unmarshal_any;
  Unmarshal_into _ _ b := unmarshal_any b;
  typeOf _ := tt
}.

Lemma unmarshal_marshal v b : marshal_any v = Ok b -> unmarshal_any b = (v, None).
Proof.
  destruct v as [|s|b'|o]; intros Hm; simpl in Hm; simplify_eq; simpl; [done| |done].
  by rewrite string_of_bytes_of_string.
Qed.

#[export] Instance laws : MsgpackLaws msgpack.
Proof.
  refine {| canon := fun v => v |}; try done.
  - intros v b Hm. exact (f_equal fst (unmarshal_marshal v b Hm)).
  - simpl. eauto.
  - simpl. eauto.
Defined.
End Tagged.

(** The part of [New] that sets up the node: an empty store, a clock at the
    current time, an empty log, no peers. *)
Definition new_node {O} (id token : string) (LogSize wall : Z) (disable : bool) : Capacitor O :=
  let LogSize := if LogSize =? 0 then 1000000 else LogSize in
  mkCap id empty_store (NewHLC wall) (NewDeltaLog LogSize) (NewStreamClient token) NewMetricsTracker
    token ∅ ∅ [] ∅ disable.
