(* ===== verification/Reads.v ===== *)
(** * Reads of a node (src/capacitor.go: Get, GetScan, Exists)

    [GetScan] has a case for each kind of stored value and destination; here its
    errors are characterised and its string and byte destinations are shown to
    agree with [Get]. *)

From S2P Require Import Prelude Float64 Hlc Types Msgp Codec DeltaLog Store StoreProofs Metrics Client Node.

#[local] Open Scope Z_scope.
#[local] Open Scope go_scope.

Section reads.
Context {O T : Type} {M : Msgpack O T}.
Implicit Types f : Capacitor O.

(** A key that does not exist reads as nil. *)
Lemma exists_get (s : store O) key now : store_exists s key now = false -> store_get s key now = ANil.
Proof. unfold store_exists, store_get. destruct (_ !! key) as [v|]; [|done]. by case_ifs. Qed.

Lemma observe_keeps k lat f :
  cstore (observe k lat f) = cstore f /\ hlc (observe k lat f) = hlc f /\ dlog (observe k lat f) = dlog f /\
  cpeerSeqs (observe k lat f) = cpeerSeqs f.
Proof. unfold observe. by case_ifs. Qed.

Lemma scan_string f key old now :
  store_get (cstore f) key now <> ANil ->
  getScanInternal f key DString old now = Ret (AString (getInternal f key now), None).
Proof. intros Hn. unfold getScanInternal, getInternal. by destruct (store_get (cstore f) key now). Qed.

Lemma scan_bytes f key old now :
  store_get (cstore f) key now <> ANil ->
  getScanInternal f key DBytes old now = Ret (ABytes (bytes_of_string (getInternal f key now)), None).
Proof.
  intros Hn. unfold getScanInternal, getInternal.
  destruct (store_get (cstore f) key now) as [|s|b|o]; try done; [by rewrite bytes_of_string_of_bytes|].
  destruct (Marshal (AOther o)); [by rewrite bytes_of_string_of_bytes|done].
Qed.

(** A value that was read, into a destination that is no nil pointer: the scan
    returns, and its error is none or the decoder's. *)
Lemma scan_returns f key d old now :
  store_get (cstore f) key now <> ANil -> d <> DNilPtr ->
  exists v e, getScanInternal f key d old now = Ret (v, MsgpackError <$> e) /\
    (is_Some e -> exists t, d = DOther t \/ d = DValue t).
Proof.
  intros Hn Hd. unfold getScanInternal. destruct (store_get (cstore f) key now) as [|s|b|o]; [done|..];
    destruct d as [| |t| |t]; try done; try case_decide; try destruct (Marshal (AOther o)) as [b|e];
    first [by eexists _, None|eexists _, (Some _); split; [done|eauto]|eexists _, _; split; [done|eauto]].
Qed.
End reads.

(** ** Theorem *)

(** C17: The outcomes of [GetScan]: it panics exactly when there is a value to
    store and the destination is a nil pointer; otherwise it reports the key as not
    found exactly when the value read is nil (the key is absent, deleted, expired,
    or holds nil), then with the key asked for and the destination untouched, and
    always so for a key that does not exist; into a string or a byte slice there is
    no other error and the result is what [Get] returns; only another destination
    can give an error of the decoder; and store, clock, log and positions are not
    changed. *)
Theorem GetScan_errors {O T} {M : Msgpack O T} (f : Capacitor O) key d old now lat :
  match GetScan f key d old now lat with
  | Panic => d = DNilPtr /\ store_get (cstore f) key now <> ANil
  | Ret (v, e, f') =>
      ~ (d = DNilPtr /\ store_get (cstore f) key now <> ANil) /\
      (e = Some (NotFound key) <-> store_get (cstore f) key now = ANil) /\
      (forall k, e = Some (NotFound k) -> k = key /\ v = old) /\
      (store_exists (cstore f) key now = false -> v = old /\ e = Some (NotFound key)) /\
      (d = DString -> store_get (cstore f) key now <> ANil -> v = AString (cp_Get f key now lat).1 /\ e = None) /\
      (d = DBytes -> store_get (cstore f) key now <> ANil ->
         v = ABytes (bytes_of_string (cp_Get f key now lat).1) /\ e = None) /\
      (forall e', e = Some (MsgpackError e') -> exists t, d = DOther t \/ d = DValue t) /\
      cstore f' = cstore f /\ hlc f' = hlc f /\ dlog f' = dlog f /\ cpeerSeqs f' = cpeerSeqs f
  end.
Proof.
  unfold GetScan. pose proof (observe_keeps LGet lat f) as Hk. cbn [cp_Get fst].
  assert (Hg : {store_get (cstore f) key now = ANil} + {store_get (cstore f) key now <> ANil})
    by (destruct (store_get _ _ _); [by left|by right..]).
  destruct Hg as [Hn|Hn].
  - unfold getScanInternal. rewrite Hn. cbn [go_bind].
    split_and!; try done; try apply Hk; [by intros [_ ?]|by intros k [= <-]].
  - assert (Hx : store_exists (cstore f) key now <> false) by (by intros ?%exists_get).
    assert (Hd : {d = DNilPtr} + {d <> DNilPtr}) by (destruct d; by (left + right)). destruct Hd as [->|Hd].
    { assert (getScanInternal f key DNilPtr old now = Panic) as ->; [|done].
      unfold getScanInternal. by destruct (store_get (cstore f) key now). }
    destruct (scan_returns f key d old now Hn Hd) as (v & e & Hr & He). rewrite Hr. cbn [go_bind].
    split_and!; try apply Hk; try done.
    + by intros [? _].
    + split; [by destruct e|done].
    + by destruct e.
    + intros -> _. rewrite scan_string in Hr by done. by injection Hr as <- <-.
    + intros -> _. rewrite scan_bytes in Hr by done. by injection Hr as <- <-.
    + intros e' Hee. apply He. by destruct e.
Qed.

(** A key set to nil exists, but is reported as not found. *)
Example nil_exists_but_is_not_found :
  let f := with_store (store_set empty_store "k" ANil (mkTimestamp 1 0) 0) (new_node "n1" EmptyString 8 1 false) in
  store_exists (cstore f) "k" 5 = true /\
  (let! r := GetScan (M := Tagged.msgpack) f "k" DString (AString "old") 5 0 in Ret r.1)
  = Ret (AString "old", Some (NotFound "k")).
Proof. vm_compute. done. Qed.
