(* ===== verification/Server.v ===== *)
(** * The replication stream server (src/transport.go, StreamServer)

    [handleConn] does the TLS handshake of an accepted connection when TLS is
    on, and reads batches from at most 100 MB of the connection until the stream
    ends or a batch is refused.  The connection is the bytes the peer sends on it
    before it closes; [NewReader] makes the reader over them, a [Source];
    [clock] gives the two clock readings of the k-th entry applied on the
    connection. *)

From S2P Require Import Prelude Float64 Hlc Types Msgp Codec CodecProofs DeltaLog Store Metrics Client Node.

#[local] Open Scope Z_scope.

(** Why the handler returned. *)
Inductive conn_end := TLSFailed (e : merr) | EndStream (e : merr) | EndUnauthorized | EndMissingHandshake.

(** [io.LimitReader]: at most [n] bytes of what it reads. *)
Definition LimitReader (n : Z) (conn : bytes) : bytes := take (Z.to_nat n) conn.

Definition conn_limit : Z := 100 * 1024 * 1024.

Lemma LimitReader_all n conn : zlen conn <= n -> LimitReader n conn = conn.
Proof. intros H. unfold LimitReader, zlen in *. apply take_ge. lia. Qed.

(** The reader at the end of the stream has no map header to return. *)
Class SourceEOF {W : Wire} {S : Type} {HS : Source S} (SL : SourceLaws S) : Prop :=
  read_eof (s : S) : view s = [] -> exists e, ReadMapHeader s = Err e.

Section server.
Context {O T : Type} {M : Msgpack O T} {W : Wire} {S : Type} {HS : Source S} {SB : Source bytes}.
(** [msgp.NewReader(bufio.NewReader(...))] *)
Variable NewReader : bytes -> S.
Variable clock : nat -> Z * Z.
Implicit Types f : Capacitor O.

(** The loop over the entries of a batch; an entry that does not decode is
    skipped. *)
Fixpoint apply_entries f (k : nat) (raws : list (option bytes)) : Capacitor O * nat :=
  match raws with
  | [] => (f, k)
  | rawEntry :: raws =>
      match LogEntry_UnmarshalMsg zero_LogEntry (contents rawEntry) with
      | Err _ => apply_entries f k raws
      | Ok (entry, _) =>
          let '(now, wall) := clock k in
          apply_entries (applyRemoteEntry f entry now wall) (Datatypes.S k) raws
      end
  end.

(** One received batch: the connection ends, or its entries are applied. *)
Definition handle_batch f (firstBatch : bool) (k : nat) (batch : Batch) : conn_end + Capacitor O * nat :=
  let auth := negb (bool_decide (authToken f = EmptyString)) in
  match b_Handshake batch with
  | Some h =>
      if auth && negb (bool_decide (AuthToken h = authToken f)) then inl EndUnauthorized
      else
        let f := with_cpeerSeqs (<[FromNode batch := LastSeenSeq h]> (cpeerSeqs f)) f in
        inr (apply_entries f k (Entries batch))
  | None =>
      if firstBatch && auth then inl EndMissingHandshake
      else inr (apply_entries f k (Entries batch))
  end.

(** The loop; [None] when [fuel] batches were not enough. *)
Fixpoint serve (fuel : nat) f (firstBatch : bool) (k : nat) (s : S) : option (conn_end * Capacitor O) :=
  match fuel with
  | Datatypes.O => None
  | Datatypes.S fuel =>
      match Batch_DecodeMsg zero_Batch s with
      | Err e => Some (EndStream e, f)
      | Ok (batch, s) =>
          match handle_batch f firstBatch k batch with
          | inl r => Some (r, f)
          | inr (f, k) => serve fuel f false k s
          end
      end
  end.

(** The handler of a connection; [tls_error] is the error of the server's TLS
    handshake, [None] when it succeeded or TLS is off. *)
Definition handleConn (fuel : nat) f (tls_error : option merr) (conn : bytes) : option (conn_end * Capacitor O) :=
  match tls_error with
  | Some e => Some (TLSFailed e, f)
  | None => serve fuel f true 0 (NewReader (LimitReader conn_limit conn))
  end.

(** ** Correctness *)

Lemma apply_entries_contents f k raws raws' :
  contents <$> raws = contents <$> raws' -> apply_entries f k raws = apply_entries f k raws'.
Proof.
  revert f k raws'. induction raws as [|r raws IH]; intros f k [|r' raws'] H; try done.
  simpl in *. injection H as Hr Hraws. rewrite Hr.
  destruct (LogEntry_UnmarshalMsg _ _) as [[e rest]|]; [destruct (clock k)|]; by apply IH.
Qed.

Lemma applyRemoteEntry_auth f e now wall : authToken (applyRemoteEntry f e now wall) = authToken f.
Proof.
  unfold applyRemoteEntry. destruct (0 <? BornAt e);
  match goal with |- context [Update ?h ?w ?t] => destruct (Update h w t) as [[? []] ?] end; done.
Qed.

Lemma apply_entries_auth f k raws : authToken (apply_entries f k raws).1 = authToken f.
Proof.
  revert f k. induction raws as [|r raws IH]; intros f k; simpl; [done|].
  destruct (LogEntry_UnmarshalMsg _ _) as [[e rest]|]; [|done].
  destruct (clock k) as [now wall]. by rewrite IH, applyRemoteEntry_auth.
Qed.

(** What a session does to the node when it is accepted. *)
Definition accept_batch (fk : Capacitor O * nat) (b : Batch) : Capacitor O * nat :=
  let f := match b_Handshake b with
           | Some h => with_cpeerSeqs (<[FromNode b := LastSeenSeq h]> (cpeerSeqs fk.1)) fk.1
           | None => fk.1
           end in
  apply_entries f fk.2 (Entries b).

Lemma accept_batch_auth fk b : authToken (accept_batch fk b).1 = authToken fk.1.
Proof. unfold accept_batch. rewrite apply_entries_auth. by destruct (b_Handshake b). Qed.

(** A batch is admitted when authentication is off, when it carries the
    token, or when it carries nothing and is not the first. *)
Definition admits f (firstBatch : bool) (b : Batch) : Prop :=
  authToken f = EmptyString \/
  match b_Handshake b with Some h => AuthToken h = authToken f | None => firstBatch = false end.

Lemma handle_batch_admits f first k b b' :
  admits f first b -> Batch_equiv b' b -> handle_batch f first k b' = inr (accept_batch (f, k) b).
Proof.
  intros Ha [Hf He Hh]. unfold handle_batch, accept_batch. rewrite Hh, Hf. unfold admits in Ha.
  destruct (b_Handshake b) as [h|]; simpl.
  - destruct (bool_decide (authToken f = EmptyString)) eqn:E; simpl.
    + by rewrite (apply_entries_contents _ k _ _ He).
    + apply bool_decide_eq_false in E. destruct Ha as [|Ha]; [done|].
      rewrite bool_decide_true by done. simpl. by rewrite (apply_entries_contents _ k _ _ He).
  - rewrite (apply_entries_contents _ k _ _ He).
    destruct (bool_decide (authToken f = EmptyString)) eqn:E; simpl; [by rewrite andb_false_r|].
    apply bool_decide_eq_false in E. destruct Ha as [|Ha]; [done|]. by subst.
Qed.

Context {SL : SourceLaws S} {EOF : SourceEOF SL}.

(** Admitted batches are applied one after the other, up to the end of the
    stream; one iteration per batch and one for the end. *)
Lemma serve_admitted bs ws f first k s :
  Forall2 (fun b data => Batch_MarshalMsg b [] = Ok data) bs ws -> Forall Batch_ok bs ->
  view s = concat ws ->
  (forall f', authToken f' = authToken f -> forall i b, bs !! i = Some b ->
     admits f' (first && bool_decide (i = 0%nat)) b) ->
  exists e, serve (Datatypes.S (length bs)) f first k s = Some (EndStream e, (foldl accept_batch (f, k) bs).1).
Proof.
  intros Hw. revert f first k s. induction Hw as [|b w bs ws Hb _ IH]; intros f first k s Hok Hv Ha.
  - destruct (read_eof s Hv) as [e He]. exists (WrapError e []). simpl.
    unfold Batch_DecodeMsg, Batch_decode, decode_map. by rewrite He.
  - inv Hok. simpl in Hv.
    destruct (Batch_decode_enc b w s (concat ws)) as (b' & s' & Hd & Heq & Hv'); [done..|].
    cbn [length serve]. rewrite Hd.
    pose proof (Ha f eq_refl 0%nat b eq_refl) as Ha0. rewrite bool_decide_true, andb_true_r in Ha0 by done.
    rewrite (handle_batch_admits f first k b b' Ha0 Heq).
    pose proof (accept_batch_auth (f, k) b) as Hauth. simpl foldl.
    destruct (accept_batch (f, k) b) as [f1 k1]. apply IH; [done|done|].
    simpl in Hauth. intros f' Hf' i b0 Hi. rewrite andb_false_l.
    specialize (Ha f' ltac:(congruence) (Datatypes.S i) b0 Hi).
    by rewrite bool_decide_false, andb_false_r in Ha.
Qed.
End server.

(** The batches of a session are admitted by a server with its token, or none. *)
Lemma session_admits {O} (f f' : Capacitor O) tok bs i b :
  wf_session tok bs -> authToken f = EmptyString \/ authToken f = tok -> authToken f' = authToken f ->
  bs !! i = Some b -> admits f' (true && bool_decide (i = 0%nat)) b.
Proof.
  intros Hwf Ht Hf' Hi. unfold admits. rewrite Hf'. destruct Ht as [->|Ht]; [by left|right].
  destruct bs as [|b0 bs]; [done|]. destruct Hwf as [[ls H0] Hbs]. destruct i as [|i]; simpl in Hi.
  - simplify_eq. by rewrite H0.
  - rewrite (Forall_lookup_1 _ _ _ _ Hbs Hi). by rewrite bool_decide_false.
Qed.

(** A handler over a session within the limit, with a reader that gives the
    bytes it is made over. *)
Lemma handleConn_admitted {O T} {M : Msgpack O T} {W : Wire} {S} {HS : Source S} {SB : Source bytes}
    {SL : SourceLaws S} {EOF : SourceEOF SL} (NewReader : bytes -> S) clock bs ws (f : Capacitor O) :
  (forall b, view (NewReader b) = b) -> zlen (concat ws) <= conn_limit ->
  Forall2 (fun b data => Batch_MarshalMsg b [] = Ok data) bs ws -> Forall Batch_ok bs ->
  (forall f' : Capacitor O, authToken f' = authToken f -> forall i b, bs !! i = Some b ->
     admits f' (true && bool_decide (i = 0%nat)) b) ->
  exists e, handleConn NewReader clock (Datatypes.S (length bs)) f None (concat ws)
            = Some (EndStream e, (foldl (accept_batch clock) (f, 0%nat) bs).1).
Proof.
  intros Hr Hl Hw Hok Ha. unfold handleConn. rewrite LimitReader_all by done.
  apply (serve_admitted clock bs ws); auto.
Qed.

(** ** Theorems *)

(** C8: No effect without authentication: on a server with a token, a
    connection whose TLS handshake fails, or whose first batch does not decode,
    carries no handshake, or carries another token is ended there and the node
    is left exactly as it was, whatever the stream holds. *)
Theorem unauthenticated_connection_has_no_effect
    {O T} {M : Msgpack O T} {S} {HS : Source S} {SB : Source bytes}
    NewReader clock (f : Capacitor O) tls_error conn fuel :
  authToken f <> EmptyString ->
  (forall b (s' : S) h, Batch_DecodeMsg zero_Batch (NewReader (LimitReader conn_limit conn)) = Ok (b, s') ->
     b_Handshake b = Some h -> AuthToken h <> authToken f) ->
  exists r, handleConn NewReader clock (Datatypes.S fuel) f tls_error conn = Some (r, f).
Proof.
  intros Ht Hb. unfold handleConn. destruct tls_error as [e|]; [by eexists|]. cbn [serve].
  destruct (Batch_DecodeMsg zero_Batch (NewReader _)) as [[b s']|e] eqn:E; [|by eexists].
  unfold handle_batch. rewrite (bool_decide_false _ Ht).
  destruct (b_Handshake b) as [h|] eqn:Eh; [|by eexists].
  rewrite (bool_decide_false (AuthToken h = authToken f)); [by eexists|]. by eapply Hb.
Qed.

#[export] Instance fixed_eof : SourceEOF Fixed.source_laws.
Proof. intros s Hs. simpl in Hs. rewrite Hs. by eexists. Qed.

(** A server with a token, and the bytes of a session with token [tok]. *)
Definition sample_server : Capacitor unit := new_node "n2" "secret" 8 1000 false.

Definition sample_session (tok : string) : list Batch :=
  let raw := marshal (H := Fixed.wire) (mkLogEntry 1 (mkTimestamp 900 0) 0 MsgIncr "hits" "n1" None (float64_of_Z 3) 0) in
  [mkBatch "n1" [Some raw] (Some (mkHandshake 4 tok)); mkBatch "n1" [Some raw; Some [Byte.x2a]] None].

Definition session_bytes (tok : string) : list bytes :=
  (fun b => match Batch_MarshalMsg (H := Fixed.wire) b [] with Ok o => o | Err _ => [] end) <$> sample_session tok.

Lemma unauthenticated_connection_has_no_effect_witness :
  exists r, handleConn (HS := Fixed.source) (SB := Fixed.source) (M := Tagged.msgpack) (fun b => b)
    (fun _ => (2000, 2000)) 5 sample_server None (concat (session_bytes "guess")) = Some (r, sample_server).
Proof.
  apply (unauthenticated_connection_has_no_effect (HS := Fixed.source) (SB := Fixed.source)
    (M := Tagged.msgpack) (fun b => b) (fun _ => (2000, 2000)) sample_server None (concat (session_bytes "guess")) 4).
  - done.
  - intros b s' h Hd Hh. rewrite LimitReader_all in Hd by (by vm_compute).
    assert (Hs : option_map AuthToken (match Batch_DecodeMsg (H := Fixed.source) zero_Batch (concat (session_bytes "guess")) with
                       | Ok (b, _) => b_Handshake b | Err _ => None end) = Some "guess") by (by vm_compute).
    rewrite Hd, Hh in Hs. simpl in Hs. injection Hs as ->. done.
Defined.

(** The bytes of an accepted session. *)
Lemma sample_session_ok : Forall Batch_ok (sample_session "secret").
Proof.
  assert (Hr : forall z, is_uint32 z <-> (0 <=? z) && (z <? 4294967296) = true)
    by (intros; unfold is_uint32; lia).
  apply Forall_cons; split; [|apply Forall_singleton]; split; rewrite ?Forall_forall.
  - apply Hr. by vm_compute.
  - apply Hr. by vm_compute.
  - intros e ->%list_elem_of_singleton. apply Hr. by vm_compute.
  - intros h [= <-]. split; [by vm_compute|apply Hr; by vm_compute].
  - apply Hr. by vm_compute.
  - apply Hr. by vm_compute.
  - intros e [->| ->%list_elem_of_singleton]%elem_of_cons; apply Hr; by vm_compute.
  - done.
Qed.

(** What was written after the limit is lost, though the writes succeeded: with
    a limit one byte short of the second batch, only the first is applied. *)
Definition two_counts : bytes :=
  let raw n := marshal (H := Fixed.wire) (mkLogEntry 1 (mkTimestamp 900 0) 0 MsgIncr "hits" "n1" None (float64_of_Z n) 0) in
  [mkBatch "n1" [Some (raw 3)] (Some (mkHandshake 4 "secret")); mkBatch "n1" [Some (raw 5)] None]
    ≫= fun b => match Batch_MarshalMsg (H := Fixed.wire) b [] with Ok o => o | Err _ => [] end.

Example bytes_past_the_limit_are_lost :
  let served n := serve (M := Tagged.msgpack) (HS := Fixed.source) (SB := Fixed.source) (fun _ => (2000, 2000)) 5
                    sample_server true 0 (LimitReader n two_counts) in
  (fun r => GetCount r.2 "hits") <$> served (zlen two_counts) = Some 5 /\
  (fun r => GetCount r.2 "hits") <$> served (zlen two_counts - 1) = Some 3.
Proof. vm_compute. done. Qed.
