(* ===== verification/NodeProofs.v ===== *)
(** * Properties of a node: replicators, read-your-writes, convergence *)

From S2P Require Import Prelude Float64 Hlc Types Msgp Codec CodecProofs DeltaLog.
From S2P Require Import Store StoreProofs Counters Windows Metrics Client Node.

#[local] Open Scope Z_scope.
#[local] Open Scope go_scope.

(** ** One replicator per peer *)

Section replicators.
Context {O : Type}.
Implicit Types f : Capacitor O.

(** A replicator of the peer on channel [ch] is running. *)
Definition running f (peer : string) (ch : nat) : Prop :=
  (exists addr, (peer, addr, ch) ∈ replicators f) /\ ch ∉ closed f.

(** [peerStops] knows exactly the running replicators. *)
Record peers_inv f : Prop := {
  pi_chan i peer addr ch : replicators f !! i = Some (peer, addr, ch) -> ch = i;
  pi_running peer ch : running f peer ch -> peerStops f !! peer = Some ch;
  pi_known peer ch : peerStops f !! peer = Some ch -> running f peer ch;
  pi_closed ch : ch ∈ closed f -> (ch < length (replicators f))%nat
}.

Lemma new_node_peers id tok n wall d : peers_inv (new_node (O := O) id tok n wall d).
Proof. split; simpl; intros *; rewrite ?lookup_empty; try set_solver; intros [[? ?] ?]; set_solver. Qed.

Lemma running_chan f peer ch : peers_inv f -> running f peer ch -> (ch < length (replicators f))%nat.
Proof.
  intros HI [(addr & [i Hi]%list_elem_of_lookup) _]. rewrite (pi_chan _ HI _ _ _ _ Hi).
  by eapply lookup_lt_Some.
Qed.

Lemma start_peers f peer addr : peers_inv f -> peers_inv (startPeerReplicator f peer addr).
Proof.
  intros HI. unfold startPeerReplicator. case_decide; [done|].
  destruct (peerStops f !! peer) eqn:E; [done|]. pose proof HI as [H1 H2 H3 H4].
  assert (Hrun : forall p ch, running (with_peers (<[peer := length (replicators f)]> (peerStops f))
      (replicators f ++ [(peer, addr, length (replicators f))]) (closed f) f) p ch
    <-> running f p ch \/ (p = peer /\ ch = length (replicators f))).
  { intros p ch. unfold running. simpl. split.
    - intros [(a & [Ha|[= -> -> ->]%list_elem_of_singleton]%elem_of_app) Hc]; eauto.
    - intros [[(a & Ha) Hc]|[-> ->]]; [split; [exists a; set_solver|done]|].
      split; [exists addr; set_solver|]. intros Hc%H4. lia. }
  split; simpl.
  - intros i p a ch [Hi|[Hi Hs]]%lookup_app_Some; [eauto|].
    apply list_lookup_singleton_Some in Hs as [Hz [= <- <- <-]]. lia.
  - intros p ch [Hr|[-> ->]]%Hrun; [|by rewrite lookup_insert_eq].
    rewrite lookup_insert_ne; [auto|]. intros ->. by rewrite (H2 _ _ Hr) in E.
  - intros p ch Hp. apply Hrun. apply lookup_insert_Some in Hp as [[<- <-]|[_ Hp]]; auto.
  - intros ch Hc. rewrite length_app. specialize (H4 ch Hc). lia.
Qed.

Lemma stop_peers f peer : peers_inv f -> peers_inv (stopPeerReplicator f peer).
Proof.
  intros HI. unfold stopPeerReplicator.
  destruct (peerStops f !! peer) as [stop|] eqn:E; [|destruct HI as [H1 H2 H3 H4]; by split].
  pose proof HI as [H1 H2 H3 H4]. pose proof (H3 _ _ E) as Hr0.
  assert (Hlen := running_chan f peer stop HI Hr0). destruct Hr0 as [(a0 & Ha0) Hc0].
  assert (Hch : forall p a, (p, a, stop) ∈ replicators f -> p = peer).
  { intros p a [i Hi]%list_elem_of_lookup. apply list_elem_of_lookup in Ha0 as [j Hj].
    pose proof (H1 _ _ _ _ Hi). pose proof (H1 _ _ _ _ Hj). simplify_eq. congruence. }
  split; simpl; [done|..].
  - intros p ch [(a & Ha) Hc]. simpl in *. rewrite lookup_delete_ne.
    + apply H2. split; [by eexists|set_solver].
    + intros ->. assert (peerStops f !! p = Some ch) as Hp by (apply H2; split; [by eexists|set_solver]).
      set_solver.
  - intros p ch [Hne Hp]%lookup_delete_Some. destruct (H3 _ _ Hp) as [(a & Ha) Hc].
    split; [by eexists|]. simpl. intros [->%elem_of_singleton|]%elem_of_union; [|done].
    by apply Hne; symmetry; eapply Hch.
  - intros ch [->%elem_of_singleton|Hc]%elem_of_union; [done|auto].
Qed.

Inductive member_event := Join (name meta : string) | Leave (name : string).

Definition on_member f (ev : member_event) : Capacitor O :=
  match ev with Join n m => NotifyJoin f n m | Leave n => NotifyLeave f n end.

Lemma on_member_peers f ev : peers_inv f -> peers_inv (on_member f ev).
Proof.
  intros HI. destruct ev as [n m|n]; simpl; unfold NotifyJoin, NotifyLeave.
  - case_decide; [done|by apply start_peers].
  - apply stop_peers. destruct HI. by split.
Qed.

Lemma run_member_peers f evs : peers_inv f -> peers_inv (foldl on_member f evs).
Proof. revert f. induction evs as [|ev evs IH]; intros f HI; [done|]. by apply IH, on_member_peers. Qed.

Lemma on_member_nodeID f ev : nodeID (on_member f ev) = nodeID f.
Proof.
  destruct ev as [n m|n]; simpl; unfold NotifyJoin, NotifyLeave, startPeerReplicator, stopPeerReplicator;
  repeat case_decide; try done; simpl; by destruct (peerStops f !! n).
Qed.

Lemma run_member_nodeID f evs : nodeID (foldl on_member f evs) = nodeID f.
Proof. revert f. induction evs as [|ev evs IH]; intros f; [done|]. simpl. by rewrite IH, on_member_nodeID. Qed.
End replicators.

(** C36: Membership events keep one replicator per peer: after any sequence of
    joins and leaves a peer has at most one running replicator; a join of
    another node with a stream address leaves it exactly one; a leave leaves it
    none and forgets the replication position. *)
Theorem one_replicator_per_peer {O} id tok n wall d (evs : list member_event) :
  let f := foldl on_member (new_node (O := O) id tok n wall d) evs in
  (forall peer ch ch', running f peer ch -> running f peer ch' -> ch = ch') /\
  (forall name meta, name <> id -> meta <> EmptyString -> exists ch, running (NotifyJoin f name meta) name ch) /\
  (forall name ch, ~ running (NotifyLeave f name) name ch) /\
  (forall name, cpeerSeqs (NotifyLeave f name) !! name = None).
Proof.
  intros f. assert (HI : peers_inv f) by (apply run_member_peers, new_node_peers).
  assert (Hid : nodeID f = id) by (apply run_member_nodeID).
  split_and!.
  - intros peer ch ch' H1 H2. apply (pi_running _ HI) in H1, H2. congruence.
  - intros name meta Hn Hm. pose proof (on_member_peers f (Join name meta) HI) as HI'. simpl in HI'.
    destruct (peerStops (NotifyJoin f name meta) !! name) as [ch|] eqn:E; [exists ch; by apply (pi_known _ HI')|].
    exfalso. revert E. unfold NotifyJoin, startPeerReplicator. rewrite Hid, !decide_False by done.
    destruct (peerStops f !! name) eqn:E'; [by rewrite E'|]. simpl. by rewrite lookup_insert_eq.
  - intros name ch Hr. pose proof (on_member_peers f (Leave name) HI) as HI'. apply (pi_running _ HI') in Hr.
    revert Hr. unfold on_member, NotifyLeave, stopPeerReplicator. simpl.
    destruct (peerStops f !! name) eqn:E; simpl; [by rewrite lookup_delete_eq|by rewrite E].
  - intros name. unfold NotifyLeave, stopPeerReplicator. simpl. apply lookup_delete_eq.
Qed.

Lemma one_replicator_per_peer_witness :
  let f := foldl on_member (new_node (O := unit) "n1" "secret" 8 1000 false)
             [Join "n2" "10.0.0.2:7000"; Leave "n2"; Join "n3" "10.0.0.3:7000"] in
  (exists ch, running (NotifyJoin f "n2" "10.0.0.2:7000") "n2" ch) /\ ~ running (NotifyLeave f "n3") "n3" 1.
Proof.
  destruct (one_replicator_per_peer (O := unit) "n1" "secret" 8 1000 false
    [Join "n2" "10.0.0.2:7000"; Leave "n2"; Join "n3" "10.0.0.3:7000"]) as (_ & H1 & H2 & _).
  split; [apply H1; done|apply H2].
Defined.

(** ** The log never panics on entries below a gigabyte *)

Record log_ok (l : DeltaLog) : Prop := {
  lok_cap : 1 <= capacity l;
  lok_bufHead : 0 <= bufHead l <= 2147483648;
  lok_bufCap : 0 <= bufCap l <= 1073741824
}.

Lemma NewDeltaLog_ok cap : 1 <= cap -> log_ok (NewDeltaLog cap).
Proof.
  intros Hc. split; simpl; [done|lia|]. destruct (cap <? 100000) eqn:E; go_unwrap; lia.
Qed.

Definition below_gigabyte `{Wire} (e : LogEntry) : Prop := LogEntry_Msgsize e <= 1073741824.

(** The sequence number does not count: its field has a fixed size. *)
Lemma Msgsize_set_Seq `{Wire} e q : LogEntry_Msgsize (set_Seq e q) = LogEntry_Msgsize e.
Proof. unfold LogEntry_Msgsize, set_Seq. cbn [Key NodeID Value]. reflexivity. Qed.

Lemma log_Append_returns `{WireLaws} l e :
  log_ok l -> below_gigabyte e ->
  exists l', log_Append l e = Ret (head l, l') /\ log_ok l' /\ capacity l' = capacity l.
Proof.
  intros [Hc Hh Hb] He. unfold below_gigabyte in He. unfold log_Append.
  pose proof (marshal_length (set_Seq e (head l))) as Hm.
  rewrite Msgsize_set_Seq in *.
  assert (0 <= LogEntry_Msgsize e) by (pose proof (zlen_nonneg (marshal (set_Seq e (head l)))); lia).
  rewrite (uint32_id (LogEntry_Msgsize e)), (uint32_id (bufHead l + _)) by (unfold is_uint32; lia).
  set (start := if bufCap l <? bufHead l + LogEntry_Msgsize e then 0 else bufHead l).
  assert (0 <= start <= bufCap l) by (unfold start; case_ifs; lia).
  replace (bufCap l <? start) with false by lia. replace (capacity l =? 0) with false by lia.
  eexists. split_and!; [done| |done]. pose proof (zlen_nonneg (marshal (set_Seq e (head l)))).
  split; cbn [capacity bufHead bufCap]; [done| |done]. go_unwrap. lia.
Qed.

(** ** Registers never run ahead of the clock *)

Section clock.
Context {O T : Type} {M : Msgpack O T} {W : Wire} {WL : WireLaws W}.
Implicit Types f : Capacitor O.

(** Operations that leave the caches alone. *)
Lemma reg_putShard_cache (s : store O) k sh key :
  store_wf s -> cache sh = cache (getShard s k) -> reg (putShard s k sh) key = reg s key.
Proof. intros Hwf Hc. unfold reg. apply (field_putShard cache); [done|]. intros _. by rewrite Hc. Qed.

(** The register write an entry carries. *)
Definition entry_write (e : LogEntry) : option (write O) :=
  if Op e =? MsgSet then Some (WSet (Key e) (Unmarshal_any (contents (Value e))).1 (TS e) (of_millis (TTL e)))
  else if Op e =? MsgDelete then Some (WDelete (Key e) (TS e))
  else None.

Definition write_opt (s : store O) (w : option (write O)) : store O :=
  match w with Some w => do_write s w | None => s end.

Lemma apply_op_reg (s : store O) e key :
  store_wf s -> store_wf (apply_op s e) /\ reg (apply_op s e) key = reg (write_opt s (entry_write e)) key.
Proof.
  intros Hwf. unfold apply_op, entry_write.
  destruct (Op e =? MsgSet) eqn:E0; [split; [by apply (do_write_wf s (WSet _ _ _ _))|done]|].
  destruct (Op e =? MsgDelete) eqn:E4.
  - apply Z.eqb_eq in E4. rewrite E4. simpl. split; [by apply (do_write_wf s (WDelete _ _))|done].
  - simpl. unfold setNodeCount, incrementMetric, addWindowTimestamp.
    repeat case_match; simpl; split; auto with go; by apply reg_putShard_cache.
Qed.

Lemma updatePeerSeq_reg (s : store O) n q key :
  store_wf s -> store_wf (updatePeerSeq s n q) /\ reg (updatePeerSeq s n q) key = reg s key.
Proof.
  intros Hwf. unfold updatePeerSeq. case_ifs; [|done]. split; [auto with go|].
  by apply reg_putShard_cache.
Qed.

Lemma reg_pruneStaleWindows `{RangeOrder} (s : store O) now key :
  store_wf s -> reg (pruneStaleWindows s now) key = reg s key.
Proof.
  intros Hwf. unfold reg, pruneStaleWindows, getShard. cbn [shards].
  rewrite list_lookup_fmap. destruct (shards s !! shard_of key) as [sh|]; simpl; [|done].
  f_equal. generalize (range (windows sh)) as l. intros l. revert sh.
  induction l as [|[k w] l IH]; intros sh; simpl; [done|]. rewrite IH.
  unfold prune_window. simpl. by repeat case_match.
Qed.

Record node_inv f (L : Z) : Prop := {
  ni_store : store_wf (cstore f);
  ni_log : log_ok (dlog f);
  ni_logical : logical_ok (hlc f) L;
  ni_clock key v : reg (cstore f) key = Some v -> GreaterOrEqual (ts_of (hlc f)) (v_Timestamp v) = true
}.

Lemma node_inv_mono f L L' : L <= L' -> node_inv f L -> node_inv f L'.
Proof. intros HL [H1 H2 H3 H4]. split; auto. unfold logical_ok in *. lia. Qed.

(** A step that moves the clock forward and performs at most one register
    write, stamped no later than the new clock position. *)
Lemma node_inv_step f f' L L' (w : option (write O)) :
  node_inv f L -> store_wf (cstore f') -> log_ok (dlog f') -> logical_ok (hlc f') L' ->
  GreaterOrEqual (ts_of (hlc f')) (ts_of (hlc f)) = true ->
  (forall key, reg (cstore f') key = reg (write_opt (cstore f) w) key) ->
  (forall w', w = Some w' -> GreaterOrEqual (ts_of (hlc f')) (w_ts w') = true) ->
  node_inv f' L'.
Proof.
  intros [H1 H2 H3 H4] Hs Hl Hlog Hge Hreg Hw. split; auto.
  intros key v. rewrite Hreg. intros Hv. destruct w as [w|]; simpl in Hv; [|eauto using GE_trans].
  destruct (decide (key = w_key w)) as [->|Hne].
  - rewrite reg_do_write_same in Hv by done. unfold merge in Hv.
    destruct (reg (cstore f) (w_key w)) as [e|] eqn:Ee; [revert Hv; case_ifs; intros Hv; simplify_eq|simplify_eq].
    + eapply GE_trans; eauto.
    + by apply Hw.
    + by apply Hw.
  - rewrite reg_do_write_other in Hv by done. eauto using GE_trans.
Qed.

Lemma new_node_inv id tok n wall d : 1 <= n -> node_inv (new_node id tok n wall d) 0.
Proof.
  intros Hn. split; simpl.
  - apply empty_store_wf.
  - apply NewDeltaLog_ok. case_ifs; lia.
  - unfold logical_ok. simpl. lia.
  - intros key v. unfold reg. by rewrite getShard_empty.
Qed.

(** ** Histories of a node *)

Inductive node_op :=
| NSet (key : string) (value : any O) (ttl wall born lat : Z)
| NDelete (key : string) (wall born lat : Z)
| NIncr (key : string) (delta wall born lat : Z)
| NMetric (key : string) (delta : float64) (wall : Z)
| NWindow (key : string) (window wall now : Z)
| NApply (e : LogEntry) (now wall : Z)
| NPrune (now : Z).

Definition node_step `{RangeOrder} f (op : node_op) : go (Capacitor O) :=
  match op with
  | NSet k v ttl wall born lat => let! (_, f) := cp_Set f k v ttl wall born lat in Ret f
  | NDelete k wall born lat => cp_Delete f k wall born lat
  | NIncr k d wall born lat => let! (_, f) := IncrementBy f k d wall born lat in Ret f
  | NMetric k d wall => let! (_, f) := cp_IncrementMetric f k d wall in Ret f
  | NWindow k w wall now => let! (_, f) := IncrementSlidingWindow f k w wall now in Ret f
  | NApply e now wall => Ret (applyRemoteEntry f e now wall)
  | NPrune now => Ret (with_store (pruneExpiredKeys (pruneStaleWindows (cstore f) now) now) f)
  end.

(** The encoded entry stays below a gigabyte. *)
Definition fits (key node : string) (value : bytes) : Prop :=
  below_gigabyte (mkLogEntry 0 zero_Timestamp 0 0 key node (Some value) fzero 0).

(** What an operation must satisfy at a node named [id] when logical clock
    components are at most [L]. *)
Definition node_op_ok (id : string) (L : Z) (op : node_op) : Prop :=
  match op with
  | NSet k v _ _ _ _ => forall b, Marshal v = Ok b -> fits k EmptyString b
  | NDelete k _ _ _ => fits k EmptyString []
  | NIncr k _ _ _ _ | NMetric k _ _ | NWindow k _ _ _ => fits k id []
  | NApply e _ _ => remote_ok (TS e) L
  | NPrune _ => True
  end.

Lemma tick_spec f wall L :
  logical_ok (hlc f) L -> 0 <= L < 2147483647 ->
  exists ts h, tick f wall = (ts, with_hlc h f) /\ After ts (ts_of (hlc f)) = true /\ ts_of h = ts /\
    logical_ok h (L + 1) /\ physical h = Z.max (physical (hlc f)) wall.
Proof.
  intros Hl HL. unfold tick. destruct (Now (hlc f) wall) as [ts h] eqn:E.
  destruct (Now_spec _ _ _ _ _ Hl HL E) as (? & ? & ? & ? & _). eauto 10.
Qed.

Lemma append_spec f e :
  log_ok (dlog f) -> below_gigabyte e -> exists l, append f e = Ret (with_log l f) /\ log_ok l.
Proof.
  intros Hl He. destruct (log_Append_returns (dlog f) e Hl He) as (l & Ha & Hok & _).
  exists l. unfold append. by rewrite Ha.
Qed.

Lemma observe_same k lat f :
  cstore (observe k lat f) = cstore f /\ hlc (observe k lat f) = hlc f /\
  dlog (observe k lat f) = dlog f /\ nodeID (observe k lat f) = nodeID f.
Proof. unfold observe. by destruct (disableMetrics f). Qed.

Lemma increment_reg (s : store O) k n d key :
  store_wf s -> store_wf (increment s k n d).2 /\ reg (increment s k n d).2 key = reg s key.
Proof. intros Hwf. unfold increment. simpl. split; [auto with go|by apply reg_putShard_cache]. Qed.

Lemma incrementMetric_reg (s : store O) k n d key :
  store_wf s -> store_wf (incrementMetric s k n d).2 /\ reg (incrementMetric s k n d).2 key = reg s key.
Proof. intros Hwf. unfold incrementMetric. simpl. split; [auto with go|by apply reg_putShard_cache]. Qed.

Lemma slidingWindow_reg (s : store O) k ts w now key :
  store_wf s -> store_wf (incrementSlidingWindow s k ts w now).2 /\
  reg (incrementSlidingWindow s k ts w now).2 key = reg s key.
Proof.
  intros Hwf. unfold incrementSlidingWindow. destruct (count_window _ _). simpl.
  split; [auto with go|by apply reg_putShard_cache].
Qed.

Lemma fits_entry k n v ts b q o d ttl :
  fits k n (contents v) -> below_gigabyte (mkLogEntry q ts b o k n v d ttl).
Proof. unfold fits, below_gigabyte, LogEntry_Msgsize. by simpl. Qed.

(** A local operation: the clock ticks, the store takes at most one register
    write with the new timestamp, the log grows by one entry. *)
Lemma logged_step f L ts h s e w :
  node_inv f L -> After ts (ts_of (hlc f)) = true -> ts_of h = ts -> logical_ok h (L + 1) ->
  store_wf s -> (forall key, reg s key = reg (write_opt (cstore f) w) key) ->
  (forall w', w = Some w' -> w_ts w' = ts) -> below_gigabyte e ->
  exists f', append (with_store s (with_hlc h f)) e = Ret f' /\
    node_inv f' (L + 1) /\ nodeID f' = nodeID f /\ cstore f' = s.
Proof.
  intros HI Ha Hts Hh Hs Hreg Hw He.
  destruct (append_spec (with_store s (with_hlc h f)) e) as (l & Hl & Hok); [apply HI|done|].
  eexists. split; [exact Hl|]. split_and!; [|done|done].
  eapply (node_inv_step f _ L); simpl; eauto; [rewrite Hts; by apply After_GE|].
  intros w' E. rewrite (Hw w' E), Hts. apply GE_refl.
Qed.

Lemma observe_inv k lat f L : node_inv f L -> node_inv (observe k lat f) L.
Proof.
  intros [H1 H2 H3 H4]. destruct (observe_same k lat f) as (E1 & E2 & E3 & _).
  split; rewrite ?E1, ?E2, ?E3; done.
Qed.

Lemma cp_Set_spec f L k v ttl wall born lat :
  node_inv f L -> 0 <= L < 2147483647 -> (forall b, Marshal v = Ok b -> fits k EmptyString b) ->
  exists ts f', cp_Set f k v ttl wall born lat = Ret ((match Marshal v with Ok _ => None | Err e => Some e end), f') /\
    node_inv f' (L + 1) /\ nodeID f' = nodeID f /\ After ts (ts_of (hlc f)) = true /\
    Physical ts = Z.max (physical (hlc f)) wall /\
    cstore f' = store_set (cstore f) k v ts ttl.
Proof.
  intros HI HL Hfit. destruct (tick_spec f wall L (ni_logical _ _ HI) HL) as (ts & h & Ht & Ha & Hts & Hh & Hp).
  exists ts. unfold cp_Set. rewrite Ht. cbn [cstore with_hlc].
  assert (HS : store_wf (store_set (cstore f) k v ts ttl))
    by (apply (do_write_wf (cstore f) (WSet k v ts ttl)), HI).
  assert (HP : Physical ts = Z.max (physical (hlc f)) wall) by (by rewrite <- Hp, <- Hts).
  destruct (Marshal v) as [b|e] eqn:Em.
  - destruct (logged_step f L ts h _ (mkLogEntry 0 ts born MsgSet k EmptyString (Some b) fzero (Milliseconds ttl))
      (Some (WSet k v ts ttl)) HI Ha Hts Hh HS) as (f' & -> & HI' & Hid & Hst);
      [done|by intros w' [= <-]|apply fits_entry; by apply Hfit|]. simpl.
    destruct (observe_same LSet lat f') as (E1 & _ & _ & E4).
    eexists. split; [done|]. split_and!; [by apply observe_inv|congruence|done|done|congruence].
  - eexists. split; [done|]. split_and!; try done.
    eapply (node_inv_step f _ L _ (Some (WSet k v ts ttl))); simpl; eauto; [apply HI|..].
    + rewrite Hts. by apply After_GE.
    + intros w' [= <-]. rewrite Hts. apply GE_refl.
Qed.

Lemma cp_Delete_spec f L k wall born lat :
  node_inv f L -> 0 <= L < 2147483647 -> fits k EmptyString [] ->
  exists ts f', cp_Delete f k wall born lat = Ret f' /\ node_inv f' (L + 1) /\ nodeID f' = nodeID f /\
    After ts (ts_of (hlc f)) = true /\ cstore f' = store_delete (cstore f) k ts.
Proof.
  intros HI HL Hfit. destruct (tick_spec f wall L (ni_logical _ _ HI) HL) as (ts & h & Ht & Ha & Hts & Hh & Hp).
  exists ts. unfold cp_Delete. rewrite Ht. cbn [cstore with_hlc].
  destruct (logged_step f L ts h (store_delete (cstore f) k ts)
    (mkLogEntry 0 ts born MsgDelete k EmptyString None fzero 0) (Some (WDelete k ts)) HI Ha Hts Hh)
    as (f' & -> & HI' & Hid & Hst);
    [by apply (do_write_wf (cstore f) (WDelete k ts)), HI|done|by intros w' [= <-]|by apply fits_entry|]. simpl.
  destruct (observe_same LSet lat f') as (E1 & _ & _ & E4).
  eexists. split; [done|]. split_and!; [by apply observe_inv|congruence|done|congruence].
Qed.

Lemma IncrementBy_spec f L k d wall born lat :
  node_inv f L -> 0 <= L < 2147483647 -> fits k (nodeID f) [] ->
  let '(val, s) := increment (cstore f) k (nodeID f) (float64_of_Z d) in
  exists f', IncrementBy f k d wall born lat = Ret (int64_of_float val, f') /\
    node_inv f' (L + 1) /\ nodeID f' = nodeID f /\ cstore f' = s.
Proof.
  intros HI HL Hfit. unfold IncrementBy.
  pose proof (fun key => increment_reg (cstore f) k (nodeID f) (float64_of_Z d) key (ni_store _ _ HI)) as Hr.
  destruct (increment (cstore f) k (nodeID f) (float64_of_Z d)) as [val s].
  destruct (tick_spec (with_store s f) wall L (ni_logical _ _ HI) HL) as (ts & h & -> & Ha & Hts & Hh & _).
  cbn [cstore with_store nodeID with_hlc].
  destruct (logged_step f L ts h s (mkLogEntry 0 ts born MsgIncr k (nodeID f) None (getNodeCount s k (nodeID f)) 0)
    None HI Ha Hts Hh) as (f' & E & HI' & Hid & Hst); [apply (Hr k)|intros key; apply Hr|done|by apply fits_entry|].
  change (with_hlc h (with_store s f)) with (with_store s (with_hlc h f)). rewrite E. simpl.
  destruct (observe_same LIncr lat f') as (E1 & _ & _ & E4).
  eexists. split; [done|]. split_and!; [by apply observe_inv|congruence|congruence].
Qed.

Lemma cp_IncrementMetric_spec f L k d wall :
  node_inv f L -> 0 <= L < 2147483647 -> fits k (nodeID f) [] ->
  let '(m, s) := incrementMetric (cstore f) k (nodeID f) d in
  exists f', cp_IncrementMetric f k d wall = Ret (m, f') /\
    node_inv f' (L + 1) /\ nodeID f' = nodeID f /\ cstore f' = s.
Proof.
  intros HI HL Hfit. unfold cp_IncrementMetric.
  pose proof (fun key => incrementMetric_reg (cstore f) k (nodeID f) d key (ni_store _ _ HI)) as Hr.
  destruct (incrementMetric (cstore f) k (nodeID f) d) as [m s].
  destruct (tick_spec (with_store s f) wall L (ni_logical _ _ HI) HL) as (ts & h & -> & Ha & Hts & Hh & _).
  cbn [cstore with_store nodeID with_hlc].
  destruct (logged_step f L ts h s (mkLogEntry 0 ts 0 MsgMetric k (nodeID f) None d 0)
    None HI Ha Hts Hh) as (f' & E & HI' & Hid & Hst); [apply (Hr k)|intros key; apply Hr|done|by apply fits_entry|].
  change (with_hlc h (with_store s f)) with (with_store s (with_hlc h f)). rewrite E. simpl. eauto.
Qed.

Lemma IncrementSlidingWindow_spec f L k w wall now :
  node_inv f L -> 0 <= L < 2147483647 -> fits k (nodeID f) [] ->
  let '(count, s) := incrementSlidingWindow (cstore f) k (Z.max (physical (hlc f)) wall) w now in
  exists f', IncrementSlidingWindow f k w wall now = Ret (count, f') /\
    node_inv f' (L + 1) /\ nodeID f' = nodeID f /\ cstore f' = s.
Proof.
  intros HI HL Hfit. unfold IncrementSlidingWindow.
  destruct (tick_spec f wall L (ni_logical _ _ HI) HL) as (ts & h & -> & Ha & Hts & Hh & Hp).
  cbn [cstore with_hlc]. rewrite <- Hp.
  assert (physical h = Physical ts) as -> by (by rewrite <- Hts).
  pose proof (fun key => slidingWindow_reg (cstore f) k (Physical ts) w now key (ni_store _ _ HI)) as Hr.
  destruct (incrementSlidingWindow (cstore f) k (Physical ts) w now) as [count s].
  destruct (logged_step f L ts h s (mkLogEntry 0 ts 0 MsgWindow k (nodeID f) None fzero 0)
    None HI Ha Hts Hh) as (f' & E & HI' & Hid & Hst); [apply (Hr k)|intros key; apply Hr|done|by apply fits_entry|].
  cbn [nodeID with_store with_hlc]. rewrite E. simpl. eauto.
Qed.

(** A remote entry: dropped, or the clock passes its timestamp and the store
    takes its write. *)
Lemma applyRemoteEntry_cases f e now wall :
  let f' := applyRemoteEntry f e now wall in
  nodeID f' = nodeID f /\ dlog f' = dlog f /\
  match (Update (hlc f) wall (TS e)).1.2 with
  | Some _ => cstore f' = cstore f /\ hlc f' = hlc f
  | None => cstore f' = updatePeerSeq (apply_op (cstore f) e) (NodeID e) (Seq e) /\
            hlc f' = (Update (hlc f) wall (TS e)).2
  end.
Proof.
  unfold applyRemoteEntry. destruct (0 <? BornAt e); cbn [hlc with_metrics];
  destruct (Update (hlc f) wall (TS e)) as [[ts [[]|]] h] eqn:E; cbn [fst snd]; split_and!; try done;
  by apply Update_reject in E as [-> _].
Qed.

Lemma remote_reg (s : store O) e key :
  store_wf s ->
  let s' := updatePeerSeq (apply_op s e) (NodeID e) (Seq e) in
  store_wf s' /\ reg s' key = reg (write_opt s (entry_write e)) key.
Proof.
  intros Hwf. destruct (apply_op_reg s e key Hwf) as [H1 H2].
  destruct (updatePeerSeq_reg (apply_op s e) (NodeID e) (Seq e) key H1) as [H3 H4].
  split; [done|congruence].
Qed.

Lemma entry_write_ts e w : entry_write e = Some w -> w_ts w = TS e.
Proof. unfold entry_write. case_ifs; by intros [= <-]. Qed.

Lemma applyRemoteEntry_inv f L e now wall :
  node_inv f L -> 0 <= L < 2147483647 -> remote_ok (TS e) L -> node_inv (applyRemoteEntry f e now wall) (L + 1).
Proof.
  intros HI HL He. pose proof (applyRemoteEntry_cases f e now wall) as (Hid & Hlog & Hc).
  destruct (Update (hlc f) wall (TS e)) as [[ts [err|]] h] eqn:E; simpl in Hc; destruct Hc as [Hs Hh].
  - apply (node_inv_mono _ L); [lia|]. destruct HI. by split; rewrite ?Hs, ?Hh, ?Hlog.
  - destruct (Update_spec _ _ _ _ _ _ (ni_logical _ _ HI) He HL E) as (Ha & Hr & Hts & Hl & _).
    eapply (node_inv_step f _ L _ (entry_write e) HI); rewrite ?Hs, ?Hh, ?Hlog, ?Hts.
    + by apply (remote_reg (cstore f) e EmptyString (ni_store _ _ HI)).
    + apply HI.
    + done.
    + by apply After_GE.
    + intros key. apply remote_reg, HI.
    + intros w Hw. rewrite (entry_write_ts _ _ Hw). by apply After_GE.
Qed.

Lemma prune_inv `{RangeOrder} f L now :
  node_inv f L -> node_inv (with_store (pruneExpiredKeys (pruneStaleWindows (cstore f) now) now) f) L.
Proof.
  intros [H1 H2 H3 H4].
  assert (Hw : store_wf (pruneStaleWindows (cstore f) now)) by (by apply pruneStaleWindows_wf).
  split; simpl; [|done|done|].
  - unfold store_wf, pruneExpiredKeys in *. simpl in *. by rewrite length_fmap.
  - intros key v. rewrite reg_prune by done. rewrite reg_pruneStaleWindows by done.
    destruct (reg (cstore f) key) as [v'|] eqn:E; [|done]. case_ifs; [done|]. intros [= <-]. eauto.
Qed.

Lemma node_step_inv `{RangeOrder} f L op :
  node_inv f L -> 0 <= L < 2147483647 -> node_op_ok (nodeID f) L op ->
  exists f', node_step f op = Ret f' /\ node_inv f' (L + 1) /\ nodeID f' = nodeID f.
Proof.
  intros HI HL Hop.
  destruct op as [k v ttl wall born lat|k wall born lat|k d wall born lat|k d wall|k w wall now|e now wall|now];
    simpl in *.
  - destruct (cp_Set_spec f L k v ttl wall born lat HI HL Hop) as (ts & f' & -> & ? & ? & _). simpl. eauto.
  - destruct (cp_Delete_spec f L k wall born lat HI HL Hop) as (ts & f' & -> & ? & ? & _). eauto.
  - pose proof (IncrementBy_spec f L k d wall born lat HI HL Hop) as Hs.
    destruct (increment _ _ _ _). destruct Hs as (f' & -> & ? & ? & _). simpl. eauto.
  - pose proof (cp_IncrementMetric_spec f L k d wall HI HL Hop) as Hs.
    destruct (incrementMetric _ _ _ _). destruct Hs as (f' & -> & ? & ? & _). simpl. eauto.
  - pose proof (IncrementSlidingWindow_spec f L k w wall now HI HL Hop) as Hs.
    destruct (incrementSlidingWindow _ _ _ _ _). destruct Hs as (f' & -> & ? & ? & _). simpl. eauto.
  - eexists. split_and!; [done|by apply applyRemoteEntry_inv|apply applyRemoteEntry_cases].
  - eexists. split_and!; [done| |done]. apply (node_inv_mono _ L); [lia|]. by apply prune_inv.
Qed.

Fixpoint node_run `{RangeOrder} f (ops : list node_op) : go (Capacitor O) :=
  match ops with
  | [] => Ret f
  | op :: ops => let! f := node_step f op in node_run f ops
  end.

Lemma node_op_ok_mono id L L' op : L <= L' -> node_op_ok id L op -> node_op_ok id L' op.
Proof. destruct op; simpl; auto. unfold remote_ok. lia. Qed.

Lemma node_run_inv `{RangeOrder} f L ops :
  node_inv f L -> 0 <= L -> Forall (node_op_ok (nodeID f) L) ops ->
  L + Z.of_nat (length ops) < 2147483647 ->
  exists f', node_run f ops = Ret f' /\ node_inv f' (L + Z.of_nat (length ops)) /\ nodeID f' = nodeID f.
Proof.
  revert f L. induction ops as [|op ops IH]; intros f L HI HL Hops Hlen; simpl in *.
  { eexists. rewrite Z.add_0_r. done. }
  apply Forall_cons in Hops as [Hop Hops].
  destruct (node_step_inv f L op HI ltac:(lia) Hop) as (f1 & -> & HI1 & Hid). simpl.
  destruct (IH f1 (L + 1)) as (f2 & Hr & HI2 & Hid2); [done|lia| |lia|].
  { rewrite Hid. eapply Forall_impl; [exact Hops|]. intros ?. apply node_op_ok_mono. lia. }
  exists f2. split_and!; [done| |congruence]. by replace (L + Z.of_nat (S (length ops)))
    with (L + 1 + Z.of_nat (length ops)) by lia.
Qed.

(** A write stamped after the clock is newer than every register. *)
Lemma node_inv_newer f L w :
  node_inv f L -> After (w_ts w) (ts_of (hlc f)) = true -> newer (cstore f) w.
Proof.
  intros HI Ha. unfold newer. destruct (reg (cstore f) (w_key w)) as [e|] eqn:E; [|done].
  eapply After_GE_trans; [exact Ha|]. by apply (ni_clock _ _ HI (w_key w)).
Qed.

Lemma node_inv_bound f L L' : node_inv f L -> L <= L' -> node_inv f L'.
Proof. intros. by apply (node_inv_mono f L). Qed.
End clock.

(** C10: A node sees its own writes: after any history of local operations,
    remote entries and janitor runs from a new node, none of which panics, a
    [Set] returns and its value is read back by the store until its TTL has
    passed, and a [Delete] returns and the key is then absent at any time,
    whatever the wall clock reads.  The remote entries carry logical times of at
    most [L], and [L] plus the number of operations is below 2^31 - 2, so that the
    32-bit logical counter does not wrap (a wrapped counter puts the clock behind
    a register); the log has a slot, and encoded entries stay below a gigabyte. *)
Theorem read_your_writes {O T} {M : Msgpack O T} {W : Wire} {WL : WireLaws W} `{RangeOrder}
    id tok n wall0 d (ops : list node_op) L key (value : any O) ttl wall born lat now :
  1 <= n -> 0 <= L -> Forall (node_op_ok id L) ops -> L + Z.of_nat (length ops) < 2147483646 ->
  (forall b, Marshal value = Ok b -> fits key EmptyString b) -> fits key EmptyString [] -> 0 < wall ->
  exists f, node_run (new_node id tok n wall0 d) ops = Ret f /\
    (is_int64 (Z.max (physical (hlc f)) wall + ttl) ->
     exists err f', cp_Set f key value ttl wall born lat = Ret (err, f') /\
       (ttl <= 0 \/ now <= Z.max (physical (hlc f)) wall + ttl -> store_get (cstore f') key now = value)) /\
    (exists f', cp_Delete f key wall born lat = Ret f' /\
       getInternal f' key now = EmptyString /\ store_exists (cstore f') key now = false).
Proof.
  intros Hn HL Hops Hlen Hfit Hfit0 Hw.
  destruct (node_run_inv (new_node id tok n wall0 d) L ops) as (f & Hr & HI & _);
    [apply (node_inv_mono _ 0); [done|by apply new_node_inv]|done|done|lia|].
  exists f. split; [done|]. split.
  - intros Hi. destruct (cp_Set_spec f _ key value ttl wall born lat HI ltac:(lia) Hfit)
      as (ts & f' & Hset & HI' & _ & Ha & Hp & Hst).
    eexists _, f'. split; [exact Hset|]. intros Hnow. rewrite Hst.
    rewrite store_get_visible, (reg_set_newer _ _ _ _ _ (ni_store _ _ HI)) by (by eapply node_inv_newer).
    unfold visible, expired. cbn [w_val v_Deleted v_ExpiresAt v_Value orb]. rewrite Hp, (int64_id _ Hi).
    destruct (0 <? ttl) eqn:E; [|done].
    replace ((0 <? _) && (_ <? now)) with false by lia. done.
  - destruct (cp_Delete_spec f _ key wall born lat HI ltac:(lia) Hfit0) as (ts & f' & Hdel & _ & _ & Ha & Hst).
    exists f'. split; [done|]. unfold getInternal. rewrite store_get_visible, store_exists_visible, Hst.
    by rewrite (reg_delete_newer _ _ _ (ni_store _ _ HI)) by (by eapply node_inv_newer).
Qed.

Definition node_history : list (node_op (O := unit)) :=
  [NSet "k" (AString "first") 0 900 901 5; NIncr "hits" 2 902 903 4;
   NApply (mkLogEntry 1 (mkTimestamp 2000 3) 1999 MsgSet "k" EmptyString (Some [Byte.x01; Byte.x41]) fzero 0) 1950 1950;
   NWindow "api" 1000 1960 1961; NPrune 1970; NDelete "j" 1980 1981 3].

Lemma node_history_ok : Forall (node_op_ok (M := Tagged.msgpack) (W := Fixed.wire) "n1" 3) node_history.
Proof.
  assert (Hb : forall k n v, (LogEntry_Msgsize (H := Fixed.wire) (mkLogEntry 0 zero_Timestamp 0 0 k n (Some v) fzero 0)
                <=? 1073741824) = true -> fits (W := Fixed.wire) k n v)
    by (intros *; unfold fits, below_gigabyte; lia).
  unfold node_history. rewrite !Forall_cons, Forall_nil. cbn [node_op_ok].
  split_and!; try (apply Hb; by vm_compute); try done.
  intros b [= <-]. apply Hb. by vm_compute.
Qed.

Lemma read_your_writes_witness :
  exists f, node_run (M := Tagged.msgpack) (W := Fixed.wire) (new_node "n1" "secret" 16 1000 false) node_history = Ret f /\
    (is_int64 (Z.max (physical (hlc f)) 1500 + 0) ->
     exists err f', cp_Set (M := Tagged.msgpack) (W := Fixed.wire) f "k" (AString "mine") 0 1500 1501 7 = Ret (err, f') /\
       (0 <= 0 \/ 3000 <= Z.max (physical (hlc f)) 1500 + 0 -> store_get (cstore f') "k" 3000 = AString "mine")) /\
    (exists f', cp_Delete (W := Fixed.wire) f "k" 1500 1501 7 = Ret f' /\
       getInternal (M := Tagged.msgpack) f' "k" 3000 = EmptyString /\ store_exists (cstore f') "k" 3000 = false).
Proof.
  apply (read_your_writes (M := Tagged.msgpack) (W := Fixed.wire) (WL := Fixed.wire_laws)
    "n1" "secret" 16 1000 false node_history 3 "k" (AString "mine") 0 1500 1501 7 3000).
  - lia.
  - lia.
  - apply node_history_ok.
  - by vm_compute.
  - intros b [= <-]. vm_compute. discriminate.
  - vm_compute. discriminate.
  - lia.
Defined.
