(* ===== verification/Convergence.v ===== *)
(** * Convergence of nodes

    What a node's store becomes after a sequence of remote entries, component
    by component, and that it does not depend on the order or the repetitions
    of the entries: the registers, the counters and the windows of two nodes
    that received the same entries agree. *)

From S2P Require Import Prelude Float64 Hlc Types Msgp Codec DeltaLog.
From S2P Require Import Store StoreProofs Counters Windows Metrics Client Node NodeProofs.

#[local] Open Scope Z_scope.

Section convergence.
Context {O T : Type} {M : Msgpack O T}.
Implicit Types s : store O.

(** The effect of accepted entries on the store. *)
Definition remote_store s (e : LogEntry) : store O :=
  updatePeerSeq (apply_op s e) (NodeID e) (Seq e).
Definition deliver_store s (es : list LogEntry) : store O := foldl remote_store s es.

(** An entry with the clock readings at its delivery. *)
Definition deliver (f : Capacitor O) (ds : list (LogEntry * (Z * Z))) : Capacitor O :=
  foldl (fun f d => applyRemoteEntry f d.1 d.2.1 d.2.2) f ds.

(** Not dropped by the clock's protection against timestamps from the future. *)
Definition accepted (offset : Z) (d : LogEntry * (Z * Z)) : Prop :=
  Physical (TS d.1) <= int64 (d.2.2 + offset).

Lemma deliver_store_eq f ds :
  Forall (accepted (maxOffset (hlc f))) ds -> cstore (deliver f ds) = deliver_store (cstore f) ds.*1.
Proof.
  intros Hd. revert f Hd. induction ds as [|[e [now wall]] ds IH]; intros f Hd; [done|].
  apply Forall_cons in Hd as [Ha Hd]. unfold accepted in Ha. simpl in *.
  pose proof (applyRemoteEntry_cases f e now wall) as (_ & _ & Hc).
  assert (Hu : (Update (hlc f) wall (TS e)).1.2 = None /\ maxOffset (Update (hlc f) wall (TS e)).2 = maxOffset (hlc f)).
  { unfold Update. destruct (int64 _ <? _) eqn:E; [lia|]. split; [done|]. simpl. by case_ifs. }
  destruct Hu as [Hu Ho]. rewrite Hu in Hc. destruct Hc as [Hs Hh].
  rewrite IH; [by rewrite Hs|by rewrite Hh, Ho].
Qed.

(** ** Registers *)

Lemma deliver_store_reg s es key :
  store_wf s -> store_wf (deliver_store s es) /\
  reg (deliver_store s es) key = reg (run_writes s (omap entry_write es)) key.
Proof.
  revert s. induction es as [|e es IH]; intros s Hwf; [done|].
  change (deliver_store s (e :: es)) with (deliver_store (remote_store s e) es).
  pose proof (remote_reg s e key Hwf) as [H1 H2]. fold (remote_store s e) in H1, H2.
  destruct (IH _ H1) as [H3 H4].
  split; [done|]. rewrite H4. simpl.
  destruct (entry_write e) as [w|] eqn:E; simpl in *.
  - rewrite !reg_run_writes by (auto using do_write_wf). by rewrite H2.
  - rewrite !reg_run_writes by done. by rewrite H2.
Qed.

(** ** Windows *)

(** The event times of [key] among the entries. *)
Definition entry_time (key : string) (e : LogEntry) : option Z :=
  if decide (Op e = MsgWindow /\ Key e = key) then Some (Physical (TS e)) else None.

Lemma win_putShard s k sh key :
  store_wf s -> windows sh = windows (getShard s k) -> win (putShard s k sh) key = win s key.
Proof.
  intros Hwf Hc. unfold win. by rewrite (field_putShard windows) by (auto; intros _; by rewrite Hc).
Qed.

Lemma remote_store_win s e key :
  store_wf s -> win (remote_store s e) key =
    match entry_time key e with Some t => insert_ts t (win s key) | None => win s key end.
Proof.
  intros Hwf. unfold remote_store, entry_time. destruct (apply_op_reg s e key Hwf) as [Hwf' _].
  assert (win (updatePeerSeq (apply_op s e) (NodeID e) (Seq e)) key = win (apply_op s e) key) as ->.
  { unfold updatePeerSeq. case_ifs; [by apply win_putShard|done]. }
  unfold apply_op. clear Hwf'.
  destruct (Z.eqb_spec (Op e) MsgWindow) as [E|E].
  - rewrite E. simpl. rewrite win_add by done. repeat case_decide; naive_solver.
  - rewrite decide_False by tauto.
    unfold store_set, setNodeCount, incrementMetric, store_delete. simpl.
    case_ifs; try done; by apply win_putShard.
Qed.

Lemma deliver_store_win s es key :
  store_wf s -> win (deliver_store s es) key = foldl (fun w t => insert_ts t w) (win s key) (omap (entry_time key) es).
Proof.
  revert s. induction es as [|e es IH]; intros s Hwf; [done|].
  change (deliver_store s (e :: es)) with (deliver_store (remote_store s e) es). simpl.
  rewrite IH by (by apply (remote_reg s e key Hwf)). rewrite remote_store_win by done.
  by destruct (entry_time key e).
Qed.

Lemma foldl_insert_ts w tss :
  StronglySorted Z.lt w ->
  let w' := foldl (fun w t => insert_ts t w) w tss in
  StronglySorted Z.lt w' /\ (forall x, x ∈ w' <-> x ∈ w \/ x ∈ tss).
Proof.
  revert w. induction tss as [|t tss IH]; intros w Hw; simpl; [set_solver|].
  destruct (IH (insert_ts t w)) as [H1 H2]; [apply insert_ts_sorted; [done|lia|done]|].
  split; [done|]. intros x. rewrite H2, elem_of_insert_ts. set_solver.
Qed.

(** ** Counters *)

(** The partial count of [key] an entry carries. *)
Definition entry_count (key : string) (e : LogEntry) : option (string * Z) :=
  if decide (Op e = MsgIncr /\ Key e = key) then Some (NodeID e, int64_of_float (Delta e)) else None.

(** Counts are exact non-negative integers (a zero may have a sign), counter
    names have no colon. *)
Definition count_ok (e : LogEntry) : Prop :=
  Op e = MsgIncr -> no_colon (Key e) /\ exists v, 0 <= v /\ exact53 v /\ drop_zero_sign (Delta e) = f_of_int v.

Lemma drop_zero_sign_int x v :
  drop_zero_sign x = f_of_int v -> x = f_of_int v \/ (v = 0 /\ exists b, x = SpecFloat.S754_zero b).
Proof.
  unfold drop_zero_sign. destruct (fis0 x) eqn:E; [|by left]. intros Hv. right.
  assert (v = 0) as -> by (pose proof (ftrunc_int v) as Ht; rewrite <- Hv in Ht; by injection Ht).
  split; [done|]. destruct x as [b|b| |b m e]; [by exists b|by destruct b..|done|by destruct b].
Qed.

Lemma drop_zero_sign_id v : exact53 v -> drop_zero_sign (f_of_int v) = f_of_int v.
Proof.
  intros Hv. unfold drop_zero_sign. rewrite fis0_int by done. destruct (Z.eqb_spec v 0) as [->|]; done.
Qed.

Lemma drop_zero_sign_int64 x v : exact53 v -> drop_zero_sign x = f_of_int v -> int64_of_float x = v.
Proof.
  intros Hv [->|[-> [b ->]]]%drop_zero_sign_int; [by apply int64_of_float_int|by destruct b].
Qed.

Lemma setNodeCount_zero s key m n b :
  counter_rep s key m -> nonneg m -> setNodeCount s key n (SpecFloat.S754_zero b) = s.
Proof.
  intros HR Hm. unfold setNodeCount. rewrite (node_count s key m n HR).
  assert (fgtb (SpecFloat.S754_zero b) (f_of_int (cget m n)) = false) as ->; [|done].
  assert (0 <= cget m n) by apply (cget_bounds m n Hm).
  assert (forall v, 0 <= v -> fgtb (SpecFloat.S754_zero b) (f_of_int v) = false) as Hf; [|auto].
  intros v Hv. pose proof (fgtb_int 0 v) as H0. unfold f_of_int in *. by destruct v.
Qed.

Lemma counter_rep_put s k sh key m :
  counter_rep s key m ->
  (forall n, counts sh !! countKey key n = counts (getShard s k) !! countKey key n) ->
  aggregateCounts sh !! key = aggregateCounts (getShard s k) !! key ->
  counter_rep (putShard s k sh) key m.
Proof.
  intros HR Hc Ha. pose proof (cr_wf _ _ _ HR) as Hwf.
  apply (counter_rep_frame s); [done|auto with go| |].
  - intros n. by apply (field_putShard counts).
  - by apply (field_putShard aggregateCounts).
Qed.

Lemma updatePeerSeq_counter s n q key m : counter_rep s key m -> counter_rep (updatePeerSeq s n q) key m.
Proof. intros HR. unfold updatePeerSeq. case_ifs; [|done]. by apply counter_rep_put. Qed.

Lemma store_set_counter s k v ts ttl key m : counter_rep s key m -> counter_rep (store_set s k v ts ttl) key m.
Proof. intros HR. unfold store_set. destruct (is_stale _ _ _); [done|by apply counter_rep_put]. Qed.

Lemma store_delete_counter s k ts key m : counter_rep s key m -> counter_rep (store_delete s k ts) key m.
Proof. intros HR. unfold store_delete. destruct (is_stale _ _ _); [done|by apply counter_rep_put]. Qed.

Lemma addWindowTimestamp_counter s k ts key m : counter_rep s key m -> counter_rep (addWindowTimestamp s k ts) key m.
Proof. intros HR. unfold addWindowTimestamp. destruct (window_index _ _); [by apply counter_rep_put|done]. Qed.

Lemma incrementMetric_counter s k n d key m :
  counter_rep s key m -> no_colon key -> counter_rep (incrementMetric s k n d).2 key m.
Proof.
  intros HR Hkey. unfold incrementMetric. apply counter_rep_put; [done| |]; simpl.
  - intros n'. unfold fincr. by rewrite !lookup_insert_ne by (unfold metricSumKey, metricCountKey, countKey; done).
  - unfold fincr. rewrite !lookup_insert_ne; [done| |]; intros <-; simpl in Hkey; tauto.
Qed.

Lemma slidingWindow_counter s k ts w now key m :
  counter_rep s key m -> counter_rep (incrementSlidingWindow s k ts w now).2 key m.
Proof.
  intros HR. unfold incrementSlidingWindow. destruct (count_window _ _). by apply counter_rep_put.
Qed.

(** A change of another counter's partial count and aggregate. *)
Lemma other_counter s k n x a key m :
  counter_rep s key m -> no_colon key -> no_colon k -> k <> key ->
  counter_rep (putShard s k (mark_dirty (countKey k n) (with_aggregate (fincr k a)
    (with_counts (<[countKey k n := x]>) (getShard s k))))) key m.
Proof.
  intros HR Hkey Hk Hne. apply counter_rep_put; [done| |]; simpl.
  - intros n'. rewrite lookup_insert_ne; [done|]. intros Ek%countKey_key; auto.
  - unfold fincr. rewrite lookup_insert_ne; [done|]. intros Ek. auto.
Qed.

Lemma apply_op_counter s e key m :
  counter_rep s key m -> nonneg m -> no_colon key -> count_ok e ->
  (forall u, entry_count key e = Some u -> cget m u.1 < u.2 ->
     exact53 (u.2 - cget m u.1) /\ exact53 (csum m - cget m u.1 + u.2)) ->
  counter_rep (apply_op s e) key
    (match entry_count key e with Some u => cmerge m u | None => m end).
Proof.
  intros HR Hm Hkey Hok Hb. unfold entry_count in *. unfold apply_op.
  destruct (Z.eqb_spec (Op e) MsgIncr) as [E|E].
  - destruct (Hok E) as (Hnc & v & Hv & Hx & Hd). rewrite E in *. simpl.
    rewrite (drop_zero_sign_int64 _ v) in * by done.
    destruct (decide (MsgIncr = MsgIncr /\ Key e = key)) as [Hk|Hk].
    + destruct Hk as [_ Hk]. rewrite Hk.
      destruct (drop_zero_sign_int _ _ Hd) as [->|[-> [b ->]]].
      * apply setNodeCount_rep; [done|done|]. apply (Hb (NodeID e, v) eq_refl).
      * rewrite (setNodeCount_zero s key m) by done. unfold cmerge. simpl.
        pose proof (cget_bounds m (NodeID e) Hm). by replace (cget m (NodeID e) <? 0) with false by lia.
    + unfold setNodeCount. case_ifs; [|done]. apply other_counter; auto.
  - rewrite decide_False by tauto. case_ifs; try done;
      auto using store_set_counter, store_delete_counter, addWindowTimestamp_counter, incrementMetric_counter.
Qed.

Lemma remote_store_counter s e key m :
  counter_rep s key m -> nonneg m -> no_colon key -> count_ok e ->
  (forall u, entry_count key e = Some u -> cget m u.1 < u.2 ->
     exact53 (u.2 - cget m u.1) /\ exact53 (csum m - cget m u.1 + u.2)) ->
  counter_rep (remote_store s e) key
    (match entry_count key e with Some u => cmerge m u | None => m end).
Proof. intros. by apply updatePeerSeq_counter, apply_op_counter. Qed.

Lemma deliver_store_counter s es key m :
  counter_rep s key m -> no_colon key -> nonneg m -> Forall count_ok es ->
  csum (foldl cmerge m (omap (entry_count key) es)) < 2 ^ 53 ->
  counter_rep (deliver_store s es) key (foldl cmerge m (omap (entry_count key) es)).
Proof.
  intros HR Hkey Hm Hok. revert s m HR Hm.
  induction Hok as [|e es He _ IH]; intros s m HR Hm Hlt; [done|].
  change (deliver_store s (e :: es)) with (deliver_store (remote_store s e) es).
  assert (Hstep : counter_rep (remote_store s e) key (match entry_count key e with Some u => cmerge m u | None => m end)
                  /\ nonneg (match entry_count key e with Some u => cmerge m u | None => m end)).
  { simpl in Hlt. destruct (entry_count key e) as [u|] eqn:Eu.
    - assert (0 <= u.2 /\ exact53 u.2) as [Hu _].
      { unfold entry_count in Eu. case_decide as Hk; [|done]. destruct Hk as [Ho _].
        destruct (He Ho) as (_ & v & Hv & Hx & Hd). rewrite (drop_zero_sign_int64 _ v) in Eu by done.
        injection Eu as <-. done. }
      split; [|by apply cmerge_nonneg].
      pose proof (remote_store_counter s e key m HR Hm Hkey He) as Hr. rewrite Eu in Hr. apply Hr.
      intros u' [= <-] Hlt'. destruct u as [n v]. by apply (merge_exact m n v (omap (entry_count key) es)).
    - split; [|done]. pose proof (remote_store_counter s e key m HR Hm Hkey He) as Hr. rewrite Eu in Hr. by apply Hr. }
  destruct Hstep as [H1 H2]. simpl in *. destruct (entry_count key e); by apply IH.
Qed.
End convergence.

(** ** Entries up to their encoding *)

Section encoding.
Context {O T : Type} {M : Msgpack O T}.

Lemma int64_drop_zero_sign x : int64_of_float (drop_zero_sign x) = int64_of_float x.
Proof.
  unfold drop_zero_sign. destruct (fis0 x) eqn:E; [|done].
  destruct x as [b|b| |b m e]; [by destruct b|by destruct b|done|by destruct b].
Qed.

#[export] Instance entry_write_proper : Proper (LogEntry_equiv ==> eq) (entry_write (O := O)).
Proof. intros e e' []. unfold entry_write. by rewrite eqv_Op, eqv_Key, eqv_TS, eqv_Value, eqv_TTL. Qed.

#[export] Instance entry_count_proper key : Proper (LogEntry_equiv ==> eq) (entry_count key).
Proof.
  intros e e' []. unfold entry_count. rewrite <- (int64_drop_zero_sign (Delta e)), eqv_Delta, int64_drop_zero_sign.
  by rewrite eqv_Op, eqv_Key, eqv_NodeID.
Qed.

#[export] Instance count_ok_proper : Proper (LogEntry_equiv ==> iff) count_ok.
Proof. intros e e' []. unfold count_ok. by rewrite eqv_Op, eqv_Key, eqv_Delta. Qed.

(** The same entries up to their encoding, in any order and with any
    repetitions. *)
Definition same_content (es es' : list LogEntry) : Prop :=
  (forall e, e ∈ es -> exists e', e' ∈ es' /\ LogEntry_equiv e e') /\
  (forall e, e ∈ es' -> exists e', e' ∈ es /\ LogEntry_equiv e e').

Lemma omap_content {B} (g : LogEntry -> option B) `{!Proper (LogEntry_equiv ==> eq) g} es es' :
  same_content es es' -> forall y, y ∈ omap g es <-> y ∈ omap g es'.
Proof.
  intros [H1 H2] y. rewrite !list_elem_of_omap. split; intros (e & He & Hy).
  - destruct (H1 e He) as (e' & He' & E). exists e'. split; [done|]. by rewrite <- E.
  - destruct (H2 e He) as (e' & He' & E). exists e'. split; [done|]. by rewrite <- E.
Qed.

Lemma count_ok_content es es' : same_content es es' -> Forall count_ok es' -> Forall count_ok es.
Proof.
  rewrite !Forall_forall. intros [H1 _] H e He. destruct (H1 e He) as (e' & He' & ->). auto.
Qed.

Lemma same_content_Forall2 es es' : Forall2 LogEntry_equiv es es' -> same_content es es'.
Proof.
  intros H. split.
  - intros e [i Hi]%list_elem_of_lookup. destruct (Forall2_lookup_l _ _ _ _ _ H Hi) as (e' & Hi' & E).
    exists e'. split; [by eapply list_elem_of_lookup_2|done].
  - intros e [i Hi]%list_elem_of_lookup. destruct (Forall2_lookup_r _ _ _ _ _ H Hi) as (e' & Hi' & E).
    exists e'. split; [by eapply list_elem_of_lookup_2|by symmetry].
Qed.

Lemma same_content_app_comm es1 es1' es2 es2' :
  same_content es1' es1 -> same_content es2' es2 -> same_content (es1' ++ es2') (es2 ++ es1).
Proof.
  intros [H1 H1'] [H2 H2']. split; intros e [He|He]%elem_of_app.
  - destruct (H1 e He) as (e' & ? & ?). exists e'. split; [apply elem_of_app; by right|done].
  - destruct (H2 e He) as (e' & ? & ?). exists e'. split; [apply elem_of_app; by left|done].
  - destruct (H2' e He) as (e' & ? & ?). exists e'. split; [apply elem_of_app; by right|done].
  - destruct (H1' e He) as (e' & ? & ?). exists e'. split; [apply elem_of_app; by left|done].
Qed.
End encoding.

(** ** Theorem *)

(** The same entries, in any order and with any repetitions. *)
Definition same_entries (es es' : list LogEntry) : Prop := forall e, e ∈ es <-> e ∈ es'.

Lemma omap_same {B} (g : LogEntry -> option B) es es' :
  same_entries es es' -> forall y, y ∈ omap g es <-> y ∈ omap g es'.
Proof. intros H y. rewrite !list_elem_of_omap. by setoid_rewrite (H _). Qed.

(** C4: Strong eventual consistency of nodes: two nodes with the same store
    that are delivered the same log entries, each in its own order, with its
    own repetitions and clock readings, none from too far in the future, agree
    on every register (when no two different writes of a key carry the same
    timestamp), on the total and the partial counts of every counter (exact
    non-negative counts, names without a colon, total below 2^53) and on every
    sliding window that was sorted. *)
Theorem replica_convergence {O T} {M : Msgpack O T} (f f' : Capacitor O) ds ds' :
  cstore f' = cstore f -> store_wf (cstore f) -> same_entries ds.*1 ds'.*1 ->
  Forall (accepted (maxOffset (hlc f))) ds -> Forall (accepted (maxOffset (hlc f'))) ds' ->
  let s := cstore (deliver f ds) in
  let s' := cstore (deliver f' ds') in
  (tie_free (omap entry_write ds.*1) -> forall key, reg s' key = reg s key) /\
  (Forall count_ok ds.*1 -> forall key m, counter_rep (cstore f) key m -> no_colon key -> nonneg m ->
     csum (foldl cmerge m (omap (entry_count key) ds.*1)) < 2 ^ 53 ->
     getAggregateCount s' key = getAggregateCount s key /\
     (forall n, getNodeCount s' key n = getNodeCount s key n)) /\
  (forall key, StronglySorted Z.lt (win (cstore f) key) -> win s' key = win s key).
Proof.
  intros Hf Hwf Hsame Ha Ha'. cbv zeta. rewrite !deliver_store_eq, Hf by done. split_and!.
  - intros Htie key. rewrite !(proj2 (deliver_store_reg _ _ key Hwf)). symmetry.
    apply run_writes_same; [done|by apply omap_same|done].
  - intros Hok key m HR Hkey Hm Hlt.
    pose proof (foldl_cmerge_same _ _ m (omap_same (entry_count key) _ _ Hsame)) as Hcm.
    assert (HR1 := deliver_store_counter _ _ key m HR Hkey Hm Hok Hlt).
    assert (HR2 : counter_rep (deliver_store (cstore f) ds'.*1) key (foldl cmerge m (omap (entry_count key) ds.*1))).
    { rewrite Hcm in Hlt |- *. apply deliver_store_counter; auto.
      rewrite Forall_forall in Hok |- *. intros e He. by apply Hok, Hsame. }
    unfold getAggregateCount, getNodeCount. split.
    + by rewrite (cr_agg _ _ _ HR1), (cr_agg _ _ _ HR2).
    + intros n. by rewrite (node_count _ _ _ n HR1), (node_count _ _ _ n HR2).
  - intros key Hs. rewrite !deliver_store_win by done.
    destruct (foldl_insert_ts _ (omap (entry_time key) ds.*1) Hs) as [H1 H2].
    destruct (foldl_insert_ts _ (omap (entry_time key) ds'.*1) Hs) as [H1' H2'].
    apply StronglySorted_lt_ext; [done..|]. intros x. rewrite H2, H2'.
    by rewrite (omap_same (entry_time key) _ _ Hsame x).
Qed.

Definition sample_deliveries : list (LogEntry * (Z * Z)) :=
  let at_ := (2000, 2000) in
  [(mkLogEntry 1 (mkTimestamp 1500 0) 0 MsgSet "k" EmptyString (Some [Byte.x01; Byte.x41]) fzero 0, at_);
   (mkLogEntry 2 (mkTimestamp 1600 0) 0 MsgIncr "hits" "n1" None (f_of_int 3) 0, at_);
   (mkLogEntry 3 (mkTimestamp 1700 0) 0 MsgWindow "api" "n1" None fzero 0, at_);
   (mkLogEntry 4 (mkTimestamp 1800 0) 0 MsgIncr "hits" "n1" None (f_of_int 5) 0, at_);
   (mkLogEntry 5 (mkTimestamp 1900 0) 0 MsgDelete "k" EmptyString None fzero 0, at_)].

Definition sample_replica (id : string) : Capacitor unit := new_node id EmptyString 8 1000 false.

Lemma sample_tie_free :
  tie_free (omap (entry_write (M := Tagged.msgpack)) sample_deliveries.*1).
Proof.
  intros w w' Hw Hw'. vm_compute in Hw, Hw'.
  repeat (apply elem_of_cons in Hw as [->|Hw]); [..|by apply not_elem_of_nil in Hw];
  repeat (apply elem_of_cons in Hw' as [->|Hw']); try by apply not_elem_of_nil in Hw'.
  all: vm_compute; congruence.
Qed.

Lemma sample_counts_ok : Forall count_ok sample_deliveries.*1.
Proof.
  assert (Hx : forall v, 0 < v < 10 -> exists v', 0 <= v' /\ exact53 v' /\ drop_zero_sign (f_of_int v) = f_of_int v').
  { intros v Hv. exists v. split_and!; [lia|unfold exact53; lia|]. apply drop_zero_sign_id. unfold exact53. lia. }
  unfold sample_deliveries, count_ok. cbv zeta. rewrite !fmap_cons. cbn [fst].
  repeat apply Forall_cons_2; [..|apply Forall_nil_2]; cbn [Op Key Delta]; intros E; try discriminate E;
    (split; [repeat split; congruence|apply Hx; lia]).
Qed.

Lemma replica_convergence_witness :
  let s := cstore (deliver (M := Tagged.msgpack) (sample_replica "n2") sample_deliveries) in
  let s' := cstore (deliver (M := Tagged.msgpack) (sample_replica "n3")
                     (reverse sample_deliveries ++ sample_deliveries)) in
  (forall key, reg s' key = reg s key) /\
  (getAggregateCount s' "hits" = getAggregateCount s "hits" /\
   (forall n, getNodeCount s' "hits" n = getNodeCount s "hits" n)) /\ win s' "api" = win s "api" /\
  int64_of_float (getAggregateCount s "hits") = 5.
Proof.
  assert (Hacc : Forall (accepted DefaultMaxOffset) sample_deliveries).
  { unfold sample_deliveries, accepted. repeat constructor; simpl; rewrite int64_id;
    unfold is_int64, DefaultMaxOffset; lia. }
  destruct (replica_convergence (M := Tagged.msgpack) (sample_replica "n2") (sample_replica "n3") sample_deliveries
    (reverse sample_deliveries ++ sample_deliveries)) as (H1 & H2 & H3).
  - done.
  - apply empty_store_wf.
  - intros e. rewrite fmap_app, fmap_reverse, elem_of_app, elem_of_reverse. tauto.
  - exact Hacc.
  - apply Forall_app. split; [by apply Forall_reverse|done].
  - cbv zeta in H1, H2, H3 |- *.
    assert (Hnc : no_colon "hits") by (simpl; split_and!; first [exact I|discriminate]).
    assert (Hnn : nonneg ∅) by (intros n v Hv; by rewrite lookup_empty in Hv).
    assert (Hlt : csum (foldl cmerge ∅ (omap (entry_count "hits") sample_deliveries.*1)) < 2 ^ 53) by (by vm_compute).
    specialize (H2 sample_counts_ok "hits" ∅ (counter_rep_empty _) Hnc Hnn Hlt).
    split; [exact (H1 sample_tie_free)|]. split; [exact H2|]. split; [|by vm_compute].
    apply H3. vm_compute. constructor.
Defined.

(** ** Limits *)

(** Metrics are not idempotent: an entry delivered twice is counted twice. *)
Example metric_redelivery_counts_twice :
  let e := mkLogEntry 1 (mkTimestamp 1500 0) 0 MsgMetric "lat" "n1" None (float64_of_Z 10) 0 in
  let f := deliver (M := Tagged.msgpack) (sample_replica "n2") [(e, (2000, 2000)); (e, (2000, 2000))] in
  GetMetric f "lat" = mkMetric 2 (float64_of_Z 20).
Proof. vm_compute. done. Qed.

(** The aggregate of metric [c] is kept under the name of counter [m:c:c], in
    the same shard. *)
Example metric_and_counter_share_an_aggregate :
  let f := deliver (M := Tagged.msgpack) (sample_replica "n2")
    [(mkLogEntry 1 (mkTimestamp 1500 0) 0 MsgMetric "c" "n1" None (float64_of_Z 10) 0, (2000, 2000))] in
  GetCount f "m:c:c" = 1.
Proof. vm_compute. done. Qed.
