(* ===== verification/Session.v ===== *)
(** * Whole sessions

    What the handler of a connection makes of all that a client wrote to it:
    the entries of the batches that decode, in the order they were written, are
    delivered to the node one by one, and the handshakes leave the peer's
    position.  The batches the entries came in do not matter. *)

From S2P Require Import Prelude Float64 Hlc Types Msgp Codec CodecProofs DeltaLog.
From S2P Require Import Store StoreProofs Counters Windows Metrics Client Node NodeProofs Server Convergence.

#[local] Open Scope Z_scope.

Section batches.
Context {O T : Type} {M : Msgpack O T} {SB : Source bytes}.
Variable clock : nat -> Z * Z.
Implicit Types f : Capacitor O.

(** The entry that the bytes decode to, if they do. *)
Definition decode_entry (raw : option bytes) : option LogEntry :=
  match LogEntry_UnmarshalMsg zero_LogEntry (contents raw) with Ok (e, _) => Some e | Err _ => None end.

(** Entries with the clock readings of their delivery, from the [k]-th on. *)
Fixpoint timed (k : nat) (es : list LogEntry) : list (LogEntry * (Z * Z)) :=
  match es with [] => [] | e :: es => (e, clock k) :: timed (S k) es end.

(** The positions after the handshakes of the batches. *)
Definition positions (ps : gmap string Z) (bs : list Batch) : gmap string Z :=
  foldl (fun ps b => match b_Handshake b with Some h => <[FromNode b := LastSeenSeq h]> ps | None => ps end) ps bs.

Lemma timed_fst k es : (timed k es).*1 = es.
Proof. revert k. induction es as [|e es IH]; intros k; [done|]. simpl. by rewrite IH. Qed.

Lemma timed_app k es es' : timed k (es ++ es') = timed k es ++ timed (k + length es) es'.
Proof.
  revert k. induction es as [|e es IH]; intros k; simpl; [by rewrite Nat.add_0_r|].
  by rewrite IH, Nat.add_succ_r.
Qed.

Lemma deliver_app f ds ds' : deliver f (ds ++ ds') = deliver (deliver f ds) ds'.
Proof. apply foldl_app. Qed.

(** The loop over the entries of a batch delivers those that decode. *)
Lemma apply_entries_deliver f k raws :
  apply_entries clock f k raws
  = (deliver f (timed k (omap decode_entry raws)), (k + length (omap decode_entry raws))%nat).
Proof.
  revert f k. induction raws as [|r raws IH]; intros f k; simpl; [by rewrite Nat.add_0_r|].
  destruct (decode_entry r) as [e|] eqn:E; unfold decode_entry in E;
    destruct (LogEntry_UnmarshalMsg _ _) as [[e' rest]|]; simplify_eq; [|apply IH].
  simpl. rewrite Nat.add_succ_r. destruct (clock k) as [now wall]. apply IH.
Qed.

(** Positions and deliveries are independent of each other. *)
Lemma remote_with_seqs p f e now wall :
  applyRemoteEntry (with_cpeerSeqs p f) e now wall = with_cpeerSeqs p (applyRemoteEntry f e now wall).
Proof.
  unfold applyRemoteEntry. case_ifs; simpl; by destruct (Update (hlc f) wall (TS e)) as [[? [|]] ?].
Qed.

Lemma deliver_with_seqs p f ds : deliver (with_cpeerSeqs p f) ds = with_cpeerSeqs p (deliver f ds).
Proof. revert f. induction ds as [|d ds IH]; intros f; simpl; [done|]. by rewrite remote_with_seqs. Qed.

Lemma remote_keeps_seqs f e now wall : cpeerSeqs (applyRemoteEntry f e now wall) = cpeerSeqs f.
Proof.
  unfold applyRemoteEntry. case_ifs; cbn [hlc with_metrics]; by destruct (Update (hlc f) wall (TS e)) as [[? [|]] ?].
Qed.

Lemma deliver_keeps_seqs f ds : cpeerSeqs (deliver f ds) = cpeerSeqs f.
Proof. revert f. induction ds as [|d ds IH]; intros f; simpl; [done|]. by rewrite IH, remote_keeps_seqs. Qed.

(** How the entries are split into batches does not matter. *)
Lemma accept_batches f k bs :
  foldl (accept_batch clock) (f, k) bs
  = (with_cpeerSeqs (positions (cpeerSeqs f) bs)
       (deliver f (timed k (omap decode_entry (concat (Entries <$> bs))))),
     (k + length (omap decode_entry (concat (Entries <$> bs))))%nat).
Proof.
  revert f k. induction bs as [|b bs IH]; intros f k.
  { simpl. rewrite Nat.add_0_r. by destruct f. }
  rewrite fmap_cons. cbn [concat foldl]. unfold accept_batch at 2. rewrite apply_entries_deliver. cbn [fst snd].
  rewrite omap_app, timed_app, deliver_app, length_app, Nat.add_assoc, IH, deliver_keeps_seqs. f_equal.
  unfold positions. cbn [foldl].
  destruct (b_Handshake b) as [h|]; [|done]. by rewrite !deliver_with_seqs.
Qed.
End batches.

(** ** Theorem *)

(** C9: A whole session is applied: a server whose token is the sender's, or
    that has none, reads every batch of a session of at most 100 MB that the
    client wrote to the connection, ends at the end of the stream, and leaves
    the node as delivering to it, one by one, all entries of all batches that
    decode, in the order they were written and each once, with the position of
    the handshake stored for the sender; entries that do not decode are skipped
    and what is behind them is not lost.  The reader over the connection gives the
    connection's bytes, and the batches are within the lengths of the format. *)
Theorem session_is_applied
    {O T} {M : Msgpack O T} {W : Wire} {S} {HS : Source S} {SB : Source bytes}
    {SL : SourceLaws S} {EOF : SourceEOF SL} NewReader clock (f : Capacitor O) tok bs ws :
  (forall b, view (NewReader b) = b) ->
  wf_session tok bs -> Forall2 (fun b data => Batch_MarshalMsg b [] = Ok data) bs ws ->
  Forall Batch_ok bs -> zlen (concat ws) <= conn_limit ->
  authToken f = EmptyString \/ authToken f = tok ->
  exists e, handleConn NewReader clock (Datatypes.S (length bs)) f None (concat ws)
            = Some (EndStream e,
                    with_cpeerSeqs (positions (cpeerSeqs f) bs)
                      (deliver f (timed clock 0 (omap decode_entry (concat (Entries <$> bs)))))).
Proof.
  intros Hr Hwf Hw Hok Hl Ht.
  destruct (handleConn_admitted NewReader clock bs ws f Hr Hl Hw Hok) as [e He].
  { intros f' Hf' i b Hi. by eapply session_admits. }
  exists e. by rewrite He, accept_batches.
Qed.

Lemma session_is_applied_witness :
  exists e f', handleConn (HS := Fixed.source) (SB := Fixed.source) (M := Tagged.msgpack) (fun b => b)
    (fun _ => (2000, 2000)) 3 sample_server None (concat (session_bytes "secret")) = Some (EndStream e, f') /\
    GetCount f' "hits" = 3 /\ cpeerSeqs f' !! "n1" = Some 4.
Proof.
  destruct (session_is_applied (W := Fixed.wire) (HS := Fixed.source) (SB := Fixed.source) (SL := Fixed.source_laws)
    (M := Tagged.msgpack) (fun b => b) (fun _ => (2000, 2000)) sample_server "secret"
    (sample_session "secret") (session_bytes "secret")) as [e He].
  - done.
  - split; [by eexists|]. repeat constructor.
  - repeat constructor; vm_compute; done.
  - apply sample_session_ok.
  - by vm_compute.
  - by right.
  - exists e. eexists. split; [exact He|]. clear. split; by vm_compute.
Defined.
