(* ===== verification/Cluster.v ===== *)
(** * From one node to another

    The whole path of a write: the sender's clock, store and delta log
    ([Set]), the replicator reading the log and sending a batch
    ([replicateToPeer], [SendBatch]), the receiver decoding it and applying the
    entry ([handleConn], [applyRemoteEntry]). *)

From S2P Require Import Prelude Float64 Hlc Types Msgp Codec CodecProofs DeltaLog.
From S2P Require Import Store StoreProofs Counters Windows Metrics Client Node NodeProofs Server.

#[local] Open Scope Z_scope.
#[local] Open Scope go_scope.

(** ** Replication of the log *)

Lemma take_budget_prefix maxBytes cur first es :
  exists k, take_budget maxBytes cur first es = take k es.
Proof.
  revert cur first. induction es as [|e es IH]; intros cur first; [by exists 0%nat|].
  simpl. case_ifs; [by exists 0%nat|]. destruct (IH (cur + zlen e) false) as [k ->]. by exists (S k).
Qed.

(** What a reader at a retained position gets: the next entries, at least one
    and at most [limit]. *)
Lemma spec_get_next hs cap p limit maxBytes :
  earliest hs cap - 1 <= p < zlen hs -> 1 <= limit ->
  exists k, spec_get hs cap (p + 1) limit maxBytes = take k (drop (Z.to_nat p) hs) /\
    (1 <= k)%nat /\ Z.of_nat k <= limit /\ p + Z.of_nat k <= zlen hs.
Proof.
  intros Hp Hl. assert (0 <= p) by (unfold earliest in Hp; lia). unfold spec_get.
  replace (Z.max (p + 1) (earliest hs cap) - 1) with p by lia.
  set (d := drop (Z.to_nat p) hs).
  assert (Hd : (length d = length hs - Z.to_nat p)%nat) by apply length_drop.
  destruct (take_budget_prefix maxBytes 0 true (take (Z.to_nat limit) d)) as [k Hk].
  exists (min k (min (Z.to_nat limit) (length d))). rewrite Hk, take_take.
  unfold zlen in *. split_and!; [|..|lia|lia].
  - destruct (decide (min k (Z.to_nat limit) <= length d)%nat).
    + f_equal. lia.
    + rewrite !take_ge by lia. done.
  - destruct k as [|k]; [|lia]. exfalso. destruct d as [|e d']; [simpl in *; lia|].
    destruct (Z.to_nat limit) eqn:El; [lia|]. simpl in Hk. done.
Qed.

Section replicate.
Context {O : Type} {W : Wire}.
Implicit Types f : Capacitor O.

(** The batch made of the entries [es], as it goes out to the peer. *)
Definition outgoing f (peer : string) (es : list bytes) : Batch :=
  first_stamped (client f) peer (mkBatch (nodeID f) (Some <$> es) None) (getPeerSeq (cstore f) peer).

Lemma outgoing_entries f peer es : Entries (outgoing f peer es) = Some <$> es.
Proof. unfold outgoing, first_stamped. by case_decide. Qed.

Lemma outgoing_ok f peer raw :
  is_uint32 (zlen raw) -> is_uint32 (strlen (nodeID f)) ->
  Handshake_ok (mkHandshake (getPeerSeq (cstore f) peer) (c_authToken (client f))) ->
  Batch_ok (outgoing f peer [raw]).
Proof.
  intros Hr Hi Hh. unfold outgoing, first_stamped.
  case_decide; split; simpl; auto; try (by repeat constructor); by intros ? [= <-].
Qed.

(** Accepted by a peer that has the sender's token, or none. *)
Lemma outgoing_admitted {O'} (fB : Capacitor O') f peer es :
  authToken fB = EmptyString \/ authToken fB = c_authToken (client f) ->
  admits fB (bool_decide (live_written (client f) peer = [])) (outgoing f peer es).
Proof.
  intros [Ht|Ht]; [by left|right]. unfold outgoing, first_stamped.
  case_decide; simpl; [done|]. by rewrite bool_decide_false.
Qed.

(** One round of replication from position [p]: what it keeps, and either
    nothing was sent or the next [k] entries went out as one batch. *)
Lemma replicate_spec S f hs L peer p now dok wok :
  Rep S (dlog f) hs L -> zlen hs < 9223372036854775806 -> client_inv (client f) ->
  lastSeq f peer = p -> earliest hs (capacity (dlog f)) - 1 <= p <= zlen hs ->
  exists f', replicateToPeer f peer now dok wok = Ret f' /\
    (cstore f' = cstore f /\ hlc f' = hlc f /\ dlog f' = dlog f /\ nodeID f' = nodeID f /\
     c_authToken (client f') = c_authToken (client f) /\ client_inv (client f')) /\
    ((lastSeq f' peer = p /\ ((p = zlen hs /\ client f' = client f) \/ dok && wok = false)) \/
     exists k data, lastSeq f' peer = p + Z.of_nat k /\ (1 <= k <= 1000)%nat /\ p + Z.of_nat k <= zlen hs /\
       Batch_MarshalMsg (outgoing f peer (take k (drop (Z.to_nat p) hs))) [] = Ok data /\
       live_written (client f') peer = live_written (client f) peer ++ [data]).
Proof.
  intros HR Hn HC Hlast Hp. pose proof (zlen_nonneg hs).
  assert (0 <= p) by (unfold earliest in Hp; lia).
  unfold replicateToPeer. rewrite Hlast. cbn [dlog with_cpeerSeqs].
  rewrite (uint64_id (p + 1)) by (unfold is_uint64; lia).
  rewrite (DeltaLog_get_spec S _ hs L) by (auto; lia). simpl go_bind.
  destruct (Z.lt_ge_cases p (zlen hs)) as [Hlt|Hge].
  - destruct (spec_get_next hs (capacity (dlog f)) p 1000 (8 * 1024 * 1024)) as (k & -> & Hk); [lia|lia|].
    set (es := take k (drop (Z.to_nat p) hs)).
    assert (Hes : zlen es = Z.of_nat k) by (unfold es, zlen in *; rewrite length_take, length_drop; lia).
    destruct es as [|e0 es'] eqn:Ees; [unfold zlen in Hes; simpl in Hes; lia|]. rewrite <- Ees in *.
    cbn [client nodeID cstore with_cpeerSeqs].
    pose proof (SendBatch_spec (client f) peer (mkBatch (nodeID f) (Some <$> es) None)
      (getPeerSeq (cstore f) peer) now dok wok HC eq_refl) as Hs.
    pose proof (SendBatch_written (client f) peer (mkBatch (nodeID f) (Some <$> es) None)
      (getPeerSeq (cstore f) peer) now dok wok HC eq_refl) as Hw.
    destruct (SendBatch _ _ _ _ _ _ _) as [err c]. destruct Hs as (HC' & Ht & _). destruct Hw as [Hnet Hw].
    destruct err as [err|]; eexists; (split; [done|]); (split; [done|]).
    + left. unfold lastSeq. simpl. rewrite lookup_insert_eq. split; [done|right].
      destruct dok, wok; try done. by specialize (Hnet eq_refl eq_refl).
    + right. destruct (Hw eq_refl) as (data & Hm & Hd).
      exists k, data. split_and!; try done; try lia.
      unfold lastSeq. simpl. rewrite lookup_insert_eq, Hes.
      rewrite (uint64_id (Z.of_nat k)), (uint64_id (p + _)); unfold is_uint64; lia.
  - assert (p = zlen hs) as -> by lia.
    assert (spec_get hs (capacity (dlog f)) (zlen hs + 1) 1000 (8 * 1024 * 1024) = []) as ->.
    { unfold spec_get. rewrite drop_ge, take_nil; [done|]. unfold zlen. lia. }
    eexists. split; [done|]. split; [done|]. left. unfold lastSeq. simpl. rewrite lookup_insert_eq. auto.
Qed.

(** Rounds over a working network. *)
Fixpoint rounds (n : nat) f (peer : string) (now : Z) : go (Capacitor O) :=
  match n with
  | Datatypes.O => Ret f
  | Datatypes.S n => let! f := replicateToPeer f peer now true true in rounds n f peer now
  end.

(** The batches of consecutive rounds: at most 1000 of the entries [hs] each,
    and the handshake on the first one of a new connection. *)
Definition sent_batch f (peer : string) (fresh : bool) (hs : list bytes) (i : nat) (b : Batch) : Prop :=
  exists es, es ⊆ hs /\ (length es <= 1000)%nat /\
    b = mkBatch (nodeID f) (Some <$> es)
          (if fresh && bool_decide (i = 0%nat)
           then Some (mkHandshake (getPeerSeq (cstore f) peer) (c_authToken (client f))) else None).

Lemma rounds_spec S n f hs L peer p now :
  Rep S (dlog f) hs L -> zlen hs < 9223372036854775806 -> client_inv (client f) ->
  lastSeq f peer = p -> earliest hs (capacity (dlog f)) - 1 <= p <= zlen hs -> zlen hs - p <= Z.of_nat n ->
  exists f' bs datas, rounds n f peer now = Ret f' /\ lastSeq f' peer = zlen hs /\
    live_written (client f') peer = live_written (client f) peer ++ datas /\
    Forall2 (fun b data => Batch_MarshalMsg b [] = Ok data) bs datas /\
    concat (Entries <$> bs) = Some <$> drop (Z.to_nat p) hs /\
    (forall i b, bs !! i = Some b ->
       sent_batch f peer (bool_decide (live_written (client f) peer = [])) (drop (Z.to_nat p) hs) i b).
Proof.
  revert f p. induction n as [|n IH]; intros f p HR Hn HC Hlast Hp Hle.
  { assert (p = zlen hs) as -> by lia. exists f, [], []. rewrite app_nil_r.
    split_and!; [done|done|done|done| |done]. simpl. rewrite drop_ge; [done|unfold zlen; lia]. }
  cbn [rounds]. destruct (replicate_spec S f hs L peer p now true true HR Hn HC Hlast Hp)
    as (f1 & -> & (Hst & _ & Hlog & Hid & Htok & HC1) & Hcase). simpl.
  destruct Hcase as [[Hl Hor]|(k & data & Hl & Hk & Hle' & Hm & Hw)].
  - destruct Hor as [[Hz Hcl]|]; [|done].
    destruct (IH f1 p) as (f' & bs & datas & Hr & Hl' & Hw' & Hb & He & Hs); rewrite ?Hlog; try done; [lia|].
    exists f', bs, datas. unfold sent_batch in *. rewrite Hcl, Hst, Hid in *. by split_and!.
  - assert (0 <= p) by (unfold earliest in Hp; lia).
    assert (Hd : drop (Z.to_nat (p + Z.of_nat k)) hs = drop k (drop (Z.to_nat p) hs))
      by (rewrite drop_drop; f_equal; lia).
    destruct (IH f1 (p + Z.of_nat k)) as (f' & bs & datas & Hr & Hl' & Hw' & Hb & He & Hs);
      rewrite ?Hlog; try done; [lia|lia|]. rewrite Hd in He, Hs.
    eexists f', (_ :: bs), (data :: datas). split_and!; [done|done| |by constructor|..].
    + by rewrite Hw', Hw, <- app_assoc.
    + rewrite fmap_cons. cbn [concat]. rewrite He, outgoing_entries, <- fmap_app. by rewrite take_drop.
    + intros [|i] b Hi; simpl in Hi.
      * injection Hi as <-. eexists. split_and!; [| |unfold outgoing, first_stamped; by case_decide; [rewrite bool_decide_true|rewrite bool_decide_false]].
        -- intros x Hx. by apply elem_of_take in Hx as (? & ? & _); eapply list_elem_of_lookup_2.
        -- rewrite length_take. lia.
      * destruct (Hs i b Hi) as (es & Hsub & Hlen & ->). exists es. split_and!; [|done|].
        -- intros x Hx. apply Hsub in Hx. eapply subseteq_drop; eauto.
        -- rewrite Hid, Hst, Htok, Hw, (bool_decide_false (_ ++ [_] = [])) by (by intros [_ [=]]%app_nil).
           by rewrite (bool_decide_false (Datatypes.S i = 0%nat)), andb_false_r.
Qed.
End replicate.

(** ** The path of one write *)

(** The entry [Set] appends. *)
Definition set_entry (ts : Timestamp) (born : Z) (key : string) (b : bytes) (ttl seq : Z) : LogEntry :=
  mkLogEntry seq ts born MsgSet key EmptyString (Some b) fzero (Milliseconds ttl).

Section path.
Context {O T : Type} {M : Msgpack O T} {W : Wire} {WL : WireLaws W}.
Implicit Types f : Capacitor O.

Lemma cp_Set_log S f hs L key v ttl wall born lat b ts h :
  Rep S (dlog f) hs L -> zlen hs < 9223372036854775806 -> Marshal v = Ok b -> Now (hlc f) wall = (ts, h) ->
  LogEntry_Msgsize (set_entry ts born key b ttl (zlen hs + 1)) <= S ->
  exists f' L', cp_Set f key v ttl wall born lat = Ret (None, f') /\
    Rep S (dlog f') (hs ++ [marshal (set_entry ts born key b ttl (zlen hs + 1))]) L' /\
    cstore f' = store_set (cstore f) key v ts ttl /\ client f' = client f /\ cpeerSeqs f' = cpeerSeqs f /\
    nodeID f' = nodeID f.
Proof.
  intros HR Hn Hm Hnow Hsz. unfold cp_Set, tick. rewrite Hnow, Hm.
  cbn [cstore with_hlc]. unfold append. cbn [dlog with_store with_hlc].
  pose proof (rep_head _ _ _ _ HR) as Hh.
  destruct (Rep_append S (dlog f) hs L (set_entry ts born key b ttl 0) HR Hn) as (l' & L' & Ha & HR' & _).
  { unfold set_Seq. rewrite Hh. exact Hsz. }
  unfold set_entry in Ha. rewrite Ha. simpl go_bind. eexists _, L'. split; [done|].
  rewrite Hh in HR'. unfold set_entry, set_Seq in *. simpl in HR'.
  unfold observe. simpl. by destruct (disableMetrics f).
Qed.

Context {SB : Source bytes} {SS : SliceSource}.

Lemma marshal_decodes e :
  LogEntry_ok e ->
  exists e', LogEntry_UnmarshalMsg zero_LogEntry (marshal e) = Ok (e', []) /\ LogEntry_equiv e' e.
Proof.
  intros Hok. destruct (LogEntry_decode_enc e [] [] Hok) as (e' & Ho & Hd & He).
  exists e'. unfold marshal. rewrite Ho. simpl. by rewrite app_nil_r in Hd.
Qed.

Lemma equiv_set_write e' ts born key b ttl seq :
  LogEntry_equiv e' (set_entry ts born key b ttl seq) ->
  entry_write e' = Some (WSet key (Unmarshal_any b).1 ts (of_millis (Milliseconds ttl))).
Proof.
  intros [_ HTS _ HOp HKey _ HV _ HTTL]. unfold entry_write. simpl in *. by rewrite HOp, HTS, HKey, HV, HTTL.
Qed.

(** The receiver of the entry: accepted by its clock, its register merges
    the write. *)
Lemma receive_set (clock : nat -> Z * Z) f k ts born key b ttl seq :
  store_wf (cstore f) -> LogEntry_ok (set_entry ts born key b ttl seq) ->
  Physical ts <= int64 ((clock k).2 + maxOffset (hlc f)) ->
  exists f', apply_entries clock f k [Some (marshal (set_entry ts born key b ttl seq))] = (f', Datatypes.S k) /\
    reg (cstore f') key
    = merge (reg (cstore f) key) (w_val (WSet key (Unmarshal_any b).1 ts (of_millis (Milliseconds ttl)))).
Proof.
  intros Hwf Hok Hacc. destruct (marshal_decodes _ Hok) as (e' & Hd & He). simpl. rewrite Hd.
  destruct (clock k) as [now wall]. simpl in Hacc. eexists. split; [done|].
  pose proof (applyRemoteEntry_cases f e' now wall) as (_ & _ & Hc).
  assert (Hu : (Update (hlc f) wall (TS e')).1.2 = None).
  { rewrite (eqv_TS _ _ He). unfold Update. simpl. destruct (int64 _ <? _) eqn:E; [lia|done]. }
  rewrite Hu in Hc. destruct Hc as [-> _].
  rewrite (proj2 (remote_reg _ e' key Hwf)), (equiv_set_write _ _ _ _ _ _ _ He). simpl.
  exact (reg_do_write_same (cstore f) (WSet key _ ts _) Hwf).
Qed.
(** The receiver of a batch with that one entry. *)
Lemma receive_set_batch {R} {HS : Source R} {SL : SourceLaws R} (clock : nat -> Z * Z) f first k batch data
    (s : R) rest ts born key b ttl seq :
  store_wf (cstore f) -> LogEntry_ok (set_entry ts born key b ttl seq) ->
  Physical ts <= int64 ((clock k).2 + maxOffset (hlc f)) ->
  Entries batch = [Some (marshal (set_entry ts born key b ttl seq))] -> Batch_ok batch -> admits f first batch ->
  Batch_MarshalMsg batch [] = Ok data -> view s = data ++ rest ->
  exists batch' s' f', Batch_DecodeMsg zero_Batch s = Ok (batch', s') /\ view s' = rest /\
    handle_batch clock f first k batch' = inr (f', Datatypes.S k) /\
    reg (cstore f') key
    = merge (reg (cstore f) key) (w_val (WSet key (Unmarshal_any b).1 ts (of_millis (Milliseconds ttl)))).
Proof.
  intros Hwf Hok Hacc HE Hbok Hadm Hmar Hv.
  destruct (Batch_decode_enc batch data s rest Hbok Hmar Hv) as (batch' & s' & Hd & Heq & Hv').
  pose proof (handle_batch_admits clock f first k batch batch' Hadm Heq) as Hhb.
  unfold accept_batch in Hhb. rewrite HE in Hhb. cbn [fst snd] in Hhb.
  set (f0 := match b_Handshake batch with Some _ => _ | None => _ end) in Hhb.
  assert (cstore f0 = cstore f /\ hlc f0 = hlc f) as [H1 H2] by (unfold f0; by destruct (b_Handshake batch)).
  destruct (receive_set clock f0 k ts born key b ttl seq) as (f' & Hap & Hreg);
    [by rewrite H1|done|by rewrite H2|].
  exists batch', s', f'. rewrite Hhb, Hap, <- H1. done.
Qed.
End path.

Lemma of_millis_exact ttl : 0 <= ttl -> is_int64 ttl -> ttl mod Millisecond = 0 -> of_millis (Milliseconds ttl) = ttl.
Proof.
  intros H0 Hi Hm. unfold of_millis, Milliseconds. rewrite Z.quot_div_nonneg by (unfold Millisecond; lia).
  assert (ttl / Millisecond * Millisecond = ttl) as ->.
  { apply Z.mod_divide in Hm as [q ->]; [|done]. by rewrite Z.div_mul. }
  by apply int64_id.
Qed.

(** ** Theorems *)

(** C13: Replication follows the log: in a log whose entries are within the size of
    its slots ([Rep]), and from a position it still retains, a round sends the
    entries right after that position, in order, at most 1000 of them and at least
    one if there is any, in one batch stamped with the handshake exactly when it is
    the first on its connection; the position advances by the number of entries
    sent, and stays where it was when there is nothing to send or the network
    fails; the store, the clock and the log are not touched, and nothing panics. *)
Theorem replicate_sends_next_entries {O} {W : Wire} S (f : Capacitor O) hs L peer p now dok wok :
  Rep S (dlog f) hs L -> zlen hs < 9223372036854775806 -> client_inv (client f) ->
  lastSeq f peer = p -> earliest hs (capacity (dlog f)) - 1 <= p <= zlen hs ->
  exists f', replicateToPeer f peer now dok wok = Ret f' /\
    (cstore f' = cstore f /\ hlc f' = hlc f /\ dlog f' = dlog f /\ nodeID f' = nodeID f /\
     c_authToken (client f') = c_authToken (client f) /\ client_inv (client f')) /\
    ((lastSeq f' peer = p /\ ((p = zlen hs /\ client f' = client f) \/ dok && wok = false)) \/
     exists k data, lastSeq f' peer = p + Z.of_nat k /\ (1 <= k <= 1000)%nat /\ p + Z.of_nat k <= zlen hs /\
       Batch_MarshalMsg (outgoing f peer (take k (drop (Z.to_nat p) hs))) [] = Ok data /\
       live_written (client f') peer = live_written (client f) peer ++ [data]).
Proof. apply replicate_spec. Qed.

(** C11: Replication catches up: in a log whose entries are within the size of
    its slots ([Rep]), and from a position it still retains, as many rounds over a
    working network as there are entries after the peer's position bring the
    position to the end of the log, and what was written to the peer's connection
    in these rounds decodes to batches whose entries are exactly the entries after
    the position, each once and in order.  (From a position the log has
    overwritten, entries are sent more than once.) *)
Theorem replication_catches_up {O} {W : Wire} S n (f : Capacitor O) hs L peer p now :
  Rep S (dlog f) hs L -> zlen hs < 9223372036854775806 -> client_inv (client f) ->
  lastSeq f peer = p -> earliest hs (capacity (dlog f)) - 1 <= p <= zlen hs -> zlen hs - p <= Z.of_nat n ->
  exists f' bs datas, rounds n f peer now = Ret f' /\ lastSeq f' peer = zlen hs /\
    live_written (client f') peer = live_written (client f) peer ++ datas /\
    Forall2 (fun b data => Batch_MarshalMsg b [] = Ok data) bs datas /\
    concat (Entries <$> bs) = Some <$> drop (Z.to_nat p) hs.
Proof.
  intros HR Hn HC Hl Hp Hle. destruct (rounds_spec S n f hs L peer p now) as (f' & bs & datas & ? & ? & ? & ? & ? & _);
    [done..|]. by exists f', bs, datas.
Qed.

(** C2: A write reaches a peer: a [Set] on a node whose log is replicated to
    the peer up to its end, followed by one round of replication over a working
    network, puts one batch on the peer's connection; the peer, with the same
    token or none and a clock not too far behind, decodes that batch from its
    stream, accepts it, and its register for the key becomes the merge of what
    it held and the write as decoded; when the value is one the encoding
    preserves, the TTL a whole number of milliseconds and the write newer than
    both registers, the two nodes then hold the same register: value, timestamp
    and expiry. *)
Theorem set_reaches_peer {O T} {M : Msgpack O T} {ML : MsgpackLaws M} {W : Wire} {WL : WireLaws W}
    {SB : Source bytes} {SS : SliceSource} {R} {HS : Source R} {SL : SourceLaws R}
    S (fA fB : Capacitor O) hs L peer key v b ttl wall born lat now ts h clock k :
  let e := set_entry ts born key b ttl (zlen hs + 1) in
  let w := WSet key v ts ttl in
  (* the sender *)
  Rep S (dlog fA) hs L -> zlen hs < 9223372036854775805 -> client_inv (client fA) ->
  cpeerSeqs fA !! peer = Some (zlen hs) -> Marshal v = Ok b -> Now (hlc fA) wall = (ts, h) ->
  LogEntry_ok e -> LogEntry_Msgsize e <= S -> is_uint32 (strlen (nodeID fA)) ->
  Handshake_ok (mkHandshake (getPeerSeq (store_set (cstore fA) key v ts ttl) peer) (c_authToken (client fA))) ->
  store_wf (cstore fA) ->
  (* the receiver *)
  store_wf (cstore fB) -> authToken fB = EmptyString \/ authToken fB = c_authToken (client fA) ->
  Physical ts <= int64 ((clock k).2 + maxOffset (hlc fB)) ->
  exists fA1 fA2 data,
    cp_Set fA key v ttl wall born lat = Ret (None, fA1) /\
    replicateToPeer fA1 peer now true true = Ret fA2 /\ lastSeq fA2 peer = zlen hs + 1 /\
    live_written (client fA2) peer = live_written (client fA) peer ++ [data] /\
    forall (s : R) rest, view s = data ++ rest ->
    exists batch s' fB',
      Batch_DecodeMsg zero_Batch s = Ok (batch, s') /\ view s' = rest /\
      handle_batch clock fB (bool_decide (live_written (client fA) peer = [])) k batch = inr (fB', Datatypes.S k) /\
      reg (cstore fB') key = merge (reg (cstore fB) key) (w_val (WSet key (canon v) ts (of_millis (Milliseconds ttl)))) /\
      (canon v = v -> 0 <= ttl -> is_int64 ttl -> ttl mod Millisecond = 0 ->
       newer (cstore fA) w -> newer (cstore fB) w -> reg (cstore fB') key = reg (cstore fA1) key).
Proof.
  intros e w HR Hn HC Hpos Hm Hnow Hok Hsz Hid Hhs HwA HwB Htok Hacc.
  destruct (cp_Set_log S fA hs L key v ttl wall born lat b ts h HR ltac:(lia) Hm Hnow Hsz)
    as (fA1 & L' & Hset & HR' & Hst & Hcl & Hps & Hnid). fold e in HR'.
  set (raw := marshal e) in *. pose proof (rep_cap _ _ _ _ HR') as Hcap. pose proof (zlen_nonneg hs) as H0.
  assert (Hzl : zlen (hs ++ [raw]) = zlen hs + 1) by (by rewrite zlen_app).
  assert (Hl1 : lastSeq fA1 peer = zlen hs) by (unfold lastSeq; by rewrite Hps, Hpos).
  destruct (replicate_spec S fA1 (hs ++ [raw]) L' peer (zlen hs) now true true HR')
    as (fA2 & Hrep & _ & Hcase); [lia|by rewrite Hcl|done|unfold earliest; lia|].
  destruct Hcase as [[_ [[? _]|?]]|(j & data & Hl2 & Hj & Hjle & Hmar & Hw)]; [lia|done|].
  assert (j = 1%nat) as -> by lia.
  assert (Hes : take 1 (drop (Z.to_nat (zlen hs)) (hs ++ [raw])) = [raw]).
  { unfold zlen. by rewrite Nat2Z.id, drop_app_length. }
  rewrite Hes in Hmar. exists fA1, fA2, data. split_and!; [done|done|lia|by rewrite Hw, Hcl|].
  intros s rest Hv.
  assert (Hraw : is_uint32 (zlen raw)).
  { pose proof (marshal_length e) as Hml. fold raw in Hml. pose proof (zlen_nonneg raw).
    pose proof (rep_bufCap _ _ _ _ HR). pose proof (rep_cap _ _ _ _ HR). unfold is_uint32. nia. }
  destruct (receive_set_batch clock fB (bool_decide (live_written (client fA) peer = [])) k
    (outgoing fA1 peer [raw]) data s rest ts born key b ttl (zlen hs + 1)) as (batch & s' & fB' & Hd & Hv' & Hhb & Hreg);
    try done.
  { apply outgoing_entries. }
  { by apply (outgoing_ok fA1); rewrite ?Hst, ?Hcl, ?Hnid. }
  { rewrite <- Hcl. apply outgoing_admitted. by rewrite Hcl. }
  exists batch, s', fB'. rewrite (Unmarshal_Marshal v b Hm) in Hreg. split_and!; try done.
  intros Hcan Httl Hi Hmod HnA HnB. rewrite Hreg, Hst, (reg_set_newer _ _ _ _ _ HwA HnA). simpl fst.
  rewrite Hcan, of_millis_exact by done. exact (merge_newer _ w HnB).
Qed.

(** A sender whose log has lapped once and whose peer has the first entry. *)
Definition sample_sender (l : DeltaLog) : Capacitor unit :=
  with_cpeerSeqs {["n2" := 1]} (with_log l (new_node "n1" "secret" 2 1000 false)).

Lemma replicate_sends_next_entries_witness :
  exists l f', run_log (H := Fixed.wire) (NewDeltaLog 2) [small_entry "a"; small_entry "b"; small_entry "c"] = Ret l /\
    replicateToPeer (W := Fixed.wire) (sample_sender l) "n2" 500 true true = Ret f' /\
    1 < lastSeq f' "n2" <= 3 /\ cstore f' = cstore (sample_sender l).
Proof.
  destruct three_in_two_Rep as (l & L & E & HR & Hc). exists l.
  destruct (replicate_sends_next_entries (W := Fixed.wire) 170 (sample_sender l) _ L "n2" 1 500 true true HR)
    as (f' & Hr & (Hs & _) & Hcase); [by vm_compute|apply new_inv|by vm_compute|simpl; rewrite Hc; by vm_compute|].
  exists f'. split_and!; [done|done|..|done].
  all: destruct Hcase as [[_ [[H _]|H]]|(k & data & Hl & Hk & Hle & _)]; [by vm_compute in H|done|].
  - rewrite Hl. lia.
  - rewrite Hl. unfold zlen in Hle. simpl in Hle. lia.
Defined.

Lemma replication_catches_up_witness :
  exists l f' bs datas,
    run_log (H := Fixed.wire) (NewDeltaLog 2) [small_entry "a"; small_entry "b"; small_entry "c"] = Ret l /\
    rounds (W := Fixed.wire) 2 (sample_sender l) "n2" 500 = Ret f' /\ lastSeq f' "n2" = 3 /\
    live_written (client f') "n2" = datas /\
    Forall2 (fun b data => Batch_MarshalMsg (H := Fixed.wire) b [] = Ok data) bs datas /\
    concat (Entries <$> bs) = Some <$> (marshal (H := Fixed.wire) <$> [set_Seq (small_entry "b") 2; set_Seq (small_entry "c") 3]).
Proof.
  destruct three_in_two_Rep as (l & L & E & HR & Hc). exists l.
  destruct (replication_catches_up (W := Fixed.wire) 170 2 (sample_sender l) _ L "n2" 1 500 HR)
    as (f' & bs & datas & Hr & Hl & Hw & Hb & He);
    [by vm_compute|apply new_inv|by vm_compute|simpl; rewrite Hc; by vm_compute|by vm_compute|].
  exists f', bs, datas. by split_and!.
Defined.

Definition writer : Capacitor unit :=
  with_cpeerSeqs {["n2" := 0]} (new_node "n1" "secret" 3 1000 false).

Lemma set_reaches_peer_witness :
  exists fA1 fA2 data,
    cp_Set (M := Tagged.msgpack) (W := Fixed.wire) writer "k" (AString "v") 0 2000 2001 9 = Ret (None, fA1) /\
    replicateToPeer (W := Fixed.wire) fA1 "n2" 2002 true true = Ret fA2 /\ lastSeq fA2 "n2" = 0 + 1 /\
    live_written (client fA2) "n2" = [] ++ [data] /\
    exists batch fB',
      Batch_DecodeMsg (H := Fixed.source) zero_Batch data = Ok (batch, []) /\
      handle_batch (M := Tagged.msgpack) (SB := Fixed.source) (fun _ => (2005, 2005)) (new_node "n2" "secret" 3 1500 false)
        true 0 batch = inr (fB', 1%nat) /\
      reg (cstore fB') "k" = reg (cstore fA1) "k".
Proof.
  destruct (set_reaches_peer (ML := Tagged.laws) (WL := Fixed.wire_laws) (SS := Fixed.slice) (SL := Fixed.source_laws)
    190 writer (new_node "n2" "secret" 3 1500 false) [] [] "n2" "k" (AString "v") [Byte.x01; Byte.x76]
    0 2000 2001 9 2002 (mkTimestamp 2000 0) (mkHLC 2000 0 DefaultMaxOffset) (fun _ => (2005, 2005)) 0)
    as (fA1 & fA2 & data & H1 & H2 & H3 & H4 & H5).
  - apply NewDeltaLog_Rep; vm_compute; split || idtac; congruence.
  - by vm_compute.
  - apply new_inv.
  - done.
  - by vm_compute.
  - by vm_compute.
  - split; try (vm_compute; split; congruence).
  - by vm_compute.
  - by vm_compute.
  - by vm_compute.
  - apply empty_store_wf.
  - apply empty_store_wf.
  - by right.
  - by vm_compute.
  - exists fA1, fA2, data. split_and!; [exact H1|exact H2|exact H3|exact H4|].
    destruct (H5 data []) as (batch & s' & fB' & Hd & Hv & Hh & _ & Hr); [by rewrite app_nil_r|].
    simpl in Hv. subst s'. exists batch, fB'. split_and!; [done|exact Hh|].
    apply Hr; try done; vm_compute; split; congruence.
Defined.

(** ** A handshake during a round

    The round reads the position at its start and stores the new one at its
    end; [handleConn] may store the position a peer asks for in between. *)
Section race.
Context {O : Type} {W : Wire}.
Implicit Types f : Capacitor O.

(** [LoadOrStore] of the position. *)
Definition replicate_begin f (peer : string) : Z * Capacitor O :=
  let last := lastSeq f peer in (last, with_cpeerSeqs (<[peer := last]> (cpeerSeqs f)) f).

(** Reading the log and sending: how many entries were sent. *)
Definition replicate_send f (peer : string) (last now : Z) (dial_ok write_ok : bool) : go (option Z * Capacitor O) :=
  let! rawEntries := GetEntriesRaw (dlog f) (uint64 (last + 1)) 1000 (8 * 1024 * 1024) in
  match rawEntries with
  | [] => Ret (None, f)
  | _ =>
      let '(err, c) := SendBatch (client f) peer (mkBatch (nodeID f) (Some <$> rawEntries) None)
        (getPeerSeq (cstore f) peer) now dial_ok write_ok in
      Ret (match err with None => Some (uint64 (zlen rawEntries)) | Some _ => None end, with_client c f)
  end.

(** Storing the new position. *)
Definition replicate_end f (peer : string) (last : Z) (sent : option Z) : Capacitor O :=
  match sent with
  | Some k => with_cpeerSeqs (<[peer := uint64 (last + k)]> (cpeerSeqs f)) f
  | None => f
  end.

Lemma replicate_in_steps f peer now dok wok :
  replicateToPeer f peer now dok wok
  = (let '(last, f) := replicate_begin f peer in
     let! (sent, f) := replicate_send f peer last now dok wok in Ret (replicate_end f peer last sent)).
Proof.
  unfold replicateToPeer, replicate_begin, replicate_send, replicate_end.
  destruct (GetEntriesRaw _ _ _ _) as [[|e es]|]; [done| |done]. cbn [go_bind].
  by destruct (SendBatch _ _ _ _ _ _ _) as [[|] c].
Qed.
End race.

(** A peer that lost its data asks for everything again while a round is on
    its way: the end of the round overwrites its request, and the entry it
    asked for is not sent. *)
Example handshake_during_a_round_is_lost :
  let f := sample_sender (NewDeltaLog 4) in
  let log := let! f := append (W := Fixed.wire) f (small_entry "a") in
             let! f := append (W := Fixed.wire) f (small_entry "b") in Ret f in
  let asked := mkBatch "n2" [] (Some (mkHandshake 0 "secret")) in
  (let! f := log in
   let '(last, f) := replicate_begin f "n2" in
   let f := (accept_batch (M := Tagged.msgpack) (SB := Fixed.source) (fun _ => (2000, 2000)) (f, 0%nat) asked).1 in
   let! (sent, f) := replicate_send (W := Fixed.wire) f "n2" last 500 true true in
   let wanted := lastSeq f "n2" in
   Ret (last, wanted, lastSeq (replicate_end f "n2" last sent) "n2"))
  = Ret (1, 0, 2).
Proof. vm_compute. reflexivity. Qed.
