(* ===== verification/Persist.v ===== *)
(** * Persistence of the store (src/store.go: load, flush, close)

    The store is a write-back cache over BadgerDB: operations mark keys dirty,
    [flush] writes the dirty keys in one batch, [load] rebuilds the shards from
    the database.  BadgerDB is the class [Badger]; the encoding of registers by
    vmihailenco/msgpack is the class [ValCodec].  A flush reads the clock for
    each register it writes, and so does BadgerDB for each time to live
    ([flush_clock]); [load] uses one reading for the whole iteration. *)

From S2P Require Import Prelude Float64 Hlc Types Msgp Store StoreProofs Counters Node.
From stdpp Require Import pretty.
From Stdlib Require Import Ascii.

#[local] Open Scope Z_scope.
#[local] Open Scope go_scope.

(** ** The database *)

(** An operation of a write batch: set a key, with or without a time to live
    (the time at which it starts, and its length), or delete it. *)
Inductive wop := WPut (key : string) (val : bytes) (ttl : option (Z * Z)) | WDel (key : string).

#[export] Instance wop_eq_dec : EqDecision wop.
Proof. solve_decision. Defined.

Definition wop_key (o : wop) : string := match o with WPut k _ _ => k | WDel k => k end.

(** [db_items d t] is what an iteration over the database yields at time [t],
    [db_write d now ops] the database after a write batch flushed at [now];
    [db_accepts k v] holds of the entries within the database's limits (a key
    that is not empty, sizes): others are refused, and the source drops the
    error. *)
Class Badger (DB : Type) := {
  db_empty : DB;
  db_accepts : string -> bytes -> bool;
  db_items : DB -> Z -> list (string * bytes);
  db_write : DB -> Z -> list wop -> DB
}.

(** The value of a key at time [t]. *)
Definition db_get {DB} `{Badger DB} (d : DB) (t : Z) (k : string) : option bytes :=
  list_to_map (M := gmap string bytes) (db_items d t) !! k.

(** The last operation of a batch on a key. *)
Fixpoint last_op (k : string) (ops : list wop) : option wop :=
  match ops with
  | [] => None
  | o :: ops => match last_op k ops with
                | Some o => Some o
                | None => if decide (wop_key o = k) then Some o else None
                end
  end.

Definition Second : Z := 1000000000.

Definition op_accepted {DB} `{Badger DB} (o : wop) : bool :=
  match o with WPut k v _ => db_accepts k v | WDel k => db_accepts k [] end.

(** What the database holds for a key after its last operation of a batch.  An
    entry with a time to live may be gone from one second before its end
    (times are kept in seconds). *)
Definition holds_after (t : Z) (o : wop) (r : option bytes) : Prop :=
  match o with
  | WDel _ => r = None
  | WPut _ v None => r = Some v
  | WPut _ v (Some (start, ttl)) => r = Some v \/ r = None /\ start + ttl - Second < t
  end.

(** A key appears once in an iteration; the last operation of a batch on a key
    counts, the other keys keep their value. *)
Class BadgerLaws {DB} (B : Badger DB) : Prop := {
  items_nodup d t : NoDup (db_items d t).*1;
  get_empty t k : db_get db_empty t k = None;
  get_kept d now ops t k : now <= t -> last_op k ops = None ->
    db_get (db_write d now ops) t k = db_get d t k;
  get_written d now ops t k o : now <= t -> last_op k ops = Some o -> op_accepted o = true ->
    holds_after t o (db_get (db_write d now ops) t k)
}.

(** ** Registers in the database *)

(** [msgpack.Marshal] and [msgpack.Unmarshal] on [valWithTS]. *)
Class ValCodec (O : Type) := {
  Marshal_val : valWithTS O -> result bytes;
  Unmarshal_val : bytes -> result (valWithTS O)
}.

(** What is decoded is what was encoded, the value in the form it has after a
    round trip through an [any]; [canon_val] is [None] for the values that do not
    decode into an [any] (maps with keys that are not strings), for which decoding
    is an error.  Strings, non-empty byte slices and nil keep their form. *)
Class ValCodecLaws {O} (C : ValCodec O) := {
  canon_val : any O -> option (any O);
  Unmarshal_Marshal_val v b : Marshal_val v = Ok b ->
    match canon_val (v_Value v) with
    | Some x => Unmarshal_val b = Ok (mkVal x (v_Timestamp v) (v_ExpiresAt v) (v_Deleted v))
    | None => exists e, Unmarshal_val b = Err e
    end;
  canon_val_nil : canon_val ANil = Some ANil;
  canon_val_string s : canon_val (AString s) = Some (AString s);
  canon_val_bytes b : b <> [] -> canon_val (ABytes b) = Some (ABytes b)
}.

(** ** Decimal numbers ([%d], [strconv.ParseInt(s, 10, 64)] with the error dropped) *)

Definition digit_of (c : Ascii.ascii) : option Z :=
  let n := Z.of_N (Ascii.N_of_ascii c) in
  if (48 <=? n) && (n <=? 57) then Some (n - 48) else None.

Fixpoint digits (acc : Z) (s : string) : option Z :=
  match s with
  | EmptyString => Some acc
  | String c s => match digit_of c with Some d => digits (10 * acc + d) s | None => None end
  end.

Definition clamp_int64 (z : Z) : Z := Z.max (-9223372036854775808) (Z.min 9223372036854775807 z).

Definition ParseInt (s : string) : Z :=
  let unsigned (r : string) := if decide (r = EmptyString) then None else digits 0 r in
  match s with
  | EmptyString => 0
  | String c r =>
      if decide (c = "-"%char) then default 0 ((fun z => clamp_int64 (- z)) <$> unsigned r)
      else if decide (c = "+"%char) then default 0 (clamp_int64 <$> unsigned r)
      else default 0 (clamp_int64 <$> unsigned s)
  end.

(** ** The clock of a flush *)

(** The clock during a flush: for each key the reading of the source and the
    one of [WithTTL] after it, and the time of the commit. *)
Record flush_clock := mkFlushClock { readings : string -> Z * Z; commit_at : Z }.

Definition steady (now : Z) : flush_clock := mkFlushClock (fun _ => (now, now)) now.

(** Readings in order, and no later than [t]. *)
Definition clock_ok (t : Z) (ck : flush_clock) : Prop :=
  commit_at ck <= t /\ forall k, 0 <= (readings ck k).1 <= (readings ck k).2 /\ (readings ck k).1 <= t.

Lemma steady_ok t now : 0 <= now <= t -> clock_ok t (steady now).
Proof. intros H. split; [|intros k]; simpl; lia. Qed.

Section persist.
Context {O DB : Type} {C : ValCodec O} {B : Badger DB}.
Implicit Types (s : store O) (sh : storeShard O).

(** ** Flush *)

(** What the snapshot holds for a dirty key. *)
Inductive snapshotItem :=
| SVal (v : valWithTS O)
| SCount (c : float64)
| SWin (w : list Z)
| SDeleted.

Definition snapshot sh (k : string) : snapshotItem :=
  match cache sh !! k with
  | Some v => SVal v
  | None =>
      match counts sh !! k with
      | Some c => SCount c
      | None =>
          match windows sh !! k with
          | Some w => SWin w
          | None =>
              match peerSeqs sh !! k with
              | Some seq => SCount (float64_of_Z seq)
              | None => SDeleted
              end
          end
      end
  end.

(** The operations of one item. *)
Definition item_ops (ck : flush_clock) (k : string) (i : snapshotItem) : list wop :=
  let count := match i with SCount c => c | _ => fzero end in
  match i with
  | SDeleted => [WDel k]
  | _ =>
      if has_prefix k "meta:seq:" then [WPut k (be_encode 8 (uint64_of_float count)) None]
      else match i with
           | SVal v =>
               let data := match Marshal_val v with Ok b => b | Err _ => [] end in
               if 0 <? v_ExpiresAt v then
                 let remaining := int64 (v_ExpiresAt v - (readings ck k).1) in
                 if 0 <? remaining then [WPut k data (Some ((readings ck k).2, remaining))] else [WDel k]
               else [WPut k data None]
           | SWin ((_ :: _) as win) => (fun ts => WPut ("sw:" +:+ k +:+ ":" +:+ pretty ts) [] None) <$> win
           | _ => [WPut k (float64ToBytes count) None]
           end
  end.

Definition clear_dirty sh : storeShard O :=
  mkShard (cache sh) (counts sh) (aggregateCounts sh) (windows sh) ∅ (peerSeqs sh).

Definition shard_ops `{RangeOrder} (ck : flush_clock) sh : list wop :=
  (range (gset_to_gmap true (dirty sh))).*1 ≫= (fun k => item_ops ck k (snapshot sh k)).

Definition flush `{RangeOrder} s (db : DB) (ck : flush_clock) : store O * DB :=
  (mkStore (clear_dirty <$> shards s), db_write db (commit_at ck) (shards s ≫= shard_ops ck)).

(** ** Load *)

(** [strings.Split(key, ":")] has at least three parts: the second. *)
Definition middle_part (key : string) : option string :=
  match split_colon key with _ :: k :: _ :: _ => Some k | _ => None end.

Definition load_count s (key pre : string) (val : bytes) : store O :=
  let shard := getShard s key in
  let v := float64FromBytes val in
  let shard := with_counts (<[key := v]>) shard in
  let shard := match middle_part key with
               | Some kStr => with_aggregate (fincr (pre +:+ kStr) v) shard
               | None => shard
               end in
  putShard s key shard.

Definition load_item (now : Z) s (kv : string * bytes) : go (store O) :=
  let '(key, val) := kv in
  if has_prefix key "meta:seq:" then
    if (length val <? 8)%nat then Panic
    else Ret (putShard s key
           (with_peerSeqs (<[str_from 9 key := be_decode (take 8 val)]>) (getShard s key)))
  else if has_prefix key "c:" then Ret (load_count s key EmptyString val)
  else if has_prefix key "mc:" then Ret (load_count s key "m:c:" val)
  else if has_prefix key "ms:" then Ret (load_count s key "m:s:" val)
  else if has_prefix key "sw:" then
    match split_colon key with
    | _ :: kStr :: t :: _ =>
        let shard := getShard s key in
        let win := default [] (windows shard !! kStr) in
        Ret (putShard s key (with_windows (<[kStr := win ++ [ParseInt t]]>) shard))
    | _ => Ret s
    end
  else
    match Unmarshal_val val with
    | Ok vTS =>
        if expired now vTS then Ret s
        else Ret (putShard s key (with_cache (<[key := vTS]>) (getShard s key)))
    | Err _ => Ret s
    end.

Definition load (db : DB) (now : Z) : go (store O) :=
  foldl (fun r kv => let! s := r in load_item now s kv) (Ret empty_store) (db_items db now).

(** [close]: the last flush. *)
Definition store_close `{RangeOrder} s (db : DB) (ck : flush_clock) : DB := (flush s db ck).2.
End persist.
