(* ===== verification/WriteBack.v ===== *)
(** * The write-back invariant (src/store.go: the dirty sets, flush)

    Every operation of the store marks what it changes as dirty, and a flush
    brings the database up to date: for every register and partial count that
    is not dirty the database holds what memory holds. *)

From S2P Require Import Prelude Float64 Hlc Types Msgp Store StoreProofs Counters Windows Node Persist.
From Stdlib Require Import Ascii.

#[local] Open Scope Z_scope.
#[local] Open Scope go_scope.

(** ** A database in memory

    Values with the second at which they end. *)
Module MemDB.
Abbreviation t := (gmap string (bytes * option Z)).

Definition alive (now : Z) (x : bytes * option Z) : option bytes :=
  match x.2 with
  | None => Some x.1
  | Some e => if now / Second <? e / Second then Some x.1 else None
  end.

Definition apply (d : t) (o : wop) : t :=
  match o with
  | WPut k v ttl => <[k := (v, (fun x => x.1 + x.2) <$> ttl)]> d
  | WDel k => delete k d
  end.

#[export] Instance badger : Badger t := {
  db_empty := ∅;
  db_accepts _ _ := true;
  db_items d now := map_to_list (omap (alive now) d);
  db_write d _ ops := foldl apply d ops
}.

Lemma get_spec (d : t) now k : db_get d now k = d !! k ≫= alive now.
Proof. unfold db_get. simpl. by rewrite list_to_map_to_list, lookup_omap. Qed.

Lemma write_lookup (d : t) ops k :
  foldl apply d ops !! k =
    match last_op k ops with
    | None => d !! k
    | Some (WDel _) => None
    | Some (WPut _ v ttl) => Some (v, (fun x => x.1 + x.2) <$> ttl)
    end.
Proof.
  revert d. induction ops as [|o ops IH]; intros d; [done|]. cbn [foldl last_op]. rewrite IH.
  destruct (last_op k ops) as [[]|]; [done|done|].
  destruct o as [k' v ttl|k']; cbn [wop_key apply]; case_decide; subst.
  - by rewrite lookup_insert_eq.
  - by rewrite lookup_insert_ne.
  - by rewrite lookup_delete_eq.
  - by rewrite lookup_delete_ne.
Qed.

Lemma alive_ttl now e v : alive now (v, Some e) = Some v \/ alive now (v, Some e) = None /\ e - Second < now.
Proof.
  unfold alive. simpl. destruct (now / Second <? e / Second) eqn:E; [by left|right]. split; [done|].
  apply Z.ltb_ge in E. apply Z.nle_gt. intros Hle.
  assert ((now + 1 * Second) / Second <= e / Second) by (apply Z.div_le_mono; unfold Second in *; lia).
  rewrite Z.div_add in * by done. lia.
Qed.

#[export] Instance laws : BadgerLaws badger.
Proof.
  split.
  - intros d now. apply NoDup_fst_map_to_list.
  - intros now k. by rewrite get_spec.
  - intros d now ops t k Ht Hl. rewrite !get_spec. cbn [db_write badger]. by rewrite write_lookup, Hl.
  - intros d now ops t k o Ht Hl _. rewrite get_spec. cbn [db_write badger]. rewrite write_lookup, Hl.
    destruct o as [k' v [[start ttl]|]|k']; simpl; [|done|done]. apply alive_ttl.
Qed.
End MemDB.

(** ** The last operation of a batch *)

Lemma last_op_none k ops : (forall o, o ∈ ops -> wop_key o <> k) -> last_op k ops = None.
Proof.
  induction ops as [|o ops IH]; intros H; [done|]. simpl. rewrite IH by set_solver.
  rewrite decide_False; [done|]. apply H. set_solver.
Qed.

Lemma last_op_unique k ops o :
  o ∈ ops -> wop_key o = k -> (forall o', o' ∈ ops -> wop_key o' = k -> o' = o) -> last_op k ops = Some o.
Proof.
  intros Hin Hk Hu. induction ops as [|o' ops IH]; [set_solver|]. simpl.
  destruct (decide (o ∈ ops)) as [Hi|Hi]; [by rewrite IH by set_solver|].
  assert (o = o') as <- by set_solver. rewrite last_op_none, decide_True; [done|done|].
  intros o' Ho' Hk'. apply Hi. rewrite <- (Hu o'); set_solver.
Qed.

Lemma last_op_Some k ops o : last_op k ops = Some o -> o ∈ ops /\ wop_key o = k.
Proof.
  induction ops as [|o' ops IH]; simpl; [done|]. destruct (last_op k ops) as [o''|].
  - intros [= ->]. destruct IH as [? ?]; [done|]. split; [by constructor|done].
  - case_decide; intros [= ->]. split; [constructor|done].
Qed.

(** ** Key names *)

(** The prefixes [load] gives a meaning to. *)
Definition meta (k : string) : bool := has_prefix k "meta:seq:".
Definition reserved (k : string) : bool :=
  meta k || has_prefix k "c:" || has_prefix k "mc:" || has_prefix k "ms:" || has_prefix k "sw:".

Definition plain (k : string) : Prop := reserved k = false.

(** The three kinds of partial counts: counters, and the two sides of a metric.
    [pkey] is the name of a node's partial count, [cagg] of the aggregate. *)
Inductive ckind := KCount | KMetricCount | KMetricSum.

Definition cname (kd : ckind) : string :=
  match kd with KCount => "c" | KMetricCount => "mc" | KMetricSum => "ms" end.
Definition apre (kd : ckind) : string :=
  match kd with KCount => EmptyString | KMetricCount => "m:c:" | KMetricSum => "m:s:" end.
Definition cagg (kd : ckind) (key : string) : string := apre kd +:+ key.
Definition pkey (kd : ckind) (key n : string) : string := cname kd +:+ String ":" (key +:+ String ":" n).

Lemma pkey_names key n :
  countKey key n = pkey KCount key n /\ metricCountKey key n = pkey KMetricCount key n /\
  metricSumKey key n = pkey KMetricSum key n.
Proof. done. Qed.

Lemma shard_of_colons p key n : no_colon p -> no_colon key -> shard_of (p +:+ String ":" (key +:+ String ":" n)) = shard_of key.
Proof.
  intros Hp H. unfold shard_of. do 3 f_equal. unfold getShardKey. rewrite colon_index_app by done.
  rewrite str_from_colon, colon_index_app, str_upto_app, colon_index_none by done. done.
Qed.

Lemma cname_no_colon kd : no_colon (cname kd).
Proof. by destruct kd. Qed.

Lemma shard_of_pkey kd key n : no_colon key -> shard_of (pkey kd key n) = shard_of key.
Proof. intros H. apply shard_of_colons; [apply cname_no_colon|done]. Qed.

Lemma cname_prefix kd r : has_prefix (cname kd +:+ String ":" r) (cname kd +:+ ":") = true.
Proof.
  change (String ":" r) with (":" +:+ r). rewrite <- str_app_assoc. apply has_prefix_app.
Qed.

Lemma reserved_prefix kd k : has_prefix k (cname kd +:+ ":") = true -> reserved k = true.
Proof.
  unfold reserved. rewrite !orb_true_iff. destruct kd; intros H.
  - do 3 left. right. exact H.
  - do 2 left. right. exact H.
  - left. right. exact H.
Qed.

Lemma pkey_reserved kd key n : reserved (pkey kd key n) = true.
Proof. apply (reserved_prefix kd), cname_prefix. Qed.

Lemma pkey_not_meta kd key n : meta (pkey kd key n) = false.
Proof. by destruct kd. Qed.

Lemma pkey_not_sw kd key n : has_prefix (pkey kd key n) "sw:" = false.
Proof. by destruct kd. Qed.

(** A name determines its parts, when the key has no colon. *)
Lemma pkey_inj kd kd' key key' n n' :
  no_colon key -> no_colon key' -> pkey kd key n = pkey kd' key' n' -> kd = kd' /\ key = key' /\ n = n'.
Proof.
  intros H H' E. pose proof (f_equal split_colon E) as E'. unfold pkey in E'.
  rewrite !split_colon_cut in E' by (done || apply cname_no_colon). injection E' as Ec -> _.
  assert (kd = kd') as -> by (by destruct kd, kd'). split_and!; [done|done|].
  apply (inj (String.append (cname kd'))) in E. injection E as E.
  apply (inj (String.append key')) in E. by injection E.
Qed.

Lemma cagg_inj kd kd' key key' :
  no_colon key -> no_colon key' -> cagg kd key = cagg kd' key' -> kd = kd' /\ key = key'.
Proof.
  intros H H' E. destruct kd, kd'; cbv [cagg apre String.append] in E; try discriminate E;
    first [by subst | by injection E as -> | exfalso; subst; unfold no_colon in H, H'; naive_solver].
Qed.

Lemma plain_not_meta k : plain k -> meta k = false.
Proof. unfold plain, reserved. by destruct (meta k). Qed.

Lemma plain_not_sw k : plain k -> has_prefix k "sw:" = false.
Proof. unfold plain, reserved. rewrite !orb_false_iff. tauto. Qed.

(** ** The invariant *)

Section writeback.
Context {O DB : Type} {C : ValCodec O} {B : Badger DB} {BL : BadgerLaws B}.
(** The time of the next load, and the names used for windows and nodes: they
    are kept apart from the names of registers. *)
Variable t : Z.
Variable side : string -> Prop.
Hypothesis t_range : t < 9223372036854775808.
Implicit Types (s : store O) (sh : storeShard O) (db : DB).

(** The keys of registers and partial counts, of windows, and of the positions
    of nodes; the database accepts them. *)
Definition regkey (k : string) : Prop := plain k /\ ~ side k /\ db_accepts k [] = true.
Definition count_ok (kd : ckind) (key n : string) : Prop :=
  no_colon key /\ forall v, (length v <= 8)%nat -> db_accepts (pkey kd key n) v = true.
Definition is_count (k : string) : Prop := exists kd key n, count_ok kd key n /\ k = pkey kd key n.
Definition known (k : string) : Prop := regkey k \/ is_count k.
Definition sidekey (k : string) : Prop := plain k /\ side k.
Definition metakey (k : string) : Prop := meta k = true /\ db_accepts k [] = true.

(** Keys that are never written: positions of nodes, partial counts the
    database would refuse. *)
Definition never_written (k : string) : Prop :=
  meta k = true \/ (exists kd key n, no_colon key /\ k = pkey kd key n) /\ ~ is_count k.

Lemma known_accepted k : known k -> db_accepts k [] = true.
Proof. intros [(_ & _ & H)|(kd & key & n & [_ H] & ->)]; [done|]. apply H. simpl. lia. Qed.

Lemma known_not_meta k : known k -> meta k = false.
Proof. intros [[H _]|(kd & key & n & _ & ->)]; [by apply plain_not_meta|apply pkey_not_meta]. Qed.

Lemma known_not_sw k : known k -> has_prefix k "sw:" = false.
Proof. intros [[H _]|(kd & key & n & _ & ->)]; [by apply plain_not_sw|apply pkey_not_sw]. Qed.

Lemma known_not_side k : known k -> ~ sidekey k.
Proof.
  intros [(_ & H & _)|(kd & key & n & _ & ->)] [Hp Hs]; [done|].
  unfold plain in Hp. by rewrite pkey_reserved in Hp.
Qed.

Lemma regkey_not_count k : regkey k -> ~ is_count k.
Proof. intros [H _] (kd & key & n & _ & ->). unfold plain in H. by rewrite pkey_reserved in H. Qed.

Definition data_of (v : valWithTS O) : bytes := match Marshal_val v with Ok b => b | Err _ => [] end.

(** A register whose entry is still in the database at time [t]: it does not
    expire, or expires a second later or more. *)
Definition survives (v : valWithTS O) : Prop := v_ExpiresAt v <= 0 \/ t <= v_ExpiresAt v - Second.

(** What memory holds for a known key. *)
Definition item sh (k : string) : snapshotItem (O := O) :=
  match cache sh !! k with
  | Some v => SVal v
  | None => match counts sh !! k with Some c => SCount c | None => SDeleted end
  end.

(** The database holds what memory holds. *)
Definition agrees db (k : string) (i : snapshotItem (O := O)) : Prop :=
  match i with
  | SDeleted => db_get db t k = None
  | SVal v => db_get db t k = Some (data_of v) \/ db_get db t k = None /\ ~ survives v
  | SCount c => db_get db t k = Some (float64ToBytes c)
  | SWin _ => True
  end.

Definition val_ok (i : nat) (k : string) (v : valWithTS O) : Prop :=
  shard_of k = i /\ regkey k /\ is_int64 (v_ExpiresAt v) /\
  exists b, Marshal_val v = Ok b /\ db_accepts k b = true.

(** The contents of shard [i]. *)
Record shard_ok (i : nat) sh : Prop := {
  so_dirty k : k ∈ dirty sh -> shard_of k = i /\ (known k \/ sidekey k \/ metakey k);
  so_cache k v : cache sh !! k = Some v -> val_ok i k v;
  so_counts k : is_Some (counts sh !! k) -> is_count k;
  so_windows k : is_Some (windows sh !! k) -> sidekey k;
  so_seqs k : is_Some (peerSeqs sh !! k) -> sidekey k
}.

Record wb_inv s db : Prop := {
  wb_wf : store_wf s;
  wb_shard i sh : shards s !! i = Some sh -> shard_ok i sh;
  wb_clean k : known k -> k ∉ dirty (getShard s k) -> agrees db k (item (getShard s k) k);
  wb_never k : never_written k -> db_get db t k = None
}.

Lemma wb_getShard s db k : wb_inv s db -> shard_ok (shard_of k) (getShard s k).
Proof. intros HI. eapply (wb_shard _ _ HI), getShard_lookup, (wb_wf _ _ HI). Qed.

Lemma wb_init : wb_inv empty_store db_empty.
Proof.
  split.
  - apply empty_store_wf.
  - intros i sh Hi. apply list_elem_of_lookup_2, elem_of_replicate in Hi as [-> _].
    split; simpl; [set_solver|intros ? ?; by rewrite lookup_empty|..]; intros k [? H]; by rewrite lookup_empty in H.
  - intros k _ _. rewrite getShard_empty. apply get_empty.
  - intros k _. apply get_empty.
Qed.

(** How an operation changes a shard: it stays well formed, dirty keys stay
    dirty, and the known keys it changes are dirty afterwards. *)
Record evolves (i : nat) sh sh' : Prop := {
  ev_ok : shard_ok i sh -> shard_ok i sh';
  ev_clean k : known k -> k ∉ dirty sh' -> k ∉ dirty sh /\ item sh' k = item sh k
}.

Lemma evolves_refl i sh : evolves i sh sh.
Proof. split; auto. Qed.

Lemma evolves_trans i sh1 sh2 sh3 : evolves i sh1 sh2 -> evolves i sh2 sh3 -> evolves i sh1 sh3.
Proof.
  intros [A1 A2] [B1 B2]. split; [auto|]. intros k Hk Hd. destruct (B2 k Hk Hd) as [Hd' ->]. auto.
Qed.

Lemma wb_evolve s s' db :
  wb_inv s db -> store_wf s' ->
  (forall i sh', shards s' !! i = Some sh' -> exists sh, shards s !! i = Some sh /\ (shard_ok i sh -> evolves i sh sh')) ->
  wb_inv s' db.
Proof.
  intros HI Hwf Hev. destruct HI as [H1 H2 H3 H4]. split; [done|..|done].
  - intros i sh' Hi. destruct (Hev i sh' Hi) as (sh & Hs & E). apply (ev_ok i sh); eauto.
  - intros k Hk Hd. destruct (Hev _ _ (getShard_lookup s' k Hwf)) as (sh & Hs & E).
    rewrite (getShard_lookup s k H1) in Hs. injection Hs as <-.
    destruct (ev_clean _ _ _ (E (H2 _ _ (getShard_lookup s k H1))) k Hk Hd) as [Hd' ->]. auto.
Qed.

Lemma wb_put s db key sh' :
  wb_inv s db -> evolves (shard_of key) (getShard s key) sh' -> wb_inv (putShard s key sh') db.
Proof.
  intros HI E. pose proof (wb_wf _ _ HI) as Hwf. apply (wb_evolve s); [done|auto with go|].
  intros i sh Hi. apply list_lookup_insert_Some in Hi as [(<- & <- & _)|[_ Hi]].
  - exists (getShard s key). split; [by apply getShard_lookup|done].
  - exists sh. split; [done|]. intros _. apply evolves_refl.
Qed.

Lemma wb_map s db (f : storeShard O -> storeShard O) :
  wb_inv s db -> (forall i sh, shard_ok i sh -> evolves i sh (f sh)) -> wb_inv (mkStore (f <$> shards s)) db.
Proof.
  intros HI E. pose proof (wb_wf _ _ HI) as Hwf. apply (wb_evolve s); [done| |].
  { unfold store_wf in *. simpl. by rewrite length_fmap. }
  intros i sh' Hi. simpl in Hi. rewrite list_lookup_fmap in Hi. apply fmap_Some in Hi as (sh & Hs & ->).
  exists sh. auto.
Qed.

(** ** Operations *)

Lemma ev_mark i sh k :
  shard_of k = i -> (known k \/ sidekey k \/ metakey k) -> evolves i sh (mark_dirty k sh).
Proof.
  intros Hs Hk. split.
  - intros [H1 H2 H3 H4 H5]. split; simpl; auto. intros k'. rewrite elem_of_union, elem_of_singleton.
    intros [->|?]; auto.
  - intros k' _. simpl. intros Hn. split; [set_solver|done].
Qed.

(** A change of one known key, marked. *)
Lemma ev_known i sh sh' k :
  shard_of k = i -> known k -> dirty sh' = dirty sh ->
  (shard_ok i sh -> shard_ok i sh') -> (forall k', k' <> k -> item sh' k' = item sh k') ->
  evolves i sh (mark_dirty k sh').
Proof.
  intros Hs Hk Hd Hok Hi. split.
  - intros H%Hok. by apply (ev_mark i sh' k); auto.
  - intros k' _. simpl. rewrite Hd. intros Hn. split; [set_solver|]. apply (Hi k'). set_solver.
Qed.

Lemma ev_cache i sh k f :
  shard_of k = i -> regkey k -> (forall k', k' <> k -> f (cache sh) !! k' = cache sh !! k') ->
  (forall v, f (cache sh) !! k = Some v -> val_ok i k v) ->
  evolves i sh (mark_dirty k (with_cache f sh)).
Proof.
  intros Hs Hk Hf Hv. apply ev_known; [done|by left|done|..].
  - intros [H1 H2 H3 H4 H5]. split; auto. simpl. intros k' v E. destruct (decide (k' = k)) as [->|Hne]; [auto|].
    rewrite Hf in E by done. auto.
  - intros k' Hne. unfold item. simpl. by rewrite Hf.
Qed.

Lemma ev_count i sh k c f :
  shard_of k = i -> is_count k -> evolves i sh (mark_dirty k (with_aggregate f (with_counts (<[k := c]>) sh))).
Proof.
  intros Hs Hk. apply ev_known; [done|by right|done|..].
  - intros [H1 H2 H3 H4 H5]. split; auto. simpl. intros k'. rewrite lookup_insert_is_Some. intros [<-|[_ ?]]; auto.
  - intros k' Hne. unfold item. simpl. by rewrite lookup_insert_ne.
Qed.

Lemma ev_windows i sh f :
  (forall k, is_Some (f (windows sh) !! k) -> is_Some (windows sh !! k) \/ sidekey k) ->
  evolves i sh (with_windows f sh).
Proof.
  intros Hf. split.
  - intros [H1 H2 H3 H4 H5]. split; auto. simpl. intros k Hk. destruct (Hf k Hk); auto.
  - done.
Qed.

Lemma ev_peerSeqs i sh n v : sidekey n -> evolves i sh (with_peerSeqs (<[n := v]>) sh).
Proof.
  intros Hn. split; [|done]. intros [H1 H2 H3 H4 H5]. split; auto. simpl. intros k.
  rewrite lookup_insert_is_Some. intros [<-|[_ ?]]; auto.
Qed.

(** The write of a register whose key and encoding the database accepts. *)
Definition write_ok (w : write O) : Prop :=
  regkey (w_key w) /\ exists b, Marshal_val (w_val w) = Ok b /\ db_accepts (w_key w) b = true.

Lemma wb_write s db w : wb_inv s db -> write_ok w -> wb_inv (do_write s w) db.
Proof.
  intros HI [Hp Hm]. rewrite do_write_unfold. destruct (is_stale _ _ _); [done|]. apply wb_put; [done|].
  apply ev_cache; [done|done|..].
  - intros k' Hne. by rewrite lookup_insert_ne.
  - intros v. rewrite lookup_insert_eq. intros [= <-]. split_and!; [done|done| |done].
    destruct w; simpl; [case_ifs; [auto with go|done]|auto with go].
Qed.

Lemma count_ok_is kd key n : count_ok kd key n -> is_count (pkey kd key n).
Proof. by exists kd, key, n. Qed.

Lemma ev_pkey kd key n sh c f :
  count_ok kd key n ->
  evolves (shard_of key) sh (mark_dirty (pkey kd key n) (with_aggregate f (with_counts (<[pkey kd key n := c]>) sh))).
Proof. intros H. apply ev_count; [apply shard_of_pkey, H|by apply count_ok_is]. Qed.

Lemma wb_increment s db key n d :
  wb_inv s db -> count_ok KCount key n -> wb_inv (increment s key n d).2 db.
Proof. intros HI Hk. apply wb_put; [done|]. by apply (ev_pkey KCount). Qed.

Lemma wb_setNodeCount s db key n v :
  wb_inv s db -> count_ok KCount key n -> wb_inv (setNodeCount s key n v) db.
Proof. intros HI Hk. unfold setNodeCount. case_ifs; [|done]. apply wb_put; [done|]. by apply (ev_pkey KCount). Qed.

Lemma wb_incrementMetric s db key n d :
  wb_inv s db -> count_ok KMetricCount key n -> count_ok KMetricSum key n ->
  wb_inv (incrementMetric s key n d).2 db.
Proof.
  intros HI H1 H2. apply wb_put; [done|]. eapply evolves_trans; [by apply (ev_pkey KMetricCount)|].
  by apply (ev_pkey KMetricSum).
Qed.

Lemma wb_window s db key f :
  wb_inv s db -> sidekey key ->
  (forall m k, is_Some ((f m : gmap string (list Z)) !! k) -> is_Some (m !! k) \/ k = key) ->
  wb_inv (putShard s key (mark_dirty key (with_windows f (getShard s key)))) db.
Proof.
  intros HI Hk Hf. apply wb_put; [done|]. eapply evolves_trans; [apply (ev_windows _ _ f)|apply ev_mark; auto].
  intros k H%Hf. destruct H as [?| ->]; auto.
Qed.

Lemma wb_incrementSlidingWindow s db key ts window now :
  wb_inv s db -> sidekey key -> wb_inv (incrementSlidingWindow s key ts window now).2 db.
Proof.
  intros HI Hk. unfold incrementSlidingWindow. destruct (count_window _ _) as [c i].
  set (w := if (0 <? i)%nat then _ else _).
  apply (wb_window s db key (fun m => if decide (w = []) then delete key m else <[key := w]> m)); [done|done|].
  intros m k. case_decide; [rewrite lookup_delete_is_Some|rewrite lookup_insert_is_Some]; naive_solver.
Qed.

Lemma wb_addWindowTimestamp s db key ts :
  wb_inv s db -> sidekey key -> wb_inv (addWindowTimestamp s key ts) db.
Proof.
  intros HI Hk. unfold addWindowTimestamp. destruct (window_index _ _) as [i|]; [|done].
  apply wb_window; [done|done|]. intros m k. rewrite lookup_insert_is_Some. naive_solver.
Qed.

Lemma wb_updatePeerSeq s db n q :
  wb_inv s db -> sidekey n -> metakey (seqKey n) -> wb_inv (updatePeerSeq s n q) db.
Proof.
  intros HI Hn Hm. unfold updatePeerSeq. case_ifs; [|done]. apply wb_put; [done|].
  eapply evolves_trans; [by apply ev_peerSeqs|]. apply ev_mark; auto.
Qed.

Lemma foldl_evolves {A} (f : storeShard O -> A -> storeShard O) (P : A -> Prop) i l sh :
  (forall x, x ∈ l -> P x) -> (forall sh x, P x -> evolves i sh (f sh x)) -> evolves i sh (foldl f sh l).
Proof.
  intros HP Hf. revert sh. induction l as [|x l IH]; intros sh; simpl; [apply evolves_refl|].
  eapply evolves_trans; [apply Hf, HP; constructor|]. apply IH. intros y Hy. apply HP. by constructor.
Qed.

Lemma wb_pruneExpiredKeys `{RangeOrder} s db now : wb_inv s db -> wb_inv (pruneExpiredKeys s now) db.
Proof.
  intros HI. apply wb_map; [done|]. intros i sh Hok.
  apply (foldl_evolves _ (fun kv => shard_of kv.1 = i /\ regkey kv.1)).
  - intros [k v]. rewrite range_perm, elem_of_map_to_list. intros Hk.
    by destruct (so_cache _ _ Hok k v Hk) as (? & ? & _).
  - intros sh' kv [H1 H2]. unfold prune_one. case_ifs; [|apply evolves_refl]. apply ev_cache; [done|done|..].
    + intros k' Hne. by rewrite lookup_delete_ne.
    + intros v. by rewrite lookup_delete_eq.
Qed.

Lemma wb_pruneStaleWindows `{RangeOrder} s db now : wb_inv s db -> wb_inv (pruneStaleWindows s now) db.
Proof.
  intros HI. apply wb_map; [done|]. intros i sh _. apply (foldl_evolves _ (fun _ => True)); [done|].
  assert (Hd : forall sh k, evolves i sh (with_windows (delete k) sh)).
  { intros sh' k. apply ev_windows. intros k'. rewrite lookup_delete_is_Some. naive_solver. }
  intros sh' kw _. unfold prune_window. destruct (last kw.2); [case_ifs; [|apply evolves_refl]|]; apply Hd.
Qed.

(** ** Flush *)

(** The one operation of a known key. *)
Definition item_op (ck : flush_clock) (k : string) (i : snapshotItem (O := O)) : wop :=
  match i with
  | SVal v =>
      if 0 <? v_ExpiresAt v then
        let remaining := int64 (v_ExpiresAt v - (readings ck k).1) in
        if 0 <? remaining then WPut k (data_of v) (Some ((readings ck k).2, remaining)) else WDel k
      else WPut k (data_of v) None
  | SCount c => WPut k (float64ToBytes c) None
  | _ => WDel k
  end.

Lemma item_op_key ck k i : wop_key (item_op ck k i) = k.
Proof. destruct i; simpl; case_ifs; done. Qed.

Lemma item_ops_known i sh ck k :
  shard_ok i sh -> known k -> item_ops ck k (snapshot sh k) = [item_op ck k (item sh k)].
Proof.
  intros Hok Hk. assert (snapshot sh k = item sh k) as ->.
  { pose proof (known_not_side k Hk) as Hs. unfold snapshot, item.
    destruct (windows sh !! k) eqn:Ew; [by destruct Hs; eapply so_windows|].
    destruct (peerSeqs sh !! k) eqn:Ep; [by destruct Hs; eapply so_seqs|]. done. }
  unfold item_ops. change (has_prefix k "meta:seq:") with (meta k). rewrite (known_not_meta k Hk).
  unfold item. destruct (cache sh !! k) as [v|]; [simpl; unfold data_of; by case_ifs|].
  by destruct (counts sh !! k).
Qed.

(** A node's position is never found under its key: it is deleted. *)
Lemma item_ops_meta i sh ck k :
  shard_ok i sh -> meta k = true -> item_ops ck k (snapshot sh k) = [WDel k].
Proof.
  intros Hok Hm. unfold snapshot.
  assert (Hp : sidekey k -> False) by (intros [H%plain_not_meta _]; congruence).
  destruct (cache sh !! k) eqn:E1.
  { destruct (so_cache _ _ Hok k _ E1) as (_ & [H%plain_not_meta _] & _). congruence. }
  destruct (counts sh !! k) eqn:E2.
  { destruct (so_counts _ _ Hok k) as (kd & key & n & _ & ->); [by rewrite E2|]. by rewrite pkey_not_meta in Hm. }
  destruct (windows sh !! k) eqn:E3; [by destruct Hp; eapply so_windows|].
  destruct (peerSeqs sh !! k) eqn:E4; [by destruct Hp; eapply so_seqs|]. done.
Qed.

(** In general an item writes its own key or keys of window events. *)
Lemma item_ops_keys ck k (i : snapshotItem (O := O)) o :
  o ∈ item_ops ck k i -> wop_key o = k \/ has_prefix (wop_key o) "sw:" = true.
Proof.
  assert (H1 : forall o', wop_key o' = k -> o ∈ [o'] -> wop_key o = k \/ has_prefix (wop_key o) "sw:" = true).
  { intros o' Ho' ->%list_elem_of_singleton. by left. }
  unfold item_ops. destruct i as [v|c|w|]; [case_ifs; by apply H1|case_ifs; by apply H1| |by apply H1].
  destruct (has_prefix k "meta:seq:"); [by apply H1|]. destruct w as [|ts w]; [by apply H1|].
  intros (ts' & -> & _)%list_elem_of_fmap. right. apply (has_prefix_app "sw:").
Qed.

Lemma elem_of_dirty_keys `{RangeOrder} sh k : k ∈ (range (gset_to_gmap true (dirty sh))).*1 <-> k ∈ dirty sh.
Proof.
  rewrite list_elem_of_fmap. split.
  - intros ([k' b] & -> & Hin). rewrite range_perm, elem_of_map_to_list in Hin.
    by apply lookup_gset_to_gmap_Some in Hin as [? _].
  - intros Hk. exists (k, true). split; [done|]. rewrite range_perm, elem_of_map_to_list.
    by apply lookup_gset_to_gmap_Some.
Qed.

(** The operations of a flush come from the dirty keys of each shard. *)
Lemma elem_of_flush_ops `{RangeOrder} s db ck o :
  wb_inv s db ->
  o ∈ (shards s ≫= shard_ops ck) <->
  exists k, k ∈ dirty (getShard s k) /\ o ∈ item_ops ck k (snapshot (getShard s k) k).
Proof.
  intros HI. pose proof (wb_wf _ _ HI) as Hwf. rewrite list_elem_of_bind. split.
  - intros (sh & Ho & [i Hi]%list_elem_of_lookup). unfold shard_ops in Ho.
    apply list_elem_of_bind in Ho as (k & Ho & Hk). apply elem_of_dirty_keys in Hk. exists k.
    destruct (so_dirty _ _ (wb_shard _ _ HI i sh Hi) k Hk) as [Hs _].
    assert (getShard s k = sh) as -> by (pose proof (getShard_lookup s k Hwf) as E; rewrite Hs, Hi in E; congruence).
    done.
  - intros (k & Hk & Ho). exists (getShard s k). pose proof (getShard_lookup s k Hwf) as Hl.
    split; [|by eapply list_elem_of_lookup_2]. unfold shard_ops. apply list_elem_of_bind. exists k.
    split; [done|by apply elem_of_dirty_keys].
Qed.

(** The operations of a flush on a known key, and on one that is never written. *)
Lemma flush_op_known `{RangeOrder} s db ck k o :
  wb_inv s db -> known k -> o ∈ (shards s ≫= shard_ops ck) -> wop_key o = k ->
  k ∈ dirty (getShard s k) /\ o = item_op ck k (item (getShard s k) k).
Proof.
  intros HI Hk (k' & Hd & Ho)%(elem_of_flush_ops _ db) Hkey; [|done].
  pose proof (wb_getShard s db k' HI) as Hok.
  destruct (item_ops_keys _ _ _ _ Ho) as [E|E]; rewrite Hkey in E; [|by rewrite known_not_sw in E].
  subst k'. split; [done|]. rewrite (item_ops_known _ _ _ _ Hok Hk) in Ho. by apply list_elem_of_singleton in Ho.
Qed.

Lemma flush_op_never `{RangeOrder} s db ck k o :
  wb_inv s db -> never_written k -> o ∈ (shards s ≫= shard_ops ck) -> wop_key o = k ->
  o = WDel k /\ db_accepts k [] = true.
Proof.
  intros HI Hk (k' & Hd & Ho)%(elem_of_flush_ops _ db) Hkey; [|done].
  pose proof (wb_getShard s db k' HI) as Hok.
  assert (k' = k) as ->.
  { destruct (item_ops_keys _ _ _ _ Ho) as [E|E]; rewrite Hkey in E; [done|].
    destruct Hk as [[r ->]%has_prefix_inv|[(kd & key & n & _ & ->) _]]; [done|by rewrite pkey_not_sw in E]. }
  destruct (so_dirty _ _ Hok k Hd) as [_ Hdk].
  destruct Hk as [Hm|[(kd & key & n & _ & ->) Hc]].
  - rewrite (item_ops_meta _ _ _ _ Hok Hm) in Ho. apply list_elem_of_singleton in Ho. split; [done|].
    destruct Hdk as [H1|[[H1%plain_not_meta _]|[_ H1]]]; [by apply known_accepted|congruence|done].
  - exfalso. assert (Hp : ~ plain (pkey kd key n)) by (unfold plain; by rewrite pkey_reserved).
    destruct Hdk as [[[? _]|?]|[[? _]|[H1 _]]]; [done..|]. by rewrite pkey_not_meta in H1.
Qed.

(** What is written for an item agrees with it afterwards. *)
Lemma agrees_written db ck ops k i sh :
  shard_ok i sh -> known k -> clock_ok t ck -> last_op k ops = Some (item_op ck k (item sh k)) ->
  agrees (db_write db (commit_at ck) ops) k (item sh k).
Proof.
  intros Hok Hk [Hc Hn] Hl. pose proof (known_accepted k Hk) as Ha. specialize (Hn k).
  pose proof (get_written db (commit_at ck) ops t k _ Hc Hl) as Hg. revert Hg. unfold item.
  destruct (cache sh !! k) as [v|] eqn:Ev.
  - destruct (so_cache _ _ Hok k v Ev) as (_ & _ & Hi & b & Hm & Hab). unfold is_int64 in Hi.
    assert (Hb : db_accepts k (data_of v) = true) by (unfold data_of; by rewrite Hm).
    simpl. unfold survives. destruct (0 <? v_ExpiresAt v) eqn:E; [|intros Hg; left; by apply Hg].
    rewrite int64_id by (unfold is_int64; lia).
    destruct (0 <? v_ExpiresAt v - (readings ck k).1) eqn:E'; intros Hg; specialize (Hg ltac:(done)); simpl in Hg.
    + destruct Hg as [?|[? ?]]; [by left|right]. split; [done|]. lia.
    + right. split; [done|]. unfold Second. lia.
  - destruct (counts sh !! k) as [c|] eqn:Ec; simpl; intros Hg; apply Hg; [|done].
    destruct (so_counts _ _ Hok k) as (kd & key & n & [_ H] & ->); [by rewrite Ec|].
    apply H. unfold float64ToBytes. by rewrite length_be_encode.
Qed.

Lemma agrees_kept db now ops k i :
  now <= t -> last_op k ops = None -> agrees db k i -> agrees (db_write db now ops) k i.
Proof.
  intros Hn Hl. pose proof (get_kept db now ops t k Hn Hl) as Hg. unfold agrees. by destruct i; rewrite ?Hg.
Qed.

Lemma getShard_flush `{RangeOrder} s db ck k :
  store_wf s -> getShard (flush s db ck).1 k = clear_dirty (getShard s k).
Proof.
  intros Hwf. unfold getShard at 1, flush. simpl. by rewrite list_lookup_fmap, (getShard_lookup s k Hwf).
Qed.

(** Flushing keeps the invariant and leaves nothing dirty. *)
Lemma wb_flush `{RangeOrder} s db ck :
  wb_inv s db -> clock_ok t ck -> wb_inv (flush s db ck).1 (flush s db ck).2.
Proof.
  intros HI Hn. pose proof (wb_wf _ _ HI) as Hwf. pose proof (proj1 Hn) as Hc.
  set (ops := shards s ≫= shard_ops ck). split.
  - unfold store_wf, flush. simpl. by rewrite length_fmap.
  - intros i sh' Hi. unfold flush in Hi. simpl in Hi. rewrite list_lookup_fmap in Hi.
    apply fmap_Some in Hi as (sh & Hs & ->). destruct (wb_shard _ _ HI i sh Hs). split; [simpl; set_solver|..]; done.
  - intros k Hk _. rewrite getShard_flush by done.
    change (item (clear_dirty (getShard s k)) k) with (item (getShard s k) k).
    pose proof (wb_getShard s db k HI) as Hok.
    destruct (decide (k ∈ dirty (getShard s k))) as [Hd|Hd].
    + apply (agrees_written _ _ _ _ _ _ Hok Hk Hn). apply last_op_unique; [|apply item_op_key|].
      * apply (elem_of_flush_ops _ db); [done|]. exists k. split; [done|].
        rewrite (item_ops_known _ _ _ _ Hok Hk). by apply list_elem_of_singleton.
      * intros o Ho Hkey. by apply (flush_op_known s db ck k o).
    + apply agrees_kept; [done| |by apply (wb_clean _ _ HI)]. apply last_op_none. intros o Ho Hkey. apply Hd.
      by apply (flush_op_known s db ck k o).
  - intros k Hm. change (db_get (db_write db (commit_at ck) ops) t k = None).
    destruct (last_op k ops) as [o|] eqn:E.
    + apply last_op_Some in E as H'. destruct H' as [Ho Hkey].
      destruct (flush_op_never s db ck k o HI Hm Ho Hkey) as [-> Ha].
      exact (get_written db _ ops t k _ Hc E Ha).
    + rewrite (get_kept db _ ops t k Hc E). by apply (wb_never _ _ HI).
Qed.

(** ** Runs *)

(** The operations that change a store, with the flushes in between. *)
Inductive pop :=
| PWrite (w : write O)
| PIncr (key n : string) (d : float64)
| PMerge (key n : string) (v : float64)
| PMetric (key n : string) (d : float64)
| PWindow (key : string) (ts window now : Z)
| PAddTimestamp (key : string) (ts : Z)
| PPeerSeq (n : string) (q : Z)
| PPruneKeys (now : Z)
| PPruneWindows (now : Z)
| PFlush (ck : flush_clock).

Definition pop_ok (o : pop) : Prop :=
  match o with
  | PWrite w => write_ok w
  | PIncr key n _ | PMerge key n _ => count_ok KCount key n
  | PMetric key n _ => count_ok KMetricCount key n /\ count_ok KMetricSum key n
  | PWindow key _ _ _ | PAddTimestamp key _ => sidekey key
  | PPeerSeq n _ => sidekey n /\ metakey (seqKey n)
  | PPruneKeys _ | PPruneWindows _ => True
  | PFlush ck => clock_ok t ck
  end.

Definition pop_step `{RangeOrder} (sd : store O * DB) (o : pop) : store O * DB :=
  let '(s, db) := sd in
  match o with
  | PWrite w => (do_write s w, db)
  | PIncr key n d => ((increment s key n d).2, db)
  | PMerge key n v => (setNodeCount s key n v, db)
  | PMetric key n d => ((incrementMetric s key n d).2, db)
  | PWindow key ts window now => ((incrementSlidingWindow s key ts window now).2, db)
  | PAddTimestamp key ts => (addWindowTimestamp s key ts, db)
  | PPeerSeq n q => (updatePeerSeq s n q, db)
  | PPruneKeys now => (pruneExpiredKeys s now, db)
  | PPruneWindows now => (pruneStaleWindows s now, db)
  | PFlush ck => flush s db ck
  end.

Lemma wb_step `{RangeOrder} s db o : wb_inv s db -> pop_ok o -> wb_inv (pop_step (s, db) o).1 (pop_step (s, db) o).2.
Proof.
  intros HI Ho. destruct o; simpl in *.
  - by apply wb_write.
  - by apply wb_increment.
  - by apply wb_setNodeCount.
  - destruct Ho. by apply wb_incrementMetric.
  - by apply wb_incrementSlidingWindow.
  - by apply wb_addWindowTimestamp.
  - destruct Ho. by apply wb_updatePeerSeq.
  - by apply wb_pruneExpiredKeys.
  - by apply wb_pruneStaleWindows.
  - by apply wb_flush.
Qed.

Lemma wb_run `{RangeOrder} s db os :
  wb_inv s db -> Forall pop_ok os ->
  wb_inv (foldl pop_step (s, db) os).1 (foldl pop_step (s, db) os).2.
Proof.
  intros HI Hos. revert s db HI. induction Hos as [|o os Ho _ IH]; intros s db HI; [done|]. cbn [foldl].
  pose proof (wb_step s db o HI Ho) as HI'. destruct (pop_step (s, db) o) as [s' db']. by apply IH.
Qed.
End writeback.
