(* ===== verification/Restart.v ===== *)
(** * Loading a store (src/store.go: load) and restart

    [load] rebuilds registers, partial counts and aggregates from whatever the
    database holds ([loaded]); with the write-back invariant this gives what a
    node finds again after a restart. *)

From S2P Require Import Prelude Float64 Hlc Types Msgp Store StoreProofs Counters Windows Node Persist WriteBack.
From Stdlib Require Import Ascii.

#[local] Open Scope Z_scope.
#[local] Open Scope go_scope.

(** ** What a key means to [load] *)

Lemma classify k :
  meta k = false ->
  (exists kd key n, no_colon key /\ k = pkey kd key n) \/
  (exists kd r, no_colon r /\ k = cname kd +:+ String ":" r) \/
  has_prefix k "sw:" = true \/ plain k.
Proof.
  intros Hm. assert (Hc : forall kd, has_prefix k (cname kd +:+ ":") = true ->
    (exists kd key n, no_colon key /\ k = pkey kd key n) \/
    (exists kd r, no_colon r /\ k = cname kd +:+ String ":" r)).
  { intros kd [r ->]%has_prefix_inv. rewrite str_app_assoc.
    destruct (colon_cases r) as [H|(a & b & H & ->)]; [right|left]; [by exists kd, r|by exists kd, a, b]. }
  destruct (has_prefix k "c:") eqn:E1; [by destruct (Hc KCount E1); auto|].
  destruct (has_prefix k "mc:") eqn:E2; [by destruct (Hc KMetricCount E2); auto|].
  destruct (has_prefix k "ms:") eqn:E3; [by destruct (Hc KMetricSum E3); auto|].
  destruct (has_prefix k "sw:") eqn:E4; [by auto|]. do 3 right. unfold plain, reserved. by rewrite Hm, E1, E2, E3, E4.
Qed.

Lemma split_colon_head s : exists x l, split_colon s = x :: l.
Proof.
  destruct (colon_cases s) as [H|(a & b & H & ->)].
  - exists s, []. by apply split_colon_whole.
  - exists a, (split_colon b). by apply split_colon_cut.
Qed.

Lemma middle_part_pkey kd key n : no_colon key -> middle_part (pkey kd key n) = Some key.
Proof.
  intros H. unfold middle_part, pkey. rewrite split_colon_cut, split_colon_cut by (done || apply cname_no_colon).
  by destruct (split_colon_head n) as (x & l & ->).
Qed.

Lemma middle_part_odd kd r : no_colon r -> middle_part (cname kd +:+ String ":" r) = None.
Proof.
  intros H. unfold middle_part. by rewrite split_colon_cut, split_colon_whole by (done || apply cname_no_colon).
Qed.

Section load.
Context {O DB : Type} {C : ValCodec O} {B : Badger DB}.
Implicit Types (s : store O) (M : gmap string bytes).

(** ** One item *)

Lemma getShard_same s k k' : shard_of k = shard_of k' -> getShard s k = getShard s k'.
Proof. intros H. unfold getShard. by rewrite H. Qed.

Lemma load_item_count now s kd r val :
  load_item now s (cname kd +:+ String ":" r, val) = Ret (load_count s (cname kd +:+ String ":" r) (apre kd) val).
Proof.
  pose proof (cname_prefix kd r) as H. unfold load_item.
  assert (has_prefix (cname kd +:+ String ":" r) "meta:seq:" = false) as -> by (by destruct kd).
  destruct kd; cbn [cname] in *.
  - by rewrite (H : has_prefix ("c" +:+ String ":" r) "c:" = true).
  - assert (has_prefix ("mc" +:+ String ":" r) "c:" = false) as -> by done.
    by rewrite (H : has_prefix ("mc" +:+ String ":" r) "mc:" = true).
  - assert (has_prefix ("ms" +:+ String ":" r) "c:" = false) as -> by done.
    assert (has_prefix ("ms" +:+ String ":" r) "mc:" = false) as -> by done.
    by rewrite (H : has_prefix ("ms" +:+ String ":" r) "ms:" = true).
Qed.

Lemma load_item_pkey now s kd key n val :
  no_colon key ->
  load_item now s (pkey kd key n, val) =
    Ret (putShard s key (with_aggregate (fincr (cagg kd key) (float64FromBytes val))
           (with_counts (<[pkey kd key n := float64FromBytes val]>) (getShard s key)))).
Proof.
  intros H. unfold pkey at 1. rewrite load_item_count. fold (pkey kd key n). unfold load_count.
  rewrite middle_part_pkey by done. unfold putShard. rewrite shard_of_pkey by done.
  by rewrite (getShard_same s (pkey kd key n) key) by (by apply shard_of_pkey).
Qed.

(** The register [load] makes of a value. *)
Definition load_reg (now : Z) (val : bytes) : option (valWithTS O) :=
  match Unmarshal_val val with
  | Ok v => if expired now v then None else Some v
  | Err _ => None
  end.

Lemma load_item_plain now s k val :
  plain k ->
  load_item now s (k, val) =
    Ret (match load_reg now val with
         | Some v => putShard s k (with_cache (<[k := v]>) (getShard s k))
         | None => s
         end).
Proof.
  unfold plain, reserved, meta. intros H. unfold load_item, load_reg.
  destruct (has_prefix k "meta:seq:"), (has_prefix k "c:"), (has_prefix k "mc:"), (has_prefix k "ms:"),
    (has_prefix k "sw:"); try done.
  destruct (Unmarshal_val val); [|done]. by case_ifs.
Qed.

Lemma load_item_sw now s k val :
  has_prefix k "sw:" = true ->
  exists f, load_item now s (k, val) = Ret s \/
            load_item now s (k, val) = Ret (putShard s k (with_windows f (getShard s k))).
Proof.
  intros H. unfold load_item. rewrite H.
  assert (has_prefix k "meta:seq:" = false /\ has_prefix k "c:" = false /\ has_prefix k "mc:" = false /\
    has_prefix k "ms:" = false) as (-> & -> & -> & ->) by (apply has_prefix_inv in H as [r ->]; done).
  destruct (split_colon k) as [|? [|kStr [|tt l]]]; try (exists id; by left). eexists. right. done.
Qed.

(** ** All items *)

Definition part s (kd : ckind) (key n : string) : option float64 := counts (getShard s key) !! pkey kd key n.
Definition agg s (kd : ckind) (key : string) : float64 := fget (aggregateCounts (getShard s key)) (cagg kd key).

(** The partial counts of a key in the database, as integers. *)
Definition stored M (kd : ckind) (key : string) (m : gmap string Z) : Prop :=
  forall n, M !! pkey kd key n = (fun x => float64ToBytes (f_of_int x)) <$> m !! n.

Variable now : Z.

(** The store loaded from the entries [M]. *)
Record loaded s M : Prop := {
  ld_wf : store_wf s;
  ld_reg k : plain k -> reg s k = M !! k ≫= load_reg now;
  ld_part kd key n : no_colon key -> part s kd key n = float64FromBytes <$> M !! pkey kd key n;
  ld_agg kd key m : no_colon key -> stored M kd key m -> nonneg m -> csum m < 2 ^ 53 ->
    agg s kd key = f_of_int (csum m)
}.

Lemma loaded_empty : loaded empty_store ∅.
Proof.
  split.
  - apply empty_store_wf.
  - intros k _. unfold reg. by rewrite getShard_empty.
  - intros kd key n _. unfold part. by rewrite getShard_empty.
  - intros kd key m _ Hs _ _. unfold agg. rewrite getShard_empty.
    assert (m = ∅) as ->; [|done]. apply map_empty. intros n. specialize (Hs n). rewrite lookup_empty in Hs.
    by destruct (m !! n).
Qed.

(** An item that is neither a register nor a partial count. *)
Lemma loaded_other s s' M k v :
  loaded s M -> store_wf s' -> ~ plain k -> (forall kd key n, no_colon key -> k <> pkey kd key n) ->
  (forall k', plain k' -> reg s' k' = reg s k') ->
  (forall kd key n, no_colon key -> part s' kd key n = part s kd key n) ->
  (forall kd key, no_colon key -> agg s' kd key = agg s kd key) ->
  loaded s' (<[k := v]> M).
Proof.
  intros [H1 H2 H3 H4] Hwf Hk Hp Hr Hc Ha. split; [done|..].
  - intros k' Hk'. rewrite Hr, lookup_insert_ne by (done || congruence). auto.
  - intros kd key n Hn. rewrite Hc, lookup_insert_ne by auto. auto.
  - intros kd key m Hn Hs. rewrite Ha by done. apply H4; [done|]. intros n. rewrite <- Hs.
    by rewrite lookup_insert_ne by auto.
Qed.

Lemma loaded_plain s M k v :
  loaded s M -> plain k -> M !! k = None ->
  loaded (match load_reg now v with
          | Some x => putShard s k (with_cache (<[k := x]>) (getShard s k))
          | None => s
          end) (<[k := v]> M).
Proof.
  intros [H1 H2 H3 H4] Hk HM.
  assert (Hne : forall kd key n, k <> pkey kd key n)
    by (intros kd key n ->; unfold plain in Hk; by rewrite pkey_reserved in Hk).
  assert (Hst : forall kd key m, stored (<[k := v]> M) kd key m -> stored M kd key m)
    by (intros kd key m Hs n; rewrite <- Hs; by rewrite lookup_insert_ne).
  assert (Hkk : reg s k = None) by (by rewrite H2, HM).
  destruct (load_reg now v) as [x|] eqn:E; split; auto with go.
  - intros k' Hk'. destruct (decide (k' = k)) as [->|Hn].
    + unfold reg. rewrite getShard_putShard, decide_True, lookup_insert_eq by done. simpl. by rewrite lookup_insert_eq, E.
    + rewrite lookup_insert_ne by done. rewrite <- H2 by done. unfold reg.
      apply (field_putShard cache); [done|]. intros _. simpl. by rewrite lookup_insert_ne.
  - intros kd key n Hn. rewrite lookup_insert_ne by done. rewrite <- H3 by done.
    by apply (field_putShard counts).
  - intros kd key m Hn Hs Hm Hb. rewrite <- (H4 kd key m) by eauto. unfold agg, fget. f_equal.
    by apply (field_putShard aggregateCounts).
  - intros k' Hk'. destruct (decide (k' = k)) as [->|Hn].
    + rewrite lookup_insert_eq. simpl. by rewrite E.
    + rewrite lookup_insert_ne by done. auto.
  - intros kd key n Hn. rewrite lookup_insert_ne by done. auto.
Qed.

Lemma float64FromBytes_ToBytes f : is_float64 f -> float64FromBytes (float64ToBytes f) = f.
Proof.
  intros Hf. unfold float64FromBytes, float64ToBytes. rewrite length_be_encode. simpl (_ <? _)%nat. cbv iota.
  rewrite take_ge by (by rewrite length_be_encode). rewrite be_decode_encode_id; [by apply Float64frombits_bits|].
  pose proof (Float64bits_range f Hf) as H. unfold is_uint64 in H. exact H.
Qed.

(** Adding a partial count of a new node to the sum. *)
Lemma stored_insert M kd key n v m :
  no_colon key -> M !! pkey kd key n = None -> stored (<[pkey kd key n := v]> M) kd key m ->
  exists x, m !! n = Some x /\ v = float64ToBytes (f_of_int x) /\ stored M kd key (delete n m).
Proof.
  intros Hk HM Hs. pose proof (Hs n) as Hn. rewrite lookup_insert_eq in Hn.
  destruct (m !! n) as [x|]; [|done]. simpl in Hn. exists x. split_and!; [done|congruence|].
  intros n'. destruct (decide (n' = n)) as [->|Hne]; [by rewrite lookup_delete_eq, HM|].
  rewrite lookup_delete_ne by done. rewrite <- Hs. rewrite lookup_insert_ne; [done|].
  intros E. by apply pkey_inj in E as (_ & _ & ?).
Qed.

Lemma sum_step m n x :
  nonneg m -> csum m < 2 ^ 53 -> m !! n = Some x ->
  nonneg (delete n m) /\ csum (delete n m) < 2 ^ 53 /\ exact53 x /\
  fadd (f_of_int (csum (delete n m))) (f_of_int x) = f_of_int (csum m).
Proof.
  intros Hm Hb Hx. assert (Hd : nonneg (delete n m)) by (intros k y [_ Hk]%lookup_delete_Some; eauto).
  assert (E : csum m = x + csum (delete n m)).
  { rewrite <- (csum_insert_new _ n) by apply lookup_delete_eq. by rewrite insert_delete_eq, insert_id. }
  pose proof (csum_nonneg _ Hd). pose proof (Hm n x Hx).
  split_and!; [done|lia|unfold exact53; lia|]. rewrite fadd_int by (unfold exact53; lia). f_equal. lia.
Qed.

Lemma loaded_pkey s M kd key n v :
  loaded s M -> no_colon key -> M !! pkey kd key n = None ->
  loaded (putShard s key (with_aggregate (fincr (cagg kd key) (float64FromBytes v))
            (with_counts (<[pkey kd key n := float64FromBytes v]>) (getShard s key))))
         (<[pkey kd key n := v]> M).
Proof.
  intros [H1 H2 H3 H4] Hk HM. split; [by auto with go|..].
  - intros k Hp. rewrite lookup_insert_ne.
    + rewrite <- H2 by done. by apply (field_putShard cache).
    + intros <-. unfold plain in Hp. by rewrite pkey_reserved in Hp.
  - intros kd' key' n' Hk'. destruct (decide (pkey kd' key' n' = pkey kd key n)) as [E|Hne].
    + apply pkey_inj in E as (-> & -> & ->); [|done|done]. unfold part.
      rewrite getShard_putShard, decide_True, lookup_insert_eq by done. simpl. by rewrite lookup_insert_eq.
    + rewrite lookup_insert_ne by done. rewrite <- H3 by done. apply (field_putShard counts); [done|].
      intros _. simpl. by rewrite lookup_insert_ne.
  - intros kd' key' m Hk' Hs Hm Hb. destruct (decide (cagg kd' key' = cagg kd key)) as [E|Hne].
    + apply cagg_inj in E as (-> & ->); [|done|done].
      destruct (stored_insert M kd key n v m Hk HM Hs) as (x & Hx & -> & Hs').
      destruct (sum_step m n x Hm Hb Hx) as (Hm' & Hb' & Hex & <-).
      rewrite <- (H4 kd key (delete n m)) by done. unfold agg.
      rewrite getShard_putShard, decide_True by done. unfold fget at 1, fincr. simpl.
      rewrite lookup_insert_eq. simpl. by rewrite float64FromBytes_ToBytes by (by apply f_of_int_valid).
    + rewrite <- (H4 kd' key' m); [|done| |done|done].
      * unfold agg, fget. f_equal. apply (field_putShard aggregateCounts); [done|].
        intros _. simpl. unfold fincr. by rewrite lookup_insert_ne.
      * intros n'. rewrite <- Hs. rewrite lookup_insert_ne; [done|].
        intros E. apply Hne. by apply pkey_inj in E as (-> & -> & _).
Qed.

Lemma load_item_loaded s M k v :
  loaded s M -> M !! k = None -> meta k = false ->
  exists s', load_item now s (k, v) = Ret s' /\ loaded s' (<[k := v]> M).
Proof.
  intros HL HM Hm. pose proof (ld_wf _ _ HL) as Hwf.
  destruct (classify k Hm) as [(kd & key & n & Hk & ->)|[(kd & r & Hr & ->)|[Hsw|Hp]]].
  - rewrite load_item_pkey by done. eexists. split; [done|]. by apply loaded_pkey.
  - rewrite load_item_count. eexists. split; [done|]. unfold load_count. rewrite middle_part_odd by done.
    assert (Hne : forall kd' key n, no_colon key -> cname kd +:+ String ":" r <> pkey kd' key n).
    { intros kd' key n Hk E. pose proof (middle_part_odd kd r Hr) as H. rewrite E, middle_part_pkey in H; done. }
    apply (loaded_other s); auto with go.
    + unfold plain. by rewrite (reserved_prefix kd _ (cname_prefix kd r)).
    + intros k' _. by apply (field_putShard cache).
    + intros kd' key n Hk. apply (field_putShard counts); [done|]. intros _. simpl.
      rewrite lookup_insert_ne; [done|]. by apply Hne.
    + intros kd' key Hk. unfold agg, fget. f_equal. by apply (field_putShard aggregateCounts).
  - assert (Hnp : ~ plain k) by (intros H%plain_not_sw; congruence).
    assert (Hne : forall kd' key n, no_colon key -> k <> pkey kd' key n)
      by (intros kd' key n _ ->; by rewrite pkey_not_sw in Hsw).
    destruct (load_item_sw now s k v Hsw) as (f & [-> | ->]); eexists; (split; [done|]).
    + by apply (loaded_other s).
    + apply (loaded_other s); auto with go.
      * intros k' _. by apply (field_putShard cache).
      * intros kd' key n _. by apply (field_putShard counts).
      * intros kd' key _. unfold agg, fget. f_equal. by apply (field_putShard aggregateCounts).
  - rewrite load_item_plain by done. eexists. split; [done|]. by apply loaded_plain.
Qed.

Lemma load_items_loaded l s M :
  loaded s M -> NoDup l.*1 -> (forall k, k ∈ l.*1 -> M !! k = None /\ meta k = false) ->
  exists s', foldl (fun r kv => let! s := r in load_item now s kv) (Ret s) l = Ret s' /\
             loaded s' (list_to_map l ∪ M).
Proof.
  revert s M. induction l as [|[k v] l IH]; intros s M HL Hnd Hl; simpl.
  { exists s. by rewrite (left_id_L ∅ (∪)). }
  apply NoDup_cons in Hnd as [Hnk Hnd].
  destruct (load_item_loaded s M k v HL) as (s1 & E & HL1); [apply Hl; constructor..|]. simpl in E. rewrite E.
  destruct (IH s1 (<[k := v]> M) HL1 Hnd) as (s' & Hs' & HL').
  - intros k' Hk'. destruct (Hl k') as [? ?]; [by constructor|]. split; [|done].
    rewrite lookup_insert_ne; [done|]. by intros ->.
  - exists s'. split; [done|]. rewrite <- insert_union_l. rewrite insert_union_r; [done|].
    by apply not_elem_of_list_to_map_1.
Qed.
End load.

(** ** Restart *)

Section restart.
Context {O DB : Type} {C : ValCodec O} {CL : ValCodecLaws C} {B : Badger DB} {BL : BadgerLaws B}.
Variable t : Z.
Variable side : string -> Prop.
Implicit Types (s : store O) (db : DB).

(** A register as it comes back, the value in its decoded form; [None] when the
    value does not decode. *)
Definition canon_reg (v : valWithTS O) : option (valWithTS O) :=
  (fun x => mkVal x (v_Timestamp v) (v_ExpiresAt v) (v_Deleted v)) <$> canon_val (v_Value v).

Lemma wb_load s db :
  wb_inv t side s db ->
  exists s', load db t = Ret s' /\ loaded t s' (list_to_map (db_items db t)).
Proof.
  intros HI. destruct (load_items_loaded t (db_items db t) empty_store ∅) as (s' & E & HL).
  - apply loaded_empty.
  - apply items_nodup.
  - intros k Hk. split; [done|]. apply not_true_is_false. intros Hm.
    pose proof (wb_never _ _ _ _ HI k (or_introl Hm)) as Hn. unfold db_get in Hn.
    by apply not_elem_of_list_to_map in Hn.
  - exists s'. rewrite (right_id_L ∅ (∪)) in HL. done.
Qed.

Lemma load_reg_data i k v :
  val_ok side i k v -> load_reg t (data_of v) = if expired t v then None else canon_reg v.
Proof.
  intros (_ & _ & _ & b & Hm & _). unfold load_reg, data_of, canon_reg. rewrite Hm.
  pose proof (Unmarshal_Marshal_val v b Hm) as Hu. destruct (canon_val (v_Value v)) as [x|]; [by rewrite Hu|].
  destruct Hu as [e ->]. simpl. by case_ifs.
Qed.

Lemma survives_not_expired (v : valWithTS O) : survives t v -> expired t v = false.
Proof. unfold survives, expired, Second. lia. Qed.

(** A store with nothing dirty, and what is loaded from its database. *)
Section clean.
Variables (s s' : store O) (db : DB).
Hypothesis HI : wb_inv t side s db.
Hypothesis HL : loaded t s' (list_to_map (db_items db t)).
Hypothesis Hclean : forall k, dirty (getShard s k) = ∅.

Lemma clean_agrees k : known side k -> agrees t db k (item (getShard s k) k).
Proof. intros Hk. apply (wb_clean _ _ _ _ HI); [done|]. rewrite Hclean. set_solver. Qed.

Lemma loaded_reg k : plain k -> reg s' k = db_get db t k ≫= load_reg t.
Proof. intros Hk. by rewrite (ld_reg _ _ _ HL k Hk). Qed.

Lemma clean_reg k v :
  regkey side k -> reg s k = Some v ->
  (survives t v -> reg s' k = canon_reg v) /\ (expired t v = true -> reg s' k = None).
Proof.
  intros Hk Hv. pose proof (clean_agrees k (or_introl Hk)) as Ha. unfold item in Ha. unfold reg in Hv.
  rewrite Hv in Ha. rewrite loaded_reg by apply Hk.
  pose proof (load_reg_data _ _ _ (so_cache _ _ _ (wb_getShard _ _ _ _ k HI) k v Hv)) as Hd.
  split.
  - intros Hs. destruct Ha as [-> |[_ Hn]]; [|done]. simpl. by rewrite Hd, survives_not_expired.
  - intros He. destruct Ha as [-> |[-> _]]; [|done]. simpl. by rewrite Hd, He.
Qed.

Lemma clean_absent k : regkey side k -> reg s k = None -> reg s' k = None.
Proof.
  intros Hk Hv. pose proof (clean_agrees k (or_introl Hk)) as Ha. unfold item in Ha. unfold reg in Hv.
  rewrite Hv in Ha. destruct (counts (getShard s k) !! k) as [c|] eqn:E.
  - destruct (regkey_not_count side k Hk). eapply so_counts; [exact (wb_getShard _ _ _ _ k HI)|by rewrite E].
  - rewrite loaded_reg by apply Hk. simpl in Ha. by rewrite Ha.
Qed.

Lemma clean_part kd key n :
  no_colon key -> db_get db t (pkey kd key n) = float64ToBytes <$> part s kd key n.
Proof.
  intros Hk. unfold part. rewrite <- (getShard_same s (pkey kd key n)) by (by apply shard_of_pkey).
  set (k := pkey kd key n). pose proof (wb_getShard _ _ _ _ k HI) as Hok.
  assert (Hcache : cache (getShard s k) !! k = None).
  { destruct (cache (getShard s k) !! k) as [v|] eqn:E; [|done].
    destruct (so_cache _ _ _ Hok k v E) as (_ & [Hp _] & _). unfold plain, k in Hp. by rewrite pkey_reserved in Hp. }
  assert (Ha : is_count k -> agrees t db k (item (getShard s k) k)) by (intros; by apply clean_agrees; right).
  unfold item in Ha. rewrite Hcache in Ha.
  destruct (counts (getShard s k) !! k) as [c|] eqn:Ec; simpl in *.
  - apply Ha. eapply so_counts; [done|by rewrite Ec].
  - destruct (db_get db t k) eqn:Eg; [|done]. exfalso.
    assert (Hn : never_written k); [|by rewrite (wb_never _ _ _ _ HI k Hn) in Eg].
    right. split; [by exists kd, key, n|]. intros H%Ha. done.
Qed.

Lemma clean_counts kd key n f :
  no_colon key -> part s kd key n = Some f -> is_float64 f -> part s' kd key n = Some f.
Proof.
  intros Hk Hf Hv. rewrite (ld_part _ _ _ HL kd key n Hk).
  change (float64FromBytes <$> db_get db t (pkey kd key n) = Some f). rewrite clean_part, Hf by done. simpl.
  by rewrite float64FromBytes_ToBytes.
Qed.

Lemma clean_sum kd key m :
  no_colon key -> (forall n, part s kd key n = f_of_int <$> m !! n) -> nonneg m -> csum m < 2 ^ 53 ->
  agg s' kd key = f_of_int (csum m).
Proof.
  intros Hk Hp Hm Hb. apply (ld_agg _ _ _ HL kd key m); [done| |done|done].
  intros n. change (db_get db t (pkey kd key n) = (fun x => float64ToBytes (f_of_int x)) <$> m !! n).
  rewrite clean_part, Hp by done. by destruct (m !! n).
Qed.
End clean.
End restart.

(** ** An encoding of registers

    Fixed-width fields and the tagged value of [Node]. *)
Module FixedVal.
Definition in_range (v : valWithTS unit) : bool :=
  bool_decide (is_int64 (Physical (v_Timestamp v))) && bool_decide (is_int32 (Logical (v_Timestamp v))) &&
  bool_decide (is_int64 (v_ExpiresAt v)).

Definition marshal (v : valWithTS unit) : result bytes :=
  if in_range v then
    rbind (Tagged.marshal_any (v_Value v)) (fun b =>
      Ok ((if v_Deleted v then Byte.x01 else Byte.x00) :: be_encode 8 (Physical (v_Timestamp v)) ++
          be_encode 4 (Logical (v_Timestamp v)) ++ be_encode 8 (v_ExpiresAt v) ++ b))
  else Err (LibError "out of range").

Definition field (n : nat) (b : bytes) : Z * bytes := (be_decode (take n b), drop n b).

Definition unmarshal (b : bytes) : result (valWithTS unit) :=
  match b with
  | flag :: b =>
      if (length b <? 20)%nat then Err (LibError "EOF")
      else
        let '(p, b) := field 8 b in
        let '(l, b) := field 4 b in
        let '(e, b) := field 8 b in
        match Tagged.unmarshal_any b with
        | (v, None) => Ok (mkVal v (mkTimestamp (int64 p) (int32 l)) (int64 e) (bool_decide (flag = Byte.x01)))
        | (_, Some err) => Err err
        end
  | [] => Err (LibError "EOF")
  end.

#[export] Instance codec : ValCodec unit := { Marshal_val := marshal; Unmarshal_val := unmarshal }.

Lemma field_encode n z b : field n (be_encode n z ++ b) = (z mod 256 ^ Z.of_nat n, b).
Proof.
  unfold field. rewrite take_app_length', drop_app_length' by (by rewrite length_be_encode). by rewrite be_decode_encode.
Qed.

#[export] Instance codec_laws : ValCodecLaws codec.
Proof.
  refine {| canon_val := Some |}; try done. intros [v [p l] e d] b. cbn [Marshal_val codec]. unfold marshal, in_range.
  cbn [v_Value v_Timestamp v_ExpiresAt v_Deleted Physical Logical].
  destruct (bool_decide (is_int64 p)) eqn:Hp; [|done]. destruct (bool_decide (is_int32 l)) eqn:Hl; [|done].
  destruct (bool_decide (is_int64 e)) eqn:He; [|done]. apply bool_decide_eq_true in Hp, Hl, He. cbn [andb].
  destruct (Tagged.marshal_any v) as [bv|] eqn:Ev; [|done]. cbn [rbind]. intros H.
  match type of H with Ok ?x = Ok _ => assert (b = x) as -> by congruence end.
  cbn [Unmarshal_val codec]. unfold unmarshal.
  assert ((length (be_encode 8 p ++ be_encode 4 l ++ be_encode 8 e ++ bv) <? 20)%nat = false) as ->
    by (apply Nat.ltb_ge; rewrite !length_app, !length_be_encode; lia).
  rewrite !field_encode.
  assert (Tagged.unmarshal_any bv = (v, None)) as -> by exact (Tagged.unmarshal_marshal v bv Ev).
  change (256 ^ Z.of_nat 8) with (256 ^ 8). change (256 ^ Z.of_nat 4) with (256 ^ 4).
  rewrite !Fixed.wrap_mod_int64, Fixed.wrap_mod_int32 by done. by destruct d.
Defined.
End FixedVal.

Lemma restart_spec {O DB} {C : ValCodec O} {CL : ValCodecLaws C} {B : Badger DB}
    {BL : BadgerLaws B} `{RangeOrder} t side os ck (s : store O) (db : DB) :
  t < 9223372036854775808 -> Forall (pop_ok t side) os ->
  foldl pop_step (empty_store, db_empty) os = (s, db) -> clock_ok t ck ->
  exists s', load (store_close s db ck) t = Ret s' /\
    (forall k v, regkey side k -> reg s k = Some v ->
       (survives t v -> reg s' k = canon_reg v) /\ (expired t v = true -> reg s' k = None)) /\
    (forall k, regkey side k -> reg s k = None -> reg s' k = None) /\
    (forall kd key n f, no_colon key -> part s kd key n = Some f -> is_float64 f -> part s' kd key n = Some f) /\
    (forall kd key m, no_colon key -> (forall n, part s kd key n = f_of_int <$> m !! n) -> nonneg m ->
       csum m < 2 ^ 53 -> agg s' kd key = f_of_int (csum m)).
Proof.
  intros Ht Hos Hrun Hn. pose proof (wb_run t side Ht _ _ os (wb_init t side Ht) Hos) as HI.
  rewrite Hrun in HI. simpl in HI. pose proof (wb_wf _ _ _ _ HI) as Hwf.
  pose proof (wb_flush t side Ht s db ck HI Hn) as HI'.
  destruct (wb_load t side _ _ HI') as (s' & Hl & HL). exists s'.
  assert (Hg : forall k, getShard (flush s db ck).1 k = clear_dirty (getShard s k)) by (intros; by apply getShard_flush).
  assert (Hc : forall k, dirty (getShard (flush s db ck).1 k) = ∅) by (intros; by rewrite Hg).
  assert (Hr : forall k, reg s k = reg (flush s db ck).1 k) by (intros; unfold reg; by rewrite Hg).
  assert (Hp : forall kd key n, part s kd key n = part (flush s db ck).1 kd key n) by (intros; unfold part; by rewrite Hg).
  split; [done|]. split_and!.
  - intros k v Hk Hv. rewrite Hr in Hv. eapply clean_reg; eauto.
  - intros k Hk Hv. rewrite Hr in Hv. eapply clean_absent; eauto.
  - intros kd key n f Hk Hf Hv. rewrite Hp in Hf. eapply clean_counts; eauto.
  - intros kd key m Hk Hf. eapply clean_sum; eauto. intros n. by rewrite <- Hp.
Qed.

(** C12: A restart preserves the store.  After a run of operations and flushes
    from an empty store and database, closing the store (its last flush, with the
    clock readings [ck]) and loading it again at a time [t] not before them
    succeeds; a register that does not expire within a second comes back with its
    timestamp, expiry, deletion mark and the value as it decodes (strings, non-empty
    byte slices and nil as they were; a register whose value does not decode into
    an [any] is dropped), an expired or absent one is absent; every partial count
    of a counter or metric comes back, and the aggregates are again their sums when
    the counts are non-negative integers with a sum below 2^53.

    What is asked of the operations ([pop_ok]) and of the names: register keys do
    not start with a prefix the database uses ([c:], [mc:], [ms:], [sw:],
    [meta:seq:]) and are not names of windows or nodes ([side]), keys of counters
    and metrics have no colon, the values can be encoded and the database accepts
    the entries. *)
Theorem restart_preserves_store {O DB} {C : ValCodec O} {CL : ValCodecLaws C} {B : Badger DB}
    {BL : BadgerLaws B} `{RangeOrder} t side os ck (s : store O) (db : DB) :
  t < 9223372036854775808 -> Forall (pop_ok t side) os ->
  foldl pop_step (empty_store, db_empty) os = (s, db) -> clock_ok t ck ->
  exists s', load (store_close s db ck) t = Ret s' /\
    (forall k v, regkey side k -> reg s k = Some v ->
       (survives t v -> reg s' k = canon_reg v) /\ (expired t v = true -> reg s' k = None)) /\
    (forall k, regkey side k -> reg s k = None -> reg s' k = None) /\
    (forall kd key n f, no_colon key -> part s kd key n = Some f -> is_float64 f -> part s' kd key n = Some f) /\
    (forall kd key m, no_colon key -> (forall n, part s kd key n = f_of_int <$> m !! n) -> nonneg m ->
       csum m < 2 ^ 53 -> agg s' kd key = f_of_int (csum m)).
Proof. apply restart_spec. Qed.

#[local] Existing Instances MemDB.badger MemDB.laws FixedVal.codec FixedVal.codec_laws.

(** A run with every kind of operation. *)
Definition restart_side (k : string) : Prop := k = "w" \/ k = "n2".
Definition restart_ops : list (pop (O := unit)) :=
  [PWrite (WSet "a" (AString "x") (mkTimestamp 10 0) 0);
   PIncr "hits" "n1" (float64_of_Z 3);
   PFlush (steady 12);
   PWrite (WSet "b" (AString "y") (mkTimestamp 20 0) 5);
   PMerge "hits" "n2" (float64_of_Z 4);
   PMetric "lat" "n1" (float64_of_Z 7);
   PWindow "w" 21 100 21; PAddTimestamp "w" 19; PPeerSeq "n2" 9;
   PFlush (steady 22);
   PPruneKeys 30; PPruneWindows 30;
   PWrite (WDelete "c" (mkTimestamp 31 0))].

Lemma restart_write_ok (w : write unit) :
  plain (w_key w) -> ~ restart_side (w_key w) -> (exists b, Marshal_val (w_val w) = Ok b) ->
  write_ok (DB := MemDB.t) restart_side w.
Proof. intros Hp Hs [b Hb]. split; [done|]. by exists b. Qed.

Lemma restart_ops_ok : Forall (pop_ok (DB := MemDB.t) 2000000000 restart_side) restart_ops.
Proof.
  unfold restart_ops. repeat (apply Forall_cons_2 || apply Forall_nil_2); cbn [pop_ok].
  - apply restart_write_ok; [reflexivity|by intros [H|H]; discriminate H|by eexists; vm_compute].
  - by split.
  - apply steady_ok. lia.
  - apply restart_write_ok; [reflexivity|by intros [H|H]; discriminate H|by eexists; vm_compute].
  - by split.
  - by split.
  - split; [done|by left].
  - split; [done|by left].
  - split; [split; [done|by right]|done].
  - apply steady_ok. lia.
  - exact I.
  - exact I.
  - apply restart_write_ok; [reflexivity|by intros [H|H]; discriminate H|by eexists; vm_compute].
Qed.

Lemma restart_preserves_store_witness :
  let sd := foldl pop_step (empty_store, db_empty : MemDB.t) restart_ops in
  exists s', load (store_close sd.1 sd.2 (steady 40)) 2000000000 = Ret s' /\
    (forall k v, regkey (DB := MemDB.t) restart_side k -> reg sd.1 k = Some v ->
       (survives 2000000000 v -> reg s' k = canon_reg v) /\ (expired 2000000000 v = true -> reg s' k = None)) /\
    (forall k, regkey (DB := MemDB.t) restart_side k -> reg sd.1 k = None -> reg s' k = None) /\
    (forall kd key n f, no_colon key -> part sd.1 kd key n = Some f -> is_float64 f -> part s' kd key n = Some f) /\
    (forall kd key m, no_colon key -> (forall n, part sd.1 kd key n = f_of_int <$> m !! n) -> nonneg m ->
       csum m < 2 ^ 53 -> agg s' kd key = f_of_int (csum m)).
Proof.
  cbv zeta. destruct (foldl pop_step _ restart_ops) as [s db] eqn:E. cbn [fst snd].
  apply (restart_preserves_store 2000000000 restart_side restart_ops (steady 40) s db); [lia|exact restart_ops_ok|exact E|apply steady_ok; lia].
Defined.

(** ** Limits *)

(** The store after a run, a close at time 40 and a load at time 50. *)
Definition after_restart (os : list (pop (O := unit))) : go (store unit) :=
  let sd := foldl pop_step (empty_store, db_empty : MemDB.t) os in
  load (store_close sd.1 sd.2 (steady 40)) 50.

Example restart_run :
  (let! s := after_restart restart_ops in
   Ret (store_get s "a" 50, store_exists s "b" 50, int64_of_float (getAggregateCount s "hits"),
        getAggregateMetric s "lat", windows (getShard s "w") !! "w")) =
  Ret (AString "x", false, 7, mkMetric 1 (float64_of_Z 7), Some [19; 21]).
Proof. vm_compute. reflexivity. Qed.

(** The position of a node is lost: [updatePeerSeq] keeps it under the node's
    name but marks the key [meta:seq:name] dirty, which [flush] does not find
    and deletes. *)
Example peer_positions_are_not_persisted :
  (let! s := after_restart [PPeerSeq "n2" 9] in Ret (getPeerSeq s "n2")) = Ret 0.
Proof. vm_compute. reflexivity. Qed.

(** A counter with a colon in its key comes back in another aggregate. *)
Example counter_with_colon_is_lost :
  (let! s := after_restart [PIncr "user:1" "n1" (float64_of_Z 3)] in
   Ret (int64_of_float (getAggregateCount s "user:1"), int64_of_float (getAggregateCount s "user"))) = Ret (0, 3).
Proof. vm_compute. reflexivity. Qed.

(** Events that left their window stay in the database: at time 30 the window
    counts one event, after a restart it holds both. *)
Example old_window_events_return :
  (let! s := after_restart [PWindow "w" 10 5 10; PFlush (steady 11); PWindow "w" 30 5 30] in
   Ret (merge_sort Z.le <$> windows (getShard s "w") !! "w")) = Ret (Some [10; 30]).
Proof. vm_compute. reflexivity. Qed.

(** A key that is both a register and a window: the events are not written. *)
Example window_hidden_by_register :
  (let! s := after_restart [PWindow "k" 10 5 10; PWrite (WSet "k" (AString "x") (mkTimestamp 11 0) 0)] in
   Ret (windows (getShard s "k") !! "k")) = Ret None.
Proof. vm_compute. reflexivity. Qed.

(** ... and an older value of the register comes back, once the register has
    expired and only the window is left. *)
Example old_register_returns :
  (let! s := after_restart [PWrite (WSet "k" (AString "old") (mkTimestamp 1 0) 0); PFlush (steady 2);
                            PWrite (WSet "k" (AString "new") (mkTimestamp 3 0) 5); PPruneKeys 20;
                            PWindow "k" 30 5 30] in
   Ret (store_get s "k" 50)) = Ret (AString "old").
Proof. vm_compute. reflexivity. Qed.

(** A register whose key starts with a reserved prefix comes back as a count. *)
Example reserved_register_is_lost :
  (let! s := after_restart [PWrite (WSet "c:x" (AString "v") (mkTimestamp 1 0) 0)] in
   Ret (store_get s "c:x" 50)) = Ret ANil.
Proof. vm_compute. reflexivity. Qed.

(** A register under [meta:seq:] is written as eight zero bytes: its value is
    gone and the position of a node is set to zero. *)
Example meta_register_is_lost :
  (let! s := after_restart [PWrite (WSet "meta:seq:n" (AString "v") (mkTimestamp 1 0) 0)] in
   Ret (store_get s "meta:seq:n" 50)) = Ret ANil.
Proof. vm_compute. reflexivity. Qed.

(** ** Overlapping flushes

    A flush takes its snapshots under the locks and writes the batch afterwards;
    [close] closes the stop channel and flushes without waiting for a flush the
    loop has begun. *)
Section overlap.
Context {O DB : Type} {C : ValCodec O} {B : Badger DB} {RO : RangeOrder}.

Definition flush_snapshot (s : store O) (ck : flush_clock) : store O * list wop :=
  (mkStore (clear_dirty <$> shards s), shards s ≫= shard_ops ck).

Lemma flush_in_steps (s : store O) (db : DB) ck :
  flush s db ck = (let '(s, ops) := flush_snapshot s ck in (s, db_write db (commit_at ck) ops)).
Proof. done. Qed.
End overlap.

(** A flush that began before the last write and writes its batch after the
    flush of [close]: the database ends with the older value. *)
Example overlapping_flush_restores_old_value :
  let old := store_set empty_store "k" (AString "old") (mkTimestamp 1 0) 0 in
  let '(s, ops) := flush_snapshot old (steady 10) in
  let s := store_set s "k" (AString "new") (mkTimestamp 2 0) 0 in
  let db := store_close s (db_empty : MemDB.t) (steady 11) in
  (let! s := load db 20 in Ret (store_get s "k" 20)) = Ret (AString "new") /\
  (let! s := load (db_write db 12 ops) 20 in Ret (store_get s "k" 20)) = Ret (AString "old").
Proof. vm_compute. done. Qed.
