(* ===== verification/Message.v ===== *)
(** * Messages and timestamps as text (src/types.go: Encode, Decode; src/hlc.go: String)

    [Encode] serializes the attached object into the message's value when the
    value is not set, and then the whole message with vmihailenco/msgpack, whose
    encoding of structs is the class [StructCodec]. *)

From S2P Require Import Prelude Float64 Hlc Types Msgp Codec DeltaLog Store Metrics Client Node.
From stdpp Require Import pretty.

#[local] Open Scope Z_scope.

(** [msgpack.Marshal] and [msgpack.Unmarshal] on [Message]: that encoder goes
    by its own struct tags, of which the type has none, so every exported field
    is written, the attached object included. *)
Class StructCodec (O : Type) := {
  Marshal_message : Message O -> result bytes;
  Unmarshal_message : bytes -> result (Message O)
}.

(** What is decoded is what was encoded, the attached object in the form it has
    after a round trip through an [any], if it decodes into one. *)
Class StructCodecLaws {O} (C : StructCodec O) := {
  canon_obj : any O -> option (any O);
  Unmarshal_Marshal_message m b : Marshal_message m = Ok b ->
    match canon_obj (m_ValueObj m) with
    | Some x => Unmarshal_message b = Ok (mkMessage (m_Type m) (m_Key m) (m_Value m) x
                                            (m_Delta m) (m_TTL m) (m_Timestamp m) (m_NodeID m))
    | None => exists e, Unmarshal_message b = Err e
    end
}.

Section message.
Context {O T : Type} {M : Msgpack O T} {C : StructCodec O}.

Definition with_value (v : option bytes) (m : Message O) : Message O :=
  mkMessage (m_Type m) (m_Key m) v (m_ValueObj m) (m_Delta m) (m_TTL m) (m_Timestamp m) (m_NodeID m).

(** [m.ValueObj != nil && m.Value == nil] *)
Definition lazy_value (m : Message O) : bool :=
  match m_ValueObj m, m_Value m with ANil, _ => false | _, None => true | _, Some _ => false end.

(** The encoding, and the message with the value filled in. *)
Definition Encode (m : Message O) : result bytes * Message O :=
  let m := if lazy_value m
           then with_value (match Marshal (m_ValueObj m) with Ok b => Some b | Err _ => None end) m
           else m in
  (Marshal_message m, m).

Definition Decode (data : bytes) : result (Message O) := Unmarshal_message data.

Lemma Encode_keeps m :
  let m' := (Encode m).2 in
  m_Type m' = m_Type m /\ m_Key m' = m_Key m /\ m_ValueObj m' = m_ValueObj m /\ m_Delta m' = m_Delta m /\
  m_TTL m' = m_TTL m /\ m_Timestamp m' = m_Timestamp m /\ m_NodeID m' = m_NodeID m /\
  (forall v, m_Value m = Some v -> m_Value m' = Some v).
Proof.
  unfold Encode. cbn [snd]. destruct (lazy_value m) eqn:E; [|done]. split_and!; try done.
  intros v Hv. unfold lazy_value in E. rewrite Hv in E. by destruct (m_ValueObj m).
Qed.

(** Encoding twice gives the same bytes and message: the value is filled in
    once (or, when the object cannot be encoded, never). *)
Lemma Encode_idempotent m : Encode (Encode m).2 = Encode m.
Proof.
  unfold Encode. cbn [snd]. destruct (lazy_value m) eqn:E; [|by rewrite E].
  destruct (Marshal (m_ValueObj m)) as [b|e] eqn:Em.
  - assert (lazy_value (with_value (Some b) m) = false) as -> by (unfold lazy_value; simpl; by destruct (m_ValueObj m)). done.
  - assert (lazy_value (with_value None m) = true) as ->
      by (unfold lazy_value in *; simpl; by destruct (m_ValueObj m)).
    cbn [with_value m_ValueObj]. by rewrite Em.
Qed.

(** The receiver finds an object that decodes both as itself and, decoded, in the
    value. *)
Lemma Decode_Encode {ML : MsgpackLaws M} {CL : StructCodecLaws C} m b x :
  (Encode m).1 = Ok b -> canon_obj (m_ValueObj m) = Some x ->
  exists m', Decode b = Ok m' /\ m_Type m' = m_Type m /\ m_Key m' = m_Key m /\ m_Delta m' = m_Delta m /\
    m_TTL m' = m_TTL m /\ m_Timestamp m' = m_Timestamp m /\ m_NodeID m' = m_NodeID m /\
    m_ValueObj m' = x /\ m_Value m' = m_Value (Encode m).2 /\
    (lazy_value m = true -> forall v, m_Value m' = Some v -> (Unmarshal_any v).1 = canon (m_ValueObj m)).
Proof.
  intros Hb' Hx. pose proof (Unmarshal_Marshal_message (Encode m).2 b Hb') as Hb. clear Hb'.
  destruct (Encode_keeps m) as (H1 & H2 & H3 & H4 & H5 & H6 & H7 & _). cbv zeta in *.
  rewrite H3, Hx in Hb. eexists. split; [exact Hb|].
  cbn [m_Type m_Key m_Value m_ValueObj m_Delta m_TTL m_Timestamp m_NodeID].
  unfold Encode in *. cbn [snd] in *. rewrite H1, H2, H4, H5, H6, H7. split_and!; try done.
  intros Hl v. rewrite Hl. cbn [m_Value with_value]. destruct (Marshal (m_ValueObj m)) as [b'|e] eqn:Em; [|done].
  intros [= <-]. by rewrite (Unmarshal_Marshal _ _ Em).
Qed.
End message.

(** ** Timestamps *)

Definition Timestamp_String (t : Timestamp) : string := pretty (Physical t) +:+ ":" +:+ pretty (Logical t).

Lemma no_colon_digits x s : no_colon s -> no_colon (pretty_N_go x s).
Proof.
  revert s. induction (N.lt_wf_0 x) as [x _ IH]; intros s Hs.
  assert (x = 0 \/ 0 < x)%N as [->|Hx] by lia; [by rewrite pretty_N_go_0|].
  rewrite pretty_N_go_step by done. apply IH; [by apply N.div_lt|]. simpl. split; [|done].
  unfold pretty_N_char. by repeat case_match.
Qed.

Lemma no_colon_pretty (z : Z) : no_colon (pretty z).
Proof.
  assert (Hn : forall n : N, no_colon (pretty n)).
  { intros n. unfold pretty, pretty_N. case_decide; [by vm_compute|by apply no_colon_digits]. }
  destruct z; [by vm_compute|apply (Hn (Npos _))|]. split; [done|apply (Hn (Npos _))].
Qed.

Lemma Timestamp_String_split t : split_colon (Timestamp_String t) = [pretty (Physical t); pretty (Logical t)].
Proof.
  etransitivity; [exact (split_colon_cut (pretty (Physical t)) (pretty (Logical t)) (no_colon_pretty _))|].
  by rewrite split_colon_whole by apply no_colon_pretty.
Qed.

(** The text of a timestamp determines it. *)
Lemma Timestamp_String_inj t t' : Timestamp_String t = Timestamp_String t' -> t = t'.
Proof.
  intros H. pose proof (Timestamp_String_split t) as Hs. rewrite H, Timestamp_String_split in Hs.
  injection Hs as H1 H2. apply (inj pretty) in H1, H2. destruct t, t'. simpl in *. by subst.
Qed.
