(* ===== verification/Threads.v ===== *)
(** * Goroutines of a node (src/capacitor.go)

    The operations of [Node] run from start to end.  In the program they are
    called from many goroutines at once, and between two lock acquisitions of
    one call other goroutines run.  Here each operation is a sequence of atomic
    steps, one for each call that takes a lock ([hlc.Now], an operation on a
    shard, [log.Append], a latency record), and a schedule interleaves the
    steps of any number of goroutines.  Run without interruption, a goroutine
    does what the operation of [Node] does. *)

From S2P Require Import Prelude Float64 Hlc Types Msgp Codec DeltaLog Store Metrics Client Node.

#[local] Open Scope Z_scope.
#[local] Open Scope go_scope.

(** What a call returns. *)
Inductive ret := RUnit | RErr (e : merr) | RInt (z : Z) | RMetric (m : Metric).

Section threads.
Context {O T : Type} {M : Msgpack O T} {W : Wire}.
Implicit Types f : Capacitor O.

(** Where a goroutine stands: the call it makes next, with its local variables. *)
Inductive pc :=
| SetNow (key : string) (value : any O) (ttl : Z)
| SetStore (key : string) (value : any O) (ttl : Z) (ts : Timestamp)
| SetAppend (key : string) (value : any O) (ttl : Z) (ts : Timestamp)
| DelNow (key : string)
| DelStore (key : string) (ts : Timestamp)
| DelAppend (key : string) (ts : Timestamp)
| IncrStore (key : string) (delta : Z)
| IncrRead (key : string) (val : float64)
| IncrNow (key : string) (val nodeVal : float64)
| IncrAppend (key : string) (val nodeVal : float64) (ts : Timestamp)
| MetStore (key : string) (delta : float64)
| MetNow (key : string) (delta : float64) (m : Metric)
| MetAppend (key : string) (delta : float64) (m : Metric) (ts : Timestamp)
| WinNow (key : string) (window : Z)
| WinStore (key : string) (window : Z) (ts : Timestamp)
| WinAppend (key : string) (count : Z) (ts : Timestamp)
| RemRecord (e : LogEntry)
| RemUpdate (e : LogEntry)
| RemStore (e : LogEntry)
| RemSeq (e : LogEntry)
| Observe (k : lat_kind) (r : ret)
| Finished (r : ret).

(** The steps of each operation; [r] is the clock reading or the measured
    latency the call uses. *)

(** [Set] *)
Definition set_step f (p : pc) (r : Z) : go (Capacitor O * pc) :=
  match p with
  | SetNow key value ttl => let '(ts, f) := tick f r in Ret (f, SetStore key value ttl ts)
  | SetStore key value ttl ts =>
      Ret (with_store (store_set (cstore f) key value ts ttl) f, SetAppend key value ttl ts)
  | SetAppend key value ttl ts =>
      match Marshal value with
      | Err e => Ret (f, Finished (RErr e))
      | Ok binVal =>
          let! f := append f
            (mkLogEntry 0 ts r MsgSet key EmptyString (Some binVal) fzero (Milliseconds ttl)) in
          Ret (f, Observe LSet RUnit)
      end
  | _ => Ret (f, p)
  end.

(** [Delete] *)
Definition delete_step f (p : pc) (r : Z) : go (Capacitor O * pc) :=
  match p with
  | DelNow key => let '(ts, f) := tick f r in Ret (f, DelStore key ts)
  | DelStore key ts => Ret (with_store (store_delete (cstore f) key ts) f, DelAppend key ts)
  | DelAppend key ts =>
      let! f := append f (mkLogEntry 0 ts r MsgDelete key EmptyString None fzero 0) in
      Ret (f, Observe LSet RUnit)
  | _ => Ret (f, p)
  end.

(** [IncrementBy] *)
Definition incr_step f (p : pc) (r : Z) : go (Capacitor O * pc) :=
  match p with
  | IncrStore key delta =>
      let '(val, s) := increment (cstore f) key (nodeID f) (float64_of_Z delta) in
      Ret (with_store s f, IncrRead key val)
  | IncrRead key val => Ret (f, IncrNow key val (getNodeCount (cstore f) key (nodeID f)))
  | IncrNow key val nodeVal => let '(ts, f) := tick f r in Ret (f, IncrAppend key val nodeVal ts)
  | IncrAppend key val nodeVal ts =>
      let! f := append f (mkLogEntry 0 ts r MsgIncr key (nodeID f) None nodeVal 0) in
      Ret (f, Observe LIncr (RInt (int64_of_float val)))
  | _ => Ret (f, p)
  end.

(** [IncrementMetric] *)
Definition metric_step f (p : pc) (r : Z) : go (Capacitor O * pc) :=
  match p with
  | MetStore key delta =>
      let '(m, s) := incrementMetric (cstore f) key (nodeID f) delta in
      Ret (with_store s f, MetNow key delta m)
  | MetNow key delta m => let '(ts, f) := tick f r in Ret (f, MetAppend key delta m ts)
  | MetAppend key delta m ts =>
      let! f := append f (mkLogEntry 0 ts 0 MsgMetric key (nodeID f) None delta 0) in
      Ret (f, Finished (RMetric m))
  | _ => Ret (f, p)
  end.

(** [IncrementSlidingWindow] *)
Definition window_step f (p : pc) (r : Z) : go (Capacitor O * pc) :=
  match p with
  | WinNow key window => let '(ts, f) := tick f r in Ret (f, WinStore key window ts)
  | WinStore key window ts =>
      let '(count, s) := incrementSlidingWindow (cstore f) key (Physical ts) window r in
      Ret (with_store s f, WinAppend key count ts)
  | WinAppend key count ts =>
      let! f := append f (mkLogEntry 0 ts 0 MsgWindow key (nodeID f) None fzero 0) in
      Ret (f, Finished (RInt count))
  | _ => Ret (f, p)
  end.

(** [applyRemoteEntry] *)
Definition remote_step f (p : pc) (r : Z) : go (Capacitor O * pc) :=
  match p with
  | RemRecord e =>
      Ret (if 0 <? BornAt e
           then with_metrics (record_lat LReplicate (time_since r (BornAt e)) (metrics f)) f
           else f, RemUpdate e)
  | RemUpdate e =>
      match Update (hlc f) r (TS e) with
      | ((_, Some _), h) => Ret (with_hlc h f, Finished RUnit)
      | ((_, None), h) => Ret (with_hlc h f, RemStore e)
      end
  | RemStore e => Ret (with_store (apply_op (cstore f) e) f, RemSeq e)
  | RemSeq e => Ret (with_store (updatePeerSeq (cstore f) (NodeID e) (Seq e)) f, Finished RUnit)
  | _ => Ret (f, p)
  end.

(** One step of a goroutine. *)
Definition pc_step f (p : pc) (r : Z) : go (Capacitor O * pc) :=
  match p with
  | SetNow _ _ _ | SetStore _ _ _ _ | SetAppend _ _ _ _ => set_step f p r
  | DelNow _ | DelStore _ _ | DelAppend _ _ => delete_step f p r
  | IncrStore _ _ | IncrRead _ _ | IncrNow _ _ _ | IncrAppend _ _ _ _ => incr_step f p r
  | MetStore _ _ | MetNow _ _ _ | MetAppend _ _ _ _ => metric_step f p r
  | WinNow _ _ | WinStore _ _ _ | WinAppend _ _ _ => window_step f p r
  | RemRecord _ | RemUpdate _ | RemStore _ | RemSeq _ => remote_step f p r
  | Observe k res => Ret (observe k r f, Finished res)
  | Finished res => Ret (f, Finished res)
  end.

(** The scheduler picks goroutine [i] and the reading [r] its step gets. *)
Definition sched_step (st : Capacitor O * list pc) (ir : nat * Z) : go (Capacitor O * list pc) :=
  match st.2 !! ir.1 with
  | None => Ret st
  | Some p => let! (f, p') := pc_step st.1 p ir.2 in Ret (f, <[ir.1 := p']> st.2)
  end.

Fixpoint sched_run (st : Capacitor O * list pc) (sch : list (nat * Z)) : go (Capacitor O * list pc) :=
  match sch with
  | [] => Ret st
  | ir :: sch => let! st := sched_step st ir in sched_run st sch
  end.

(** ** A goroutine that is not interrupted *)

Fixpoint run_alone f (p : pc) (rs : list Z) : go (Capacitor O * pc) :=
  match rs with
  | [] => Ret (f, p)
  | r :: rs => let! (f, p) := pc_step f p r in run_alone f p rs
  end.

(** The operations as goroutines. *)
Inductive op_call :=
| CSet (key : string) (value : any O) (ttl : Z)
| CDelete (key : string)
| CIncrementBy (key : string) (delta : Z)
| CIncrementMetric (key : string) (delta : float64)
| CIncrementSlidingWindow (key : string) (window : Z)
| CApplyRemote (e : LogEntry).

Definition start (c : op_call) : pc :=
  match c with
  | CSet key value ttl => SetNow key value ttl
  | CDelete key => DelNow key
  | CIncrementBy key delta => IncrStore key delta
  | CIncrementMetric key delta => MetStore key delta
  | CIncrementSlidingWindow key window => WinNow key window
  | CApplyRemote e => RemRecord e
  end.

(** The operation of [Node], with its three readings in the order the code
    takes them. *)
Definition call f (c : op_call) (r1 r2 r3 : Z) : go (Capacitor O * ret) :=
  match c with
  | CSet key value ttl =>
      let! (err, f) := cp_Set f key value ttl r1 r2 r3 in
      Ret (f, match err with Some e => RErr e | None => RUnit end)
  | CDelete key => let! f := cp_Delete f key r1 r2 r3 in Ret (f, RUnit)
  | CIncrementBy key delta => let! (v, f) := IncrementBy f key delta r1 r2 r3 in Ret (f, RInt v)
  | CIncrementMetric key delta => let! (m, f) := cp_IncrementMetric f key delta r1 in Ret (f, RMetric m)
  | CIncrementSlidingWindow key window =>
      let! (v, f) := IncrementSlidingWindow f key window r1 r2 in Ret (f, RInt v)
  | CApplyRemote e => Ret (applyRemoteEntry f e r1 r2, RUnit)
  end.

(** The readings at the steps that use one. *)
Definition readings (c : op_call) (r1 r2 r3 : Z) : list Z :=
  match c with
  | CSet _ _ _ | CDelete _ => [r1; 0; r2; r3]
  | CIncrementBy _ _ => [0; 0; r1; r2; r3]
  | CIncrementMetric _ _ => [0; r1; 0]
  | CIncrementSlidingWindow _ _ => [r1; r2; 0]
  | CApplyRemote _ => [r1; r2; 0; 0]
  end.
End threads.

(** A goroutine that is not interrupted runs its call: the lock-level steps
    of an operation, taken one after the other with the readings the code takes,
    leave the node the whole operation leaves and finish with its result; a
    panic of one is a panic of the other.  So the interleavings of steps include
    every sequence of whole operations. *)
Lemma uninterrupted_goroutine_runs_call {O T} {M : Msgpack O T} {W : Wire} (f : Capacitor O) c r1 r2 r3 :
  run_alone f (start c) (readings c r1 r2 r3)
  = (let! (f', res) := call f c r1 r2 r3 in Ret (f', Finished res)).
Proof.
  destruct c as [key v ttl|key|key d|key d|key w|e]; cbn [start readings run_alone pc_step set_step delete_step incr_step metric_step window_step remote_step call].
  - unfold cp_Set. destruct (tick f r1). cbn [go_bind run_alone pc_step set_step delete_step incr_step metric_step window_step remote_step]. destruct (Marshal v); [|done].
    by destruct (append _ _).
  - unfold cp_Delete. destruct (tick f r1). cbn [go_bind run_alone pc_step set_step delete_step incr_step metric_step window_step remote_step]. by destruct (append _ _).
  - unfold IncrementBy. destruct (increment _ _ _ _). cbn [go_bind run_alone pc_step set_step delete_step incr_step metric_step window_step remote_step].
    destruct (tick _ r1). cbn [go_bind run_alone pc_step set_step delete_step incr_step metric_step window_step remote_step]. by destruct (append _ _).
  - unfold cp_IncrementMetric. destruct (incrementMetric _ _ _ _). cbn [go_bind run_alone pc_step set_step delete_step incr_step metric_step window_step remote_step].
    destruct (tick _ r1). cbn [go_bind run_alone pc_step set_step delete_step incr_step metric_step window_step remote_step]. by destruct (append _ _).
  - unfold IncrementSlidingWindow. destruct (tick f r1). cbn [go_bind run_alone pc_step set_step delete_step incr_step metric_step window_step remote_step].
    destruct (incrementSlidingWindow _ _ _ _ _). cbn [go_bind run_alone pc_step set_step delete_step incr_step metric_step window_step remote_step]. by destruct (append _ _).
  - unfold applyRemoteEntry. cbn [go_bind run_alone pc_step set_step delete_step incr_step metric_step window_step remote_step].
    set (f1 := if 0 <? BornAt e then _ else _). by destruct (Update (hlc f1) r2 (TS e)) as [[? [|]] ?].
Qed.
