(* ===== verification/Typed.v ===== *)
(** * The state holds values of its Go types

    The model keeps machine integers as [Z] and floats as [spec_float].  Here
    every field of the store and of the clock is shown to stay within its Go
    type, whatever the operations, the schedule and the clock readings: no
    bound on the number of operations, on the logical clock or on the size of
    the counters is assumed. *)

From S2P Require Import Prelude Float64 FloatValid Hlc Types Msgp Codec DeltaLog Store StoreProofs Metrics Client Node Threads.

#[local] Open Scope Z_scope.
#[local] Open Scope go_scope.

Create HintDb typed.

Definition ts_typed (t : Timestamp) : Prop := is_int64 (Physical t) /\ is_int32 (Logical t).

Definition clock_typed (h : HLC) : Prop := is_int64 (physical h) /\ is_int32 (logical h).

Lemma is_int32_0 : is_int32 0.
Proof. unfold is_int32. lia. Qed.
Lemma is_int64_0 : is_int64 0.
Proof. unfold is_int64. lia. Qed.

Lemma Now_typed h wall ts h' :
  clock_typed h -> is_int64 wall -> Now h wall = (ts, h') -> ts_typed ts /\ clock_typed h'.
Proof.
  intros [Hp Hl] Hw. unfold Now. intros [= <- <-]. unfold ts_typed, clock_typed.
  case_ifs; simpl; auto using int32_range, is_int32_0.
Qed.

Lemma Update_typed h wall ts : clock_typed h -> is_int64 wall -> ts_typed ts -> clock_typed (Update h wall ts).2.
Proof.
  intros [Hp Hl] Hw [Htp Htl]. unfold Update, clock_typed. case_ifs; simpl; auto using int32_range, is_int32_0.
Qed.

(** ** The store *)

Section store.
Context {O : Type}.
Implicit Types (s : store O) (sh : storeShard O).

Definition val_typed (v : valWithTS O) : Prop := ts_typed (v_Timestamp v) /\ is_int64 (v_ExpiresAt v).

Record shard_typed sh : Prop := {
  st_cache : map_Forall (fun _ => val_typed) (cache sh);
  st_counts : map_Forall (fun _ => is_float64) (counts sh);
  st_aggregate : map_Forall (fun _ => is_float64) (aggregateCounts sh);
  st_windows : map_Forall (fun _ => Forall is_int64) (windows sh);
  st_seqs : map_Forall (fun _ => is_uint64) (peerSeqs sh)
}.

Definition store_typed s : Prop := Forall shard_typed (shards s).

Lemma empty_store_typed : store_typed empty_store.
Proof. apply Forall_replicate. split; apply map_Forall_empty. Qed.

Lemma getShard_typed s key : store_typed s -> shard_typed (getShard s key).
Proof.
  intros Hs. unfold getShard. destruct (shards s !! shard_of key) as [sh|] eqn:E; simpl.
  - by eapply Forall_lookup_1 in E.
  - split; apply map_Forall_empty.
Qed.

Lemma putShard_typed s key sh : store_typed s -> shard_typed sh -> store_typed (putShard s key sh).
Proof. intros. by apply Forall_insert. Qed.

Lemma mark_dirty_typed key sh : shard_typed sh -> shard_typed (mark_dirty key sh).
Proof. by intros []. Qed.

Lemma with_cache_typed g sh :
  shard_typed sh -> map_Forall (fun _ => val_typed) (g (cache sh)) -> shard_typed (with_cache g sh).
Proof. by intros []. Qed.
Lemma with_counts_typed g sh :
  shard_typed sh -> map_Forall (fun _ => is_float64) (g (counts sh)) -> shard_typed (with_counts g sh).
Proof. by intros []. Qed.
Lemma with_aggregate_typed g sh :
  shard_typed sh -> map_Forall (fun _ => is_float64) (g (aggregateCounts sh)) -> shard_typed (with_aggregate g sh).
Proof. by intros []. Qed.
Lemma with_windows_typed g sh :
  shard_typed sh -> map_Forall (fun _ => Forall is_int64) (g (windows sh)) -> shard_typed (with_windows g sh).
Proof. by intros []. Qed.
Lemma with_peerSeqs_typed g sh :
  shard_typed sh -> map_Forall (fun _ => is_uint64) (g (peerSeqs sh)) -> shard_typed (with_peerSeqs g sh).
Proof. by intros []. Qed.

Lemma insert_typed {A} (P : A -> Prop) (m : gmap string A) k v :
  map_Forall (fun _ => P) m -> P v -> map_Forall (fun _ => P) (<[k := v]> m).
Proof. intros. by apply map_Forall_insert_2. Qed.

Lemma fget_typed m k : map_Forall (fun _ => is_float64) m -> is_float64 (fget m k).
Proof. intros Hm. unfold fget. destruct (m !! k) eqn:E; simpl; [by eapply Hm|done]. Qed.

Lemma fincr_typed k d m :
  map_Forall (fun _ => is_float64) m -> is_float64 d -> map_Forall (fun _ => is_float64) (fincr k d m).
Proof. intros Hm Hd. apply map_Forall_insert_2; [|done]. apply fadd_valid; [by apply fget_typed|done]. Qed.

Lemma window_typed s key : store_typed s -> Forall is_int64 (default [] (windows (getShard s key) !! key)).
Proof.
  intros Hs%(getShard_typed s key). destruct (windows (getShard s key) !! key) eqn:E; simpl; [|constructor].
  by eapply (st_windows _ Hs).
Qed.

#[local] Hint Resolve putShard_typed mark_dirty_typed getShard_typed with_cache_typed with_counts_typed
  with_aggregate_typed with_windows_typed with_peerSeqs_typed fget_typed fincr_typed insert_typed
  st_cache st_counts st_aggregate st_windows st_seqs window_typed : typed.
#[local] Hint Resolve is_int64_0 int64_range float64_of_Z_valid fadd_valid fsub_valid int64_of_float_range : typed.

Lemma store_set_typed s key v ts ttl : store_typed s -> ts_typed ts -> store_typed (store_set s key v ts ttl).
Proof.
  intros Hs Ht. unfold store_set. case_ifs; [done| |]; apply putShard_typed; auto 6 with typed;
    apply mark_dirty_typed, with_cache_typed; auto with typed; apply insert_typed; auto with typed; split; simpl; auto with typed.
Qed.

Lemma store_delete_typed s key ts : store_typed s -> ts_typed ts -> store_typed (store_delete s key ts).
Proof.
  intros Hs Ht. unfold store_delete. case_ifs; [done|]. apply putShard_typed; auto with typed.
  apply mark_dirty_typed, with_cache_typed; auto with typed. apply insert_typed; auto with typed.
  split; simpl; auto with typed.
Qed.

Lemma increment_typed s key n d :
  store_typed s -> is_float64 d -> is_float64 (increment s key n d).1 /\ store_typed (increment s key n d).2.
Proof.
  intros Hs Hd. pose proof (getShard_typed s key Hs) as Hsh. unfold increment. cbn [fst snd]. split.
  - apply fget_typed, st_aggregate, mark_dirty_typed. auto 10 with typed.
  - apply putShard_typed; auto 12 with typed.
Qed.

Lemma setNodeCount_typed s key n v : store_typed s -> is_float64 v -> store_typed (setNodeCount s key n v).
Proof.
  intros Hs Hv. pose proof (getShard_typed s key Hs) as Hsh. unfold setNodeCount. case_ifs; [|done].
  apply putShard_typed; auto 12 with typed.
Qed.

Lemma metric_of_typed sh key : shard_typed sh -> is_int64 (Count (metric_of sh key)) /\ is_float64 (Sum (metric_of sh key)).
Proof. intros Hsh. split; simpl; auto with typed. Qed.

Lemma incrementMetric_typed s key n d :
  store_typed s -> is_float64 d ->
  (is_int64 (Count (incrementMetric s key n d).1) /\ is_float64 (Sum (incrementMetric s key n d).1)) /\
  store_typed (incrementMetric s key n d).2.
Proof.
  intros Hs Hd. pose proof (getShard_typed s key Hs) as Hsh. unfold incrementMetric. cbn [fst snd].
  split; [apply metric_of_typed|apply putShard_typed; [done|]];
    apply mark_dirty_typed, with_aggregate_typed; auto 20 with typed.
Qed.

Lemma count_window_typed h w : is_int64 (count_window h w).1.
Proof.
  unfold count_window. assert (H : is_int64 (0, 0%nat).1) by (unfold is_int64; simpl; lia). revert H.
  generalize (0, 0%nat). induction w as [|t w IH]; intros [c i] H; simpl; [done|]. case_ifs; apply IH; simpl; auto with typed.
Qed.

Lemma incrementSlidingWindow_typed s key ts w now :
  store_typed s -> is_int64 ts ->
  is_int64 (incrementSlidingWindow s key ts w now).1 /\ store_typed (incrementSlidingWindow s key ts w now).2.
Proof.
  intros Hs Ht. pose proof (window_typed s key Hs) as Hw. pose proof (getShard_typed s key Hs) as Hsh.
  unfold incrementSlidingWindow.
  assert (Hw' : Forall is_int64 (default [] (windows (getShard s key) !! key) ++ [ts])) by (apply Forall_app; by rewrite Forall_singleton).
  pose proof (count_window_typed (int64 (now - w)) (default [] (windows (getShard s key) !! key) ++ [ts])) as Hc.
  destruct (count_window _ _) as [c i]. cbn [fst snd] in *. split; [done|].
  apply putShard_typed, mark_dirty_typed, with_windows_typed; auto.
  case_decide; [by apply map_Forall_delete, st_windows|]. apply insert_typed; [auto with typed|]. case_ifs; [by apply Forall_drop|done].
Qed.

Lemma addWindowTimestamp_typed s key ts : store_typed s -> is_int64 ts -> store_typed (addWindowTimestamp s key ts).
Proof.
  intros Hs Ht. pose proof (window_typed s key Hs) as Hw. unfold addWindowTimestamp.
  destruct (window_index _ _) as [i|]; [|done]. apply putShard_typed, mark_dirty_typed, with_windows_typed; auto with typed.
  apply insert_typed; auto with typed. rewrite !Forall_app, Forall_singleton.
  split_and!; [by apply Forall_take|done|by apply Forall_drop].
Qed.

Lemma updatePeerSeq_typed s n q : store_typed s -> is_uint64 q -> store_typed (updatePeerSeq s n q).
Proof.
  intros Hs Hq. pose proof (getShard_typed s (seqKey n) Hs) as Hsh. unfold updatePeerSeq. case_ifs; [|done].
  apply putShard_typed; auto 12 with typed.
Qed.

Lemma getPeerSeq_typed s n : store_typed s -> is_uint64 (getPeerSeq s n).
Proof.
  intros Hs%(getShard_typed s (seqKey n)). unfold getPeerSeq. destruct (_ !! n) eqn:E; simpl; [|unfold is_uint64; lia].
  by eapply (st_seqs _ Hs).
Qed.

Lemma getNodeCount_typed s key n : store_typed s -> is_float64 (getNodeCount s key n).
Proof. intros Hs. apply fget_typed, st_counts. auto with typed. Qed.
End store.

(** ** The node and its goroutines *)

Section node.
Context {O T : Type} {M : Msgpack O T} {W : Wire}.
Implicit Types (f : Capacitor O) (p : pc (O := O)).

Record node_typed f : Prop := {
  nt_store : store_typed (cstore f);
  nt_clock : clock_typed (hlc f)
}.

Definition ret_typed (r : ret) : Prop :=
  match r with
  | RInt z => is_int64 z
  | RMetric m => is_int64 (Count m) /\ is_float64 (Sum m)
  | RUnit | RErr _ => True
  end.

(** The local variables of a goroutine. *)
Definition pc_typed p : Prop :=
  match p with
  | SetNow _ _ ttl => is_int64 ttl
  | SetStore _ _ ttl ts | SetAppend _ _ ttl ts => is_int64 ttl /\ ts_typed ts
  | DelNow _ => True
  | DelStore _ ts | DelAppend _ ts => ts_typed ts
  | IncrStore _ d => is_int64 d
  | IncrRead _ val => is_float64 val
  | IncrNow _ val x => is_float64 val /\ is_float64 x
  | IncrAppend _ val x ts => is_float64 val /\ is_float64 x /\ ts_typed ts
  | MetStore _ d => is_float64 d
  | MetNow _ d m => is_float64 d /\ ret_typed (RMetric m)
  | MetAppend _ d m ts => is_float64 d /\ ret_typed (RMetric m) /\ ts_typed ts
  | WinNow _ w => is_int64 w
  | WinStore _ w ts => is_int64 w /\ ts_typed ts
  | WinAppend _ c ts => is_int64 c /\ ts_typed ts
  | RemRecord e | RemUpdate e | RemStore e | RemSeq e => LogEntry_ok e
  | Observe _ r | Finished r => ret_typed r
  end.

Definition call_typed (c : op_call) : Prop := pc_typed (start c).

Lemma entry_ts_typed e : LogEntry_ok e -> ts_typed (TS e).
Proof. intros []. by split. Qed.

Lemma apply_op_typed s e : store_typed (O := O) s -> LogEntry_ok e -> store_typed (apply_op s e).
Proof.
  intros Hs He. pose proof (entry_ts_typed e He) as Ht. destruct He. unfold apply_op.
  case_ifs; auto using store_set_typed, store_delete_typed, setNodeCount_typed, addWindowTimestamp_typed.
  by apply incrementMetric_typed.
Qed.

Lemma append_typed f e f' : append f e = Ret f' -> node_typed f -> node_typed f'.
Proof. unfold append. destruct (log_Append _ _) as [[q l]|]; [|done]. intros [= <-] []. by split. Qed.

Lemma tick_typed f r ts f' : tick f r = (ts, f') -> node_typed f -> is_int64 r -> ts_typed ts /\ node_typed f'.
Proof.
  unfold tick. destruct (Now (hlc f) r) as [ts0 h] eqn:E. intros [= <- <-] [Hs Hc] Hr.
  destruct (Now_typed _ _ _ _ Hc Hr E). by split.
Qed.

Lemma observe_typed k r f : node_typed f -> node_typed (observe k r f).
Proof. intros []. unfold observe. case_ifs; by split. Qed.

Lemma with_store_typed f s : node_typed f -> store_typed s -> node_typed (with_store s f).
Proof. intros []. by split. Qed.

(** One step of a goroutine. *)
Lemma pc_step_typed f p r f' p' :
  pc_step f p r = Ret (f', p') -> node_typed f -> pc_typed p -> is_int64 r -> node_typed f' /\ pc_typed p'.
Proof.
  intros Hst Hf Hp Hr. pose proof Hf as [Hs Hc].
  destruct p; cbn [pc_step set_step delete_step incr_step metric_step window_step remote_step] in Hst; cbn [pc_typed] in Hp;
    repeat match type of Hst with
    | context [tick f r] => destruct (tick f r) as [ts' f1] eqn:Et; destruct (tick_typed _ _ _ _ Et Hf Hr) as [Hts Hf1]
    | context [append f ?e] => destruct (append f e) as [f1|] eqn:Ea; [pose proof (append_typed _ _ _ Ea Hf)|done]
    | context [Marshal ?v] => destruct (Marshal v)
    | context [increment ?s ?k ?n ?d] =>
        pose proof (increment_typed s k n d Hs (float64_of_Z_valid _)) as [? ?]; destruct (increment s k n d)
    | context [incrementMetric ?s ?k ?n ?d] =>
        pose proof (incrementMetric_typed s k n d Hs Hp) as [? ?]; destruct (incrementMetric s k n d)
    | context [incrementSlidingWindow ?s ?k ?a ?b ?c] =>
        pose proof (incrementSlidingWindow_typed s k a b c Hs (proj1 (proj2 Hp))) as [? ?];
        destruct (incrementSlidingWindow s k a b c)
    end; cbn [go_bind] in Hst; try (injection Hst as <- <-); try done; try (split; [|by simpl; tauto]);
    try (apply with_store_typed; [done|]); try done.
  - destruct Hp. by apply store_set_typed.
  - by apply store_delete_typed.
  - split; [done|]. simpl. split; [done|]. by apply getNodeCount_typed.
  - split; [done|]. simpl. apply int64_of_float_range.
  - destruct Hp as [? ?]. by split_and!.
  - destruct Hp as (? & ? & ?). by split.
  - by case_ifs.
  - pose proof (Update_typed (hlc f) r (TS e) Hc Hr (entry_ts_typed e Hp)) as Hu.
    destruct (Update (hlc f) r (TS e)) as [[? [|]] h]; injection Hst as <- <-; (split; [by split|done]).
  - by apply apply_op_typed.
  - apply updatePeerSeq_typed; [done|]. apply Hp.
  - by apply observe_typed.
Qed.

(** Any schedule. *)
Lemma sched_step_typed f pcs ir f' pcs' :
  sched_step (f, pcs) ir = Ret (f', pcs') -> node_typed f -> Forall pc_typed pcs -> is_int64 ir.2 ->
  node_typed f' /\ Forall pc_typed pcs'.
Proof.
  unfold sched_step. cbn [fst snd]. intros Hst Hf Hp Hr. destruct (pcs !! ir.1) as [p|] eqn:Ei; [|by simplify_eq].
  destruct (pc_step f p ir.2) as [[f1 p1]|] eqn:E; [|done]. injection Hst as <- <-.
  destruct (pc_step_typed _ _ _ _ _ E Hf (Forall_lookup_1 _ _ _ _ Hp Ei) Hr). split; [done|]. by apply Forall_insert.
Qed.

Lemma sched_run_typed sch f pcs f' pcs' :
  sched_run (f, pcs) sch = Ret (f', pcs') -> node_typed f -> Forall pc_typed pcs ->
  Forall (fun ir => is_int64 ir.2) sch -> node_typed f' /\ Forall pc_typed pcs'.
Proof.
  intros Hrun Hf Hp Hsch. revert f pcs Hrun Hf Hp. induction Hsch as [|ir sch Hr _ IH]; intros f pcs Hrun Hf Hp.
  { by injection Hrun as <- <-. }
  cbn [sched_run] in Hrun. destruct (sched_step (f, pcs) ir) as [[f1 pcs1]|] eqn:E; [|done].
  destruct (sched_step_typed _ _ _ _ _ E Hf Hp Hr). by apply (IH f1 pcs1).
Qed.
End node.
