(* ===== verification/Concurrent.v ===== *)
(** * Concurrent operations on a node

    Any number of goroutines run local operations and apply remote entries on
    one node, interleaved by any schedule.  The store is updated in one order
    and the log in another; the invariants below relate both to the pending
    goroutines, and when all have finished a replica that receives the log (and
    the same remote entries) in any order has the node's registers and
    counters. *)

From S2P Require Import Prelude Float64 Hlc Types Msgp Codec CodecProofs DeltaLog.
From S2P Require Import Store StoreProofs Counters Windows Metrics Client Node NodeProofs Convergence Threads Typed.

#[local] Open Scope Z_scope.
#[local] Open Scope go_scope.

(** ** Lists up to permutation *)

Lemma lookup_perm {A} (l : list A) i x :
  l !! i = Some x -> exists rest, l ≡ₚ x :: rest /\ forall y, <[i := y]> l ≡ₚ y :: rest.
Proof.
  intros Hi. exists (take i l ++ drop (S i) l). split.
  - rewrite <- (take_drop_middle l i x Hi) at 1. symmetry. apply Permutation_middle.
  - intros y. rewrite insert_take_drop by (by eapply lookup_lt_Some). symmetry. apply Permutation_middle.
Qed.

Lemma zsum_perm {A} (g : A -> Z) l k : l ≡ₚ k -> zsum g l = zsum g k.
Proof. induction 1; simpl; lia. Qed.

Lemma omap_snoc {A B} (g : A -> option B) l x : omap g (l ++ [x]) = omap g l ++ option_list (g x).
Proof. rewrite omap_app. simpl. by destruct (g x). Qed.

Lemma omap_cons' {A B} (g : A -> option B) l x : omap g (x :: l) = option_list (g x) ++ omap g l.
Proof. simpl. by destruct (g x). Qed.

(** The count a merged counter holds for a node. *)
Lemma cget_foldl m us n :
  cget m n <= cget (foldl cmerge m us) n /\ (forall v, (n, v) ∈ us -> v <= cget (foldl cmerge m us) n) /\
  (cget (foldl cmerge m us) n = cget m n \/ (n, cget (foldl cmerge m us) n) ∈ us).
Proof.
  destruct (foldl_cmerge_lookup us m n) as [[E H]|(x & E & H1 & H2 & H3)].
  - assert (cget (foldl cmerge m us) n = cget m n) as -> by (unfold cget; by rewrite E). split_and!; [lia|done|by left].
  - assert (cget (foldl cmerge m us) n = x) as -> by (unfold cget; by rewrite E). split_and!; [lia|done|by right].
Qed.

(** Counts equal to zero do not matter. *)
Lemma csum_nonzero m : csum (filter (fun kv => kv.2 <> 0) m) = csum m.
Proof.
  induction m as [|n v m Hn IH] using map_ind; [done|]. rewrite csum_insert_new by done.
  destruct (decide (v = 0)) as [->|Hv].
  - rewrite map_filter_insert_False by (simpl; tauto). by rewrite delete_id, IH by done.
  - rewrite map_filter_insert_True by done. rewrite csum_insert_new; [by rewrite IH|].
    apply map_lookup_filter_None. by left.
Qed.

Lemma csum_ext m m' : (forall n, cget m n = cget m' n) -> csum m = csum m'.
Proof.
  intros H. rewrite <- (csum_nonzero m), <- (csum_nonzero m'). f_equal. apply map_eq. intros n. specialize (H n).
  unfold cget in H. rewrite !map_lookup_filter.
  destruct (m !! n) as [a|], (m' !! n) as [b|]; simpl in *; subst; try done;
    case_guard; simpl; try done; try (case_guard; simpl; done); lia.
Qed.

(** A write acts on registers only. *)
Lemma do_write_reg_ext {O} (s s' : store O) w k :
  store_wf s -> store_wf s' -> (forall k, reg s k = reg s' k) -> reg (do_write s w) k = reg (do_write s' w) k.
Proof.
  intros Hs Hs' He. destruct (decide (k = w_key w)) as [->|Hne].
  - rewrite !reg_do_write_same by done. by rewrite He.
  - rewrite !reg_do_write_other by done. apply He.
Qed.

Lemma Milliseconds_range d : is_int64 d -> is_int64 (Milliseconds d).
Proof.
  unfold is_int64, Milliseconds, Millisecond. intros H.
  pose proof (Z.quot_rem' d 1000000). pose proof (Z.rem_bound_abs d 1000000 ltac:(lia)).
  pose proof (Z.rem_sign_nz d 1000000). lia.
Qed.

(** A time that is not after [P]. *)
Definition no_later (P x : Z) : Prop := is_int64 x /\ x <= P.

(** What a log entry says was called: operation, key, value and TTL, and the
    sample of a metric. *)
Definition label : Type := Z * string * option bytes * Z * option float64.

Definition entry_label (e : LogEntry) : label :=
  (Op e, Key e, Value e, TTL e, if Op e =? MsgMetric then Some (Delta e) else None).

Section concurrent.
Context {O T : Type} {M : Msgpack O T} {W : Wire} {WL : WireLaws W}.
(** The node before the run, the encoded entries of its log, the size of a log
    slot, bounds on the logical clock, on the number of log entries and on all
    clock readings, and the entries the local calls are to log. *)
Variables (f0 : Capacitor O) (hs0 : list bytes) (S L0 Lmax N P : Z) (K : list label).
Hypothesis L0_range : 0 <= L0.
Hypothesis Lmax_range : Lmax < 2147483647.
Hypothesis N_range : N < 9223372036854775806.
Implicit Types (f : Capacitor O) (p : pc (O := O)) (es rs : list LogEntry).

(** ** Goroutines *)

Definition steps_left p : Z :=
  match p with
  | SetNow _ _ _ | DelNow _ | IncrRead _ _ | RemRecord _ => 4
  | SetStore _ _ _ _ | DelStore _ _ | IncrNow _ _ _ | MetStore _ _ | WinNow _ _ | RemUpdate _ => 3
  | SetAppend _ _ _ _ | DelAppend _ _ | IncrAppend _ _ _ _ | MetNow _ _ _ | WinStore _ _ _ | RemStore _ => 2
  | MetAppend _ _ _ _ | WinAppend _ _ _ | RemSeq _ | Observe _ _ => 1
  | IncrStore _ _ => 5
  | Finished _ => 0
  end.

Definition todo (pcs : list pc) : Z := zsum steps_left pcs.

Lemma steps_left_nonneg p : 0 <= steps_left p <= 5.
Proof. destruct p; simpl; lia. Qed.

Lemma todo_nonneg pcs : 0 <= todo pcs.
Proof. induction pcs as [|p pcs IH]; simpl; [done|]. pose proof (steps_left_nonneg p). unfold todo in *. lia. Qed.

(** The entry a goroutine has still to append to the log. *)
Definition pc_label p : option label :=
  match p with
  | SetNow k v ttl | SetStore k v ttl _ | SetAppend k v ttl _ =>
      match Marshal v with Ok b => Some (MsgSet, k, Some b, Milliseconds ttl, None) | Err _ => None end
  | DelNow k | DelStore k _ | DelAppend k _ => Some (MsgDelete, k, None, 0, None)
  | IncrStore k _ | IncrRead k _ | IncrNow k _ _ | IncrAppend k _ _ _ => Some (MsgIncr, k, None, 0, None)
  | MetStore k d | MetNow k d _ | MetAppend k d _ _ => Some (MsgMetric, k, None, 0, Some d)
  | WinNow k _ | WinStore k _ _ | WinAppend k _ _ => Some (MsgWindow, k, None, 0, None)
  | RemRecord _ | RemUpdate _ | RemStore _ | RemSeq _ | Observe _ _ | Finished _ => None
  end.

(** The register write a goroutine is about to make or to log. *)
Definition pc_write p : option (write O) :=
  match p with
  | SetStore k v ttl ts | SetAppend k v ttl ts => Some (WSet k v ts ttl)
  | DelStore k ts | DelAppend k ts => Some (WDelete k ts)
  | _ => None
  end.
(** ... has made and not yet logged. *)
Definition pc_stored p : option (write O) :=
  match p with
  | SetAppend k v ttl ts => Some (WSet k v ts ttl)
  | DelAppend k ts => Some (WDelete k ts)
  | _ => None
  end.

(** An entry that fits a slot of the log, with lengths the wire format can
    express. *)
Definition op_fits (k n : string) (b : bytes) : Prop :=
  LogEntry_Msgsize (mkLogEntry 0 zero_Timestamp 0 0 k n (Some b) fzero 0) <= S /\
  is_uint32 (strlen k) /\ is_uint32 (strlen n) /\ is_uint32 (zlen b).

(** What is asked of the operations: values the encoding preserves, TTLs in
    whole milliseconds, counters without a colon that do not decrease, remote
    entries of other nodes. *)
Definition pc_ok p : Prop :=
  match p with
  | SetNow k v ttl | SetStore k v ttl _ | SetAppend k v ttl _ =>
      exists b, Marshal v = Ok b /\ (Unmarshal_any b).1 = v /\ of_millis (Milliseconds ttl) = ttl /\
        is_int64 ttl /\ op_fits k EmptyString b
  | DelNow k | DelStore k _ | DelAppend k _ => op_fits k EmptyString []
  | IncrStore k d => op_fits k (nodeID f0) [] /\ no_colon k /\ 0 <= d
  | IncrRead k _ | IncrNow k _ _ | IncrAppend k _ _ _ => op_fits k (nodeID f0) [] /\ no_colon k
  | MetStore k d | MetNow k d _ | MetAppend k d _ _ => op_fits k (nodeID f0) [] /\ is_float64 d
  | WinNow k _ | WinStore k _ _ | WinAppend k _ _ => op_fits k (nodeID f0) []
  | RemRecord e | RemUpdate e | RemStore e | RemSeq e =>
      remote_ok (TS e) L0 /\ count_ok e /\ (Op e = MsgIncr -> NodeID e <> nodeID f0) /\ no_later P (Physical (TS e))
  | Observe _ _ | Finished _ => True
  end.

(** ** Clock and log *)

Record base_inv f (pcs : list pc) es : Prop := {
  b_id : nodeID f = nodeID f0;
  b_wf : store_wf (cstore f);
  b_rep : exists L, Rep S (dlog f) (hs0 ++ (marshal <$> es)) L;
  b_cap : capacity (dlog f) = capacity (dlog f0);
  b_len : zlen hs0 + zlen es + todo pcs <= N;
  b_clock : exists Lc, L0 <= Lc /\ logical_ok (hlc f) Lc /\ Lc + todo pcs <= Lmax;
  b_count : (entry_label <$> es) ++ omap pc_label pcs ≡ₚ K;
  b_ok : Forall pc_ok pcs;
  b_rest : client f = client f0 /\ cpeerSeqs f = cpeerSeqs f0 /\ authToken f = authToken f0
}.

Lemma base_perm f pcs pcs' es : pcs ≡ₚ pcs' -> base_inv f pcs es -> base_inv f pcs' es.
Proof.
  intros Hp [H1 H2 H3 H4 H5 H6 Hk H7 H8]. assert (todo pcs' = todo pcs) as E by (symmetry; by apply zsum_perm).
  rewrite Hp in Hk. split; rewrite ?E; auto. by rewrite <- Hp.
Qed.

(** A step that leaves clock and log alone. *)
Lemma base_keep f f' p p' rest es :
  base_inv f (p :: rest) es -> nodeID f' = nodeID f -> dlog f' = dlog f -> hlc f' = hlc f ->
  client f' = client f -> cpeerSeqs f' = cpeerSeqs f -> authToken f' = authToken f ->
  store_wf (cstore f') -> pc_label p' = pc_label p -> steps_left p' <= steps_left p -> pc_ok p' ->
  base_inv f' (p' :: rest) es.
Proof.
  intros [H1 H2 H3 H4 H5 H6 Hk H7 [H8 [H9 H10]]] E1 E2 E3 E4 E5 E6 Hs El Hl Hok. rewrite omap_cons', <- El in Hk. unfold todo in *. simpl in *.
  split; rewrite ?E1, ?E2, ?E3, ?E4, ?E5, ?E6; auto.
  - unfold todo. simpl. lia.
  - destruct H6 as (Lc & ? & ? & ?). exists Lc. unfold todo. simpl. split_and!; [done|done|lia].
  - by rewrite omap_cons'.
  - apply Forall_cons in H7 as [_ ?]. by constructor.
Qed.

(** The clock moves; at most one step of the logical clock. *)
Lemma base_clock f h p p' rest es :
  base_inv f (p :: rest) es -> (forall Lc, L0 <= Lc -> logical_ok (hlc f) Lc -> 0 <= Lc < 2147483647 -> logical_ok h (Lc + 1)) ->
  pc_label p' = pc_label p -> steps_left p' + 1 <= steps_left p -> pc_ok p' -> base_inv (with_hlc h f) (p' :: rest) es.
Proof.
  intros [H1 H2 H3 H4 H5 H6 Hk H7 H8] Hh El Hl Hok. rewrite omap_cons', <- El in Hk. unfold todo in *. simpl in *.
  split; auto; cbn [hlc with_hlc].
  - unfold todo. simpl. lia.
  - destruct H6 as (Lc & ? & ? & ?). exists (Lc + 1). unfold todo. simpl.
    pose proof (steps_left_nonneg p'). pose proof (todo_nonneg rest). unfold todo in *.
    split_and!; [lia|apply Hh; lia || done|lia].
  - by rewrite omap_cons'.
  - apply Forall_cons in H7 as [_ ?]. by constructor.
Qed.

(** An entry as it is appended, with its sequence number. *)
Definition logged es (e : LogEntry) : LogEntry := set_Seq e (zlen hs0 + zlen es + 1).

Lemma base_append f e p p' rest es :
  base_inv f (p :: rest) es -> op_fits (Key e) (NodeID e) (contents (Value e)) ->
  pc_label p = Some (entry_label e) -> pc_label p' = None -> steps_left p' + 1 <= steps_left p -> pc_ok p' ->
  exists l, append f e = Ret (with_log l f) /\ base_inv (with_log l f) (p' :: rest) (es ++ [logged es e]).
Proof.
  intros [H1 H2 (L & H3) H4 H5 H6 Hk H7 H8] He El El' Hl Hok. rewrite omap_cons', El in Hk. unfold todo in *. simpl in *.
  pose proof (steps_left_nonneg p'). pose proof (todo_nonneg rest). unfold todo in *.
  assert (Hz : zlen (hs0 ++ (marshal <$> es)) = zlen hs0 + zlen es) by (unfold zlen; rewrite length_app, length_fmap; lia).
  pose proof (rep_head _ _ _ _ H3) as Hh.
  destruct (Rep_append S (dlog f) _ L e H3) as (l & L' & Ha & HR & Hc & _); [lia| |].
  { destruct He as [He _]. unfold LogEntry_Msgsize in *. simpl in He. exact He. }
  exists l. unfold append. rewrite Ha. split; [done|].
  rewrite Hh, Hz in HR. split; cbn [nodeID cstore dlog with_log client cpeerSeqs authToken hlc]; auto.
  - exists L'. rewrite fmap_app, app_assoc. exact HR.
  - congruence.
  - unfold todo. simpl. rewrite zlen_app. unfold zlen at 3. simpl. lia.
  - destruct H6 as (Lc & ? & ? & ?). exists Lc. unfold todo. simpl. split_and!; [done|done|lia].
  - rewrite omap_cons', El', fmap_app, <- app_assoc. exact Hk.
  - apply Forall_cons in H7 as [_ ?]. by constructor.
Qed.

(** ** Registers *)

(** The writes of the store, in the order they were made, are those logged,
    those about to be logged, and those of the remote entries; the timestamps
    of local writes are distinct and not ahead of the clock. *)
Definition local_writes (pcs : list pc) es : list (write O) := omap entry_write es ++ omap pc_write pcs.

Record reg_inv f (pcs : list pc) es rs : Prop := {
  r_writes : exists ws, (forall k, reg (cstore f) k = reg (run_writes (cstore f0) ws) k) /\
    ws ≡ₚ omap entry_write es ++ omap pc_stored pcs ++ omap entry_write rs;
  r_distinct : NoDup (w_ts <$> local_writes pcs es);
  r_clock w : w ∈ local_writes pcs es -> GreaterOrEqual (ts_of (hlc f)) (w_ts w) = true
}.

Lemma local_writes_perm pcs pcs' es : pcs ≡ₚ pcs' -> local_writes pcs es ≡ₚ local_writes pcs' es.
Proof. intros Hp. unfold local_writes. by rewrite Hp. Qed.

Lemma reg_perm f pcs pcs' es rs : pcs ≡ₚ pcs' -> reg_inv f pcs es rs -> reg_inv f pcs' es rs.
Proof.
  intros Hp [(ws & H1 & H1') H2 H3]. pose proof (local_writes_perm pcs pcs' es Hp) as Hw. split.
  - exists ws. split; [done|]. by rewrite <- Hp.
  - by rewrite <- Hw.
  - intros w. rewrite <- Hw. auto.
Qed.

Lemma reg_keep f f' p p' rest es rs :
  reg_inv f (p :: rest) es rs -> (forall k, reg (cstore f') k = reg (cstore f) k) ->
  GreaterOrEqual (ts_of (hlc f')) (ts_of (hlc f)) = true ->
  pc_write p' = pc_write p -> pc_stored p' = pc_stored p -> reg_inv f' (p' :: rest) es rs.
Proof.
  intros [(ws & H1 & H1') H2 H3] Hr Hc Ew Es.
  assert (local_writes (p' :: rest) es = local_writes (p :: rest) es) as E
    by (unfold local_writes; by rewrite !omap_cons', Ew).
  split; rewrite ?E; [|done|].
  - exists ws. split; [intros k; by rewrite Hr|]. by rewrite omap_cons', Es, <- omap_cons'.
  - intros w Hw. eapply GE_trans; eauto.
Qed.

(** A goroutine reads the clock. *)
Lemma reg_tick f h ts p p' rest es rs :
  reg_inv f (p :: rest) es rs -> After ts (ts_of (hlc f)) = true -> ts_of h = ts ->
  pc_write p = None -> pc_stored p' = pc_stored p -> (forall w, pc_write p' = Some w -> w_ts w = ts) ->
  reg_inv (with_hlc h f) (p' :: rest) es rs.
Proof.
  intros [(ws & H1 & H1') H2 H3] Ha Hts Ew Es Hw.
  assert (Hl : local_writes (p' :: rest) es ≡ₚ option_list (pc_write p') ++ local_writes (p :: rest) es).
  { unfold local_writes. rewrite !omap_cons', Ew. simpl. rewrite !app_assoc. f_equiv. apply Permutation_app_comm. }
  split; rewrite ?Hl; cbn [cstore hlc with_hlc].
  - exists ws. split; [done|]. by rewrite omap_cons', Es, <- omap_cons'.
  - destruct (pc_write p') as [w|]; [|done]. simpl. apply NoDup_cons. split; [|done].
    rewrite (Hw w eq_refl). intros (w' & Ht & Hin)%list_elem_of_fmap. apply H3 in Hin.
    rewrite <- Ht, GreaterOrEqual_After, Ha in Hin. done.
  - intros w. rewrite Hl, elem_of_app, Hts. intros [Hin|Hin].
    + destruct (pc_write p') as [w'|]; [|by apply elem_of_nil in Hin]. apply list_elem_of_singleton in Hin as ->.
      rewrite (Hw w' eq_refl). apply GE_refl.
    + eapply GE_trans; [by apply After_GE|auto].
Qed.

(** A write reaches the store. *)
Lemma reg_write f w p p' rest es rs :
  reg_inv f (p :: rest) es rs -> store_wf (cstore f0) -> store_wf (cstore f) ->
  pc_write p = Some w -> pc_write p' = Some w -> pc_stored p = None -> pc_stored p' = Some w ->
  reg_inv (with_store (do_write (cstore f) w) f) (p' :: rest) es rs.
Proof.
  intros [(ws & H1 & H1') H2 H3] Hw0 Hwf E1 E2 E3 E4.
  assert (local_writes (p' :: rest) es = local_writes (p :: rest) es) as E
    by (unfold local_writes; by rewrite !omap_cons', E1, E2).
  split; rewrite ?E; [|done|done]. cbn [cstore with_store]. exists (ws ++ [w]). split.
  - intros k. unfold run_writes. rewrite foldl_app. simpl. fold (run_writes (cstore f0) ws).
    apply do_write_reg_ext; [done|by apply run_writes_wf|done].
  - rewrite H1', !omap_cons', E3, E4. simpl. rewrite Permutation_app_comm. simpl. by rewrite Permutation_middle.
Qed.

(** A write is logged. *)
Lemma reg_log f f' e p p' rest es rs :
  reg_inv f (p :: rest) es rs -> cstore f' = cstore f -> hlc f' = hlc f ->
  pc_write p = entry_write e -> pc_stored p = entry_write e -> pc_write p' = None -> pc_stored p' = None ->
  reg_inv f' (p' :: rest) (es ++ [e]) rs.
Proof.
  intros [(ws & H1 & H1') H2 H3] Hs Hh E1 E2 E3 E4.
  assert (local_writes (p' :: rest) (es ++ [e]) = local_writes (p :: rest) es) as E
    by (unfold local_writes; by rewrite !omap_cons', omap_snoc, E1, E3, <- app_assoc).
  split; rewrite ?E, ?Hs, ?Hh; [|done|done].
  exists ws. split; [done|]. rewrite H1', !omap_cons', omap_snoc, E2, E4. simpl. by rewrite <- !app_assoc.
Qed.

(** A remote entry reaches the store. *)
Lemma reg_remote f s e p p' rest es rs :
  reg_inv f (p :: rest) es rs -> store_wf (cstore f0) -> store_wf (cstore f) ->
  (forall k, reg s k = reg (write_opt (cstore f) (entry_write e)) k) ->
  pc_write p = None -> pc_write p' = None -> pc_stored p = None -> pc_stored p' = None ->
  reg_inv (with_store s f) (p' :: rest) es (rs ++ [e]).
Proof.
  intros [(ws & H1 & H1') H2 H3] Hw0 Hwf Hr E1 E2 E3 E4.
  assert (local_writes (p' :: rest) es = local_writes (p :: rest) es) as E
    by (unfold local_writes; by rewrite !omap_cons', E1, E2).
  split; rewrite ?E; [|done|done]. cbn [cstore with_store]. exists (ws ++ option_list (entry_write e)). split.
  - intros k. rewrite Hr. destruct (entry_write e) as [w|]; simpl; [|by rewrite app_nil_r].
    unfold run_writes. rewrite foldl_app. simpl. fold (run_writes (cstore f0) ws).
    apply do_write_reg_ext; [done|by apply run_writes_wf|done].
  - rewrite H1', !omap_cons', omap_snoc, E3, E4. simpl. by rewrite <- !app_assoc.
Qed.

(** ** Counters *)

(** The partial counts of each counter before the run, and the count of this
    node its goroutines add up to. *)
Variables (m0 : string -> gmap string Z) (total : string -> Z).

(** By how much a goroutine may still raise the counter [key]. *)
Definition pend (key : string) p : Z :=
  match p with
  | IncrStore k d => if decide (k = key) then d else 0
  | RemRecord e | RemUpdate e | RemStore e => match entry_count key e with Some u => u.2 | None => 0 end
  | _ => 0
  end.

(** By how much a goroutine of this node has still to raise its own count. *)
Definition own (key : string) p : Z :=
  match p with IncrStore k d => if decide (k = key) then d else 0 | _ => 0 end.

(** The counter a goroutine has raised and is about to read, and the value of
    its own partial count it has read and is about to log. *)
Definition pc_reading p : option string := match p with IncrRead k _ => Some k | _ => None end.
Definition pc_read p : option (string * float64) :=
  match p with IncrNow k _ x | IncrAppend k _ x _ => Some (k, x) | _ => None end.

Record cnt_inv_at (key : string) f (pcs : list pc) es rs (m : gmap string Z) : Prop := {
  c_rep : counter_rep (cstore f) key m;
  c_nonneg : nonneg m;
  c_bound : csum m + zsum (pend key) pcs < 2 ^ 53;
  c_other n : n <> nodeID f0 -> cget m n = cget (foldl cmerge (m0 key) (omap (entry_count key) rs)) n;
  c_self : cget (m0 key) (nodeID f0) <= cget m (nodeID f0);
  c_exact : cget m (nodeID f0) + zsum (own key) pcs = total key;
  c_logged n v : (n, v) ∈ omap (entry_count key) es -> n = nodeID f0 /\ v <= cget m (nodeID f0);
  c_read p x : p ∈ pcs -> pc_read p = Some (key, x) -> exists v, x = f_of_int v /\ 0 <= v <= cget m (nodeID f0);
  c_settled : cget m (nodeID f0) = cget (m0 key) (nodeID f0) \/
    (nodeID f0, cget m (nodeID f0)) ∈ omap (entry_count key) es \/
    (exists p, p ∈ pcs /\ pc_reading p = Some key) \/
    (exists p, p ∈ pcs /\ pc_read p = Some (key, f_of_int (cget m (nodeID f0))))
}.

Definition cnt_inv f (pcs : list pc) es rs : Prop :=
  forall key, no_colon key -> exists m, cnt_inv_at key f pcs es rs m.

Lemma cnt_perm f pcs pcs' es rs : pcs ≡ₚ pcs' -> cnt_inv f pcs es rs -> cnt_inv f pcs' es rs.
Proof.
  intros Hp HI key Hk. destruct (HI key Hk) as [m [H1 H2 H3 H4 H5 Hx5 H6 H7 H8]]. exists m. split; auto.
  - by rewrite <- (zsum_perm _ _ _ Hp).
  - by rewrite <- (zsum_perm _ _ _ Hp).
  - intros p x. rewrite <- Hp. apply H7.
  - setoid_rewrite <- Hp. exact H8.
Qed.

Lemma pend_nonneg key p : pc_ok p -> 0 <= pend key p.
Proof.
  assert (He : forall e, count_ok e -> 0 <= match entry_count key e with Some u => u.2 | None => 0 end).
  { intros e He. unfold entry_count. case_decide as Hd; [|done]. destruct Hd as [Ho _].
    destruct (He Ho) as (_ & v & Hv & Hx & Hd). simpl. by rewrite (drop_zero_sign_int64 _ v). }
  destruct p; simpl; try done; try (intros (_ & ? & _); by apply He). intros (_ & _ & ?). case_decide; lia.
Qed.

Lemma zsum_pend_nonneg key pcs : Forall pc_ok pcs -> 0 <= zsum (pend key) pcs.
Proof. induction 1 as [|p pcs Hp _ IH]; simpl; [done|]. pose proof (pend_nonneg key p Hp). lia. Qed.

(** The elements of the list when its head changes. *)
Lemma settled_mono {A} (g : pc -> option A) p p' rest x :
  (g p = Some x -> g p' = Some x) -> (exists q, q ∈ p :: rest /\ g q = Some x) -> exists q, q ∈ p' :: rest /\ g q = Some x.
Proof.
  intros Hg (q & [->|Hq]%elem_of_cons & Hx); [exists p'; split; [constructor|auto]|].
  exists q. split; [by constructor|done].
Qed.

(** A step that does not count. *)
Lemma cnt_keep f f' p p' rest es es' rs :
  cnt_inv f (p :: rest) es rs ->
  (forall key m, no_colon key -> counter_rep (cstore f) key m -> counter_rep (cstore f') key m) ->
  (forall key, pend key p' <= pend key p) -> (forall key, own key p' = own key p) -> pc_reading p' = pc_reading p -> pc_read p' = pc_read p ->
  (forall key, omap (entry_count key) es' = omap (entry_count key) es) ->
  cnt_inv f' (p' :: rest) es' rs.
Proof.
  intros HI Hrep Hp Hw E1 E2 Hes key Hk. destruct (HI key Hk) as [m [H1 H2 H3 H4 H5 Hx5 H6 H7 H8]]. exists m.
  split; rewrite ?Hes; auto.
  - simpl in *. specialize (Hp key). lia.
  - simpl in *. by rewrite Hw.
  - intros q x [->|Hq]%elem_of_cons; [rewrite E2; apply (H7 p); constructor|apply H7; by constructor].
  - destruct H8 as [?|[?|[?|?]]]; [by left|by right; left|right; right; left|right; right; right];
      (eapply settled_mono; [|done]); congruence.
Qed.

(** The increment itself. *)
Lemma cnt_incr f k d val s rest es rs :
  cnt_inv f (IncrStore k d :: rest) es rs -> Forall pc_ok (IncrStore k d :: rest) -> nodeID f = nodeID f0 ->
  increment (cstore f) k (nodeID f) (float64_of_Z d) = (val, s) ->
  cnt_inv (with_store s f) (IncrRead k val :: rest) es rs.
Proof.
  intros HI Hok Hid Einc key Hk. destruct (HI key Hk) as [m [H1 H2 H3 H4 H5 Hx5 H6 H7 H8]].
  apply Forall_cons in Hok as [(_ & Hnk & Hd) Hok]. pose proof (zsum_pend_nonneg key rest Hok) as Hr. simpl in H3.
  destruct (decide (k = key)) as [->|Hne].
  - pose proof (csum_nonneg m H2) as Hs. pose proof (cget_bounds m (nodeID f0) H2) as Hg.
    pose proof (increment_rep (cstore f) key m (nodeID f) d H1) as Hi. rewrite Einc, Hid in Hi.
    destruct Hi as [_ HR]; [unfold exact53; lia..|].
    assert (Hc : cget (cincr m (nodeID f0) d) (nodeID f0) = cget m (nodeID f0) + d)
      by (unfold cincr, cget at 1; by rewrite lookup_insert_eq).
    exists (cincr m (nodeID f0) d). split; rewrite ?Hc; auto.
    + intros n v. unfold cincr. rewrite lookup_insert. case_decide; [|apply H2]. intros [= <-]. lia.
    + unfold cincr. rewrite csum_insert. simpl. lia.
    + intros n Hn. rewrite <- H4 by done. unfold cincr, cget. by rewrite lookup_insert_ne.
    + lia.
    + simpl in Hx5 |- *. rewrite decide_True in Hx5 by done. lia.
    + intros n v Hin. destruct (H6 n v Hin). split; [done|lia].
    + intros p x [->|Hin]%elem_of_cons Hp; [done|]. destruct (H7 p x) as (v & -> & Hv); [by constructor|done|].
      exists v. split; [done|lia].
    + right. right. left. exists (IncrRead key val). split; [constructor|done].
  - exists m. split; auto.
    + cbn [cstore with_store]. unfold increment in Einc. injection Einc as _ <-. by apply other_counter.
    + simpl in Hx5 |- *. by rewrite decide_False in Hx5.
    + intros p x [->|Hin]%elem_of_cons Hp; [done|]. apply (H7 p x); [by constructor|done].
    + destruct H8 as [?|[?|[?|?]]]; [by left|by right; left|right; right; left|right; right; right];
        (eapply settled_mono; [|done]); done.
Qed.

(** The goroutine reads its node's partial count. *)
Lemma cnt_read f k val rest es rs :
  cnt_inv f (IncrRead k val :: rest) es rs -> nodeID f = nodeID f0 ->
  cnt_inv f (IncrNow k val (getNodeCount (cstore f) k (nodeID f)) :: rest) es rs.
Proof.
  intros HI Hid key Hk. destruct (HI key Hk) as [m [H1 H2 H3 H4 H5 Hx5 H6 H7 H8]].
  assert (Hc : k = key -> getNodeCount (cstore f) k (nodeID f) = f_of_int (cget m (nodeID f0)))
    by (intros ->; unfold getNodeCount; by rewrite (node_count _ _ _ _ H1), Hid).
  exists m. split; auto.
  - intros p x [->|Hin]%elem_of_cons Hp; [|apply (H7 p x); [by constructor|done]].
    simpl in Hp. injection Hp as -> <-. rewrite Hc by done. eexists. split; [done|].
    pose proof (cget_bounds m (nodeID f0) H2). lia.
  - destruct H8 as [?|[?|[(q & [->|Hq]%elem_of_cons & Hx)|?]]]; [by left|by right; left|..].
    + right. right. right. eexists. split; [constructor|]. simpl in Hx |- *. injection Hx as ->. by rewrite Hc.
    + right. right. left. exists q. split; [by constructor|done].
    + right. right. right. eapply settled_mono; [|done]. done.
Qed.

(** The partial count is logged. *)
Lemma cnt_log f f' k val x ts e r rest es rs :
  cnt_inv f (IncrAppend k val x ts :: rest) es rs -> Forall pc_ok (IncrAppend k val x ts :: rest) ->
  cstore f' = cstore f -> Op e = MsgIncr -> Key e = k -> NodeID e = nodeID f0 -> Delta e = x ->
  cnt_inv f' (Observe LIncr r :: rest) (es ++ [e]) rs /\ count_ok e.
Proof.
  intros HI Hok Hs Ho Hke Hne Hde. apply Forall_cons in Hok as [[_ Hnk] Hok].
  assert (Hval : forall m, cnt_inv_at k f (IncrAppend k val x ts :: rest) es rs m ->
            exists v, x = f_of_int v /\ 0 <= v <= cget m (nodeID f0) /\ exact53 v).
  { intros m [H1 H2 H3 H4 H5 Hx5 H6 H7 H8]. destruct (H7 (IncrAppend k val x ts) x) as (v & Hx & Hv); [constructor|done|].
    exists v. split_and!; [done|lia|lia|]. pose proof (zsum_pend_nonneg k rest Hok).
    pose proof (cget_bounds m (nodeID f0) H2). simpl in H3. unfold exact53. lia. }
  split.
  - intros key Hk. destruct (HI key Hk) as [m HM]. exists m. pose proof HM as [H1 H2 H3 H4 H5 Hx5 H6 H7 H8].
    assert (Hcount : entry_count key e = if decide (k = key) then Some (nodeID f0, int64_of_float x) else None).
    { unfold entry_count. rewrite Hke, Hne, Hde. destruct (decide (k = key)); [by rewrite decide_True|].
      rewrite decide_False; [done|]. tauto. }
    split; rewrite ?Hs, ?omap_snoc, ?Hcount; auto.
    + intros n v [Hin|Hin]%elem_of_app; [auto|]. destruct (decide (k = key)) as [->|]; [|by apply elem_of_nil in Hin].
      apply list_elem_of_singleton in Hin. injection Hin as -> ->. destruct (Hval m HM) as (v & -> & Hv & Hex).
      rewrite int64_of_float_int by done. split; [done|lia].
    + intros p y [->|Hin]%elem_of_cons Hp; [done|]. apply (H7 p y); [by constructor|done].
    + destruct H8 as [?|[?|[?|(q & [->|Hq]%elem_of_cons & Hx)]]]; [by left|right; left; set_solver|..].
      * right. right. left. eapply settled_mono; [|done]. done.
      * right. left. simpl in Hx. injection Hx as -> ->. rewrite decide_True by done. apply elem_of_app. right.
        apply list_elem_of_singleton. destruct (Hval m HM) as (v & Ev & Hv & Hex).
        assert (exact53 (cget m (nodeID f0))) by apply H1. by rewrite int64_of_float_int.
      * right. right. right. exists q. split; [by constructor|done].
  - intros _. rewrite Hke, Hde. split; [done|]. destruct (HI k Hnk) as [m HM].
    destruct (Hval m HM) as (v & Hx & Hv & Hex). exists v. split_and!; [lia|done|]. rewrite Hx. by apply drop_zero_sign_id.
Qed.

Lemma cget_cmerge m u n : cget (cmerge m u) n = if decide (u.1 = n) then Z.max (cget m n) u.2 else cget m n.
Proof.
  unfold cmerge. destruct u as [n' v]. simpl. destruct (Z.ltb_spec (cget m n') v) as [E|E].
  - unfold cget. rewrite lookup_insert. case_decide as Hd; [|done]. subst. simpl. unfold cget in E. lia.
  - case_decide; [subst; lia|done].
Qed.

Lemma csum_cmerge_le m u : nonneg m -> 0 <= u.2 -> csum (cmerge m u) <= csum m + u.2.
Proof.
  intros Hm Hu. unfold cmerge. case_ifs; [|lia]. rewrite csum_insert. pose proof (cget_bounds m u.1 Hm). lia.
Qed.

(** The count of a remote entry is merged. *)
Lemma cnt_remote f e rest es rs :
  cnt_inv f (RemStore e :: rest) es rs -> Forall pc_ok (RemStore e :: rest) ->
  cnt_inv (with_store (apply_op (cstore f) e) f) (RemSeq e :: rest) es (rs ++ [e]).
Proof.
  intros HI Hok key Hk. destruct (HI key Hk) as [m [H1 H2 H3 H4 H5 Hx5 H6 H7 H8]].
  apply Forall_cons in Hok as [(_ & Hce & Hne & _) Hok]. pose proof (zsum_pend_nonneg key rest Hok) as Hr. simpl in H3.
  pose proof (apply_op_counter (cstore f) e key m H1 H2 Hk Hce) as HR.
  assert (Hread : forall m', cget m' (nodeID f0) = cget m (nodeID f0) ->
    (forall p x, p ∈ RemSeq e :: rest -> pc_read p = Some (key, x) -> exists v, x = f_of_int v /\ 0 <= v <= cget m' (nodeID f0)) /\
    (cget m' (nodeID f0) = cget (m0 key) (nodeID f0) \/ (nodeID f0, cget m' (nodeID f0)) ∈ omap (entry_count key) es \/
     (exists p, p ∈ RemSeq e :: rest /\ pc_reading p = Some key) \/
     (exists p, p ∈ RemSeq e :: rest /\ pc_read p = Some (key, f_of_int (cget m' (nodeID f0)))))).
  { intros m' ->. split.
    - intros p x [->|Hin]%elem_of_cons Hp; [done|]. apply (H7 p x); [by constructor|done].
    - destruct H8 as [?|[?|[?|?]]]; [by left|by right; left|right; right; left|right; right; right];
        (eapply settled_mono; [|done]); done. }
  destruct (entry_count key e) as [u|] eqn:Eu.
  - assert (Hu : 0 <= u.2 /\ u.1 <> nodeID f0).
    { unfold entry_count in Eu. case_decide as Hd; [|done]. destruct Hd as [Ho _]. specialize (Hne Ho).
      destruct (Hce Ho) as (_ & v & Hv & Hx & Hd). rewrite (drop_zero_sign_int64 _ v) in Eu by done. by injection Eu as <-. }
    destruct Hu as [Hu Hun]. assert (Hself : cget (cmerge m u) (nodeID f0) = cget m (nodeID f0))
      by (rewrite cget_cmerge; by rewrite decide_False).
    destruct (Hread (cmerge m u) Hself) as [HA HB].
    exists (cmerge m u). split; rewrite ?Hself; auto.
    + apply HR. intros u' [= <-] Hlt. pose proof (cget_bounds m u.1 H2). unfold exact53. lia.
    + by apply cmerge_nonneg.
    + pose proof (csum_cmerge_le m u H2 Hu). simpl. lia.
    + intros n Hn. rewrite omap_snoc, Eu, foldl_app. simpl. rewrite !cget_cmerge. case_decide; by rewrite H4.
    + intros p x Hp Hx. destruct (HA p x Hp Hx) as (v & ? & ?). exists v. split; [done|lia].
    + rewrite Hself in HB. exact HB.
  - destruct (Hread m eq_refl) as [HA HB].
    exists m. split; auto.
    + by apply HR.
    + intros n Hn. rewrite omap_snoc, Eu, app_nil_r. auto.
Qed.

(** ** Types *)

(** Timestamps and entries hold values of their Go types. *)
Definition pc_ts p : option Timestamp :=
  match p with
  | SetStore _ _ _ ts | SetAppend _ _ _ ts | DelStore _ ts | DelAppend _ ts | IncrAppend _ _ _ ts
  | MetAppend _ _ _ ts | WinStore _ _ ts | WinAppend _ _ ts => Some ts
  | _ => None
  end.

Definition ts_in (t : Timestamp) : Prop := no_later P (Physical t) /\ is_int32 (Logical t).
Definition entry_in (e : LogEntry) : Prop := LogEntry_ok e /\ Physical (TS e) <= P.

Record type_inv f (pcs : list pc) es : Prop := {
  t_hlc : no_later P (physical (hlc f));
  t_pcs p ts : p ∈ pcs -> pc_ts p = Some ts -> ts_in ts;
  t_es : Forall entry_in es
}.

Lemma type_perm f pcs pcs' es : pcs ≡ₚ pcs' -> type_inv f pcs es -> type_inv f pcs' es.
Proof. intros Hp [H1 H2 H3]. split; auto. intros p ts. rewrite <- Hp. apply H2. Qed.

Lemma type_keep f f' p p' rest es :
  type_inv f (p :: rest) es -> no_later P (physical (hlc f')) ->
  (forall ts, pc_ts p' = Some ts -> pc_ts p = Some ts \/ ts_in ts) -> type_inv f' (p' :: rest) es.
Proof.
  intros [H1 H2 H3] Hh Hp. split; auto. intros q ts [->|Hq]%elem_of_cons Hts; [|apply (H2 q); [by constructor|done]].
  destruct (Hp ts Hts); [|done]. apply (H2 p); [constructor|done].
Qed.

Lemma type_log f f' e p p' rest es :
  type_inv f (p :: rest) es -> hlc f' = hlc f -> pc_ts p' = None -> entry_in e ->
  type_inv f' (p' :: rest) (es ++ [e]).
Proof.
  intros HT Hh Hp He. pose proof HT as [H1 _ H3]. rewrite <- Hh in H1.
  destruct (type_keep f f' p p' rest es HT H1) as [? ? _]; [intros ts; by rewrite Hp|].
  split; auto. apply Forall_app. by rewrite Forall_singleton.
Qed.

(** An entry with typed parts. *)
Lemma entry_ok q ts born op k n v d ttl :
  is_uint64 q -> ts_in ts -> is_int64 born -> is_byte op -> op_fits k n (contents v) -> is_float64 d -> is_int64 ttl ->
  entry_in (mkLogEntry q ts born op k n v d ttl).
Proof. intros Hq [[Hp Hle] Hl] Hb Ho (_ & Hk & Hn & Hv) Hd Ht. by split. Qed.

(** ** One step *)

(** The remote entries delivered during the run. *)
Variable remotes : list LogEntry.

Definition pc_remote p : option LogEntry :=
  match p with RemRecord e | RemUpdate e | RemStore e | RemSeq e => Some e | _ => None end.

Record inv f (pcs : list pc) es rs : Prop := {
  i_base : base_inv f pcs es;
  i_reg : reg_inv f pcs es rs;
  i_cnt : cnt_inv f pcs es rs;
  i_type : type_inv f pcs es;
  i_counts : Forall count_ok (es ++ rs);
  i_remote e : e ∈ rs ++ omap pc_remote pcs -> e ∈ remotes
}.

Lemma inv_perm f pcs pcs' es rs : pcs ≡ₚ pcs' -> inv f pcs es rs -> inv f pcs' es rs.
Proof.
  intros Hp [H1 H2 H3 HT H4 H5]. split; eauto using base_perm, reg_perm, cnt_perm, type_perm.
  intros e. rewrite <- Hp. apply H5.
Qed.

Lemma remote_keep p p' rest rs :
  (forall e, e ∈ rs ++ omap pc_remote (p :: rest) -> e ∈ remotes) -> (forall e, pc_remote p' = Some e -> pc_remote p = Some e) ->
  forall e, e ∈ rs ++ omap pc_remote (p' :: rest) -> e ∈ remotes.
Proof.
  intros H Hp e He. apply H. rewrite omap_cons', !elem_of_app in *. destruct He as [?|[He|?]]; [by left|right; left|by right; right].
  destruct (pc_remote p') as [e'|]; [|by apply elem_of_nil in He]. apply list_elem_of_singleton in He as ->.
  rewrite (Hp e' eq_refl). by apply list_elem_of_singleton.
Qed.

(** The state after a step that moves the goroutine from [p] to [p']. *)
Definition steps_to f p r (rest : list pc) es rs : Prop :=
  exists f' p' es' rs', pc_step f p r = Ret (f', p') /\ inv f' (p' :: rest) es' rs' /\
    steps_left p' <= Z.max 0 (steps_left p - 1).

Hypothesis f0_wf : store_wf (cstore f0).

(** A step on the store that touches neither registers nor counters. *)
Lemma step_side f s p p' r rest es rs :
  inv f (p :: rest) es rs -> pc_step f p r = Ret (with_store s f, p') -> store_wf s ->
  (forall k, reg s k = reg (cstore f) k) ->
  (forall key m, no_colon key -> counter_rep (cstore f) key m -> counter_rep s key m) ->
  pc_write p = None -> pc_write p' = None -> pc_stored p = None -> pc_stored p' = None ->
  (forall key, pend key p' <= pend key p) -> (forall key, own key p' = own key p) -> pc_reading p' = pc_reading p -> pc_read p' = pc_read p ->
  (forall e, pc_remote p' = Some e -> pc_remote p = Some e) -> pc_label p' = pc_label p ->
  steps_left p' + 1 <= steps_left p -> pc_ok p' -> (forall ts, pc_ts p' = Some ts -> pc_ts p = Some ts) ->
  steps_to f p r rest es rs.
Proof.
  intros [H1 H2 H3 HT H4 H5] Hst Hwf Hr Hc E1 E2 E3 E4 Hp Hw E5 E6 Hm El Hl Hok Et.
  exists (with_store s f), p', es, rs. split_and!; [done| |lia]. split; auto.
  - eapply base_keep; eauto. lia.
  - eapply reg_keep; eauto; [apply GE_refl|congruence..].
  - eapply cnt_keep; eauto.
  - eapply type_keep; eauto. apply HT.
  - by eapply remote_keep.
Qed.

(** A step that reads the clock. *)
Lemma step_tick f p r rest es rs (g : Timestamp -> pc) :
  inv f (p :: rest) es rs -> pc_step f p r = (let '(ts, f) := tick f r in Ret (f, g ts)) ->
  pc_write p = None -> (forall ts w, pc_write (g ts) = Some w -> w_ts w = ts) ->
  pc_stored p = None -> (forall ts, pc_stored (g ts) = None) ->
  (forall ts key, pend key (g ts) <= pend key p) -> (forall ts key, own key (g ts) = own key p) -> (forall ts, pc_reading (g ts) = pc_reading p) ->
  (forall ts, pc_read (g ts) = pc_read p) -> (forall ts, pc_remote (g ts) = None) ->
  (forall ts, pc_label (g ts) = pc_label p) -> (forall ts, steps_left (g ts) + 1 <= steps_left p) ->
  (forall ts, pc_ok (g ts)) -> (forall ts, pc_ts (g ts) = Some ts) -> no_later P r -> steps_to f p r rest es rs.
Proof.
  intros [H1 H2 H3 HT H4 H5] Hst E1 E2 E3 E4 Hp Hw E5 E6 E7 El Hl Hok Et Hr.
  unfold tick in Hst. destruct (Now (hlc f) r) as [ts h] eqn:E.
  destruct (b_clock _ _ _ H1) as (Lc & HL & HLc & Hb).
  pose proof (steps_left_nonneg (g ts)) as Hg. pose proof (Hl ts) as Hlt. pose proof (todo_nonneg rest) as Ht.
  unfold todo in Hb, Ht. simpl in Hb.
  destruct (Now_spec _ _ _ _ _ HLc ltac:(lia) E) as (Ha & Hts & Hlg & Hph & _).
  assert (Hih : no_later P (physical h)) by (pose proof (t_hlc _ _ _ HT); rewrite Hph; unfold no_later, is_int64 in *; lia).
  exists (with_hlc h f), (g ts), es, rs. split_and!; [done| |specialize (Hl ts); lia]. split; auto.
  - eapply base_clock; eauto. intros Lc' ? ? ?. by destruct (Now_spec _ _ Lc' _ _ ltac:(done) ltac:(lia) E) as (_ & _ & ? & _).
  - eapply reg_tick; eauto. by rewrite E3, E4.
  - eapply cnt_keep; eauto.
  - eapply type_keep; eauto. intros ts'. rewrite Et. intros [= <-]. right. rewrite <- Hts. split; [done|].
    unfold logical_ok in Hlg. simpl. unfold is_int32. lia.
  - eapply remote_keep; eauto. intros e. by rewrite E7.
Qed.

Lemma logged_seq f pcs es : base_inv f pcs es -> is_uint64 (zlen hs0 + zlen es + 1).
Proof.
  intros HB. pose proof (b_len _ _ _ HB). pose proof (todo_nonneg pcs). pose proof (zlen_nonneg hs0).
  pose proof (zlen_nonneg es). unfold is_uint64. lia.
Qed.

(** A step that logs an entry other than a count. *)
Lemma step_log f p p' e r rest es rs :
  inv f (p :: rest) es rs -> pc_step f p r = (let! f := append f e in Ret (f, p')) ->
  op_fits (Key e) (NodeID e) (contents (Value e)) -> Op e <> MsgIncr ->
  pc_write p = entry_write e -> pc_stored p = entry_write e -> pc_write p' = None -> pc_stored p' = None ->
  (forall key, pend key p' <= pend key p) -> (forall key, own key p' = own key p) -> pc_reading p' = pc_reading p -> pc_read p' = pc_read p ->
  pc_remote p' = None -> pc_label p = Some (entry_label e) -> pc_label p' = None -> steps_left p' + 1 <= steps_left p -> pc_ok p' ->
  pc_ts p' = None -> (forall q, is_uint64 q -> entry_in (set_Seq e q)) -> steps_to f p r rest es rs.
Proof.
  intros [H1 H2 H3 HT H4 H5] Hst Hf Ho E1 E2 E3 E4 Hp Hw E5 E6 E7 El El' Hl Hok Et He.
  destruct (base_append f e p p' rest es H1 Hf El El' Hl Hok) as (l & Ha & HB). rewrite Ha in Hst. simpl in Hst.
  exists (with_log l f), p', (es ++ [logged es e]), rs. split_and!; [done| |lia]. split; auto.
  - by eapply reg_log.
  - eapply cnt_keep; eauto. intros key. rewrite omap_snoc. unfold entry_count, logged. simpl.
    rewrite decide_False by tauto. apply app_nil_r.
  - eapply type_log; eauto. apply He. by eapply logged_seq.
  - apply Forall_app in H4 as [? ?]. rewrite !Forall_app. split_and!; [done| |done].
    apply Forall_singleton. intros Hop. done.
  - eapply remote_keep; eauto. intros e'. by rewrite E7.
Qed.

(** A step that changes nothing the invariants speak of. *)
Lemma step_idle f f' p p' r rest es rs :
  inv f (p :: rest) es rs -> pc_step f p r = Ret (f', p') ->
  cstore f' = cstore f -> hlc f' = hlc f -> dlog f' = dlog f -> nodeID f' = nodeID f ->
  client f' = client f -> cpeerSeqs f' = cpeerSeqs f -> authToken f' = authToken f ->
  pc_write p' = pc_write p -> pc_stored p' = pc_stored p -> (forall key, pend key p' <= pend key p) -> (forall key, own key p' = own key p) ->
  pc_reading p' = pc_reading p -> pc_read p' = pc_read p ->
  (forall e, pc_remote p' = Some e -> pc_remote p = Some e) -> pc_label p' = pc_label p ->
  steps_left p' <= Z.max 0 (steps_left p - 1) -> pc_ok p' -> (forall ts, pc_ts p' = Some ts -> pc_ts p = Some ts) ->
  steps_to f p r rest es rs.
Proof.
  intros [H1 H2 H3 HT H4 H5] Hst Es Eh El Ei Ec Ep Et E1 E2 Hp Hw E5 E6 Hm Etl Hl Hok Ets.
  exists f', p', es, rs. split_and!; [done| |done]. pose proof (steps_left_nonneg p). split; auto.
  - eapply base_keep; eauto; [rewrite Es; apply H1|lia].
  - eapply reg_keep; eauto; [intros k; by rewrite Es|rewrite Eh; apply GE_refl].
  - eapply cnt_keep; eauto. intros key m _. by rewrite Es.
  - eapply type_keep; eauto. rewrite Eh. apply HT.
  - by eapply remote_keep.
Qed.

Lemma step_write f p p' w r rest es rs :
  inv f (p :: rest) es rs -> pc_step f p r = Ret (with_store (do_write (cstore f) w) f, p') ->
  pc_write p = Some w -> pc_write p' = Some w -> pc_stored p = None -> pc_stored p' = Some w ->
  (forall key, pend key p' <= pend key p) -> (forall key, own key p' = own key p) -> pc_reading p' = pc_reading p -> pc_read p' = pc_read p ->
  pc_remote p' = None -> pc_label p' = pc_label p -> steps_left p' + 1 <= steps_left p -> pc_ok p' ->
  pc_ts p' = pc_ts p -> steps_to f p r rest es rs.
Proof.
  intros [H1 H2 H3 HT H4 H5] Hst E1 E2 E3 E4 Hp Hw E5 E6 E7 El Hl Hok Et. pose proof (b_wf _ _ _ H1) as Hwf.
  exists (with_store (do_write (cstore f) w) f), p', es, rs. split_and!; [done| |lia]. split; auto.
  - eapply base_keep; eauto; [by apply do_write_wf|lia].
  - by eapply reg_write.
  - eapply cnt_keep; eauto. intros key m _ HR. simpl. destruct w; [by apply store_set_counter|by apply store_delete_counter].
  - eapply type_keep; eauto; [apply HT|]. intros ts. rewrite Et. auto.
  - eapply remote_keep; eauto. intros e. by rewrite E7.
Qed.

Lemma step_incr f k d r rest es rs :
  inv f (IncrStore k d :: rest) es rs -> steps_to f (IncrStore k d) r rest es rs.
Proof.
  intros [H1 H2 H3 HT H4 H5]. pose proof (b_wf _ _ _ H1) as Hwf. pose proof (b_id _ _ _ H1) as Hid.
  pose proof (b_ok _ _ _ H1) as Hall. apply Forall_cons in Hall as Hok. destruct Hok as [(Hfit & Hnk & _) _].
  destruct (increment (cstore f) k (nodeID f) (float64_of_Z d)) as [val s] eqn:E.
  pose proof (fun key => increment_reg (cstore f) k (nodeID f) (float64_of_Z d) key Hwf) as Hr. rewrite E in Hr. simpl in Hr.
  exists (with_store s f), (IncrRead k val), es, rs. split_and!; [cbn [pc_step set_step delete_step incr_step metric_step window_step remote_step]; by rewrite E| |simpl; lia]. split; auto.
  - eapply base_keep; eauto; [by apply (Hr k)|simpl; lia|done].
  - eapply reg_keep; eauto; [intros key; apply Hr|apply GE_refl].
  - by eapply cnt_incr.
  - by (eapply type_keep; [done|apply HT|]).
Qed.

Lemma step_read f k val r rest es rs :
  inv f (IncrRead k val :: rest) es rs -> steps_to f (IncrRead k val) r rest es rs.
Proof.
  intros [H1 H2 H3 HT H4 H5]. pose proof (b_ok _ _ _ H1) as Hall. apply Forall_cons in Hall as [Hok _].
  exists f, (IncrNow k val (getNodeCount (cstore f) k (nodeID f))), es, rs.
  split_and!; [done| |simpl; lia]. split; auto.
  - eapply base_keep; eauto; [apply H1|simpl; lia].
  - eapply reg_keep; eauto; [apply GE_refl].
  - apply cnt_read; [done|apply H1].
  - by (eapply type_keep; [done|apply HT|]).
Qed.

Lemma step_incr_log f k val x ts r rest es rs :
  inv f (IncrAppend k val x ts :: rest) es rs -> no_later P r -> steps_to f (IncrAppend k val x ts) r rest es rs.
Proof.
  intros [H1 H2 H3 HT H4 H5] [Hr _]. pose proof (b_ok _ _ _ H1) as Hall. apply Forall_cons in Hall as Hok. destruct Hok as [[Hf Hnk] _].
  pose proof (b_id _ _ _ H1) as Hid. set (e := mkLogEntry 0 ts r MsgIncr k (nodeID f) None x 0).
  set (res := RInt (int64_of_float val)).
  destruct (base_append f e (IncrAppend k val x ts) (Observe LIncr res) rest es H1) as (l & Ha & HB);
    [by rewrite <- Hid in Hf|done|done|simpl; lia|done|].
  destruct (cnt_log f (with_log l f) k val x ts (logged es e) res rest es rs H3 Hall) as [Hc He]; try done.
  exists (with_log l f), (Observe LIncr res), (es ++ [logged es e]), rs.
  split_and!; [cbn [pc_step set_step delete_step incr_step metric_step window_step remote_step]; fold e; by rewrite Ha| |simpl; lia]. split; auto.
  - by eapply reg_log.
  - eapply type_log; eauto. apply entry_ok; try done; [by eapply logged_seq| |subst e; cbn; rewrite Hid; exact Hf|].
    + eapply (t_pcs _ _ _ HT); [constructor|done].
    + destruct (He eq_refl) as (_ & v & _ & Hx & Hd). simpl in Hd. destruct (drop_zero_sign_int _ _ Hd) as [->|[_ [b ->]]];
        [by apply f_of_int_valid|done].
  - apply Forall_app in H4 as [? ?]. rewrite !Forall_app, Forall_singleton. done.
Qed.

Lemma step_update f e r rest es rs :
  inv f (RemUpdate e :: rest) es rs -> no_later P r -> steps_to f (RemUpdate e) r rest es rs.
Proof.
  intros HI Hr. pose proof HI as [H1 H2 H3 HT H4 H5]. pose proof (b_ok _ _ _ H1) as Hall. apply Forall_cons in Hall as [Hok _].
  pose proof (pend_nonneg) as Hpn.
  destruct (Update (hlc f) r (TS e)) as [[ts [err|]] h] eqn:E.
  - apply (step_idle f (with_hlc h f) _ (Finished RUnit)); try done; [cbn [pc_step set_step delete_step incr_step metric_step window_step remote_step]; by rewrite E| |].
    + destruct err. by apply Update_reject in E as [-> _].
    + intros key. apply (Hpn key (RemUpdate e) Hok).
  - destruct (b_clock _ _ _ H1) as (Lc & HL & HLc & Hb). pose proof (todo_nonneg rest) as Ht. unfold todo in Hb, Ht. simpl in Hb.
    assert (Hro : forall L, L0 <= L -> remote_ok (TS e) L) by (destruct Hok as [Hro _]; unfold remote_ok in *; intros; lia).
    destruct (Update_spec _ _ _ _ _ _ HLc (Hro Lc HL) ltac:(lia) E) as (Ha & _ & Hts & _ & Hph & _).
    exists (with_hlc h f), (RemStore e), es, rs. split_and!; [cbn [pc_step set_step delete_step incr_step metric_step window_step remote_step]; by rewrite E| |simpl; lia]. split; auto.
    + eapply base_clock; eauto; [|simpl; lia].
      intros Lc' ? HLc' ?. by destruct (Update_spec _ _ _ _ _ _ HLc' (Hro Lc' ltac:(done)) ltac:(lia) E) as (_ & _ & _ & ? & _).
    + by eapply reg_tick.
    + by eapply cnt_keep.
    + eapply (type_keep f _ (RemUpdate e)); [done| |done]. simpl. rewrite Hph. pose proof (t_hlc _ _ _ HT).
      destruct Hok as (_ & _ & _ & Hte). unfold no_later, is_int64 in *. lia.
Qed.

Lemma step_remote f e r rest es rs :
  inv f (RemStore e :: rest) es rs -> steps_to f (RemStore e) r rest es rs.
Proof.
  intros [H1 H2 H3 HT H4 H5]. pose proof (b_ok _ _ _ H1) as Hall. pose proof Hall as [Hok _]%Forall_cons.
  pose proof (b_wf _ _ _ H1) as Hwf. pose proof (fun k => apply_op_reg (cstore f) e k Hwf) as Hr.
  exists (with_store (apply_op (cstore f) e) f), (RemSeq e), es, (rs ++ [e]).
  split_and!; [done| |simpl; lia]. split.
  - eapply base_keep; eauto; [by apply (Hr EmptyString)|simpl; lia].
  - eapply reg_remote; eauto. intros k. apply Hr.
  - by apply cnt_remote.
  - by (eapply type_keep; [done|apply HT|]).
  - rewrite app_assoc. apply Forall_app. split; [done|]. apply Forall_singleton. by destruct Hok as (_ & ? & _).
  - intros e'. simpl. rewrite <- app_assoc. intros He. apply H5. simpl. rewrite !elem_of_app, !elem_of_cons, elem_of_nil in *.
    naive_solver.
Qed.

Lemma pc_typed_at f p ts rest es : type_inv f (p :: rest) es -> pc_ts p = Some ts -> ts_in ts.
Proof. intros HT Hts. eapply (t_pcs _ _ _ HT); [constructor|done]. Qed.

Lemma step_set_log f k v ttl ts r rest es rs :
  inv f (SetAppend k v ttl ts :: rest) es rs -> no_later P r -> steps_to f (SetAppend k v ttl ts) r rest es rs.
Proof.
  intros HI [Hr _]. pose proof (b_ok _ _ _ (i_base _ _ _ _ HI)) as Hall.
  apply Forall_cons in Hall as [(b & Hm & Hv & Httl & Hit & Hf) _].
  pose proof (pc_typed_at _ _ ts _ _ (i_type _ _ _ _ HI) eq_refl) as Hts.
  apply (step_log f _ (Observe LSet RUnit) (mkLogEntry 0 ts r MsgSet k EmptyString (Some b) fzero (Milliseconds ttl)));
    try done; [cbn [pc_step set_step delete_step incr_step metric_step window_step remote_step]; by rewrite Hm|..].
  - unfold entry_write. simpl. by rewrite Hv, Httl.
  - unfold entry_write. simpl. by rewrite Hv, Httl.
  - simpl. by rewrite Hm.
  - intros q Hq. apply entry_ok; auto; [done|done|]. by apply Milliseconds_range.
Qed.

Lemma step_metric f k d r rest es rs :
  inv f (MetStore k d :: rest) es rs -> steps_to f (MetStore k d) r rest es rs.
Proof.
  intros HI. pose proof (i_base _ _ _ _ HI) as HB. pose proof (b_wf _ _ _ HB) as Hwf.
  pose proof (b_ok _ _ _ HB) as Hall. apply Forall_cons in Hall as [Hok _].
  destruct (incrementMetric (cstore f) k (nodeID f) d) as [m s] eqn:E.
  pose proof (fun key => incrementMetric_reg (cstore f) k (nodeID f) d key Hwf) as Hre. rewrite E in Hre. simpl in Hre.
  apply (step_side f s _ (MetNow k d m)); try done; [cbn [pc_step set_step delete_step incr_step metric_step window_step remote_step]; by rewrite E|by apply (Hre k)|intros; apply Hre|].
  intros key m' Hk HR. pose proof (incrementMetric_counter (cstore f) k (nodeID f) d key m' HR Hk) as H. by rewrite E in H.
Qed.

Lemma step_window f k w ts r rest es rs :
  inv f (WinStore k w ts :: rest) es rs -> steps_to f (WinStore k w ts) r rest es rs.
Proof.
  intros HI. pose proof (i_base _ _ _ _ HI) as HB. pose proof (b_wf _ _ _ HB) as Hwf.
  pose proof (b_ok _ _ _ HB) as Hall. apply Forall_cons in Hall as [Hok _].
  destruct (incrementSlidingWindow (cstore f) k (Physical ts) w r) as [c s] eqn:E.
  pose proof (fun key => slidingWindow_reg (cstore f) k (Physical ts) w r key Hwf) as Hre. rewrite E in Hre. simpl in Hre.
  apply (step_side f s _ (WinAppend k c ts)); try done; [cbn [pc_step set_step delete_step incr_step metric_step window_step remote_step]; by rewrite E|by apply (Hre k)|intros; apply Hre|].
  intros key m' Hk HR. pose proof (slidingWindow_counter (cstore f) k (Physical ts) w r key m' HR) as H. by rewrite E in H.
Qed.

#[local] Ltac step_done := try done; try (by intros ? ? [= <-]); try (intros; simpl; lia).

Lemma goroutine_step_inv f p r rest es rs : inv f (p :: rest) es rs -> no_later P r -> steps_to f p r rest es rs.
Proof.
  intros HI Hr. pose proof (b_ok _ _ _ (i_base _ _ _ _ HI)) as Hall. apply Forall_cons in Hall as [Hok _].
  pose proof (b_wf _ _ _ (i_base _ _ _ _ HI)) as Hwf. pose proof (b_id _ _ _ (i_base _ _ _ _ HI)) as Hid.
  pose proof (proj1 Hr) as Hri.
  pose proof (fun ts => pc_typed_at f p ts rest es (i_type _ _ _ _ HI)) as Hty.
  destruct p as [k v ttl|k v ttl ts|k v ttl ts|k|k ts|k ts|k d|k val|k val x|k val x ts|k d|k d m|k d m ts
    |k w|k w ts|k c ts|e|e|e|e|lk res|res].
  - apply (step_tick f _ r _ _ _ (SetStore k v ttl)); step_done.
  - by apply (step_write f _ (SetAppend k v ttl ts) (WSet k v ts ttl)).
  - by apply step_set_log.
  - apply (step_tick f _ r _ _ _ (DelStore k)); step_done.
  - by apply (step_write f _ (DelAppend k ts) (WDelete k ts)).
  - apply (step_log f _ (Observe LSet RUnit) (mkLogEntry 0 ts r MsgDelete k EmptyString None fzero 0)); try done.
    intros q Hq. apply entry_ok; auto; done.
  - by apply step_incr.
  - by apply step_read.
  - apply (step_tick f _ r _ _ _ (IncrAppend k val x)); step_done.
  - by apply step_incr_log.
  - by apply step_metric.
  - apply (step_tick f _ r _ _ _ (MetAppend k d m)); step_done.
  - destruct Hok as [Hok Hd].
    apply (step_log f _ (Finished (RMetric m)) (mkLogEntry 0 ts 0 MsgMetric k (nodeID f) None d 0)); try done.
    + simpl. by rewrite Hid.
    + intros q Hq. apply entry_ok; auto; try done. by rewrite Hid.
  - apply (step_tick f _ r _ _ _ (WinStore k w)); step_done.
  - by apply step_window.
  - apply (step_log f _ (Finished (RInt c)) (mkLogEntry 0 ts 0 MsgWindow k (nodeID f) None fzero 0)); try done.
    + simpl. by rewrite Hid.
    + intros q Hq. apply entry_ok; auto; try done. by rewrite Hid.
  - eapply (step_idle f _ _ (RemUpdate e)); [done|reflexivity|..]; try done; by case_ifs.
  - by apply step_update.
  - by apply step_remote.
  - destruct (updatePeerSeq_reg (cstore f) (NodeID e) (Seq e) EmptyString Hwf) as [Hw _].
    apply (step_side f (updatePeerSeq (cstore f) (NodeID e) (Seq e)) _ (Finished RUnit)); try done.
    + intros k. by apply updatePeerSeq_reg.
    + intros key m _. apply updatePeerSeq_counter.
  - eapply (step_idle f _ _ (Finished res)); [done|reflexivity|..]; try done; unfold observe; by case_ifs.
  - by apply (step_idle f f _ (Finished res)).
Qed.

(** ** Runs *)

Definition left_at (pcs : list pc) (i : nat) : Z := match pcs !! i with Some p => steps_left p | None => 0 end.

(** How often goroutine [i] is scheduled. *)
Definition turns (i : nat) (sch : list (nat * Z)) : Z := zsum (fun ir => if decide (ir.1 = i) then 1 else 0) sch.

Lemma inv_sched f pcs es rs i r :
  inv f pcs es rs -> no_later P r ->
  exists f' pcs' es' rs', sched_step (f, pcs) (i, r) = Ret (f', pcs') /\ inv f' pcs' es' rs' /\
    length pcs' = length pcs /\ forall j, left_at pcs' j <= Z.max 0 (left_at pcs j - if decide (i = j) then 1 else 0).
Proof.
  intros HI Hr. unfold sched_step. cbn [fst snd].
  assert (Hn : forall p, 0 <= steps_left p) by (intros q; apply steps_left_nonneg).
  destruct (pcs !! i) as [p|] eqn:Ei.
  - destruct (lookup_perm pcs i p Ei) as (rest & Hp & Hins).
    destruct (goroutine_step_inv f p r rest es rs (inv_perm _ _ _ _ _ Hp HI) Hr) as (f' & p' & es' & rs' & -> & HI' & Hl). simpl.
    exists f', (<[i := p']> pcs), es', rs'. split_and!; [done| |by rewrite length_insert|].
    + eapply inv_perm; [symmetry; apply Hins|done].
    + intros j. unfold left_at. case_decide as Hd.
      * subst j. rewrite list_lookup_insert_eq by (by eapply lookup_lt_Some). by rewrite Ei.
      * rewrite list_lookup_insert_ne by done. destruct (pcs !! j) as [q|]; [specialize (Hn q)|]; lia.
  - exists f, pcs, es, rs. split_and!; [done|done|done|]. intros j. unfold left_at.
    case_decide as Hd; [subst j; rewrite Ei; lia|]. destruct (pcs !! j) as [q|]; [specialize (Hn q)|]; lia.
Qed.

Lemma inv_run sch f pcs es rs :
  inv f pcs es rs -> Forall (fun ir => no_later P ir.2) sch ->
  exists f' pcs' es' rs', sched_run (f, pcs) sch = Ret (f', pcs') /\ inv f' pcs' es' rs' /\
    length pcs' = length pcs /\ forall j, left_at pcs' j <= Z.max 0 (left_at pcs j - turns j sch).
Proof.
  intros HI Hsch. revert f pcs es rs HI. induction Hsch as [|[i r] sch Hr _ IH]; intros f pcs es rs HI.
  { exists f, pcs, es, rs. split_and!; [done|done|done|]. intros j. unfold turns. simpl. lia. }
  destruct (inv_sched f pcs es rs i r HI Hr) as (f1 & pcs1 & es1 & rs1 & E & HI1 & Hlen & Hl).
  destruct (IH f1 pcs1 es1 rs1 HI1) as (f2 & pcs2 & es2 & rs2 & E2 & HI2 & Hlen2 & Hl2).
  exists f2, pcs2, es2, rs2. split_and!; [|done|congruence|].
  - cbn [sched_run]. rewrite E. exact E2.
  - intros j. specialize (Hl j). specialize (Hl2 j). unfold turns in *. simpl.
    assert (0 <= zsum (fun ir : nat * Z => if decide (ir.1 = j) then 1 else 0) sch).
    { clear. induction sch as [|x l IH]; simpl; [done|]. case_decide; lia. }
    case_decide; lia.
Qed.

Definition is_finished p : Prop := match p with Finished _ => True | _ => False end.

Lemma left_finished p : steps_left p <= 0 -> is_finished p.
Proof. destruct p; simpl; first [done|lia]. Qed.

Lemma all_finished pcs : (forall i, (i < length pcs)%nat -> left_at pcs i <= 0) -> Forall is_finished pcs.
Proof.
  intros H. apply Forall_lookup. intros i p Hi. apply left_finished.
  specialize (H i (lookup_lt_Some _ _ _ Hi)). unfold left_at in H. by rewrite Hi in H.
Qed.

Lemma finished_none {A} (g : pc -> option A) pcs :
  Forall is_finished pcs -> (forall r, g (Finished r) = None) -> omap g pcs = [].
Proof.
  intros H Hg. induction H as [|p pcs Hp _ IH]; [done|]. rewrite omap_cons', IH, app_nil_r.
  destruct p; try done. by rewrite Hg.
Qed.

(** ** Start and end *)

Lemma omap_start {A} (g : pc (O := O) -> option A) (calls : list op_call) :
  (forall c, g (start c) = None) -> omap g (start <$> calls) = [].
Proof. intros Hg. induction calls as [|c calls IH]; [done|]. rewrite fmap_cons, omap_cons', Hg. done. Qed.

Definition counters_ok (pcs : list pc) : Prop :=
  forall key, no_colon key ->
    counter_rep (cstore f0) key (m0 key) /\ nonneg (m0 key) /\
    csum (m0 key) + zsum (pend key) pcs < 2 ^ 53.

Lemma goroutines_start_inv (calls : list op_call) L :
  let pcs := start <$> calls in
  Rep S (dlog f0) hs0 L -> logical_ok (hlc f0) L0 -> L0 + todo pcs <= Lmax -> zlen hs0 + todo pcs <= N ->
  omap pc_label pcs = K -> Forall pc_ok pcs -> counters_ok pcs ->
  (forall key, cget (m0 key) (nodeID f0) + zsum (own key) pcs = total key) -> no_later P (physical (hlc f0)) ->
  remotes = omap pc_remote pcs -> inv f0 pcs [] [].
Proof.
  intros pcs HR Hlog HL HN HK Hok Hc Hown Hph Hrem. split.
  - split; auto.
    + exists L. by rewrite app_nil_r.
    + change (zlen []) with 0. lia.
    + exists L0. split_and!; [lia|done|done].
    + by rewrite HK.
  - split.
    + exists []. split; [done|]. simpl. unfold pcs. by rewrite omap_start by (by intros []).
    + unfold local_writes, pcs. rewrite omap_start by (by intros []). apply NoDup_nil_2.
    + intros w. unfold local_writes, pcs. rewrite omap_start by (by intros []). by intros ?%elem_of_nil.
  - intros key Hk. destruct (Hc key Hk) as (H1 & H2 & H3). exists (m0 key). split; auto; [done|..].
    + by intros n v ?%elem_of_nil.
    + intros p x (c & -> & _)%list_elem_of_fmap. by destruct c.
  - split; [done| |constructor]. intros p ts (c & -> & _)%list_elem_of_fmap. by destruct c.
  - constructor.
  - intros e. by rewrite Hrem.
Qed.

(** What a replica of the starting node becomes that receives the entries [ds]. *)
Definition agrees_with f (ds : list LogEntry) : Prop :=
  (forall key, no_colon key ->
     getAggregateCount (deliver_store (cstore f0) ds) key = getAggregateCount (cstore f) key /\
     forall n, getNodeCount (deliver_store (cstore f0) ds) key n = getNodeCount (cstore f) key n).

(** No remote write ties with another write of its key. *)
Definition no_remote_ties es rs : Prop :=
  tie_free (omap entry_write rs) /\
  forall w w', w ∈ omap entry_write es -> w' ∈ omap entry_write rs -> w_key w = w_key w' -> w_ts w <> w_ts w'.

Lemma finished_tie_free f pcs es rs :
  reg_inv f pcs es rs -> no_remote_ties es rs -> tie_free (omap entry_write (es ++ rs)).
Proof.
  intros [_ Hd _] [Ht Hn] w w'. rewrite omap_app, !elem_of_app.
  assert (Hl : forall a b, a ∈ omap entry_write es -> b ∈ omap entry_write es -> w_ts a = w_ts b -> a = b).
  { unfold local_writes in Hd. rewrite fmap_app in Hd. apply NoDup_app in Hd as [Hd _].
    intros a b [i Hi]%list_elem_of_lookup [j Hj]%list_elem_of_lookup Hab.
    assert (i = j) as ->; [|congruence].
    apply (NoDup_lookup _ i j (w_ts a) Hd); rewrite list_lookup_fmap; [by rewrite Hi|by rewrite Hj, Hab]. }
  intros [Hw|Hw] [Hw'|Hw'] Hk Hts; auto.
  - by destruct (Hn w w' Hw Hw' Hk).
  - by destruct (Hn w' w Hw' Hw (eq_sym Hk)).
Qed.

Lemma finished_registers f pcs es rs ds key :
  inv f pcs es rs -> Forall is_finished pcs -> same_content ds (es ++ rs) -> no_remote_ties es rs ->
  reg (deliver_store (cstore f0) ds) key = reg (cstore f) key.
Proof.
  intros [_ HR _ _ _ _] Hfin Hsame Ht. pose proof (finished_tie_free _ _ _ _ HR Ht) as Htie.
  destruct HR as [(ws & Hws & Hperm) _ _]. rewrite (finished_none pc_stored) in Hperm by done. simpl in Hperm.
  rewrite <- omap_app in Hperm. rewrite (proj2 (deliver_store_reg _ _ key f0_wf)), Hws. symmetry.
  apply run_writes_same; [done| |].
  - intros w. rewrite Hperm. symmetry. by apply (omap_content entry_write).
  - intros w w'. rewrite !Hperm. apply Htie.
Qed.

(** The counts of a finished node are what a replica merges. *)
Lemma finished_cget key f pcs es rs ds m n :
  cnt_inv_at key f pcs es rs m -> Forall is_finished pcs -> same_content ds (es ++ rs) ->
  (forall e, e ∈ rs -> Op e = MsgIncr -> NodeID e <> nodeID f0) ->
  cget (foldl cmerge (m0 key) (omap (entry_count key) ds)) n = cget m n.
Proof.
  intros [H1 H2 H3 H4 H5 Hx5 H6 H7 H8] Hfin Hsame Hrem.
  assert (Hmem : forall u, u ∈ omap (entry_count key) ds <-> u ∈ omap (entry_count key) es \/ u ∈ omap (entry_count key) rs)
    by (intros u; rewrite (omap_content (entry_count key) _ _ Hsame u), omap_app; apply elem_of_app).
  destruct (cget_foldl (m0 key) (omap (entry_count key) ds) n) as (A1 & A2 & A3).
  set (x := cget (foldl cmerge (m0 key) (omap (entry_count key) ds)) n) in *.
  destruct (decide (n = nodeID f0)) as [->|Hne].
  - assert (Hrs : forall v, (nodeID f0, v) ∈ omap (entry_count key) rs -> False).
    { intros v (e & He & Ee)%list_elem_of_omap. unfold entry_count in Ee. case_decide as Hd; [|done].
      injection Ee as En _. by destruct (Hrem e He (proj1 Hd)). }
    assert (Hse : cget m (nodeID f0) = cget (m0 key) (nodeID f0) \/ (nodeID f0, cget m (nodeID f0)) ∈ omap (entry_count key) es).
    { destruct H8 as [?|[?|[(p & Hp & Hr)|(p & Hp & Hr)]]]; auto;
        rewrite Forall_forall in Hfin; specialize (Hfin p Hp); by destruct p. }
    assert (x <= cget m (nodeID f0)).
    { destruct A3 as [->|A3]; [done|]. apply Hmem in A3 as [A3|A3]; [by apply H6 in A3 as [_ ?]|by apply Hrs in A3]. }
    destruct Hse as [Hse|Hse]; [lia|]. assert (cget m (nodeID f0) <= x); [|lia]. apply A2, Hmem. by left.
  - rewrite (H4 n Hne). destruct (cget_foldl (m0 key) (omap (entry_count key) rs) n) as (B1 & B2 & B3).
    set (y := cget (foldl cmerge (m0 key) (omap (entry_count key) rs)) n) in *.
    assert (y <= x) by (destruct B3 as [->|B3]; [done|]; apply A2, Hmem; by right).
    assert (x <= y); [|lia]. destruct A3 as [->|A3]; [done|]. apply Hmem in A3 as [A3|A3]; [|auto].
    by apply H6 in A3 as [? _].
Qed.

Lemma finished_counters f pcs es rs ds :
  inv f pcs es rs -> Forall is_finished pcs -> same_content ds (es ++ rs) -> counters_ok (start <$> []) ->
  (forall e, e ∈ remotes -> Op e = MsgIncr -> NodeID e <> nodeID f0) -> agrees_with f ds.
Proof.
  intros [_ _ HC _ Hco Hrs] Hfin Hsame Hc0 Hrem key Hk. destruct (HC key Hk) as [m HM].
  assert (Hget : forall n, cget (foldl cmerge (m0 key) (omap (entry_count key) ds)) n = cget m n).
  { intros n. apply (finished_cget key f pcs es rs); auto. intros e He. apply Hrem, Hrs, elem_of_app. by left. }
  assert (Hsum := csum_ext _ _ Hget). destruct (Hc0 key Hk) as (R0 & N0 & _).
  assert (HR : counter_rep (deliver_store (cstore f0) ds) key (foldl cmerge (m0 key) (omap (entry_count key) ds))).
  { apply deliver_store_counter; auto.
    - by eapply count_ok_content.
    - rewrite Hsum. pose proof (cr_sum _ _ _ (c_rep _ _ _ _ _ _ HM)) as He. unfold exact53 in He. lia. }
  unfold getAggregateCount, getNodeCount. rewrite (cr_agg _ _ _ HR), (cr_agg _ _ _ (c_rep _ _ _ _ _ _ HM)), Hsum.
  split; [done|]. intros n. by rewrite (node_count _ _ _ n HR), (node_count _ _ _ n (c_rep _ _ _ _ _ _ HM)), Hget.
Qed.

Lemma finished_own f pcs es rs key :
  inv f pcs es rs -> Forall is_finished pcs -> no_colon key -> getNodeCount (cstore f) key (nodeID f0) = f_of_int (total key).
Proof.
  intros [_ _ HC _ _ _] Hfin Hk. destruct (HC key Hk) as [m HM]. unfold getNodeCount.
  rewrite (node_count _ _ _ _ (c_rep _ _ _ _ _ _ HM)). pose proof (c_exact _ _ _ _ _ _ HM) as He.
  assert (zsum (own key) pcs = 0) as Hz; [|f_equal; lia].
  clear - Hfin. induction Hfin as [|p pcs Hp _ IH]; [done|]. simpl. rewrite IH. by destruct p.
Qed.
End concurrent.

(** ** A run of a node *)

Section run.
Context {O T : Type} {M : Msgpack O T} {W : Wire} {WL : WireLaws W}.

(** What is asked of the node and of the calls: a well-formed node with room in
    its clock and log, operations as [pc_ok] says, and counters whose partial
    counts [m0] and everything the calls add stay below 2^53. *)
Record run_ok (f0 : Capacitor O) (hs : list bytes) (S L0 P : Z) (m0 : string -> gmap string Z) (calls : list op_call) : Prop := {
  ro_wf : store_wf (cstore f0);
  ro_log : exists L, Rep S (dlog f0) hs L;
  ro_clock : logical_ok (hlc f0) L0 /\ no_later P (physical (hlc f0));
  ro_ticks : 0 <= L0 /\ L0 + 5 * zlen calls < 2147483647;
  ro_len : zlen hs + 5 * zlen calls < 9223372036854775806;
  ro_calls : Forall (pc_ok f0 S L0 P) (start <$> calls);
  ro_counters : counters_ok f0 m0 (start <$> calls)
}.

Lemma todo_start (calls : list op_call) : todo (start (O := O) <$> calls) <= 5 * zlen calls.
Proof.
  induction calls as [|c calls IH]; [done|]. unfold todo in *. rewrite fmap_cons. simpl zsum.
  pose proof (steps_left_nonneg (start c)). unfold zlen in *. simpl length. lia.
Qed.

(** The invariant that holds after any run. *)
Definition run_inv f0 hs S L0 P m0 (calls : list op_call) :=
  inv f0 hs S L0 2147483646 9223372036854775805 P (omap pc_label (start <$> calls)) m0
    (fun key => cget (m0 key) (nodeID f0) + zsum (own key) (start <$> calls)) (omap pc_remote (start <$> calls)).

Lemma concurrent_run f0 hs S L0 P m0 calls sch :
  run_ok f0 hs S L0 P m0 calls -> Forall (fun ir => no_later P ir.2) sch ->
  exists f pcs es rs, sched_run (f0, start <$> calls) sch = Ret (f, pcs) /\
    run_inv f0 hs S L0 P m0 calls f pcs es rs /\
    ((forall i, (i < length calls)%nat -> 5 <= turns i sch) -> Forall is_finished pcs).
Proof.
  intros [Hwf (L & HR) [Hlog Hph] [HL0 HL] HN Hok Hc] Hsch. pose proof (todo_start calls) as Ht.
  destruct (inv_run f0 hs S L0 2147483646 9223372036854775805 P (omap pc_label (start <$> calls)) HL0
    ltac:(lia) ltac:(lia) m0 (fun key => cget (m0 key) (nodeID f0) + zsum (own key) (start <$> calls))
    (omap pc_remote (start <$> calls)) Hwf sch f0 (start <$> calls) [] [])
    as (f & pcs & es & rs & E & HI & Hlen & Hl); [|done|].
  { apply goroutines_start_inv with L; auto; lia. }
  exists f, pcs, es, rs. split_and!; [done|done|]. intros Hturns. apply all_finished. intros i Hi.
  rewrite Hlen, length_fmap in Hi. specialize (Hl i). specialize (Hturns i Hi).
  assert (left_at (start (O := O) <$> calls) i <= 5); [|lia]. unfold left_at.
  destruct (_ !! i) as [p|]; [apply steps_left_nonneg|lia].
Qed.

Lemma run_start_counters f0 hs S L0 P m0 calls :
  run_ok f0 hs S L0 P m0 calls -> counters_ok f0 m0 (start <$> []).
Proof.
  intros HO key Hk. destruct (ro_counters _ _ _ _ _ _ _ HO key Hk) as (H1 & H2 & H3).
  pose proof (zsum_pend_nonneg f0 S L0 P key _ (ro_calls _ _ _ _ _ _ _ HO)). split_and!; [done|done|]. simpl. lia.
Qed.

Lemma run_remotes f0 hs S L0 P m0 calls e :
  run_ok f0 hs S L0 P m0 calls -> e ∈ omap pc_remote (start <$> calls) -> Op e = MsgIncr -> NodeID e <> nodeID f0.
Proof.
  intros HO (p & Hp & He)%list_elem_of_omap. pose proof (ro_calls _ _ _ _ _ _ _ HO) as Hok.
  rewrite Forall_forall in Hok. specialize (Hok p Hp).
  destruct p; try done; simpl in He; injection He as ->; by destruct Hok as (_ & _ & ? & _).
Qed.

(** What holds once all goroutines have finished. *)
Lemma run_finished f0 hs S L0 P m0 calls f pcs es rs :
  run_ok f0 hs S L0 P m0 calls -> run_inv f0 hs S L0 P m0 calls f pcs es rs -> Forall is_finished pcs ->
  (entry_label <$> es) ≡ₚ omap pc_label (start <$> calls) /\
  (forall key, no_colon key ->
     getNodeCount (cstore f) key (nodeID f0) = f_of_int (cget (m0 key) (nodeID f0) + zsum (own key) (start <$> calls))) /\
  forall ds, same_content ds (es ++ rs) ->
    (no_remote_ties es rs -> forall key, reg (deliver_store (cstore f0) ds) key = reg (cstore f) key) /\
    agrees_with f0 f ds.
Proof.
  intros HO HI Hfin. split_and!.
  - destruct HI as [Hc _ _ _ _ _]. apply b_count in Hc. by rewrite (finished_none pc_label), app_nil_r in Hc.
  - intros key Hk. by eapply finished_own in HI.
  - intros ds Hds. split.
    + intros Ht key. eapply finished_registers; eauto. apply HO.
    + eapply finished_counters; eauto using run_start_counters, run_remotes.
Qed.
End run.
