(* ===== verification/Delivery.v ===== *)
(** * Concurrent writers and a peer

    The parts put together: goroutines work on one node under any schedule, the
    replicator sends the log over a connection, and the peer reads the stream,
    decodes the batches and applies their entries. *)

From S2P Require Import Prelude Float64 FloatValid Hlc Types Msgp Codec CodecProofs DeltaLog.
From S2P Require Import Store StoreProofs Counters Windows Metrics Client Node NodeProofs Server Convergence Session Cluster.
From S2P Require Import Threads Typed Concurrent.

#[local] Open Scope Z_scope.
#[local] Open Scope go_scope.

(** ** Batches and the entries in them *)

Section batches.
Context {O T : Type} {M : Msgpack O T} {W : Wire} {SB : Source bytes}.
Variable clock : nat -> Z * Z.
Implicit Types f : Capacitor O.

Context {WL : WireLaws W} {SS : SliceSource}.

(** An entry as the receiver decodes it. *)
Definition decoded (e : LogEntry) : LogEntry :=
  match LogEntry_UnmarshalMsg zero_LogEntry (marshal e) with Ok (e', _) => e' | Err _ => e end.

Lemma decoded_equiv e : LogEntry_ok e -> LogEntry_equiv (decoded e) e.
Proof. intros He. destruct (marshal_decodes e He) as (e' & Hd & Heq). unfold decoded. by rewrite Hd. Qed.

Lemma decode_marshalled es :
  Forall LogEntry_ok es -> omap decode_entry (Some <$> (marshal <$> es)) = decoded <$> es.
Proof.
  induction 1 as [|e es He _ IH]; [done|]. rewrite !fmap_cons, <- IH. destruct (marshal_decodes e He) as (e' & Hd & _).
  assert (decode_entry (Some (marshal e)) = Some (decoded e)) as Hx; [|by cbn; rewrite Hx].
  unfold decode_entry, decoded. change (contents (Some (marshal e))) with (marshal e). by rewrite Hd.
Qed.

(** No entry comes from too far in the receiver's future. *)
Definition in_time (offset : Z) (es : list LogEntry) : Prop :=
  forall e k, e ∈ es -> Physical (TS e) <= int64 ((clock k).2 + offset).

Lemma timed_accepted offset es k :
  Forall LogEntry_ok es -> in_time offset es -> Forall (accepted offset) (timed clock k (decoded <$> es)).
Proof.
  intros Hes Hin. revert k. induction Hes as [|e es He _ IH]; intros k; [constructor|].
  rewrite fmap_cons. cbn [timed]. constructor.
  - unfold accepted. cbn [fst snd]. rewrite (eqv_TS _ _ (decoded_equiv e He)). apply Hin. constructor.
  - apply IH. intros e' k' He'. apply Hin. by constructor.
Qed.

(** The store after the entries of a stream. *)
Lemma delivered_store f k bs es :
  Forall LogEntry_ok es -> in_time (maxOffset (hlc f)) es -> concat (Entries <$> bs) = Some <$> (marshal <$> es) ->
  cstore (foldl (accept_batch clock) (f, k) bs).1 = deliver_store (cstore f) (decoded <$> es).
Proof.
  intros Hes Hin Hbs. rewrite accept_batches, Hbs, decode_marshalled by done. cbn [fst with_cpeerSeqs cstore].
  rewrite deliver_store_eq by auto using timed_accepted. by rewrite timed_fst.
Qed.

Lemma decoded_same es : Forall LogEntry_ok es -> same_content (decoded <$> es) es.
Proof.
  intros Hes. apply same_content_Forall2. induction Hes; simpl; constructor; auto using decoded_equiv.
Qed.
End batches.

(** ** Sessions of the replicator *)

Section sessions.
Context {O T : Type} {M : Msgpack O T} {W : Wire}.
Implicit Types f : Capacitor O.

(** The entries a reader at a retained position has left fit a message. *)
Lemma pending_sizes S (l : DeltaLog) hs L p :
  Rep S l hs L -> earliest hs (capacity l) - 1 <= p <= zlen hs -> Forall (fun h => is_uint32 (zlen h)) (drop (Z.to_nat p) hs).
Proof.
  intros HR Hp. apply Forall_forall. intros h Hh.
  assert (Hin : h ∈ L.*2).
  { rewrite (rep_live _ _ _ _ HR), take_reverse, elem_of_reverse.
    pose proof (rep_cap _ _ _ _ HR). unfold earliest, zlen in *.
    replace (Z.to_nat p) with (length hs - Z.to_nat (capacity l) + (Z.to_nat p - (length hs - Z.to_nat (capacity l))))%nat in Hh by lia.
    rewrite <- drop_drop in Hh. by apply subseteq_drop in Hh. }
  apply list_elem_of_fmap in Hin as (r & -> & Hr). pose proof (rep_small _ _ _ _ HR) as Hs.
  rewrite Forall_forall in Hs. specialize (Hs r Hr). pose proof (rep_bufCap _ _ _ _ HR). pose proof (rep_cap _ _ _ _ HR).
  pose proof (zlen_nonneg r.2). unfold is_uint32. nia.
Qed.

Lemma sent_batch_ok f peer fresh hs i b :
  sent_batch f peer fresh hs i b -> Forall (fun h => is_uint32 (zlen h)) hs -> is_uint32 (strlen (nodeID f)) ->
  Handshake_ok (mkHandshake (getPeerSeq (cstore f) peer) (c_authToken (client f))) -> Batch_ok b.
Proof.
  intros (es & Hsub & Hlen & ->) Hhs Hid Hhk. split; simpl.
  - done.
  - unfold zlen, is_uint32. rewrite length_fmap. lia.
  - apply Forall_fmap, Forall_forall. intros h Hh. rewrite Forall_forall in Hhs. by apply Hhs, Hsub.
  - intros h. case_ifs; [by intros [= <-]|done].
Qed.

Lemma sent_batch_admits {O'} (g : Capacitor O') f peer hs i b :
  sent_batch f peer true hs i b -> authToken g = EmptyString \/ authToken g = c_authToken (client f) ->
  admits g (true && bool_decide (i = 0%nat)) b.
Proof.
  intros (es & _ & _ & ->) [Ht|Ht]; [by left|right]. simpl. by destruct (bool_decide (i = 0%nat)).
Qed.
End sessions.

(** ** Catching up *)

Section cluster.
Context {O T : Type} {M : Msgpack O T} {W : Wire} {WL : WireLaws W} {SB : Source bytes} {SS : SliceSource}.
Context {R : Type} {HS : Source R} {SL : SourceLaws R} {EOF : SourceEOF SL}.
Variable NewReader : bytes -> R.
Hypothesis NewReader_view : forall b, view (NewReader b) = b.

(** The peer at [zlen hs] catches up with a log of [hs] and [es] over a new
    connection: what it reads from the stream, and the store it ends with. *)
Lemma catch_up S (f : Capacitor O) hs es L peer now :
  Rep S (dlog f) (hs ++ (marshal <$> es)) L -> zlen hs + zlen es < 9223372036854775806 -> client_inv (client f) ->
  lastSeq f peer = zlen hs -> zlen es <= capacity (dlog f) -> live_written (client f) peer = [] ->
  is_uint32 (strlen (nodeID f)) -> Handshake_ok (mkHandshake (getPeerSeq (cstore f) peer) (c_authToken (client f))) ->
  Forall LogEntry_ok es ->
  exists f' n, rounds (length es) f peer now = Ret f' /\ lastSeq f' peer = zlen hs + zlen es /\
    forall (fB : Capacitor O) clock,
      zlen (concat (live_written (client f') peer)) <= conn_limit ->
      authToken fB = EmptyString \/ authToken fB = c_authToken (client f) ->
      in_time clock (maxOffset (hlc fB)) es ->
      exists e fB', handleConn NewReader clock n fB None (concat (live_written (client f') peer)) = Some (EndStream e, fB') /\
        cstore fB' = deliver_store (cstore fB) (decoded <$> es).
Proof.
  intros HR Hn HC Hlast Hcap Hnew Hid Hhk Hes.
  assert (Hz : zlen (hs ++ (marshal <$> es)) = zlen hs + zlen es) by (unfold zlen; rewrite length_app, length_fmap; lia).
  pose proof (zlen_nonneg hs) as H0. pose proof (zlen_nonneg es) as H1.
  assert (Hp : earliest (hs ++ (marshal <$> es)) (capacity (dlog f)) - 1 <= zlen hs <= zlen (hs ++ (marshal <$> es)))
    by (unfold earliest; lia).
  destruct (rounds_spec S (length es) f _ L peer (zlen hs) now HR ltac:(lia) HC Hlast Hp)
    as (f' & bs & datas & Hr & Hl & Hw & Hm & He & Hs); [unfold zlen in *; lia|].
  pose proof (pending_sizes S _ _ L _ HR Hp) as Hsz.
  rewrite Hnew in Hw, Hs. rewrite bool_decide_true in Hs by done. simpl in Hw.
  assert (Hd : drop (Z.to_nat (zlen hs)) (hs ++ (marshal <$> es)) = marshal <$> es)
    by (unfold zlen; by rewrite Nat2Z.id, drop_app_length).
  rewrite Hd in He, Hs, Hsz. exists f', (Datatypes.S (length bs)). split_and!; [done|lia|].
  intros fB clock Hlim Ht Hin. rewrite Hw in *.
  destruct (handleConn_admitted NewReader clock bs datas fB NewReader_view Hlim Hm) as [e Hserve].
  - apply Forall_lookup. intros i b Hi. eapply sent_batch_ok; eauto.
  - intros g Hg i b Hi. eapply sent_batch_admits; eauto. by rewrite Hg.
  - exists e, (foldl (accept_batch clock) (fB, 0%nat) bs).1. split; [exact Hserve|]. by apply delivered_store.
Qed.
End cluster.

Lemma deliver_store_app {O T} {M : Msgpack O T} (s : store O) es es' :
  deliver_store s (es ++ es') = deliver_store (deliver_store s es) es'.
Proof. apply foldl_app. Qed.

Lemma labels_length {O T} {M : Msgpack O T} (es : list LogEntry) (calls : list (op_call (O := O))) :
  (entry_label <$> es) ≡ₚ omap pc_label (start <$> calls) -> zlen es <= zlen calls.
Proof.
  intros Hp%Permutation_length. rewrite length_fmap in Hp. unfold zlen. rewrite Hp.
  clear. induction calls as [|c calls IH]; [done|]. rewrite fmap_cons, omap_cons', length_app. simpl length.
  destruct (pc_label (start c)); simpl length; lia.
Qed.

(** ** Theorems *)

(** C3: Concurrent calls on one node: goroutines call [Set], [Delete],
    [IncrementBy], [UpdateMetric], [IncrementWindow] and the application of remote
    entries, and any schedule interleaves their lock-level steps.  Nothing panics
    and the log is at any moment the old one followed by well-formed entries
    stamped no later than the latest clock reading [P]; once every goroutine has
    had five turns all calls have returned; and when they have, the log holds
    exactly one entry for each local call, with its key and payload, no increment
    is lost (the node's own count is the old one plus all that was added), and a
    replica of the node as it was that is delivered the logged entries and the
    accepted remote ones, in any order and with any repetitions, has the node's
    counters and, if no remote write has the timestamp of another write of its
    key, the node's registers.

    What is asked ([run_ok]): the values set are ones the encoding gives back as
    they were and the TTLs whole milliseconds; counters have no colon in their
    name, the deltas are not negative and the sums stay below 2^53; every entry
    fits a slot of the log ([S] bytes); remote entries have a logical time within
    [L0], a physical one not after [P], carry counts of other nodes, exact and not
    negative; the store is well formed, the log represents its entries, and the
    clock's logical counter and the log's sequence numbers have room for the
    calls. *)
Theorem concurrent_calls_converge {O T} {M : Msgpack O T} {W : Wire} {WL : WireLaws W}
    (f0 : Capacitor O) hs S L0 P m0 calls sch :
  run_ok f0 hs S L0 P m0 calls -> Forall (fun ir => no_later P ir.2) sch ->
  exists f pcs es rs L,
    sched_run (f0, start <$> calls) sch = Ret (f, pcs) /\
    Rep S (dlog f) (hs ++ (marshal <$> es)) L /\ Forall (entry_in P) es /\ rs ⊆ omap pc_remote (start <$> calls) /\
    ((forall i, (i < length calls)%nat -> 5 <= turns i sch) -> Forall is_finished pcs) /\
    (Forall is_finished pcs ->
      (entry_label <$> es) ≡ₚ omap pc_label (start <$> calls) /\
      (forall key, no_colon key ->
         getNodeCount (cstore f) key (nodeID f0)
         = f_of_int (cget (m0 key) (nodeID f0) + zsum (own key) (start <$> calls))) /\
      forall ds, same_content ds (es ++ rs) ->
        (no_remote_ties es rs -> forall key, reg (deliver_store (cstore f0) ds) key = reg (cstore f) key) /\
        (forall key, no_colon key ->
           getAggregateCount (deliver_store (cstore f0) ds) key = getAggregateCount (cstore f) key /\
           forall n, getNodeCount (deliver_store (cstore f0) ds) key n = getNodeCount (cstore f) key n)).
Proof.
  intros HO Hsch. destruct (concurrent_run f0 hs S L0 P m0 calls sch HO Hsch) as (f & pcs & es & rs & E & HI & Hturns).
  pose proof (run_finished f0 hs S L0 P m0 calls f pcs es rs HO HI) as Hfin.
  destruct HI as [HB _ _ HT _ Hrem]. apply b_rep in HB as [L HR].
  exists f, pcs, es, rs, L. split_and!; [done|done|by apply t_es in HT| |done|done].
  intros e He. apply Hrem, elem_of_app. by left.
Qed.

(** C1: Concurrent writers and a peer agree: goroutines run calls on node A under
    any schedule that gives each of them five turns; A then replicates its log
    over a new connection, and peer B, which held A's old store and has been
    delivered the same remote entries, reads the connection to its end.  All calls
    have returned, the replicator's position is at the end of the log, and B's
    counters (totals and partial counts, of names without a colon) are A's, and so
    are its registers if no remote write has the timestamp of another write of
    its key.

    What is asked: the calls and the node are as in [run_ok] (values the encoding
    preserves, TTLs in whole milliseconds, non-negative deltas on names without a
    colon, sums below 2^53, entries that fit the slots of the log, remote entries
    of other nodes within the clock's bounds); the peer's position was the end of
    the old log and the log has at least one slot per call; the connection is new,
    the tokens agree or B has none, B's clock does not lag behind the latest
    reading [P] of A's by more than its offset, and the stream is within the 100 MB
    a connection may carry. *)
Theorem concurrent_writers_reach_peer {O T} {M : Msgpack O T} {W : Wire} {WL : WireLaws W}
    {SB : Source bytes} {SS : SliceSource} {R} {HS : Source R} {SL : SourceLaws R} {EOF : SourceEOF SL}
    (NewReader : bytes -> R) (fA : Capacitor O) hs S L0 P m0 calls sch peer now :
  (forall b, view (NewReader b) = b) ->
  run_ok fA hs S L0 P m0 calls -> node_typed fA -> Forall call_typed calls ->
  Forall (fun ir => no_later P ir.2) sch -> (forall i, (i < length calls)%nat -> 5 <= turns i sch) ->
  client_inv (client fA) -> live_written (client fA) peer = [] -> cpeerSeqs fA !! peer = Some (zlen hs) ->
  zlen calls <= capacity (dlog fA) -> is_uint32 (strlen (nodeID fA)) -> is_uint32 (strlen (c_authToken (client fA))) ->
  exists fA1 pcs es rs fA2 fuel,
    sched_run (fA, start <$> calls) sch = Ret (fA1, pcs) /\ Forall is_finished pcs /\
    (entry_label <$> es) ≡ₚ omap pc_label (start <$> calls) /\ rs ⊆ omap pc_remote (start <$> calls) /\
    rounds (length es) fA1 peer now = Ret fA2 /\ lastSeq fA2 peer = zlen hs + zlen es /\
    forall (fB : Capacitor O) rs' clock,
      cstore fB = deliver_store (cstore fA) rs' -> same_content rs' rs ->
      authToken fB = EmptyString \/ authToken fB = c_authToken (client fA) ->
      (forall k, P <= int64 ((clock k).2 + maxOffset (hlc fB))) ->
      zlen (concat (live_written (client fA2) peer)) <= conn_limit ->
      exists e fB', handleConn NewReader clock fuel fB None (concat (live_written (client fA2) peer))
                    = Some (EndStream e, fB') /\
        (no_remote_ties es rs -> forall key, reg (cstore fB') key = reg (cstore fA1) key) /\
        (forall key, no_colon key -> GetCount fB' key = GetCount fA1 key /\
           forall n, getNodeCount (cstore fB') key n = getNodeCount (cstore fA1) key n).
Proof.
  intros Hrd HO Hty Hcalls Hsch Hturns HC Hnew Hpos Hcap Hid Htok.
  destruct (concurrent_run fA hs S L0 P m0 calls sch HO Hsch) as (f & pcs & es & rs & E & HI & Hfin).
  specialize (Hfin Hturns). destruct (run_finished fA hs S L0 P m0 calls f pcs es rs HO HI Hfin) as (Hlab & _ & Hagree).
  destruct (sched_run_typed sch fA (start <$> calls) f pcs E Hty) as [Hty1 _]; [by apply Forall_fmap| |].
  { eapply Forall_impl; [exact Hsch|]. by intros ir []. }
  destruct HI as [HB _ _ HT _ Hrem]. apply t_es in HT.
  assert (Hes : Forall LogEntry_ok es) by (eapply Forall_impl; [exact HT|]; by intros e []). destruct HB as [Eid _ (L & HR) Ecap Hlen _ _ _ (Ecl & Eps & _)].
  pose proof (labels_length es calls Hlab). pose proof (todo_nonneg pcs) as Htodo.
  destruct (catch_up NewReader Hrd S f hs es L peer now HR) as (f2 & n & Hr & Hl & Hserve);
    rewrite ?Ecl, ?Ecap, ?Eid; auto; try lia.
  { unfold lastSeq. by rewrite Eps, Hpos. }
  { split; [apply getPeerSeq_typed, Hty1|done]. }
  exists f, pcs, es, rs, f2, n. split_and!; try done.
  { intros e He. apply Hrem, elem_of_app. by left. }
  intros fB rs' clock HsB Hsame Ht Hin Hlim. rewrite Ecl in Hserve.
  assert (Hint : in_time clock (maxOffset (hlc fB)) es).
  { intros e k He. rewrite Forall_forall in HT. destruct (HT e He) as [_ Hle]. specialize (Hin k). lia. }
  destruct (Hserve fB clock Hlim Ht Hint) as (e & fB' & Hs & Hst). exists e, fB'. split; [done|].
  rewrite HsB, <- deliver_store_app in Hst. unfold GetCount. rewrite Hst.
  assert (Hds : same_content (rs' ++ (decoded <$> es)) (es ++ rs)) by (by apply same_content_app_comm, decoded_same).
  destruct (Hagree _ Hds) as [H1 H2]. split; [done|]. intros key Hk. destruct (H2 key Hk) as [-> ?]. done.
Qed.

(** ** A concrete run

    Five goroutines on a new node, taking turns: a set, a delete of the same
    key, two increments of one counter, and a remote entry of another node. *)
Definition busy_node : Capacitor unit := with_cpeerSeqs {["n2" := 0]} (new_node "n1" "secret" 8 1000 false).

Definition third_entry : LogEntry := mkLogEntry 1 (mkTimestamp 1500 0) 0 MsgIncr "hits" "n3" None (f_of_int 10) 0.

Definition busy_calls : list (op_call (O := unit)) :=
  [CSet "k" (AString "v") 0; CDelete "k"; CIncrementBy "hits" 3; CIncrementBy "hits" 4; CApplyRemote third_entry].

Definition busy_schedule : list (nat * Z) :=
  t ← [2001; 2002; 2003; 2004; 2005]; i ← [4; 3; 2; 1; 0]%nat; [(i, t)].

Lemma hits_no_colon : no_colon "hits".
Proof. simpl. split_and!; first [exact I|discriminate]. Qed.

Lemma third_count_ok : count_ok third_entry.
Proof.
  intros _. split; [exact hits_no_colon|]. exists 10.
  split_and!; [lia|unfold exact53; lia|]. apply drop_zero_sign_id. unfold exact53. lia.
Qed.

Lemma busy_fits k n b :
  (LogEntry_Msgsize (H := Fixed.wire) (mkLogEntry 0 zero_Timestamp 0 0 k n (Some b) fzero 0) <=? 200) = true ->
  (strlen k <? 4294967296) && (strlen n <? 4294967296) && (zlen b <? 4294967296) = true ->
  op_fits (W := Fixed.wire) 200 k n b.
Proof. intros ? ?. unfold op_fits, is_uint32, strlen, zlen in *. split_and!; lia. Qed.

Lemma busy_ok : run_ok (M := Tagged.msgpack) (W := Fixed.wire) busy_node [] 200 0 3000 (fun _ => ∅) busy_calls.
Proof.
  split.
  - apply empty_store_wf.
  - exists []. apply NewDeltaLog_Rep; vm_compute; split || idtac; congruence.
  - unfold no_later. vm_compute. split_and!; congruence.
  - vm_compute. split; congruence.
  - by vm_compute.
  - pose proof busy_fits as Hf.
    pose proof hits_no_colon as Hk.
    unfold busy_calls. rewrite !fmap_cons. repeat apply Forall_cons_2; [..|apply Forall_nil_2]; cbn [start pc_ok].
    + exists [Byte.x01; Byte.x76]. split_and!; [done|done|done|vm_compute; split; congruence|by apply Hf].
    + by apply Hf.
    + split_and!; [by apply Hf|done|lia].
    + split_and!; [by apply Hf|done|lia].
    + split_and!; [vm_compute; split; congruence|apply third_count_ok|done|vm_compute; split_and!; congruence].
  - intros key Hk. split_and!.
    + apply counter_rep_empty.
    + intros n v Hv. by rewrite lookup_empty in Hv.
    + change (csum ∅) with 0. unfold busy_calls. rewrite !fmap_cons. cbn [start zsum foldr fmap list_fmap pend].
      unfold entry_count. repeat case_decide; vm_compute; congruence.
Qed.

Lemma busy_readings : Forall (fun ir : nat * Z => no_later 3000 ir.2) busy_schedule.
Proof. repeat constructor; vm_compute; congruence. Qed.

Lemma busy_turns i : (i < length busy_calls)%nat -> 5 <= turns i busy_schedule.
Proof. intros Hi. do 5 (destruct i as [|i]; [by vm_compute|]). simpl in Hi. lia. Qed.

Lemma concurrent_calls_converge_witness :
  exists f pcs es rs,
    sched_run (M := Tagged.msgpack) (W := Fixed.wire) (busy_node, start <$> busy_calls) busy_schedule = Ret (f, pcs) /\
    Forall is_finished pcs /\ length es = 4%nat /\ getNodeCount (cstore f) "hits" "n1" = f_of_int 7 /\
    (forall key, no_colon key ->
       getAggregateCount (deliver_store (M := Tagged.msgpack) (cstore busy_node) (es ++ rs)) key
       = getAggregateCount (cstore f) key).
Proof.
  destruct (concurrent_calls_converge (M := Tagged.msgpack) (WL := Fixed.wire_laws) busy_node [] 200 0 3000 (fun _ => ∅)
    busy_calls busy_schedule busy_ok busy_readings) as (f & pcs & es & rs & L & E & _ & _ & _ & Hturns & Hfin).
  specialize (Hturns busy_turns). destruct (Hfin Hturns) as (Hlab & Hown & Hrep).
  exists f, pcs, es, rs. split_and!; [exact E|done| | |].
  - apply Permutation_length in Hlab. rewrite length_fmap in Hlab. by rewrite Hlab.
  - apply (Hown "hits" hits_no_colon).
  - apply (Hrep (es ++ rs)). split; intros e He; exists e; by split.
Defined.

Definition quiet_peer (s : store unit) : Capacitor unit := with_store s (new_node "n2" "secret" 8 1000 false).

Lemma busy_in_time : 3000 <= int64 (3000 + DefaultMaxOffset).
Proof. by vm_compute. Qed.

Lemma busy_stream_small fA1 fA2 pcs (es : list LogEntry) :
  sched_run (M := Tagged.msgpack) (W := Fixed.wire) (busy_node, start <$> busy_calls) busy_schedule = Ret (fA1, pcs) ->
  rounds (W := Fixed.wire) (length es) fA1 "n2" 4000 = Ret fA2 ->
  (entry_label <$> es) ≡ₚ omap (pc_label (M := Tagged.msgpack)) (start <$> busy_calls) ->
  zlen (concat (live_written (client fA2) "n2")) <= conn_limit.
Proof.
  intros E Hr Hlab%Permutation_length. rewrite length_fmap in Hlab. rewrite Hlab in Hr. clear Hlab.
  vm_compute in E. injection E as <- _. vm_compute in Hr. injection Hr as <-. by vm_compute.
Qed.

Lemma concurrent_writers_reach_peer_witness :
  exists fA1 pcs (es rs : list LogEntry) fA2 fuel,
    sched_run (M := Tagged.msgpack) (W := Fixed.wire) (busy_node, start <$> busy_calls) busy_schedule = Ret (fA1, pcs) /\
    Forall is_finished pcs /\ rounds (W := Fixed.wire) (length es) fA1 "n2" 4000 = Ret fA2 /\ lastSeq fA2 "n2" = 4 /\
    exists e fB', handleConn (M := Tagged.msgpack) (HS := Fixed.source) (SB := Fixed.source) (fun b => b)
        (fun _ => (3000, 3000)) fuel
        (quiet_peer (deliver_store (M := Tagged.msgpack) empty_store rs)) None (concat (live_written (client fA2) "n2"))
        = Some (EndStream e, fB') /\
      GetCount fB' "hits" = GetCount fA1 "hits" /\ GetCount fA1 "hits" = 17.
Proof.
  destruct (concurrent_writers_reach_peer (M := Tagged.msgpack) (WL := Fixed.wire_laws) (SS := Fixed.slice)
    (SL := Fixed.source_laws) (EOF := fixed_eof) (fun b => b) busy_node [] 200 0 3000 (fun _ => ∅) busy_calls busy_schedule "n2" 4000
    (fun _ => eq_refl) busy_ok) as (fA1 & pcs & es & rs & fA2 & fuel & E & Hfin & Hlab & _ & Hr & Hl & Hpeer).
  - split; [apply empty_store_typed|vm_compute; split_and!; congruence].
  - unfold busy_calls. repeat apply Forall_cons_2; [..|apply Forall_nil_2]; unfold call_typed; cbn [start pc_typed];
      first [exact I|vm_compute; split; congruence|split; vm_compute; try split; congruence].
  - apply busy_readings.
  - apply busy_turns.
  - apply new_inv.
  - done.
  - by vm_compute.
  - by vm_compute.
  - vm_compute. split; congruence.
  - vm_compute. split; congruence.
  - exists fA1, pcs, es, rs, fA2, fuel. split_and!; [exact E|done|exact Hr| |].
    + rewrite Hl. apply Permutation_length in Hlab. rewrite length_fmap in Hlab. unfold zlen. by rewrite Hlab.
    + assert (Hsame : same_content rs rs) by (clear; split; intros e He; exists e; by split).
      destruct (Hpeer (quiet_peer (deliver_store (M := Tagged.msgpack) empty_store rs)) rs (fun _ => (3000, 3000))
        eq_refl Hsame (or_intror eq_refl) (fun _ => busy_in_time) (busy_stream_small fA1 fA2 pcs es E Hr Hlab))
        as (e & fB' & Hc & _ & Hcount).
      exists e, fB'. split; [exact Hc|]. split; [by apply (Hcount "hits" hits_no_colon)|].
      clear - E. vm_compute in E. by injection E as <- _.
Defined.
