(* ===== verification/Lifecycle.v ===== *)
(** * Start and end of a node (src/capacitor.go: New, Close; src/transport.go:
      NewStreamServer, Start, Stop; src/store.go: newStore, flushLoop,
      janitorLoop, close)

    [New] opens the database, loads the store, starts the background
    goroutines, the listener and the membership; [Close] closes the handles and
    the stop channels, and the goroutines end by themselves ([Goroutines]).  What
    the operating system, BadgerDB and memberlist answer is a [Host]; the
    goroutines and handles that are there are a list of [resource]s. *)

From S2P Require Import Prelude Float64 Hlc Types Msgp Codec DeltaLog Store StoreProofs Counters Metrics Client Node NodeProofs.
From S2P Require Import Persist WriteBack Restart Logging Sha256 NetAddr.
From stdpp Require Import pretty.

#[local] Open Scope Z_scope.
#[local] Open Scope go_scope.

(** ** Configuration *)

(** [TLSConfig] matters here as set or not set; the [Logger], which no operation
    reads, is the class of [Logging] and left out. *)
Record Config := mkConfig {
  cfg_NodeID : string;
  BindAddr : string;
  BindPort : Z;
  StreamPort : Z;
  AdvertiseAddr : string;
  Peers : list string;
  DataPath : string;
  LogSize : Z;
  TLSConfig : bool;
  cfg_AuthToken : string;
  DisableMetrics : bool
}.

(** The fields of memberlist's configuration the source touches. *)
Record mlConfig := mkMlConfig {
  ml_Name : string;
  ml_BindAddr : string;
  ml_BindPort : Z;
  ml_AdvertiseAddr : string;
  ml_SecretKey : option bytes
}.

(** What the surroundings answer: the host's name, opening the database at a
    path (in memory or not), an error of the transaction that loads it, a
    listener's bound address for TLS or not and an address, memberlist's local
    configuration, its creation with a configuration and the meta data the
    delegate answers during it, the members a join reports, and closing the
    database. *)
Record Host (DB : Type) := mkHost {
  hostname : string;
  open_db : string -> bool -> result DB;
  view_error : option merr;
  listen : bool -> string -> result string;
  DefaultLocalConfig : mlConfig;
  memberlist_Create : mlConfig -> string -> result mlConfig;
  memberlist_Join : list string -> list (string * string);
  close_db : DB -> option merr
}.
Arguments mkHost {DB}. Arguments hostname {DB}. Arguments open_db {DB}. Arguments view_error {DB}. Arguments listen {DB}.
Arguments DefaultLocalConfig {DB}. Arguments memberlist_Create {DB}. Arguments memberlist_Join {DB}.
Arguments close_db {DB}.

(** ** What runs *)

Inductive resource :=
| RDatabase | RFlushLoop | RStoreJanitor | RClientJanitor | RMemMonitor | RListener | RAcceptLoop | RMemberlist.

#[export] Instance resource_eq_dec : EqDecision resource.
Proof. solve_decision. Defined.

(** What is left without the goroutines and handles [rs]. *)
Definition release (rs open : list resource) : list resource := filter (fun r => r ∉ rs) open.

(** The stop channels, closed or not. *)
Record channels := mkChannels {
  stop_node : bool;
  stop_metrics : bool;
  stop_server : bool;
  stop_client : bool;
  stop_store : bool
}.

(** [close(ch)] panics on a closed channel. *)
Definition close_chan (closed : bool) : go bool := if closed then Panic else Ret true.

(** [StreamServer.Stop]: closes the channel and the listener. *)
Definition server_Stop (closed : bool) (open : list resource) : go (bool * list resource) :=
  let! c := close_chan closed in Ret (c, release [RListener] open).

(** [MetricsTracker.Stop] *)
Definition metrics_Stop (closed : bool) : go bool := close_chan closed.

(** [StreamClient.Close]: closes the channel and every connection. *)
Definition StreamClient_Close `{RangeOrder} (closed : bool) (c : StreamClient) : go (bool * StreamClient) :=
  let! s := close_chan closed in Ret (s, client_Close c).

(** ** New *)

Section node.
Context {O DB : Type} {C : ValCodec O} {B : Badger DB} {RO : RangeOrder}.
Implicit Types H : Host DB.

(** [newStore]: the resources it leaves running, and an error or the store. *)
Definition newStore H (path : string) (now : Z) : go (list resource * (merr + store O * DB)) :=
  match open_db H path (bool_decide (path = EmptyString)) with
  | Err e => Ret ([], inl e)
  | Ok db =>
      match view_error H with
      | Some e => Ret (release [RDatabase] [RDatabase], inl e)
      | None => let! s := load db now in Ret ([RDatabase; RFlushLoop; RStoreJanitor], inr (s, db))
      end
  end.

Definition NewStreamServer H (addr : string) (tls : bool) : result string := listen H tls addr.

Record RunningNode := mkRunning {
  i_node : Capacitor O;
  i_db : DB;
  i_streamAddr : string;
  i_ml : option mlConfig;
  (** what [NodeMeta] answered while memberlist was created *)
  i_meta : string;
  i_cancelled : bool;
  i_channels : channels;
  (** the batch of a flush that the flush loop has begun, with the time of its
      commit *)
  i_pending : option (Z * list wop)
}.

(** [NodeMeta] and the callbacks without effect. *)
Definition NodeMeta (streamAddr : string) (limit : Z) : bytes := bytes_of_string streamAddr.
Definition NotifyMsg (f : Capacitor O) (msg : bytes) : Capacitor O := f.
Definition GetBroadcasts (overhead limit : Z) : list bytes := [].
Definition LocalState (join : bool) : bytes := [].
Definition MergeRemoteState (f : Capacitor O) (buf : bytes) (join : bool) : Capacitor O := f.
Definition NotifyUpdate (f : Capacitor O) (name meta : string) : Capacitor O := f.

(** The defaults [New] fills in. *)
Definition node_id (cfg : Config) (host : string) (unix : Z) : string :=
  if decide (cfg_NodeID cfg = EmptyString) then host +:+ "-" +:+ pretty unix else cfg_NodeID cfg.

Definition ml_config (c : mlConfig) (cfg : Config) (id : string) : mlConfig :=
  mkMlConfig id
    (if decide (BindAddr cfg = EmptyString) then ml_BindAddr c else BindAddr cfg)
    (BindPort cfg) (ml_AdvertiseAddr c)
    (if decide (cfg_AuthToken cfg = EmptyString) then ml_SecretKey c
     else Some (Sha.Sum256 (bytes_of_string (cfg_AuthToken cfg)))).

Definition advertise (cfg : Config) (c : mlConfig) : string :=
  let addr := if decide (AdvertiseAddr cfg = EmptyString) then ml_AdvertiseAddr c else AdvertiseAddr cfg in
  if decide (addr = EmptyString \/ addr = "0.0.0.0") then "127.0.0.1" else addr.

(** The meta data limit of memberlist. *)
Definition MetaMaxSize : Z := 512.

(** [unix], [now] and [wall]: the readings for the default name, for [load] and
    for the clock. *)
Definition New H (cfg : Config) (unix now wall : Z) : go (list resource * (merr + RunningNode)) :=
  let id := node_id cfg (hostname H) unix in
  let! (open, r) := newStore H (DataPath cfg) now in
  match r with
  | inl e => Ret (open, inl e)
  | inr (s, db) =>
      let cp := with_store s (new_node id (cfg_AuthToken cfg) (LogSize cfg) wall (DisableMetrics cfg)) in
      let open := open ++ [RClientJanitor; RMemMonitor] in
      match NewStreamServer H ("0.0.0.0:" +:+ pretty (StreamPort cfg)) (TLSConfig cfg) with
      | Err e => Ret (open, inl e)
      | Ok bound =>
          let open := open ++ [RListener; RAcceptLoop] in
          let streamAddr := JoinHostPort "127.0.0.1" (port_of bound) in
          let mlCfg := ml_config (DefaultLocalConfig H) cfg id in
          let meta := string_of_bytes (NodeMeta streamAddr MetaMaxSize) in
          match memberlist_Create H mlCfg meta with
          | Err e => Ret (open, inl e)
          | Ok ml =>
              let open := open ++ [RMemberlist] in
              let streamAddr := JoinHostPort (advertise cfg ml) (port_of bound) in
              let joined := match Peers cfg with [] => [] | _ => memberlist_Join H (Peers cfg) end in
              let cp := foldl (fun f nm => NotifyJoin f nm.1 nm.2) cp joined in
              Ret (open, inr (mkRunning cp db streamAddr (Some ml) meta false (mkChannels false false false false false) None))
          end
      end
  end.

(** ** Close *)

(** [store.close]: the channel, the last flush at the readings [ck], and the
    database.  A flush that the loop has begun commits its batch between the last
    two when [late], and otherwise after the database is closed. *)
Definition store_Close H (closed : bool) (open : list resource) (s : store O) (db : DB) (pending : option (Z * list wop))
    (ck : flush_clock) (late : bool) : go (bool * list resource * store O * DB * option (Z * list wop) * option merr) :=
  let! c := close_chan closed in
  let '(s, db) := flush s db ck in
  let '(db, pending) :=
    match pending with
    | Some (t, ops) => if late then (db_write db t ops, None) else (db, pending)
    | None => (db, None)
    end in
  Ret (c, release [RDatabase] open, s, db, pending, close_db H db).

Definition Close H (open : list resource) (n : RunningNode) (ck : flush_clock) (late : bool)
    : go (list resource * RunningNode * option merr) :=
  let ch := i_channels n in
  let f := i_node n in
  let! c1 := close_chan (stop_node ch) in
  let! c2 := metrics_Stop (stop_metrics ch) in
  let open := match i_ml n with Some _ => release [RMemberlist] open | None => open end in
  let! (c3, open) := server_Stop (stop_server ch) open in
  let! (c4, c) := StreamClient_Close (stop_client ch) (client f) in
  let f := with_client c f in
  let! (c5, open, s, db, pending, err) := store_Close H (stop_store ch) open (cstore f) (i_db n) (i_pending n) ck late in
  Ret (open, mkRunning (with_store s f) db (i_streamAddr n) (i_ml n) (i_meta n) true (mkChannels c1 c2 c3 c4 c5) pending, err).
End node.
Arguments RunningNode : clear implicits.

(** ** A started node *)

Definition all_resources : list resource :=
  [RDatabase; RFlushLoop; RStoreJanitor; RClientJanitor; RMemMonitor; RListener; RAcceptLoop; RMemberlist].

(** The steps of [New] succeed, with these results. *)
Record host_ready {DB} (H : Host DB) (cfg : Config) (unix : Z) (db : DB) (bound : string) (ml : mlConfig) : Prop := {
  hr_open : open_db H (DataPath cfg) (bool_decide (DataPath cfg = EmptyString)) = Ok db;
  hr_view : view_error H = None;
  hr_listen : listen H (TLSConfig cfg) ("0.0.0.0:" +:+ pretty (StreamPort cfg)) = Ok bound;
  hr_create : memberlist_Create H (ml_config (DefaultLocalConfig H) cfg (node_id cfg (hostname H) unix))
                (JoinHostPort "127.0.0.1" (port_of bound)) = Ok ml
}.

Section lifecycle.
Context {O DB : Type} {C : ValCodec O} {B : Badger DB} {RO : RangeOrder}.
Implicit Types (H : Host DB) (f : Capacitor O) (n : RunningNode O DB).

Lemma load_item_wf now (s s' : store O) kv : load_item now s kv = Ret s' -> store_wf s -> store_wf s'.
Proof.
  destruct kv as [k v]. unfold load_item, load_count.
  case_ifs; [done|..]; try (intros [= <-]; auto with go); try done.
  - destruct (split_colon k) as [|? [|? [|]]]; intros [= <-]; auto with go.
  - destruct (Unmarshal_val v) as [w|]; [case_ifs|]; intros [= <-]; auto with go.
Qed.

Lemma load_wf (db : DB) now (s : store O) : load db now = Ret s -> store_wf s.
Proof.
  unfold load. assert (Hg : forall l (r : go (store O)), (forall s0, r = Ret s0 -> store_wf s0) ->
    forall s1, foldl (fun r kv => let! s := r in load_item now s kv) r l = Ret s1 -> store_wf s1).
  { induction l as [|kv l IH]; intros r Hr; simpl; [done|]. apply IH. intros s0.
    destruct r as [s2|]; [|done]. simpl. intros Hs. by eapply load_item_wf, Hr. }
  apply Hg. intros s0 [= <-]. apply empty_store_wf.
Qed.

(** Joins start replicators and change nothing else. *)
Lemma joined_fold f nms :
  let f' := foldl (fun f nm => NotifyJoin f nm.1 nm.2) f nms in
  (exists ps rs cl, f' = with_peers ps rs cl f) /\ (peers_inv f -> peers_inv f').
Proof.
  cbv zeta. revert f. induction nms as [|[a m] nms IH]; intros f.
  { split; [|done]. exists (peerStops f), (replicators f), (closed f). by destruct f. }
  cbn [foldl fst snd]. destruct (IH (NotifyJoin f a m)) as [(ps & rs & cl & Hf) HI]. split.
  - rewrite Hf. exists ps, rs, cl. unfold NotifyJoin, startPeerReplicator.
    repeat case_decide; try done. by destruct (peerStops f !! a).
  - intros Hp. apply HI. exact (on_member_peers f (NodeProofs.Join a m) Hp).
Qed.

(** What a successful [New] builds. *)
Lemma New_ready H cfg unix now wall db bound ml (s : store O) :
  host_ready H cfg unix db bound ml -> load db now = Ret s ->
  exists n, New H cfg unix now wall = Ret (all_resources, inr n) /\
    (exists ps rs cl, i_node n = with_peers ps rs cl (with_store s
       (new_node (node_id cfg (hostname H) unix) (cfg_AuthToken cfg) (LogSize cfg) wall (DisableMetrics cfg)))) /\
    peers_inv (i_node n) /\ i_db n = db /\ i_ml n = Some ml /\
    i_streamAddr n = JoinHostPort (advertise cfg ml) (port_of bound) /\
    i_meta n = JoinHostPort "127.0.0.1" (port_of bound) /\ i_cancelled n = false /\
    i_channels n = mkChannels false false false false false /\ i_pending n = None.
Proof.
  intros [H1 H2 H3 H4] Hl. unfold New, newStore, NewStreamServer, NodeMeta. rewrite H1, H2, Hl. cbn [go_bind].
  rewrite H3, string_of_bytes_of_string, H4. eexists. split; [done|]. cbn [i_node i_db i_ml i_streamAddr i_meta i_cancelled i_channels i_pending].
  match goal with |- context [foldl ?g ?f ?l] => pose proof (joined_fold f l) as [Hf HI] end.
  split_and!; try done. apply HI. by destruct (new_node_peers (O := O) (node_id cfg (hostname H) unix) (cfg_AuthToken cfg)
    (LogSize cfg) wall (DisableMetrics cfg)).
Qed.

(** What [Close] does while the channels are open: the handles are released and
    the channels closed, the goroutines are still there. *)
Lemma Close_open H open n ck late :
  i_channels n = mkChannels false false false false false ->
  exists n' err, Close H open n ck late
    = Ret (release [RDatabase] (release [RListener]
        match i_ml n with Some _ => release [RMemberlist] open | None => open end), n', err) /\
    (i_pending n = None -> i_db n' = store_close (cstore (i_node n)) (i_db n) ck) /\
    client (i_node n') = client_Close (client (i_node n)) /\
    replicators (i_node n') = replicators (i_node n) /\ err = close_db H (i_db n') /\
    i_cancelled n' = true /\ i_channels n' = mkChannels true true true true true.
Proof.
  intros Hc. unfold Close, metrics_Stop, server_Stop, StreamClient_Close, store_Close. rewrite Hc.
  cbn [close_chan stop_node stop_metrics stop_server stop_client stop_store go_bind].
  unfold store_close. cbn [cstore with_client]. destruct (flush (cstore (i_node n)) (i_db n) ck) as [s db] eqn:E.
  destruct (i_pending n) as [[t ops]|]; [destruct late|]; cbn [go_bind]; eexists _, _; (split; [done|]); by split_and!.
Qed.

(** A second [Close] panics. *)
Lemma Close_closed H open n ck late : stop_node (i_channels n) = true -> Close H open n ck late = Panic.
Proof. intros Hc. unfold Close. by rewrite Hc. Qed.

End lifecycle.

(** ** Theorems *)

(** C16: A start that fails: [New] returns the error of the first step that
    failed.  When that is the database, nothing is left running and the
    database is closed; when it is the listener or the membership, the error is
    returned without undoing what was started: the database and its two loops,
    the client's janitor and the memory monitor keep running, and in the second
    case the listener too. *)
Theorem New_failure {O DB} {C : ValCodec O} {B : Badger DB} {RO : RangeOrder} (H : Host DB) cfg unix now wall open e :
  New (O := O) H cfg unix now wall = Ret (open, inl e) ->
  (open = [] /\ (open_db H (DataPath cfg) (bool_decide (DataPath cfg = EmptyString)) = Err e \/ view_error H = Some e)) \/
  (exists db, open_db H (DataPath cfg) (bool_decide (DataPath cfg = EmptyString)) = Ok db /\ view_error H = None /\
    ((listen H (TLSConfig cfg) ("0.0.0.0:" +:+ pretty (StreamPort cfg)) = Err e /\
      open = [RDatabase; RFlushLoop; RStoreJanitor; RClientJanitor; RMemMonitor]) \/
     (exists bound, listen H (TLSConfig cfg) ("0.0.0.0:" +:+ pretty (StreamPort cfg)) = Ok bound /\
      memberlist_Create H (ml_config (DefaultLocalConfig H) cfg (node_id cfg (hostname H) unix))
        (JoinHostPort "127.0.0.1" (port_of bound)) = Err e /\
      open = [RDatabase; RFlushLoop; RStoreJanitor; RClientJanitor; RMemMonitor; RListener; RAcceptLoop]))).
Proof.
  unfold New, newStore, NewStreamServer, NodeMeta. intros Hn.
  destruct (open_db _ _ _) as [db|e1]; [|left; cbn in Hn; injection Hn as <- <-; auto].
  destruct (view_error H) as [e2|]; [left; cbn in Hn; injection Hn as <- <-; auto|].
  destruct (load db now) as [s|]; [|done]. cbn [go_bind] in Hn. right. exists db. split_and!; [done|done|].
  destruct (listen _ _ _) as [bound|e3]; [right; exists bound|left; injection Hn as <- <-; done].
  rewrite string_of_bytes_of_string in Hn. destruct (memberlist_Create _ _ _) as [ml|e4]; [done|].
  injection Hn as <- <-. done.
Qed.

(** C14: Data survives [Close] and [New]: a node whose store and database went
    through a run of store operations and flushes, and whose flush loop is not in
    the middle of a flush, is closed with the clock readings [ck]; whenever a host
    then opens that database and [New] gets its listener and membership, it starts
    a node, at a time [t] not before those readings, with an empty well-formed log
    and client.  Its store has the registers that do not expire within a second
    (timestamp, expiry, deletion mark, and the value as it decodes; a register
    whose value does not decode into an [any] is dropped) and no expired or absent
    ones, every partial count, and aggregates that are their sums when the counts
    are non-negative integers with a sum below 2^53.

    What is asked of the operations ([pop_ok]) and of the names, as for a restart
    of the store alone: register keys do not start with a prefix the database uses
    ([c:], [mc:], [ms:], [sw:], [meta:seq:]) and are not names of windows or nodes
    ([side]), keys of counters and metrics have no colon, the values can be
    encoded and the database accepts the entries. *)
Theorem close_then_new {O DB} {W : Wire} {C : ValCodec O} {CL : ValCodecLaws C} {B : Badger DB} {BL : BadgerLaws B} {RO : RangeOrder}
    (H : Host DB) open (n : RunningNode O DB) t side os ck late :
  t < 9223372036854775808 -> Forall (pop_ok t side) os ->
  foldl pop_step (empty_store, db_empty) os = (cstore (i_node n), i_db n) -> clock_ok t ck ->
  i_channels n = mkChannels false false false false false -> i_pending n = None ->
  exists open' n1 err, Close H open n ck late = Ret (open', n1, err) /\
  forall H' cfg unix wall bound ml, host_ready H' cfg unix (i_db n1) bound ml ->
  exists n2, New H' cfg unix t wall = Ret (all_resources, inr n2) /\
    let s := cstore (i_node n) in
    let s' := cstore (i_node n2) in
    store_wf s' /\ peers_inv (i_node n2) /\ client_inv (client (i_node n2)) /\ log_Head (dlog (i_node n2)) = 0 /\
    (forall k v, regkey side k -> reg s k = Some v ->
       (survives t v -> reg s' k = canon_reg v) /\ (expired t v = true -> reg s' k = None)) /\
    (forall k, regkey side k -> reg s k = None -> reg s' k = None) /\
    (forall kd key n f, no_colon key -> part s kd key n = Some f -> is_float64 f -> part s' kd key n = Some f) /\
    (forall kd key m, no_colon key -> (forall n, part s kd key n = f_of_int <$> m !! n) -> nonneg m ->
       csum m < 2 ^ 53 -> agg s' kd key = f_of_int (csum m)).
Proof.
  intros Ht Hos Hrun Hn Hch Hpend. destruct (Close_open H open n ck late Hch) as (n1 & err & Hc & Hdb & _).
  specialize (Hdb Hpend). eexists _, n1, _. split; [exact Hc|]. intros H' cfg unix wall bound ml Hr.
  destruct (restart_spec t side os ck _ _ Ht Hos Hrun Hn) as (s' & Hl & Hkept). rewrite <- Hdb in Hl.
  destruct (New_ready H' cfg unix t wall _ bound ml s' Hr Hl) as (n2 & Hnew & (ps & rs & cl & Hnode) & Hp & _).
  exists n2. split; [exact Hnew|]. cbv zeta. rewrite Hnode in *. split_and!; [by eapply load_wf|done|apply new_inv|done|..];
    apply Hkept.
Qed.

(** ** Witnesses *)

#[local] Existing Instances MemDB.badger MemDB.laws FixedVal.codec FixedVal.codec_laws.

(** A host whose database holds [db], with a listener on port 7000. *)
Definition sample_host (db : MemDB.t) (listener : result string) : Host MemDB.t :=
  mkHost "box" (fun _ _ => Ok db) None (fun _ _ => listener) (mkMlConfig EmptyString "0.0.0.0" 7946 EmptyString None)
    (fun c _ => Ok c) (fun _ => [("n2", "10.0.0.2:7000")]) (fun _ => None).

Definition sample_config (advertise : string) : Config :=
  mkConfig EmptyString EmptyString 0 0 advertise ["10.0.0.2:7946"] "/data" 8 false "secret" false.

Definition bound_port : result string := Ok "[::]:7000".

Definition busy_port : result string := Err (LibError "address already in use").

Lemma New_failure_witness :
  exists open e, New (O := unit) (sample_host db_empty busy_port) (sample_config EmptyString) 1700000000 5 5 = Ret (open, inl e) /\
    e = LibError "address already in use" /\ RDatabase ∈ open /\ RFlushLoop ∈ open.
Proof.
  destruct (New (O := unit) (sample_host db_empty busy_port) (sample_config EmptyString) 1700000000 5 5)
    as [[open [e|n]]|] eqn:E; [|by vm_compute in E|by vm_compute in E].
  exists open, e. split; [done|]. apply New_failure in E as [[_ [Ho|Ho]]|(db & _ & _ & [[He Ho]|(b & Hb & _)])]; [done|done| |done].
  split; [by injection He|]. rewrite Ho. split; set_solver.
Defined.

(** The node the sample host starts. *)
Definition sample_started (advertise : string) : go (list resource * (merr + RunningNode unit MemDB.t)) :=
  New (sample_host db_empty bound_port) (sample_config advertise) 1700000000 5 5.

(** The node of the restart example, as an instance. *)
Definition restart_node : RunningNode unit MemDB.t :=
  let sd := foldl pop_step (empty_store, db_empty : MemDB.t) restart_ops in
  mkRunning (with_store sd.1 (new_node "n1" "secret" 8 5 false)) sd.2 EmptyString None EmptyString false
    (mkChannels false false false false false) None.

Lemma close_then_new_witness :
  exists open' n1 err, Close (sample_host db_empty bound_port) all_resources restart_node (steady 40) true = Ret (open', n1, err) /\
  exists n2, New (sample_host (i_db n1) bound_port) (sample_config EmptyString) 1700000000 2000000000 2000000000
    = Ret (all_resources, inr n2) /\ store_wf (cstore (i_node n2)) /\
    forall k v, regkey (DB := MemDB.t) restart_side k -> reg (cstore (i_node restart_node)) k = Some v ->
      survives 2000000000 v -> reg (cstore (i_node n2)) k = canon_reg v.
Proof.
  destruct (close_then_new (W := Fixed.wire) (sample_host db_empty bound_port) all_resources restart_node 2000000000 restart_side restart_ops
    (steady 40) true) as (open' & n1 & err & Hc & Hnew); [lia|exact restart_ops_ok| |apply steady_ok; lia|done|done|].
  { unfold restart_node. by destruct (foldl pop_step _ restart_ops). }
  exists open', n1, err. split; [exact Hc|].
  destruct (Hnew (sample_host (i_db n1) bound_port) (sample_config EmptyString) 1700000000 2000000000 "[::]:7000"
    (ml_config (DefaultLocalConfig (sample_host (i_db n1) bound_port)) (sample_config EmptyString) "box-1700000000"))
    as (n2 & Hn2 & Hwf & _ & _ & _ & Hreg & _).
  { split; by vm_compute. }
  exists n2. split_and!; [exact Hn2|exact Hwf|]. intros k v Hk Hv. apply (Hreg k v Hk Hv).
Defined.

(** ** The advertised address *)

(** The address the node keeps splits back into the configured host and the
    port of its listener. *)
Lemma streamAddr_splits cfg ml bound :
  plain_host (advertise cfg ml) -> plain_port (port_of bound) ->
  SplitHostPort (JoinHostPort (advertise cfg ml) (port_of bound)) = Some (advertise cfg ml, port_of bound).
Proof. apply Split_Join. Qed.

(** What the delegate answers while the membership is created, and so what is
    announced to peers, is the loopback address: the configured address is set
    afterwards. *)
Example advertised_address_is_set_too_late :
  (let! r := sample_started "192.0.2.7" in
   Ret (match r.2 with inr n => Some (i_streamAddr n, i_meta n) | inl _ => None end))
  = Ret (Some ("192.0.2.7:7000", "127.0.0.1:7000")).
Proof. vm_compute. reflexivity. Qed.
