(* ===== verification/Goroutines.v ===== *)
(** * The goroutines of a node, and how they end

    What runs beside the calls of the API: the flush loop and the janitor of the
    store, the client's janitor, the memory monitor, the accept loop, a handler
    per accepted connection and a replicator per peer.  [gstep] is one step of one
    of them, or a call; [Close] closes the channels the loops select on, and the
    loops end by their own steps.

    [Close] is one step here: what other goroutines do while it runs comes before
    or after it, except the commit of a flush that had begun ([late]).  A flush of
    the loop is two steps, the snapshot and the commit of the batch. *)

From S2P Require Import Prelude Float64 Hlc Types Msgp Codec CodecProofs DeltaLog Store StoreProofs Counters.
From S2P Require Import Metrics Client Node NodeProofs Server Persist WriteBack Restart Lifecycle.

#[local] Open Scope Z_scope.
#[local] Open Scope go_scope.

(** ** One turn of a loop *)

Inductive turn (A : Type) := Ticked (a : A) | Ended.
Arguments Ticked {A}. Arguments Ended {A}.

(** [select] on a ticker and a stop channel: the channel can be taken once it is
    closed; a tick that is ready can still be taken then. *)
Inductive select {A} (stopped : bool) (tick : A -> Prop) : turn A -> Prop :=
| select_tick a : tick a -> select stopped tick (Ticked a)
| select_stop : stopped = true -> select stopped tick Ended.

(** One iteration of [StreamServer.Start], by whether [Accept] returned a
    connection and whether the stop channel is closed. *)
Inductive accept_outcome := Serve | Again | Return.

Definition Start_turn (accepted stopped : bool) : accept_outcome :=
  if accepted then Serve else if stopped then Return else Again.

Section turns.
Context {O : Type} {C : ValCodec O} {RO : RangeOrder}.

(** A tick of [flushLoop] begins a flush: the snapshot, and the batch with the
    time of its commit. *)
Definition flushLoop_turn (stopped : bool) (s : store O) : turn (store O * list wop * Z) -> Prop :=
  select stopped (fun r => exists ck, r = (flush_snapshot s ck, commit_at ck)).

Definition janitorLoop_turn (stopped : bool) (s : store O) : turn (store O) -> Prop :=
  select stopped (fun s' => exists now now', s' = pruneExpiredKeys (pruneStaleWindows s now) now').

Definition client_janitor_turn (stopped : bool) (c : StreamClient) : turn StreamClient -> Prop :=
  select stopped (fun c' => exists now, c' = janitor_tick c now).

Definition memMonitor_turn (stopped : bool) (m : MetricsTracker) : turn MetricsTracker -> Prop :=
  select stopped (fun m' => exists ms, m' = memMonitor_tick m ms).
End turns.

(** ** Replicators

    A replicator looks whether it is to stop or has something to send; under the
    lock of the log it decides to wait, and then waits on the condition variable,
    where a broadcast wakes it. *)
Inductive rstate := Looking | Decided | Asleep.

#[export] Instance rstate_eq_dec : EqDecision rstate.
Proof. solve_decision. Defined.

(** [cond.Broadcast] *)
Definition wake (rs : gmap nat rstate) : gmap nat rstate :=
  (fun st => match st with Asleep => Looking | _ => st end) <$> rs.

(** ** The running node *)

Section world.
Context {O T DB : Type} {M : Msgpack O T} {W : Wire} {SB : Source bytes} {C : ValCodec O} {B : Badger DB} {RO : RangeOrder}.
Implicit Types (f : Capacitor O) (n : RunningNode O DB).

(** What is there, the node, the number of handlers, and the replicators by
    their stop channel. *)
Record world := mkWorld {
  w_open : list resource;
  w_inst : RunningNode O DB;
  w_handlers : nat;
  w_reps : gmap nat rstate
}.
Implicit Types w : world.

Abbreviation w_node w := (i_node (w_inst w)).
Abbreviation w_chan w := (i_channels (w_inst w)).

Definition set_node f w : world :=
  let n := w_inst w in
  mkWorld (w_open w) (mkRunning f (i_db n) (i_streamAddr n) (i_ml n) (i_meta n) (i_cancelled n) (i_channels n) (i_pending n))
    (w_handlers w) (w_reps w).
Definition set_db (db : DB) (pending : option (Z * list wop)) w : world :=
  let n := w_inst w in
  mkWorld (w_open w) (mkRunning (i_node n) db (i_streamAddr n) (i_ml n) (i_meta n) (i_cancelled n) (i_channels n) pending)
    (w_handlers w) (w_reps w).
Definition set_handlers (h : nat) w : world := mkWorld (w_open w) (w_inst w) h (w_reps w).
Definition set_reps (rs : gmap nat rstate) w : world := mkWorld (w_open w) (w_inst w) (w_handlers w) rs.
(** The goroutine [r] returns. *)
Definition finish (r : resource) w : world := mkWorld (release [r] (w_open w)) (w_inst w) (w_handlers w) (w_reps w).

(** The node [New] returns: a replicator for each peer that has joined. *)
Definition started (open : list resource) n : world :=
  mkWorld open n 0 (gset_to_gmap Looking (set_seq 0 (length (replicators (i_node n))))).

(** A call has appended to the log, which wakes the replicators. *)
Definition logged f f' : bool := negb (head (dlog f) =? head (dlog f')).

(** A replicator that was started joins the others. *)
Definition spawn f f' (rs : gmap nat rstate) : gmap nat rstate :=
  if (length (replicators f) <? length (replicators f'))%nat then <[length (replicators f) := Looking]> rs else rs.

Definition rounds_reps (i : nat) (r : loop_outcome (O := O)) w : world :=
  match r with
  | LoopExit => set_reps (delete i (w_reps w)) w
  | LoopWait => set_reps (<[i := Decided]> (w_reps w)) w
  | LoopSent f => set_node f w
  end.

(** No replicator holds the lock of the log. *)
Definition unlocked w : Prop := forall i, w_reps w !! i <> Some Decided.

(** One step; [true] for a call that appended to the log.  What a commit on a
    closed database does is left open. *)
Inductive gstep : bool -> world -> world -> Prop :=
| g_flush w s ops t :
    RFlushLoop ∈ w_open w -> i_pending (w_inst w) = None ->
    flushLoop_turn (stop_store (w_chan w)) (cstore (w_node w)) (Ticked (s, ops, t)) ->
    gstep false w (set_db (i_db (w_inst w)) (Some (t, ops)) (set_node (with_store s (w_node w)) w))
| g_commit w t ops db :
    i_pending (w_inst w) = Some (t, ops) -> (RDatabase ∈ w_open w -> db = db_write (i_db (w_inst w)) t ops) ->
    gstep false w (set_db db None w)
| g_flush_end w :
    RFlushLoop ∈ w_open w -> i_pending (w_inst w) = None ->
    flushLoop_turn (stop_store (w_chan w)) (cstore (w_node w)) Ended -> gstep false w (finish RFlushLoop w)
| g_janitor w s :
    RStoreJanitor ∈ w_open w -> janitorLoop_turn (stop_store (w_chan w)) (cstore (w_node w)) (Ticked s) ->
    gstep false w (set_node (with_store s (w_node w)) w)
| g_janitor_end w :
    RStoreJanitor ∈ w_open w -> janitorLoop_turn (stop_store (w_chan w)) (cstore (w_node w)) Ended ->
    gstep false w (finish RStoreJanitor w)
| g_client w c :
    RClientJanitor ∈ w_open w -> client_janitor_turn (stop_client (w_chan w)) (client (w_node w)) (Ticked c) ->
    gstep false w (set_node (with_client c (w_node w)) w)
| g_client_end w :
    RClientJanitor ∈ w_open w -> client_janitor_turn (stop_client (w_chan w)) (client (w_node w)) Ended ->
    gstep false w (finish RClientJanitor w)
| g_monitor w m :
    RMemMonitor ∈ w_open w -> memMonitor_turn (stop_metrics (w_chan w)) (metrics (w_node w)) (Ticked m) ->
    gstep false w (set_node (with_metrics m (w_node w)) w)
| g_monitor_end w :
    RMemMonitor ∈ w_open w -> memMonitor_turn (stop_metrics (w_chan w)) (metrics (w_node w)) Ended ->
    gstep false w (finish RMemMonitor w)
| g_accept w ok :
    RAcceptLoop ∈ w_open w -> (ok = true -> RListener ∈ w_open w) ->
    gstep false w (match Start_turn ok (stop_server (w_chan w)) with
                   | Serve => set_handlers (S (w_handlers w)) w
                   | Again => w
                   | Return => finish RAcceptLoop w
                   end)
| g_batch w clock first k batch f k' :
    w_handlers w <> 0%nat -> handle_batch clock (w_node w) first k batch = inr (f, k') -> gstep false w (set_node f w)
| g_handler_end w : w_handlers w <> 0%nat -> gstep false w (set_handlers (pred (w_handlers w)) w)
| g_replicator w i peer addr now dok wok r :
    w_reps w !! i = Some Looking -> (peer, addr, i) ∈ replicators (w_node w) -> unlocked w ->
    replicator_round (w_node w) (i_cancelled (w_inst w)) peer i now dok wok = Ret r -> gstep false w (rounds_reps i r w)
| g_sleep w i : w_reps w !! i = Some Decided -> gstep false w (set_reps (<[i := Asleep]> (w_reps w)) w)
| g_call w op f :
    unlocked w -> node_step (w_node w) op = Ret f ->
    gstep (logged (w_node w) f) w
      (set_reps (if logged (w_node w) f then wake (w_reps w) else w_reps w) (set_node f w))
| g_member w ev :
    RMemberlist ∈ w_open w ->
    let f := on_member (w_node w) ev in
    gstep false w (set_reps (spawn (w_node w) f (match ev with NodeProofs.Leave _ => wake (w_reps w) | _ => w_reps w end))
                     (set_node f w)).

Definition gsteps : world -> world -> Prop := rtc (fun w w' => exists b, gstep b w w').

(** [Close] on the running node: it also wakes the replicators. *)
Definition close_world (H : Host DB) w (ck : flush_clock) (late : bool) : go (world * option merr) :=
  let! (open, n, err) := Close H (w_open w) (w_inst w) ck late in
  Ret (mkWorld open n (w_handlers w) (wake (w_reps w)), err).
End world.
Arguments world : clear implicits.

(** ** Invariants *)

Section invariants.
Context {O T DB : Type} {M : Msgpack O T} {W : Wire} {SB : Source bytes} {C : ValCodec O} {B : Badger DB} {RO : RangeOrder}.
Implicit Types (f : Capacitor O) (w : world O DB).
Abbreviation w_node w := (i_node (w_inst w)).
Abbreviation w_chan w := (i_channels (w_inst w)).

(** Calls, batches and rounds of replication start no replicator. *)
Lemma remote_replicators f e now wall : replicators (applyRemoteEntry f e now wall) = replicators f.
Proof. unfold applyRemoteEntry. case_ifs; cbn [hlc with_metrics]; by destruct (Update (hlc f) wall (TS e)) as [[? [|]] ?]. Qed.

Lemma apply_entries_replicators clock f k raws : replicators (apply_entries clock f k raws).1 = replicators f.
Proof.
  revert f k. induction raws as [|r raws IH]; intros f k; simpl; [done|].
  destruct (LogEntry_UnmarshalMsg _ _) as [[e rest]|]; [|done]. destruct (clock k) as [now wall].
  by rewrite IH, remote_replicators.
Qed.

Lemma handle_batch_replicators clock f first k batch f' k' :
  handle_batch clock f first k batch = inr (f', k') -> replicators f' = replicators f.
Proof.
  unfold handle_batch. destruct (b_Handshake batch) as [h|]; case_ifs; [done| |done|]; intros [= Ha];
    match type of Ha with apply_entries _ ?g _ _ = _ => pose proof (apply_entries_replicators clock g k (Entries batch)) as Hr end;
    rewrite Ha in Hr; exact Hr.
Qed.

Lemma append_replicators f e f' : append f e = Ret f' -> replicators f' = replicators f.
Proof. unfold append. destruct (log_Append _ _) as [[? ?]|]; simpl; [|done]. by intros [= <-]. Qed.

Lemma observe_replicators k lat f : replicators (observe k lat f) = replicators f.
Proof. unfold observe. by destruct (disableMetrics f). Qed.

Lemma node_step_replicators f op f' : node_step f op = Ret f' -> replicators f' = replicators f.
Proof.
  destruct op; cbn [node_step]; unfold cp_Set, cp_Delete, IncrementBy, cp_IncrementMetric, IncrementSlidingWindow, tick.
  - destruct (Now (hlc f) wall) as [ts h]. destruct (Marshal value) as [b|]; cbn [go_bind]; [|by intros [= <-]].
    destruct (append _ _) as [g|] eqn:E; cbn [go_bind]; [|done]. intros [= <-].
    rewrite observe_replicators. by apply append_replicators in E.
  - destruct (Now (hlc f) wall) as [ts h]. destruct (append _ _) as [g|] eqn:E; cbn [go_bind]; [|done]. intros [= <-].
    rewrite observe_replicators. by apply append_replicators in E.
  - destruct (increment _ _ _ _) as [v s]. cbn [hlc with_store]. destruct (Now (hlc f) wall) as [ts h].
    destruct (append _ _) as [g|] eqn:E; cbn [go_bind]; [|done]. intros [= <-].
    rewrite observe_replicators. by apply append_replicators in E.
  - destruct (incrementMetric _ _ _ _) as [v s]. cbn [hlc with_store]. destruct (Now (hlc f) wall) as [ts h].
    destruct (append _ _) as [g|] eqn:E; cbn [go_bind]; [|done]. intros [= <-]. by apply append_replicators in E.
  - destruct (Now (hlc f) wall) as [ts h]. destruct (incrementSlidingWindow _ _ _ _ _) as [v s].
    destruct (append _ _) as [g|] eqn:E; cbn [go_bind]; [|done]. intros [= <-]. by apply append_replicators in E.
  - intros [= <-]. apply remote_replicators.
  - by intros [= <-].
Qed.

Lemma replicateToPeer_replicators f peer now dok wok f' :
  replicateToPeer f peer now dok wok = Ret f' -> replicators f' = replicators f.
Proof.
  unfold replicateToPeer. destruct (GetEntriesRaw _ _ _ _) as [raws|]; cbn [go_bind]; [|done].
  destruct raws as [|r raws]; [by intros [= <-]|]. destruct (SendBatch _ _ _ _ _ _ _) as [[e|] c]; by intros [= <-].
Qed.

(** Members that join or leave keep the replicators and add at most one. *)
Lemma on_member_replicators f ev :
  replicators (on_member f ev) = replicators f \/
  exists peer addr, replicators (on_member f ev) = replicators f ++ [(peer, addr, length (replicators f))].
Proof.
  destruct ev as [n m|n]; simpl; unfold NotifyJoin, NotifyLeave, startPeerReplicator, stopPeerReplicator.
  - repeat case_decide; [by left..|]. destruct (peerStops f !! n); [by left|right]. by exists n, m.
  - left. simpl. by destruct (peerStops f !! n).
Qed.

(** Every replicator that runs was started by the node. *)
Definition known_reps w : Prop :=
  forall i st, w_reps w !! i = Some st -> exists peer addr, (peer, addr, i) ∈ replicators (w_node w).

Lemma wake_lookup (rs : gmap nat rstate) i st :
  wake rs !! i = Some st -> exists st', rs !! i = Some st' /\ st = match st' with Asleep => Looking | _ => st' end.
Proof. unfold wake. rewrite lookup_fmap. destruct (rs !! i) as [st'|]; [|done]. intros [= <-]. eauto. Qed.

Lemma known_reps_step b w w' : gstep b w w' -> known_reps w -> known_reps w'.
Proof.
  intros Hs HK. destruct Hs; try done.
  - destruct (Start_turn ok _); exact HK.
  - intros i st Hi. simpl in *. match goal with E : handle_batch _ _ _ _ _ = _ |- _ => apply handle_batch_replicators in E as -> end.
    by eapply HK.
  - match goal with E : replicator_round _ _ _ _ _ _ _ = _ |- _ => rename E into Hr end.
    intros j st Hj. destruct r as [| |f']; simpl in *.
    + apply lookup_delete_Some in Hj as [_ Hj]. by eapply HK.
    + apply lookup_insert_Some in Hj as [[<- _]|[_ Hj]]; by eapply HK.
    + unfold replicator_round in Hr. case_decide; [done|]. destruct (i_cancelled _); [done|].
      destruct (_ <? _); [|done]. destruct (replicateToPeer _ _ _ _ _) as [g|] eqn:E; [|done]. simpl in Hr. simplify_eq.
      rewrite (replicateToPeer_replicators _ _ _ _ _ _ E). by eapply HK.
  - intros j st Hj. simpl in *. apply lookup_insert_Some in Hj as [[<- _]|[_ Hj]]; by eapply HK.
  - intros i st Hi. simpl in *. rewrite (node_step_replicators _ _ _ ltac:(eassumption)).
    destruct (logged _ _); [apply wake_lookup in Hi as (st' & Hi & _)|]; by eapply HK.
  - intros i st Hi. simpl in *. fold f in Hi |- *.
    set (rs := match ev with NodeProofs.Leave _ => wake (w_reps w) | _ => w_reps w end) in Hi.
    assert (Hrs : forall j st, rs !! j = Some st -> exists peer addr, (peer, addr, j) ∈ replicators (w_node w)).
    { intros j st0 Hj. unfold rs in Hj. destruct ev; [by eapply HK|]. apply wake_lookup in Hj as (st' & Hj & _). by eapply HK. }
    unfold spawn in Hi. destruct (on_member_replicators (w_node w) ev) as [E|(peer & addr & E)]; fold f in E; rewrite E in *.
    + rewrite Nat.ltb_irrefl in Hi. by eapply Hrs.
    + rewrite length_app in Hi. replace (_ <? _)%nat with true in Hi by (symmetry; apply Nat.ltb_lt; simpl; lia).
      apply lookup_insert_Some in Hi as [[<- _]|[_ Hi]]; [exists peer, addr; set_solver|].
      destruct (Hrs i st Hi) as (p & a & Hin). exists p, a. set_solver.
Qed.

(** Before [Close] nothing ends: every channel is open. *)
Record up w : Prop := {
  up_open : w_open w = all_resources;
  up_chan : w_chan w = mkChannels false false false false false;
  up_cancelled : i_cancelled (w_inst w) = false;
  up_ml : is_Some (i_ml (w_inst w));
  up_known : known_reps w
}.

(** No loop can take a closed channel. *)
Lemma select_open {A} (tick : A -> Prop) : ~ select false tick Ended.
Proof. intros H. inversion H. discriminate. Qed.

Lemma up_step b w w' : gstep b w w' -> up w -> up w'.
Proof.
  intros Hs HU. pose proof (known_reps_step b w w' Hs (up_known _ HU)) as HK. destruct HU as [H1 H2 H3 H4 _].
  destruct Hs; try (by split); try (rewrite H2 in *; by destruct (select_open _ ltac:(eassumption))).
  - rewrite H2 in *. destruct ok; simpl in *; by split.
  - destruct r; by split.
Qed.

(** After [Close]: the channels and the handles are closed, and of goroutines
    there are at most those there were: the five loops, [h] handlers and the
    replicators [rs]. *)
Definition loops : list resource := [RFlushLoop; RStoreJanitor; RClientJanitor; RMemMonitor; RAcceptLoop].

Record down (h : nat) (rs : gset nat) w : Prop := {
  dn_open : w_open w ⊆ loops;
  dn_chan : w_chan w = mkChannels true true true true true;
  dn_cancelled : i_cancelled (w_inst w) = true;
  dn_handlers : (w_handlers w <= h)%nat;
  dn_reps : dom (w_reps w) ⊆ rs;
  dn_known : known_reps w
}.

Lemma release_sub (rs l : list resource) : release rs l ⊆ l.
Proof. intros r [_ Hr]%list_elem_of_filter. exact Hr. Qed.

Lemma down_not_open h rs w r : down h rs w -> r ∉ loops -> r ∉ w_open w.
Proof. intros HD Hr Hin. by apply Hr, (dn_open _ _ _ HD). Qed.

Lemma down_step h rs b w w' : gstep b w w' -> down h rs w -> down h rs w'.
Proof.
  intros Hs HD. pose proof (known_reps_step b w w' Hs (dn_known _ _ _ HD)) as HK.
  assert (Hl : RListener ∉ w_open w) by (eapply down_not_open; [exact HD|set_solver]).
  assert (Hm : RMemberlist ∉ w_open w) by (eapply down_not_open; [exact HD|set_solver]).
  destruct HD as [H1 H2 H3 H4 H5 _].
  assert (Hf : forall r, release [r] (w_open w) ⊆ loops) by (intros r; etrans; [apply release_sub|done]).
  destruct Hs; try (by split); try (split; simpl; auto; fail).
  - destruct ok; [by destruct Hl; auto|]. rewrite H2 in *. simpl in *. split; simpl; auto.
  - split; simpl; auto. lia.
  - destruct r; split; simpl; auto; rewrite ?dom_delete_L, ?dom_insert_L; [set_solver|].
    assert (i ∈ dom (w_reps w)) by (by apply elem_of_dom). set_solver.
  - split; simpl; auto. rewrite dom_insert_L. assert (i ∈ dom (w_reps w)) by (by apply elem_of_dom). set_solver.
  - split; simpl; auto. destruct (logged _ _); [|done]. unfold wake. by rewrite dom_fmap_L.
Qed.

Lemma up_steps w w' : gsteps w w' -> up w -> up w'.
Proof. induction 1 as [|w w1 w2 [b Hs] _ IH]; [done|]. intros HU. by eapply IH, up_step. Qed.


(** ** The end of every goroutine *)

Lemma gstep_gsteps b w w' : gstep b w w' -> gsteps w w'.
Proof. intros Hs. apply rtc_once. by exists b. Qed.








(** A replicator that slept through the broadcast of [Close] stays while nothing
    is appended to the log. *)
Lemma sleeper_stays h rs w w' i :
  rtc (gstep false) w w' -> down h rs w -> w_reps w !! i = Some Asleep -> w_reps w' !! i = Some Asleep.
Proof.
  induction 1 as [|w w1 w2 Hs _ IH]; [done|]. intros HD Hi. apply IH; [by eapply down_step|].
  assert (Hm : RMemberlist ∉ w_open w) by (eapply down_not_open; [exact HD|set_solver]).
  remember false as b eqn:Hb. destruct Hs; try done.
  - by destruct (Start_turn ok _).
  - destruct r; simpl; [rewrite lookup_delete_ne|rewrite lookup_insert_ne|]; congruence.
  - simpl. rewrite lookup_insert_ne; congruence.
  - simpl. by rewrite Hb.
Qed.
End invariants.

(** ** Theorem *)

Lemma New_started {O DB} {C : ValCodec O} {B : Badger DB} (H : Host DB) cfg unix now wall open (n : RunningNode O DB) :
  New H cfg unix now wall = Ret (open, inr n) ->
  open = all_resources /\ is_Some (i_ml n) /\ i_channels n = mkChannels false false false false false /\
  i_cancelled n = false /\ peers_inv (i_node n).
Proof.
  intros Hn. unfold New, newStore, NewStreamServer in Hn. destruct (open_db _ _ _); [|done]. destruct (view_error H); [done|].
  destruct (load _ _) as [s|]; [|done]. cbn [go_bind] in Hn. destruct (listen _ _ _); [|done].
  destruct (memberlist_Create _ _ _); [|done]. injection Hn as <- <-. split_and!; try done. simpl.
  match goal with |- peers_inv (foldl ?g ?f ?l) => pose proof (joined_fold f l) as [_ HI] end.
  apply HI. by destruct (new_node_peers (O := O) (node_id cfg (hostname H) unix) (cfg_AuthToken cfg)
    (LogSize cfg) wall (DisableMetrics cfg)).
Qed.

Lemma started_up {O DB} (open : list resource) (n : RunningNode O DB) :
  open = all_resources -> is_Some (i_ml n) -> i_channels n = mkChannels false false false false false ->
  i_cancelled n = false -> peers_inv (i_node n) -> up (started open n).
Proof.
  intros Ho Hm Hc Hca HP. split; [done..|]. intros i st Hi. simpl in *.
  apply lookup_gset_to_gmap_Some in Hi as [Hi _]. apply elem_of_set_seq in Hi.
  destruct (lookup_lt_is_Some_2 (replicators (i_node n)) i) as [[[p a] ch] Hr]; [lia|].
  pose proof (pi_chan _ HP _ _ _ _ Hr) as ->. exists p, a. by eapply list_elem_of_lookup_2.
Qed.

(** [Close] on a running node. *)
Lemma close_down {O T DB} {M : Msgpack O T} {W : Wire} {SB : Source bytes} {C : ValCodec O} {B : Badger DB} {RO : RangeOrder}
    (H : Host DB) (w : world O DB) ck late :
  up w ->
  exists w1 err, close_world H w ck late = Ret (w1, err) /\ w_open w1 = loops /\ down (w_handlers w) (dom (w_reps w)) w1 /\
    (i_pending (w_inst w) = None -> i_db (w_inst w1) = store_close (cstore (i_node (w_inst w))) (i_db (w_inst w)) ck) /\
    client (i_node (w_inst w1)) = client_Close (client (i_node (w_inst w))).
Proof.
  intros [U1 U2 U3 [ml U4] U5].
  destruct (Close_open H (w_open w) (w_inst w) ck late U2) as (n' & err & Hcl & Hdb & Hcli & Hreps & _ & Hca' & Hch).
  rewrite U4, U1 in Hcl. exists (mkWorld loops n' (w_handlers w) (wake (w_reps w))), err.
  split_and!; [unfold close_world; by rewrite U1, Hcl|done| |done|done]. split; simpl; auto.
  - unfold wake. by rewrite dom_fmap_L.
  - intros i st Hi. simpl in *. apply wake_lookup in Hi as (st' & Hi & _). rewrite Hreps. by eapply U5.
Qed.


#[local] Existing Instances MemDB.badger MemDB.laws FixedVal.codec FixedVal.codec_laws.

(** A node with one peer, after it has accepted a connection and its replicator
    has decided to wait, and after the replicator has gone to sleep. *)
Definition deciding (n : RunningNode unit MemDB.t) : world unit MemDB.t :=
  let w := set_handlers 1 (started all_resources n) in set_reps (<[0%nat := Decided]> (w_reps w)) w.

Definition sleeping (n : RunningNode unit MemDB.t) : world unit MemDB.t :=
  set_reps (<[0%nat := Asleep]> (w_reps (deciding n))) (deciding n).

#[local] Existing Instances Tagged.msgpack Fixed.wire Fixed.source.

(** What the sample host starts. *)
Record sample_node (n : RunningNode unit MemDB.t) : Prop := {
  sn_id : nodeID (i_node n) = "box-1700000000";
  sn_reps : replicators (i_node n) = [("n2", "10.0.0.2:7000", 0%nat)];
  sn_cancelled : i_cancelled n = false;
  sn_round : replicator_round (i_node n) false "n2" 0 5 true true = Ret LoopWait
}.

Definition sample_facts : option (list resource * string * list (string * string * nat) * bool * bool) :=
  match sample_started EmptyString with
  | Ret (open, inr n) =>
      Some (open, nodeID (i_node n), replicators (i_node n), i_cancelled n,
            match replicator_round (i_node n) false "n2" 0 5 true true with Ret LoopWait => true | _ => false end)
  | _ => None
  end.

Lemma sample_facts_eq :
  sample_facts = Some (all_resources, "box-1700000000", [("n2", "10.0.0.2:7000", 0%nat)], false, true).
Proof. vm_compute. reflexivity. Qed.

Lemma sample_starts : exists n, sample_started EmptyString = Ret (all_resources, inr n) /\ sample_node n.
Proof.
  pose proof sample_facts_eq as E. unfold sample_facts in E.
  destruct (sample_started EmptyString) as [[open [e|n]]|]; [discriminate E| |discriminate E].
  injection E as -> H2 H3 H4 H5. exists n. split; [done|]. split; [done..|].
  by destruct (replicator_round _ _ _ _ _ _ _) as [[]|].
Qed.

Lemma sample_decides n : sample_node n -> gsteps (started all_resources n) (deciding n).
Proof.
  intros [_ Hr Hc Hround].
  eapply rtc_l; [eexists; apply (g_accept _ true); simpl; set_solver|]. apply rtc_once. exists false.
  apply (g_replicator (set_handlers 1 (started all_resources n)) 0 "n2" "10.0.0.2:7000" 5 true true LoopWait); simpl.
  - by rewrite Hr.
  - rewrite Hr. set_solver.
  - intros i Hi. simpl in Hi. by apply lookup_gset_to_gmap_Some in Hi as [_ [=]].
  - by rewrite Hc.
Qed.

Lemma sample_sleeps n : sample_node n -> gsteps (started all_resources n) (sleeping n).
Proof.
  intros Hn. eapply rtc_r; [by apply sample_decides|]. exists false. apply g_sleep. simpl. by rewrite lookup_insert_eq.
Qed.

Lemma close_world_reps (H : Host MemDB.t) (w w1 : world unit MemDB.t) ck late err :
  close_world H w ck late = Ret (w1, err) -> w_handlers w1 = w_handlers w /\ w_reps w1 = wake (w_reps w).
Proof.
  unfold close_world. destruct (Close _ _ _ _ _) as [[[o n'] er]|]; [|done]. simpl. by intros [= <- _].
Qed.


(** ** Limits *)

(** [Close] broadcasts without the lock of the log: a replicator that has just
    looked at the stop channels misses it and goes to sleep, and as long as
    nothing is appended it does not return. *)
Example broadcast_is_missed :
  exists n w1 w2 err, sample_started EmptyString = Ret (all_resources, inr n) /\
    close_world (sample_host db_empty bound_port) (deciding n) (steady 9) false = Ret (w1, err) /\
    gsteps w1 w2 /\ forall w3, rtc (gstep false) w2 w3 -> w_reps w3 !! 0%nat = Some Asleep.
Proof.
  destruct sample_starts as (n & E & Hn). pose proof (New_started _ _ _ _ _ _ _ E) as (Ho & Hm & Hc & Hca & HP).
  pose proof (up_steps _ _ (sample_decides n Hn) (started_up _ _ Ho Hm Hc Hca HP)) as HU.
  destruct (close_down (sample_host db_empty bound_port) (deciding n) (steady 9) false HU) as (w1 & err & Hcl & _ & HD & _).
  destruct (close_world_reps _ _ _ _ _ _ Hcl) as [_ Hr].
  assert (Hi : w_reps w1 !! 0%nat = Some Decided) by (rewrite Hr; unfold wake; simpl; by rewrite lookup_fmap, lookup_insert_eq).
  exists n, w1, (set_reps (<[0%nat := Asleep]> (w_reps w1)) w1), err.
  pose proof (g_sleep w1 0 Hi) as Hs. split_and!; [done|done|by eapply gstep_gsteps|].
  intros w3 Hs3. eapply sleeper_stays; [exact Hs3|by eapply down_step|]. simpl. by rewrite lookup_insert_eq.
Qed.

(** A batch with a count, and the count of the sample node before and after a
    handler has applied it, both after [Close]. *)
Definition late_batch : Batch :=
  mkBatch "n3" [Some (marshal (mkLogEntry 1 (mkTimestamp 900 0) 0 MsgIncr "hits" "n3" None (float64_of_Z 3) 0))]
    (Some (mkHandshake 0 "secret")).

Definition late_counts : option (Z * Z) :=
  match sample_started EmptyString with
  | Ret (_, inr n) =>
      match close_world (sample_host db_empty bound_port) (sleeping n) (steady 9) false with
      | Ret (w, _) =>
          match handle_batch (fun _ => (10, 10)) (i_node (w_inst w)) true 0 late_batch with
          | inr (f, _) => Some (GetCount (i_node (w_inst w)) "hits", GetCount f "hits")
          | inl _ => None
          end
      | Panic => None
      end
  | _ => None
  end.

Lemma late_counts_eq : late_counts = Some (0, 3).
Proof. vm_compute. reflexivity. Qed.

(** [Stop] ends no handler: after [Close] the handler of an open connection still
    applies the batches of its stream, to a store whose database is closed. *)
Example handler_outlives_Close :
  exists n w1 w2 err, sample_started EmptyString = Ret (all_resources, inr n) /\
    close_world (sample_host db_empty bound_port) (sleeping n) (steady 9) false = Ret (w1, err) /\ w_open w1 = loops /\
    gsteps w1 w2 /\ GetCount (i_node (w_inst w1)) "hits" = 0 /\ GetCount (i_node (w_inst w2)) "hits" = 3.
Proof.
  destruct sample_starts as (n & E & Hn). pose proof (New_started _ _ _ _ _ _ _ E) as (Ho & Hm & Hc & Hca & HP).
  pose proof (up_steps _ _ (sample_sleeps n Hn) (started_up _ _ Ho Hm Hc Hca HP)) as HU.
  destruct (close_down (sample_host db_empty bound_port) (sleeping n) (steady 9) false HU) as (w1 & err & Hcl & Hop & _).
  destruct (close_world_reps _ _ _ _ _ _ Hcl) as [Hh _].
  pose proof late_counts_eq as El. unfold late_counts in El. rewrite E, Hcl in El.
  destruct (handle_batch _ _ _ _ _) as [r|[f k]] eqn:Eb; [discriminate El|]. injection El as H0 H3.
  exists n, w1, (set_node f w1), err. split_and!; [done|done|done| |done|done].
  eapply gstep_gsteps, (g_batch w1 _ true 0 late_batch f k); [by rewrite Hh|exact Eb].
Qed.
